(* ===== verification/_CoqProject ===== *)
-Q . S2P
Prelude.v
OrdMap.v
Types.v
Ids.v
Graph.v
Codec.v
Serialization.v
State.v
StateCodec.v
Fold.v
Derive.v
Log.v
Digest.v
Fips.v
Words.v
Text.v
Time.v
Names.v
Json.v
FlatJson.v
Snapshot.v
SnapshotCodec.v
ViewCodec.v
Protocol.v
Socket.v
Net.v
FileIo.v
Store.v
StoreFrame.v
StoreOpen.v
DurableLog.v
StoreGuarantees.v
Admit.v
Ingest.v
Session.v
Recovery.v
Invariant.v
WellFormed.v
Replica.v
Canonical.v
Views.v
ReplicaViews.v
SnapshotBuild.v
Render.v
RenderReads.v
Server.v
Client.v
Remote.v
ServerLife.v
ServerNet.v
Fencing.v
Durability.v
Restart.v
Ceilings.v
Delivery.v
ArrivalOrder.v
Concurrent.v
Guarantees.v
Twins.v
Script.v
Cli.v
CliRuns.v
Daemon.v
DaemonLife.v
Scenarios.v
RemoteScenarios.v
ServingScenarios.v
Examples.v
CliScenarios.v
Disk.v
