(* ===== verification/Prelude.v ===== *)
(** * Cable Attachment Registry: verification development

    The program keeps, from evidence that sources publish, a graph of which side
    of which cable is attached to which port of which endpoint.  It is a C++
    library with a daemon around it:

    - a source opens a session (one incarnation of the source) and publishes
      evidence: registrations, attachments, detachments, moves, lifecycle
      statements, reincarnations and capabilities;
    - the registry admits or refuses each record, folds an admitted one into the
      claim key it speaks about, and appends it to a durable log before it
      acknowledges it;
    - queries derive views of ports, objects and endpoints, histories, snapshots
      and digests from the folded records;
    - a restart replays the log; a compaction replaces the log by one image of the
      state;
    - a server offers the calls of the registry to clients over framed streams, and
      answers can be rendered as JSON;
    - a command line tool runs scripts of evidence and single queries, on a registry
      in its own process or through a server.

    ** The files, in dependency order

    Vocabulary and codecs.
    - [Prelude.v]: machine integers and their wrap-around, orders, [std::sort] and
      [std::unique], bytes and strings, shared lemmas and tactics.
    - [OrdMap.v]: [std::map] as a sorted association list.
    - [Types.v], [Graph.v]: the enumerations and records of
      [include/cable_registry/*.hpp], the limits and their validation
      ([limits.cpp]).
    - [Ids.v]: [ids.cpp].
    - [Codec.v]: [codec.cpp], the bounded [Encoder] and [Decoder] as state
      transformers, the notion of a round trip and its automation ([rt_steps]).
    - [Serialization.v], [ViewCodec.v]: [serialization.cpp], one definition per
      encoder and decoder.
    - [Digest.v], [Words.v]: [digest.cpp], SHA-256 and CRC-32C. [Fips.v]: the Secure
      Hash Standard transcribed, its constants computed from the roots of primes, and
      the proof that the code computes it.
    - [Text.v], [Time.v]: [std::to_string], the conversions of [std::snprintf], and
      [time.cpp] against the Gregorian calendar.
    - [Names.v]: the names of the enumerators, from [authority.cpp],
      [capability.cpp], [identity.cpp], [graph.cpp], [evidence.cpp], [error.cpp] and
      the files that declare an enumeration of their own.

    The registry.
    - [State.v], [StateCodec.v]: [registry_state.hpp] and [registry_state.cpp], the
      claim tables and the state image.
    - [Fold.v], [Derive.v], [Admit.v], [Ingest.v], [Session.v], [Recovery.v],
      [Views.v]: [registry.cpp], in the order folding, derivations, admission
      ([Impl::decide]), [Ingest] and [IngestBatch], sessions, [Open] and [Compact],
      and the views.  [Impl] of [Ingest.v] is [Registry::Impl]; an operation maps
      it to its result and the next one.
    - [Log.v]: the interface [AppendLog] between the registry and its store.  The
      registry is written and proved against it.
    - [Snapshot.v], [SnapshotCodec.v], [SnapshotBuild.v]: [snapshot.cpp] and the
      snapshot, inspection and statistics part of [registry.cpp].

    Rendering.
    - [Json.v]: [JsonWriter] of [render.cpp], and a reader of JSON to measure it
      against. [Render.v]: the [write_...] helpers and the overloads of [to_json].
      [RenderReads.v]: what a reader finds in them. [FlatJson.v]:
      [parse_flat_json].

    The store.
    - [FileIo.v]: [detail/file_io.cpp] over a world of files and a script of what the
      operating system answers.
    - [Store.v]: [persistence.cpp]. [StoreFrame.v], [StoreOpen.v] and [DurableLog.v]
      show that it implements [AppendLog]; [StoreGuarantees.v] states what it
      promises about bytes.

    The daemon.
    - [Protocol.v]: [ipc/protocol.cpp], [ipc/messages.hpp]. [Socket.v], [Net.v]:
      [ipc/socket.cpp], the transfer loops and the operations that take and give
      back descriptors. [Server.v], [Client.v]: [ipc/server.cpp], [ipc/client.cpp].
    - [ServerLife.v]: the acceptor, the connection threads and [Stop] as one state
      machine. [ServerNet.v]: [Server::Start], and the same machine with the sockets
      its threads hold. [Concurrent.v]: the same machine with what the threads
      serve, to any number of peers at once.

    The tools.
    - [Script.v]: the texts the command line tool reads. [Cli.v]: one process of
      [tools/cli_main.cpp]; its [Handle] is a class with an instance for a registry
      in process and one for a client. [CliRuns.v]: the theorems about it.
    - [Daemon.v]: the arguments and the options of [tools/daemon_main.cpp].
      [DaemonLife.v]: its [main], from opening the registry to closing it.
    - [Examples.v]: the three programs of [examples/], with what they print.

    Theorems across components.
    - [Invariant.v], [WellFormed.v]: the invariant of every reachable registry.
      [Canonical.v]: what the decoder of evidence accepts.
    - [Replica.v], [ReplicaViews.v]: states that hold the same evidence, with
      setoid rewriting for the relation.  The class [Forgets] says what two such
      states may differ in: the facts of one process, or also the times at which
      records were received.  [Twins.v]: independent registries sent the same
      evidence.
    - [Fencing.v], [Durability.v], [Restart.v], [Ceilings.v], [Delivery.v],
      [ArrivalOrder.v], [Guarantees.v]: see below. [Remote.v]: calls through the wire. [Disk.v]: the registry on the
      bytes of its file. [Scenarios.v], [RemoteScenarios.v], [ServingScenarios.v],
      [CliScenarios.v]: concrete runs.

    ** What is proved

    - Durability: an acknowledged record is in the log; replaying the log rebuilds
      a replica of the state; a store compacted while the state fits the bounds of
      the image reader opens to what the uncompacted one opens to, and one compacted
      while it does not fit is rejected; a registry cut off at any call reopens on
      the bytes of its file with the same identity and evidence ([Delivery.v],
      [Durability.v], [Restart.v], [Ceilings.v], [Disk.v]).
    - The store: an append to a clean store or a rewrite is all or nothing whatever the operating
      system answers, an open hands out exactly the records of a log, and damage of
      up to four neighbouring bytes of a frame is never replayed
      ([StoreGuarantees.v]).
    - Meaning: what a claim key holds after a run of accepted records does not depend
      on their order, reincarnations apart ([Fold.v], [ArrivalOrder.v]); the state of a port and of an object side is exactly what
      their declarative specifications say ([Views.v], [Derive.v]); a fenced
      session stays fenced and its evidence inert ([Fencing.v]); snapshots are a
      function of the evidence and their encoding is canonical ([SnapshotBuild.v],
      [SnapshotCodec.v]); two registries sent the same evidence have the same graph
      digest, whatever their clocks and identities ([Twins.v]).
    - Errors: a refused record leaves no trace but in the counters of its session and
      the refusal audit, a retry changes no winner
      ([Delivery.v]).
    - Codecs: evidence, state image, snapshots, views, frames and messages come
      back from their encoding; a record of evidence has one encoding only, and what
      is accepted is well typed and within the limits ([Canonical.v]).
    - The daemon: a call through the wire is the local call ([Remote.v]); the pieces a
      stream is cut into do not matter ([Socket.v]); serving many connections at
      once is serving their requests one after the other, and clients that send any
      bytes in any schedule break no invariant and lose no acknowledged record
      ([Concurrent.v]); the server accounts for its connections, and [Stop] returns
      and leaves nothing running but threads that have deregistered and still have to
      notify it, which can outlive the server ([ServerLife.v]); no descriptor is lost, whatever
      the operating system answers, and they fit [select] under a condition on the
      limits ([Net.v], [ServerNet.v]); a shutdown request is never lost on the thread
      that waits for it, and the daemon stops when, and only when, a client
      it permits to asks for it ([DaemonLife.v]).
    - Rendering: every overload of [to_json] gives one document that a reader of JSON
      bytes reads back as the whole answer ([RenderReads.v]); the text of a time is a
      date of the calendar and names exactly its instant ([Time.v]).
    - The tools: what a script sends follows from its text, its records continue
      the sessions it opened, a run over the wire is a run in process, and a run
      with a time base is reproducible; the commands that publish a single record
      never do, unless the file of their script cannot be written and a stale one is
      run in its place ([CliRuns.v]).
    - Checksums: the streaming SHA-256 is the SHA-256 of the standard of the whole
      message ([Fips.v]), and the table-driven CRC-32C the bit-serial one
      ([Digest.v]).
    - Some theorems exhibit behaviour that differs from the documentation or from
      what was meant; they say so.

    ** Bounds and fuel

    Integers are [Z] with the wrap-around of their width written where the code
    computes; [WellFormed.v] shows that stored integers stay in range.  The scan of
    a log file takes as many steps as the file has bytes, and [scan_terminates]
    shows that this is enough; the replay takes as many as the valid prefix has
    bytes.  [serve_connection] takes the number of requests before the stop flag is
    seen, and [serving_ends] shows that the number of bytes sent is enough for all
    of them.  The readers of text ([parse_flat_json] and the reader of [Json.v]) take
    as many steps as the text has characters; the read-back theorems are about
    results, so they include that this is enough for what the writer produces.

    ** Not modelled

    - The locks of the registry: each public call is atomic, which is what the
      reader-writer lock provides.
    - The operating system: its answers to socket and file calls are arguments, and
      name resolution is the number of addresses it finds.  The Windows branches,
      signals and directory creation are left out.  In [Client.v] and [Concurrent.v]
      closing a socket shows as the end of the peer's bytes; the checks for a closed
      handle are in [Net.v], the loops behind them in [Socket.v].
    - Time: a poll interval that passes without data is a step that changes nothing.
      Condition variables are modelled: a thread sleeps, a notification wakes it, it
      may wake by itself, and the notification is a step of its own after the mutex
      is released.
    - The order in which [std::sort] leaves elements that compare equal: the model
      sorts stably, which is one of the orders the standard allows. It can show where
      different elements compare equal, as two attachments of one object at the same
      slot of one port do in [canonicalise].
    - [std::bad_alloc] and other exceptions of the standard library.
    - The clock and the random numbers of a new identity are arguments.
    - The contents of a script file, and the opening of the registry or of the
      connection, are arguments of the command line tool.
    - The tests and the benchmark, which exercise the library and add nothing to it.
    - [JsonWriter::number] of a [double], which nothing calls.
    - Undefined behaviour: where a script's time base and counter leave the signed
      range, the model wraps (see [Cli.v]). *)
From stdpp Require Export prelude sorting strings.
From Stdlib Require Export ZArith Lia.

#[local] Open Scope Z_scope.

(** ** Machine integers

    Every fixed-width integer of the source is a [Z]; these predicates state
    the width it is kept at. *)

Definition is_u8 (z : Z) : Prop := 0 <= z < 2 ^ 8.
Definition is_u16 (z : Z) : Prop := 0 <= z < 2 ^ 16.
Definition is_u32 (z : Z) : Prop := 0 <= z < 2 ^ 32.
Definition is_u64 (z : Z) : Prop := 0 <= z < 2 ^ 64.
Definition is_i64 (z : Z) : Prop := - 2 ^ 63 <= z < 2 ^ 63.

(** Unsigned wrap-around at a given width, for the places where the source
    computes in [std::uint32_t] or [std::uint64_t]. *)
Definition wrap32 (z : Z) : Z := z mod 2 ^ 32.
Definition wrap64 (z : Z) : Z := z mod 2 ^ 64.

(** [static_cast<std::uint64_t>] of an [std::int64_t], and back. *)
Definition i64_to_u64 (z : Z) : Z := z mod 2 ^ 64.
Definition u64_to_i64 (z : Z) : Z := if z <? 2 ^ 63 then z else z - 2 ^ 64.

(** [container.size()] as an unsigned integer. *)
Definition zlen {A} (l : list A) : Z := Z.of_nat (length l).

Lemma wrap32_small z : is_u32 z -> wrap32 z = z.
Proof. apply Z.mod_small. Qed.

Lemma wrap64_small z : is_u64 z -> wrap64 z = z.
Proof. apply Z.mod_small. Qed.

Lemma wrap32_u32 z : is_u32 (wrap32 z).
Proof. unfold is_u32, wrap32. apply Z.mod_pos_bound. lia. Qed.

Lemma wrap64_u64 z : is_u64 (wrap64 z).
Proof. unfold is_u64, wrap64. apply Z.mod_pos_bound. lia. Qed.

Lemma i64_u64_i64 z : is_i64 z -> u64_to_i64 (i64_to_u64 z) = z.
Proof.
  unfold is_i64, u64_to_i64, i64_to_u64. intros [Hl Hu].
  destruct (Z.ltb_spec (z mod 2 ^ 64) (2 ^ 63)) as [H|H];
  destruct (decide (0 <= z)) as [Hz|Hz].
  - apply Z.mod_small; lia.
  - exfalso. rewrite <- (Z.mod_add z 1) in H by lia.
    rewrite Z.mod_small in H by lia. lia.
  - rewrite Z.mod_small in H by lia. lia.
  - rewrite <- (Z.mod_add z 1) by lia. rewrite Z.mod_small by lia. lia.
Qed.

Lemma i64_to_u64_range z : is_u64 (i64_to_u64 z).
Proof. apply wrap64_u64. Qed.

Lemma testbit_above y k n : 0 <= y < 2 ^ k -> k <= n -> Z.testbit y n = false.
Proof.
  intros Hy Hn. destruct (decide (y = 0)) as [->|]; [apply Z.bits_0|].
  apply Z.bits_above_log2; [lia|]. apply Z.lt_le_trans with k; [|done]. apply Z.log2_lt_pow2; lia.
Qed.

(** A value below a power of two and a multiple of it share no bits. *)
Lemma land_shiftl_low y k x : 0 <= y < 2 ^ k -> 0 <= k -> Z.land y (Z.shiftl x k) = 0.
Proof.
  intros Hy Hk. apply Z.bits_inj'. intros n Hn. rewrite Z.land_spec, Z.bits_0, Z.shiftl_spec by lia.
  destruct (Z.lt_ge_cases n k).
  - rewrite (Z.testbit_neg_r x) by lia. apply andb_false_r.
  - by rewrite (testbit_above y k).
Qed.

Lemma zlen_nonneg {A} (l : list A) : 0 <= zlen l.
Proof. unfold zlen. lia. Qed.

Lemma zlen_nil {A} : zlen (@nil A) = 0.
Proof. done. Qed.

Lemma zlen_cons {A} (x : A) l : zlen (x :: l) = 1 + zlen l.
Proof. unfold zlen. cbn [length]. lia. Qed.

Lemma zlen_app {A} (l1 l2 : list A) : zlen (l1 ++ l2) = zlen l1 + zlen l2.
Proof. unfold zlen. rewrite length_app. lia. Qed.

(** ** Total orders

    C++'s defaulted [operator<=>] compares members lexicographically in
    declaration order.  [Ord] packages such a comparison with its laws, and
    [Ord_inj] transports it along the tuple of a record's members. *)

Class Ord (A : Type) := {
  cmp : A -> A -> comparison;
  cmp_eq : forall a b, cmp a b = Eq <-> a = b;
  cmp_opp : forall a b, cmp b a = CompOpp (cmp a b);
  cmp_lt_trans : forall a b c, cmp a b = Lt -> cmp b c = Lt -> cmp a c = Lt;
}.

Definition kltb {A} `{Ord A} (a b : A) : bool :=
  match cmp a b with Lt => true | _ => false end.
Definition keqb {A} `{Ord A} (a b : A) : bool :=
  match cmp a b with Eq => true | _ => false end.

Declare Scope ord_scope.
Delimit Scope ord_scope with ord.
Notation "a <? b" := (kltb a b) : ord_scope.
Notation "a =? b" := (keqb a b) : ord_scope.

Section ord_facts.
Context {A : Type} `{Ord A}.
Implicit Types a b c : A.

Lemma cmp_refl a : cmp a a = Eq.
Proof. by apply cmp_eq. Qed.

Lemma kltb_spec a b : kltb a b = true <-> cmp a b = Lt.
Proof. unfold kltb. destruct (cmp a b); naive_solver. Qed.

Lemma keqb_eq a b : keqb a b = true <-> a = b.
Proof. unfold keqb. rewrite <- cmp_eq. destruct (cmp a b); naive_solver. Qed.

Lemma keqb_neq a b : keqb a b = false <-> a ≠ b.
Proof. rewrite <- keqb_eq. destruct (keqb a b); naive_solver. Qed.

Lemma keqb_refl a : keqb a a = true.
Proof. by apply keqb_eq. Qed.

Lemma kltb_irrefl a : kltb a a = false.
Proof. unfold kltb. by rewrite cmp_refl. Qed.

Lemma kltb_trans a b c : kltb a b = true -> kltb b c = true -> kltb a c = true.
Proof. rewrite !kltb_spec. apply cmp_lt_trans. Qed.

Lemma kltb_asym a b : kltb a b = true -> kltb b a = false.
Proof. unfold kltb. rewrite (cmp_opp a b). by destruct (cmp a b). Qed.

Lemma kltb_total a b : kltb a b = false -> kltb b a = false -> a = b.
Proof.
  unfold kltb. rewrite (cmp_opp a b), <- cmp_eq. by destruct (cmp a b).
Qed.

Lemma kltb_neq a b : kltb a b = true -> a ≠ b.
Proof. intros H1 ->. by rewrite kltb_irrefl in H1. Qed.

#[export] Instance ord_eq_dec : EqDecision A.
Proof.
  intros a b. destruct (cmp a b) eqn:E.
  - left. by apply cmp_eq.
  - right. intros ->. by rewrite cmp_refl in E.
  - right. intros ->. by rewrite cmp_refl in E.
Defined.
End ord_facts.

#[export] Program Instance Z_ord : Ord Z := {| cmp := Z.compare |}.
Next Obligation. apply Z.compare_eq_iff. Qed.
Next Obligation. intros. apply Z.compare_antisym. Qed.
Next Obligation. intros a b c. rewrite !Z.compare_lt_iff. lia. Qed.

Definition lex_cmp {A B} `{Ord A, Ord B} (x y : A * B) : comparison :=
  match cmp x.1 y.1 with Eq => cmp x.2 y.2 | c => c end.

#[export] Program Instance prod_ord {A B} `{Ord A, Ord B} : Ord (A * B) :=
  {| cmp := lex_cmp |}.
Next Obligation.
  intros A B ? ? [a1 b1] [a2 b2]. unfold lex_cmp. cbn.
  destruct (cmp a1 a2) eqn:E1.
  - apply cmp_eq in E1 as ->. rewrite cmp_eq. naive_solver.
  - split; [done|]. intros [= -> ->]. by rewrite cmp_refl in E1.
  - split; [done|]. intros [= -> ->]. by rewrite cmp_refl in E1.
Qed.
Next Obligation.
  intros A B ? ? [a1 b1] [a2 b2]. unfold lex_cmp. cbn.
  rewrite (cmp_opp a1 a2), (cmp_opp b1 b2). by destruct (cmp a1 a2).
Qed.
Next Obligation.
  intros A B ? ? [a1 b1] [a2 b2] [a3 b3]. unfold lex_cmp. cbn.
  destruct (cmp a1 a2) eqn:E1; destruct (cmp a2 a3) eqn:E2; try done.
  - apply cmp_eq in E1 as ->. apply cmp_eq in E2 as ->. rewrite cmp_refl.
    apply cmp_lt_trans.
  - apply cmp_eq in E1 as ->. by rewrite E2.
  - apply cmp_eq in E2 as ->. by rewrite E1.
  - by rewrite (cmp_lt_trans _ _ _ E1 E2).
Qed.

Definition Ord_inj {A B} (f : A -> B) `{Ord B} (Hinj : forall x y, f x = f y -> x = y) : Ord A.
Proof.
  refine {| cmp a b := cmp (f a) (f b) |}.
  - intros a b. rewrite cmp_eq. naive_solver.
  - intros a b. apply cmp_opp.
  - intros a b c. apply cmp_lt_trans.
Defined.

(** Lexicographic comparison of sequences, as [std::string] and
    [std::vector] compare. *)
Fixpoint list_cmp {A} `{Ord A} (l k : list A) : comparison :=
  match l, k with
  | [], [] => Eq
  | [], _ :: _ => Lt
  | _ :: _, [] => Gt
  | x :: l', y :: k' => match cmp x y with Eq => list_cmp l' k' | c => c end
  end.

#[export] Program Instance list_ord {A} `{Ord A} : Ord (list A) := {| cmp := list_cmp |}.
Next Obligation.
  intros A ? l. induction l as [|x l IH]; intros [|y k]; cbn; [done..|].
  destruct (cmp x y) eqn:E.
  - apply cmp_eq in E as ->. rewrite IH. naive_solver.
  - split; [done|]. intros [= -> ->]. by rewrite cmp_refl in E.
  - split; [done|]. intros [= -> ->]. by rewrite cmp_refl in E.
Qed.
Next Obligation.
  intros A ? l. induction l as [|x l IH]; intros [|y k]; cbn; [done..|].
  rewrite (cmp_opp x y). destruct (cmp x y); cbn; auto.
Qed.
Next Obligation.
  intros A ? l. induction l as [|x l IH]; intros [|y k] [|z j]; cbn; try done.
  destruct (cmp x y) eqn:E1, (cmp y z) eqn:E2; try done.
  - apply cmp_eq in E1 as ->. rewrite E2. apply IH.
  - apply cmp_eq in E1 as ->. by rewrite E2.
  - apply cmp_eq in E2 as ->. by rewrite E1.
  - by rewrite (cmp_lt_trans _ _ _ E1 E2).
Qed.

(** ** [std::sort] and [std::unique] *)

(** [std::sort] with a strict comparator.  The standard leaves the relative
    order of equivalent elements open; the model fixes the one of merge sort.
    Where the comparator is total on the elements sorted the result is the
    only sorted permutation ([std_sort_unique]). *)
Definition not_after {A} (lt : A -> A -> bool) (a b : A) : Prop := lt b a = false.

#[export] Instance not_after_dec {A} (lt : A -> A -> bool) : RelDecision (not_after lt).
Proof. intros a b. unfold not_after. apply _. Defined.

Definition std_sort {A} (lt : A -> A -> bool) (l : list A) : list A :=
  merge_sort (not_after lt) l.

(** [v.erase(std::unique(v.begin(), v.end()), v.end())]: drops every element
    equal to the one kept before it. *)
Fixpoint std_unique {A} (eq : A -> A -> bool) (l : list A) : list A :=
  match l with
  | [] => []
  | x :: l' =>
      match std_unique eq l' with
      | [] => [x]
      | y :: r => if eq x y then x :: r else x :: y :: r
      end
  end.

Class StrictLt {A} (lt : A -> A -> bool) := {
  slt_asym : forall a b, lt a b = true -> lt b a = false;
  slt_neg_trans : forall a b c, lt b a = false -> lt c b = false -> lt c a = false;
}.

Section sorting.
Context {A : Type} (lt : A -> A -> bool) `{!StrictLt lt}.

#[local] Instance std_sort_total : Total (not_after lt).
Proof.
  intros a b. unfold not_after. destruct (lt b a) eqn:E; [right|by left]. by apply slt_asym.
Qed.

#[local] Instance std_sort_transitive : Transitive (not_after lt).
Proof. intros a b c. unfold not_after. apply slt_neg_trans. Qed.

Lemma std_sort_sorted l : StronglySorted (not_after lt) (std_sort lt l).
Proof. apply (StronglySorted_merge_sort _). Qed.

Lemma std_sort_perm l : std_sort lt l ≡ₚ l.
Proof. apply merge_sort_Permutation. Qed.

(** A sorted permutation of [l] on whose elements the comparator is total is
    the sort of [l]. *)
Lemma std_sort_unique l k :
  (forall a b, a ∈ l -> b ∈ l -> lt a b = false -> lt b a = false -> a = b) ->
  StronglySorted (not_after lt) k ->
  k ≡ₚ l ->
  std_sort lt l = k.
Proof.
  intros Htot Hk Hperm.
  apply (StronglySorted_unique_strong (not_after lt));
    [|apply std_sort_sorted|done|by rewrite std_sort_perm].
  intros a b Ha Hb ??. apply Htot; [..|done|done];
    [rewrite <- (std_sort_perm l)|rewrite <- Hperm]; done.
Qed.

Lemma std_sort_perm_eq l k :
  (forall a b, a ∈ l -> b ∈ l -> lt a b = false -> lt b a = false -> a = b) ->
  l ≡ₚ k -> std_sort lt l = std_sort lt k.
Proof.
  intros Htot Hperm. apply std_sort_unique; [done|apply std_sort_sorted|].
  by rewrite std_sort_perm.
Qed.
End sorting.

(** Sorting commutes with a map the comparator does not notice. *)
Section sort_fmap.
Context {A B : Type} (f : A -> B) (lt : A -> A -> bool) (lt' : B -> B -> bool)
  (Hlt : forall a b, lt' (f a) (f b) = lt a b).

Lemma list_merge_fmap l k :
  list_merge (not_after lt') (f <$> l) (f <$> k) = f <$> list_merge (not_after lt) l k.
Proof using Hlt.
  revert k. induction l as [|x l IHl]; intros k; [by destruct k|].
  induction k as [|y k IHk]; [done|]. cbn -[decide] in *.
  assert (Hd : forall (T : Type) (u v : T),
    (if decide (not_after lt' (f x) (f y)) then u else v) = if decide (not_after lt x y) then u else v).
  { intros T u v. unfold not_after. destruct (decide (lt' _ _ = false)), (decide (lt _ _ = false)); try done;
      rewrite Hlt in *; done. }
  rewrite Hd. destruct (decide (not_after lt x y)); cbn -[decide].
  - f_equal. apply (IHl (y :: k)).
  - f_equal. apply IHk.
Qed.

#[local] Abbreviation fst_ := (fmap (M := list) (fmap (M := option) (fmap (M := list) f))).

Lemma merge_list_to_stack_fmap st l :
  merge_list_to_stack (not_after lt') (fst_ st) (f <$> l) = fst_ (merge_list_to_stack (not_after lt) st l).
Proof using Hlt.
  revert l. induction st as [|[l'|] st IH]; intros l; cbn; [done| |done].
  rewrite list_merge_fmap, IH. done.
Qed.

Lemma merge_stack_fmap st : merge_stack (not_after lt') (fst_ st) = f <$> merge_stack (not_after lt) st.
Proof using Hlt.
  induction st as [|[l|] st IH]; cbn; [done| |done].
  etrans; [|apply list_merge_fmap]. f_equal. exact IH.
Qed.

Lemma std_sort_fmap l : std_sort lt' (f <$> l) = f <$> std_sort lt l.
Proof using Hlt.
  unfold std_sort, merge_sort. change (@nil (option (list B))) with (fst_ []).
  generalize (@nil (option (list A))). induction l as [|x l IH]; intros st; cbn.
  - apply merge_stack_fmap.
  - rewrite <- IH. f_equal. apply (merge_list_to_stack_fmap st [x]).
Qed.
End sort_fmap.

(** ** Boolean searches *)

Lemma existsb_ext {A} (f g : A -> bool) l : (forall x, f x = g x) -> existsb f l = existsb g l.
Proof. intros Hfg. induction l as [|x l IH]; cbn; [done|]. by rewrite Hfg, IH. Qed.

Lemma find_ext {A} (f g : A -> bool) l : (forall x, f x = g x) -> List.find f l = List.find g l.
Proof. intros Hfg. induction l as [|x l IH]; cbn; [done|]. by rewrite Hfg, IH. Qed.

(** ** Bytes of a string *)

Definition byte_of_ascii (c : Ascii.ascii) : Z := Z.of_N (Ascii.N_of_ascii c).
Definition ascii_of_byte (z : Z) : Ascii.ascii := Ascii.ascii_of_N (Z.to_N z).

Fixpoint string_bytes (s : string) : list Z :=
  match s with
  | EmptyString => []
  | String c s' => byte_of_ascii c :: string_bytes s'
  end.

Fixpoint bytes_string (l : list Z) : string :=
  match l with
  | [] => EmptyString
  | z :: l' => String (ascii_of_byte z) (bytes_string l')
  end.

(** [text.size()]. *)
Definition slen (s : string) : Z := zlen (string_bytes s).

Lemma ascii_of_byte_of_ascii c : ascii_of_byte (byte_of_ascii c) = c.
Proof.
  unfold ascii_of_byte, byte_of_ascii. rewrite N2Z.id.
  apply Ascii.ascii_N_embedding.
Qed.

Lemma bytes_string_bytes s : bytes_string (string_bytes s) = s.
Proof.
  induction s as [|c s IH]; cbn; [done|].
  by rewrite IH, ascii_of_byte_of_ascii.
Qed.

Lemma byte_of_ascii_u8 c : is_u8 (byte_of_ascii c).
Proof.
  unfold is_u8, byte_of_ascii.
  pose proof (Ascii.N_ascii_bounded c). lia.
Qed.

Lemma string_bytes_u8 s : Forall is_u8 (string_bytes s).
Proof. induction s; constructor; [apply byte_of_ascii_u8|done]. Qed.

Lemma byte_of_ascii_of_byte z : is_u8 z -> byte_of_ascii (ascii_of_byte z) = z.
Proof.
  intros Hz. unfold is_u8 in Hz. unfold ascii_of_byte, byte_of_ascii.
  rewrite Ascii.N_ascii_embedding by lia. lia.
Qed.

Lemma string_bytes_string l : Forall is_u8 l -> string_bytes (bytes_string l) = l.
Proof.
  induction 1 as [|z l Hz _ IH]; cbn; [done|].
  by rewrite IH, byte_of_ascii_of_byte.
Qed.

(** [std::string] compares by its bytes. *)
#[export] Instance string_ord : Ord string.
Proof.
  apply (Ord_inj string_bytes). intros x y H.
  by rewrite <- (bytes_string_bytes x), <- (bytes_string_bytes y), H.
Defined.
