(* ===== verification/OrdMap.v ===== *)
(** * [std::map] as a sorted association list

    The registry keeps every table in an [std::map], whose iteration order is
    the key order and is observable: it fixes the canonical encodings and the
    order in which views list their entries.  A map is therefore modelled by
    the list of its entries in key order.  The operations keep that order
    ([map_sorted]), and two sorted maps with the same look-ups are equal
    ([map_ext]), so that statements about tables are Leibniz equalities. *)
From S2P Require Import Prelude.
#[local] Open Scope Z_scope.

(** The entries of an [std::map<K, V>] in iteration order. *)
Abbreviation ordmap K V := (list (K * V)) (only parsing).

Section ordmap.
Context {K V : Type} `{Ord K}.
Implicit Types (k : K) (v : V) (m : ordmap K V).

(** [m.find(k)]. *)
Fixpoint map_find k m : option V :=
  match m with
  | [] => None
  | (k', v') :: m' => if keqb k k' then Some v' else map_find k m'
  end.

(** [m[k] = v]: inserts a new entry or replaces the mapped value. *)
Fixpoint map_set k v m : ordmap K V :=
  match m with
  | [] => [(k, v)]
  | (k', v') :: m' =>
      match cmp k k' with
      | Lt => (k, v) :: (k', v') :: m'
      | Eq => (k, v) :: m'
      | Gt => (k', v') :: map_set k v m'
      end
  end.

(** [m.emplace(k, v)]: an existing entry is left alone. *)
Definition map_emplace k v m : ordmap K V :=
  match map_find k m with Some _ => m | None => map_set k v m end.

Definition key_lt (a b : K * V) : Prop := kltb a.1 b.1 = true.
Definition map_sorted m : Prop := StronglySorted key_lt m.

Lemma find_set_eq k v m : map_find k (map_set k v m) = Some v.
Proof.
  induction m as [|[k' v'] m IH]; cbn; [by rewrite keqb_refl|].
  destruct (cmp k k') eqn:E; cbn; rewrite ?keqb_refl; [done..|].
  unfold keqb. by rewrite E.
Qed.

Lemma find_set_ne k k' v m : k ≠ k' -> map_find k (map_set k' v m) = map_find k m.
Proof.
  intros Hne. induction m as [|[k2 v2] m IH]; cbn.
  - apply keqb_neq in Hne. by rewrite Hne.
  - destruct (cmp k' k2) eqn:E; cbn.
    + apply cmp_eq in E as ->. apply keqb_neq in Hne. by rewrite Hne.
    + apply keqb_neq in Hne. by rewrite Hne.
    + by rewrite IH.
Qed.

Lemma find_set k k' v m :
  map_find k (map_set k' v m) = if keqb k k' then Some v else map_find k m.
Proof.
  destruct (keqb k k') eqn:E.
  - apply keqb_eq in E as ->. apply find_set_eq.
  - apply keqb_neq in E. by apply find_set_ne.
Qed.

Lemma find_emplace k k' v m :
  map_find k (map_emplace k' v m) =
  if keqb k k' then Some (default v (map_find k' m)) else map_find k m.
Proof.
  unfold map_emplace. destruct (map_find k' m) eqn:E.
  - destruct (keqb k k') eqn:E'; [|done]. by apply keqb_eq in E' as ->.
  - apply find_set.
Qed.

Lemma map_set_elem k v m e : e ∈ map_set k v m -> e = (k, v) ∨ e ∈ m.
Proof.
  induction m as [|[k' v'] m IH]; cbn.
  - rewrite list_elem_of_singleton. by left.
  - destruct (cmp k k'); rewrite ?elem_of_cons; naive_solver.
Qed.

Lemma map_set_elem_key k v m : (k, v) ∈ map_set k v m.
Proof.
  induction m as [|[k' v'] m IH]; cbn; [by rewrite list_elem_of_singleton|].
  destruct (cmp k k'); rewrite ?elem_of_cons; auto.
Qed.

Lemma map_sorted_set k v m : map_sorted m -> map_sorted (map_set k v m).
Proof.
  induction 1 as [|[k' v'] m Hm IH Hall]; cbn; [repeat constructor|].
  destruct (cmp k k') eqn:E.
  - apply cmp_eq in E as ->. by constructor.
  - constructor; [by constructor|]. constructor; [by apply kltb_spec|].
    eapply Forall_impl; [exact Hall|]. intros x Hx.
    eapply kltb_trans; [|exact Hx]. by apply kltb_spec.
  - constructor; [done|]. apply Forall_forall. intros x Hx.
    apply map_set_elem in Hx as [->|Hx].
    + unfold key_lt. cbn. apply kltb_spec. rewrite (cmp_opp k k'). by rewrite E.
    + by eapply (proj1 (Forall_forall _ _)) in Hall.
Qed.

Lemma map_sorted_emplace k v m : map_sorted m -> map_sorted (map_emplace k v m).
Proof. unfold map_emplace. case_match; [done|]. apply map_sorted_set. Qed.

Lemma find_elem k v m : map_find k m = Some v -> (k, v) ∈ m.
Proof.
  induction m as [|[k' v'] m IH]; cbn; [done|].
  destruct (keqb k k') eqn:E.
  - apply keqb_eq in E as ->. intros [= ->]. by constructor.
  - intros ?. constructor. auto.
Qed.

Lemma find_none_elem k m : map_find k m = None <-> forall v, (k, v) ∉ m.
Proof.
  induction m as [|[k' v'] m IH]; cbn; [split; [intros _ v Hv; inversion Hv|done]|].
  destruct (keqb k k') eqn:E.
  - apply keqb_eq in E as ->. split; [done|]. intros Hn. destruct (Hn v'). by constructor.
  - apply keqb_neq in E. rewrite IH. setoid_rewrite elem_of_cons. naive_solver.
Qed.

Lemma sorted_find m k v : map_sorted m -> (k, v) ∈ m -> map_find k m = Some v.
Proof.
  induction 1 as [|[k' v'] m Hm IH Hall]; cbn; [by inversion 1|].
  rewrite elem_of_cons. intros [[= -> ->]|Hin]; [by rewrite keqb_refl|].
  rewrite Forall_forall in Hall. specialize (Hall _ Hin). unfold key_lt in Hall.
  cbn in Hall. apply kltb_neq, not_eq_sym, keqb_neq in Hall. rewrite Hall. auto.
Qed.

Lemma find_below k0 m k :
  Forall (fun e => kltb k0 e.1 = true) m -> kltb k k0 = true ∨ k = k0 -> map_find k m = None.
Proof.
  intros Hall Hk. apply find_none_elem. intros v Hin.
  rewrite Forall_forall in Hall. specialize (Hall _ Hin). cbn in Hall.
  destruct Hk as [Hk| ->]; [|by rewrite kltb_irrefl in Hall].
  pose proof (kltb_trans _ _ _ Hk Hall) as Hc. by rewrite kltb_irrefl in Hc.
Qed.

(** Two maps with the same look-ups have the same entries in the same
    order. *)
Lemma map_ext m1 m2 :
  map_sorted m1 -> map_sorted m2 ->
  (forall k, map_find k m1 = map_find k m2) -> m1 = m2.
Proof.
  intros H1. revert m2. induction H1 as [|[k1 v1] m1 H1 IH Hall1]; intros m2 H2 Hf.
  - destruct H2 as [|[k2 v2] m2 _ _]; [done|].
    specialize (Hf k2). cbn in Hf. by rewrite keqb_refl in Hf.
  - destruct H2 as [|[k2 v2] m2 H2 Hall2].
    { specialize (Hf k1). cbn in Hf. by rewrite keqb_refl in Hf. }
    assert (k1 = k2) as ->.
    { destruct (cmp k1 k2) eqn:E; [by apply cmp_eq|..].
      - pose proof (Hf k1) as Hf1. cbn in Hf1. rewrite keqb_refl in Hf1.
        unfold keqb in Hf1. rewrite E in Hf1.
        by rewrite (find_below k2) in Hf1 by (done || left; by apply kltb_spec).
      - pose proof (Hf k2) as Hf2. cbn in Hf2. rewrite keqb_refl in Hf2.
        assert (E' : cmp k2 k1 = Lt) by by rewrite (cmp_opp k1 k2), E.
        unfold keqb in Hf2. rewrite E' in Hf2.
        by rewrite (find_below k1) in Hf2 by (done || left; by apply kltb_spec). }
    pose proof (Hf k2) as Hv. cbn in Hv. rewrite keqb_refl in Hv. injection Hv as ->.
    f_equal. apply IH; [done|]. intros k. specialize (Hf k). cbn in Hf.
    destruct (keqb k k2) eqn:E; [|done]. apply keqb_eq in E as ->.
    by rewrite !(find_below k2) by (done || by right).
Qed.

Lemma map_set_comm k1 v1 k2 v2 m :
  map_sorted m -> k1 ≠ k2 ->
  map_set k1 v1 (map_set k2 v2 m) = map_set k2 v2 (map_set k1 v1 m).
Proof.
  intros Hm Hne. apply map_ext; [by do 2 apply map_sorted_set..|].
  intros k. rewrite !find_set. destruct (keqb k k1) eqn:E1, (keqb k k2) eqn:E2; try done.
  apply keqb_eq in E1, E2. congruence.
Qed.

Lemma map_set_set k v1 v2 m : map_set k v1 (map_set k v2 m) = map_set k v1 m.
Proof.
  induction m as [|[k' v'] m IH]; cbn; [by rewrite cmp_refl|].
  destruct (cmp k k') eqn:E; cbn; rewrite ?cmp_refl; [done..|].
  by rewrite E, IH.
Qed.

Lemma map_set_id k v m : map_sorted m -> map_find k m = Some v -> map_set k v m = m.
Proof.
  intros Hm Hf. apply map_ext; [by apply map_sorted_set|done|].
  intros k'. rewrite find_set. destruct (keqb k' k) eqn:E; [|done].
  by apply keqb_eq in E as ->.
Qed.

End ordmap.

(** The size of a map after an insertion. *)
Lemma map_set_length {K V} `{Ord K} (k : K) (v : V) m :
  map_sorted m ->
  length (map_set k v m) = match map_find k m with Some _ => length m | None => S (length m) end.
Proof.
  induction 1 as [|[k' v'] m Hm IH Hall]; cbn; [done|].
  unfold keqb. destruct (cmp k k') eqn:E; cbn.
  - done.
  - rewrite (find_below k') by (done || left; by apply kltb_spec). done.
  - rewrite IH. by destruct (map_find k m).
Qed.

(** ** Mapping over the values *)

Section map_vals.
Context {K V W : Type} `{Ord K} (f : V -> W).

(** The in-place pass [for (auto& entry : m) entry.second = f(entry.second)]. *)
Definition map_vals (m : ordmap K V) : ordmap K W := (fun e => (e.1, f e.2)) <$> m.

Lemma find_map_vals k m : map_find k (map_vals m) = f <$> map_find k m.
Proof.
  induction m as [|[k' v'] m IH]; cbn; [done|]. by destruct (keqb k k').
Qed.

Lemma map_vals_set k v m : map_vals (map_set k v m) = map_set k (f v) (map_vals m).
Proof.
  induction m as [|[k' v'] m IH]; cbn; [done|].
  destruct (cmp k k'); cbn; [done..|]. f_equal. apply IH.
Qed.

Lemma map_sorted_vals m : map_sorted m -> map_sorted (map_vals m).
Proof.
  induction 1 as [|[k v] m Hm IH Hall]; cbn; constructor; [done|].
  apply Forall_fmap. eapply Forall_impl; [exact Hall|]. by intros [k' v'].
Qed.

Lemma map_vals_length m : length (map_vals m) = length m.
Proof. apply length_fmap. Qed.
End map_vals.

Lemma map_vals_compose {K U V W} (f : V -> W) (g : U -> V) (m : ordmap K U) :
  map_vals f (map_vals g m) = map_vals (fun u => f (g u)) m.
Proof. unfold map_vals. rewrite <- list_fmap_compose. done. Qed.

Lemma map_vals_id {K V} (f : V -> V) (m : ordmap K V) :
  Forall (fun e => f e.2 = e.2) m -> map_vals f m = m.
Proof.
  induction 1 as [|[k v] m Hv _ IH]; cbn in *; [done|]. rewrite Hv. f_equal. apply IH.
Qed.

(** ** Rebuilding a map from its entries *)

Lemma map_set_snoc {K V} `{Ord K} (m : ordmap K V) k v :
  map_sorted (m ++ [(k, v)]) -> map_set k v m = m ++ [(k, v)].
Proof.
  induction m as [|[k' v'] m IH]; cbn; [done|]. intros Hs.
  inversion Hs as [|? ? Hs' Hall]; subst.
  assert (Hlt : kltb k' k = true).
  { rewrite Forall_app, Forall_singleton in Hall. destruct Hall as [_ Hk]. exact Hk. }
  apply kltb_spec in Hlt. rewrite (cmp_opp k' k), Hlt. cbn. f_equal. by apply IH.
Qed.

Lemma map_emplace_snoc {K V} `{Ord K} (m : ordmap K V) k v :
  map_sorted (m ++ [(k, v)]) -> map_emplace k v m = m ++ [(k, v)].
Proof.
  intros Hs. unfold map_emplace.
  assert (map_find k m = None) as ->.
  { apply find_none_elem. intros v' Hin.
    pose proof (proj1 (StronglySorted_app _ _ _) Hs) as (Hlt & _ & _).
    specialize (Hlt (k, v') (k, v) Hin). unfold key_lt in Hlt. cbn in Hlt.
    specialize (Hlt ltac:(by apply list_elem_of_singleton)). by rewrite kltb_irrefl in Hlt. }
  by apply map_set_snoc.
Qed.

(** ** Nested maps

    The evidence tables are maps of maps: primary key, then owner. *)

Section nested.
Context {K1 K2 V : Type} `{Ord K1, Ord K2}.
Implicit Types g : ordmap K1 (ordmap K2 V).

(** [groups.find(k1)], then [find(k2)] inside. *)
Definition group_find (k1 : K1) (k2 : K2) g : option V :=
  match map_find k1 g with Some m => map_find k2 m | None => None end.

(** Every inner map is sorted, and so is the outer one. *)
Definition group_sorted g : Prop :=
  map_sorted g /\ Forall (fun e => map_sorted e.2) g.

Lemma group_sorted_find g k m : group_sorted g -> map_find k g = Some m -> map_sorted m.
Proof.
  intros [_ Hall] Hf. apply find_elem in Hf. rewrite Forall_forall in Hall. by apply Hall in Hf.
Qed.

Lemma group_sorted_set g k m : group_sorted g -> map_sorted m -> group_sorted (map_set k m g).
Proof.
  intros [Hs Hall] Hm. split; [by apply map_sorted_set|].
  apply Forall_forall. intros e He. apply map_set_elem in He as [->|He]; [done|].
  rewrite Forall_forall in Hall. auto.
Qed.
End nested.

Create HintDb ordmap.
#[export] Hint Resolve map_sorted_set map_sorted_emplace map_sorted_vals group_sorted_set : ordmap.
#[export] Hint Rewrite @find_set_eq @find_map_vals @map_vals_set : ordmap.
