(* ===== verification/Types.v ===== *)
(** * Domain vocabulary: identities, capabilities, authority, evidence, limits

    The data types of [include/cable_registry/{ids,identity,capability,
    authority,evidence,graph,limits,error}.hpp].  Each C++ enumeration is a
    module holding its enumerators; [Enum] relates an enumerator to the value
    [static_cast] gives it.  Identifier types are one phantom-typed record, as
    in the source, so an object identity cannot stand for an endpoint. *)
From S2P Require Import Prelude OrdMap.
From stdpp Require Export pretty.
#[local] Open Scope Z_scope.

(** ** Enumerations *)

(** An [enum class] whose enumerators have consecutive values. *)
Class Enum (E : Type) := {
  enum_all : list E;
  enum_base : Z;
  enum_code : E -> Z;
  enum_code_lookup : forall e,
    enum_base <= enum_code e /\ enum_all !! Z.to_nat (enum_code e - enum_base) = Some e;
  enum_lookup_code : forall i e, enum_all !! i = Some e -> enum_code e = enum_base + Z.of_nat i;
  enum_small : 0 <= enum_base /\ enum_base + zlen enum_all <= 256;
}.

(** The range check and [static_cast] with which the decoders turn a raw
    integer into an enumerator. *)
Definition enum_cast {E} `{Enum E} (z : Z) : option E :=
  if z <? enum_base then None else enum_all !! Z.to_nat (z - enum_base).

Lemma enum_cast_code {E} `{Enum E} (e : E) : enum_cast (enum_code e) = Some e.
Proof.
  unfold enum_cast. destruct (enum_code_lookup e) as [Hb Hl].
  destruct (Z.ltb_spec (enum_code e) enum_base); [lia|done].
Qed.

Lemma enum_code_cast {E} `{Enum E} (z : Z) (e : E) : enum_cast z = Some e -> enum_code e = z.
Proof.
  unfold enum_cast. destruct (Z.ltb_spec z enum_base); [done|].
  intros Hl. apply enum_lookup_code in Hl. lia.
Qed.

Lemma enum_code_u8 {E} `{Enum E} (e : E) : is_u8 (enum_code e).
Proof.
  destruct (enum_code_lookup e) as [Hb Hl]. apply lookup_lt_Some in Hl.
  destruct enum_small as [H1 H2]. unfold is_u8, zlen in *. lia.
Qed.

Lemma enum_code_u16 {E} `{Enum E} (e : E) : is_u16 (enum_code e).
Proof. pose proof (enum_code_u8 e). unfold is_u8, is_u16 in *. lia. Qed.

Ltac solve_enum_code :=
  intros []; (split; [vm_compute; intro; discriminate | reflexivity]).

Ltac solve_enum_lookup :=
  let i := fresh "i" in let Hl := fresh "Hl" in
  intros i ? Hl;
  do 20 (destruct i as [|i];
         [vm_compute in Hl; first [discriminate Hl | injection Hl as <-; reflexivity]|]);
  vm_compute in Hl; discriminate Hl.

Ltac solve_enum :=
  first [ split; vm_compute; intro; discriminate
        | solve [solve_enum_code] | solve_enum_lookup ].

Module MediaClass.
Inductive t :=
  | Unknown | CopperTwinax | CopperTwistedPair | MultimodeFiber | SinglemodeFiber
  | ActiveOptical | DirectAttachCopper | PowerBus | Other.
Definition all : list t :=
  [Unknown; CopperTwinax; CopperTwistedPair; MultimodeFiber; SinglemodeFiber;
   ActiveOptical; DirectAttachCopper; PowerBus; Other].
Definition code (e : t) : Z :=
  match e with
  | Unknown => 0 | CopperTwinax => 1 | CopperTwistedPair => 2 | MultimodeFiber => 3
  | SinglemodeFiber => 4 | ActiveOptical => 5 | DirectAttachCopper => 6 | PowerBus => 7
  | Other => 8
  end.
End MediaClass.

#[export] Instance MediaClass_eq_dec : EqDecision MediaClass.t.
Proof. solve_decision. Defined.

#[export] Instance MediaClass_enum : Enum MediaClass.t.
Proof. apply (Build_Enum _ MediaClass.all 0 MediaClass.code); solve_enum. Defined.

Module ConnectorClass.
Inductive t :=
  | Unknown | Rj45 | Sfp | SfpPlus | Sfp28 | Qsfp | Qsfp28 | Qsfp56 | QsfpDd | Ospf | Mpo12
  | Mpo16 | Mpo24 | Lc | Sc | Cs | Sn | BareFiber | Other.
Definition all : list t :=
  [Unknown; Rj45; Sfp; SfpPlus; Sfp28; Qsfp; Qsfp28; Qsfp56; QsfpDd; Ospf; Mpo12; Mpo16;
   Mpo24; Lc; Sc; Cs; Sn; BareFiber; Other].
Definition code (e : t) : Z :=
  match e with
  | Unknown => 0 | Rj45 => 1 | Sfp => 2 | SfpPlus => 3 | Sfp28 => 4 | Qsfp => 5
  | Qsfp28 => 6 | Qsfp56 => 7 | QsfpDd => 8 | Ospf => 9 | Mpo12 => 10 | Mpo16 => 11
  | Mpo24 => 12 | Lc => 13 | Sc => 14 | Cs => 15 | Sn => 16 | BareFiber => 17 | Other => 18
  end.
End ConnectorClass.

#[export] Instance ConnectorClass_eq_dec : EqDecision ConnectorClass.t.
Proof. solve_decision. Defined.

#[export] Instance ConnectorClass_enum : Enum ConnectorClass.t.
Proof. apply (Build_Enum _ ConnectorClass.all 0 ConnectorClass.code); solve_enum. Defined.

Module ObjectKind.
Inductive t :=
  | Unknown | Cable | PatchCord | Trunk | Breakout | Adapter | PassiveModule | Loopback
  | Other.
Definition all : list t :=
  [Unknown; Cable; PatchCord; Trunk; Breakout; Adapter; PassiveModule; Loopback; Other].
Definition code (e : t) : Z :=
  match e with
  | Unknown => 0 | Cable => 1 | PatchCord => 2 | Trunk => 3 | Breakout => 4 | Adapter => 5
  | PassiveModule => 6 | Loopback => 7 | Other => 8
  end.
End ObjectKind.

#[export] Instance ObjectKind_eq_dec : EqDecision ObjectKind.t.
Proof. solve_decision. Defined.

#[export] Instance ObjectKind_enum : Enum ObjectKind.t.
Proof. apply (Build_Enum _ ObjectKind.all 0 ObjectKind.code); solve_enum. Defined.

Module EndpointKind.
Inductive t :=
  | Unknown | Host | Switch | Router | PatchPanel | AdapterChassis | OpticalShelter | Other.
Definition all : list t :=
  [Unknown; Host; Switch; Router; PatchPanel; AdapterChassis; OpticalShelter; Other].
Definition code (e : t) : Z :=
  match e with
  | Unknown => 0 | Host => 1 | Switch => 2 | Router => 3 | PatchPanel => 4
  | AdapterChassis => 5 | OpticalShelter => 6 | Other => 7
  end.
End EndpointKind.

#[export] Instance EndpointKind_eq_dec : EqDecision EndpointKind.t.
Proof. solve_decision. Defined.

#[export] Instance EndpointKind_enum : Enum EndpointKind.t.
Proof. apply (Build_Enum _ EndpointKind.all 0 EndpointKind.code); solve_enum. Defined.

Module LifecycleState.
Inductive t :=
  | Registered | Unattached | Attached | Quarantined | Removed | Retired | Conflicting.
Definition all : list t :=
  [Registered; Unattached; Attached; Quarantined; Removed; Retired; Conflicting].
Definition code (e : t) : Z :=
  match e with
  | Registered => 0 | Unattached => 1 | Attached => 2 | Quarantined => 3 | Removed => 4
  | Retired => 5 | Conflicting => 6
  end.
End LifecycleState.

#[export] Instance LifecycleState_eq_dec : EqDecision LifecycleState.t.
Proof. solve_decision. Defined.

#[export] Instance LifecycleState_enum : Enum LifecycleState.t.
Proof. apply (Build_Enum _ LifecycleState.all 0 LifecycleState.code); solve_enum. Defined.

Module LifecycleAction.
Inductive t :=
  | Present | Quarantined | Removed | Retired.
Definition all : list t :=
  [Present; Quarantined; Removed; Retired].
Definition code (e : t) : Z :=
  match e with
  | Present => 0 | Quarantined => 1 | Removed => 2 | Retired => 3
  end.
End LifecycleAction.

#[export] Instance LifecycleAction_eq_dec : EqDecision LifecycleAction.t.
Proof. solve_decision. Defined.

#[export] Instance LifecycleAction_enum : Enum LifecycleAction.t.
Proof. apply (Build_Enum _ LifecycleAction.all 0 LifecycleAction.code); solve_enum. Defined.

Module LifecycleEventKind.
Inductive t :=
  | Registered | Attached | Detached | Moved | Reincarnated | Quarantined | Released
  | Removed | Retired.
Definition all : list t :=
  [Registered; Attached; Detached; Moved; Reincarnated; Quarantined; Released; Removed;
   Retired].
Definition code (e : t) : Z :=
  match e with
  | Registered => 0 | Attached => 1 | Detached => 2 | Moved => 3 | Reincarnated => 4
  | Quarantined => 5 | Released => 6 | Removed => 7 | Retired => 8
  end.
End LifecycleEventKind.

#[export] Instance LifecycleEventKind_eq_dec : EqDecision LifecycleEventKind.t.
Proof. solve_decision. Defined.

#[export] Instance LifecycleEventKind_enum : Enum LifecycleEventKind.t.
Proof. apply (Build_Enum _ LifecycleEventKind.all 0 LifecycleEventKind.code); solve_enum. Defined.

Module AuthorityClass.
Inductive t :=
  | Speculative | Imported | Observed | Declared | Authoritative.
Definition all : list t :=
  [Speculative; Imported; Observed; Declared; Authoritative].
Definition code (e : t) : Z :=
  match e with
  | Speculative => 0 | Imported => 1 | Observed => 2 | Declared => 3 | Authoritative => 4
  end.
End AuthorityClass.

#[export] Instance AuthorityClass_eq_dec : EqDecision AuthorityClass.t.
Proof. solve_decision. Defined.

#[export] Instance AuthorityClass_enum : Enum AuthorityClass.t.
Proof. apply (Build_Enum _ AuthorityClass.all 0 AuthorityClass.code); solve_enum. Defined.

Module ProvenanceClass.
Inductive t :=
  | Unknown | OperatorEntry | AssetImport | DiscoveryAgent | PhysicalMeasurement
  | Reconciliation | Synthetic.
Definition all : list t :=
  [Unknown; OperatorEntry; AssetImport; DiscoveryAgent; PhysicalMeasurement;
   Reconciliation; Synthetic].
Definition code (e : t) : Z :=
  match e with
  | Unknown => 0 | OperatorEntry => 1 | AssetImport => 2 | DiscoveryAgent => 3
  | PhysicalMeasurement => 4 | Reconciliation => 5 | Synthetic => 6
  end.
End ProvenanceClass.

#[export] Instance ProvenanceClass_eq_dec : EqDecision ProvenanceClass.t.
Proof. solve_decision. Defined.

#[export] Instance ProvenanceClass_enum : Enum ProvenanceClass.t.
Proof. apply (Build_Enum _ ProvenanceClass.all 0 ProvenanceClass.code); solve_enum. Defined.

Module EvidenceKind.
Inductive t :=
  | RegisterObject | RegisterEndpoint | Attach | Detach | Move | PublishObjectCapability
  | PublishPortCapability | SetLifecycle | ReincarnateObject.
Definition all : list t :=
  [RegisterObject; RegisterEndpoint; Attach; Detach; Move; PublishObjectCapability;
   PublishPortCapability; SetLifecycle; ReincarnateObject].
Definition code (e : t) : Z :=
  match e with
  | RegisterObject => 1 | RegisterEndpoint => 2 | Attach => 3 | Detach => 4 | Move => 5
  | PublishObjectCapability => 6 | PublishPortCapability => 7 | SetLifecycle => 8
  | ReincarnateObject => 9
  end.
End EvidenceKind.

#[export] Instance EvidenceKind_eq_dec : EqDecision EvidenceKind.t.
Proof. solve_decision. Defined.

#[export] Instance EvidenceKind_enum : Enum EvidenceKind.t.
Proof. apply (Build_Enum _ EvidenceKind.all 1 EvidenceKind.code); solve_enum. Defined.

Module IngestDisposition.
Inductive t :=
  | Accepted | AcceptedFencedSource | AcceptedFencedIncarnation | AcceptedPendingReference
  | AcceptedPendingIncarnation | AcceptedSuperseded | Duplicate | RefusedUnknownSource
  | RefusedLabelConflict | RefusedConflict | RefusedInvalid | RefusedCapacity
  | RefusedClosed | RefusedPersistence.
Definition all : list t :=
  [Accepted; AcceptedFencedSource; AcceptedFencedIncarnation; AcceptedPendingReference;
   AcceptedPendingIncarnation; AcceptedSuperseded; Duplicate; RefusedUnknownSource;
   RefusedLabelConflict; RefusedConflict; RefusedInvalid; RefusedCapacity; RefusedClosed;
   RefusedPersistence].
Definition code (e : t) : Z :=
  match e with
  | Accepted => 0 | AcceptedFencedSource => 1 | AcceptedFencedIncarnation => 2
  | AcceptedPendingReference => 3 | AcceptedPendingIncarnation => 4
  | AcceptedSuperseded => 5 | Duplicate => 6 | RefusedUnknownSource => 7
  | RefusedLabelConflict => 8 | RefusedConflict => 9 | RefusedInvalid => 10
  | RefusedCapacity => 11 | RefusedClosed => 12 | RefusedPersistence => 13
  end.
End IngestDisposition.

#[export] Instance IngestDisposition_eq_dec : EqDecision IngestDisposition.t.
Proof. solve_decision. Defined.

#[export] Instance IngestDisposition_enum : Enum IngestDisposition.t.
Proof. apply (Build_Enum _ IngestDisposition.all 0 IngestDisposition.code); solve_enum. Defined.

Module ValidationState.
Inductive t :=
  | Unvalidated | PartiallyValidated | Validated.
Definition all : list t :=
  [Unvalidated; PartiallyValidated; Validated].
Definition code (e : t) : Z :=
  match e with
  | Unvalidated => 0 | PartiallyValidated => 1 | Validated => 2
  end.
End ValidationState.

#[export] Instance ValidationState_eq_dec : EqDecision ValidationState.t.
Proof. solve_decision. Defined.

#[export] Instance ValidationState_enum : Enum ValidationState.t.
Proof. apply (Build_Enum _ ValidationState.all 0 ValidationState.code); solve_enum. Defined.

Module ValidationPolicy.
Inductive t :=
  | IncludeAll | LiveOnly.
Definition all : list t :=
  [IncludeAll; LiveOnly].
Definition code (e : t) : Z :=
  match e with
  | IncludeAll => 0 | LiveOnly => 1
  end.
End ValidationPolicy.

#[export] Instance ValidationPolicy_eq_dec : EqDecision ValidationPolicy.t.
Proof. solve_decision. Defined.

#[export] Instance ValidationPolicy_enum : Enum ValidationPolicy.t.
Proof. apply (Build_Enum _ ValidationPolicy.all 0 ValidationPolicy.code); solve_enum. Defined.

Module ConflictReason.
Inductive t :=
  | None | TooManyAttachments | EmptyAndOccupied | ObjectSideDoubleBooked
  | LifecycleConflict | CapabilityConflict | IncompatibleConnector | IncompatibleMedia.
Definition all : list t :=
  [None; TooManyAttachments; EmptyAndOccupied; ObjectSideDoubleBooked; LifecycleConflict;
   CapabilityConflict; IncompatibleConnector; IncompatibleMedia].
Definition code (e : t) : Z :=
  match e with
  | None => 0 | TooManyAttachments => 1 | EmptyAndOccupied => 2
  | ObjectSideDoubleBooked => 3 | LifecycleConflict => 4 | CapabilityConflict => 5
  | IncompatibleConnector => 6 | IncompatibleMedia => 7
  end.
End ConflictReason.

#[export] Instance ConflictReason_eq_dec : EqDecision ConflictReason.t.
Proof. solve_decision. Defined.

#[export] Instance ConflictReason_enum : Enum ConflictReason.t.
Proof. apply (Build_Enum _ ConflictReason.all 0 ConflictReason.code); solve_enum. Defined.

Module PortAttachmentState.
Inductive t :=
  | Unknown | Empty | Attached | Conflicting.
Definition all : list t :=
  [Unknown; Empty; Attached; Conflicting].
Definition code (e : t) : Z :=
  match e with
  | Unknown => 0 | Empty => 1 | Attached => 2 | Conflicting => 3
  end.
End PortAttachmentState.

#[export] Instance PortAttachmentState_eq_dec : EqDecision PortAttachmentState.t.
Proof. solve_decision. Defined.

#[export] Instance PortAttachmentState_enum : Enum PortAttachmentState.t.
Proof. apply (Build_Enum _ PortAttachmentState.all 0 PortAttachmentState.code); solve_enum. Defined.

Module OpenSessionDisposition.
Inductive t :=
  | Opened | Resumed | Reopened | NewIncarnation | RefusedFenced
  | RefusedDescriptorConflict | RefusedInvalid | RefusedCapacity | RefusedPersistence
  | RefusedClosed.
Definition all : list t :=
  [Opened; Resumed; Reopened; NewIncarnation; RefusedFenced; RefusedDescriptorConflict;
   RefusedInvalid; RefusedCapacity; RefusedPersistence; RefusedClosed].
Definition code (e : t) : Z :=
  match e with
  | Opened => 0 | Resumed => 1 | Reopened => 2 | NewIncarnation => 3 | RefusedFenced => 4
  | RefusedDescriptorConflict => 5 | RefusedInvalid => 6 | RefusedCapacity => 7
  | RefusedPersistence => 8 | RefusedClosed => 9
  end.
End OpenSessionDisposition.

#[export] Instance OpenSessionDisposition_eq_dec : EqDecision OpenSessionDisposition.t.
Proof. solve_decision. Defined.

#[export] Instance OpenSessionDisposition_enum : Enum OpenSessionDisposition.t.
Proof. apply (Build_Enum _ OpenSessionDisposition.all 0 OpenSessionDisposition.code); solve_enum. Defined.

Module RecoveryPolicy.
Inductive t :=
  | Strict | SalvagePrefix.
Definition all : list t :=
  [Strict; SalvagePrefix].
Definition code (e : t) : Z :=
  match e with
  | Strict => 0 | SalvagePrefix => 1
  end.
End RecoveryPolicy.

#[export] Instance RecoveryPolicy_eq_dec : EqDecision RecoveryPolicy.t.
Proof. solve_decision. Defined.

#[export] Instance RecoveryPolicy_enum : Enum RecoveryPolicy.t.
Proof. apply (Build_Enum _ RecoveryPolicy.all 0 RecoveryPolicy.code); solve_enum. Defined.

Module RecordKind.
Inductive t :=
  | SessionOpen | SessionClose | Evidence | StateSnapshot.
Definition all : list t :=
  [SessionOpen; SessionClose; Evidence; StateSnapshot].
Definition code (e : t) : Z :=
  match e with
  | SessionOpen => 1 | SessionClose => 2 | Evidence => 3 | StateSnapshot => 4
  end.
End RecordKind.

#[export] Instance RecordKind_eq_dec : EqDecision RecordKind.t.
Proof. solve_decision. Defined.

#[export] Instance RecordKind_enum : Enum RecordKind.t.
Proof. apply (Build_Enum _ RecordKind.all 1 RecordKind.code); solve_enum. Defined.

Module RecoveryIssue.
Inductive t :=
  | Created | CleanOpen | TruncatedTail | CorruptRecordSalvaged | BadHeader | ChainBreak
  | UnsupportedVersion | IoFailure.
Definition all : list t :=
  [Created; CleanOpen; TruncatedTail; CorruptRecordSalvaged; BadHeader; ChainBreak;
   UnsupportedVersion; IoFailure].
Definition code (e : t) : Z :=
  match e with
  | Created => 0 | CleanOpen => 1 | TruncatedTail => 2 | CorruptRecordSalvaged => 3
  | BadHeader => 4 | ChainBreak => 5 | UnsupportedVersion => 6 | IoFailure => 7
  end.
End RecoveryIssue.

#[export] Instance RecoveryIssue_eq_dec : EqDecision RecoveryIssue.t.
Proof. solve_decision. Defined.

#[export] Instance RecoveryIssue_enum : Enum RecoveryIssue.t.
Proof. apply (Build_Enum _ RecoveryIssue.all 0 RecoveryIssue.code); solve_enum. Defined.

Module ErrorCode.
Inductive t :=
  | Ok | InvalidArgument | NotFound | CapacityExceeded | Conflict | Fenced
  | UnsupportedVersion | PersistenceFailure | CorruptStore | TruncatedStore | IoFailure
  | ProtocolViolation | Closed | PermissionDenied | Internal.
Definition all : list t :=
  [Ok; InvalidArgument; NotFound; CapacityExceeded; Conflict; Fenced; UnsupportedVersion;
   PersistenceFailure; CorruptStore; TruncatedStore; IoFailure; ProtocolViolation; Closed;
   PermissionDenied; Internal].
Definition code (e : t) : Z :=
  match e with
  | Ok => 0 | InvalidArgument => 1 | NotFound => 2 | CapacityExceeded => 3 | Conflict => 4
  | Fenced => 5 | UnsupportedVersion => 6 | PersistenceFailure => 7 | CorruptStore => 8
  | TruncatedStore => 9 | IoFailure => 10 | ProtocolViolation => 11 | Closed => 12
  | PermissionDenied => 13 | Internal => 14
  end.
End ErrorCode.

#[export] Instance ErrorCode_eq_dec : EqDecision ErrorCode.t.
Proof. solve_decision. Defined.

#[export] Instance ErrorCode_enum : Enum ErrorCode.t.
Proof. apply (Build_Enum _ ErrorCode.all 0 ErrorCode.code); solve_enum. Defined.
(** ** Identities *)

Record Id128 := mkId128 { id_hi : Z; id_lo : Z }.

Inductive IdTag := ObjectIdTag | EndpointIdTag | SourceIdTag | EvidenceIdTag | RegistryIdTag.

(** [StrongId<Tag>]: distinct tags are distinct types. *)
Record StrongId (tag : IdTag) := mkStrongId { sid_value : Id128 }.
Arguments mkStrongId {tag} _.
Arguments sid_value {tag} _.

Abbreviation ObjectId := (StrongId ObjectIdTag).
Abbreviation EndpointId := (StrongId EndpointIdTag).
Abbreviation SourceId := (StrongId SourceIdTag).
Abbreviation EvidenceId := (StrongId EvidenceIdTag).
Abbreviation RegistryId := (StrongId RegistryIdTag).

(** [is_nil]. *)
Definition is_nil128 (value : Id128) : bool := (id_hi value =? 0) && (id_lo value =? 0).
Definition is_nil {tag} (id : StrongId tag) : bool := is_nil128 (sid_value id).

Definition from_parts {tag} (hi lo : Z) : StrongId tag := mkStrongId (mkId128 hi lo).
Definition nil_id {tag} : StrongId tag := from_parts 0 0.

Definition Id128_tuple (i : Id128) : Z * Z := (id_hi i, id_lo i).

#[export] Instance Id128_ord : Ord Id128.
Proof. apply (Ord_inj Id128_tuple). by intros [] [] [= -> ->]. Defined.

#[export] Instance StrongId_ord tag : Ord (StrongId tag).
Proof. apply (Ord_inj (@sid_value tag)). by intros [] [] [= ->]. Defined.

Record PortRef := mkPortRef { port_endpoint : EndpointId; port_index : Z }.
Record ObjectSideRef := mkObjectSideRef { side_object : ObjectId; side_index : Z }.
Record SourceIncarnationKey := mkKey { key_source : SourceId; key_incarnation : Z }.

#[export] Instance PortRef_ord : Ord PortRef.
Proof.
  apply (Ord_inj (fun p => (port_endpoint p, port_index p))). by intros [] [] [= -> ->].
Defined.

#[export] Instance ObjectSideRef_ord : Ord ObjectSideRef.
Proof.
  apply (Ord_inj (fun p => (side_object p, side_index p))). by intros [] [] [= -> ->].
Defined.

#[export] Instance SourceIncarnationKey_ord : Ord SourceIncarnationKey.
Proof.
  apply (Ord_inj (fun p => (key_source p, key_incarnation p))). by intros [] [] [= -> ->].
Defined.

Definition default_port : PortRef := mkPortRef nil_id 0.
Definition default_side : ObjectSideRef := mkObjectSideRef nil_id 0.

(** ** Capabilities *)

Record NominalCapability := mkNominalCapability {
  nc_media : MediaClass.t;
  nc_connector : ConnectorClass.t;
  nc_lanes : Z;
  nc_lane_rate_kbps : Z;
  nc_total_kbps : Z;
  nc_reach_mm : Z;
  nc_reach_declared : bool;
  nc_code : string;
}.

Record PortCapability := mkPortCapability {
  pc_max_attachments : Z;
  pc_connector : ConnectorClass.t;
  pc_media : MediaClass.t;
  pc_lanes : Z;
}.

Definition default_nominal_capability : NominalCapability :=
  mkNominalCapability MediaClass.Unknown ConnectorClass.Unknown 0 0 0 0 false "".
Definition default_port_capability : PortCapability :=
  mkPortCapability 1 ConnectorClass.Unknown MediaClass.Unknown 0.

(** ** Descriptors *)

Record ObjectSideDescriptor := mkObjectSideDescriptor {
  sd_connector : ConnectorClass.t;
  sd_media : MediaClass.t;
  sd_lanes : Z;
}.

Definition default_side_descriptor : ObjectSideDescriptor :=
  mkObjectSideDescriptor ConnectorClass.Unknown MediaClass.Unknown 0.

Record ObjectDescriptor := mkObjectDescriptor {
  od_id : ObjectId;
  od_kind : ObjectKind.t;
  od_label : string;
  od_serial : string;
  od_location : string;
  od_sides : list ObjectSideDescriptor;
  od_capability : NominalCapability;
}.

Record EndpointDescriptor := mkEndpointDescriptor {
  ed_id : EndpointId;
  ed_kind : EndpointKind.t;
  ed_name : string;
  ed_location : string;
  ed_port_count : Z;
  ed_default_capability : PortCapability;
}.

(** ** Authority *)

Record Authority := mkAuthority { auth_class : AuthorityClass.t; auth_rank : Z }.

(** The class is the primary key, the rank breaks ties inside one class. *)
#[export] Instance Authority_ord : Ord Authority.
Proof.
  apply (Ord_inj (fun a => (enum_code (auth_class a), auth_rank a))).
  intros [c1 r1] [c2 r2]. cbn. intros [= Hc ->]. f_equal. by destruct c1, c2.
Defined.

Definition default_authority : Authority := mkAuthority AuthorityClass.Speculative 0.

Record SourceDescriptor := mkSourceDescriptor {
  src_id : SourceId;
  src_name : string;
  src_authority : Authority;
  src_domain : string;
}.

(** ** Evidence *)

Record AttachPayload := mkAttach {
  at_subject : ObjectSideRef; at_port : PortRef; at_incarnation : Z; at_slot : Z }.

Record DetachPayload := mkDetach {
  de_subject : ObjectSideRef; de_incarnation : Z; de_has_from_port : bool;
  de_from_port : PortRef; de_slot : Z }.

Record MovePayload := mkMove {
  mv_subject : ObjectSideRef; mv_incarnation : Z; mv_from : PortRef; mv_to : PortRef;
  mv_from_slot : Z; mv_to_slot : Z }.

Record PublishObjectCapabilityPayload := mkPublishObject {
  po_object : ObjectId; po_capability : NominalCapability }.

Record PublishPortCapabilityPayload := mkPublishPort {
  pp_port : PortRef; pp_capability : PortCapability }.

Record SetLifecyclePayload := mkSetLifecycle {
  sl_object : ObjectId; sl_incarnation : Z; sl_action : LifecycleAction.t; sl_reason : string }.

Record ReincarnateObjectPayload := mkReincarnate {
  re_object : ObjectId; re_from_incarnation : Z; re_serial : string; re_reason : string }.

(** [EvidencePayload], the [std::variant] of the nine payload types. *)
Inductive EvidencePayload :=
  | RegisterObject (descriptor : ObjectDescriptor)
  | RegisterEndpoint (descriptor : EndpointDescriptor)
  | Attach (payload : AttachPayload)
  | Detach (payload : DetachPayload)
  | Move (payload : MovePayload)
  | PublishObjectCapability (payload : PublishObjectCapabilityPayload)
  | PublishPortCapability (payload : PublishPortCapabilityPayload)
  | SetLifecycle (payload : SetLifecyclePayload)
  | ReincarnateObject (payload : ReincarnateObjectPayload).

Definition kind_of_payload (payload : EvidencePayload) : EvidenceKind.t :=
  match payload with
  | RegisterObject _ => EvidenceKind.RegisterObject
  | RegisterEndpoint _ => EvidenceKind.RegisterEndpoint
  | Attach _ => EvidenceKind.Attach
  | Detach _ => EvidenceKind.Detach
  | Move _ => EvidenceKind.Move
  | PublishObjectCapability _ => EvidenceKind.PublishObjectCapability
  | PublishPortCapability _ => EvidenceKind.PublishPortCapability
  | SetLifecycle _ => EvidenceKind.SetLifecycle
  | ReincarnateObject _ => EvidenceKind.ReincarnateObject
  end.

Record EvidenceHeader := mkHeader {
  hdr_id : EvidenceId;
  hdr_source : SourceId;
  hdr_incarnation : Z;
  hdr_generation : Z;
  hdr_observed_at : Z;
  hdr_provenance : ProvenanceClass.t;
  hdr_detail : string;
  hdr_schema : Z;
}.

Record Evidence := mkEvidence { ev_header : EvidenceHeader; ev_payload : EvidencePayload }.

Definition kind_of (evidence : Evidence) : EvidenceKind.t := kind_of_payload (ev_payload evidence).

Definition is_accepted (value : IngestDisposition.t) : bool :=
  match value with
  | IngestDisposition.Accepted | IngestDisposition.AcceptedFencedSource
  | IngestDisposition.AcceptedFencedIncarnation | IngestDisposition.AcceptedPendingReference
  | IngestDisposition.AcceptedPendingIncarnation | IngestDisposition.AcceptedSuperseded
  | IngestDisposition.Duplicate => true
  | IngestDisposition.RefusedUnknownSource | IngestDisposition.RefusedLabelConflict
  | IngestDisposition.RefusedConflict | IngestDisposition.RefusedInvalid
  | IngestDisposition.RefusedCapacity | IngestDisposition.RefusedClosed
  | IngestDisposition.RefusedPersistence => false
  end.

Definition is_effective (value : IngestDisposition.t) : bool :=
  bool_decide (value = IngestDisposition.Accepted) || bool_decide (value = IngestDisposition.Duplicate).

Record IngestResult := mkIngestResult {
  ir_disposition : IngestDisposition.t;
  ir_evidence : EvidenceId;
  ir_kind : EvidenceKind.t;
  ir_high_water : Z;
  ir_received_at : Z;
  ir_detail : string;
}.

(** ** Decidable equality of the domain values (defaulted [operator==]) *)

#[export] Instance NominalCapability_eq_dec : EqDecision NominalCapability.
Proof. solve_decision. Defined.
#[export] Instance PortCapability_eq_dec : EqDecision PortCapability.
Proof. solve_decision. Defined.
#[export] Instance ObjectSideDescriptor_eq_dec : EqDecision ObjectSideDescriptor.
Proof. solve_decision. Defined.
#[export] Instance ObjectDescriptor_eq_dec : EqDecision ObjectDescriptor.
Proof. solve_decision. Defined.
#[export] Instance EndpointDescriptor_eq_dec : EqDecision EndpointDescriptor.
Proof. solve_decision. Defined.
#[export] Instance SourceDescriptor_eq_dec : EqDecision SourceDescriptor.
Proof. solve_decision. Defined.

(** ** Errors *)

Record Error := mkError { err_code : ErrorCode.t; err_message : string }.

(** [Outcome<T>]: a value or an error. *)
Abbreviation Outcome T := (T + Error)%type.

(** ** Resource limits *)

Record Limits := mkLimits {
  max_objects : Z;
  max_endpoints : Z;
  max_ports_per_endpoint : Z;
  max_sides_per_object : Z;
  max_sources : Z;
  max_port_simultaneous_attachments : Z;
  max_claim_records_per_port : Z;
  max_history_per_key : Z;
  max_overridden_reported : Z;
  max_string_bytes : Z;
  max_capability_code_bytes : Z;
  max_revalidate_claims : Z;
  max_evidence_batch : Z;
  max_frame_payload_bytes : Z;
  max_snapshot_entries : Z;
  max_refusal_audit : Z;
  max_history_events : Z;
}.

Definition default_limits : Limits := {|
  max_objects := 1000000;
  max_endpoints := 100000;
  max_ports_per_endpoint := 4096;
  max_sides_per_object := 64;
  max_sources := 4096;
  max_port_simultaneous_attachments := 64;
  max_claim_records_per_port := 4096;
  max_history_per_key := 8;
  max_overridden_reported := 16;
  max_string_bytes := 256;
  max_capability_code_bytes := 64;
  max_revalidate_claims := 4096;
  max_evidence_batch := 4096;
  max_frame_payload_bytes := Z.shiftl 1 20;
  max_snapshot_entries := 4000000;
  max_refusal_audit := 1024;
  max_history_events := 4096;
|}.

Definition require_positive (value : Z) (name : string) : option string :=
  if value =? 0 then Some ("limits." +:+ name +:+ " must be greater than zero")%string else None.

(** The first failing [require_positive] of a short-circuiting chain. *)
Fixpoint first_failure (checks : list (option string)) : option string :=
  match checks with
  | [] => None
  | Some message :: _ => Some message
  | None :: rest => first_failure rest
  end.

Definition validate_limits (limits : Limits) : Outcome unit :=
  let message := first_failure [
    require_positive (max_objects limits) "max_objects";
    require_positive (max_endpoints limits) "max_endpoints";
    require_positive (max_ports_per_endpoint limits) "max_ports_per_endpoint";
    require_positive (max_sides_per_object limits) "max_sides_per_object";
    require_positive (max_sources limits) "max_sources";
    require_positive (max_port_simultaneous_attachments limits) "max_port_simultaneous_attachments";
    require_positive (max_claim_records_per_port limits) "max_claim_records_per_port";
    require_positive (max_history_per_key limits) "max_history_per_key";
    require_positive (max_overridden_reported limits) "max_overridden_reported";
    require_positive (max_string_bytes limits) "max_string_bytes";
    require_positive (max_capability_code_bytes limits) "max_capability_code_bytes";
    require_positive (max_revalidate_claims limits) "max_revalidate_claims";
    require_positive (max_evidence_batch limits) "max_evidence_batch";
    require_positive (max_frame_payload_bytes limits) "max_frame_payload_bytes";
    require_positive (max_snapshot_entries limits) "max_snapshot_entries";
    require_positive (max_refusal_audit limits) "max_refusal_audit";
    require_positive (max_history_events limits) "max_history_events"] in
  match message with
  | Some m => inr (mkError ErrorCode.InvalidArgument m)
  | None =>
      if Z.shiftl 1 20 <? max_string_bytes limits then
        inr (mkError ErrorCode.InvalidArgument "limits.max_string_bytes exceeds the 1 MiB ceiling")
      else if Z.shiftl 64 20 <? max_frame_payload_bytes limits then
        inr (mkError ErrorCode.InvalidArgument
               "limits.max_frame_payload_bytes exceeds the 64 MiB ceiling")
      else if 4096 <? max_port_simultaneous_attachments limits then
        inr (mkError ErrorCode.InvalidArgument
               "limits.max_port_simultaneous_attachments exceeds the 4096 attachment ceiling")
      else inl tt
  end.

(** A policy [Registry::Open] accepts: every field is positive and fits its
    32 bits, and the string ceiling holds. *)
Definition limits_u32 (limits : Limits) : Prop :=
  Forall is_u32 [max_objects limits; max_endpoints limits; max_ports_per_endpoint limits;
    max_sides_per_object limits; max_sources limits; max_port_simultaneous_attachments limits;
    max_claim_records_per_port limits; max_history_per_key limits; max_overridden_reported limits;
    max_string_bytes limits; max_capability_code_bytes limits; max_revalidate_claims limits;
    max_evidence_batch limits; max_frame_payload_bytes limits; max_snapshot_entries limits;
    max_refusal_audit limits; max_history_events limits].

(** Versions of [version.hpp]. *)
Definition kStoreFormatVersion : Z := 1.
Definition kEvidenceSchemaVersion : Z := 1.
Definition kSnapshotFormatVersion : Z := 1.
Definition kProtocolVersion : Z := 1.

(** [std::to_string] of an unsigned integer. *)
Definition to_dec (n : Z) : string := pretty n.
