(* ===== verification/Ids.v ===== *)
(** * Identity formatting and parsing ([src/ids.cpp])

    [to_hex] and [parse_hex_id], with the round trip through the plain and the
    dashed 8-4-4-4-12 form. *)
From S2P Require Import Prelude OrdMap Types.
From Stdlib Require Import (notations) Ascii.
#[local] Open Scope Z_scope.

Definition kHexDigits : list Ascii.ascii :=
  ["0"; "1"; "2"; "3"; "4"; "5"; "6"; "7"; "8"; "9"; "a"; "b"; "c"; "d"; "e"; "f"]%char.

(** [character - '0'] and the like work on character codes. *)
Definition hex_value (character : Ascii.ascii) : Z :=
  let c := byte_of_ascii character in
  if (48 <=? c) && (c <=? 57) then c - 48
  else if (97 <=? c) && (c <=? 102) then c - 97 + 10
  else if (65 <=? c) && (c <=? 70) then c - 65 + 10
  else -1.

Definition is_uuid_separator (index : Z) : bool :=
  (index =? 8) || (index =? 13) || (index =? 18) || (index =? 23).

(** The nibble [to_hex] writes at [index]. *)
Definition nibble_at (value : Id128) (index : Z) : Z :=
  let shift := 60 - (index mod 16) * 4 in
  let half := if index <? 16 then id_hi value else id_lo value in
  Z.land (Z.shiftr half shift) 15.

Definition hex_digit (nibble : Z) : Ascii.ascii := default "0"%char (kHexDigits !! Z.to_nat nibble).

Definition to_hex_chars (value : Id128) : list Ascii.ascii :=
  (fun index => hex_digit (nibble_at value (Z.of_nat index))) <$> seq 0 32.

Definition to_hex (value : Id128) : string := String.string_of_list_ascii (to_hex_chars value).

(** The character loop: the digits read so far and the text position. *)
Fixpoint parse_digits (text : list Ascii.ascii) (digits : list Z) (position : Z) : option (list Z) :=
  match text with
  | [] => if zlen digits =? 32 then Some digits else None
  | character :: rest =>
      if Ascii.eqb character "-" then
        if negb (is_uuid_separator position) then None
        else parse_digits rest digits (position + 1)
      else if 32 <=? zlen digits then None
      else
        let value := hex_value character in
        if value <? 0 then None
        else parse_digits rest (digits ++ [value]) (position + 1)
  end.

(** [half = (half << 4) | digit] over sixteen digits. *)
Definition join_nibbles (digits : list Z) : Z :=
  foldl (fun half digit => Z.lor (wrap64 (Z.shiftl half 4)) digit) 0 digits.

Definition parse_hex_id (text : string) : option Id128 :=
  match parse_digits (String.list_ascii_of_string text) [] 0 with
  | None => None
  | Some digits => Some (mkId128 (join_nibbles (take 16 digits)) (join_nibbles (drop 16 digits)))
  end.

(** [detail::random_id128] on two draws of the engine: a nil value, never a
    valid identity, becomes one. *)
Definition random_id128 (hi lo : Z) : Id128 :=
  if is_nil128 (mkId128 hi lo) then mkId128 hi 1 else mkId128 hi lo.

(** * Facts *)

Lemma hex_digit_value n : 0 <= n < 16 -> hex_value (hex_digit n) = n /\ hex_digit n ≠ "-"%char.
Proof.
  intros Hn.
  assert (Hall : Forall (fun k => hex_value (hex_digit k) = k /\ hex_digit k ≠ "-"%char) (seqZ 0 16)).
  { repeat constructor; vm_compute; congruence. }
  rewrite Forall_forall in Hall. apply Hall, elem_of_seqZ. lia.
Qed.

Lemma nibble_range value index : 0 <= nibble_at value index < 16.
Proof.
  unfold nibble_at. change 15 with (Z.ones 4). rewrite Z.land_ones by lia.
  change 16 with (2 ^ 4). apply Z.mod_pos_bound. lia.
Qed.

(** Reading hexadecimal digits appends their values. *)
Lemma parse_digits_hex nibbles rest digits position :
  Forall (fun n => 0 <= n < 16) nibbles -> zlen digits + zlen nibbles <= 32 ->
  parse_digits ((hex_digit <$> nibbles) ++ rest) digits position =
  parse_digits rest (digits ++ nibbles) (position + zlen nibbles).
Proof.
  intros Hn. revert digits position. induction Hn as [|n l Hn Hl IH]; intros digits position Hlen.
  - cbn. by rewrite app_nil_r, Z.add_0_r.
  - rewrite fmap_cons. cbn [app parse_digits]. destruct (hex_digit_value n Hn) as [Hv Hd].
    apply Ascii.eqb_neq in Hd. rewrite Hd, Hv, zlen_cons in *.
    pose proof (zlen_nonneg l).
    destruct (Z.leb_spec 32 (zlen digits)); [lia|].
    destruct (Z.ltb_spec n 0); [lia|].
    rewrite IH by (rewrite zlen_app, zlen_cons, zlen_nil; lia).
    rewrite <- app_assoc. f_equal. lia.
Qed.

(** A group of digits followed by a separator where one is allowed. *)
Lemma parse_digits_group nibbles rest digits position n d :
  Forall (fun n => 0 <= n < 16) nibbles -> length nibbles = n -> length digits = d ->
  (d + n <= 32)%nat -> is_uuid_separator (position + Z.of_nat n) = true ->
  parse_digits ((hex_digit <$> nibbles) ++ "-"%char :: rest) digits position =
  parse_digits rest (digits ++ nibbles) (position + Z.of_nat n + 1).
Proof.
  intros Hn <- <- Hlen Hsep. rewrite parse_digits_hex by (done || unfold zlen; lia).
  cbn [parse_digits]. change (Ascii.eqb "-" "-") with true. cbv beta iota.
  unfold zlen. by rewrite Hsep.
Qed.

Lemma join_step z s : 0 <= z -> 0 <= s ->
  Z.lor (Z.shiftl (Z.shiftr z (s + 4)) 4) (Z.land (Z.shiftr z s) 15) = Z.shiftr z s.
Proof.
  intros Hz Hs. apply Z.bits_inj'. intros n Hn.
  rewrite Z.lor_spec, Z.land_spec, !Z.shiftr_spec by lia. change 15 with (Z.ones 4).
  rewrite Z.testbit_ones_nonneg by lia.
  destruct (Z.ltb_spec n 4).
  - rewrite Z.shiftl_spec_low by lia. by rewrite andb_true_r.
  - rewrite Z.shiftl_spec, Z.shiftr_spec by lia. rewrite andb_false_r, orb_false_r.
    f_equal. lia.
Qed.

(** The nibbles of a half, most significant first. *)
Definition half_nibbles (half : Z) (count : nat) : list Z :=
  (fun i => Z.land (Z.shiftr half (60 - Z.of_nat i * 4)) 15) <$> seq 0 count.

Lemma join_half half count : is_u64 half -> (count <= 16)%nat ->
  join_nibbles (half_nibbles half count) = Z.shiftr half (64 - Z.of_nat count * 4).
Proof.
  intros Hh. induction count as [|count IH]; intros Hc.
  - cbn. unfold is_u64 in Hh. rewrite Z.shiftr_div_pow2 by lia.
    change (64 - 0) with 64. by rewrite Z.div_small.
  - unfold half_nibbles. rewrite seq_S, fmap_app. cbn [fmap list_fmap].
    unfold join_nibbles. rewrite foldl_app. cbn [foldl].
    change (foldl _ 0 _) with (join_nibbles (half_nibbles half count)).
    rewrite IH by lia. unfold is_u64 in Hh.
    rewrite wrap64_small.
    + replace (64 - Z.of_nat count * 4) with ((60 - Z.of_nat count * 4) + 4) by lia.
      rewrite join_step by lia. f_equal. lia.
    + split; [apply Z.shiftl_nonneg, Z.shiftr_nonneg; lia|].
      rewrite Z.shiftl_mul_pow2, Z.shiftr_div_pow2 by lia.
      pose proof (Z.div_lt_upper_bound half (2 ^ (64 - Z.of_nat count * 4)) (2 ^ (Z.of_nat count * 4))).
      assert (2 ^ (64 - Z.of_nat count * 4) * 2 ^ (Z.of_nat count * 4) = 2 ^ 64)
        by (rewrite <- Z.pow_add_r by lia; f_equal; lia).
      assert (2 ^ (Z.of_nat count * 4) <= 2 ^ 60) by (apply Z.pow_le_mono_r; lia).
      assert (half / 2 ^ (64 - Z.of_nat count * 4) < 2 ^ (Z.of_nat count * 4))
        by (apply Z.div_lt_upper_bound; [apply Z.pow_pos_nonneg; lia|lia]).
      change (2 ^ 64) with (2 ^ 60 * 2 ^ 4). nia.
Qed.

Lemma to_hex_nibbles value :
  to_hex_chars value = hex_digit <$> (half_nibbles (id_hi value) 16 ++ half_nibbles (id_lo value) 16).
Proof. destruct value. reflexivity. Qed.

Lemma half_nibbles_range half count : Forall (fun n => 0 <= n < 16) (half_nibbles half count).
Proof.
  apply Forall_fmap, Forall_forall. intros i _. cbn. change 15 with (Z.ones 4).
  rewrite Z.land_ones by lia. change 16 with (2 ^ 4). apply Z.mod_pos_bound. lia.
Qed.

Lemma half_nibbles_length half count : length (half_nibbles half count) = count.
Proof. unfold half_nibbles. by rewrite length_fmap, length_seq. Qed.

Lemma list_of_string_of_list (l : list Ascii.ascii) :
  String.list_ascii_of_string (String.string_of_list_ascii l) = l.
Proof. apply String.list_ascii_of_string_of_list_ascii. Qed.

(** The dashed form of a hexadecimal text: a separator before the characters
    at offsets 8, 12, 16 and 20. *)
Definition uuid_chars (value : Id128) : list Ascii.ascii :=
  let l := to_hex_chars value in
  take 8 l ++ ["-"%char] ++ take 4 (drop 8 l) ++ ["-"%char] ++ take 4 (drop 12 l) ++ ["-"%char]
    ++ take 4 (drop 16 l) ++ ["-"%char] ++ drop 20 l.

Lemma parse_join digits hi lo :
  digits = half_nibbles hi 16 ++ half_nibbles lo 16 -> is_u64 hi -> is_u64 lo ->
  mkId128 (join_nibbles (take 16 digits)) (join_nibbles (drop 16 digits)) = mkId128 hi lo.
Proof.
  intros -> Hhi Hlo. rewrite take_app_length', drop_app_length' by (by rewrite half_nibbles_length).
  rewrite !join_half by (done || lia). change (64 - Z.of_nat 16 * 4) with 0.
  by rewrite !Z.shiftr_0_r.
Qed.

#[local] Ltac lengths :=
  solve [ by apply Forall_take | by apply Forall_take, Forall_drop
        | rewrite ?length_app, ?length_take, ?length_drop;
          repeat match goal with H : length _ = _ |- _ => rewrite H end; reflexivity
        | lia | reflexivity ].

Lemma random_id128_not_nil hi lo : is_nil128 (random_id128 hi lo) = false.
Proof.
  unfold random_id128. destruct (is_nil128 (mkId128 hi lo)) eqn:E; [|done].
  unfold is_nil128. cbn. by rewrite andb_false_r.
Qed.

(** Formatting an identity and parsing it back gives the identity: for every
    128-bit value [parse_hex_id] recovers it from the 32 lowercase digits that
    [to_hex] writes, and equally from those digits with the four separators of
    the canonical 8-4-4-4-12 form. *)
Theorem parse_hex_id_to_hex value :
  is_u64 (id_hi value) -> is_u64 (id_lo value) ->
  parse_hex_id (to_hex value) = Some value /\
  parse_hex_id (String.string_of_list_ascii (uuid_chars value)) = Some value.
Proof.
  intros Hhi Hlo. destruct value as [hi lo]. cbn in Hhi, Hlo.
  set (all := half_nibbles hi 16 ++ half_nibbles lo 16).
  assert (Hr : Forall (fun n => 0 <= n < 16) all)
    by (apply Forall_app; split; apply half_nibbles_range).
  assert (Hlen : length all = 32%nat)
    by (unfold all; by rewrite length_app, !half_nibbles_length).
  assert (Hdone : forall l, l = all -> (if zlen l =? 32 then Some l else None) = Some all)
    by (intros l ->; unfold zlen; by rewrite Hlen).
  unfold parse_hex_id, to_hex, uuid_chars. rewrite !list_of_string_of_list, !to_hex_nibbles.
  cbn [id_hi id_lo]. fold all. split.
  - rewrite <- (app_nil_r (hex_digit <$> all)).
    rewrite parse_digits_hex by (done || (unfold zlen; rewrite Hlen; cbn; lia)).
    cbn [app parse_digits]. rewrite Hdone by done. f_equal. by apply parse_join.
  - rewrite <- !fmap_drop, <- !fmap_take. cbn [app].
    rewrite (parse_digits_group (take 8 all) _ [] 0 8 0) by lengths.
    rewrite (parse_digits_group (take 4 (drop 8 all)) _ _ _ 4 8) by lengths.
    rewrite (parse_digits_group (take 4 (drop 12 all)) _ _ _ 4 12) by lengths.
    rewrite (parse_digits_group (take 4 (drop 16 all)) _ _ _ 4 16) by lengths.
    rewrite <- (app_nil_r (hex_digit <$> drop 20 all)).
    rewrite parse_digits_hex; [|by apply Forall_drop|unfold zlen; rewrite !length_app, ?length_take, ?length_drop, Hlen; cbn; lia].
    cbn [parse_digits]. rewrite Hdone; [f_equal; by apply parse_join|]. cbn [app].
    reflexivity.
Qed.

Lemma parse_hex_id_to_hex_witness :
  parse_hex_id (to_hex (mkId128 81985529216486895 (2 ^ 64 - 1)))
  = Some (mkId128 81985529216486895 (2 ^ 64 - 1)).
Proof.
  apply (parse_hex_id_to_hex (mkId128 81985529216486895 (2 ^ 64 - 1))); cbn; unfold is_u64; lia.
Defined.
