(* ===== verification/Graph.v ===== *)
(** * Answers of the registry ([graph.hpp], [registry.hpp], [persistence.hpp])

    The records a query returns.  They are plain data; [Derive.v] and
    [Views.v] compute them from the registry state and [Serialization.v]
    encodes them. *)
From S2P Require Import Prelude OrdMap Types.
#[local] Open Scope Z_scope.

Record ClaimProvenance := mkClaim {
  cp_source : SourceId;
  cp_incarnation : Z;
  cp_generation : Z;
  cp_evidence : EvidenceId;
  cp_observed_at : Z;
  cp_received_at : Z;
  cp_provenance : ProvenanceClass.t;
  cp_authority : Authority;
  cp_object_incarnation : Z;
  cp_asserted_in_lifetime : bool;
}.

Record ConflictNote := mkConflictNote {
  cn_reason : ConflictReason.t;
  cn_subject : ObjectSideRef;
  cn_port : PortRef;
  cn_detail : string;
  cn_claims : list ClaimProvenance;
}.

Record AttachmentEdge := mkEdge {
  ae_subject : ObjectSideRef;
  ae_port : PortRef;
  ae_slot : Z;
  ae_authority : Authority;
  ae_validation : ValidationState.t;
  ae_connector_compatible : bool;
  ae_media_compatible : bool;
  ae_conflicting : bool;
  ae_object_incarnation : Z;
  ae_claims : list ClaimProvenance;
  ae_overridden : list ClaimProvenance;
  ae_overridden_total : Z;
}.

Record PortView := mkPortView {
  pv_port : PortRef;
  pv_state : PortAttachmentState.t;
  pv_validation : ValidationState.t;
  pv_capability : PortCapability;
  pv_edges : list AttachmentEdge;
  pv_conflicts : list ConflictNote;
  pv_emptiness_claims : list ClaimProvenance;
  pv_emptiness_claims_total : Z;
}.

Record ObjectSideView := mkSideView {
  sv_side : Z;
  sv_descriptor : ObjectSideDescriptor;
  sv_state : PortAttachmentState.t;
  sv_validation : ValidationState.t;
  sv_edges : list AttachmentEdge;
  sv_conflicts : list ConflictNote;
}.

Record LifecycleEvent := mkLifecycleEvent {
  le_kind : LifecycleEventKind.t;
  le_observed_at : Z;
  le_received_at : Z;
  le_source : SourceId;
  le_incarnation : Z;
  le_generation : Z;
  le_evidence : EvidenceId;
  le_provenance : ProvenanceClass.t;
  le_object_incarnation : Z;
  le_side : Z;
  le_port : PortRef;
  le_from_port : PortRef;
  le_has_from_port : bool;
  le_detail : string;
}.

Record ObjectView := mkObjectView {
  ov_id : ObjectId;
  ov_kind : ObjectKind.t;
  ov_label : string;
  ov_serial : string;
  ov_location : string;
  ov_incarnation : Z;
  ov_lifecycle : LifecycleState.t;
  ov_capability : NominalCapability;
  ov_sides : list ObjectSideView;
  ov_history : list LifecycleEvent;
  ov_history_dropped : Z;
  ov_conflicts : list ConflictNote;
  ov_validation : ValidationState.t;
}.

Record EndpointView := mkEndpointView {
  epv_id : EndpointId;
  epv_kind : EndpointKind.t;
  epv_name : string;
  epv_location : string;
  epv_port_count : Z;
  epv_default_capability : PortCapability;
  epv_ports : list PortView;
}.

Record GraphSummary := mkSummary {
  gs_ports_attached : Z;
  gs_ports_empty : Z;
  gs_ports_unknown : Z;
  gs_ports_conflicting : Z;
  gs_objects_total : Z;
  gs_objects_registered : Z;
  gs_objects_unattached : Z;
  gs_objects_attached : Z;
  gs_objects_quarantined : Z;
  gs_objects_removed : Z;
  gs_objects_retired : Z;
  gs_edges : Z;
  gs_edges_unvalidated : Z;
  gs_conflicts : Z;
  gs_claims_fenced : Z;
  gs_claims_pending : Z;
}.

Record QueryOptions := mkQueryOptions {
  qo_policy : ValidationPolicy.t;
  qo_include_object_sides : bool;
  qo_include_history : bool;
  qo_include_endpoint_ports : bool;
  qo_endpoint : EndpointId;
  qo_object : ObjectId;
}.

Definition default_query_options : QueryOptions :=
  mkQueryOptions ValidationPolicy.IncludeAll true false false nil_id nil_id.

Record TopologyView := mkTopologyView {
  tv_registry : RegistryId;
  tv_summary : GraphSummary;
  tv_policy : ValidationPolicy.t;
  tv_objects : list ObjectView;
  tv_endpoints : list EndpointView;
  tv_ports : list PortView;
}.

Record ObjectHistory := mkObjectHistory {
  oh_object : ObjectId;
  oh_events : list LifecycleEvent;
  oh_dropped : Z;
}.

Record FencedSessionView := mkFencedSession {
  fs_source : SourceId; fs_incarnation : Z; fs_fenced_by : Z; fs_claims : Z }.

Record FencedObjectView := mkFencedObject {
  fo_object : ObjectId; fo_current : Z; fo_claims : Z; fo_label : string }.

Record PendingReferenceView := mkPending {
  pr_evidence : EvidenceId; pr_kind : EvidenceKind.t; pr_source : SourceId;
  pr_incarnation : Z; pr_generation : Z; pr_detail : string }.

Record RefusalView := mkRefusal {
  rv_evidence : EvidenceId; rv_kind : EvidenceKind.t; rv_source : SourceId;
  rv_incarnation : Z; rv_generation : Z; rv_disposition : IngestDisposition.t;
  rv_detail : string }.

Record InspectionView := mkInspection {
  iv_fenced_sessions : list FencedSessionView;
  iv_fenced_objects : list FencedObjectView;
  iv_unvalidated_ports : list PortView;
  iv_pending_references : list PendingReferenceView;
  iv_refusals : list RefusalView;
  iv_summary : GraphSummary;
}.

Record RecoveryReport := mkRecoveryReport {
  rr_opened : bool;
  rr_created : bool;
  rr_salvaged : bool;
  rr_chain_intact : bool;
  rr_format_version : Z;
  rr_records_loaded : Z;
  rr_records_rejected : Z;
  rr_bytes_loaded : Z;
  rr_bytes_discarded : Z;
  rr_issue : RecoveryIssue.t;
  rr_issue_offset : Z;
  rr_detail : string;
}.

Record OpenSessionResult := mkOpenSession {
  os_disposition : OpenSessionDisposition.t;
  os_key : SourceIncarnationKey;
  os_previous : Z;
  os_fenced_claims : Z;
  os_detail : string;
}.

Record RegistryStats := mkStats {
  st_registry : RegistryId;
  st_opened_at : Z;
  st_objects : Z;
  st_endpoints : Z;
  st_ports : Z;
  st_sources : Z;
  st_sessions : Z;
  st_live_sessions : Z;
  st_claim_records : Z;
  st_port_records : Z;
  st_lifecycle_records : Z;
  st_capability_records : Z;
  st_evidence_accepted : Z;
  st_evidence_refused : Z;
  st_evidence_duplicate : Z;
  st_evidence_superseded : Z;
  st_evidence_fenced : Z;
  st_evidence_pending : Z;
  st_store_records : Z;
  st_store_bytes : Z;
  st_store_rewrites : Z;
  st_recovery : RecoveryReport;
}.
