(* ===== verification/Codec.v ===== *)
(** * Bounded binary encoding primitives ([src/codec.cpp])

    [Encoder] and [Decoder] as state transformers.  An encoder operation maps
    an encoder to an encoder; a decoder operation is a state-and-failure
    computation, [None] standing for the source's [return false].

    The lemmas form a small algebra.  [writes f r] says that the operation [f]
    appends exactly the bytes of [r] (or fails the encoder when [r] is [None]
    or the ceiling is hit); [decodes d bs a] says that the reader [d] consumes
    exactly [bs] and returns [a].  [roundtrip f d a] combines the two, and is
    what the files about serialization compose. *)
From S2P Require Import Prelude OrdMap Types.
#[local] Open Scope Z_scope.

(** ** Little-endian integers *)

(** [raw\[index\] = (value >> (index * 8)) & 0xFF] for [n] bytes. *)
Fixpoint le_bytes_from (index : Z) (n : nat) (value : Z) : list Z :=
  match n with
  | O => []
  | S n' => Z.land (Z.shiftr value (index * 8)) 255 :: le_bytes_from (index + 1) n' value
  end.
Definition le_bytes (n : nat) (value : Z) : list Z := le_bytes_from 0 n value.

(** [value |= raw\[index\] << (index * 8)] over all bytes. *)
Fixpoint le_load_from (index : Z) (value : Z) (raw : list Z) : Z :=
  match raw with
  | [] => value
  | b :: raw' => le_load_from (index + 1) (Z.lor value (Z.shiftl b (index * 8))) raw'
  end.
Definition le_load (raw : list Z) : Z := le_load_from 0 0 raw.

(** [load_u16], [load_u32] and [load_u64]: a field of a fixed layout. *)
Definition load_at (width : nat) (bytes : list Z) (offset : Z) : Z :=
  le_load (take width (drop (Z.to_nat offset) bytes)).

(** ** Encoder *)

Record Encoder := mkEncoder { enc_buffer : list Z; enc_failed : bool }.

Definition kMaxEncodedBytes : Z := Z.shiftl 8 20.

Definition new_encoder : Encoder := mkEncoder [] false.

(** [Encoder::fail]. *)
Definition enc_fail (e : Encoder) : Encoder := mkEncoder [] true.

(** [Encoder::ok] and [Encoder::take]. *)
Definition enc_ok (e : Encoder) : bool := negb (enc_failed e).
Definition enc_take (e : Encoder) : list Z := if enc_failed e then [] else enc_buffer e.

(** [Encoder::reserve_for]: the growth policy only changes the capacity of the
    buffer, which no operation reads back, so what is left is the ceiling. *)
Definition reserve_for (extra : Z) (e : Encoder) : Encoder :=
  if enc_failed e then e
  else if (kMaxEncodedBytes <? extra) || (kMaxEncodedBytes - extra <? zlen (enc_buffer e))
  then enc_fail e else e.

(** [reserve_for(count)], the early return, and the append. *)
Definition append_bytes (raw : list Z) (e : Encoder) : Encoder :=
  let e := reserve_for (zlen raw) e in
  if enc_failed e then e else mkEncoder (enc_buffer e ++ raw) false.

Abbreviation Enc := (Encoder -> Encoder).

Definition enc_u8 (value : Z) : Enc := append_bytes [value].
Definition enc_u16 (value : Z) : Enc := append_bytes (le_bytes 2 value).
Definition enc_u32 (value : Z) : Enc := append_bytes (le_bytes 4 value).
Definition enc_u64 (value : Z) : Enc := append_bytes (le_bytes 8 value).
Definition enc_i64 (value : Z) : Enc := enc_u64 (i64_to_u64 value).
Definition enc_boolean (value : bool) : Enc := enc_u8 (if value then 1 else 0).

(** Two writes in sequence on the same encoder. *)
Definition enc_seq (f g : Enc) : Enc := fun e => g (f e).
Notation "f ;> g" := (enc_seq f g) (at level 60, right associativity).

Definition enc_nop : Enc := fun e => e.

Definition enc_id128 (value : Id128) : Enc := enc_u64 (id_hi value) ;> enc_u64 (id_lo value).
Definition enc_id {tag} (value : StrongId tag) : Enc := enc_id128 (sid_value value).

Definition enc_bytes (value : list Z) : Enc := fun e =>
  if 2 ^ 32 - 1 <? zlen value then enc_fail e
  else
    let e := enc_u32 (zlen value) e in
    if enc_failed e then e else append_bytes value e.

Definition enc_string (value : string) (max_bytes : Z) : Enc := fun e =>
  if (max_bytes <? slen value) || (2 ^ 32 - 1 <? slen value) then enc_fail e
  else
    let e := enc_u32 (slen value) e in
    if enc_failed e then e else append_bytes (string_bytes value) e.

(** An enumerator written as its underlying 8 or 16 bit value. *)
Definition enc_enum8 {E} `{Enum E} (value : E) : Enc := enc_u8 (enum_code value).
Definition enc_enum16 {E} `{Enum E} (value : E) : Enc := enc_u16 (enum_code value).

(** [for (const auto& element : elements) encode(out, element)]. *)
Fixpoint enc_each {A} (f : A -> Enc) (elements : list A) : Enc :=
  match elements with
  | [] => enc_nop
  | x :: rest => f x ;> enc_each f rest
  end.

(** A count followed by the elements. *)
Definition enc_vector {A} (f : A -> Enc) (elements : list A) : Enc :=
  enc_u32 (wrap32 (zlen elements)) ;> enc_each f elements.

(** ** Decoder *)

Record Decoder := mkDecoder { dec_data : list Z; dec_offset : nat }.

Definition new_decoder (data : list Z) : Decoder := mkDecoder data 0.
Definition dec_done (d : Decoder) : bool := bool_decide (dec_offset d = length (dec_data d)).
Definition dec_remaining (d : Decoder) : Z := zlen (dec_data d) - Z.of_nat (dec_offset d).

Definition Dec (A : Type) : Type := Decoder -> option (A * Decoder).

#[export] Instance Dec_ret : MRet Dec := fun A a d => Some (a, d).
#[export] Instance Dec_bind : MBind Dec := fun A B k m d =>
  match m d with Some (a, d') => k a d' | None => None end.

(** [if (!condition) return false]. *)
Definition dec_guard (condition : bool) : Dec unit := fun d =>
  if condition then Some (tt, d) else None.
Definition dec_opt {A} (value : option A) : Dec A := fun d =>
  match value with Some a => Some (a, d) | None => None end.

(** [Decoder::take]. *)
Definition dec_take (count : Z) : Dec (list Z) := fun d =>
  if zlen (dec_data d) - Z.of_nat (dec_offset d) <? count then None
  else Some (take (Z.to_nat count) (drop (dec_offset d) (dec_data d)),
             mkDecoder (dec_data d) (dec_offset d + Z.to_nat count)).

Definition dec_u8 : Dec Z := raw ← dec_take 1; mret (le_load raw).
Definition dec_u16 : Dec Z := raw ← dec_take 2; mret (le_load raw).
Definition dec_u32 : Dec Z := raw ← dec_take 4; mret (le_load raw).
Definition dec_u64 : Dec Z := raw ← dec_take 8; mret (le_load raw).
Definition dec_i64 : Dec Z := value ← dec_u64; mret (u64_to_i64 value).
Definition dec_boolean : Dec bool :=
  raw ← dec_u8; _ ← dec_guard (negb (1 <? raw)); mret (raw =? 1).
Definition dec_id128 : Dec Id128 := hi ← dec_u64; lo ← dec_u64; mret (mkId128 hi lo).
Definition dec_id {tag} : Dec (StrongId tag) := raw ← dec_id128; mret (mkStrongId raw).
Definition dec_bytes (max_bytes : Z) : Dec (list Z) :=
  length ← dec_u32; _ ← dec_guard (negb (max_bytes <? length)); dec_take length.
Definition dec_string (max_bytes : Z) : Dec string :=
  length ← dec_u32; _ ← dec_guard (negb (max_bytes <? length));
  raw ← dec_take length; mret (bytes_string raw).

(** A raw integer range-checked and cast to an enumerator. *)
Definition dec_enum {E} `{Enum E} (raw : Z) : Dec E := dec_opt (enum_cast raw).

(** [count] elements in order, the loop of [decode_vector]. *)
Fixpoint dec_repeat {A} (count : nat) (element : Dec A) : Dec (list A) :=
  match count with
  | O => mret []
  | S n => x ← element; rest ← dec_repeat n element; mret (x :: rest)
  end.

Definition decode_vector {A} (max_count : Z) (element : Dec A) : Dec (list A) :=
  count ← dec_u32; _ ← dec_guard (negb (max_count <? count));
  dec_repeat (Z.to_nat count) element.

(** [decode ... || !decoder.done()]: the whole payload must be consumed. *)
Definition decode_all {A} (d : Dec A) (payload : list Z) : option A :=
  match d (new_decoder payload) with
  | Some (a, decoder) => if dec_done decoder then Some a else None
  | None => None
  end.

(** ** Checked arithmetic *)

Definition checked_add (a b : Z) : option Z :=
  if 2 ^ 64 - 1 - b <? a then None else Some (wrap64 (a + b)).
Definition checked_mul (a b : Z) : option Z :=
  if negb (a =? 0) && ((2 ^ 64 - 1) / a <? b) then None else Some (wrap64 (a * b)).

(** * Facts *)

(** ** Little-endian integers *)

Lemma le_bytes_from_length i n v : length (le_bytes_from i n v) = n.
Proof. revert i. induction n; cbn; auto. Qed.

Lemma le_bytes_length n v : length (le_bytes n v) = n.
Proof. apply le_bytes_from_length. Qed.

Lemma le_step i v : 0 <= i ->
  Z.lor (v mod 2 ^ (i * 8)) (Z.shiftl (Z.land (Z.shiftr v (i * 8)) 255) (i * 8)) =
  v mod 2 ^ ((i + 1) * 8).
Proof.
  intros Hi. change 255 with (Z.ones 8). apply Z.bits_inj'. intros n Hn.
  rewrite Z.lor_spec, Z.shiftl_spec, Z.land_spec by lia.
  destruct (decide (n < i * 8)).
  - rewrite !Z.mod_pow2_bits_low by lia.
    rewrite (Z.testbit_neg_r (Z.shiftr v (i * 8))) by lia. by rewrite andb_false_l, orb_false_r.
  - rewrite Z.mod_pow2_bits_high by lia. rewrite Z.shiftr_spec by lia.
    rewrite Z.testbit_ones_nonneg by lia. rewrite orb_false_l.
    replace (n - i * 8 + i * 8) with n by lia.
    destruct (Z.ltb_spec (n - i * 8) 8).
    + rewrite andb_true_r, Z.mod_pow2_bits_low by lia. done.
    + rewrite andb_false_r, Z.mod_pow2_bits_high by lia. done.
Qed.

Lemma le_load_bytes_from n : forall i v, 0 <= i ->
  le_load_from i (v mod 2 ^ (i * 8)) (le_bytes_from i n v) = v mod 2 ^ ((i + Z.of_nat n) * 8).
Proof.
  induction n as [|n IH]; intros i v Hi; cbn [le_bytes_from le_load_from].
  - f_equal. f_equal. lia.
  - rewrite le_step by done. rewrite IH by lia. do 3 f_equal. lia.
Qed.

(** Loading the bytes of a value gives the value back when it fits. *)
Lemma le_load_bytes n v : 0 <= v < 2 ^ (Z.of_nat n * 8) -> le_load (le_bytes n v) = v.
Proof.
  intros Hv. unfold le_load, le_bytes.
  replace 0 with (v mod 2 ^ (0 * 8)) at 2 by apply Z.mod_1_r.
  rewrite le_load_bytes_from by lia. rewrite Z.add_0_l. by apply Z.mod_small.
Qed.

Lemma load_at_app width pre v post :
  0 <= v < 2 ^ (Z.of_nat width * 8) ->
  load_at width (pre ++ le_bytes width v ++ post) (zlen pre) = v.
Proof.
  intros Hv. unfold load_at, zlen. rewrite Nat2Z.id, drop_app_length.
  rewrite take_app_length' by (symmetry; apply le_bytes_length). by apply le_load_bytes.
Qed.

Lemma le_bytes_from_u8 i n v : 0 <= i -> Forall is_u8 (le_bytes_from i n v).
Proof.
  revert i. induction n as [|n IH]; intros i Hi; cbn; constructor.
  - unfold is_u8. change 255 with (Z.ones 8). rewrite Z.land_ones by lia.
    apply Z.mod_pos_bound. lia.
  - apply IH. lia.
Qed.

(** ** Writers *)

(** A failed encoder holds no bytes, and no encoder grows past the ceiling. *)
Definition enc_inv (e : Encoder) : Prop :=
  (enc_failed e = true -> e = mkEncoder [] true) /\ zlen (enc_buffer e) <= kMaxEncodedBytes.

Definition writes (f : Enc) (r : option (list Z)) : Prop :=
  forall e, enc_inv e ->
    f e = if enc_failed e then e else
          match r with
          | Some bs => if zlen (enc_buffer e) + zlen bs <=? kMaxEncodedBytes
                       then mkEncoder (enc_buffer e ++ bs) false else mkEncoder [] true
          | None => mkEncoder [] true
          end.

Lemma enc_inv_failed : enc_inv (mkEncoder [] true).
Proof. by split. Qed.

Lemma enc_inv_new : enc_inv new_encoder.
Proof. by split. Qed.

Lemma writes_inv f r e : writes f r -> enc_inv e -> enc_inv (f e).
Proof.
  intros Hf He. rewrite (Hf e He). destruct (enc_failed e) eqn:E; [done|].
  destruct r as [bs|]; [|apply enc_inv_failed].
  destruct (Z.leb_spec (zlen (enc_buffer e) + zlen bs) kMaxEncodedBytes); [|apply enc_inv_failed].
  split; [done|]. cbn. by rewrite zlen_app.
Qed.

Lemma writes_append raw : writes (append_bytes raw) (Some raw).
Proof.
  intros e He. unfold append_bytes, reserve_for.
  destruct (enc_failed e) eqn:E; [by rewrite E|].
  pose proof (zlen_nonneg (enc_buffer e)).
  destruct (Z.leb_spec (zlen (enc_buffer e) + zlen raw) kMaxEncodedBytes).
  - destruct (Z.ltb_spec kMaxEncodedBytes (zlen raw)); [lia|].
    destruct (Z.ltb_spec (kMaxEncodedBytes - zlen raw) (zlen (enc_buffer e))); [lia|].
    cbn. by rewrite E.
  - destruct (Z.ltb_spec kMaxEncodedBytes (zlen raw)); [done|].
    destruct (Z.ltb_spec (kMaxEncodedBytes - zlen raw) (zlen (enc_buffer e))); [done|lia].
Qed.

Lemma writes_nop : writes enc_nop (Some []).
Proof.
  intros [b [|]] [_ Hlen]; cbn -[kMaxEncodedBytes] in *; [done|].
  unfold enc_nop. rewrite app_nil_r, zlen_nil, Z.add_0_r.
  by destruct (Z.leb_spec (zlen b) kMaxEncodedBytes); [|lia].
Qed.

Lemma writes_fail : writes enc_fail None.
Proof. intros e [He _]. unfold enc_fail. destruct (enc_failed e) eqn:E; [by rewrite He|done]. Qed.

Definition bytes_app (r1 r2 : option (list Z)) : option (list Z) :=
  match r1, r2 with Some a, Some b => Some (a ++ b) | _, _ => None end.

(** Two writes in sequence write the concatenation, and fail as a whole when
    either of them does. *)
Lemma writes_seq f g r1 r2 : writes f r1 -> writes g r2 -> writes (f ;> g) (bytes_app r1 r2).
Proof.
  intros Hf Hg e He. unfold enc_seq.
  rewrite (Hg (f e)) by (by eapply writes_inv). rewrite (Hf e He).
  destruct (enc_failed e) eqn:E; [by rewrite E|].
  destruct r1 as [a|]; [|done]. cbn [bytes_app].
  destruct r2 as [b|].
  - pose proof (zlen_nonneg b).
    destruct (Z.leb_spec (zlen (enc_buffer e) + zlen a) kMaxEncodedBytes); cbn.
    + by rewrite !zlen_app, Z.add_assoc, app_assoc.
    + rewrite zlen_app. destruct (Z.leb_spec (zlen (enc_buffer e) + (zlen a + zlen b)) kMaxEncodedBytes);
        [lia|done].
  - by destruct (_ <=? _).
Qed.

Lemma writes_u8 v : writes (enc_u8 v) (Some [v]).
Proof. apply writes_append. Qed.

Lemma append_failed raw e : enc_failed e = true -> append_bytes raw e = e.
Proof. intros Ef. unfold append_bytes, reserve_for. by rewrite Ef, Ef. Qed.

Lemma enc_string_seq s m e :
  (m <? slen s) || (2 ^ 32 - 1 <? slen s) = false ->
  enc_string s m e = (enc_u32 (slen s) ;> append_bytes (string_bytes s)) e.
Proof.
  intros E. unfold enc_string. rewrite E. unfold enc_seq.
  destruct (enc_failed (enc_u32 (slen s) e)) eqn:Ef; [|done]. by rewrite append_failed.
Qed.

(** A string is written as its length and its bytes when it respects the
    caller's ceiling, and fails the encoder otherwise. *)
Lemma writes_string s m :
  writes (enc_string s m)
    (if (m <? slen s) || (2 ^ 32 - 1 <? slen s) then None
     else Some (le_bytes 4 (slen s) ++ string_bytes s)).
Proof.
  intros e He. destruct (_ || _) eqn:E.
  - unfold enc_string. rewrite E. by apply writes_fail.
  - rewrite enc_string_seq by done.
    exact (writes_seq _ _ _ _ (writes_append _) (writes_append _) e He).
Qed.

(** ** Readers *)

Definition decodes {A} (d : Dec A) (bs : list Z) (a : A) : Prop :=
  forall pre post,
    d (mkDecoder (pre ++ bs ++ post) (length pre)) =
    Some (a, mkDecoder (pre ++ bs ++ post) (length pre + length bs)).

Lemma decodes_ret {A} (a : A) : decodes (mret a) [] a.
Proof. intros pre post. cbn. by rewrite Nat.add_0_r. Qed.

Lemma decodes_bind {A B} (d : Dec A) (k : A -> Dec B) bs1 bs2 a b :
  decodes d bs1 a -> decodes (k a) bs2 b -> decodes (d ≫= k) (bs1 ++ bs2) b.
Proof.
  intros H1 H2 pre post. unfold mbind, Dec_bind.
  specialize (H1 pre (bs2 ++ post)). specialize (H2 (pre ++ bs1) post).
  rewrite <- !app_assoc in *. rewrite H1. rewrite length_app in H2. rewrite H2.
  by rewrite length_app, Nat.add_assoc.
Qed.

Lemma decodes_take bs : decodes (dec_take (zlen bs)) bs bs.
Proof.
  intros pre post. unfold dec_take. cbn.
  destruct (Z.ltb_spec (zlen (pre ++ bs ++ post) - Z.of_nat (length pre)) (zlen bs)) as [H|H].
  - exfalso. rewrite !zlen_app in H. pose proof (zlen_nonneg post). unfold zlen in H at 1. lia.
  - unfold zlen. rewrite Nat2Z.id, drop_app_length, take_app_length. done.
Qed.

Lemma decodes_guard c : c = true -> decodes (dec_guard c) [] tt.
Proof. intros -> pre post. cbn. by rewrite Nat.add_0_r. Qed.

Lemma decodes_opt {A} (o : option A) a : o = Some a -> decodes (dec_opt o) [] a.
Proof. intros -> pre post. cbn. by rewrite Nat.add_0_r. Qed.

(** ** Round trips *)

(** [f] writes some bytes from which [d] reads [a] back. *)
Definition roundtrip {A} (f : Enc) (d : Dec A) (a : A) : Prop :=
  exists bs, writes f (Some bs) /\ decodes d bs a.

Lemma rt_ret {A} (a : A) : roundtrip enc_nop (mret a) a.
Proof. exists []. split; [apply writes_nop|apply decodes_ret]. Qed.

Lemma rt_seq {A B} (f g : Enc) (d : Dec A) (k : A -> Dec B) a b :
  roundtrip f d a -> roundtrip g (k a) b -> roundtrip (f ;> g) (d ≫= k) b.
Proof.
  intros (bs1 & Hw1 & Hd1) (bs2 & Hw2 & Hd2). exists (bs1 ++ bs2). split.
  - exact (writes_seq _ _ _ _ Hw1 Hw2).
  - by eapply decodes_bind.
Qed.

Lemma rt_map {A B} (f : Enc) (d : Dec A) (h : A -> B) a :
  roundtrip f d a -> roundtrip f (x ← d; mret (h x)) (h a).
Proof.
  intros (bs & Hw & Hd). exists bs. split; [done|]. rewrite <- (app_nil_r bs).
  eapply decodes_bind; [done|apply decodes_ret].
Qed.

(** The last read of a decoder that still checks and builds its result. *)
Lemma rt_last {A B} (f : Enc) (d : Dec A) (k : A -> Dec B) a b :
  roundtrip f d a -> decodes (k a) [] b -> roundtrip f (d ≫= k) b.
Proof.
  intros (bs & Hw & Hd) Hk. exists bs. split; [done|]. rewrite <- (app_nil_r bs).
  by eapply decodes_bind.
Qed.

Lemma rt_guard {A} (f : Enc) c (k : unit -> Dec A) a :
  c = true -> roundtrip f (k tt) a -> roundtrip f (dec_guard c ≫= k) a.
Proof.
  intros Hc (bs & Hw & Hd). exists bs. split; [done|]. change bs with ([] ++ bs).
  eapply decodes_bind; [by apply decodes_guard|done].
Qed.

Lemma rt_opt {A B} (f : Enc) (o : option A) (k : A -> Dec B) a b :
  o = Some a -> roundtrip f (k a) b -> roundtrip f (dec_opt o ≫= k) b.
Proof.
  intros Hc (bs & Hw & Hd). exists bs. split; [done|]. change bs with ([] ++ bs).
  eapply decodes_bind; [by apply decodes_opt|done].
Qed.

Lemma decodes_guard_bind {A} c (k : unit -> Dec A) a :
  c = true -> decodes (k tt) [] a -> decodes (dec_guard c ≫= k) [] a.
Proof. intros Hc Hk. change (@nil Z) with (@nil Z ++ []). eapply decodes_bind; [by apply decodes_guard|done]. Qed.

Lemma decodes_opt_bind {A B} (o : option A) (k : A -> Dec B) a b :
  o = Some a -> decodes (k a) [] b -> decodes (dec_opt o ≫= k) [] b.
Proof. intros Hc Hk. change (@nil Z) with (@nil Z ++ []). eapply decodes_bind; [by apply decodes_opt|done]. Qed.

Lemma rt_le n v : 0 <= v < 2 ^ (Z.of_nat n * 8) ->
  roundtrip (append_bytes (le_bytes n v)) (raw ← dec_take (Z.of_nat n); mret (le_load raw)) v.
Proof.
  intros Hv. exists (le_bytes n v). split; [apply writes_append|].
  rewrite <- (app_nil_r (le_bytes n v)). rewrite <- (le_bytes_length n v) at 1.
  eapply decodes_bind; [apply decodes_take|].
  rewrite le_load_bytes by done. apply decodes_ret.
Qed.

Lemma rt_u8 v : is_u8 v -> roundtrip (enc_u8 v) dec_u8 v.
Proof.
  intros Hv. unfold enc_u8. replace [v] with (le_bytes 1 v); [by apply (rt_le 1)|].
  cbn. rewrite Z.shiftr_0_r. change 255 with (Z.ones 8). rewrite Z.land_ones by lia.
  by rewrite Z.mod_small.
Qed.

Lemma rt_u16 v : is_u16 v -> roundtrip (enc_u16 v) dec_u16 v.
Proof. apply (rt_le 2). Qed.

Lemma rt_u32 v : is_u32 v -> roundtrip (enc_u32 v) dec_u32 v.
Proof. apply (rt_le 4). Qed.

Lemma rt_u64 v : is_u64 v -> roundtrip (enc_u64 v) dec_u64 v.
Proof. apply (rt_le 8). Qed.

Lemma rt_i64 v : is_i64 v -> roundtrip (enc_i64 v) dec_i64 v.
Proof.
  intros Hv. unfold dec_i64, enc_i64. rewrite <- (i64_u64_i64 v Hv) at 2.
  apply rt_map, rt_u64, i64_to_u64_range.
Qed.

Lemma rt_boolean v : roundtrip (enc_boolean v) dec_boolean v.
Proof.
  unfold dec_boolean, enc_boolean.
  eapply rt_last; [apply rt_u8; by destruct v|].
  apply decodes_guard_bind; [by destruct v|]. destruct v; apply decodes_ret.
Qed.

Definition id128_ok (i : Id128) : Prop := is_u64 (id_hi i) /\ is_u64 (id_lo i).
Definition id_ok {tag} (i : StrongId tag) : Prop := id128_ok (sid_value i).

Lemma rt_id128 v : id128_ok v -> roundtrip (enc_id128 v) dec_id128 v.
Proof.
  intros [H1 H2]. destruct v as [hi lo]. cbn in *.
  eapply rt_seq; [by apply rt_u64|]. by apply (rt_map _ _ (mkId128 hi)), rt_u64.
Qed.

Lemma rt_id {tag} (v : StrongId tag) : id_ok v -> roundtrip (enc_id v) dec_id v.
Proof. intros Hv. destruct v as [v]. by apply (rt_map _ _ mkStrongId), rt_id128. Qed.

(** A string within the bound of the encoder comes back from a decoder with
    the same bound. *)
Lemma rt_string s m : slen s <= m -> is_u32 m -> roundtrip (enc_string s m) (dec_string m) s.
Proof.
  intros Hs Hm. unfold is_u32 in Hm.
  assert (0 <= slen s) by apply zlen_nonneg.
  assert (roundtrip (enc_u32 (slen s) ;> append_bytes (string_bytes s)) (dec_string m) s)
    as (bs & Hw & Hd).
  { eapply rt_seq; [apply rt_u32; unfold is_u32; lia|].
    apply rt_guard; [apply negb_true_iff, Z.ltb_ge; lia|].
    rewrite <- (bytes_string_bytes s) at 3. apply rt_map.
    exists (string_bytes s). split; [apply writes_append|apply decodes_take]. }
  exists bs. split; [|done]. intros e He. rewrite enc_string_seq; [by apply Hw|].
  apply orb_false_iff. rewrite !Z.ltb_ge. lia.
Qed.

Lemma rt_each {A} (f : A -> Enc) (d : Dec A) l :
  Forall (fun x => roundtrip (f x) d x) l -> roundtrip (enc_each f l) (dec_repeat (length l) d) l.
Proof.
  induction 1 as [|x l Hx _ IH]; cbn; [apply rt_ret|].
  eapply rt_seq; [exact Hx|]. by apply (rt_map _ _ (cons x)).
Qed.

Lemma rt_vector {A} (f : A -> Enc) (d : Dec A) m l :
  zlen l <= m -> is_u32 m -> Forall (fun x => roundtrip (f x) d x) l ->
  roundtrip (enc_vector f l) (decode_vector m d) l.
Proof.
  intros Hl Hm Hall. unfold is_u32 in Hm. pose proof (zlen_nonneg l).
  unfold enc_vector, decode_vector. rewrite wrap32_small by (unfold is_u32; lia).
  eapply rt_seq; [apply rt_u32; unfold is_u32; lia|].
  apply rt_guard; [apply negb_true_iff, Z.ltb_ge; lia|].
  unfold zlen. rewrite Nat2Z.id. by apply rt_each.
Qed.

Lemma rt_bytes l m : zlen l <= m -> is_u32 m -> roundtrip (enc_bytes l) (dec_bytes m) l.
Proof.
  intros Hl Hm. unfold is_u32 in Hm. pose proof (zlen_nonneg l).
  assert (roundtrip (enc_u32 (zlen l) ;> append_bytes l) (dec_bytes m) l) as (bs & Hw & Hd).
  { eapply rt_seq; [apply rt_u32; unfold is_u32; lia|].
    apply rt_guard; [apply negb_true_iff, Z.ltb_ge; lia|].
    exists l. split; [apply writes_append|apply decodes_take]. }
  exists bs. split; [|done]. intros e He. rewrite <- (Hw e He). unfold enc_bytes, enc_seq.
  rewrite (proj2 (Z.ltb_ge _ _)) by lia.
  destruct (enc_failed (enc_u32 (zlen l) e)) eqn:Ef; [by rewrite append_failed|done].
Qed.

(** A bounded vector of elements that come back comes back. *)
Lemma rt_bounded {A} (f : A -> Enc) (d : Dec A) (P : A -> Prop) m l :
  is_u32 m -> (forall x, P x -> roundtrip (f x) d x) -> zlen l <= m /\ Forall P l ->
  roundtrip (enc_vector f l) (decode_vector m d) l.
Proof. intros Hm Hf [Hl HP]. apply rt_vector; [done|done|]. eapply Forall_impl; [exact HP|done]. Qed.

(** What a complete round trip means: an encoder that did not fail holds bytes
    the decoder reads back completely. *)
Lemma roundtrip_ok {A} (f : Enc) (d : Dec A) a :
  roundtrip f d a -> enc_ok (f new_encoder) = true ->
  exists d', d (new_decoder (enc_take (f new_encoder))) = Some (a, d') /\ dec_done d' = true.
Proof.
  intros (bs & Hw & Hd) Hok. pose proof (Hw new_encoder enc_inv_new) as E.
  cbn -[kMaxEncodedBytes] in E. rewrite E in Hok |- *.
  destruct (_ <=? _); [|done]. cbn. specialize (Hd [] []). cbn in Hd. rewrite app_nil_r in Hd.
  unfold new_decoder. rewrite Hd. eexists. split; [done|]. cbn. by apply bool_decide_eq_true.
Qed.

Lemma decode_all_roundtrip {A} (f : Enc) (d : Dec A) a :
  roundtrip f d a -> enc_ok (f new_encoder) = true -> decode_all d (enc_take (f new_encoder)) = Some a.
Proof.
  intros Hrt Hok. destruct (roundtrip_ok f d a Hrt Hok) as (d' & E & Hd). unfold decode_all. by rewrite E, Hd.
Qed.

Lemma rt_enum8 {E} `{Enum E} (e : E) : roundtrip (enc_enum8 e) dec_u8 (enum_code e).
Proof. apply rt_u8, enum_code_u8. Qed.

Lemma rt_enum16 {E} `{Enum E} (e : E) : roundtrip (enc_enum16 e) dec_u16 (enum_code e).
Proof. apply rt_u16, enum_code_u16. Qed.

(** ** Checked arithmetic never wraps *)

Lemma checked_add_spec a b : is_u64 a -> is_u64 b ->
  checked_add a b = if a + b <? 2 ^ 64 then Some (a + b) else None.
Proof.
  intros Ha Hb. unfold checked_add, is_u64 in *.
  destruct (Z.ltb_spec (2 ^ 64 - 1 - b) a), (Z.ltb_spec (a + b) (2 ^ 64)); try lia; [done|].
  by rewrite wrap64_small by (unfold is_u64; lia).
Qed.

Lemma checked_mul_spec a b : is_u64 a -> is_u64 b ->
  checked_mul a b = if a * b <? 2 ^ 64 then Some (a * b) else None.
Proof.
  intros Ha Hb. unfold checked_mul, is_u64 in *.
  destruct (Z.eqb_spec a 0) as [->|Hne]; [done|]. cbn [negb andb].
  assert (Hdiv : (2 ^ 64 - 1) / a < b <-> 2 ^ 64 <= a * b).
  { pose proof (Z.div_mod (2 ^ 64 - 1) a Hne) as Hd.
    pose proof (Z.mod_pos_bound (2 ^ 64 - 1) a ltac:(lia)). nia. }
  destruct (Z.ltb_spec ((2 ^ 64 - 1) / a) b), (Z.ltb_spec (a * b) (2 ^ 64)); try lia; [done|].
  by rewrite wrap64_small by (unfold is_u64; nia).
Qed.

(** ** Automation *)

Create HintDb rt.
#[export] Hint Resolve rt_u8 rt_u16 rt_u32 rt_u64 rt_i64 rt_boolean rt_id128 rt_id rt_string
  rt_enum8 rt_enum16 : rt.

(** Discharges the check of a [dec_guard] or [dec_opt]. *)
Ltac rt_check :=
  first [ done | apply enum_cast_code | assumption
        | apply negb_true_iff, Z.ltb_ge; lia | apply negb_true_iff; assumption ].

(** Runs a decoder against the encoder that produced its input, one field or
    check at a time. *)
Ltac rt_step :=
  cbv beta;
  first [ eapply rt_guard; [rt_check|]
        | eapply rt_opt; [rt_check|]
        | eapply rt_seq; [solve [eauto with rt]|]
        | eapply rt_last; [solve [eauto with rt]|]
        | apply decodes_guard_bind; [rt_check|]
        | eapply decodes_opt_bind; [rt_check|]
        | apply decodes_ret
        | apply rt_ret ].
Ltac rt_steps := repeat rt_step.
