(* ===== verification/Serialization.v ===== *)
(** * Canonical binary encoding of domain values ([src/serialization.cpp])

    One definition per encoder and decoder of the source, field by field and
    check by check.  [out.x(...)] becomes [enc_x ...] in an [;>] sequence, and
    a chain of [if (!in.x(...)) return false] becomes a sequence of reads.

    The [wf_*] predicates state which values the encoder is meant to be given
    (integers within their width, strings within the policy, the structural
    checks the decoder repeats); for those, decoding gives the value back. *)
From S2P Require Import Prelude OrdMap Types Graph Codec.
#[local] Open Scope Z_scope.

(** ** Authority, sides, references *)

Definition encode_authority (value : Authority) : Enc :=
  enc_enum8 (auth_class value) ;> enc_u32 (auth_rank value).

Definition decode_authority : Dec Authority :=
  authority_class ← dec_u8; rank ← dec_u32;
  authority_class ← dec_enum authority_class;
  mret (mkAuthority authority_class rank).

Definition encode_side_descriptor (value : ObjectSideDescriptor) : Enc :=
  enc_enum8 (sd_connector value) ;> enc_enum8 (sd_media value) ;> enc_u16 (sd_lanes value).

Definition decode_side_descriptor : Dec ObjectSideDescriptor :=
  connector ← dec_u8; media ← dec_u8; lanes ← dec_u16;
  connector ← dec_enum connector; media ← dec_enum media;
  mret (mkObjectSideDescriptor connector media lanes).

Definition encode_object_side_ref (value : ObjectSideRef) : Enc :=
  enc_id (side_object value) ;> enc_u32 (side_index value).

Definition decode_object_side_ref : Dec ObjectSideRef :=
  object ← dec_id; side ← dec_u32; mret (mkObjectSideRef object side).

Definition encode_port_ref (value : PortRef) : Enc :=
  enc_id (port_endpoint value) ;> enc_u32 (port_index value).

Definition decode_port_ref : Dec PortRef :=
  endpoint ← dec_id; index ← dec_u32; mret (mkPortRef endpoint index).

(** ** Summary and recovery report *)

Definition encode_summary (value : GraphSummary) : Enc :=
  enc_u64 (gs_ports_attached value) ;> enc_u64 (gs_ports_empty value) ;>
  enc_u64 (gs_ports_unknown value) ;> enc_u64 (gs_ports_conflicting value) ;>
  enc_u64 (gs_objects_total value) ;> enc_u64 (gs_objects_registered value) ;>
  enc_u64 (gs_objects_unattached value) ;> enc_u64 (gs_objects_attached value) ;>
  enc_u64 (gs_objects_quarantined value) ;> enc_u64 (gs_objects_removed value) ;>
  enc_u64 (gs_objects_retired value) ;> enc_u64 (gs_edges value) ;>
  enc_u64 (gs_edges_unvalidated value) ;> enc_u64 (gs_conflicts value) ;>
  enc_u64 (gs_claims_fenced value) ;> enc_u64 (gs_claims_pending value).

Definition decode_summary : Dec GraphSummary :=
  ports_attached ← dec_u64; ports_empty ← dec_u64; ports_unknown ← dec_u64;
  ports_conflicting ← dec_u64; objects_total ← dec_u64; objects_registered ← dec_u64;
  objects_unattached ← dec_u64; objects_attached ← dec_u64; objects_quarantined ← dec_u64;
  objects_removed ← dec_u64; objects_retired ← dec_u64; edges ← dec_u64;
  edges_unvalidated ← dec_u64; conflicts ← dec_u64; claims_fenced ← dec_u64;
  claims_pending ← dec_u64;
  mret (mkSummary ports_attached ports_empty ports_unknown ports_conflicting objects_total
          objects_registered objects_unattached objects_attached objects_quarantined
          objects_removed objects_retired edges edges_unvalidated conflicts claims_fenced
          claims_pending).

Definition encode_recovery_report (limits : Limits) (value : RecoveryReport) : Enc :=
  enc_boolean (rr_opened value) ;> enc_boolean (rr_created value) ;>
  enc_boolean (rr_salvaged value) ;> enc_boolean (rr_chain_intact value) ;>
  enc_u32 (rr_format_version value) ;> enc_u64 (rr_records_loaded value) ;>
  enc_u64 (rr_records_rejected value) ;> enc_u64 (rr_bytes_loaded value) ;>
  enc_u64 (rr_bytes_discarded value) ;> enc_enum8 (rr_issue value) ;>
  enc_u64 (rr_issue_offset value) ;> enc_string (rr_detail value) (max_string_bytes limits).

Definition decode_recovery_report (limits : Limits) : Dec RecoveryReport :=
  opened ← dec_boolean; created ← dec_boolean; salvaged ← dec_boolean;
  chain_intact ← dec_boolean; format_version ← dec_u32; records_loaded ← dec_u64;
  records_rejected ← dec_u64; bytes_loaded ← dec_u64; bytes_discarded ← dec_u64;
  issue ← dec_u8; issue_offset ← dec_u64; detail ← dec_string (max_string_bytes limits);
  issue ← dec_enum issue;
  mret (mkRecoveryReport opened created salvaged chain_intact format_version records_loaded
          records_rejected bytes_loaded bytes_discarded issue issue_offset detail).

(** ** Descriptors *)

Definition encode_source_descriptor (limits : Limits) (value : SourceDescriptor) : Enc :=
  enc_id (src_id value) ;> enc_string (src_name value) (max_string_bytes limits) ;>
  encode_authority (src_authority value) ;>
  enc_string (src_domain value) (max_string_bytes limits).

Definition decode_source_descriptor (limits : Limits) : Dec SourceDescriptor :=
  id ← dec_id; name ← dec_string (max_string_bytes limits);
  authority ← decode_authority; domain ← dec_string (max_string_bytes limits);
  _ ← dec_guard (negb (is_nil id));
  mret (mkSourceDescriptor id name authority domain).

Definition encode_capability (limits : Limits) (value : NominalCapability) : Enc :=
  enc_enum8 (nc_media value) ;> enc_enum8 (nc_connector value) ;> enc_u16 (nc_lanes value) ;>
  enc_u64 (nc_lane_rate_kbps value) ;> enc_u64 (nc_total_kbps value) ;>
  enc_u64 (nc_reach_mm value) ;> enc_boolean (nc_reach_declared value) ;>
  enc_string (nc_code value) (max_capability_code_bytes limits).

Definition decode_capability (limits : Limits) : Dec NominalCapability :=
  media ← dec_u8; connector ← dec_u8; lanes ← dec_u16; lane_rate ← dec_u64;
  total ← dec_u64; reach ← dec_u64; declared ← dec_boolean;
  code ← dec_string (max_capability_code_bytes limits);
  media ← dec_enum media; connector ← dec_enum connector;
  mret (mkNominalCapability media connector lanes lane_rate total reach declared code).

Definition encode_port_capability (value : PortCapability) : Enc :=
  enc_u32 (pc_max_attachments value) ;> enc_enum8 (pc_connector value) ;>
  enc_enum8 (pc_media value) ;> enc_u16 (pc_lanes value).

Definition decode_port_capability (limits : Limits) : Dec PortCapability :=
  max_attachments ← dec_u32; connector ← dec_u8; media ← dec_u8; lanes ← dec_u16;
  _ ← dec_guard (negb ((max_attachments =? 0) ||
                       (max_port_simultaneous_attachments limits <? max_attachments)));
  connector ← dec_enum connector; media ← dec_enum media;
  mret (mkPortCapability max_attachments connector media lanes).

Definition encode_object_descriptor (limits : Limits) (value : ObjectDescriptor) : Enc :=
  enc_id (od_id value) ;> enc_enum8 (od_kind value) ;>
  enc_string (od_label value) (max_string_bytes limits) ;>
  enc_string (od_serial value) (max_string_bytes limits) ;>
  enc_string (od_location value) (max_string_bytes limits) ;>
  enc_vector encode_side_descriptor (od_sides value) ;>
  encode_capability limits (od_capability value).

Definition decode_object_descriptor (limits : Limits) : Dec ObjectDescriptor :=
  id ← dec_id; kind ← dec_u8; label ← dec_string (max_string_bytes limits);
  serial ← dec_string (max_string_bytes limits);
  location ← dec_string (max_string_bytes limits);
  kind ← dec_enum kind; _ ← dec_guard (negb (is_nil id));
  sides ← decode_vector (max_sides_per_object limits) decode_side_descriptor;
  _ ← dec_guard (negb (zlen sides =? 0));
  capability ← decode_capability limits;
  mret (mkObjectDescriptor id kind label serial location sides capability).

Definition encode_endpoint_descriptor (limits : Limits) (value : EndpointDescriptor) : Enc :=
  enc_id (ed_id value) ;> enc_enum8 (ed_kind value) ;>
  enc_string (ed_name value) (max_string_bytes limits) ;>
  enc_string (ed_location value) (max_string_bytes limits) ;>
  enc_u32 (ed_port_count value) ;> encode_port_capability (ed_default_capability value).

Definition decode_endpoint_descriptor (limits : Limits) : Dec EndpointDescriptor :=
  id ← dec_id; kind ← dec_u8; name ← dec_string (max_string_bytes limits);
  location ← dec_string (max_string_bytes limits); port_count ← dec_u32;
  kind ← dec_enum kind;
  _ ← dec_guard (negb (is_nil id || (port_count =? 0) ||
                       (max_ports_per_endpoint limits <? port_count)));
  capability ← decode_port_capability limits;
  mret (mkEndpointDescriptor id kind name location port_count capability).

(** ** Evidence *)

Definition encode_payload (limits : Limits) (payload : EvidencePayload) : Enc :=
  match payload with
  | RegisterObject descriptor => encode_object_descriptor limits descriptor
  | RegisterEndpoint descriptor => encode_endpoint_descriptor limits descriptor
  | Attach p =>
      encode_object_side_ref (at_subject p) ;> encode_port_ref (at_port p) ;>
      enc_u64 (at_incarnation p) ;> enc_u32 (at_slot p)
  | Detach p =>
      encode_object_side_ref (de_subject p) ;> enc_u64 (de_incarnation p) ;>
      enc_boolean (de_has_from_port p) ;> encode_port_ref (de_from_port p) ;>
      enc_u32 (de_slot p)
  | Move p =>
      encode_object_side_ref (mv_subject p) ;> enc_u64 (mv_incarnation p) ;>
      encode_port_ref (mv_from p) ;> encode_port_ref (mv_to p) ;>
      enc_u32 (mv_from_slot p) ;> enc_u32 (mv_to_slot p)
  | PublishObjectCapability p =>
      enc_id (po_object p) ;> encode_capability limits (po_capability p)
  | PublishPortCapability p =>
      encode_port_ref (pp_port p) ;> encode_port_capability (pp_capability p)
  | SetLifecycle p =>
      enc_id (sl_object p) ;> enc_u64 (sl_incarnation p) ;> enc_enum8 (sl_action p) ;>
      enc_string (sl_reason p) (max_string_bytes limits)
  | ReincarnateObject p =>
      enc_id (re_object p) ;> enc_u64 (re_from_incarnation p) ;>
      enc_string (re_serial p) (max_string_bytes limits) ;>
      enc_string (re_reason p) (max_string_bytes limits)
  end.

Definition encode_evidence (limits : Limits) (value : Evidence) : Enc :=
  enc_id (hdr_id (ev_header value)) ;> enc_id (hdr_source (ev_header value)) ;>
  enc_u64 (hdr_incarnation (ev_header value)) ;> enc_u64 (hdr_generation (ev_header value)) ;>
  enc_i64 (hdr_observed_at (ev_header value)) ;> enc_enum8 (hdr_provenance (ev_header value)) ;>
  enc_string (hdr_detail (ev_header value)) (max_string_bytes limits) ;>
  enc_u32 (hdr_schema (ev_header value)) ;>
  enc_enum16 (kind_of value) ;> encode_payload limits (ev_payload value).

(** The nine cases of the switch of [decode_evidence]. *)
Definition decode_payload (limits : Limits) (kind : EvidenceKind.t) : Dec EvidencePayload :=
  match kind with
  | EvidenceKind.RegisterObject =>
      descriptor ← decode_object_descriptor limits; mret (RegisterObject descriptor)
  | EvidenceKind.RegisterEndpoint =>
      descriptor ← decode_endpoint_descriptor limits; mret (RegisterEndpoint descriptor)
  | EvidenceKind.Attach =>
      subject ← decode_object_side_ref; port ← decode_port_ref;
      incarnation ← dec_u64; slot ← dec_u32;
      _ ← dec_guard (negb (incarnation =? 0));
      mret (Attach (mkAttach subject port incarnation slot))
  | EvidenceKind.Detach =>
      subject ← decode_object_side_ref; incarnation ← dec_u64;
      has_from_port ← dec_boolean; from_port ← decode_port_ref; slot ← dec_u32;
      _ ← dec_guard (negb (incarnation =? 0));
      mret (Detach (mkDetach subject incarnation has_from_port from_port slot))
  | EvidenceKind.Move =>
      subject ← decode_object_side_ref; incarnation ← dec_u64;
      from ← decode_port_ref; to ← decode_port_ref; from_slot ← dec_u32; to_slot ← dec_u32;
      _ ← dec_guard (negb (incarnation =? 0));
      mret (Move (mkMove subject incarnation from to from_slot to_slot))
  | EvidenceKind.PublishObjectCapability =>
      object ← dec_id; capability ← decode_capability limits;
      mret (PublishObjectCapability (mkPublishObject object capability))
  | EvidenceKind.PublishPortCapability =>
      port ← decode_port_ref; capability ← decode_port_capability limits;
      mret (PublishPortCapability (mkPublishPort port capability))
  | EvidenceKind.SetLifecycle =>
      object ← dec_id; incarnation ← dec_u64; action ← dec_u8;
      reason ← dec_string (max_string_bytes limits);
      action ← dec_enum action; _ ← dec_guard (negb (incarnation =? 0));
      mret (SetLifecycle (mkSetLifecycle object incarnation action reason))
  | EvidenceKind.ReincarnateObject =>
      object ← dec_id; from_incarnation ← dec_u64;
      serial ← dec_string (max_string_bytes limits);
      reason ← dec_string (max_string_bytes limits);
      _ ← dec_guard (negb (from_incarnation =? 0));
      mret (ReincarnateObject (mkReincarnate object from_incarnation serial reason))
  end.

Definition decode_evidence (limits : Limits) : Dec Evidence :=
  id ← dec_id; source ← dec_id; incarnation ← dec_u64; generation ← dec_u64;
  observed_at ← dec_i64;
  provenance ← dec_u8; detail ← dec_string (max_string_bytes limits); schema ← dec_u32;
  provenance ← dec_enum provenance;
  _ ← dec_guard (negb (is_nil id || is_nil source));
  _ ← dec_guard (negb ((incarnation =? 0) || (generation =? 0)));
  _ ← dec_guard (schema =? kEvidenceSchemaVersion);
  kind_raw ← dec_u16;
  kind ← dec_enum kind_raw;
  payload ← decode_payload limits kind;
  mret (mkEvidence (mkHeader id source incarnation generation observed_at provenance detail schema)
          payload).

(** [encode_evidence] and [decode_evidence] on whole buffers. *)
Definition encode_evidence_bytes (value : Evidence) (limits : Limits) : list Z :=
  enc_take (encode_evidence limits value new_encoder).

Definition decode_evidence_bytes (data : list Z) (limits : Limits) : Outcome Evidence :=
  match decode_evidence limits (new_decoder data) with
  | None => inr (mkError ErrorCode.InvalidArgument "evidence record is malformed or truncated")
  | Some (evidence, decoder) =>
      if negb (dec_done decoder) then
        inr (mkError ErrorCode.InvalidArgument
               ("evidence record carries " +:+ to_dec (dec_remaining decoder) +:+ " trailing bytes"))
      else inl evidence
  end.

(** * Well-formed values *)

(** The string ceilings are 32 bit values. *)
Definition limits_ok (limits : Limits) : Prop :=
  is_u32 (max_string_bytes limits) /\ is_u32 (max_capability_code_bytes limits) /\
  is_u32 (max_sides_per_object limits) /\ is_u32 (max_claim_records_per_port limits) /\
  is_u32 (max_history_events limits) /\ is_u32 (max_ports_per_endpoint limits) /\
  is_u32 (max_snapshot_entries limits) /\ is_u32 (max_evidence_batch limits) /\
  is_u32 (max_refusal_audit limits) /\ is_u32 (max_objects limits).

Lemma limits_u32_ok limits : limits_u32 limits -> limits_ok limits.
Proof. unfold limits_u32, limits_ok. rewrite !Forall_cons. tauto. Qed.

Section wf.
Context (limits : Limits).

Definition wf_string (s : string) : Prop := slen s <= max_string_bytes limits.

Definition wf_authority (a : Authority) : Prop := is_u32 (auth_rank a).
Definition wf_side_ref (r : ObjectSideRef) : Prop := id_ok (side_object r) /\ is_u32 (side_index r).
Definition wf_port_ref (r : PortRef) : Prop := id_ok (port_endpoint r) /\ is_u32 (port_index r).
Definition wf_side_descriptor (d : ObjectSideDescriptor) : Prop := is_u16 (sd_lanes d).

Definition wf_source_descriptor (d : SourceDescriptor) : Prop :=
  id_ok (src_id d) /\ is_nil (src_id d) = false /\ wf_string (src_name d) /\
  wf_authority (src_authority d) /\ wf_string (src_domain d).

Definition wf_capability (c : NominalCapability) : Prop :=
  is_u16 (nc_lanes c) /\ is_u64 (nc_lane_rate_kbps c) /\ is_u64 (nc_total_kbps c) /\
  is_u64 (nc_reach_mm c) /\ slen (nc_code c) <= max_capability_code_bytes limits.

Definition wf_port_capability (c : PortCapability) : Prop :=
  is_u32 (pc_max_attachments c) /\ is_u16 (pc_lanes c) /\
  pc_max_attachments c <> 0 /\ pc_max_attachments c <= max_port_simultaneous_attachments limits.

Definition wf_object_descriptor (d : ObjectDescriptor) : Prop :=
  id_ok (od_id d) /\ is_nil (od_id d) = false /\ wf_string (od_label d) /\
  wf_string (od_serial d) /\ wf_string (od_location d) /\
  zlen (od_sides d) <= max_sides_per_object limits /\ zlen (od_sides d) <> 0 /\
  Forall wf_side_descriptor (od_sides d) /\ wf_capability (od_capability d).

Definition wf_endpoint_descriptor (d : EndpointDescriptor) : Prop :=
  id_ok (ed_id d) /\ is_nil (ed_id d) = false /\ wf_string (ed_name d) /\
  wf_string (ed_location d) /\ is_u32 (ed_port_count d) /\ ed_port_count d <> 0 /\
  ed_port_count d <= max_ports_per_endpoint limits /\
  wf_port_capability (ed_default_capability d).

Definition wf_payload (p : EvidencePayload) : Prop :=
  match p with
  | RegisterObject d => wf_object_descriptor d
  | RegisterEndpoint d => wf_endpoint_descriptor d
  | Attach p => wf_side_ref (at_subject p) /\ wf_port_ref (at_port p) /\
                is_u64 (at_incarnation p) /\ at_incarnation p <> 0 /\ is_u32 (at_slot p)
  | Detach p => wf_side_ref (de_subject p) /\ is_u64 (de_incarnation p) /\
                de_incarnation p <> 0 /\ wf_port_ref (de_from_port p) /\ is_u32 (de_slot p)
  | Move p => wf_side_ref (mv_subject p) /\ is_u64 (mv_incarnation p) /\ mv_incarnation p <> 0 /\
              wf_port_ref (mv_from p) /\ wf_port_ref (mv_to p) /\
              is_u32 (mv_from_slot p) /\ is_u32 (mv_to_slot p)
  | PublishObjectCapability p => id_ok (po_object p) /\ wf_capability (po_capability p)
  | PublishPortCapability p => wf_port_ref (pp_port p) /\ wf_port_capability (pp_capability p)
  | SetLifecycle p => id_ok (sl_object p) /\ is_u64 (sl_incarnation p) /\ sl_incarnation p <> 0 /\
                      wf_string (sl_reason p)
  | ReincarnateObject p => id_ok (re_object p) /\ is_u64 (re_from_incarnation p) /\
                           re_from_incarnation p <> 0 /\ wf_string (re_serial p) /\
                           wf_string (re_reason p)
  end.

Definition wf_header (h : EvidenceHeader) : Prop :=
  id_ok (hdr_id h) /\ is_nil (hdr_id h) = false /\ id_ok (hdr_source h) /\
  is_nil (hdr_source h) = false /\ is_u64 (hdr_incarnation h) /\ hdr_incarnation h <> 0 /\
  is_u64 (hdr_generation h) /\ hdr_generation h <> 0 /\ is_i64 (hdr_observed_at h) /\
  wf_string (hdr_detail h) /\ hdr_schema h = kEvidenceSchemaVersion.

Definition wf_evidence (e : Evidence) : Prop := wf_header (ev_header e) /\ wf_payload (ev_payload e).
End wf.

(** * Round trips *)

(** Proves the check of a decoder from the well-formedness facts in context. *)
Ltac rt_guard_facts :=
  repeat match goal with
  | H : is_nil _ = false |- _ => rewrite H
  end;
  repeat match goal with
  | H : ?x <> 0 |- context [?x =? 0] => rewrite (proj2 (Z.eqb_neq x 0) H)
  | H : ?x <= ?y |- context [?y <? ?x] => rewrite (proj2 (Z.ltb_ge y x) H)
  end;
  reflexivity.

Ltac rt_check ::=
  first [ done | apply enum_cast_code | assumption | solve [rt_guard_facts]
        | apply Z.eqb_eq; assumption ].

(** Opens the record [v] and the well-formedness facts about it, then runs the
    decoder against the encoder. *)
Ltac rt_record v :=
  let H := fresh "Hwf" in
  intros H; destruct v; cbn in H |- *; unfold wf_string in *; destruct_and?; rt_steps.

Section roundtrips.
Context (limits : Limits) (Hlim : limits_ok limits).

Lemma limits_string : is_u32 (max_string_bytes limits).
Proof using Hlim. apply Hlim. Qed.
Lemma limits_code : is_u32 (max_capability_code_bytes limits).
Proof using Hlim. apply Hlim. Qed.
Hint Resolve limits_string limits_code : rt.

Lemma rt_authority a : wf_authority a -> roundtrip (encode_authority a) decode_authority a.
Proof using. unfold encode_authority, decode_authority, wf_authority. rt_record a. Qed.

Lemma rt_side_ref r : wf_side_ref r -> roundtrip (encode_object_side_ref r) decode_object_side_ref r.
Proof using. unfold encode_object_side_ref, decode_object_side_ref, wf_side_ref. rt_record r. Qed.

Lemma rt_port_ref r : wf_port_ref r -> roundtrip (encode_port_ref r) decode_port_ref r.
Proof using. unfold encode_port_ref, decode_port_ref, wf_port_ref. rt_record r. Qed.

Lemma rt_side_descriptor d :
  wf_side_descriptor d -> roundtrip (encode_side_descriptor d) decode_side_descriptor d.
Proof using. unfold encode_side_descriptor, decode_side_descriptor, wf_side_descriptor. rt_record d. Qed.

Hint Resolve rt_authority rt_side_ref rt_port_ref : rt.

Lemma rt_source_descriptor d :
  wf_source_descriptor limits d ->
  roundtrip (encode_source_descriptor limits d) (decode_source_descriptor limits) d.
Proof using Hlim. unfold encode_source_descriptor, decode_source_descriptor, wf_source_descriptor. rt_record d. Qed.

Lemma rt_capability c :
  wf_capability limits c -> roundtrip (encode_capability limits c) (decode_capability limits) c.
Proof using Hlim. unfold encode_capability, decode_capability, wf_capability. rt_record c. Qed.

Lemma rt_port_capability c :
  wf_port_capability limits c -> roundtrip (encode_port_capability c) (decode_port_capability limits) c.
Proof using Hlim. unfold encode_port_capability, decode_port_capability, wf_port_capability. rt_record c. Qed.

Lemma rt_sides l :
  zlen l <= max_sides_per_object limits -> Forall wf_side_descriptor l ->
  roundtrip (enc_vector encode_side_descriptor l)
    (decode_vector (max_sides_per_object limits) decode_side_descriptor) l.
Proof using Hlim.
  intros Hl Hall. apply rt_vector; [done|apply Hlim|].
  eapply Forall_impl; [exact Hall|]. apply rt_side_descriptor.
Qed.

Hint Resolve rt_capability rt_port_capability rt_sides : rt.

Lemma rt_object_descriptor d :
  wf_object_descriptor limits d ->
  roundtrip (encode_object_descriptor limits d) (decode_object_descriptor limits) d.
Proof using Hlim. unfold encode_object_descriptor, decode_object_descriptor, wf_object_descriptor. rt_record d. Qed.

Lemma rt_endpoint_descriptor d :
  wf_endpoint_descriptor limits d ->
  roundtrip (encode_endpoint_descriptor limits d) (decode_endpoint_descriptor limits) d.
Proof using Hlim. unfold encode_endpoint_descriptor, decode_endpoint_descriptor, wf_endpoint_descriptor. rt_record d. Qed.

Hint Resolve rt_object_descriptor rt_endpoint_descriptor : rt.

Lemma rt_payload p :
  wf_payload limits p ->
  roundtrip (encode_payload limits p) (decode_payload limits (kind_of_payload p)) p.
Proof using Hlim. destruct p as [d|d|p|p|p|p|p|p|p]; cbn [wf_payload encode_payload decode_payload kind_of_payload];
  [intros Hwf; rt_steps..| | | | | | |]; rt_record p.
Qed.

Hint Resolve rt_payload : rt.

Lemma rt_evidence e :
  wf_evidence limits e -> roundtrip (encode_evidence limits e) (decode_evidence limits) e.
Proof using Hlim.
  destruct e as [h p]. intros [Hh Hp]. cbn in Hp, Hh.
  assert (is_u32 (hdr_schema h)) as Hschema.
  { unfold wf_header in Hh. destruct_and!. congruence || by replace (hdr_schema h) with 1. }
  revert Hh. unfold encode_evidence, decode_evidence, kind_of, wf_header. cbn. rt_record h.
Qed.
End roundtrips.
