(* ===== verification/State.v ===== *)
(** * Registry state ([src/detail/registry_state.hpp], [registry_state.cpp])

    The tables of folded records, and the derivations that only read one
    table: session fencing, object incarnation, existence of objects,
    endpoints and ports, and the reset of process-local facts. *)
From S2P Require Import Prelude OrdMap Types Graph.
#[local] Open Scope Z_scope.

(** ** Records *)

Record Attestation := mkAttestation {
  att_owner : SourceIncarnationKey;
  att_generation : Z;
  att_evidence : EvidenceId;
  att_observed_at : Z;
  att_received_at : Z;
  att_provenance : ProvenanceClass.t;
  att_authority : Authority;
  att_object_incarnation : Z;
  att_asserted_in_lifetime : bool;
}.

(** A claim key's winning record and the bounded ring of the records it
    superseded. *)
Record Folded (T : Type) := mkFolded {
  fd_meta : Attestation;
  fd_value : T;
  fd_superseded : list Attestation;
  fd_history_dropped : Z;
}.
Arguments mkFolded {T} _ _ _ _.
Arguments fd_meta {T} _.
Arguments fd_value {T} _.
Arguments fd_superseded {T} _.
Arguments fd_history_dropped {T} _.

Record SourceRecord := mkSourceRecord {
  sr_descriptor : SourceDescriptor;
  sr_descriptor_incarnation : Z;
  sr_current_incarnation : Z;
  sr_described : bool;
}.

Record SessionRecord := mkSessionRecord {
  ss_opened_at : Z;
  ss_high_water : Z;
  ss_live : bool;
  ss_closed : bool;
  ss_accepted : Z;
  ss_refused : Z;
  ss_duplicates : Z;
  ss_missing_generations : Z;
}.

Definition default_source_record : SourceRecord :=
  mkSourceRecord (mkSourceDescriptor nil_id "" default_authority "") 0 0 false.
Definition default_session_record : SessionRecord := mkSessionRecord 0 0 false false 0 0 0 0.

Record SubjectValue := mkSubjectValue {
  su_incarnation : Z;
  su_attached : bool;
  su_port : PortRef;
  su_slot : Z;
  su_via_move : bool;
  su_move_from : PortRef;
}.

Record PortValue := mkPortValue {
  pt_incarnation : Z;
  pt_empty : bool;
  pt_subject : ObjectSideRef;
}.

Record LifecycleValue := mkLifecycleValue {
  lv_incarnation : Z;
  lv_action : LifecycleAction.t;
  lv_reason : string;
}.

Record ReincarnationValue := mkReincarnationValue {
  ri_from : Z;
  ri_target : Z;
  ri_serial : string;
  ri_reason : string;
}.

#[export] Instance SubjectValue_eq_dec : EqDecision SubjectValue.
Proof. solve_decision. Defined.
#[export] Instance PortValue_eq_dec : EqDecision PortValue.
Proof. solve_decision. Defined.

(** The key of one attachment slot record inside its port. *)
Record PortSlotKey := mkPortSlotKey {
  ps_owner : SourceIncarnationKey;
  ps_port : PortRef;
  ps_slot : Z;
}.

#[export] Instance PortSlotKey_ord : Ord PortSlotKey.
Proof.
  apply (Ord_inj (fun k => (ps_owner k, (ps_port k, ps_slot k)))).
  by intros [] [] [= -> -> ->].
Defined.

(** [std::map<Key, std::map<Owner, Folded<T>>>]. *)
Abbreviation groups K O T := (ordmap K (ordmap O (Folded T))).

(** [ObjectRegistrationValue], [EndpointRegistrationValue] and the two
    capability values wrap one member each; the tables hold the member. *)
Record RegistryState := mkState {
  rs_id : RegistryId;
  rs_opened_at : Z;
  rs_sources : ordmap SourceId SourceRecord;
  rs_sessions : ordmap SourceIncarnationKey SessionRecord;
  rs_object_registrations : groups ObjectId SourceIncarnationKey ObjectDescriptor;
  rs_endpoint_registrations : groups EndpointId SourceIncarnationKey EndpointDescriptor;
  rs_subject_records : groups ObjectSideRef SourceIncarnationKey SubjectValue;
  rs_port_records : groups PortRef PortSlotKey PortValue;
  rs_lifecycle_records : groups ObjectId SourceIncarnationKey LifecycleValue;
  rs_reincarnation_records : groups ObjectId SourceIncarnationKey ReincarnationValue;
  rs_object_capability_records : groups ObjectId SourceIncarnationKey NominalCapability;
  rs_port_capability_records : groups PortRef SourceIncarnationKey PortCapability;
}.

Definition empty_state (id : RegistryId) (opened_at : Z) : RegistryState :=
  mkState id opened_at [] [] [] [] [] [] [] [] [] [].

(** ** Reading the state *)

(** A session is fenced once a strictly higher incarnation of its source
    exists. *)
Definition session_is_fenced (state : RegistryState) (key : SourceIncarnationKey) : bool :=
  match map_find (key_source key) (rs_sources state) with
  | None => false
  | Some source => key_incarnation key <? sr_current_incarnation source
  end.

(** The highest target of a reincarnation record whose session is not fenced,
    and one when there is none. *)
Definition object_incarnation_of (state : RegistryState) (object : ObjectId) : Z :=
  match map_find object (rs_reincarnation_records state) with
  | None => 1
  | Some found =>
      foldl (fun current entry =>
               if session_is_fenced state entry.1 then current
               else if current <? ri_target (fd_value entry.2) then ri_target (fd_value entry.2)
               else current) 1 found
  end.

Definition object_exists (state : RegistryState) (object : ObjectId) : bool :=
  match map_find object (rs_object_registrations state) with
  | None => false
  | Some found => negb (zlen found =? 0)
  end.

Definition endpoint_exists (state : RegistryState) (endpoint : EndpointId) : bool :=
  match map_find endpoint (rs_endpoint_registrations state) with
  | None => false
  | Some found => negb (zlen found =? 0)
  end.

Definition endpoint_port_count (state : RegistryState) (endpoint : EndpointId) : Z :=
  match map_find endpoint (rs_endpoint_registrations state) with
  | None => 0
  | Some found =>
      foldl (fun count entry =>
               if count <? ed_port_count (fd_value entry.2) then ed_port_count (fd_value entry.2)
               else count) 0 found
  end.

Definition port_exists (state : RegistryState) (port : PortRef) : bool :=
  port_index port <? endpoint_port_count state (port_endpoint port).

(** ** Process-local facts *)

Definition clear_attestation (a : Attestation) : Attestation :=
  mkAttestation (att_owner a) (att_generation a) (att_evidence a) (att_observed_at a)
    (att_received_at a) (att_provenance a) (att_authority a) (att_object_incarnation a) false.

Definition clear_folded {T} (f : Folded T) : Folded T :=
  mkFolded (clear_attestation (fd_meta f)) (fd_value f) (clear_attestation <$> fd_superseded f)
    (fd_history_dropped f).

Definition clear_group {K O T} (g : groups K O T) : groups K O T := map_vals (map_vals clear_folded) g.

Definition clear_session (s : SessionRecord) : SessionRecord :=
  mkSessionRecord (ss_opened_at s) (ss_high_water s) false (ss_closed s) (ss_accepted s)
    (ss_refused s) (ss_duplicates s) (ss_missing_generations s).

Definition clear_volatile (state : RegistryState) : RegistryState :=
  mkState (rs_id state) (rs_opened_at state) (rs_sources state)
    (map_vals clear_session (rs_sessions state))
    (clear_group (rs_object_registrations state))
    (clear_group (rs_endpoint_registrations state))
    (clear_group (rs_subject_records state))
    (clear_group (rs_port_records state))
    (clear_group (rs_lifecycle_records state))
    (clear_group (rs_reincarnation_records state))
    (clear_group (rs_object_capability_records state))
    (clear_group (rs_port_capability_records state)).

(** * Facts *)

(** ** Maxima over the entries of a table *)

Section running_max.
Context {A : Type} (f : A -> option Z).

(** The fold [if (value > current) current = value] over the entries that
    have a value. *)
Definition running_max (start : Z) (l : list A) : Z :=
  foldl (fun current x => match f x with
                          | Some v => if current <? v then v else current
                          | None => current end) start l.

Lemma running_max_ge start l : start <= running_max start l.
Proof.
  revert start. induction l as [|x l IH]; intros start; cbn; [lia|].
  etrans; [|apply IH]. destruct (f x) as [v|]; [|lia]. destruct (Z.ltb_spec start v); lia.
Qed.

Lemma running_max_bound start l x v : x ∈ l -> f x = Some v -> v <= running_max start l.
Proof.
  revert start. induction l as [|y l IH]; intros start; [by inversion 1|].
  rewrite elem_of_cons. intros [->|Hin] Hv; cbn.
  - rewrite Hv. etrans; [|apply running_max_ge]. destruct (Z.ltb_spec start v); lia.
  - by apply IH.
Qed.

Lemma running_max_attained start l :
  running_max start l = start \/ exists x, x ∈ l /\ f x = Some (running_max start l).
Proof.
  revert start. induction l as [|y l IH]; intros start; [by left|]. cbn.
  destruct (f y) as [v|] eqn:E.
  - destruct (Z.ltb_spec start v).
    + destruct (IH v) as [Hv|(x & Hin & Hx)].
      * right. exists y. split; [by left|]. unfold running_max in Hv. cbn. by rewrite Hv.
      * right. exists x. split; [by right|done].
    + destruct (IH start) as [Hv|(x & Hin & Hx)]; [by left|].
      right. exists x. split; [by right|done].
  - destruct (IH start) as [Hv|(x & Hin & Hx)]; [by left|].
    right. exists x. split; [by right|done].
Qed.
End running_max.

(** The live targets of an object's reincarnation records. *)
Definition live_target (state : RegistryState)
    (entry : SourceIncarnationKey * Folded ReincarnationValue) : option Z :=
  if session_is_fenced state entry.1 then None else Some (ri_target (fd_value entry.2)).

Lemma object_incarnation_of_max state object :
  object_incarnation_of state object =
  running_max (live_target state) 1 (default [] (map_find object (rs_reincarnation_records state))).
Proof.
  unfold object_incarnation_of, running_max. destruct (map_find _ _) as [found|]; cbn; [|done].
  generalize 1. induction found as [|e l IH]; intros z; cbn; [done|].
  rewrite <- IH. f_equal. unfold live_target. by destruct (session_is_fenced _ _).
Qed.

Lemma clear_attestation_idem a : clear_attestation (clear_attestation a) = clear_attestation a.
Proof. done. Qed.

Lemma clear_folded_idem {T} (f : Folded T) : clear_folded (clear_folded f) = clear_folded f.
Proof. unfold clear_folded. cbn. f_equal. by rewrite <- list_fmap_compose. Qed.

Lemma clear_group_idem {K O T} (g : groups K O T) : clear_group (clear_group g) = clear_group g.
Proof.
  unfold clear_group. rewrite map_vals_compose. apply list_fmap_ext.
  intros i [k m] _. cbn [fst snd]. f_equal. rewrite map_vals_compose. apply list_fmap_ext.
  intros j [o f] _. cbn [fst snd]. f_equal. apply clear_folded_idem.
Qed.

Lemma clear_volatile_idem state : clear_volatile (clear_volatile state) = clear_volatile state.
Proof.
  unfold clear_volatile. cbn -[clear_group map_vals]. rewrite !clear_group_idem. f_equal.
  by rewrite map_vals_compose.
Qed.
