(* ===== verification/StateCodec.v ===== *)
(** * The state image ([src/registry_state.cpp])

    [encode_state] and [decode_state], the compacted form of the registry that
    [Compact] writes and [Open] loads, and the exact conditions under which the
    image reads back. *)
From S2P Require Import Prelude OrdMap Types Graph Codec Serialization State.
#[local] Open Scope Z_scope.

(** ** Owners, attestations and folded records *)

Definition encode_owner (owner : SourceIncarnationKey) : Enc :=
  enc_id (key_source owner) ;> enc_u64 (key_incarnation owner).

Definition decode_owner : Dec SourceIncarnationKey :=
  source ← dec_id; incarnation ← dec_u64;
  _ ← dec_guard (negb (is_nil source || (incarnation =? 0)));
  mret (mkKey source incarnation).

Definition encode_attestation (value : Attestation) : Enc :=
  encode_owner (att_owner value) ;> enc_u64 (att_generation value) ;> enc_id (att_evidence value) ;>
  enc_i64 (att_observed_at value) ;> enc_i64 (att_received_at value) ;> enc_enum8 (att_provenance value) ;>
  enc_enum8 (auth_class (att_authority value)) ;> enc_u32 (auth_rank (att_authority value)) ;>
  enc_u64 (att_object_incarnation value) ;> enc_boolean (att_asserted_in_lifetime value).

Definition decode_attestation : Dec Attestation :=
  owner ← decode_owner; generation ← dec_u64; evidence ← dec_id; observed_at ← dec_i64;
  received_at ← dec_i64; provenance ← dec_u8; authority_class ← dec_u8; rank ← dec_u32;
  object_incarnation ← dec_u64; asserted ← dec_boolean;
  provenance ← dec_enum provenance; authority_class ← dec_enum authority_class;
  mret (mkAttestation owner generation evidence observed_at received_at provenance
          (mkAuthority authority_class rank) object_incarnation asserted).

Definition encode_folded {T} (encode_value : T -> Enc) (folded : Folded T) : Enc :=
  encode_attestation (fd_meta folded) ;> encode_value (fd_value folded) ;>
  enc_vector encode_attestation (fd_superseded folded) ;> enc_u32 (fd_history_dropped folded).

Definition decode_folded {T} (max_history : Z) (decode_value : Dec T) : Dec (Folded T) :=
  meta ← decode_attestation; value ← decode_value;
  superseded ← decode_vector max_history decode_attestation; history_dropped ← dec_u32;
  mret (mkFolded meta value superseded history_dropped).

(** ** Values *)

Definition encode_subject_value (value : SubjectValue) : Enc :=
  enc_u64 (su_incarnation value) ;> enc_boolean (su_attached value) ;> encode_port_ref (su_port value) ;>
  enc_u32 (su_slot value) ;> enc_boolean (su_via_move value) ;> encode_port_ref (su_move_from value).

Definition decode_subject_value : Dec SubjectValue :=
  incarnation ← dec_u64; attached ← dec_boolean; port ← decode_port_ref; slot ← dec_u32;
  via_move ← dec_boolean; move_from ← decode_port_ref;
  _ ← dec_guard (negb (incarnation =? 0));
  mret (mkSubjectValue incarnation attached port slot via_move move_from).

Definition encode_port_value (value : PortValue) : Enc :=
  enc_u64 (pt_incarnation value) ;> enc_boolean (pt_empty value) ;> encode_object_side_ref (pt_subject value).

Definition decode_port_value : Dec PortValue :=
  incarnation ← dec_u64; empty ← dec_boolean; subject ← decode_object_side_ref;
  mret (mkPortValue incarnation empty subject).

Section values.
Context (limits : Limits).

Definition encode_lifecycle_value (value : LifecycleValue) : Enc :=
  enc_u64 (lv_incarnation value) ;> enc_enum8 (lv_action value) ;>
  enc_string (lv_reason value) (max_string_bytes limits).

Definition decode_lifecycle_value : Dec LifecycleValue :=
  incarnation ← dec_u64; action ← dec_u8; reason ← dec_string (max_string_bytes limits);
  action ← dec_enum action; mret (mkLifecycleValue incarnation action reason).

Definition encode_reincarnation_value (value : ReincarnationValue) : Enc :=
  enc_u64 (ri_from value) ;> enc_u64 (ri_target value) ;>
  enc_string (ri_serial value) (max_string_bytes limits) ;>
  enc_string (ri_reason value) (max_string_bytes limits).

Definition decode_reincarnation_value : Dec ReincarnationValue :=
  from ← dec_u64; target ← dec_u64; serial ← dec_string (max_string_bytes limits);
  reason ← dec_string (max_string_bytes limits);
  _ ← dec_guard (negb ((from =? 0) || negb (target =? wrap64 (from + 1))));
  mret (mkReincarnationValue from target serial reason).

Definition encode_source_record (value : SourceRecord) : Enc :=
  encode_source_descriptor limits (sr_descriptor value) ;> enc_u64 (sr_descriptor_incarnation value) ;>
  enc_u64 (sr_current_incarnation value) ;> enc_boolean (sr_described value).

Definition decode_source_record : Dec SourceRecord :=
  descriptor ← decode_source_descriptor limits; descriptor_incarnation ← dec_u64;
  current_incarnation ← dec_u64; described ← dec_boolean;
  mret (mkSourceRecord descriptor descriptor_incarnation current_incarnation described).
End values.

Definition encode_session_record (value : SessionRecord) : Enc :=
  enc_i64 (ss_opened_at value) ;> enc_u64 (ss_high_water value) ;> enc_boolean (ss_live value) ;>
  enc_boolean (ss_closed value) ;> enc_u64 (ss_accepted value) ;> enc_u64 (ss_refused value) ;>
  enc_u64 (ss_duplicates value) ;> enc_u64 (ss_missing_generations value).

Definition decode_session_record : Dec SessionRecord :=
  opened_at ← dec_i64; high_water ← dec_u64; live ← dec_boolean; closed ← dec_boolean;
  accepted ← dec_u64; refused ← dec_u64; duplicates ← dec_u64; missing ← dec_u64;
  mret (mkSessionRecord opened_at high_water live closed accepted refused duplicates missing).

(** ** Tables *)

(** A map is a count and its entries in key order; reading it back emplaces
    them one by one. *)
Definition encode_entries {K V} (encode_key : K -> Enc) (encode_value : V -> Enc) (m : ordmap K V) : Enc :=
  enc_vector (fun entry => encode_key entry.1 ;> encode_value entry.2) m.

Definition emplace_all {K V} `{Ord K} (entries : list (K * V)) (m : ordmap K V) : ordmap K V :=
  foldl (fun m entry => map_emplace entry.1 entry.2 m) m entries.

Definition decode_entries {K V} `{Ord K} (max_count : Z) (key : Dec K) (value : Dec V) : Dec (ordmap K V) :=
  entries ← decode_vector max_count (k ← key; v ← value; mret (k, v));
  mret (emplace_all entries []).

Definition encode_group {K O T} (encode_primary : K -> Enc) (encode_key : O -> Enc) (encode_value : T -> Enc)
    (g : groups K O T) : Enc :=
  enc_vector (fun entry => encode_primary entry.1 ;>
                enc_vector (fun folded => encode_key folded.1 ;> encode_folded encode_value folded.2) entry.2) g.

(** [auto& owners = staged\[key\]], then [owners.emplace] for each. *)
Definition emplace_group {K O T} `{Ord K, Ord O} (g : groups K O T) (entry : K * list (O * Folded T))
    : groups K O T :=
  map_set entry.1 (emplace_all entry.2 (default [] (map_find entry.1 g))) g.

(** [key] reads one owner key of the group under its primary key. *)
Definition decode_group {K O T} `{Ord K, Ord O} (limits : Limits) (max_primary max_owners : Z)
    (primary : Dec K) (key : K -> Dec O) (value : Dec T) : Dec (groups K O T) :=
  entries ← decode_vector max_primary
    (k ← primary;
     owners ← decode_vector max_owners
       (o ← key k; f ← decode_folded (max_history_per_key limits) value; mret (o, f));
     mret (k, owners));
  mret (foldl emplace_group [] entries).

(** The key of a port record inside its port: owner and slot. *)
Definition encode_slot_key (key : PortSlotKey) : Enc := encode_owner (ps_owner key) ;> enc_u32 (ps_slot key).
Definition decode_slot_key (port : PortRef) : Dec PortSlotKey :=
  owner ← decode_owner; slot ← dec_u32; mret (mkPortSlotKey owner port slot).

(** ** The state *)

Definition encode_state (limits : Limits) (state : RegistryState) : Enc :=
  enc_u32 kStoreFormatVersion ;> enc_id (rs_id state) ;> enc_i64 (rs_opened_at state) ;>
  encode_entries enc_id (encode_source_record limits) (rs_sources state) ;>
  encode_entries encode_owner encode_session_record (rs_sessions state) ;>
  encode_group enc_id encode_owner (encode_object_descriptor limits) (rs_object_registrations state) ;>
  encode_group enc_id encode_owner (encode_endpoint_descriptor limits) (rs_endpoint_registrations state) ;>
  encode_group encode_object_side_ref encode_owner encode_subject_value (rs_subject_records state) ;>
  encode_group encode_port_ref encode_slot_key encode_port_value (rs_port_records state) ;>
  encode_group enc_id encode_owner (encode_lifecycle_value limits) (rs_lifecycle_records state) ;>
  encode_group enc_id encode_owner (encode_reincarnation_value limits) (rs_reincarnation_records state) ;>
  encode_group enc_id encode_owner (encode_capability limits) (rs_object_capability_records state) ;>
  encode_group encode_port_ref encode_owner encode_port_capability (rs_port_capability_records state).

Definition decode_state (limits : Limits) : Dec RegistryState :=
  let owner {K} (_ : K) := decode_owner in
  let ports := wrap32 (max_endpoints limits * max_ports_per_endpoint limits) in
  format ← dec_u32; _ ← dec_guard (format =? kStoreFormatVersion);
  id ← dec_id; opened_at ← dec_i64;
  sources ← decode_entries (max_sources limits) dec_id (decode_source_record limits);
  sessions ← decode_entries (wrap32 (max_sources limits * 64)) decode_owner decode_session_record;
  objects ← decode_group limits (max_objects limits) (max_sources limits) dec_id owner
    (decode_object_descriptor limits);
  endpoints ← decode_group limits (max_endpoints limits) (max_sources limits) dec_id owner
    (decode_endpoint_descriptor limits);
  subjects ← decode_group limits (wrap32 (max_objects limits * max_sides_per_object limits))
    (max_sources limits) decode_object_side_ref owner decode_subject_value;
  port_records ← decode_group limits ports
    (wrap32 (max_sources limits * max_port_simultaneous_attachments limits))
    decode_port_ref decode_slot_key decode_port_value;
  lifecycle ← decode_group limits (max_objects limits) (max_sources limits) dec_id owner
    (decode_lifecycle_value limits);
  reincarnation ← decode_group limits (max_objects limits) (max_sources limits) dec_id owner
    (decode_reincarnation_value limits);
  object_capability ← decode_group limits (max_objects limits) (max_sources limits) dec_id owner
    (decode_capability limits);
  port_capability ← decode_group limits ports (max_sources limits) decode_port_ref owner
    (decode_port_capability limits);
  mret (mkState id opened_at sources sessions objects endpoints subjects port_records lifecycle
          reincarnation object_capability port_capability).

(** * Facts *)

(** ** Rebuilding maps *)

Lemma emplace_all_app {K V} `{Ord K} (l m : ordmap K V) :
  map_sorted (m ++ l) -> emplace_all l m = m ++ l.
Proof.
  revert m. induction l as [|[k v] l IH]; intros m Hs; cbn; [by rewrite app_nil_r|].
  assert (Hs' : map_sorted ((m ++ [(k, v)]) ++ l)) by by rewrite <- app_assoc.
  rewrite map_emplace_snoc by (by apply StronglySorted_app_1_l in Hs').
  unfold emplace_all in IH. rewrite IH by done. by rewrite <- app_assoc.
Qed.

Lemma emplace_all_sorted {K V} `{Ord K} (l : ordmap K V) : map_sorted l -> emplace_all l [] = l.
Proof. apply (emplace_all_app l []). Qed.

Lemma find_none_snoc {K V} `{Ord K} (m : ordmap K V) k v :
  map_sorted (m ++ [(k, v)]) -> map_find k m = None.
Proof.
  intros Hs. apply find_none_elem. intros v' Hin.
  pose proof (proj1 (StronglySorted_app _ _ _) Hs) as (Hlt & _ & _).
  specialize (Hlt (k, v') (k, v) Hin ltac:(by apply list_elem_of_singleton)).
  unfold key_lt in Hlt. cbn in Hlt. by rewrite kltb_irrefl in Hlt.
Qed.

Lemma emplace_groups_app {K O T} `{Ord K, Ord O} (l m : groups K O T) :
  map_sorted (m ++ l) -> Forall (fun e => map_sorted e.2) l -> foldl emplace_group m l = m ++ l.
Proof.
  revert m. induction l as [|[k os] l IH]; intros m Hs Hin; cbn; [by rewrite app_nil_r|].
  apply Forall_cons in Hin as [Hos Hin].
  assert (Hs' : map_sorted ((m ++ [(k, os)]) ++ l)) by by rewrite <- app_assoc.
  pose proof (StronglySorted_app_1_l _ _ _ Hs') as Hs''.
  assert (emplace_group m (k, os) = m ++ [(k, os)]) as ->.
  { unfold emplace_group. cbn [fst snd]. rewrite (find_none_snoc _ _ _ Hs''). cbn [default from_option].
    rewrite emplace_all_sorted by done. by apply map_set_snoc. }
  rewrite IH by done. by rewrite <- app_assoc.
Qed.

(** A count and its entries read back as the map, when the map is one and the
    reader's ceiling covers it. *)
Lemma rt_entries {K V} `{Ord K} (ek : K -> Enc) (ev : V -> Enc) dk dv (m : ordmap K V) bound :
  map_sorted m -> zlen m <= bound -> is_u32 bound ->
  Forall (fun e => roundtrip (ek e.1) dk e.1 /\ roundtrip (ev e.2) dv e.2) m ->
  roundtrip (encode_entries ek ev m) (decode_entries bound dk dv) m.
Proof.
  intros Hs Hb Hu Hall. unfold encode_entries, decode_entries.
  rewrite <- (emplace_all_sorted m Hs) at 2. apply (rt_map _ _ (fun l => emplace_all l [])).
  apply rt_vector; [done|done|]. eapply Forall_impl; [exact Hall|]. intros [k v] [Hk Hv].
  cbn in *. eapply rt_seq; [exact Hk|]. by apply (rt_map _ _ (pair k)).
Qed.

Lemma rt_group {K O T} `{Ord K, Ord O} limits (ep : K -> Enc) (ek : O -> Enc) (ev : T -> Enc)
    dp (dk : K -> Dec O) dv (g : groups K O T) max_primary max_owners :
  group_sorted g -> zlen g <= max_primary -> is_u32 max_primary -> is_u32 max_owners ->
  Forall (fun e => roundtrip (ep e.1) dp e.1 /\ zlen e.2 <= max_owners /\
            Forall (fun f => roundtrip (ek f.1) (dk e.1) f.1 /\
              roundtrip (encode_folded ev f.2) (decode_folded (max_history_per_key limits) dv) f.2) e.2) g ->
  roundtrip (encode_group ep ek ev g) (decode_group limits max_primary max_owners dp dk dv) g.
Proof.
  intros [Hs Hin] Hp Hup Huo Hall. unfold encode_group, decode_group.
  rewrite <- (emplace_groups_app g [] Hs Hin : foldl emplace_group [] g = g) at 2.
  apply (rt_map _ _ (foldl emplace_group [])).
  apply rt_vector; [done|done|]. eapply Forall_impl; [exact Hall|].
  intros [k os] (Hk & Ho & Hos). cbn in *. eapply rt_seq; [exact Hk|].
  apply (rt_map _ _ (pair k)). apply rt_vector; [done|done|].
  eapply Forall_impl; [exact Hos|]. intros [o f] [Hof Hf]. cbn in *.
  eapply rt_seq; [exact Hof|]. by apply (rt_map _ _ (pair o)).
Qed.

(** ** Well-formed records *)

Definition wf_owner (k : SourceIncarnationKey) : Prop :=
  id_ok (key_source k) /\ is_nil (key_source k) = false /\ is_u64 (key_incarnation k) /\ key_incarnation k <> 0.

Definition wf_attestation (a : Attestation) : Prop :=
  wf_owner (att_owner a) /\ is_u64 (att_generation a) /\ id_ok (att_evidence a) /\
  is_i64 (att_observed_at a) /\ is_i64 (att_received_at a) /\ wf_authority (att_authority a) /\
  is_u64 (att_object_incarnation a).

Definition wf_subject_value (v : SubjectValue) : Prop :=
  is_u64 (su_incarnation v) /\ su_incarnation v <> 0 /\ wf_port_ref (su_port v) /\ is_u32 (su_slot v) /\
  wf_port_ref (su_move_from v).

Definition wf_port_value (v : PortValue) : Prop := is_u64 (pt_incarnation v) /\ wf_side_ref (pt_subject v).

Definition wf_session_record (s : SessionRecord) : Prop :=
  is_i64 (ss_opened_at s) /\ is_u64 (ss_high_water s) /\ is_u64 (ss_accepted s) /\
  is_u64 (ss_refused s) /\ is_u64 (ss_duplicates s) /\ is_u64 (ss_missing_generations s).

Section wf_image.
Context (limits : Limits).

Definition wf_folded {T} (wf_value : T -> Prop) (f : Folded T) : Prop :=
  wf_attestation (fd_meta f) /\ wf_value (fd_value f) /\
  zlen (fd_superseded f) <= max_history_per_key limits /\ Forall wf_attestation (fd_superseded f) /\
  is_u32 (fd_history_dropped f).

Definition wf_lifecycle_value (v : LifecycleValue) : Prop :=
  is_u64 (lv_incarnation v) /\ wf_string limits (lv_reason v).

Definition wf_reincarnation_value (v : ReincarnationValue) : Prop :=
  is_u64 (ri_from v) /\ ri_from v <> 0 /\ is_u64 (ri_target v) /\ ri_target v = wrap64 (ri_from v + 1) /\
  wf_string limits (ri_serial v) /\ wf_string limits (ri_reason v).

Definition wf_source_record (r : SourceRecord) : Prop :=
  wf_source_descriptor limits (sr_descriptor r) /\ is_u64 (sr_descriptor_incarnation r) /\
  is_u64 (sr_current_incarnation r).

(** A group whose records are well formed, whatever its size. *)
Definition wf_group {K O T} `{Ord K, Ord O} (wf_primary : K -> Prop) (wf_key : K -> O -> Prop)
    (wf_value : T -> Prop) (g : groups K O T) : Prop :=
  group_sorted g /\
  Forall (fun e => wf_primary e.1 /\ Forall (fun f => wf_key e.1 f.1 /\ wf_folded wf_value f.2) e.2) g.

(** The ceilings the reader of the image applies to a group. *)
Definition group_fits {K O T} (max_primary max_owners : Z) (g : groups K O T) : Prop :=
  zlen g <= max_primary /\ Forall (fun e => zlen e.2 <= max_owners) g.

Definition owner_key {K} (_ : K) : SourceIncarnationKey -> Prop := wf_owner.
Definition slot_key (port : PortRef) (key : PortSlotKey) : Prop :=
  ps_port key = port /\ wf_owner (ps_owner key) /\ is_u32 (ps_slot key).

(** Every record of the state is well formed. *)
Definition wf_state (s : RegistryState) : Prop :=
  id_ok (rs_id s) /\ is_i64 (rs_opened_at s) /\
  (map_sorted (rs_sources s) /\ Forall (fun e => id_ok e.1 /\ wf_source_record e.2) (rs_sources s)) /\
  (map_sorted (rs_sessions s) /\ Forall (fun e => wf_owner e.1 /\ wf_session_record e.2) (rs_sessions s)) /\
  wf_group id_ok owner_key (wf_object_descriptor limits) (rs_object_registrations s) /\
  wf_group id_ok owner_key (wf_endpoint_descriptor limits) (rs_endpoint_registrations s) /\
  wf_group wf_side_ref owner_key wf_subject_value (rs_subject_records s) /\
  wf_group wf_port_ref slot_key wf_port_value (rs_port_records s) /\
  wf_group id_ok owner_key wf_lifecycle_value (rs_lifecycle_records s) /\
  wf_group id_ok owner_key wf_reincarnation_value (rs_reincarnation_records s) /\
  wf_group id_ok owner_key (wf_capability limits) (rs_object_capability_records s) /\
  wf_group wf_port_ref owner_key (wf_port_capability limits) (rs_port_capability_records s).

(** The state fits the ceilings of [decode_state]. *)
Definition image_fits (s : RegistryState) : Prop :=
  let ports := wrap32 (max_endpoints limits * max_ports_per_endpoint limits) in
  let sources := max_sources limits in
  zlen (rs_sources s) <= sources /\ zlen (rs_sessions s) <= wrap32 (sources * 64) /\
  group_fits (max_objects limits) sources (rs_object_registrations s) /\
  group_fits (max_endpoints limits) sources (rs_endpoint_registrations s) /\
  group_fits (wrap32 (max_objects limits * max_sides_per_object limits)) sources (rs_subject_records s) /\
  group_fits ports (wrap32 (sources * max_port_simultaneous_attachments limits)) (rs_port_records s) /\
  group_fits (max_objects limits) sources (rs_lifecycle_records s) /\
  group_fits (max_objects limits) sources (rs_reincarnation_records s) /\
  group_fits (max_objects limits) sources (rs_object_capability_records s) /\
  group_fits ports sources (rs_port_capability_records s).
End wf_image.

(** ** Round trips *)

Lemma wrap32_range z : is_u32 (wrap32 z).
Proof. unfold is_u32, wrap32. apply Z.mod_pos_bound. lia. Qed.

Lemma rt_owner k : wf_owner k -> roundtrip (encode_owner k) decode_owner k.
Proof. unfold encode_owner, decode_owner, wf_owner. rt_record k. Qed.
#[export] Hint Resolve rt_owner rt_authority rt_side_ref rt_port_ref : rt.

Lemma rt_attestation a : wf_attestation a -> roundtrip (encode_attestation a) decode_attestation a.
Proof.
  unfold encode_attestation, decode_attestation, wf_attestation, wf_authority. destruct a as [? ? ? ? ? ? [] ? ?].
  cbn. intros ?. destruct_and!. rt_steps.
Qed.

Lemma rt_subject_value v : wf_subject_value v -> roundtrip (encode_subject_value v) decode_subject_value v.
Proof. unfold encode_subject_value, decode_subject_value, wf_subject_value. rt_record v. Qed.

Lemma rt_port_value v : wf_port_value v -> roundtrip (encode_port_value v) decode_port_value v.
Proof. unfold encode_port_value, decode_port_value, wf_port_value. rt_record v. Qed.

Lemma rt_session_record s : wf_session_record s -> roundtrip (encode_session_record s) decode_session_record s.
Proof. unfold encode_session_record, decode_session_record, wf_session_record. rt_record s. Qed.

Lemma rt_slot_key port k : slot_key port k -> roundtrip (encode_slot_key k) (decode_slot_key port) k.
Proof. unfold encode_slot_key, decode_slot_key, slot_key. destruct k. cbn. intros (-> & ? & ?). rt_steps. Qed.

Section image_roundtrip.
Context (limits : Limits) (Hlim : limits_u32 limits).

Lemma limits_history : is_u32 (max_history_per_key limits).
Proof using Hlim. revert Hlim. unfold limits_u32. rewrite !Forall_cons. tauto. Qed.
Lemma limits_sources : is_u32 (max_sources limits).
Proof using Hlim. revert Hlim. unfold limits_u32. rewrite !Forall_cons. tauto. Qed.
Lemma limits_objects : is_u32 (max_objects limits).
Proof using Hlim. revert Hlim. unfold limits_u32. rewrite !Forall_cons. tauto. Qed.
Lemma limits_endpoints : is_u32 (max_endpoints limits).
Proof using Hlim. revert Hlim. unfold limits_u32. rewrite !Forall_cons. tauto. Qed.
Lemma limits_strings : is_u32 (max_string_bytes limits).
Proof using Hlim. revert Hlim. unfold limits_u32. rewrite !Forall_cons. tauto. Qed.

Hint Resolve limits_strings rt_attestation rt_source_descriptor limits_u32_ok : rt.

Lemma rt_folded {T} (wf : T -> Prop) (ev : T -> Enc) dv f :
  (forall v, wf v -> roundtrip (ev v) dv v) -> wf_folded limits wf f ->
  roundtrip (encode_folded ev f) (decode_folded (max_history_per_key limits) dv) f.
Proof using Hlim.
  intros Hv. unfold encode_folded, decode_folded, wf_folded. destruct f as [m v l d]. cbn.
  intros (? & ? & ? & Hl & ?).
  assert (roundtrip (enc_vector encode_attestation l)
            (decode_vector (max_history_per_key limits) decode_attestation) l).
  { apply rt_vector; [done|apply limits_history|]. eapply Forall_impl; [exact Hl|]. apply rt_attestation. }
  rt_steps.
Qed.

Lemma rt_lifecycle_value v :
  wf_lifecycle_value limits v ->
  roundtrip (encode_lifecycle_value limits v) (decode_lifecycle_value limits) v.
Proof using Hlim. unfold encode_lifecycle_value, decode_lifecycle_value, wf_lifecycle_value. rt_record v. Qed.

Lemma rt_reincarnation_value v :
  wf_reincarnation_value limits v ->
  roundtrip (encode_reincarnation_value limits v) (decode_reincarnation_value limits) v.
Proof using Hlim.
  unfold encode_reincarnation_value, decode_reincarnation_value, wf_reincarnation_value.
  destruct v as [from target serial reason]. unfold wf_string. cbn. intros (? & ? & ? & ? & ? & ?).
  rt_steps. apply decodes_guard_bind; [|apply decodes_ret].
  rewrite (proj2 (Z.eqb_neq _ _)) by done. rewrite (proj2 (Z.eqb_eq _ _)) by done. done.
Qed.

Lemma rt_source_record r :
  wf_source_record limits r -> roundtrip (encode_source_record limits r) (decode_source_record limits) r.
Proof using Hlim. unfold encode_source_record, decode_source_record, wf_source_record. rt_record r. Qed.

(** One group of the image, from its well-formedness and the ceilings. *)
Lemma rt_table {K O T} `{Ord K, Ord O} (wp : K -> Prop) (wk : K -> O -> Prop) (wv : T -> Prop)
    ep ek ev dp dk dv (g : groups K O T) max_primary max_owners :
  (forall k, wp k -> roundtrip (ep k) dp k) -> (forall k o, wk k o -> roundtrip (ek o) (dk k) o) ->
  (forall v, wv v -> roundtrip (ev v) dv v) -> is_u32 max_primary -> is_u32 max_owners ->
  wf_group limits wp wk wv g -> group_fits max_primary max_owners g ->
  roundtrip (encode_group ep ek ev g) (decode_group limits max_primary max_owners dp dk dv) g.
Proof using Hlim.
  intros Hp Hk Hv Hup Huo [Hs Hall] [Hfit Hown]. apply rt_group; [done..|].
  apply Forall_forall. intros e He. rewrite Forall_forall in Hall, Hown.
  destruct (Hall e He) as [Hpe Hf]. split_and!; [by apply Hp|by apply Hown|].
  eapply Forall_impl; [exact Hf|]. intros f [? ?]. split; [by apply Hk|by eapply rt_folded].
Qed.

(** The side conditions of [rt_table] for the groups of the state. *)
Ltac group :=
  eauto using limits_u32_ok, wrap32_range, (@rt_id), rt_owner, rt_side_ref, rt_port_ref, rt_slot_key,
    rt_object_descriptor, rt_endpoint_descriptor, rt_subject_value, rt_port_value, rt_lifecycle_value,
    rt_reincarnation_value, rt_capability, rt_port_capability.

Lemma rt_state s :
  wf_state limits s -> image_fits limits s -> roundtrip (encode_state limits s) (decode_state limits) s.
Proof using Hlim.
  intros Hwf Hfits. unfold wf_state, image_fits in *. destruct_and!.
  assert (Hl := limits_u32_ok _ Hlim).
  pose proof limits_sources. pose proof limits_objects. pose proof limits_endpoints.
  assert (Htab : forall {K O T} `{Ord K, Ord O} wp wk wv ep ek ev dp dk dv (g : groups K O T) mp mo,
    wf_group limits wp wk wv g -> group_fits mp mo g -> is_u32 mp -> is_u32 mo ->
    (forall k, wp k -> roundtrip (ep k) dp k) -> (forall k o, wk k o -> roundtrip (ek o) (dk k) o) ->
    (forall v, wv v -> roundtrip (ev v) dv v) ->
    roundtrip (encode_group ep ek ev g) (decode_group limits mp mo dp dk dv) g).
  { intros. by eapply rt_table. }
  unfold encode_state, decode_state.
  eapply rt_seq; [by apply rt_u32|]. apply rt_guard; [done|].
  eapply rt_seq; [by apply rt_id|]. eapply rt_seq; [by apply rt_i64|].
  eapply rt_seq; [apply rt_entries; [done..|] |].
  { eapply Forall_impl; [eassumption|]. intros e []. split; [by apply rt_id|by apply rt_source_record]. }
  eapply rt_seq; [apply rt_entries; [done|done|apply wrap32_range|] |].
  { eapply Forall_impl; [eassumption|]. intros e []. split; [by apply rt_owner|by apply rt_session_record]. }
  repeat (eapply rt_seq; [eapply Htab; [eassumption|eassumption|group..]|]).
  eapply rt_last; [eapply Htab; [eassumption|eassumption|group..]|].
  destruct s. apply decodes_ret.
Qed.
End image_roundtrip.
