(* ===== verification/Fold.v ===== *)
(** * Folding evidence into claim keys ([src/registry.cpp])

    [Registry::Impl::fold] and [fold_losing], the comparison of generations
    that chooses between them, and what the pair promises: the record kept at
    a claim key, its supersession ring and its drop count are a function of the
    set of records that reached the key, never of their arrival order. *)
From S2P Require Import Prelude OrdMap Types Graph State.
#[local] Open Scope Z_scope.

(** ** Generations *)

Inductive GenerationOutcome := Insert | Superseded | Duplicate | Collision.

#[export] Instance GenerationOutcome_eq_dec : EqDecision GenerationOutcome.
Proof. solve_decision. Defined.

Definition compare_generation (stored incoming : Attestation) (same_content : bool) : GenerationOutcome :=
  if att_generation stored <? att_generation incoming then Insert
  else if att_generation incoming <? att_generation stored then Superseded
  else if same_content then Duplicate else Collision.

(** ** The supersession ring *)

(** The comparator both sorts of the ring use. *)
Definition att_lt (left right : Attestation) : bool :=
  if negb (att_generation left =? att_generation right)
  then att_generation left <? att_generation right
  else kltb (att_evidence left) (att_evidence right).

(** [while (superseded.size() > history_per_key) { erase(begin); ++dropped; }] *)
Fixpoint trim (history_per_key : Z) (superseded : list Attestation) (dropped : Z)
    : list Attestation * Z :=
  match superseded with
  | [] => ([], dropped)
  | _ :: rest =>
      if history_per_key <? zlen superseded then trim history_per_key rest (wrap32 (dropped + 1))
      else (superseded, dropped)
  end.

Definition has_evidence (evidence : EvidenceId) (ring : list Attestation) : bool :=
  existsb (fun existing => keqb (att_evidence existing) evidence) ring.

Section fold.
Context {T : Type} (history_per_key : Z).

(** [fold] on an occupied slot: the old winner joins the ring, which is
    sorted and trimmed, and the new record takes its place. *)
Definition fold_winning (meta : Attestation) (value : T) (folded : Folded T) : Folded T :=
  let already_present := has_evidence (att_evidence (fd_meta folded)) (fd_superseded folded) in
  let ring := if already_present then fd_superseded folded
              else fd_superseded folded ++ [fd_meta folded] in
  let '(ring, dropped) := trim history_per_key (std_sort att_lt ring) (fd_history_dropped folded) in
  mkFolded meta value ring dropped.

(** [fold_losing] on an occupied slot: the record joins the ring unless it is
    the winner or already in it. *)
Definition fold_losing_slot (meta : Attestation) (folded : Folded T) : Folded T :=
  if keqb (att_evidence (fd_meta folded)) (att_evidence meta) then folded
  else if has_evidence (att_evidence meta) (fd_superseded folded) then folded
  else
    let '(ring, dropped) :=
      trim history_per_key (std_sort att_lt (fd_superseded folded ++ [meta]))
        (fd_history_dropped folded) in
    mkFolded (fd_meta folded) (fd_value folded) ring dropped.

Context {K : Type} `{Ord K}.

Definition fold (slots : ordmap K (Folded T)) (key : K) (meta : Attestation) (value : T)
    : ordmap K (Folded T) :=
  match map_find key slots with
  | None => map_set key (mkFolded meta value [] 0) slots
  | Some folded => map_set key (fold_winning meta value folded) slots
  end.

Definition fold_losing (slots : ordmap K (Folded T)) (key : K) (meta : Attestation)
    : ordmap K (Folded T) :=
  match map_find key slots with
  | None => slots
  | Some folded => map_set key (fold_losing_slot meta folded) slots
  end.
End fold.

(** [fold(state.table\[primary\], key, meta, value)]: [operator\[\]] creates the
    group when it is missing. *)
Definition group_fold {K O T} `{Ord K, Ord O} (h : Z) (primary : K) (key : O) (meta : Attestation)
    (value : T) (g : groups K O T) : groups K O T :=
  map_set primary (fold h (default [] (map_find primary g)) key meta value) g.

(** [fold_losing] into a group that exists. *)
Definition group_fold_losing {K O T} `{Ord K, Ord O} (h : Z) (primary : K) (key : O)
    (meta : Attestation) (g : groups K O T) : groups K O T :=
  match map_find primary g with
  | None => g
  | Some slots => map_set primary (fold_losing h slots key meta) g
  end.

(** ** What happens to one claim key when a record arrives

    The composition of [compare_generation] with the two folds that [decide]
    and [apply_change] carry out for a key. *)
Definition arrive {T} (h : Z) (slot : option (Folded T)) (record : Attestation * T) : option (Folded T) :=
  match slot with
  | None => Some (mkFolded record.1 record.2 [] 0)
  | Some folded =>
      match compare_generation (fd_meta folded) record.1 true with
      | Insert => Some (fold_winning h record.1 record.2 folded)
      | Superseded => Some (fold_losing_slot h record.1 folded)
      | Duplicate | Collision => Some folded
      end
  end.

(** * Facts *)

Definition att_key (a : Attestation) : Z * EvidenceId := (att_generation a, att_evidence a).

Lemma att_lt_key a b : att_lt a b = kltb (att_key a) (att_key b).
Proof.
  unfold att_lt, kltb, att_key. cbn. unfold lex_cmp. cbn.
  destruct (Z.compare_spec (att_generation a) (att_generation b)) as [E|E|E].
  - by rewrite E, Z.eqb_refl.
  - rewrite (proj2 (Z.eqb_neq _ _)) by lia. cbn. by apply Z.ltb_lt.
  - rewrite (proj2 (Z.eqb_neq _ _)) by lia. cbn. apply Z.ltb_ge. lia.
Qed.

#[export] Instance att_lt_strict : StrictLt att_lt.
Proof.
  split; intros a b; [|intros c]; rewrite !att_lt_key; [apply kltb_asym|].
  intros Hba Hcb. destruct (kltb (att_key c) (att_key a)) eqn:E; [|done].
  destruct (kltb (att_key a) (att_key b)) eqn:Eab.
  - by rewrite (kltb_trans _ _ _ E Eab) in Hcb.
  - rewrite (kltb_total _ _ Eab Hba) in E. congruence.
Qed.

(** The last [h] elements of a list. *)
Definition lastn {A} (h : nat) (l : list A) : list A := drop (length l - h) l.

Lemma trim_spec h l d : 0 <= h -> is_u32 d ->
  trim h l d = (lastn (Z.to_nat h) l, wrap32 (d + Z.of_nat (length l - Z.to_nat h))).
Proof.
  intros Hh. revert d. induction l as [|x l IH]; intros d Hd; cbn [trim].
  - unfold lastn. cbn. by rewrite Z.add_0_r, wrap32_small.
  - destruct (Z.ltb_spec h (zlen (x :: l))) as [Hlt|Hge]; unfold zlen in *; cbn [length] in *.
    + rewrite IH by apply wrap32_u32.
      unfold lastn. cbn [length]. replace (S (length l) - Z.to_nat h)%nat
        with (S (length l - Z.to_nat h))%nat by lia.
      cbn [drop]. f_equal. unfold wrap32. rewrite Zplus_mod_idemp_l. f_equal. lia.
    + unfold lastn. cbn [length].
      replace (S (length l) - Z.to_nat h)%nat with 0%nat by lia.
      cbn. by rewrite Z.add_0_r, wrap32_small.
Qed.

(** A list sorted strictly by the ring order. *)
Abbreviation ring_sorted := (StronglySorted (fun a b => att_lt a b = true)).

Lemma ring_sorted_not_after l : ring_sorted l -> StronglySorted (not_after att_lt) l.
Proof.
  induction 1 as [|a l Hl IH Hall]; constructor; [done|].
  eapply Forall_impl; [exact Hall|]. intros b Hb. by apply slt_asym.
Qed.

Lemma ring_sorted_split l x :
  ring_sorted l -> (forall y, y ∈ l -> att_key y ≠ att_key x) ->
  exists l1 l2, l = l1 ++ l2 /\ Forall (fun y => att_lt y x = true) l1 /\
                Forall (fun y => att_lt x y = true) l2.
Proof.
  induction 1 as [|a l Hl IH Hall]; intros Hne; [by exists [], []|].
  destruct (att_lt a x) eqn:E.
  - destruct IH as (l1 & l2 & -> & H1 & H2); [intros y Hy; apply Hne; by right|].
    exists (a :: l1), l2. repeat split; [by constructor|done].
  - assert (Hxa : att_lt x a = true).
    { rewrite att_lt_key in E |- *. destruct (kltb (att_key x) (att_key a)) eqn:E'; [done|].
      destruct (Hne a); [by left|]. by apply kltb_total. }
    exists [], (a :: l). repeat split; [done|]. constructor; [done|].
    eapply Forall_impl; [exact Hall|]. intros b Hb. cbn in Hb.
    rewrite att_lt_key in *. by eapply kltb_trans.
Qed.

Lemma ring_sorted_app l1 x l2 :
  ring_sorted (l1 ++ l2) -> Forall (fun y => att_lt y x = true) l1 ->
  Forall (fun y => att_lt x y = true) l2 -> ring_sorted (l1 ++ x :: l2).
Proof.
  intros Hs H1 H2. apply StronglySorted_app in Hs as (Hx & Hs1 & Hs2).
  apply StronglySorted_app. split; [|split; [done|by constructor]].
  intros a b Ha. rewrite elem_of_cons. intros [->|Hb]; [|by apply Hx].
  rewrite Forall_forall in H1. by apply H1.
Qed.

Lemma ring_sorted_keys l a b :
  ring_sorted l -> a ∈ l -> b ∈ l -> att_lt a b = false -> att_lt b a = false -> a = b.
Proof.
  induction 1 as [|x l Hl IH Hall]; [by inversion 1|].
  rewrite Forall_forall in Hall. rewrite !elem_of_cons.
  intros [->|Ha] [->|Hb] H1 H2; [done|..|by apply IH].
  - apply Hall in Hb. cbn in Hb. congruence.
  - apply Hall in Ha. cbn in Ha. congruence.
Qed.

Lemma ring_sort_insert l1 x l2 :
  ring_sorted (l1 ++ x :: l2) -> std_sort att_lt ((l1 ++ l2) ++ [x]) = l1 ++ x :: l2.
Proof.
  intros Hs. assert (Hperm : l1 ++ x :: l2 ≡ₚ (l1 ++ l2) ++ [x]).
  { rewrite <- Permutation_middle. apply Permutation_cons_append. }
  apply std_sort_unique; [apply _| |by apply ring_sorted_not_after|done].
  intros a b Ha Hb. apply (ring_sorted_keys (l1 ++ x :: l2)); [done|by rewrite Hperm..].
Qed.

Lemma lastn_length {A} h (l : list A) : length (lastn h l) = (length l `min` h)%nat.
Proof. unfold lastn. rewrite length_drop. lia. Qed.

Lemma lastn_sorted h l : ring_sorted l -> ring_sorted (lastn h l).
Proof.
  intros Hs. unfold lastn. rewrite <- (take_drop (length l - h) l) in Hs.
  by apply StronglySorted_app in Hs as (_ & _ & ?).
Qed.

(** Keeping the last [h] after every insertion is keeping the last [h] of the
    whole. *)
Lemma lastn_insert h l1 x l2 :
  (0 < h)%nat -> ring_sorted (l1 ++ x :: l2) ->
  lastn h (std_sort att_lt (lastn h (l1 ++ l2) ++ [x])) = lastn h (l1 ++ x :: l2).
Proof.
  intros Hh Hs. unfold lastn at 2. rewrite length_app.
  destruct (decide (length l1 + length l2 - h <= length l1)%nat) as [Hle|Hgt].
  - rewrite drop_app_le by done. set (n := (length l1 + length l2 - h)%nat) in *.
    rewrite ring_sort_insert.
    2: { rewrite <- (take_drop n l1), <- app_assoc in Hs.
         by apply StronglySorted_app in Hs as (_ & _ & ?). }
    unfold lastn. rewrite !length_app. cbn [length]. rewrite length_drop.
    replace (length l1 + S (length l2) - h)%nat
      with (n + (length l1 - n + S (length l2) - h))%nat by lia.
    rewrite <- drop_drop. f_equal. by rewrite drop_app_le by done.
  - rewrite drop_app_ge by lia. set (n := (length l1 + length l2 - h - length l1)%nat) in *.
    pose proof Hs as Hs'. apply StronglySorted_app in Hs' as (_ & _ & Hxl2).
    assert (Hx : ring_sorted (x :: drop n l2)).
    { inversion Hxl2 as [|? ? Hl2 Hall]; subst. constructor.
      - rewrite <- (take_drop n l2) in Hl2. by apply StronglySorted_app in Hl2 as (_ & _ & ?).
      - by apply Forall_drop. }
    pose proof (ring_sort_insert [] x (drop n l2) Hx) as Hsort. cbn [app] in Hsort.
    rewrite Hsort. unfold lastn. rewrite !length_app. cbn [length app].
    rewrite length_drop. replace (S (length l2 - n) - h)%nat with 1%nat by lia.
    rewrite drop_app_ge by lia. cbn [drop].
    replace (length l1 + S (length l2) - h - length l1)%nat with (S n) by lia. done.
Qed.

(** ** Order independence of one claim key *)

Lemma has_evidence_true e l : has_evidence e l = true <-> exists a, a ∈ l /\ att_evidence a = e.
Proof.
  unfold has_evidence. rewrite existsb_exists. split.
  - intros (a & Ha & E). exists a. by rewrite list_elem_of_In, <- (keqb_eq (A := EvidenceId)).
  - intros (a & Ha & E). exists a. by rewrite <- list_elem_of_In, (keqb_eq (A := EvidenceId)).
Qed.

Lemma has_evidence_false e l : (forall a, a ∈ l -> att_evidence a ≠ e) -> has_evidence e l = false.
Proof.
  intros Hne. destruct (has_evidence e l) eqn:E; [|done].
  apply has_evidence_true in E as (a & Ha & Hea). by destruct (Hne a).
Qed.

Lemma lastn_incl {A} h (l : list A) x : x ∈ lastn h l -> x ∈ l.
Proof.
  unfold lastn. intros Hx. rewrite <- (take_drop (length l - h) l). apply elem_of_app. by right.
Qed.

Section order.
Context {T : Type} (h : Z) (Hh : 0 < h).
Implicit Types (l : list (Attestation * T)) (f : Folded T).

(** The ring and the drop count that a set of losing records determines. *)
Definition ring_of (losers : list Attestation) : list Attestation := lastn (Z.to_nat h) losers.
Definition dropped_of (losers : list Attestation) : Z :=
  wrap32 (Z.of_nat (length losers - Z.to_nat h)).

(** [f] is the fold of the records [l]: its winner has the highest
    generation, and the ring holds the highest generations of the others. *)
Definition folds (l : list (Attestation * T)) (f : Folded T) : Prop :=
  exists losers,
    (fd_meta f, fd_value f) ∈ l /\
    ring_sorted losers /\
    losers ++ [fd_meta f] ≡ₚ l.*1 /\
    Forall (fun a => att_generation a < att_generation (fd_meta f)) losers /\
    fd_superseded f = ring_of losers /\
    fd_history_dropped f = dropped_of losers.

(** Adding a record with a fresh key to the losers updates ring and count. *)
Lemma ring_of_insert losers x dropped :
  ring_sorted losers -> (forall y, y ∈ losers -> att_key y ≠ att_key x) ->
  dropped = dropped_of losers ->
  exists losers', ring_sorted losers' /\ losers' ≡ₚ losers ++ [x] /\
    trim h (std_sort att_lt (ring_of losers ++ [x])) dropped = (ring_of losers', dropped_of losers').
Proof using Hh.
  intros Hs Hne ->. destruct (ring_sorted_split losers x Hs Hne) as (l1 & l2 & -> & H1 & H2).
  pose proof (ring_sorted_app l1 x l2 Hs H1 H2) as Hs'.
  exists (l1 ++ x :: l2). split_and!; [done| |].
  { rewrite <- Permutation_middle. apply Permutation_cons_append. }
  rewrite trim_spec by (lia || apply wrap32_u32). unfold ring_of.
  rewrite lastn_insert by (done || lia). f_equal.
  unfold dropped_of, wrap32. rewrite Zplus_mod_idemp_l. f_equal.
  assert (Hlen : length (std_sort att_lt (lastn (Z.to_nat h) (l1 ++ l2) ++ [x]))
                 = S ((length l1 + length l2) `min` Z.to_nat h)).
  { rewrite (Permutation_length (std_sort_perm att_lt _)), length_app, lastn_length, length_app.
    cbn [length]. lia. }
  rewrite Hlen, !length_app. cbn [length]. lia.
Qed.

(** One arrival keeps the characterisation. *)
Lemma arrive_folds l f r :
  folds l f ->
  (forall a, a ∈ l.*1 -> att_generation a ≠ att_generation r.1 /\ att_evidence a ≠ att_evidence r.1) ->
  NoDup (att_evidence <$> l.*1) ->
  exists f', arrive h (Some f) r = Some f' /\ folds (r :: l) f'.
Proof using Hh.
  intros (losers & Hin & Hs & Hperm & Hlt & Hring & Hdrop) Hfresh Hnd.
  assert (Hmem : forall a, a ∈ losers ++ [fd_meta f] -> a ∈ l.*1) by (intros a; by rewrite Hperm).
  assert (Hmeta : fd_meta f ∈ l.*1) by (apply Hmem, elem_of_app; right; by left).
  destruct (Hfresh _ Hmeta) as [Hg He]. destruct r as [a v]. cbn in *.
  unfold compare_generation.
  destruct (Z.ltb_spec (att_generation (fd_meta f)) (att_generation a)) as [Hgt|Hle].
  - assert (has_evidence (att_evidence (fd_meta f)) (fd_superseded f) = false) as Hhas.
    { apply has_evidence_false. intros b Hb Heq. rewrite Hring in Hb. apply lastn_incl in Hb.
      rewrite <- Hperm, fmap_app in Hnd. apply NoDup_app in Hnd as (_ & Hdisj & _).
      apply (Hdisj (att_evidence b)); [by apply list_elem_of_fmap_2|].
      cbn. rewrite Heq. by left. }
    destruct (ring_of_insert losers (fd_meta f) (fd_history_dropped f)) as (losers' & Hs' & Hp' & Htrim);
      [done| |done|].
    { intros y Hy [= Hgy _]. rewrite Forall_forall in Hlt. apply Hlt in Hy. lia. }
    eexists. split; [done|]. unfold fold_winning. rewrite Hhas, Hring, Htrim.
    exists losers'. cbn. split_and!; [by left|done| | |done|done].
    + rewrite Hp', Hperm, <- Permutation_cons_append. done.
    + rewrite Hp'. apply Forall_app. split; [|by constructor].
      eapply Forall_impl; [exact Hlt|]. cbn. lia.
  - destruct (Z.ltb_spec (att_generation a) (att_generation (fd_meta f))) as [Hlt'|?]; [|lia].
    eexists. split; [done|]. unfold fold_losing_slot.
    rewrite (proj2 (keqb_neq _ _) He).
    rewrite has_evidence_false.
    2: { intros b Hb. rewrite Hring in Hb. apply lastn_incl in Hb.
         apply Hfresh, Hmem, elem_of_app. by left. }
    destruct (ring_of_insert losers a (fd_history_dropped f)) as (losers' & Hs' & Hp' & Htrim);
      [done| |done|].
    { intros y Hy [= Hgy _]. destruct (Hfresh y) as [? _]; [|lia]. apply Hmem, elem_of_app. by left. }
    rewrite Hring, Htrim. exists losers'. cbn. split_and!; [by right|done| | |done|done].
    + rewrite <- Hperm, Hp', <- app_assoc. cbn. by rewrite <- Permutation_middle.
    + rewrite Hp'. apply Forall_app. split; [done|by constructor].
Qed.

Lemma arrivals_fold l :
  l ≠ [] -> NoDup (att_generation <$> l.*1) -> NoDup (att_evidence <$> l.*1) ->
  exists f, foldr (fun r slot => arrive h slot r) None l = Some f /\ folds l f.
Proof using Hh.
  induction l as [|r l IH]; [done|]. intros _. cbn. rewrite !NoDup_cons.
  intros [Hg Hgs] [He Hes]. destruct l as [|r' l'] eqn:El.
  - exists (mkFolded r.1 r.2 [] 0). split; [done|]. exists []. cbn.
    split_and!; [destruct r; by left|constructor|done|done|done|done].
  - rewrite <- El in *. destruct IH as (f & Hf & Hfolds); [by rewrite El|done..|].
    rewrite Hf. apply arrive_folds; [done| |done]. intros a Ha. split; intros Heq.
    + apply Hg. rewrite <- Heq. by apply list_elem_of_fmap_2.
    + apply He. rewrite <- Heq. by apply list_elem_of_fmap_2.
Qed.

(** The characterisation determines the fold. *)
Lemma folds_unique l1 l2 f1 f2 :
  NoDup (att_generation <$> l1.*1) -> l1 ≡ₚ l2 -> folds l1 f1 -> folds l2 f2 -> f1 = f2.
Proof using.
  intros Hnd Hperm (a1 & Hin1 & Hs1 & Hp1 & Hlt1 & Hr1 & Hd1) (a2 & Hin2 & Hs2 & Hp2 & Hlt2 & Hr2 & Hd2).
  rewrite <- Hperm in Hin2, Hp2.
  assert (Hmeta : fd_meta f1 = fd_meta f2).
  { assert (Hm2 : fd_meta f2 ∈ a1 ++ [fd_meta f1])
      by (rewrite Hp1; by apply (list_elem_of_fmap_2 fst _ (fd_meta f2, fd_value f2))).
    assert (Hm1 : fd_meta f1 ∈ a2 ++ [fd_meta f2])
      by (rewrite Hp2; by apply (list_elem_of_fmap_2 fst _ (fd_meta f1, fd_value f1))).
    rewrite elem_of_app, list_elem_of_singleton in Hm1, Hm2.
    rewrite Forall_forall in Hlt1, Hlt2.
    destruct Hm1 as [Hm1|]; [|done]. destruct Hm2 as [Hm2|]; [|done].
    apply Hlt1 in Hm2. apply Hlt2 in Hm1. lia. }
  assert (Hval : fd_value f1 = fd_value f2).
  { rewrite Hmeta in Hin1. clear -Hnd Hin1 Hin2.
    induction l1 as [|[a v] l IH]; [by inversion Hin1|]. cbn in Hnd. apply NoDup_cons in Hnd as [Hn Hnd].
    rewrite elem_of_cons in Hin1, Hin2.
    assert (Habs : forall v', (a, v') ∉ l).
    { intros v' Hl. apply Hn. change (att_generation a) with (att_generation (a, v').1).
      rewrite <- list_fmap_compose. by apply (list_elem_of_fmap_2 (att_generation ∘ fst)). }
    destruct Hin1 as [[= E1 ->]|Hin1], Hin2 as [[= E2 ->]|Hin2]; [done|..|by apply IH].
    - subst. by apply Habs in Hin2.
    - subst. by apply Habs in Hin1. }
  assert (Hlos : a1 = a2).
  { assert (Hperm12 : a1 ≡ₚ a2).
    { apply (Permutation_app_inv_r [fd_meta f1]). by rewrite Hp1, Hmeta, Hp2. }
    apply (StronglySorted_unique_strong (fun a b => att_lt a b = true)); [|done..].
    intros x y _ _ Hxy Hyx. apply slt_asym in Hxy. congruence. }
  destruct f1, f2. cbn in *. subst. congruence.
Qed.

Lemma arrivals_order_independent l1 l2 :
  NoDup (att_generation <$> l1.*1) -> NoDup (att_evidence <$> l1.*1) -> l1 ≡ₚ l2 ->
  foldl (arrive h) None l1 = foldl (arrive h) None l2.
Proof using Hh.
  intros Hg He Hperm.
  assert (Hrev : forall l, foldl (arrive h) None l = foldr (fun r slot => arrive h slot r) None (reverse l)).
  { intros l. generalize (@None (Folded T)). induction l as [|r l IH]; intros s; [done|].
    cbn [foldl]. by rewrite IH, reverse_cons, foldr_app. }
  rewrite !Hrev. destruct l1 as [|r l1'] eqn:E1.
  { apply Permutation_nil_l in Hperm as <-. done. }
  rewrite <- E1 in *.
  assert (Hnd : forall l, l ≡ₚ l1 -> NoDup (att_generation <$> l.*1) /\ NoDup (att_evidence <$> l.*1)).
  { intros l Hl. by rewrite Hl. }
  destruct (arrivals_fold (reverse l1)) as (f1 & -> & H1);
    [rewrite E1; by rewrite reverse_cons; destruct (reverse l1')|apply Hnd, reverse_Permutation..|].
  destruct (arrivals_fold (reverse l2)) as (f2 & -> & H2).
  { intros E. apply (f_equal length) in E. rewrite length_reverse in E.
    rewrite <- Hperm, E1 in E. done. }
  1-2: apply Hnd; by rewrite reverse_Permutation, Hperm.
  f_equal. eapply (folds_unique (reverse l1) (reverse l2)); [|by rewrite !reverse_Permutation|done|done].
  apply Hnd, reverse_Permutation.
Qed.
End order.
