(* ===== verification/Derive.v ===== *)
(** * Derivations from the record tables ([src/registry.cpp])

    The helpers every view and every admission rule shares: which claims win a
    key, what an object side is attached to, the lifecycle of an object, and
    the capability of a port.  Each is a function of the registry state. *)
From S2P Require Import Prelude OrdMap Types Graph State Fold.
#[local] Open Scope Z_scope.

Definition combine_validation (any all : bool) : ValidationState.t :=
  if negb any then ValidationState.Unvalidated
  else if all then ValidationState.Validated else ValidationState.PartiallyValidated.

Definition to_provenance (attestation : Attestation) : ClaimProvenance := {|
  cp_source := key_source (att_owner attestation);
  cp_incarnation := key_incarnation (att_owner attestation);
  cp_generation := att_generation attestation;
  cp_evidence := att_evidence attestation;
  cp_observed_at := att_observed_at attestation;
  cp_received_at := att_received_at attestation;
  cp_provenance := att_provenance attestation;
  cp_authority := att_authority attestation;
  cp_object_incarnation := att_object_incarnation attestation;
  cp_asserted_in_lifetime := att_asserted_in_lifetime attestation;
|}.

Definition claim_order (left right : ClaimProvenance) : bool :=
  if negb (keqb (cp_source left) (cp_source right)) then kltb (cp_source left) (cp_source right)
  else if negb (cp_incarnation left =? cp_incarnation right) then cp_incarnation left <? cp_incarnation right
  else if negb (cp_generation left =? cp_generation right) then cp_generation left <? cp_generation right
  else kltb (cp_evidence left) (cp_evidence right).

Definition object_incarnation_of_evidence (evidence : Evidence) : Z :=
  match ev_payload evidence with
  | Attach p => at_incarnation p
  | Detach p => de_incarnation p
  | Move p => mv_incarnation p
  | SetLifecycle p => sl_incarnation p
  | _ => 0
  end.

Definition participates (meta : Attestation) (policy : ValidationPolicy.t) : bool :=
  bool_decide (policy = ValidationPolicy.IncludeAll) || att_asserted_in_lifetime meta.

(** ** Claim sets *)

Record ClaimSet := mkClaimSet {
  cs_any : bool;
  cs_authority : Authority;
  cs_validation : ValidationState.t;
  cs_top : list Attestation;
  cs_lower : list Attestation;
  cs_lower_total : Z;
}.

Definition empty_claim_set : ClaimSet :=
  mkClaimSet false default_authority ValidationState.Unvalidated [] [] 0.

(** [if (best < candidate) best = candidate]. *)
Definition raise_authority (best candidate : Authority) : Authority :=
  if kltb best candidate then candidate else best.

Definition top_order (left right : Attestation) : bool :=
  if negb (keqb (att_owner left) (att_owner right)) then kltb (att_owner left) (att_owner right)
  else att_generation left <? att_generation right.

Definition lower_order (left right : Attestation) : bool :=
  if negb (keqb (att_authority left) (att_authority right))
  then kltb (att_authority right) (att_authority left)
  else top_order left right.

Definition collect_claims {T} (records : ordmap SourceIncarnationKey (Folded T))
    (policy : ValidationPolicy.t) (accept : SourceIncarnationKey -> Folded T -> bool) : ClaimSet :=
  let eligible := (fun entry => fd_meta entry.2) <$>
    filter (fun entry => participates (fd_meta entry.2) policy && accept entry.1 entry.2 = true) records in
  match eligible with
  | [] => empty_claim_set
  | front :: _ =>
      let authority := foldl (fun best meta => raise_authority best (att_authority meta))
                         (att_authority front) eligible in
      let top := filter (fun meta => keqb (att_authority meta) authority = true) eligible in
      let lower := filter (fun meta => keqb (att_authority meta) authority = false) eligible in
      mkClaimSet true authority
        (combine_validation (existsb att_asserted_in_lifetime eligible)
           (forallb att_asserted_in_lifetime eligible))
        (std_sort top_order top) (std_sort lower_order lower) (wrap32 (zlen lower))
  end.

(** ** Winning registrations *)

(** The scan both registration tables use: the highest authority, and the
    smallest session key among equals. *)
Definition winner_step {T} (chosen : option (SourceIncarnationKey * Folded T))
    (entry : SourceIncarnationKey * Folded T) : option (SourceIncarnationKey * Folded T) :=
  match chosen with
  | None => Some entry
  | Some (chosen_key, record) =>
      if kltb (att_authority (fd_meta record)) (att_authority (fd_meta entry.2))
         || keqb (att_authority (fd_meta record)) (att_authority (fd_meta entry.2))
            && kltb entry.1 chosen_key
      then Some entry else chosen
  end.

Definition winning_registration (state : RegistryState) (object : ObjectId)
    : option (Folded ObjectDescriptor) :=
  match map_find object (rs_object_registrations state) with
  | None => None
  | Some found => snd <$> foldl winner_step None found
  end.

Definition winning_endpoint (state : RegistryState) (endpoint : EndpointId)
    : option (Folded EndpointDescriptor) :=
  match map_find endpoint (rs_endpoint_registrations state) with
  | None => None
  | Some found => snd <$> foldl winner_step None found
  end.

(** ** Port capability *)

(** The scan of [port_capability_of]: chosen record with its key, the best
    authority so far and the smallest declared attachment count at it. *)
Definition port_capability_step (state : RegistryState)
    (chosen : option (SourceIncarnationKey * PortCapability * Authority * Z))
    (entry : SourceIncarnationKey * Folded PortCapability)
    : option (SourceIncarnationKey * PortCapability * Authority * Z) :=
  if session_is_fenced state entry.1 then chosen
  else
    let meta := fd_meta entry.2 in
    let capability := fd_value entry.2 in
    let take := Some (entry.1, capability, att_authority meta, pc_max_attachments capability) in
    match chosen with
    | None => take
    | Some (chosen_key, value, best, minimum) =>
        if kltb best (att_authority meta) then take
        else if keqb (att_authority meta) best then
          let minimum := Z.min minimum (pc_max_attachments capability) in
          if kltb entry.1 chosen_key then Some (entry.1, capability, best, minimum)
          else Some (chosen_key, value, best, minimum)
        else chosen
    end.

Definition set_max_attachments (capability : PortCapability) (count : Z) : PortCapability :=
  mkPortCapability count (pc_connector capability) (pc_media capability) (pc_lanes capability).

Definition port_capability_of (state : RegistryState) (port : PortRef) : PortCapability :=
  let published :=
    match map_find port (rs_port_capability_records state) with
    | None => None
    | Some found => foldl (port_capability_step state) None found
    end in
  match published with
  | Some (_, value, _, minimum) => set_max_attachments value (if minimum =? 0 then 1 else minimum)
  | None =>
      match winning_endpoint state (port_endpoint port) with
      | Some endpoint => ed_default_capability (fd_value endpoint)
      | None => default_port_capability
      end
  end.

Definition side_descriptor_of (state : RegistryState) (object : ObjectId) (side : Z) : ObjectSideDescriptor :=
  match winning_registration state object with
  | None => default_side_descriptor
  | Some registration =>
      if zlen (od_sides (fd_value registration)) <=? side then default_side_descriptor
      else default default_side_descriptor (od_sides (fd_value registration) !! Z.to_nat side)
  end.

Definition connector_compatible (side : ObjectSideDescriptor) (capability : PortCapability) : bool :=
  if bool_decide (sd_connector side = ConnectorClass.Unknown)
     || bool_decide (pc_connector capability = ConnectorClass.Unknown) then true
  else bool_decide (sd_connector side = pc_connector capability).

Definition media_compatible (side : ObjectSideDescriptor) (capability : PortCapability) : bool :=
  if bool_decide (sd_media side = MediaClass.Unknown)
     || bool_decide (pc_media capability = MediaClass.Unknown) then true
  else bool_decide (sd_media side = pc_media capability).

(** ** Object sides *)

Record SubjectDerivation := mkSubjectDerivation {
  sj_has_records : bool;
  sj_state : PortAttachmentState.t;
  sj_validation : ValidationState.t;
  sj_authority : Authority;
  sj_incarnation : Z;
  sj_ports : list PortRef;
  sj_slots : list Z;
  sj_top : list Attestation;
}.

Definition subject_record_live {T} (state : RegistryState) (owner : SourceIncarnationKey)
    (record : Folded T) (policy : ValidationPolicy.t) : bool :=
  if session_is_fenced state owner then false
  else if negb (participates (fd_meta record) policy) then false
  else true.

(** The records [derive_subject] counts for one polarity. *)
Definition subject_accept (state : RegistryState) (policy : ValidationPolicy.t) (current : Z)
    (attached : bool) (owner : SourceIncarnationKey) (record : Folded SubjectValue) : bool :=
  if negb (subject_record_live state owner record policy) then false
  else (su_incarnation (fd_value record) =? current) && Bool.eqb (su_attached (fd_value record)) attached.

(** The derivation of a side from the records about it. *)
Definition derive_subject_of (state : RegistryState) (subject : ObjectSideRef)
    (policy : ValidationPolicy.t) (found : ordmap SourceIncarnationKey (Folded SubjectValue))
    : SubjectDerivation :=
  let current := object_incarnation_of state (side_object subject) in
  let attached := collect_claims found policy (subject_accept state policy current true) in
  let detached := collect_claims found policy (subject_accept state policy current false) in
  if negb (cs_any attached) && negb (cs_any detached) then
    mkSubjectDerivation false PortAttachmentState.Unknown ValidationState.Unvalidated
      default_authority current [] [] []
  else
    let attached_wins := cs_any attached
      && (negb (cs_any detached) || kltb (cs_authority detached) (cs_authority attached)) in
    let detached_wins := cs_any detached
      && (negb (cs_any attached) || kltb (cs_authority attached) (cs_authority detached)) in
    if negb attached_wins && negb detached_wins then
      mkSubjectDerivation true PortAttachmentState.Conflicting
        (combine_validation
           ((cs_any attached && negb (bool_decide (cs_validation attached = ValidationState.Unvalidated)))
            || (cs_any detached && negb (bool_decide (cs_validation detached = ValidationState.Unvalidated))))
           (bool_decide (cs_validation attached = ValidationState.Validated)
            || bool_decide (cs_validation detached = ValidationState.Validated)))
        (if cs_any attached then cs_authority attached else cs_authority detached)
        current [] [] []
    else if detached_wins then
      mkSubjectDerivation true PortAttachmentState.Empty (cs_validation detached)
        (cs_authority detached) current [] [] []
    else
      let named := filter (fun entry =>
                     subject_accept state policy current true entry.1 entry.2
                     && keqb (att_authority (fd_meta entry.2)) (cs_authority attached) = true) found in
      let ports := std_unique keqb (std_sort kltb ((fun entry => su_port (fd_value entry.2)) <$> named)) in
      mkSubjectDerivation true
        (if 1 <? zlen ports then PortAttachmentState.Conflicting else PortAttachmentState.Attached)
        (cs_validation attached) (cs_authority attached) current
        ports ((fun entry => su_slot (fd_value entry.2)) <$> named) (cs_top attached).

Definition derive_subject (state : RegistryState) (subject : ObjectSideRef)
    (policy : ValidationPolicy.t) : SubjectDerivation :=
  let blank := mkSubjectDerivation false PortAttachmentState.Unknown ValidationState.Unvalidated
                 default_authority (object_incarnation_of state (side_object subject)) [] [] [] in
  if negb (object_exists state (side_object subject)) then blank
  else
    match map_find subject (rs_subject_records state) with
    | None => blank
    | Some found => derive_subject_of state subject policy found
    end.

Definition subject_double_booked (state : RegistryState) (subject : ObjectSideRef)
    (policy : ValidationPolicy.t) : bool :=
  let derivation := derive_subject state subject policy in
  bool_decide (sj_state derivation = PortAttachmentState.Conflicting) && (1 <? zlen (sj_ports derivation)).

(** ** Lifecycle *)

Record Candidate := mkCandidate {
  ca_action : LifecycleAction.t;
  ca_authority : Authority;
  ca_from_reincarnation : bool;
  ca_meta : Attestation;
}.

Definition lifecycle_candidates (state : RegistryState) (object : ObjectId) : list Candidate :=
  let current := object_incarnation_of state object in
  ((fun entry => mkCandidate (lv_action (fd_value entry.2)) (att_authority (fd_meta entry.2)) false
                   (fd_meta entry.2)) <$>
     filter (fun entry => negb (session_is_fenced state entry.1)
                          && (lv_incarnation (fd_value entry.2) =? current) = true)
       (default [] (map_find object (rs_lifecycle_records state))))
  ++
  ((fun entry => mkCandidate LifecycleAction.Present (att_authority (fd_meta entry.2)) true
                   (fd_meta entry.2)) <$>
     filter (fun entry => negb (session_is_fenced state entry.1)
                          && (ri_target (fd_value entry.2) =? current) = true)
       (default [] (map_find object (rs_reincarnation_records state)))).

Definition best_authority (candidates : list Candidate) : Authority :=
  match candidates with
  | [] => default_authority
  | front :: _ => foldl (fun best candidate => raise_authority best (ca_authority candidate))
                    (ca_authority front) candidates
  end.

Definition saw (action : LifecycleAction.t) (top : list Candidate) : bool :=
  existsb (fun candidate => bool_decide (ca_action candidate = action)) top.

(** The ruling on the candidates of the best authority: the action, and
    whether they conflict. *)
Definition lifecycle_ruling (top : list Candidate) : LifecycleAction.t * bool :=
  let saw_present := saw LifecycleAction.Present top in
  let saw_retired := saw LifecycleAction.Retired top in
  let saw_removed := saw LifecycleAction.Removed top in
  let saw_quarantined := saw LifecycleAction.Quarantined top in
  let present_from_reincarnation :=
    existsb (fun candidate => bool_decide (ca_action candidate = LifecycleAction.Present)
                              && ca_from_reincarnation candidate) top in
  let distinct := (Z.b2z saw_present + Z.b2z saw_retired + Z.b2z saw_removed + Z.b2z saw_quarantined) in
  if distinct <=? 1 then
    (if saw_retired then LifecycleAction.Retired
     else if saw_removed then LifecycleAction.Removed
     else if saw_quarantined then LifecycleAction.Quarantined
     else LifecycleAction.Present, false)
  else if saw_retired && saw_present && present_from_reincarnation && (distinct =? 2) then
    (LifecycleAction.Present, false)
  else if saw_retired then (LifecycleAction.Retired, false)
  else if saw_removed && saw_present && negb saw_quarantined && (distinct =? 2) then
    (LifecycleAction.Removed, false)
  else (LifecycleAction.Present, true).

(** The action, the conflict flag and the citations. *)
Definition lifecycle_action_of (state : RegistryState) (object : ObjectId)
    : LifecycleAction.t * bool * list Attestation :=
  match lifecycle_candidates state object with
  | [] => (LifecycleAction.Present, false, [])
  | candidates =>
      let best := best_authority candidates in
      let top := filter (fun candidate => keqb (ca_authority candidate) best = true) candidates in
      (lifecycle_ruling top, ca_meta <$> top)
  end.

Record LifecycleDerivation := mkLifecycleDerivation {
  ld_state : LifecycleState.t;
  ld_action : LifecycleAction.t;
  ld_conflicting : bool;
  ld_citations : list Attestation;
}.

Definition derive_lifecycle (state : RegistryState) (object : ObjectId)
    (has_attachment has_detachment : bool) : LifecycleDerivation :=
  let '(action, conflicting, citations) := lifecycle_action_of state object in
  let lifecycle_state :=
    if conflicting then LifecycleState.Conflicting
    else match action with
         | LifecycleAction.Retired => LifecycleState.Retired
         | LifecycleAction.Removed => LifecycleState.Removed
         | LifecycleAction.Quarantined => LifecycleState.Quarantined
         | LifecycleAction.Present =>
             if has_attachment then LifecycleState.Attached
             else if has_detachment then LifecycleState.Unattached
             else LifecycleState.Registered
         end in
  mkLifecycleDerivation lifecycle_state action conflicting citations.

(** [object_excluded(const LifecycleDerivation&)]. *)
Definition lifecycle_excluded (lifecycle : LifecycleDerivation) : bool :=
  bool_decide (ld_state lifecycle = LifecycleState.Quarantined)
  || bool_decide (ld_state lifecycle = LifecycleState.Removed)
  || bool_decide (ld_state lifecycle = LifecycleState.Retired).

(** [object_excluded(const RegistryState&, const ObjectId&)]. *)
Definition object_excluded (state : RegistryState) (object : ObjectId) : bool :=
  let '(action, _, _) := lifecycle_action_of state object in
  bool_decide (action = LifecycleAction.Quarantined) || bool_decide (action = LifecycleAction.Removed)
  || bool_decide (action = LifecycleAction.Retired).

(** * Facts *)

(** ** Scans for a maximum *)

Lemma kltb_le_trans {A} `{Ord A} (a b c : A) : kltb b a = false -> kltb c b = false -> kltb c a = false.
Proof.
  intros Hba Hcb. destruct (kltb c a) eqn:E; [|done].
  destruct (kltb a b) eqn:Eab.
  - by rewrite (kltb_trans _ _ _ E Eab) in Hcb.
  - rewrite (kltb_total _ _ Eab Hba) in E. congruence.
Qed.

#[export] Instance kltb_strict {A} `{Ord A} : StrictLt (@kltb A _).
Proof. split; [apply kltb_asym|apply kltb_le_trans]. Qed.

Section authority_max.
Context {A : Type} (f : A -> Authority).

Definition authority_max (start : Authority) (l : list A) : Authority :=
  foldl (fun best x => raise_authority best (f x)) start l.

Lemma raise_ge best c : kltb (raise_authority best c) best = false /\ kltb (raise_authority best c) c = false.
Proof.
  unfold raise_authority. destruct (kltb best c) eqn:E.
  - split; [by apply kltb_asym|apply kltb_irrefl].
  - split; [apply kltb_irrefl|done].
Qed.

Lemma authority_max_ge start l : kltb (authority_max start l) start = false.
Proof.
  revert start. induction l as [|x l IH]; intros start; [apply kltb_irrefl|].
  cbn. eapply kltb_le_trans; [apply (raise_ge start (f x))|apply IH].
Qed.

Lemma authority_max_bound start l x : x ∈ l -> kltb (authority_max start l) (f x) = false.
Proof.
  revert start. induction l as [|y l IH]; intros start; [by inversion 1|].
  rewrite elem_of_cons. intros [->|Hx]; cbn; [|by apply IH].
  eapply kltb_le_trans; [apply (raise_ge start (f y))|apply authority_max_ge].
Qed.

Lemma authority_max_attained start l :
  authority_max start l = start \/ exists x, x ∈ l /\ f x = authority_max start l.
Proof.
  revert start. induction l as [|y l IH]; intros start; [by left|]. cbn.
  destruct (IH (raise_authority start (f y))) as [E|(x & Hx & E)].
  - unfold authority_max in E |- *. rewrite E. unfold raise_authority.
    destruct (kltb start (f y)); [right|by left]. exists y. split; [by left|done].
  - right. exists x. split; [by right|done].
Qed.

Lemma authority_max_front front l :
  front ∈ l -> exists x, x ∈ l /\ f x = authority_max (f front) l.
Proof. intros Hf. destruct (authority_max_attained (f front) l) as [E|E]; eauto. Qed.
End authority_max.

(** The records [collect_claims] considers. *)
Definition eligible {T} (records : ordmap SourceIncarnationKey (Folded T)) (policy : ValidationPolicy.t)
    (accept : SourceIncarnationKey -> Folded T -> bool) (meta : Attestation) : Prop :=
  exists owner record, (owner, record) ∈ records /\ participates (fd_meta record) policy = true /\
    accept owner record = true /\ meta = fd_meta record.

#[export] Instance top_order_strict : StrictLt top_order.
Proof.
  assert (Hk : forall a b, top_order a b =
    kltb (att_owner a, att_generation a) (att_owner b, att_generation b)).
  { intros a b. unfold top_order, kltb, keqb. cbn -[SourceIncarnationKey_ord]. unfold lex_cmp. cbn -[SourceIncarnationKey_ord].
    destruct (cmp (att_owner a) (att_owner b)); [|done..].
    cbn -[SourceIncarnationKey_ord]. unfold Z.ltb. done. }
  split; intros a b; [|intros c]; rewrite !Hk; [apply kltb_asym|apply kltb_le_trans].
Qed.

Section collect.
Context {T : Type} (records : ordmap SourceIncarnationKey (Folded T)) (policy : ValidationPolicy.t)
  (accept : SourceIncarnationKey -> Folded T -> bool).
#[local] Abbreviation claims := (collect_claims records policy accept).
#[local] Abbreviation Elig := (eligible records policy accept).

Definition elig_list : list Attestation := (fun entry => fd_meta entry.2) <$>
  filter (fun entry => participates (fd_meta entry.2) policy && accept entry.1 entry.2 = true) records.

Lemma elig_list_spec meta : meta ∈ elig_list <-> Elig meta.
Proof.
  unfold elig_list, eligible. rewrite list_elem_of_fmap. split.
  - intros ([o r] & -> & Hin). apply list_elem_of_filter in Hin as [Hb Hin].
    apply andb_prop in Hb as [? ?]. by exists o, r.
  - intros (o & r & Hin & Hp & Ha & ->). exists (o, r). split; [done|].
    apply list_elem_of_filter. cbn. by rewrite Hp, Ha.
Qed.

Lemma collect_unfold : claims =
  match elig_list with
  | [] => empty_claim_set
  | front :: _ =>
    let authority := authority_max att_authority (att_authority front) elig_list in
    let lower := filter (fun meta => keqb (att_authority meta) authority = false) elig_list in
    mkClaimSet true authority
      (combine_validation (existsb att_asserted_in_lifetime elig_list)
         (forallb att_asserted_in_lifetime elig_list))
      (std_sort top_order (filter (fun meta => keqb (att_authority meta) authority = true) elig_list))
      (std_sort lower_order lower) (wrap32 (zlen lower))
  end.
Proof. done. Qed.

Lemma collect_any : cs_any claims = true <-> exists meta, Elig meta.
Proof.
  rewrite collect_unfold. setoid_rewrite <- elig_list_spec. destruct elig_list as [|m l]; cbn.
  - split; [done|]. intros [m Hm]. inversion Hm.
  - split; [|done]. intros _. exists m. by left.
Qed.

Lemma collect_none : cs_any claims = false <-> forall meta, ~ Elig meta.
Proof.
  pose proof collect_any as Ha. destruct (cs_any claims); split; [done|..|done].
  - intros Hn. destruct (proj1 Ha eq_refl) as [m Hm]. by destruct (Hn m).
  - intros _ m Hm. by discriminate (proj2 Ha (ex_intro _ m Hm)).
Qed.

Lemma collect_bound meta : Elig meta -> kltb (cs_authority claims) (att_authority meta) = false.
Proof.
  rewrite <- elig_list_spec, collect_unfold. destruct elig_list as [|m l] eqn:E; [by inversion 1|].
  rewrite <- E. intros Hm. cbn. by apply authority_max_bound.
Qed.

Lemma collect_attained :
  cs_any claims = true -> exists meta, Elig meta /\ att_authority meta = cs_authority claims.
Proof.
  setoid_rewrite <- elig_list_spec. rewrite collect_unfold. destruct elig_list as [|m l] eqn:E; [done|].
  rewrite <- E. intros _. cbn. apply authority_max_front. rewrite E. by left.
Qed.

Lemma collect_top meta :
  meta ∈ cs_top claims <-> Elig meta /\ att_authority meta = cs_authority claims.
Proof.
  rewrite <- elig_list_spec, collect_unfold. destruct elig_list as [|m l] eqn:E; [cbn; split; [by inversion 1|intros [H _]; inversion H]|].
  rewrite <- E. cbn. rewrite std_sort_perm, list_elem_of_filter, keqb_eq. naive_solver.
Qed.
End collect.

(** ** Winning registrations *)

Section winner.
Context {T : Type}.
Implicit Types (l : list (SourceIncarnationKey * Folded T)).

(** [a] is at least as good a choice as [b]. *)
Definition beats (a b : SourceIncarnationKey * Folded T) : Prop :=
  kltb (att_authority (fd_meta b.2)) (att_authority (fd_meta a.2)) = true \/
  (att_authority (fd_meta b.2) = att_authority (fd_meta a.2) /\ kltb b.1 a.1 = false).

Lemma beats_refl a : beats a a.
Proof. right. split; [done|apply kltb_irrefl]. Qed.

Lemma beats_trans a b c : beats a b -> beats b c -> beats a c.
Proof.
  intros [H1|[E1 H1]] [H2|[E2 H2]].
  - left. by eapply kltb_trans.
  - left. by rewrite E2.
  - left. by rewrite <- E1.
  - right. split; [congruence|]. by eapply kltb_le_trans.
Qed.

Lemma winner_step_beats c e :
  exists w, winner_step (Some c) e = Some w /\ (w = c \/ w = e) /\ beats w c /\ beats w e.
Proof.
  destruct c as [ck cr], e as [ek er]. cbn.
  destruct (kltb (att_authority (fd_meta cr)) (att_authority (fd_meta er))) eqn:E1; cbn.
  - eexists. split; [done|]. split; [by right|]. split; [by left|apply beats_refl].
  - destruct (keqb (att_authority (fd_meta cr)) (att_authority (fd_meta er))) eqn:E2; cbn.
    + apply keqb_eq in E2. destruct (kltb ek ck) eqn:E3; eexists; (split; [done|]).
      * split; [by right|]. split; [|apply beats_refl]. right. cbn. split; [done|by apply kltb_asym].
      * split; [by left|]. split; [apply beats_refl|]. by right.
    + eexists; (split; [done|]). split; [by left|]. split; [apply beats_refl|]. left. cbn.
      destruct (kltb (att_authority (fd_meta er)) (att_authority (fd_meta cr))) eqn:E4; [done|].
      rewrite (kltb_total _ _ E1 E4), keqb_refl in E2. done.
Qed.

Lemma winner_fold c l :
  exists w, foldl winner_step (Some c) l = Some w /\ w ∈ c :: l /\ forall e, e ∈ c :: l -> beats w e.
Proof.
  revert c. induction l as [|e l IH]; intros c.
  - exists c. split; [done|]. split; [by left|]. intros e He.
    apply list_elem_of_singleton in He as ->. apply beats_refl.
  - destruct (winner_step_beats c e) as (w1 & Hstep & Hor & Hc & He). cbn [foldl]. rewrite Hstep.
    destruct (IH w1) as (w & Hw & Hin & Hall). exists w. split; [done|]. split.
    + rewrite elem_of_cons in Hin. destruct Hin as [->|Hin]; [|by do 2 right].
      destruct Hor as [->| ->]; [by left|right; by left].
    + assert (Hw1 : beats w w1) by (apply Hall; by left).
      intros x. rewrite !elem_of_cons. intros [->|[->|Hx]].
      * by eapply beats_trans.
      * by eapply beats_trans.
      * apply Hall. by right.
Qed.

Lemma winner_spec l w :
  foldl winner_step None l = Some w -> w ∈ l /\ forall e, e ∈ l -> beats w e.
Proof.
  destruct l as [|c l]; [done|]. cbn [foldl]. cbn [winner_step].
  destruct (winner_fold c l) as (w' & -> & Hin & Hall). intros [= ->]. done.
Qed.

Lemma winner_some l : l ≠ [] -> exists w, foldl winner_step None l = Some w.
Proof.
  destruct l as [|c l]; [done|]. intros _. cbn [foldl winner_step].
  destruct (winner_fold c l) as (w & Hw & _). eauto.
Qed.
End winner.

(** ** Object sides *)

(** A live claim of one polarity about a side, at its current incarnation. *)
Definition live_claim (state : RegistryState) (policy : ValidationPolicy.t) (subject : ObjectSideRef)
    (attached : bool) (owner : SourceIncarnationKey) (record : Folded SubjectValue) : Prop :=
  exists found, map_find subject (rs_subject_records state) = Some found /\ (owner, record) ∈ found /\
    session_is_fenced state owner = false /\ participates (fd_meta record) policy = true /\
    su_incarnation (fd_value record) = object_incarnation_of state (side_object subject) /\
    su_attached (fd_value record) = attached.

Lemma subject_accept_true state policy current attached owner record :
  subject_accept state policy current attached owner record = true <->
  session_is_fenced state owner = false /\ participates (fd_meta record) policy = true /\
  su_incarnation (fd_value record) = current /\ su_attached (fd_value record) = attached.
Proof.
  unfold subject_accept, subject_record_live.
  destruct (session_is_fenced state owner), (participates _ policy); cbn;
    rewrite ?andb_true_iff, ?Z.eqb_eq, ?eqb_true_iff; naive_solver.
Qed.

Lemma eligible_live state policy subject attached found meta :
  map_find subject (rs_subject_records state) = Some found ->
  eligible found policy
    (subject_accept state policy (object_incarnation_of state (side_object subject)) attached) meta <->
  exists owner record, live_claim state policy subject attached owner record /\ meta = fd_meta record.
Proof.
  intros Hf. unfold eligible, live_claim. setoid_rewrite subject_accept_true. rewrite Hf. split.
  - intros (o & r & ? & ? & (? & ? & ? & ?) & ->). exists o, r. split; [|done]. exists found. naive_solver.
  - intros (o & r & (? & [= <-] & ? & ? & ? & ? & ?) & ->). exists o, r. naive_solver.
Qed.

Lemma std_unique_elem {A} `{Ord A} (l : list A) x : x ∈ std_unique keqb l <-> x ∈ l.
Proof.
  induction l as [|y l IH]; cbn [std_unique]; [done|].
  destruct (std_unique keqb l) as [|z r].
  - rewrite !elem_of_cons, <- IH. done.
  - destruct (keqb y z) eqn:E; rewrite !elem_of_cons, <- IH, elem_of_cons; [|done].
    apply keqb_eq in E as ->. naive_solver.
Qed.

Lemma std_unique_sorted {A} `{Ord A} (l : list A) :
  StronglySorted (not_after kltb) l -> StronglySorted (fun a b => kltb a b = true) (std_unique keqb l).
Proof.
  induction 1 as [|y l Hl IH Hall]; cbn [std_unique]; [constructor|].
  pose proof (std_unique_elem l) as Hel.
  destruct (std_unique keqb l) as [|z r]; [repeat constructor|].
  assert (Hyz : kltb z y = false).
  { rewrite Forall_forall in Hall. apply Hall, Hel. by left. }
  inversion IH as [|? ? Hr Hz]; subst.
  destruct (keqb y z) eqn:E; [apply keqb_eq in E as ->; by constructor|].
  assert (Hlt : kltb y z = true).
  { destruct (kltb y z) eqn:E'; [done|]. rewrite (kltb_total _ _ E' Hyz), keqb_refl in E. done. }
  constructor; [done|]. constructor; [done|].
  eapply Forall_impl; [exact Hz|]. intros w Hw. by eapply kltb_trans.
Qed.

(** The ports named by the winning attachment claims of a side. *)
Definition named_port (state : RegistryState) (policy : ValidationPolicy.t) (subject : ObjectSideRef)
    (authority : Authority) (port : PortRef) : Prop :=
  exists owner record, live_claim state policy subject true owner record /\
    att_authority (fd_meta record) = authority /\ su_port (fd_value record) = port.

(** [authority] is the highest authority of the live claims of one polarity. *)
Definition top_claim (state : RegistryState) (policy : ValidationPolicy.t) (subject : ObjectSideRef)
    (attached : bool) (authority : Authority) : Prop :=
  (exists owner record, live_claim state policy subject attached owner record /\
     att_authority (fd_meta record) = authority) /\
  (forall owner record, live_claim state policy subject attached owner record ->
     kltb authority (att_authority (fd_meta record)) = false).

(** Every live claim of one polarity is strictly below [authority]. *)
Definition all_below (state : RegistryState) (policy : ValidationPolicy.t) (subject : ObjectSideRef)
    (attached : bool) (authority : Authority) : Prop :=
  forall owner record, live_claim state policy subject attached owner record ->
    kltb (att_authority (fd_meta record)) authority = true.

(** What a side may be reported as, in terms of its live claims alone. *)
Inductive side_spec (state : RegistryState) (policy : ValidationPolicy.t) (subject : ObjectSideRef)
    : PortAttachmentState.t -> list PortRef -> Prop :=
  | side_unknown :
      (object_exists state (side_object subject) = false \/
       forall attached owner record, ~ live_claim state policy subject attached owner record) ->
      side_spec state policy subject PortAttachmentState.Unknown []
  | side_empty authority :
      object_exists state (side_object subject) = true ->
      top_claim state policy subject false authority ->
      all_below state policy subject true authority ->
      side_spec state policy subject PortAttachmentState.Empty []
  | side_tie authority :
      object_exists state (side_object subject) = true ->
      top_claim state policy subject true authority ->
      top_claim state policy subject false authority ->
      side_spec state policy subject PortAttachmentState.Conflicting []
  | side_attached authority port :
      object_exists state (side_object subject) = true ->
      top_claim state policy subject true authority ->
      all_below state policy subject false authority ->
      (forall other, named_port state policy subject authority other <-> other = port) ->
      side_spec state policy subject PortAttachmentState.Attached [port]
  | side_double authority ports first second :
      object_exists state (side_object subject) = true ->
      top_claim state policy subject true authority ->
      all_below state policy subject false authority ->
      (forall port, port ∈ ports <-> named_port state policy subject authority port) ->
      StronglySorted (fun a b => kltb a b = true) ports ->
      first ∈ ports -> second ∈ ports -> first <> second ->
      side_spec state policy subject PortAttachmentState.Conflicting ports.

Section subject.
Context (state : RegistryState) (policy : ValidationPolicy.t) (subject : ObjectSideRef)
  (found : ordmap SourceIncarnationKey (Folded SubjectValue))
  (Hfound : map_find subject (rs_subject_records state) = Some found).

#[local] Abbreviation current := (object_incarnation_of state (side_object subject)).
#[local] Abbreviation set b := (collect_claims found policy (subject_accept state policy current b)).

Lemma set_top b : cs_any (set b) = true -> top_claim state policy subject b (cs_authority (set b)).
Proof using Hfound.
  intros Hany. split.
  - destruct (collect_attained _ _ _ Hany) as (m & Hm & Hauth).
    apply (eligible_live _ _ _ _ _ _ Hfound) in Hm as (o & r & Hl & ->). eauto.
  - intros o r Hl. apply (collect_bound found policy). apply (eligible_live _ _ _ _ _ _ Hfound). eauto.
Qed.

Lemma set_none b : cs_any (set b) = false -> forall owner record, ~ live_claim state policy subject b owner record.
Proof using Hfound.
  intros Hn o r Hl. apply (proj1 (collect_none _ _ _) Hn (fd_meta r)).
  apply (eligible_live _ _ _ _ _ _ Hfound). eauto.
Qed.

Lemma set_below b authority :
  cs_any (set b) = false \/ kltb (cs_authority (set b)) authority = true ->
  all_below state policy subject b authority.
Proof using Hfound.
  intros [Hn|Hlt] o r Hl; [by destruct (set_none b Hn o r)|].
  assert (Hany : cs_any (set b) = true).
  { apply collect_any. exists (fd_meta r). apply (eligible_live _ _ _ _ _ _ Hfound). eauto. }
  destruct (set_top b Hany) as [_ Hb]. specialize (Hb o r Hl).
  destruct (kltb (att_authority (fd_meta r)) authority) eqn:E; [done|].
  rewrite (kltb_le_trans _ _ _ E Hb) in Hlt. done.
Qed.

Lemma named_elem authority port :
  port ∈ std_unique keqb (std_sort kltb ((fun entry => su_port (fd_value entry.2)) <$>
    filter (fun entry => subject_accept state policy current true entry.1 entry.2
                         && keqb (att_authority (fd_meta entry.2)) authority = true) found)) <->
  named_port state policy subject authority port.
Proof using Hfound.
  rewrite std_unique_elem, std_sort_perm, list_elem_of_fmap. unfold named_port, live_claim. split.
  - intros ([o r] & -> & Hin). apply list_elem_of_filter in Hin as [Hb Hin].
    apply andb_prop in Hb as [Ha Hk]. apply subject_accept_true in Ha. apply keqb_eq in Hk.
    exists o, r. split; [|done]. exists found. naive_solver.
  - intros (o & r & (f & Hf & Hin & Hl) & Hauth & <-). exists (o, r). split; [done|].
    rewrite Hfound in Hf. injection Hf as <-.
    apply list_elem_of_filter. split; [|done]. apply andb_true_intro. split.
    + apply subject_accept_true. naive_solver.
    + by apply keqb_eq.
Qed.

(** The last branch of [derive_subject]: attachment wins. *)
Lemma attached_branch authority ports :
  object_exists state (side_object subject) = true ->
  top_claim state policy subject true authority ->
  all_below state policy subject false authority ->
  (forall port, port ∈ ports <-> named_port state policy subject authority port) ->
  StronglySorted (fun a b => kltb a b = true) ports ->
  side_spec state policy subject
    (if 1 <? zlen ports then PortAttachmentState.Conflicting else PortAttachmentState.Attached) ports.
Proof using.
  intros Hex Htop Hbelow Hports Hsorted.
  destruct (proj1 Htop) as (o & r & Hl & Hauth).
  assert (Hin : su_port (fd_value r) ∈ ports) by (apply Hports; by exists o, r).
  destruct ports as [|p [|q rest]]; [inversion Hin|..].
  - cbn. apply (side_attached _ _ _ authority p); [done..|]. intros other. rewrite <- Hports.
    apply list_elem_of_singleton.
  - unfold zlen. cbn [length]. destruct (Z.ltb_spec 1 (Z.of_nat (S (S (length rest))))); [|lia].
    apply (side_double _ _ _ authority _ p q); [done..|by left|right; by left|].
    inversion Hsorted as [|? ? _ Hall]; subst. inversion Hall; subst. by apply kltb_neq.
Qed.
End subject.

Lemma derive_subject_meets_spec state subject policy :
  let d := derive_subject state subject policy in
  side_spec state policy subject (sj_state d) (sj_ports d).
Proof.
  unfold derive_subject. destruct (object_exists state (side_object subject)) eqn:Hex; cbn [negb];
    [|cbn; apply side_unknown; by left].
  destruct (map_find subject (rs_subject_records state)) as [found|] eqn:Hf.
  2: { cbn. apply side_unknown. right. intros b o r (f & Hf' & _). congruence. }
  unfold derive_subject_of.
  set (current := object_incarnation_of state (side_object subject)).
  pose proof (set_top state policy subject found Hf) as Htop.
  pose proof (set_none state policy subject found Hf) as Hnone.
  pose proof (set_below state policy subject found Hf) as Hbelow.
  pose proof (Htop true) as Ht. pose proof (Htop false) as Hd.
  pose proof (Hnone true) as Hnt. pose proof (Hnone false) as Hnd.
  pose proof (Hbelow true) as Hbt. pose proof (Hbelow false) as Hbd.
  fold current in Ht, Hd, Hnt, Hnd, Hbt, Hbd.
  set (att := collect_claims found policy (subject_accept state policy current true)) in *.
  set (det := collect_claims found policy (subject_accept state policy current false)) in *.
  clearbody att det. clear Htop Hnone Hbelow. destruct (cs_any att) eqn:Ea, (cs_any det) eqn:Ed; cbn [negb andb orb].
  - destruct (kltb (cs_authority det) (cs_authority att)) eqn:E1.
    + rewrite (kltb_asym _ _ E1). cbn.
      apply attached_branch with (authority := cs_authority att); auto.
      * intros p. by apply named_elem.
      * apply std_unique_sorted, std_sort_sorted, _.
    + destruct (kltb (cs_authority att) (cs_authority det)) eqn:E2; cbn.
      * apply side_empty with (authority := cs_authority det); auto.
      * apply side_tie with (authority := cs_authority att); auto.
        rewrite (kltb_total _ _ E2 E1). auto.
  - cbn. apply attached_branch with (authority := cs_authority att); auto.
    + intros p. by apply named_elem.
    + apply std_unique_sorted, std_sort_sorted, _.
  - cbn. apply side_empty with (authority := cs_authority det); auto.
  - cbn. apply side_unknown. right. intros [] o r; auto.
Qed.

Lemma top_claim_unique state policy subject b a1 a2 :
  top_claim state policy subject b a1 -> top_claim state policy subject b a2 -> a1 = a2.
Proof.
  intros [(o1 & r1 & Hl1 & <-) Hb1] [(o2 & r2 & Hl2 & <-) Hb2].
  apply kltb_total; eauto.
Qed.

Lemma top_below_absurd state policy subject b a1 a2 :
  top_claim state policy subject b a1 -> all_below state policy subject b a2 -> kltb a1 a2 = true.
Proof. intros [(o & r & Hl & <-) _] Hb. eauto. Qed.

(** The specification determines the verdict. *)
Lemma side_spec_functional state policy subject v1 p1 v2 p2 :
  side_spec state policy subject v1 p1 -> side_spec state policy subject v2 p2 ->
  v1 = v2 /\ forall port, port ∈ p1 <-> port ∈ p2.
Proof.
  assert (Hno : forall b a, top_claim state policy subject b a ->
    (object_exists state (side_object subject) = false \/
     forall attached owner record, ~ live_claim state policy subject attached owner record) ->
    object_exists state (side_object subject) = true -> False).
  { intros b a [(o & r & Hl & _) _] [He|Hn] Hex; [congruence|by eapply Hn]. }
  assert (Htb : forall a1 a2, top_claim state policy subject true a1 -> all_below state policy subject false a1 ->
            top_claim state policy subject false a2 -> all_below state policy subject true a2 -> False).
  { intros a1 a2 H1 H2 H3 H4. pose proof (top_below_absurd _ _ _ _ _ _ H1 H4) as Hl.
    pose proof (top_below_absurd _ _ _ _ _ _ H3 H2) as Hl2.
    by rewrite (kltb_asym _ _ Hl) in Hl2. }
  assert (Hirr : forall b a, top_claim state policy subject b a -> all_below state policy subject b a -> False).
  { intros b a H1 H2. pose proof (top_below_absurd _ _ _ _ _ _ H1 H2) as Hl. by rewrite kltb_irrefl in Hl. }
  intros [U1|a1 E1 T1 B1|a1 E1 T1 D1|a1 q1 E1 T1 B1 N1|a1 l1 x1 y1 E1 T1 B1 N1 S1 X1 Y1 Hne1]
         [U2|a2 E2 T2 B2|a2 E2 T2 D2|a2 q2 E2 T2 B2 N2|a2 l2 x2 y2 E2 T2 B2 N2 S2 X2 Y2 Hne2];
    try done; try solve [exfalso; eauto]; try solve
    [ exfalso; match goal with
      | Ha : top_claim _ _ _ ?b ?x, Hb : top_claim _ _ _ ?b ?y |- _ =>
          pose proof (top_claim_unique _ _ _ _ _ _ Ha Hb); subst; eauto
      end ].
  all: pose proof (top_claim_unique _ _ _ _ _ _ T1 T2); subst a2.
  - split; [done|]. intros x. by rewrite !list_elem_of_singleton, <- N1, <- N2.
  - exfalso. apply Hne2. apply N2, N1 in X2, Y2. congruence.
  - exfalso. apply Hne1. apply N1, N2 in X1, Y1. congruence.
  - split; [done|]. intros x. by rewrite N1, N2.
Qed.

(** ** Lifecycle *)

Lemma saw_true action top : saw action top = true <-> exists c, c ∈ top /\ ca_action c = action.
Proof.
  unfold saw. rewrite existsb_exists. setoid_rewrite bool_decide_eq_true.
  setoid_rewrite <- list_elem_of_In. done.
Qed.

Lemma existsb_perm {A} (f : A -> bool) (l k : list A) : l ≡ₚ k -> existsb f l = existsb f k.
Proof.
  induction 1 as [|x l k _ IH|x y l|l k j _ IH1 _ IH2]; cbn; [done| | |by rewrite IH1].
  - by rewrite IH.
  - destruct (f x), (f y); done.
Qed.

(** The ruling does not depend on the order of the candidates. *)
#[export] Instance lifecycle_ruling_proper : Proper ((≡ₚ) ==> (=)) lifecycle_ruling.
Proof. intros l k Hp. unfold lifecycle_ruling, saw. by rewrite !(existsb_perm _ _ _ Hp). Qed.

(** Retirement is sticky: it wins over every other declaration of its
    authority except a reincarnation. *)
Lemma ruling_retired top :
  saw LifecycleAction.Retired top = true ->
  (forall c, c ∈ top -> ca_from_reincarnation c = false) ->
  lifecycle_ruling top = (LifecycleAction.Retired, false).
Proof.
  intros Hr Hn. unfold lifecycle_ruling. rewrite Hr.
  assert (existsb (fun c => bool_decide (ca_action c = LifecycleAction.Present)
                            && ca_from_reincarnation c) top = false) as ->.
  { apply not_true_iff_false. rewrite existsb_exists. intros (c & Hc & Hb).
    apply andb_prop in Hb as [_ Hb]. rewrite Hn in Hb; [done|]. by apply list_elem_of_In. }
  rewrite andb_false_r. cbn. by destruct (_ <=? 1).
Qed.

(** Declarations of one authority conflict exactly when one quarantines, none
    retires, and another says something else. *)
Lemma ruling_conflict top :
  (lifecycle_ruling top).2 = true <->
  saw LifecycleAction.Retired top = false /\ saw LifecycleAction.Quarantined top = true /\
  (saw LifecycleAction.Present top = true \/ saw LifecycleAction.Removed top = true).
Proof.
  unfold lifecycle_ruling. generalize (existsb (fun c => bool_decide (ca_action c = LifecycleAction.Present)
    && ca_from_reincarnation c) top).
  intros []; destruct (saw LifecycleAction.Retired top), (saw LifecycleAction.Removed top),
    (saw LifecycleAction.Quarantined top), (saw LifecycleAction.Present top); cbn; naive_solver.
Qed.

Lemma best_authority_max candidates c :
  c ∈ candidates -> kltb (best_authority candidates) (ca_authority c) = false.
Proof.
  unfold best_authority. destruct candidates as [|f l]; [by inversion 1|].
  exact (authority_max_bound ca_authority (ca_authority f) (f :: l) c).
Qed.

Lemma best_authority_attained candidates :
  candidates ≠ [] -> exists c, c ∈ candidates /\ ca_authority c = best_authority candidates.
Proof.
  destruct candidates as [|f l]; [done|]. intros _.
  apply (authority_max_front ca_authority f (f :: l)). by left.
Qed.
