(* ===== verification/Log.v ===== *)
(** * The interface between the registry and its durable log

    [Registry] never looks inside [Store]: it appends records, replays them in
    order at open, and rewrites them at compaction.  [AppendLog] is what it
    relies on.  [Ingest.v], [Session.v] and [Recovery.v] are written and proved
    against this interface; [list_log] implements it in memory. *)
From S2P Require Import Prelude OrdMap Types.
#[local] Open Scope Z_scope.

Abbreviation LogRecord := (RecordKind.t * list Z)%type.

Class AppendLog (S : Type) := {
  (** The records a replay of the log would visit. *)
  log_records : S -> list LogRecord;
  (** [Store::VisitRecords]: the log afterwards, the records handed to a visitor
      that never stops, and whether the visit succeeded. *)
  log_visit : S -> S * (list LogRecord * Outcome unit);
  (** [Store::Append]: the log afterwards, and whether it succeeded. *)
  log_append : RecordKind.t -> list Z -> S -> S * Outcome unit;
  (** [Store::Rewrite]. *)
  log_rewrite : list LogRecord -> S -> S * Outcome unit;
  (** [Store::Close]. *)
  log_close : S -> S;
  (** A successful visit sees every record and keeps them. *)
  log_visit_ok : forall s s' records,
    log_visit s = (s', (records, inl tt)) -> records = log_records s /\ log_records s' = log_records s;
  (** A successful append adds exactly its record at the end. *)
  log_append_ok : forall kind payload s s',
    log_append kind payload s = (s', inl tt) -> log_records s' = log_records s ++ [(kind, payload)];
  (** A failed append adds nothing. *)
  log_append_failed : forall kind payload s s' e,
    log_append kind payload s = (s', inr e) -> log_records s' = log_records s;
  (** A successful rewrite replaces the log. *)
  log_rewrite_ok : forall records s s',
    log_rewrite records s = (s', inl tt) -> log_records s' = records;
  (** A failed rewrite leaves the old log or the complete new one. *)
  log_rewrite_failed : forall records s s' e,
    log_rewrite records s = (s', inr e) -> log_records s' = log_records s \/ log_records s' = records;
  (** Closing keeps the records. *)
  log_close_records : forall s, log_records (log_close s) = log_records s;
}.

(** A log in memory that refuses records above a size, the way [Store::Append]
    refuses a payload above [max_record_bytes]. *)
Record ListLog := mkListLog { ll_max_record_bytes : Z; ll_closed : bool; ll_records : list LogRecord }.

Definition list_log_append (kind : RecordKind.t) (payload : list Z) (s : ListLog) : ListLog * Outcome unit :=
  if ll_closed s then (s, inr (mkError ErrorCode.Closed "the store is closed"%string))
  else if ll_max_record_bytes s <? zlen payload
  then (s, inr (mkError ErrorCode.CapacityExceeded "record exceeds the limit"%string))
  else (mkListLog (ll_max_record_bytes s) false (ll_records s ++ [(kind, payload)]), inl tt).

Definition list_log_rewrite (records : list LogRecord) (s : ListLog) : ListLog * Outcome unit :=
  if ll_closed s then (s, inr (mkError ErrorCode.Closed "the store is closed"%string))
  else (mkListLog (ll_max_record_bytes s) false records, inl tt).

Definition list_log_visit (s : ListLog) : ListLog * (list LogRecord * Outcome unit) :=
  (s, if ll_closed s then ([], inr (mkError ErrorCode.Closed "the store is closed"%string)) else (ll_records s, inl tt)).

#[export] Program Instance list_log : AppendLog ListLog := {|
  log_records := ll_records;
  log_visit := list_log_visit;
  log_append := list_log_append;
  log_rewrite := list_log_rewrite;
  log_close s := mkListLog (ll_max_record_bytes s) true (ll_records s);
|}.
Next Obligation. intros s s' records. unfold list_log_visit. case_match; [done|]. by intros [= <- <-]. Qed.
Next Obligation. intros kind payload s s'. unfold list_log_append. do 2 (case_match; [done|]). by intros [= <-]. Qed.
Next Obligation. intros kind payload s s' e. unfold list_log_append. do 2 (case_match; [by intros [= <- _]|]). done. Qed.
Next Obligation. intros records s s'. unfold list_log_rewrite. case_match; [done|]. by intros [= <-]. Qed.
Next Obligation. intros records s s' e. unfold list_log_rewrite. case_match; [intros [= <- _]; by left|done]. Qed.
Next Obligation. done. Qed.
