(* ===== verification/Digest.v ===== *)
(** * SHA-256 and CRC-32C ([src/digest.cpp])

    Both checksums as the source computes them, on 32-bit words kept in [Z].
    [Sha256] is the incremental hasher with its 64-byte buffer; the lemmas relate
    it to the same steps on the whole padded message, which [Fips.v] relates to
    the standard.  [Crc32c] is
    table driven; the theorems relate it to the shift register it tabulates
    and show which damage it detects. *)
From S2P Require Import Prelude.
#[local] Open Scope Z_scope.

(** ** 32-bit words *)

Definition rotate_right (value count : Z) : Z :=
  Z.lor (Z.shiftr value count) (wrap32 (Z.shiftl value (32 - count))).

Definition word_not (value : Z) : Z := Z.lxor value 0xFFFFFFFF.

(** Four bytes, most significant first. *)
Definition be_word (b0 b1 b2 b3 : Z) : Z :=
  Z.lor (Z.lor (Z.lor (Z.shiftl b0 24) (Z.shiftl b1 16)) (Z.shiftl b2 8)) b3.

Definition word_bytes (w : Z) : list Z :=
  [Z.land (Z.shiftr w 24) 255; Z.land (Z.shiftr w 16) 255; Z.land (Z.shiftr w 8) 255; Z.land w 255].

(** ** SHA-256 *)

(** In decimal, with the source's hexadecimal spelling beside each row. *)
Definition kSha256RoundConstants : list Z := [
  1116352408; 1899447441; 3049323471; 3921009573;  (* 428a2f98 71374491 b5c0fbcf e9b5dba5 *)
  961987163; 1508970993; 2453635748; 2870763221;  (* 3956c25b 59f111f1 923f82a4 ab1c5ed5 *)
  3624381080; 310598401; 607225278; 1426881987;  (* d807aa98 12835b01 243185be 550c7dc3 *)
  1925078388; 2162078206; 2614888103; 3248222580;  (* 72be5d74 80deb1fe 9bdc06a7 c19bf174 *)
  3835390401; 4022224774; 264347078; 604807628;  (* e49b69c1 efbe4786 0fc19dc6 240ca1cc *)
  770255983; 1249150122; 1555081692; 1996064986;  (* 2de92c6f 4a7484aa 5cb0a9dc 76f988da *)
  2554220882; 2821834349; 2952996808; 3210313671;  (* 983e5152 a831c66d b00327c8 bf597fc7 *)
  3336571891; 3584528711; 113926993; 338241895;  (* c6e00bf3 d5a79147 06ca6351 14292967 *)
  666307205; 773529912; 1294757372; 1396182291;  (* 27b70a85 2e1b2138 4d2c6dfc 53380d13 *)
  1695183700; 1986661051; 2177026350; 2456956037;  (* 650a7354 766a0abb 81c2c92e 92722c85 *)
  2730485921; 2820302411; 3259730800; 3345764771;  (* a2bfe8a1 a81a664b c24b8b70 c76c51a3 *)
  3516065817; 3600352804; 4094571909; 275423344;  (* d192e819 d6990624 f40e3585 106aa070 *)
  430227734; 506948616; 659060556; 883997877;  (* 19a4c116 1e376c08 2748774c 34b0bcb5 *)
  958139571; 1322822218; 1537002063; 1747873779;  (* 391c0cb3 4ed8aa4a 5b9cca4f 682e6ff3 *)
  1955562222; 2024104815; 2227730452; 2361852424;  (* 748f82ee 78a5636f 84c87814 8cc70208 *)
  2428436474; 2756734187; 3204031479; 3329325298  (* 90befffa a4506ceb bef9a3f7 c67178f2 *) ].

(** The eight working words [a] to [h], and the hash state. *)
Record ShaWords := mkWords { wa : Z; wb : Z; wc : Z; wd : Z; we : Z; wf : Z; wg : Z; wh : Z }.

Definition kSha256InitialState : ShaWords :=
  (* 6a09e667 bb67ae85 3c6ef372 a54ff53a 510e527f 9b05688c 1f83d9ab 5be0cd19 *)
  mkWords 1779033703 3144134277 1013904242 2773480762 1359893119 2600822924 528734635 1541459225.

(** The first sixteen words of the schedule. *)
Fixpoint block_words (block : list Z) : list Z :=
  match block with
  | b0 :: b1 :: b2 :: b3 :: rest => be_word b0 b1 b2 b3 :: block_words rest
  | _ => []
  end.

(** The next word, from the schedule so far with its newest word first:
    [schedule\[index - k\]] is element [k - 1]. *)
Definition next_word (newest_first : list Z) : Z :=
  let w k := nth (k - 1) newest_first 0 in
  let s0 := Z.lxor (Z.lxor (rotate_right (w 15%nat) 7) (rotate_right (w 15%nat) 18)) (Z.shiftr (w 15%nat) 3) in
  let s1 := Z.lxor (Z.lxor (rotate_right (w 2%nat) 17) (rotate_right (w 2%nat) 19)) (Z.shiftr (w 2%nat) 10) in
  wrap32 (w 16%nat + s0 + w 7%nat + s1).

Fixpoint extend_schedule (n : nat) (newest_first : list Z) : list Z :=
  match n with
  | O => newest_first
  | S n' => extend_schedule n' (next_word newest_first :: newest_first)
  end.

Definition sha_schedule (block : list Z) : list Z :=
  rev (extend_schedule 48 (rev (block_words block))).

Definition sha_round (s : ShaWords) (constant_word : Z * Z) : ShaWords :=
  let 'mkWords a b c d e f g h := s in
  let s1 := Z.lxor (Z.lxor (rotate_right e 6) (rotate_right e 11)) (rotate_right e 25) in
  let choose := Z.lxor (Z.land e f) (Z.land (word_not e) g) in
  let temp1 := wrap32 (h + s1 + choose + constant_word.1 + constant_word.2) in
  let s0 := Z.lxor (Z.lxor (rotate_right a 2) (rotate_right a 13)) (rotate_right a 22) in
  let majority := Z.lxor (Z.lxor (Z.land a b) (Z.land a c)) (Z.land b c) in
  let temp2 := wrap32 (s0 + majority) in
  mkWords (wrap32 (temp1 + temp2)) a b c (wrap32 (d + temp1)) e f g.

(** [Sha256::compress]. *)
Definition compress (state : ShaWords) (block : list Z) : ShaWords :=
  let s := foldl sha_round state (combine kSha256RoundConstants (sha_schedule block)) in
  mkWords (wrap32 (wa state + wa s)) (wrap32 (wb state + wb s)) (wrap32 (wc state + wc s)) (wrap32 (wd state + wd s))
          (wrap32 (we state + we s)) (wrap32 (wf state + wf s)) (wrap32 (wg state + wg s)) (wrap32 (wh state + wh s)).

(** The hasher.  [sha_buffer] is the used part of [buffer_], so its length is
    [buffer_used_]; the unused part is always overwritten before it is read. *)
Record Sha256 := mkSha256 {
  sha_state : ShaWords;
  sha_buffer : list Z;
  sha_total_bytes : Z;
  sha_finalized : bool;
}.

Definition sha_reset : Sha256 := mkSha256 kSha256InitialState [] 0 false.

(** [while (remaining >= 64)]: the state and the bytes left.  The fuel is the
    number of bytes, and each turn uses one. *)
Fixpoint compress_blocks (fuel : nat) (state : ShaWords) (data : list Z) : ShaWords * list Z :=
  match fuel with
  | O => (state, data)
  | S fuel' =>
      if (64 <=? length data)%nat then compress_blocks fuel' (compress state (take 64 data)) (drop 64 data)
      else (state, data)
  end.

Definition sha_update (data : list Z) (h : Sha256) : Sha256 :=
  if sha_finalized h || (length data =? 0)%nat then h
  else
    let total := wrap64 (sha_total_bytes h + zlen data) in
    let '(state, buffer, rest) :=
      if negb (length (sha_buffer h) =? 0)%nat then
        let want := (64 - length (sha_buffer h))%nat in
        let buffer := (sha_buffer h ++ take want data)%list in
        if (length buffer =? 64)%nat then (compress (sha_state h) buffer, [], drop want data)
        else (sha_state h, buffer, drop want data)
      else (sha_state h, [], data) in
    let '(state, rest) := compress_blocks (length rest) state rest in
    mkSha256 state (if negb (length rest =? 0)%nat then rest else buffer) total false.

Definition be_bytes64 (value : Z) : list Z :=
  (fun index => Z.land (Z.shiftr value (56 - index * 8)) 255) <$> seqZ 0 8.

Definition digest_of (s : ShaWords) : list Z :=
  (word_bytes (wa s) ++ word_bytes (wb s) ++ word_bytes (wc s) ++ word_bytes (wd s)
   ++ word_bytes (we s) ++ word_bytes (wf s) ++ word_bytes (wg s) ++ word_bytes (wh s))%list.

(** [Sha256::finish], whose hasher is not used again. *)
Definition sha_finish (h : Sha256) : list Z :=
  if sha_finalized h then digest_of (sha_state h)
  else
    let bit_length := wrap64 (sha_total_bytes h * 8) in
    let buffer := (sha_buffer h ++ [0x80])%list in
    let '(state, buffer) :=
      if (56 <? length buffer)%nat
      then (compress (sha_state h) (buffer ++ repeat 0 (64 - length buffer))%list, [])
      else (sha_state h, buffer) in
    let block := (buffer ++ repeat 0 (56 - length buffer) ++ be_bytes64 bit_length)%list in
    digest_of (compress state block).

Definition sha256 (data : list Z) : list Z := sha_finish (sha_update data sha_reset).

(** ** CRC-32C *)

Definition crc_poly : Z := 0x82F63B78.

(** [(crc >> 1) ^ (0x82F63B78u & (0u - (crc & 1u)))]. *)
Definition crc_bit (crc : Z) : Z :=
  Z.lxor (Z.shiftr crc 1) (Z.land crc_poly (wrap32 (0 - Z.land crc 1))).

(** The eight shifts of the inner loop of [make_crc32c_table]. *)
Definition crc_byte (crc : Z) : Z := Nat.iter 8 crc_bit crc.

Definition kCrc32cTable : list Z := Eval vm_compute in crc_byte <$> seqZ 0 256.

(** One byte of [Crc32c::update]. *)
Definition crc_step (state raw : Z) : Z :=
  let index := Z.land (Z.lxor state raw) 255 in
  Z.lxor (nth (Z.to_nat index) kCrc32cTable 0) (Z.shiftr state 8).

Definition crc_update (data : list Z) (state : Z) : Z := foldl crc_step state data.

Definition crc32c (data : list Z) : Z := Z.lxor (crc_update data 0xFFFFFFFF) 0xFFFFFFFF.

(** Published test vectors. *)
Example crc32c_check : crc32c (string_bytes "123456789") = 0xE3069283.
Proof. vm_compute. reflexivity. Qed.

Example sha256_abc :
  foldl (fun acc b => acc * 256 + b) 0 (sha256 (string_bytes "abc"))
  = 0xba7816bf8f01cfea414140de5dae2223b00361a396177a9cb410ff61f20015ad.
Proof. vm_compute. reflexivity. Qed.

Example sha256_two_blocks :
  foldl (fun acc b => acc * 256 + b) 0
    (sha256 (string_bytes "abcdbcdecdefdefgefghfghighijhijkijkljklmklmnlmnomnopnopq"))
  = 0x248d6a61d20638b8e5c026930c3e6039a33ce45964ff2167f6ecedd419db06c1.
Proof. vm_compute. reflexivity. Qed.

(** * Facts about SHA-256 *)

(** The hash without a buffer: pad the message to whole blocks and compress them in
    turn. [Fips.v] compares it with the standard. *)
Definition sha_pad (message : list Z) : list Z :=
  (message ++ 0x80 :: repeat 0 ((119 - length message `mod` 64) `mod` 64)
   ++ be_bytes64 (wrap64 (zlen message * 8)))%list.

Definition sha_blocks (k : nat) (message : list Z) : list (list Z) := reshape (replicate k 64%nat) message.

Definition sha256_at_once (message : list Z) : list Z :=
  let padded := sha_pad message in
  digest_of (foldl compress kSha256InitialState (sha_blocks (length padded / 64) padded)).

Lemma sha_blocks_app k j m d :
  length m = (64 * k)%nat -> sha_blocks (k + j) (m ++ d) = (sha_blocks k m ++ sha_blocks j d)%list.
Proof.
  unfold sha_blocks. revert m. induction k as [|k IH]; intros m Hm.
  { destruct m; [done|cbn in Hm; lia]. }
  cbn [Nat.add replicate reshape app]. f_equal.
  - by rewrite take_app_le by lia.
  - rewrite drop_app_le by lia. apply IH. rewrite length_drop. lia.
Qed.

Lemma compress_blocks_spec fuel k st m :
  (length m < 64 * k + 64)%nat -> (64 * k <= length m)%nat -> (k <= fuel)%nat ->
  compress_blocks fuel st m = (foldl compress st (sha_blocks k m), drop (64 * k) m).
Proof.
  unfold sha_blocks. revert k st m. induction fuel as [|fuel IH]; intros k st m H1 H2 H3.
  { assert (k = 0)%nat as -> by lia. done. }
  cbn [compress_blocks]. destruct k as [|k].
  - destruct (Nat.leb_spec 64 (length m)); [lia|done].
  - destruct (Nat.leb_spec 64 (length m)); [|lia].
    rewrite (IH k) by (rewrite ?length_drop; lia). cbn [replicate reshape foldl].
    rewrite drop_drop. f_equal. f_equal. lia.
Qed.

(** What the hasher has seen: whole blocks compressed, the rest buffered. *)
Record absorbed (m : list Z) (h : Sha256) : Prop := {
  ab_open : sha_finalized h = false;
  ab_total : sha_total_bytes h = wrap64 (zlen m);
  ab_split : exists k, length m = (64 * k + length (sha_buffer h))%nat /\ (length (sha_buffer h) < 64)%nat /\
    sha_buffer h = drop (64 * k) m /\ sha_state h = foldl compress kSha256InitialState (sha_blocks k m);
}.

Lemma absorbed_reset : absorbed [] sha_reset.
Proof. split; [done|done|]. exists 0%nat. by repeat split; cbn; try lia. Qed.

(** Filling the buffer first makes no difference: an update runs the block loop
    on the buffered bytes followed by the new ones. *)
Lemma sha_update_blocks data h :
  sha_finalized h = false -> (length (sha_buffer h) < 64)%nat -> data <> [] ->
  let '(state, rest) := compress_blocks (length (sha_buffer h ++ data)) (sha_state h) (sha_buffer h ++ data) in
  sha_update data h = mkSha256 state rest (wrap64 (sha_total_bytes h + zlen data)) false.
Proof.
  intros Hf Hb Hd. unfold sha_update. rewrite Hf.
  destruct (Nat.eqb_spec (length data) 0) as [E|Hlen]; [by apply nil_length_inv in E|]. cbn [orb].
  destruct (Nat.eqb_spec (length (sha_buffer h)) 0) as [E|Hne]; cbn [negb].
  { apply nil_length_inv in E. rewrite E. cbn [app].
    destruct (compress_blocks _ _ _) as [state rest] eqn:Ec. f_equal.
    destruct rest; done. }
  rewrite !length_app, length_take.
  destruct (Nat.eqb_spec (length (sha_buffer h) + (64 - length (sha_buffer h)) `min` length data) 64) as [E|E].
  - assert (Hge : (64 - length (sha_buffer h) <= length data)%nat) by lia.
    set (b := sha_buffer h) in *. set (want := (64 - length b)%nat) in *.
    assert (Hlen1 : length (b ++ data) = (64 + (length data - want))%nat) by (rewrite length_app; lia).
    assert (Htake : take 64 (b ++ data) = (b ++ take want data)%list).
    { rewrite take_app_ge by lia. by unfold want. }
    assert (Hdrop : drop 64 (b ++ data) = drop want data).
    { rewrite drop_app_ge by lia. by unfold want. }
    set (k := ((length data - want) / 64)%nat).
    pose proof (Nat.div_mod (length data - want) 64 ltac:(lia)) as Hdm.
    pose proof (Nat.mod_upper_bound (length data - want) 64 ltac:(lia)) as Hub.
    rewrite (compress_blocks_spec _ (S k)); [|rewrite Hlen1; unfold k; lia..|unfold k; lia].
    rewrite (compress_blocks_spec _ k); [|rewrite length_drop; unfold k; lia..].
    unfold sha_blocks. cbn [replicate reshape foldl]. rewrite Htake, Hdrop.
    replace (64 * S k)%nat with (64 + 64 * k)%nat by lia. rewrite <- drop_drop, Hdrop.
    f_equal. destruct (Nat.eqb_spec (length (drop (64 * k) (drop want data))) 0) as [E0|]; cbn [negb]; [|done].
    by apply nil_length_inv in E0 as ->.
  - assert (Hlt : (length (sha_buffer h) + length data < 64)%nat) by lia.
    rewrite (compress_blocks_spec _ 0) by (rewrite ?length_app; lia).
    rewrite drop_ge, (take_ge data) by lia. done.
Qed.

Lemma sha_update_absorbed m data h : absorbed m h -> absorbed (m ++ data) (sha_update data h).
Proof.
  intros [Hf Ht (k & Hlen & Hb & Hbuf & Hst)].
  destruct data as [|x data].
  { unfold sha_update. cbn [length Nat.eqb]. rewrite orb_true_r, app_nil_r. split; [done|done|by exists k]. }
  pose proof (sha_update_blocks (x :: data) h Hf Hb ltac:(done)) as Hup.
  remember (x :: data) as d eqn:Ed. clear Ed x data.
  set (whole := (sha_buffer h ++ d)%list) in *. set (j := (length whole / 64)%nat).
  pose proof (Nat.div_mod (length whole) 64 ltac:(lia)) as Hdm.
  pose proof (Nat.mod_upper_bound (length whole) 64 ltac:(lia)) as Hub.
  rewrite (compress_blocks_spec _ j) in Hup by (unfold j; lia). rewrite Hup.
  assert (Em : m = (take (64 * k) m ++ sha_buffer h)%list) by (rewrite Hbuf; symmetry; apply take_drop).
  assert (Ht64 : length (take (64 * k) m) = (64 * k)%nat) by (rewrite length_take; lia).
  assert (Ekj : (m ++ d)%list = (take (64 * k) m ++ whole)%list) by (unfold whole; rewrite Em at 1; by rewrite <- app_assoc).
  assert (Hdrop : drop (64 * (k + j)) (m ++ d) = drop (64 * j) whole).
  { rewrite Ekj, drop_app_ge by lia. rewrite Ht64. f_equal. lia. }
  split; cbn [sha_finalized sha_total_bytes sha_buffer sha_state]; [done| |].
  { rewrite Ht. unfold wrap64. rewrite Zplus_mod_idemp_l, zlen_app. done. }
  exists (k + j)%nat. rewrite Hdrop, length_drop. split_and!; [|unfold j; lia|done|].
  - apply (f_equal length) in Ekj. rewrite length_app in Ekj. rewrite !length_app, Ht64 in Ekj.
    rewrite length_app. unfold j. lia.
  - rewrite Ekj, sha_blocks_app by done. rewrite foldl_app. f_equal. rewrite Hst. f_equal.
    rewrite Em at 1. replace k with (k + 0)%nat at 1 by lia. rewrite sha_blocks_app by done.
    by rewrite app_nil_r.
Qed.

Lemma be_bytes64_length v : length (be_bytes64 v) = 8%nat.
Proof. done. Qed.

Lemma sha_block_one b : length b = 64%nat -> sha_blocks 1 b = [b].
Proof. intros Hb. unfold sha_blocks. cbn. by rewrite take_ge by lia. Qed.

Lemma sha_finish_absorbed m h : absorbed m h -> sha_finish h = sha256_at_once m.
Proof.
  intros [Hf Ht (k & Hlen & Hb & Hbuf & Hst)]. unfold sha_finish, sha256_at_once. rewrite Hf.
  set (L := length (sha_buffer h)) in *.
  assert (Hmod : (length m `mod` 64)%nat = L).
  { rewrite Hlen, Nat.add_comm, Nat.mul_comm, Nat.Div0.mod_add. by apply Nat.mod_small. }
  assert (Hbits : wrap64 (sha_total_bytes h * 8) = wrap64 (zlen m * 8)).
  { rewrite Ht. unfold wrap64. by rewrite Zmult_mod_idemp_l. }
  assert (Em : m = (take (64 * k) m ++ sha_buffer h)%list) by (rewrite Hbuf; symmetry; apply take_drop).
  assert (Ht64 : length (take (64 * k) m) = (64 * k)%nat) by (rewrite length_take; lia).
  set (z := ((119 - L) `mod` 64)%nat). set (be := be_bytes64 (wrap64 (zlen m * 8))).
  assert (Hpad : sha_pad m = (take (64 * k) m ++ (sha_buffer h ++ 0x80%Z :: repeat 0%Z z ++ be))%list).
  { unfold sha_pad. rewrite Hmod. fold z be. rewrite Em at 1. by rewrite <- app_assoc. }
  set (tail := (sha_buffer h ++ 0x80%Z :: repeat 0%Z z ++ be)%list) in *.
  assert (Hbe : length be = 8%nat) by apply be_bytes64_length.
  assert (Htail : length tail = (L + 1 + z + 8)%nat).
  { unfold tail. rewrite length_app. cbn [length]. rewrite length_app, repeat_length, Hbe. fold L. lia. }
  rewrite Hbits. fold be. rewrite !length_app. cbn [length]. fold L.
  rewrite Hpad, length_app, Ht64, Htail.
  assert (Hfold : forall j, foldl compress kSha256InitialState (sha_blocks (k + j) (take (64 * k) m ++ tail)) =
                  foldl compress (sha_state h) (sha_blocks j tail)).
  { intros j. rewrite sha_blocks_app by done. rewrite foldl_app, Hst. f_equal. f_equal.
    rewrite Em at 2. replace k with (k + 0)%nat at 3 by lia. rewrite sha_blocks_app by done. by rewrite app_nil_r. }
  destruct (Nat.ltb_spec 56 (L + 1)) as [Hbig|Hsmall].
  - assert (Hz : z = (119 - L)%nat) by (unfold z; apply Nat.mod_small; lia).
    replace ((64 * k + (L + 1 + z + 8)) / 64)%nat with (k + 2)%nat.
    2:{ replace (64 * k + (L + 1 + z + 8))%nat with ((k + 2) * 64)%nat by lia. by rewrite Nat.div_mul. }
    rewrite Hfold. f_equal.
    assert (Esplit : tail = (((sha_buffer h ++ [0x80%Z]) ++ repeat 0%Z (64 - (L + 1)))
                             ++ (repeat 0%Z 56 ++ be))%list).
    { unfold tail. rewrite Hz. replace (119 - L)%nat with ((64 - (L + 1)) + 56)%nat by lia.
      rewrite repeat_app. by rewrite <- !app_assoc. }
    rewrite Esplit. change 2%nat with (1 + 1)%nat. rewrite sha_blocks_app.
    2:{ rewrite !length_app, repeat_length. cbn [length]. fold L. lia. }
    rewrite !sha_block_one; [done|rewrite length_app, repeat_length, Hbe; lia|].
    rewrite !length_app, repeat_length. cbn [length]. fold L. lia.
  - assert (Hz : z = (55 - L)%nat).
    { unfold z. replace (119 - L)%nat with ((55 - L) + 1 * 64)%nat by lia. rewrite Nat.Div0.mod_add.
      apply Nat.mod_small. lia. }
    replace ((64 * k + (L + 1 + z + 8)) / 64)%nat with (k + 1)%nat.
    2:{ replace (64 * k + (L + 1 + z + 8))%nat with ((k + 1) * 64)%nat by lia. by rewrite Nat.div_mul. }
    rewrite Hfold, sha_block_one by lia. cbn [foldl]. f_equal. f_equal. unfold tail. rewrite Hz.
    rewrite length_app. cbn [length]. fold L. replace (56 - (L + 1))%nat with (55 - L)%nat by lia.
    by rewrite <- app_assoc.
Qed.

Lemma sha_parts_absorbed parts h m :
  absorbed m h -> absorbed (m ++ concat parts) (foldl (fun h part => sha_update part h) h parts).
Proof.
  revert h m. induction parts as [|p parts IH]; intros h m Hab; cbn [foldl concat]; [by rewrite app_nil_r|].
  rewrite app_assoc. by apply IH, sha_update_absorbed.
Qed.

Lemma digest_length s : length (digest_of s) = 32%nat.
Proof. reflexivity. Qed.

Lemma sha_finish_length h : length (sha_finish h) = 32%nat.
Proof.
  unfold sha_finish. destruct (sha_finalized h); [apply digest_length|].
  destruct (if (56 <? _)%nat then _ else _). apply digest_length.
Qed.

(** Cutting the message does not matter: the hasher compresses the blocks of the
    padded message in order. *)
Lemma sha_in_pieces parts :
  sha_finish (foldl (fun h part => sha_update part h) sha_reset parts) = sha256_at_once (concat parts).
Proof. apply sha_finish_absorbed, (sha_parts_absorbed parts _ []), absorbed_reset. Qed.

(** * Facts about CRC-32C *)

Lemma crc_bit_odd x : crc_bit x = Z.lxor (Z.shiftr x 1) (if Z.odd x then crc_poly else 0).
Proof.
  unfold crc_bit. f_equal. change 1 with (Z.ones 1). rewrite Z.land_ones by lia. change (2 ^ 1) with 2.
  rewrite Zmod_odd. by destruct (Z.odd x).
Qed.

(** A shift is linear over the bits. *)
Lemma crc_bit_lxor a b : crc_bit (Z.lxor a b) = Z.lxor (crc_bit a) (crc_bit b).
Proof.
  rewrite !crc_bit_odd, Z.shiftr_lxor.
  assert (Z.odd (Z.lxor a b) = xorb (Z.odd a) (Z.odd b)) as -> by (rewrite <- !Z.bit0_odd; apply Z.lxor_spec).
  destruct (Z.odd a), (Z.odd b); cbn [xorb]; rewrite ?Z.lxor_0_r; apply Z.bits_inj'; intros n _; rewrite !Z.lxor_spec;
    repeat destruct (Z.testbit _ _); done.
Qed.

Lemma crc_iter_lxor n a b :
  Nat.iter n crc_bit (Z.lxor a b) = Z.lxor (Nat.iter n crc_bit a) (Nat.iter n crc_bit b).
Proof. induction n as [|n IH]; [done|]. by rewrite !Nat.iter_succ, IH, crc_bit_lxor. Qed.

(** Bits above the window are only shifted down. *)
Lemma crc_iter_shiftl n y : Nat.iter n crc_bit (Z.shiftl y (Z.of_nat n)) = y.
Proof.
  revert y. induction n as [|n IH]; intros y; [apply Z.shiftl_0_r|].
  change (Nat.iter (S n) crc_bit (Z.shiftl y (Z.of_nat (S n))))
    with (crc_bit (Nat.iter n crc_bit (Z.shiftl y (Z.of_nat (S n))))).
  replace (Z.of_nat (S n)) with (1 + Z.of_nat n) by lia. rewrite <- Z.shiftl_shiftl by lia. rewrite IH, crc_bit_odd.
  assert (Z.odd (Z.shiftl y 1) = false) as ->.
  { rewrite Z.shiftl_mul_pow2 by lia. rewrite Z.odd_mul. by destruct (Z.odd y). }
  rewrite Z.lxor_0_r, Z.shiftr_shiftl_l by lia. by rewrite Z.shiftl_0_r.
Qed.

Lemma crc_table_entry i : 0 <= i < 256 -> nth (Z.to_nat i) kCrc32cTable 0 = crc_byte i.
Proof.
  intros Hi. assert (Htab : kCrc32cTable = crc_byte <$> seqZ 0 256) by (vm_compute; reflexivity).
  rewrite Htab. apply nth_lookup_Some with (d := 0). rewrite list_lookup_fmap, lookup_seqZ_lt by lia.
  by replace (0 + Z.of_nat (Z.to_nat i)) with i by lia.
Qed.

Lemma split_low_byte x : x = Z.lxor (Z.land x 255) (Z.shiftl (Z.shiftr x 8) 8).
Proof.
  apply Z.bits_inj'. intros n Hn. change 255 with (Z.ones 8).
  rewrite Z.lxor_spec, Z.land_spec, Z.shiftl_spec, Z.testbit_ones by lia.
  destruct (Z.ltb_spec n 8) as [H|H].
  - rewrite (Z.testbit_neg_r _ (n - 8)) by lia. rewrite (proj2 (Z.leb_le 0 n)) by lia.
    by rewrite andb_true_r, xorb_false_r.
  - rewrite Z.shiftr_spec by lia. rewrite andb_false_r, andb_false_r. cbn [xorb]. f_equal. lia.
Qed.

(** The table step is eight shifts of the register with the byte added in. *)
Lemma crc_step_byte s b : is_u8 b -> crc_step s b = crc_byte (Z.lxor s b).
Proof.
  intros Hb. unfold crc_step. set (x := Z.lxor s b).
  assert (Hlow : 0 <= Z.land x 255 < 256).
  { change 255 with (Z.ones 8). rewrite Z.land_ones by lia. apply Z.mod_pos_bound. lia. }
  rewrite crc_table_entry by done.
  assert (Hhigh : Z.shiftr s 8 = Z.shiftr x 8).
  { unfold x. rewrite Z.shiftr_lxor. rewrite (Z.shiftr_div_pow2 b) by lia.
    rewrite (Z.div_small b) by (unfold is_u8 in Hb; lia). by rewrite Z.lxor_0_r. }
  rewrite Hhigh. rewrite (split_low_byte x) at 3. unfold crc_byte.
  rewrite crc_iter_lxor. f_equal. symmetry. apply (crc_iter_shiftl 8).
Qed.

Lemma crc_update_shifts data s :
  Forall is_u8 data -> crc_update data s = foldl (fun s b => crc_byte (Z.lxor s b)) s data.
Proof.
  intros Hd. revert s. induction Hd as [|b data Hb _ IH]; intros s; [done|].
  cbn [crc_update foldl]. rewrite crc_step_byte by done. apply IH.
Qed.

(** The checksum as the standard defines it: a shift register that takes the
    message one bit at a time, least significant bit first. *)
Definition byte_bits (b : Z) : list bool := Z.testbit b <$> seqZ 0 8.

Definition crc_serial (s : Z) (bits : list bool) : Z := foldl (fun s bit => crc_bit (Z.lxor s (Z.b2z bit))) s bits.

Definition crc32c_reference (data : list Z) : Z :=
  Z.lxor (crc_serial 0xFFFFFFFF (concat (byte_bits <$> data))) 0xFFFFFFFF.

Lemma shiftr_split b k : 0 <= k ->
  Z.shiftr b k = Z.lxor (Z.b2z (Z.testbit b k)) (Z.shiftl (Z.shiftr b (k + 1)) 1).
Proof.
  intros Hk. apply Z.bits_inj'. intros n Hn. rewrite Z.lxor_spec, Z.shiftr_spec, Z.shiftl_spec by lia.
  destruct (Z.eq_dec n 0) as [->|Hne].
  - rewrite (Z.testbit_neg_r _ (0 - 1)) by lia. rewrite xorb_false_r, Z.add_0_l. symmetry. apply Z.b2z_bit0.
  - rewrite Z.shiftr_spec by lia. replace (n - 1 + (k + 1)) with (n + k) by lia.
    assert (Z.testbit (Z.b2z (Z.testbit b k)) n = false) as ->; [|done].
    rewrite <- (Z.bits_0 n). destruct (Z.testbit b k); [|done]. cbn [Z.b2z]. destruct n as [|p|p]; [done| |lia]. by destruct p.
Qed.

Lemma crc_serial_prefix s b k :
  Nat.iter k crc_bit (Z.lxor s b) =
  Z.lxor (crc_serial s (Z.testbit b <$> seqZ 0 (Z.of_nat k))) (Z.shiftr b (Z.of_nat k)).
Proof.
  induction k as [|k IH]; [by rewrite Z.shiftr_0_r|].
  change (Nat.iter (S k) crc_bit (Z.lxor s b)) with (crc_bit (Nat.iter k crc_bit (Z.lxor s b))). rewrite IH.
  replace (Z.of_nat (S k)) with (Z.of_nat k + 1) by lia.
  rewrite (shiftr_split b (Z.of_nat k)), <- Z.lxor_assoc, crc_bit_lxor by lia.
  rewrite (crc_iter_shiftl 1). f_equal. rewrite seqZ_app by lia. unfold crc_serial. rewrite fmap_app, foldl_app. done.
Qed.

Lemma crc_byte_serial s b : is_u8 b -> crc_byte (Z.lxor s b) = crc_serial s (byte_bits b).
Proof.
  intros Hb. unfold crc_byte. rewrite (crc_serial_prefix s b 8). rewrite Z.shiftr_div_pow2 by lia.
  rewrite (Z.div_small b) by (unfold is_u8 in Hb; cbn; lia). apply Z.lxor_0_r.
Qed.

(** C33: The table is only an optimisation. On any bytes [crc32c], which consumes
    a byte per step through its table of 256 entries, equals the checksum of the
    bit-serial shift register with the Castagnoli polynomial. *)
Theorem crc32c_is_bit_serial data : Forall is_u8 data -> crc32c data = crc32c_reference data.
Proof.
  intros Hd. unfold crc32c, crc32c_reference. rewrite crc_update_shifts by done. f_equal.
  generalize 0xFFFFFFFF. induction Hd as [|b data Hb _ IH]; intros s; [done|].
  cbn [foldl]. rewrite IH, crc_byte_serial by done. rewrite fmap_cons. cbn [concat]. unfold crc_serial.
  by rewrite foldl_app.
Qed.

Lemma crc32c_is_bit_serial_witness : crc32c [49; 50; 51; 52; 53; 54; 55; 56; 57] = 0xE3069283.
Proof.
  rewrite (crc32c_is_bit_serial [49; 50; 51; 52; 53; 54; 55; 56; 57]); [vm_compute; reflexivity|].
  repeat constructor; discriminate.
Defined.

(** ** Damage a checksum cannot miss *)

Lemma crc_bit_u32 x : is_u32 x -> is_u32 (crc_bit x).
Proof.
  intros Hx. rewrite crc_bit_odd. unfold is_u32 in *. split.
  - apply Z.lxor_nonneg. split; intros _; [by case_match|]. apply Z.shiftr_nonneg. lia.
  - assert (Hlog : forall y, 0 <= y -> (forall n, 32 <= n -> Z.testbit y n = false) -> y < 2 ^ 32).
    { intros y Hy Hbits. destruct (Z.lt_ge_cases y (2 ^ 32)) as [|Hge]; [done|].
      assert (Hpos : 0 < y) by lia. pose proof (Z.bit_log2 y Hpos) as Hb.
      rewrite Hbits in Hb; [done|]. by apply Z.log2_le_pow2. }
    apply Hlog.
    + apply Z.lxor_nonneg. split; intros _; [by case_match|]. apply Z.shiftr_nonneg. lia.
    + intros n Hn. rewrite Z.lxor_spec, Z.shiftr_spec by lia. rewrite (testbit_above x 32) by lia. cbn [xorb].
      case_match; [by apply (testbit_above _ 32)|apply Z.bits_0].
Qed.

Lemma crc_bit_inj a b : is_u32 a -> is_u32 b -> crc_bit a = crc_bit b -> a = b.
Proof.
  intros Ha Hb Heq. unfold is_u32 in *.
  assert (Htop : forall x, 0 <= x < 2 ^ 32 -> Z.testbit (crc_bit x) 31 = Z.odd x).
  { intros x Hx. rewrite crc_bit_odd, Z.lxor_spec, Z.shiftr_spec by lia. change (31 + 1) with 32.
    rewrite (testbit_above x 32) by lia.
    by destruct (Z.odd x). }
  assert (Hodd : Z.odd a = Z.odd b) by (rewrite <- !Htop by done; by rewrite Heq).
  rewrite !crc_bit_odd, Hodd in Heq.
  apply (f_equal (fun x => Z.lxor x (if Z.odd b then crc_poly else 0))) in Heq.
  rewrite !Z.lxor_assoc, !Z.lxor_nilpotent, !Z.lxor_0_r in Heq.
  rewrite <- !Z.div2_spec in Heq. rewrite (Z.div2_odd a), (Z.div2_odd b). by rewrite Heq, Hodd.
Qed.

Lemma crc_iter_u32 n x : is_u32 x -> is_u32 (Nat.iter n crc_bit x).
Proof. intros Hx. induction n as [|n IH]; [done|]. by apply crc_bit_u32. Qed.

Lemma crc_iter_inj n a b : is_u32 a -> is_u32 b -> Nat.iter n crc_bit a = Nat.iter n crc_bit b -> a = b.
Proof.
  intros Ha Hb. induction n as [|n IH]; [done|]. intros Heq. apply IH.
  apply crc_bit_inj; [by apply crc_iter_u32..|done].
Qed.

(** The bytes of a window as one little-endian word. *)
Definition le_word (window : list Z) : Z := foldr (fun b acc => Z.lxor b (Z.shiftl acc 8)) 0 window.

(** Feeding a window is the same as adding its word to the register and
    shifting it through. *)
Lemma crc_window window s :
  Forall is_u8 window -> crc_update window s = Nat.iter (8 * length window) crc_bit (Z.lxor s (le_word window)).
Proof.
  intros Hw. revert s. induction Hw as [|b window Hb _ IH]; intros s; [by rewrite Z.lxor_0_r|].
  cbn [crc_update foldl le_word foldr length]. change (foldr _ 0 window) with (le_word window).
  change (foldl crc_step (crc_step s b) window) with (crc_update window (crc_step s b)).
  rewrite IH, crc_step_byte by done. replace (8 * S (length window))%nat with (8 * length window + 8)%nat by lia.
  rewrite Nat.iter_add. f_equal. rewrite <- Z.lxor_assoc, crc_iter_lxor. f_equal.
  symmetry. apply (crc_iter_shiftl 8).
Qed.

Lemma lxor_low_byte b w : is_u8 b -> Z.lxor b (Z.shiftl w 8) = b + w * 256.
Proof.
  intros Hb. rewrite <- Z.add_nocarry_lxor by (by apply land_shiftl_low). by rewrite Z.shiftl_mul_pow2.
Qed.

Lemma le_word_cons b window : is_u8 b -> le_word (b :: window) = b + le_word window * 256.
Proof. apply lxor_low_byte. Qed.

Lemma le_word_bound window : Forall is_u8 window -> 0 <= le_word window < 2 ^ (8 * zlen window).
Proof.
  induction 1 as [|b window Hb _ IH]; [by vm_compute|].
  rewrite le_word_cons, zlen_cons by done. unfold is_u8 in Hb. pose proof (zlen_nonneg window).
  replace (8 * (1 + zlen window)) with (8 + 8 * zlen window) by lia. rewrite Z.pow_add_r by lia. nia.
Qed.

Lemma le_word_inj w1 w2 :
  Forall is_u8 w1 -> Forall is_u8 w2 -> length w1 = length w2 -> le_word w1 = le_word w2 -> w1 = w2.
Proof.
  intros H1. revert w2. induction H1 as [|b1 w1 Hb1 Hw1 IH]; intros w2 H2 Hlen Heq.
  { by destruct w2. }
  destruct H2 as [|b2 w2 Hb2 Hw2]; [done|]. rewrite !le_word_cons in Heq by done. unfold is_u8 in *.
  f_equal; [lia|]. apply IH; [done|by injection Hlen|lia].
Qed.

Lemma lxor_u32 a b : is_u32 a -> is_u32 b -> is_u32 (Z.lxor a b).
Proof.
  intros Ha Hb. unfold is_u32 in *.
  assert (0 <= Z.lxor a b) by (apply Z.lxor_nonneg; lia). split; [done|].
  destruct (decide (Z.lxor a b = 0)) as [->|]; [lia|]. apply Z.log2_lt_pow2; [lia|].
  pose proof (Z.log2_lxor a b ltac:(lia) ltac:(lia)).
  assert (Hl : forall y, 0 <= y < 2 ^ 32 -> Z.log2 y < 32).
  { intros y Hy. destruct (decide (y = 0)) as [->|]; [done|]. apply Z.log2_lt_pow2; lia. }
  pose proof (Hl a ltac:(lia)). pose proof (Hl b ltac:(lia)). lia.
Qed.

Lemma crc_table_u32 n : is_u32 (nth n kCrc32cTable 0).
Proof.
  assert (Htab : Forall is_u32 kCrc32cTable) by (repeat (constructor; [by vm_compute|]); constructor).
  rewrite List.Forall_forall in Htab. destruct (nth_in_or_default n kCrc32cTable 0) as [Hin| ->]; [by apply Htab|].
  by vm_compute.
Qed.

Lemma crc_step_u32 s b : is_u32 s -> is_u32 (crc_step s b).
Proof.
  intros Hs. apply lxor_u32; [apply crc_table_u32|]. unfold is_u32 in *. rewrite Z.shiftr_div_pow2 by lia.
  split; [apply Z.div_pos; lia|]. apply Z.le_lt_trans with s; [|lia]. apply Z.div_le_upper_bound; lia.
Qed.

Lemma crc_update_u32 data s : is_u32 s -> is_u32 (crc_update data s).
Proof.
  revert s. induction data as [|b data IH]; intros s Hs; [done|].
  cbn [crc_update foldl]. by apply IH, crc_step_u32.
Qed.

(** Registers that differ stay different whatever bytes follow. *)
Lemma crc_update_inj data s1 s2 :
  is_u32 s1 -> is_u32 s2 -> Forall is_u8 data -> crc_update data s1 = crc_update data s2 -> s1 = s2.
Proof.
  intros H1 H2 Hd. rewrite !crc_window by done. set (w := le_word data).
  rewrite !crc_iter_lxor. intros Heq.
  apply (f_equal (fun x => Z.lxor x (Nat.iter (8 * length data) crc_bit w))) in Heq.
  rewrite !Z.lxor_assoc, !Z.lxor_nilpotent, !Z.lxor_0_r in Heq. by apply crc_iter_inj in Heq.
Qed.

(** Two windows of at most four bytes that differ leave different registers. *)
Lemma crc_window_inj w1 w2 s :
  is_u32 s -> Forall is_u8 w1 -> Forall is_u8 w2 -> length w1 = length w2 -> (length w1 <= 4)%nat ->
  crc_update w1 s = crc_update w2 s -> w1 = w2.
Proof.
  intros Hs H1 H2 Hlen Hle Heq. rewrite !crc_window, Hlen in Heq by done.
  assert (Hu : forall w, Forall is_u8 w -> (length w <= 4)%nat -> is_u32 (le_word w)).
  { intros w Hw Hl. pose proof (le_word_bound w Hw). unfold is_u32.
    assert (2 ^ (8 * zlen w) <= 2 ^ 32); [|lia]. apply Z.pow_le_mono_r; unfold zlen; lia. }
  apply crc_iter_inj in Heq; [|apply lxor_u32; [done|by apply Hu; rewrite <- ?Hlen]..].
  apply (f_equal (Z.lxor s)) in Heq. rewrite <- !Z.lxor_assoc, Z.lxor_nilpotent, !Z.lxor_0_l in Heq.
  by apply le_word_inj.
Qed.

Lemma crc_update_app d1 d2 s : crc_update (d1 ++ d2) s = crc_update d2 (crc_update d1 s).
Proof. apply foldl_app. Qed.

(** Messages that agree but for a window of at most four bytes have different
    registers, and so different checksums. *)
Lemma crc_burst pre w1 w2 post s :
  is_u32 s -> Forall is_u8 pre -> Forall is_u8 w1 -> Forall is_u8 w2 -> Forall is_u8 post ->
  length w1 = length w2 -> (length w1 <= 4)%nat ->
  crc_update (pre ++ w1 ++ post) s = crc_update (pre ++ w2 ++ post) s -> w1 = w2.
Proof.
  intros Hs Hp H1 H2 Hq Hlen Hle. rewrite !crc_update_app. intros Heq.
  pose proof (crc_update_u32 pre s Hs) as Hs'.
  apply crc_update_inj in Heq; [|by apply crc_update_u32..|done]. by apply crc_window_inj in Heq.
Qed.

Lemma crc32c_u32 data : is_u32 (crc32c data).
Proof. apply lxor_u32; [by apply crc_update_u32|by vm_compute]. Qed.

(** A message followed by its checksum leaves a register that does not depend
    on the message. *)
Definition crc_residue : Z := Nat.iter 32 crc_bit 0xFFFFFFFF.

Lemma crc_codeword data window :
  Forall is_u8 data -> Forall is_u8 window -> length window = 4%nat -> le_word window = crc32c data ->
  crc_update (data ++ window) 0xFFFFFFFF = crc_residue.
Proof.
  intros Hd Hw Hlen Hc. rewrite crc_update_app, crc_window, Hlen, Hc by done. unfold crc32c, crc_residue.
  f_equal. by rewrite <- Z.lxor_assoc, Z.lxor_nilpotent, Z.lxor_0_l.
Qed.
