(* ===== verification/Fips.v ===== *)
(** * SHA-256 against the standard

    The Secure Hash Standard (FIPS 180-4) transcribed: words are numbers below
    [2 ^ 32], rotations and shifts are divisions, the constants are the fractional
    parts of the roots of the first primes, and the message is padded and parsed
    as section 5 says.  Nothing here is taken from [digest.cpp]; the theorem at the
    end says that the hasher of [Digest.v] computes it. *)
From S2P Require Import Prelude Digest.
#[local] Open Scope Z_scope.

Module Standard.
(** ** Section 3 and 4: words, functions and constants *)

Definition word (x : Z) : Prop := 0 <= x < 2 ^ 32.
Definition sum (l : list Z) : Z := foldr Z.add 0 l mod 2 ^ 32.

Definition ROTR (n x : Z) : Z := x / 2 ^ n + (x mod 2 ^ n) * 2 ^ (32 - n).
Definition SHR (n x : Z) : Z := x / 2 ^ n.
Definition complement (x : Z) : Z := 2 ^ 32 - 1 - x.

Definition Ch (x y z : Z) : Z := Z.lxor (Z.land x y) (Z.land (complement x) z).
Definition Maj (x y z : Z) : Z := Z.lxor (Z.lxor (Z.land x y) (Z.land x z)) (Z.land y z).
Definition Sigma0 (x : Z) : Z := Z.lxor (Z.lxor (ROTR 2 x) (ROTR 13 x)) (ROTR 22 x).
Definition Sigma1 (x : Z) : Z := Z.lxor (Z.lxor (ROTR 6 x) (ROTR 11 x)) (ROTR 25 x).
Definition sigma0 (x : Z) : Z := Z.lxor (Z.lxor (ROTR 7 x) (ROTR 18 x)) (SHR 3 x).
Definition sigma1 (x : Z) : Z := Z.lxor (Z.lxor (ROTR 17 x) (ROTR 19 x)) (SHR 10 x).

(** The primes from 2 on, by trial division. *)
Definition is_prime (p : Z) : bool := forallb (fun d => negb (p mod d =? 0)) (seqZ 2 (p - 2)).
Definition primes : list Z := filter (fun p => is_prime p = true) (seqZ 2 310).

(** The largest [r] below [2 ^ bits] with [r ^ e <= n], bit by bit. *)
Fixpoint root (bits : nat) (e n r : Z) : Z :=
  match bits with
  | O => r
  | S bits =>
      let higher := r + 2 ^ Z.of_nat bits in
      root bits e n (if higher ^ e <=? n then higher else r)
  end.

(** The first thirty-two bits of the fractional part of the [e]-th root of [p]. *)
Definition fraction (e p : Z) : Z := root 40 e (p * 2 ^ (32 * e)) 0 mod 2 ^ 32.

Definition K : list Z := fraction 3 <$> primes.
Definition H0 : list Z := fraction 2 <$> take 8 primes.

(** ** Section 5: padding and parsing *)

(** The number [value] as [n] bytes, most significant first, and back. *)
Definition to_bytes (n : nat) (value : Z) : list Z :=
  (fun i => value / 2 ^ (8 * (Z.of_nat n - 1 - i)) mod 256) <$> seqZ 0 (Z.of_nat n).
Definition of_bytes (bytes : list Z) : Z := foldl (fun value b => value * 256 + b) 0 bytes.

(** A message of [l] bits, the bit 1, the fewest zero bits that make the length 448
    modulo 512, and [l] in 64 bits: the bit and seven zeros are one byte. *)
Definition zero_bits (l : Z) : Z := (448 - (l + 1)) mod 512.
Definition pad (message : list Z) : list Z :=
  let l := 8 * zlen message in
  (message ++ [128] ++ replicate (Z.to_nat ((zero_bits l - 7) / 8)) 0 ++ to_bytes 8 l)%list.

(** Cut into pieces of [n]. *)
Fixpoint pieces (count n : nat) (bytes : list Z) : list (list Z) :=
  match count with
  | O => []
  | S count => take n bytes :: pieces count n (drop n bytes)
  end.

(** ** Section 6.2: the computation *)

(** The message schedule: the words so far, oldest first, and the next. *)
Definition next (W : list Z) : list Z :=
  let t := length W in
  let w k := nth (t - k) W 0 in
  (W ++ [sum [sigma1 (w 2%nat); w 7%nat; sigma0 (w 15%nat); w 16%nat]])%list.
Definition schedule (block : list Z) : list Z := Nat.iter 48 next (of_bytes <$> pieces 16 4 block).

Definition round (s : list Z) (kw : Z * Z) : list Z :=
  match s with
  | [a; b; c; d; e; f; g; h] =>
      let T1 := sum [h; Sigma1 e; Ch e f g; kw.1; kw.2] in
      let T2 := sum [Sigma0 a; Maj a b c] in
      [sum [T1; T2]; a; b; c; sum [d; T1]; e; f; g]
  | _ => s
  end.

Definition hash_block (H : list Z) (block : list Z) : list Z :=
  zip_with (fun h x => sum [h; x]) H (foldl round H (zip K (schedule block))).

Definition sha256 (message : list Z) : list Z :=
  let padded := pad message in
  concat (to_bytes 4 <$> foldl hash_block H0 (pieces (length padded / 64) 64 padded)).
End Standard.

(** The roots are the roots. *)
Definition is_root (e p r : Z) : bool := (r ^ e <=? p * 2 ^ (32 * e)) && (p * 2 ^ (32 * e) <? (r + 1) ^ e).

Lemma fraction_of_root e p r :
  is_root e p r = true -> exists i, (i * 2 ^ 32 + r mod 2 ^ 32) ^ e <= p * 2 ^ (32 * e) < (i * 2 ^ 32 + r mod 2 ^ 32 + 1) ^ e.
Proof.
  intros [H1%Z.leb_le H2%Z.ltb_lt]%andb_prop. exists (r / 2 ^ 32).
  assert (E : r / 2 ^ 32 * 2 ^ 32 + r mod 2 ^ 32 = r) by (rewrite Z.mul_comm; symmetry; apply Z.div_mod; lia).
  rewrite E. by split.
Qed.

Example K_are_roots :
  Forall2 (fun p k => exists i, (i * 2 ^ 32 + k) ^ 3 <= p * 2 ^ (32 * 3) < (i * 2 ^ 32 + k + 1) ^ 3) Standard.primes Standard.K.
Proof.
  assert (Hall : forallb (fun p => is_root 3 p (Standard.root 40 3 (p * 2 ^ (32 * 3)) 0)) Standard.primes = true) by (vm_compute; reflexivity).
  unfold Standard.K. apply Forall2_fmap_r, Forall_Forall2_diag, Forall_forall. intros p Hp.
  rewrite forallb_forall in Hall. apply fraction_of_root, Hall. by apply list_elem_of_In.
Qed.

Lemma standard_constants : Standard.K = kSha256RoundConstants.
Proof. vm_compute. reflexivity. Qed.

Definition words_of (s : ShaWords) : list Z := [wa s; wb s; wc s; wd s; we s; wf s; wg s; wh s].

Lemma standard_initial : Standard.H0 = words_of kSha256InitialState.
Proof. vm_compute. reflexivity. Qed.

(** ** The word functions *)

Lemma rotate_standard n x : 0 < n < 32 -> Standard.word x -> rotate_right x n = Standard.ROTR n x.
Proof.
  unfold Standard.word, rotate_right, Standard.ROTR, wrap32. intros Hn Hx.
  assert (Hp : 2 ^ 32 = 2 ^ n * 2 ^ (32 - n)) by (rewrite <- Z.pow_add_r by lia; f_equal; lia).
  assert (E : Z.shiftl x (32 - n) mod 2 ^ 32 = Z.shiftl (x mod 2 ^ n) (32 - n)).
  { rewrite !Z.shiftl_mul_pow2 by lia. rewrite Hp, Zmult_mod_distr_r. done. }
  assert (Hlow : 0 <= x / 2 ^ n < 2 ^ (32 - n)) by (split; [apply Z.div_pos; lia|apply Z.div_lt_upper_bound; lia]).
  rewrite E, Z.shiftr_div_pow2 by lia.
  rewrite <- Z.lxor_lor, <- Z.add_nocarry_lxor by (apply land_shiftl_low; lia). by rewrite Z.shiftl_mul_pow2 by lia.
Qed.

Lemma not_standard x : Standard.word x -> word_not x = Standard.complement x.
Proof.
  unfold Standard.word, word_not, Standard.complement. intros Hx. change 0xFFFFFFFF with (Z.ones 32).
  change (2 ^ 32 - 1) with (Z.ones 32). rewrite Z.sub_nocarry_ldiff.
  - apply Z.bits_inj'. intros k Hk. rewrite Z.ldiff_spec, Z.lxor_spec. destruct (Z.ltb_spec k 32).
    + rewrite Z.ones_spec_low by lia. by destruct (Z.testbit x k).
    + rewrite (testbit_above x 32 k) by lia. rewrite Z.ones_spec_high by lia. done.
  - apply Z.bits_inj'. intros k Hk. rewrite Z.ldiff_spec, Z.bits_0. destruct (Z.ltb_spec k 32).
    + rewrite Z.ones_spec_low by lia. by rewrite andb_false_r.
    + by rewrite (testbit_above x 32 k) by lia.
Qed.

Lemma sum_word l : Standard.word (Standard.sum l).
Proof. unfold Standard.word, Standard.sum. apply Z.mod_pos_bound. lia. Qed.
#[local] Hint Resolve sum_word : core.

Lemma Forall_cons_1_4 {A} (P : A -> Prop) a b c d l : Forall P (a :: b :: c :: d :: l) -> P a /\ P b /\ P c /\ P d /\ Forall P l.
Proof. rewrite !Forall_cons. tauto. Qed.

Lemma Forall_cons_1_8 {A} (P : A -> Prop) a b c d e f g h l :
  Forall P (a :: b :: c :: d :: e :: f :: g :: h :: l) -> P a /\ P b /\ P c /\ P d /\ P e /\ P f /\ P g /\ P h /\ Forall P l.
Proof. rewrite !Forall_cons. tauto. Qed.

Definition word_state (s : ShaWords) : Prop := Forall Standard.word (words_of s).

(** ** One round *)

Lemma round_standard s k w :
  word_state s -> words_of (sha_round s (k, w)) = Standard.round (words_of s) (k, w) /\ word_state (sha_round s (k, w)).
Proof.
  destruct s as [a b c d e f g h]. unfold word_state, words_of. cbn [wa wb wc wd we wf wg wh].
  intros (Ha & Hb & Hc & Hd & He & Hf & Hg & Hh & _)%Forall_cons_1_8.
  assert (E1 : wrap32 (h + Z.lxor (Z.lxor (rotate_right e 6) (rotate_right e 11)) (rotate_right e 25)
      + Z.lxor (Z.land e f) (Z.land (word_not e) g) + k + w)
    = Standard.sum [h; Standard.Sigma1 e; Standard.Ch e f g; k; w]).
  { rewrite !rotate_standard, not_standard by (done || lia). unfold wrap32, Standard.sum, Standard.Ch. cbn [foldr]. f_equal.
    change (Z.lxor (Z.lxor (Standard.ROTR 6 e) (Standard.ROTR 11 e)) (Standard.ROTR 25 e)) with (Standard.Sigma1 e). lia. }
  assert (E2 : wrap32 (Z.lxor (Z.lxor (rotate_right a 2) (rotate_right a 13)) (rotate_right a 22)
      + Z.lxor (Z.lxor (Z.land a b) (Z.land a c)) (Z.land b c)) = Standard.sum [Standard.Sigma0 a; Standard.Maj a b c]).
  { rewrite !rotate_standard by (done || lia). unfold wrap32, Standard.sum. cbn [foldr]. f_equal.
    change (Z.lxor (Z.lxor (Standard.ROTR 2 a) (Standard.ROTR 13 a)) (Standard.ROTR 22 a)) with (Standard.Sigma0 a).
    change (Z.lxor (Z.lxor (Z.land a b) (Z.land a c)) (Z.land b c)) with (Standard.Maj a b c). lia. }
  assert (E3 : forall x y, wrap32 (x + y) = Standard.sum [x; y])
    by (intros; unfold wrap32, Standard.sum; cbn [foldr]; f_equal; lia).
  cbn [sha_round fst snd Standard.round wa wb wc wd we wf wg wh]. rewrite E1, E2, !E3. split; [done|]. repeat (apply Forall_cons; split; [by auto|]). constructor.
Qed.

Lemma rounds_standard kws s :
  word_state s -> words_of (foldl sha_round s kws) = foldl Standard.round (words_of s) kws /\ word_state (foldl sha_round s kws).
Proof.
  revert s. induction kws as [|[k w] kws IH]; intros s Hs; cbn [foldl]; [by split|].
  destruct (round_standard s k w Hs) as [E Hs']. rewrite <- E. by apply IH.
Qed.

(** ** The schedule *)

Lemma lor_shiftl_add a b n : 0 <= n -> 0 <= b < 2 ^ n -> Z.lor (Z.shiftl a n) b = a * 2 ^ n + b.
Proof.
  intros Hn Hb. rewrite Z.lor_comm, <- Z.lxor_lor, <- Z.add_nocarry_lxor by (apply land_shiftl_low; lia).
  rewrite Z.shiftl_mul_pow2 by lia. lia.
Qed.

Lemma be_word_standard b0 b1 b2 b3 :
  is_u8 b0 -> is_u8 b1 -> is_u8 b2 -> is_u8 b3 ->
  be_word b0 b1 b2 b3 = Standard.of_bytes [b0; b1; b2; b3] /\ Standard.word (be_word b0 b1 b2 b3).
Proof.
  unfold is_u8, Standard.word, be_word. intros H0 H1 H2 H3.
  assert (E0 : Z.lor (Z.shiftl b0 24) (Z.shiftl b1 16) = Z.shiftl (b0 * 2 ^ 8 + b1) 16).
  { change 24 with (8 + 16). rewrite <- Z.shiftl_shiftl, <- Z.shiftl_lor by lia. by rewrite lor_shiftl_add by lia. }
  assert (E1 : Z.lor (Z.shiftl (b0 * 2 ^ 8 + b1) 16) (Z.shiftl b2 8) = Z.shiftl ((b0 * 2 ^ 8 + b1) * 2 ^ 8 + b2) 8).
  { change 16 with (8 + 8). rewrite <- Z.shiftl_shiftl, <- Z.shiftl_lor by lia. by rewrite lor_shiftl_add by lia. }
  rewrite E0, E1, lor_shiftl_add by lia. cbn [Standard.of_bytes foldl]. lia.
Qed.

Lemma block_words_standard count block :
  length block = (4 * count)%nat -> Forall is_u8 block ->
  block_words block = (Standard.of_bytes <$> Standard.pieces count 4 block) /\ Forall Standard.word (block_words block) /\
  length (block_words block) = count.
Proof.
  revert block. induction count as [|count IH]; intros block Hlen Hu; [by destruct block|].
  destruct block as [|b0 [|b1 [|b2 [|b3 rest]]]]; cbn in Hlen; try lia. apply Forall_cons_1_4 in Hu as (H0 & H1 & H2 & H3 & Hu).
  destruct (IH rest ltac:(lia) Hu) as (E & Hw & Hl). destruct (be_word_standard b0 b1 b2 b3 H0 H1 H2 H3) as [Eb Hb].
  cbn [block_words Standard.pieces take drop fmap list_fmap]. rewrite take_0, drop_0, E, Eb. split_and!; [done|by rewrite <- E, <- Eb; constructor|].
  cbn. by rewrite <- E, Hl.
Qed.

Lemma next_word_standard W :
  (16 <= length W)%nat -> Forall Standard.word W -> Standard.next W = (W ++ [next_word (rev W)])%list /\ Standard.word (next_word (rev W)).
Proof.
  intros Hlen HW. unfold Standard.next.
  assert (Hn : forall k, (1 <= k <= 16)%nat -> nth (k - 1) (rev W) 0 = nth (length W - k) W 0).
  { intros k Hk. rewrite rev_nth by lia. f_equal. lia. }
  assert (Hw : forall k, (1 <= k <= 16)%nat -> Standard.word (nth (length W - k) W 0)).
  { intros k Hk. rewrite Forall_forall in HW. apply HW. apply list_elem_of_In, nth_In. lia. }
  assert (E : next_word (rev W) = Standard.sum [Standard.sigma1 (nth (length W - 2) W 0); nth (length W - 7) W 0;
                                                Standard.sigma0 (nth (length W - 15) W 0); nth (length W - 16) W 0]).
  { unfold next_word. rewrite !Hn by lia. rewrite !rotate_standard by (lia || (apply Hw; lia)).
    rewrite !Z.shiftr_div_pow2 by lia. unfold wrap32, Standard.sum. cbn [foldr]. f_equal.
    fold (Standard.SHR 3 (nth (length W - 15) W 0)) (Standard.SHR 10 (nth (length W - 2) W 0)).
    unfold Standard.sigma0, Standard.sigma1. lia. }
  rewrite E. by split.
Qed.

Lemma extend_standard n W :
  (16 <= length W)%nat -> Forall Standard.word W ->
  rev (extend_schedule n (rev W)) = Nat.iter n Standard.next W.
Proof.
  revert W. induction n as [|n IH]; intros W Hlen HW; cbn [extend_schedule]; [apply rev_involutive|].
  destruct (next_word_standard W Hlen HW) as [E Hx]. rewrite Nat.iter_succ_r, E, <- IH.
  - by rewrite rev_app_distr.
  - rewrite length_app. cbn. lia.
  - apply Forall_app. split; [done|]. by constructor.
Qed.

Lemma schedule_standard block :
  length block = 64%nat -> Forall is_u8 block -> sha_schedule block = Standard.schedule block.
Proof.
  intros Hlen Hu. destruct (block_words_standard 16 block Hlen Hu) as (E & Hw & Hl). unfold sha_schedule, Standard.schedule.
  rewrite <- E. apply extend_standard; [lia|done].
Qed.

(** ** A block, and all of them *)

Lemma combine_zip {A B} (l : list A) (k : list B) : combine l k = zip l k.
Proof. revert k. induction l as [|x l IH]; intros [|y k]; cbn; [done..|]. by rewrite IH. Qed.

Lemma compress_standard s block :
  word_state s -> length block = 64%nat -> Forall is_u8 block ->
  words_of (compress s block) = Standard.hash_block (words_of s) block /\ word_state (compress s block).
Proof.
  intros Hs Hlen Hu. unfold compress, Standard.hash_block. rewrite (schedule_standard block Hlen Hu), standard_constants, combine_zip.
  destruct (rounds_standard (zip kSha256RoundConstants (Standard.schedule block)) s Hs) as [E _]. rewrite <- E.
  destruct (foldl sha_round s _) as [a b c d e f g h]. destruct s as [a0 b0 c0 d0 e0 f0 g0 h0].
  assert (E3 : forall x y, wrap32 (x + y) = Standard.sum [x; y])
    by (intros; unfold wrap32, Standard.sum; cbn [foldr]; f_equal; lia).
  unfold words_of, word_state. cbn [wa wb wc wd we wf wg wh]. rewrite !E3. clear. split; [reflexivity|].
  repeat (apply Forall_cons; split; [apply sum_word|]). constructor.
Qed.

Lemma blocks_standard blocks s :
  word_state s -> Forall (fun block => length block = 64%nat /\ Forall is_u8 block) blocks ->
  words_of (foldl compress s blocks) = foldl Standard.hash_block (words_of s) blocks.
Proof.
  intros Hs Hb. revert s Hs. induction Hb as [|block blocks [Hlen Hu] _ IH]; intros s Hs; cbn [foldl]; [done|].
  destruct (compress_standard s block Hs Hlen Hu) as [E Hs']. rewrite <- E. by apply IH.
Qed.

Lemma pieces_standard count message : sha_blocks count message = Standard.pieces count 64 message.
Proof.
  unfold sha_blocks. revert message. induction count as [|count IH]; intros message; [done|].
  cbn [replicate reshape Standard.pieces]. by rewrite IH.
Qed.

Lemma pieces_whole count message :
  length message = (64 * count)%nat -> Forall is_u8 message ->
  Forall (fun block => length block = 64%nat /\ Forall is_u8 block) (Standard.pieces count 64 message).
Proof.
  revert message. induction count as [|count IH]; intros message Hlen Hu; cbn [Standard.pieces]; constructor.
  - split; [rewrite length_take; lia|by apply Forall_take].
  - apply IH; [rewrite length_drop; lia|by apply Forall_drop].
Qed.

(** ** Padding and output *)

Lemma byte_standard v m i : 0 <= i -> i + 8 <= m -> Z.land (Z.shiftr (v mod 2 ^ m) i) 255 = v / 2 ^ i mod 256.
Proof.
  intros Hi Hm. change 256 with (2 ^ 8). rewrite <- (Z.land_ones (v / 2 ^ i) 8), <- Z.shiftr_div_pow2 by lia. change 255 with (Z.ones 8).
  apply Z.bits_inj'. intros k Hk. rewrite !Z.land_spec, !Z.shiftr_spec by lia. destruct (Z.ltb_spec k 8).
  - by rewrite Z.mod_pow2_bits_low by lia.
  - by rewrite Z.ones_spec_high, !andb_false_r by lia.
Qed.

Lemma word_bytes_standard w : Standard.word w -> word_bytes w = Standard.to_bytes 4 w.
Proof.
  unfold Standard.word. intros Hw. unfold word_bytes, Standard.to_bytes. change (seqZ 0 (Z.of_nat 4)) with [0; 1; 2; 3]. cbn [fmap list_fmap].
  rewrite <- (Z.mod_small w (2 ^ 32)) at 1 2 3 by lia. rewrite !byte_standard by lia.
  rewrite <- (Z.shiftr_0_r w) at 4. rewrite <- (Z.mod_small w (2 ^ 32)) at 4 by lia. rewrite byte_standard by lia. done.
Qed.

Lemma length_bytes_standard v : be_bytes64 (wrap64 v) = Standard.to_bytes 8 v.
Proof.
  unfold be_bytes64, Standard.to_bytes, wrap64. change (Z.of_nat 8) with 8. apply list_fmap_ext. intros n i [-> Hi]%lookup_seqZ.
  rewrite byte_standard by lia. do 3 f_equal. lia.
Qed.

Lemma repeat_replicate {A} (x : A) n : repeat x n = replicate n x.
Proof. induction n as [|n IH]; cbn; [done|]. by rewrite IH. Qed.

Lemma pad_standard message : sha_pad message = Standard.pad message.
Proof.
  unfold sha_pad, Standard.pad. rewrite length_bytes_standard, repeat_replicate, (Z.mul_comm (zlen message)). cbn [app].
  do 4 f_equal. unfold Standard.zero_bits, zlen. apply Nat2Z.inj. rewrite Z2Nat.id by (Z.div_mod_to_equations; lia).
  rewrite Nat2Z.inj_mod, Nat2Z.inj_sub by (pose proof (Nat.mod_upper_bound (length message) 64); lia). rewrite Nat2Z.inj_mod.
  change (Z.of_nat 119) with 119. change (Z.of_nat 64) with 64. Z.div_mod_to_equations. lia.
Qed.

Lemma pad_length message : exists count, length (Standard.pad message) = (64 * count)%nat.
Proof.
  unfold Standard.pad. rewrite !length_app, length_replicate. cbn [length]. change (length (Standard.to_bytes 8 _)) with 8%nat.
  unfold Standard.zero_bits, zlen. exists (Z.to_nat ((Z.of_nat (length message) + 9 + ((448 - (8 * Z.of_nat (length message) + 1)) mod 512 - 7) / 8) / 64)).
  Z.div_mod_to_equations. lia.
Qed.

Lemma pad_u8 message : Forall is_u8 message -> Forall is_u8 (Standard.pad message).
Proof.
  intros Hu. unfold Standard.pad. rewrite !Forall_app. split_and!; [done|by repeat constructor|by apply Forall_replicate|].
  unfold Standard.to_bytes. apply Forall_fmap, Forall_forall. intros i _. cbn. unfold is_u8. apply Z.mod_pos_bound. lia.
Qed.

(** C32: The streaming hash is SHA-256. Feeding a message of bytes to
    [Sha256::update] in pieces, however it is cut, and finishing gives the digest
    the Secure Hash Standard defines for the whole message: the padding, the
    schedule, the rounds and their constants are those of [Standard], which is
    written from the standard and shares nothing with the program. *)
Theorem sha256_streaming parts :
  Forall (Forall is_u8) parts ->
  sha_finish (foldl (fun h part => sha_update part h) sha_reset parts) = Standard.sha256 (concat parts).
Proof.
  intros Hu. rewrite sha_in_pieces. unfold sha256_at_once, Standard.sha256. rewrite pad_standard, pieces_standard.
  assert (Hm : Forall is_u8 (concat parts)) by (by apply Forall_concat).
  destruct (pad_length (concat parts)) as [count Hlen]. rewrite Hlen. replace (64 * count / 64)%nat with count by (rewrite Nat.mul_comm; by rewrite Nat.div_mul).
  assert (H0 : word_state kSha256InitialState) by (repeat constructor; discriminate).
  pose proof (blocks_standard _ _ H0 (pieces_whole count _ Hlen (pad_u8 _ Hm))) as E. rewrite standard_initial, <- E.
  assert (Hw : word_state (foldl compress kSha256InitialState (Standard.pieces count 64 (Standard.pad (concat parts))))).
  { clear E. pose proof (pieces_whole count _ Hlen (pad_u8 _ Hm)) as Hb. revert H0. generalize kSha256InitialState.
    induction Hb as [|block blocks [Hl Hub] _ IH]; intros s Hs; cbn [foldl]; [done|]. apply IH. by apply compress_standard. }
  destruct (foldl compress _ _) as [a b c d e f g h]. unfold digest_of, words_of. cbn [wa wb wc wd we wf wg wh fmap list_fmap concat].
  unfold word_state, words_of in Hw. cbn [wa wb wc wd we wf wg wh] in Hw. apply Forall_cons_1_8 in Hw as (? & ? & ? & ? & ? & ? & ? & ? & _).
  rewrite !word_bytes_standard by done. by rewrite app_nil_r.
Qed.

(** The example of the standard, "abc", fed in two pieces. *)
Lemma sha256_streaming_witness :
  sha_finish (foldl (fun h part => sha_update part h) sha_reset [[97]; [98; 99]]) = Standard.sha256 [97; 98; 99] /\
  Standard.of_bytes (Standard.sha256 [97; 98; 99]) = 0xba7816bf8f01cfea414140de5dae2223b00361a396177a9cb410ff61f20015ad.
Proof.
  split; [|vm_compute; reflexivity]. apply (sha256_streaming [[97]; [98; 99]]).
  repeat constructor; discriminate.
Defined.
