(* ===== verification/Words.v ===== *)
(** * Little-endian fields and checksum windows

    The fields the codec writes, seen as the words the checksum folds: what makes
    the checksum of a fixed layout say something about its bytes. *)
From S2P Require Import Prelude Codec Digest.
#[local] Open Scope Z_scope.

Lemma le_load_from_word i acc raw :
  0 <= i -> Forall is_u8 raw -> 0 <= acc < 2 ^ (i * 8) ->
  le_load_from i acc raw = acc + Z.shiftl (le_word raw) (i * 8).
Proof.
  intros Hi Hraw. revert i acc Hi. induction Hraw as [|b raw Hb _ IH]; intros i acc Hi Hacc.
  { cbn. rewrite Z.shiftl_0_l. lia. }
  cbn [le_load_from]. rewrite le_word_cons by done.
  assert (Hlor : Z.lor acc (Z.shiftl b (i * 8)) = acc + Z.shiftl b (i * 8)).
  { assert (Hno : Z.land acc (Z.shiftl b (i * 8)) = 0) by (apply land_shiftl_low; lia).
    by rewrite <- Z.lxor_lor, Z.add_nocarry_lxor by done. }
  rewrite Hlor. unfold is_u8 in Hb. rewrite Z.shiftl_mul_pow2 by lia.
  assert (Hpow : 2 ^ ((i + 1) * 8) = 2 ^ (i * 8) * 256).
  { replace ((i + 1) * 8) with (i * 8 + 8) by lia. rewrite Z.pow_add_r by lia. done. }
  rewrite IH; [|lia|rewrite Hpow; nia]. rewrite !Z.shiftl_mul_pow2 by lia. rewrite Hpow. ring.
Qed.

Lemma le_load_word raw : Forall is_u8 raw -> le_load raw = le_word raw.
Proof.
  intros Hraw. unfold le_load. rewrite le_load_from_word by (done || lia).
  rewrite Z.mul_0_l, Z.shiftl_0_r. lia.
Qed.

Lemma le_bytes_u8 n v : Forall is_u8 (le_bytes n v).
Proof. apply le_bytes_from_u8. lia. Qed.

Lemma le_word_bytes n v : 0 <= v < 2 ^ (Z.of_nat n * 8) -> le_word (le_bytes n v) = v.
Proof. intros Hv. rewrite <- le_load_word by apply le_bytes_u8. by apply le_load_bytes. Qed.

(** Bytes are the encoding of what they load to. *)
Lemma le_bytes_load raw : Forall is_u8 raw -> le_bytes (length raw) (le_load raw) = raw.
Proof.
  intros Hraw. rewrite le_load_word by done. pose proof (le_word_bound raw Hraw) as Hb.
  apply le_word_inj; [apply le_bytes_u8|done|apply le_bytes_length|].
  apply le_word_bytes. unfold zlen in Hb. by replace (Z.of_nat (length raw) * 8) with (8 * Z.of_nat (length raw)) by lia.
Qed.

(** Bytes that end in the checksum of the bytes before them are a codeword; two
    codewords never differ in at most four neighbouring bytes only. *)
Lemma checksum_codeword data stored :
  Forall is_u8 data -> Forall is_u8 stored -> length stored = 4%nat -> le_load stored = crc32c data ->
  crc_update (data ++ stored) 0xFFFFFFFF = crc_residue.
Proof. intros Hd Hs Hl E. apply crc_codeword; [done..|]. by rewrite <- le_load_word. Qed.

Lemma codewords_apart a w1 w2 b :
  Forall is_u8 (a ++ w1 ++ b) -> Forall is_u8 w2 -> length w1 = length w2 -> (length w1 <= 4)%nat ->
  crc_update (a ++ w1 ++ b) 0xFFFFFFFF = crc_residue -> crc_update (a ++ w2 ++ b) 0xFFFFFFFF = crc_residue -> w1 = w2.
Proof.
  intros [Ha [H1 Hb]%Forall_app]%Forall_app H2 Hl Hle E1 E2.
  refine (crc_burst a w1 w2 b 0xFFFFFFFF _ Ha H1 H2 Hb Hl Hle (eq_trans E1 (eq_sym E2))). unfold is_u32. lia.
Qed.
