(* ===== verification/Text.v ===== *)
(** * Text

    The text a tool prints, as the characters of an [std::string], and the decimal
    numbers in it: [std::to_string] and the zero-padded conversions of
    [std::snprintf], with what a reader makes of them. *)
From S2P Require Import Prelude OrdMap Types.
From Stdlib Require Import (notations) Ascii.
From stdpp Require Import pretty.
#[local] Open Scope Z_scope.

Abbreviation Text := (list Ascii.ascii).

Definition chars (s : string) : Text := String.list_ascii_of_string s.

Lemma chars_app s1 s2 : chars (s1 +:+ s2) = chars s1 ++ chars s2.
Proof. induction s1 as [|c s1 IH]; [done|]. exact (f_equal (cons c) IH). Qed.

(** ** Decimal numbers *)

Definition is_digit (c : Ascii.ascii) : bool := (48 <=? byte_of_ascii c) && (byte_of_ascii c <=? 57).
Definition digit_value (c : Ascii.ascii) : Z := byte_of_ascii c - 48.

(** The number a run of digits denotes. *)
Definition number_of (t : Text) : Z := foldl (fun n c => 10 * n + digit_value c) 0 t.

(** The longest run of digits at the front of a text, and what follows it. *)
Fixpoint span_digits (t : Text) : Text * Text :=
  match t with
  | c :: rest => if is_digit c then let '(digits, after) := span_digits rest in (c :: digits, after) else ([], t)
  | [] => ([], [])
  end.

(** [%0<width>u] of a value that is not negative. *)
Definition padded (width : nat) (n : Z) : Text :=
  let digits := chars (to_dec n) in replicate (width - length digits) "0"%char ++ digits.

Lemma number_snoc t c : number_of (t ++ [c]) = 10 * number_of t + digit_value c.
Proof. unfold number_of. by rewrite foldl_app. Qed.

Lemma digit_chars x :
  (x < 10)%N -> is_digit (pretty_N_char x) = true /\ digit_value (pretty_N_char x) = Z.of_N x /\
  ((0 < x)%N -> pretty_N_char x <> "0"%char).
Proof.
  intros Hx. assert (Hall : Forall (fun k => is_digit (pretty_N_char k) = true /\ digit_value (pretty_N_char k) = Z.of_N k /\
    ((0 < k)%N -> pretty_N_char k <> "0"%char)) [0; 1; 2; 3; 4; 5; 6; 7; 8; 9]%N).
  { repeat constructor; (reflexivity || discriminate || (intros H; discriminate H || done)). }
  rewrite Forall_forall in Hall. apply Hall.
  assert (x = 0 \/ x = 1 \/ x = 2 \/ x = 3 \/ x = 4 \/ x = 5 \/ x = 6 \/ x = 7 \/ x = 8 \/ x = 9)%N by lia. set_solver.
Qed.

(** What the digit loop of [std::to_string] puts in front of [s]. *)
Lemma pretty_digits x s :
  (0 < x)%N -> exists t,
    chars (pretty_N_go x s) = t ++ chars s /\ Forall (fun c => is_digit c = true) t /\ number_of t = Z.of_N x /\
    head t <> Some "0"%char /\ t <> [] /\ forall w : nat, Z.of_N x < 10 ^ Z.of_nat w -> (length t <= w)%nat.
Proof.
  revert s. induction (N.lt_wf_0 x) as [x _ IH]; intros s Hx. rewrite pretty_N_go_step by done.
  destruct (digit_chars (x mod 10)%N) as (Hd & Hv & Hnz); [by apply N.mod_lt|].
  pose proof (N.div_mod x 10 ltac:(done)) as Hdm.
  destruct (decide (x < 10)%N) as [Hlt|Hge].
  - rewrite N.div_small, pretty_N_go_0 by done. rewrite N.mod_small in * by done. exists [pretty_N_char x].
    split_and!; [done|by repeat constructor|cbn; by rewrite Hv| |done|].
    + cbn. intros [= E]. by apply Hnz.
    + intros [|w] Hw; [cbn in Hw; lia|cbn; lia].
  - assert (Hpos : (0 < x / 10)%N) by (apply N.div_str_pos; lia).
    destruct (IH (x / 10)%N ltac:(by apply N.div_lt) (String (pretty_N_char (x mod 10)) s) Hpos)
      as (t & Ht & Hf & Hn & Hh & Hne & Hl).
    exists (t ++ [pretty_N_char (x mod 10)]). split_and!.
    + rewrite Ht. cbn. by rewrite <- app_assoc.
    + apply Forall_app_2; [done|by repeat constructor].
    + rewrite number_snoc, Hn, Hv. lia.
    + by destruct t.
    + by destruct t.
    + intros [|w] Hw; [cbn in Hw; lia|]. rewrite length_app. cbn. rewrite Nat2Z.inj_succ, Z.pow_succ_r in Hw by lia.
      specialize (Hl w ltac:(rewrite N2Z.inj_div; apply Z.div_lt_upper_bound; lia)). lia.
Qed.

(** [std::to_string] of an unsigned integer: digits without a leading zero,
    denoting the integer, and as few as it needs. *)
Lemma to_dec_digits n :
  0 <= n ->
  Forall (fun c => is_digit c = true) (chars (to_dec n)) /\ number_of (chars (to_dec n)) = n /\
  chars (to_dec n) <> [] /\ (head (chars (to_dec n)) = Some "0"%char -> chars (to_dec n) = ["0"%char]) /\
  forall w : nat, (0 < w)%nat -> n < 10 ^ Z.of_nat w -> (length (chars (to_dec n)) <= w)%nat.
Proof.
  intros Hn. destruct n as [|p|p]; [|clear Hn|lia].
  { split_and!; [by repeat constructor|done..|]. cbn. lia. }
  assert (E : to_dec (Z.pos p) = pretty_N_go (N.pos p) "") by done. rewrite E.
  destruct (pretty_digits (N.pos p) "" ltac:(lia)) as (t & -> & Hf & Hv & Hh & Hne & Hl).
  cbn [chars String.list_ascii_of_string]. rewrite app_nil_r. split_and!; [done|done|done|done|].
  intros w _ Hw. by apply Hl.
Qed.

(** The digits of a number are read back, up to a character that is none. *)
Lemma span_digits_app t rest :
  Forall (fun c => is_digit c = true) t -> (forall c, head rest = Some c -> is_digit c = false) ->
  span_digits (t ++ rest) = (t, rest).
Proof.
  intros Hf Hr. induction Hf as [|c t Hc _ IH]; cbn.
  - destruct rest as [|c rest]; [done|]. cbn. by rewrite (Hr c eq_refl).
  - by rewrite Hc, IH.
Qed.

(** *** Padding *)

Lemma number_zeros k t : number_of (replicate k "0"%char ++ t) = number_of t.
Proof. unfold number_of. rewrite foldl_app. f_equal. induction k as [|k IH]; [done|]. exact IH. Qed.

(** A padded number that fits its width has exactly that width, and reads back. *)
Lemma padded_spec width n :
  (0 < width)%nat -> 0 <= n < 10 ^ Z.of_nat width ->
  length (padded width n) = width /\ Forall (fun c => is_digit c = true) (padded width n) /\ number_of (padded width n) = n.
Proof.
  intros Hw Hn. destruct (to_dec_digits n ltac:(lia)) as (Hf & Hv & _ & _ & Hl). specialize (Hl width Hw ltac:(lia)).
  unfold padded. split_and!.
  - rewrite length_app, length_replicate. lia.
  - apply Forall_app_2; [|done]. by apply Forall_replicate.
  - by rewrite number_zeros.
Qed.
