(* ===== verification/Time.v ===== *)
(** * Timestamps as text ([src/time.cpp])

    [to_rfc3339_utc] with its conversion of a day count to a date, and the
    proleptic Gregorian calendar it is measured against: a year is 365 days or,
    if it is a leap year, 366, and a date is counted by adding up years and
    months. *)
From S2P Require Import Prelude OrdMap Types Text.
From Stdlib Require Import (notations) Ascii.
#[local] Open Scope Z_scope.

(** Division truncates towards zero, as it does in the source; the era is taken
    so that the rest is a day of the era. *)
Definition civil_from_days (days : Z) : Z * Z * Z :=
  let days := days + 719468 in
  let era := Z.quot (if 0 <=? days then days else days - 146096) 146097 in
  let doe := wrap64 (days - era * 146097) in
  let yoe := (doe - doe / 1460 + doe / 36524 - doe / 146096) / 365 in
  let y := yoe + era * 400 in
  let doy := doe - (365 * yoe + yoe / 4 - yoe / 100) in
  let mp := (5 * doy + 2) / 153 in
  let day := doy - (153 * mp + 2) / 5 + 1 in
  let month := wrap32 (mp + (if mp <? 10 then 3 else -9)) in
  (y + (if month <=? 2 then 1 else 0), month, day).

(** Nanoseconds since the epoch as days, the second of the day and the fraction. *)
Definition split_instant (nanos : Z) : Z * Z * Z :=
  let seconds := Z.quot nanos 1000000000 in
  let fraction := Z.rem nanos 1000000000 in
  let '(seconds, fraction) := if fraction <? 0 then (seconds - 1, fraction + 1000000000) else (seconds, fraction) in
  let days := Z.quot seconds 86400 in
  let second_of_day := Z.rem seconds 86400 in
  let '(days, second_of_day) := if second_of_day <? 0 then (days - 1, second_of_day + 86400) else (days, second_of_day) in
  (days, second_of_day, fraction).

(** The text fits the buffer for every year of at most twelve digits. *)
Definition to_rfc3339_utc (nanos : Z) : Text :=
  let '(days, second_of_day, fraction) := split_instant nanos in
  let '(year, month, day) := civil_from_days days in
  padded 4 year ++ ["-"%char] ++ padded 2 month ++ ["-"%char] ++ padded 2 day ++ ["T"%char]
    ++ padded 2 (second_of_day / 3600) ++ [":"%char] ++ padded 2 (second_of_day mod 3600 / 60) ++ [":"%char]
    ++ padded 2 (second_of_day mod 60) ++ ["."%char] ++ padded 9 fraction ++ ["Z"%char].

(** ** The calendar *)

Definition is_leap (year : Z) : bool := (year mod 4 =? 0) && (negb (year mod 100 =? 0) || (year mod 400 =? 0)).

Definition days_in_month (year month : Z) : Z :=
  if month =? 2 then if is_leap year then 29 else 28
  else if (month =? 4) || (month =? 6) || (month =? 9) || (month =? 11) then 30 else 31.

(** The leap years before a year, and the day a year starts on. *)
Definition leap_years (year : Z) : Z := (year - 1) / 4 - (year - 1) / 100 + (year - 1) / 400.
Definition year_start (year : Z) : Z := 365 * (year - 1970) + leap_years year - leap_years 1970.

(** The days of a year before a month. *)
Definition month_start (year month : Z) : Z :=
  foldl Z.add 0 (days_in_month year <$> seqZ 1 (month - 1)).

(** The days from the epoch to a date. *)
Definition days_of_date (year month day : Z) : Z := year_start year + month_start year month + (day - 1).

Definition valid_date (year month day : Z) : Prop := 1 <= month <= 12 /\ 1 <= day <= days_in_month year month.

(** [year_start] counts year by year from the epoch. *)
Lemma year_start_epoch : year_start 1970 = 0.
Proof. done. Qed.

Lemma year_start_next year : year_start (year + 1) = year_start year + (if is_leap year then 366 else 365).
Proof.
  unfold year_start, leap_years, is_leap. replace (year + 1 - 1) with year by lia.
  destruct (Z.eqb_spec (year mod 4) 0), (Z.eqb_spec (year mod 100) 0), (Z.eqb_spec (year mod 400) 0); cbn [andb orb negb];
    Z.div_mod_to_equations; lia.
Qed.

Lemma month_start_values year :
  month_start year <$> seqZ 1 12 =
    (let f := if is_leap year then 29 else 28 in
     [0; 31; 31 + f; 62 + f; 92 + f; 123 + f; 153 + f; 184 + f; 215 + f; 245 + f; 276 + f; 306 + f]).
Proof. unfold month_start, days_in_month. cbn. by destruct (is_leap year). Qed.

(** ** The date of a day

    The code counts years from March in eras of 400 years, 146097 days. *)

(** The days of an era before one of its years. *)
Definition era_day (yoe : Z) : Z := 365 * yoe + yoe / 4 - yoe / 100 + yoe / 400.
Definition year_of_era (doe : Z) : Z := (doe - doe / 1460 + doe / 36524 - doe / 146096) / 365.

Lemma era_floor d : Z.quot (if 0 <=? d then d else d - 146096) 146097 = d / 146097.
Proof. destruct (Z.leb_spec 0 d); Z.to_euclidean_division_equations; lia. Qed.

Lemma year_of_era_spec doe :
  0 <= doe < 146097 ->
  0 <= year_of_era doe < 400 /\ era_day (year_of_era doe) <= doe < era_day (year_of_era doe + 1).
Proof.
  intros Hd. assert (Hlow : era_day (year_of_era doe) <= doe) by (unfold era_day, year_of_era; Z.div_mod_to_equations; lia).
  assert (Hrange : 0 <= year_of_era doe < 400) by (unfold year_of_era; Z.div_mod_to_equations; lia).
  assert (Hhigh : doe < era_day (year_of_era doe + 1)) by (unfold era_day, year_of_era; Z.div_mod_to_equations; lia).
  split; [done|lia].
Qed.

(** A year counted from March is one day longer when the calendar year it ends in
    is a leap year. *)
Lemma era_day_next y : era_day (y + 1) - era_day y = if is_leap (y + 1) then 366 else 365.
Proof.
  unfold era_day, is_leap.
  destruct (Z.eqb_spec ((y + 1) mod 4) 0), (Z.eqb_spec ((y + 1) mod 100) 0), (Z.eqb_spec ((y + 1) mod 400) 0); cbn [andb orb negb];
    Z.div_mod_to_equations; lia.
Qed.

Lemma era_day_shift y era : era_day (y + era * 400) = era_day y + era * 146097.
Proof. unfold era_day. Z.div_mod_to_equations; lia. Qed.

Lemma march_month year : month_start year 3 = if is_leap year then 60 else 59.
Proof. unfold month_start, days_in_month. cbn. by destruct (is_leap year). Qed.

(** March starts a year counted from March. *)
Lemma march_start year : year_start year + month_start year 3 = era_day year - 719468.
Proof.
  rewrite march_month. unfold year_start, era_day, leap_years, is_leap.
  destruct (Z.eqb_spec (year mod 4) 0), (Z.eqb_spec (year mod 100) 0), (Z.eqb_spec (year mod 400) 0); cbn [andb orb negb];
    Z.div_mod_to_equations; lia.
Qed.

(** The months from March on, as the code finds them. *)
Lemma month_table year mp :
  0 <= mp < 10 ->
  month_start year (mp + 3) = month_start year 3 + (153 * mp + 2) / 5 /\
  days_in_month year (mp + 3) = (153 * (mp + 1) + 2) / 5 - (153 * mp + 2) / 5.
Proof.
  intros Hm. assert (mp = 0 \/ mp = 1 \/ mp = 2 \/ mp = 3 \/ mp = 4 \/ mp = 5 \/ mp = 6 \/ mp = 7 \/ mp = 8 \/ mp = 9) as Hc by lia.
  unfold month_start, days_in_month.
  destruct Hc as [-> | [-> | [-> | [-> | [-> | [-> | [-> | [-> | [-> | ->]]]]]]]]]; cbn; by destruct (is_leap year).
Qed.

(** The tenth and eleventh month from March are those before the next March. *)
Lemma january_start year : year_start (year + 1) = era_day year - 719468 + 306.
Proof.
  rewrite year_start_next, <- march_start, march_month. destruct (is_leap year); lia.
Qed.

Lemma date_of_day y doy mp :
  mp = (5 * doy + 2) / 153 -> 0 <= doy < (if is_leap (y + 1) then 366 else 365) ->
  let day := doy - (153 * mp + 2) / 5 + 1 in
  let month := mp + (if mp <? 10 then 3 else -9) in
  let year := y + (if month <=? 2 then 1 else 0) in
  0 <= mp < 12 /\ valid_date year month day /\ days_of_date year month day = era_day y - 719468 + doy.
Proof.
  intros -> Hd. set (mp := (5 * doy + 2) / 153). cbv zeta.
  assert (Hmp : 0 <= mp < 12) by (unfold mp; destruct (is_leap (y + 1)); Z.div_mod_to_equations; lia).
  assert (Hlow : (153 * mp + 2) / 5 <= doy) by (unfold mp; Z.div_mod_to_equations; lia).
  assert (Hhigh : doy < (153 * (mp + 1) + 2) / 5) by (unfold mp; Z.div_mod_to_equations; lia).
  split; [done|]. unfold valid_date, days_of_date. destruct (Z.ltb_spec mp 10) as [Hlt|Hge].
  - rewrite (proj2 (Z.leb_gt _ _)) by lia. replace (y + 0) with y by lia.
    destruct (month_table y mp ltac:(lia)) as [-> ->]. pose proof (march_start y). split; [lia|lia].
  - rewrite (proj2 (Z.leb_le _ _)) by lia. rewrite january_start. clearbody mp.
    assert (mp = 10 \/ mp = 11) as [-> | ->] by lia.
    + change (10 + -9) with 1. change ((153 * 10 + 2) / 5) with 306 in *. change ((153 * (10 + 1) + 2) / 5) with 337 in *.
      change (month_start (y + 1) 1) with 0. change (days_in_month (y + 1) 1) with 31. lia.
    + change (11 + -9) with 2. change ((153 * 11 + 2) / 5) with 337 in *. change (month_start (y + 1) 2) with 31.
      change (days_in_month (y + 1) 2) with (if is_leap (y + 1) then 29 else 28). destruct (is_leap (y + 1)); lia.
Qed.

Lemma civil_date_days days :
  is_i64 (days * 86400) ->
  let '(year, month, day) := civil_from_days days in
  valid_date year month day /\ days_of_date year month day = days.
Proof.
  intros Hdays. unfold civil_from_days. rewrite era_floor. set (era := (days + 719468) / 146097).
  assert (Hdoe : 0 <= days + 719468 - era * 146097 < 146097) by (unfold era; Z.div_mod_to_equations; lia).
  rewrite wrap64_small by (unfold is_u64; lia). set (doe := days + 719468 - era * 146097) in *.
  fold (year_of_era doe). destruct (year_of_era_spec doe Hdoe) as [Hyoe Hyear]. set (yoe := year_of_era doe) in *.
  pose proof (era_day_next (yoe + era * 400)) as Hnext. replace (yoe + era * 400 + 1) with (yoe + 1 + era * 400) in Hnext by lia.
  rewrite !era_day_shift in Hnext.
  assert (Hflat : era_day yoe = 365 * yoe + yoe / 4 - yoe / 100) by (unfold era_day; rewrite (Z.div_small yoe 400) by lia; lia).
  rewrite <- Hflat. set (doy := doe - era_day yoe) in *.
  pose proof (date_of_day (yoe + era * 400) doy _ eq_refl) as Hdate. replace (yoe + era * 400 + 1) with (yoe + 1 + era * 400) in Hdate by lia.
  destruct Hdate as (Hmp & Hvalid & Hcount); [lia|].
  rewrite wrap32_small by (unfold is_u32; destruct (_ <? 10) eqn:E; lia).
  split; [exact Hvalid|]. rewrite Hcount, era_day_shift. lia.
Qed.

(** The date is the date. For every day count of a 64-bit time stamp the code
    finds a date of the calendar, its month between one and twelve and its day in
    the month, that lies exactly that many days after 1 January 1970. *)
Theorem civil_date days :
  is_i64 (days * 86400) ->
  let '(year, month, day) := civil_from_days days in
  valid_date year month day /\ days_of_date year month day = days.
Proof. apply civil_date_days. Qed.

(** ** Reading a time stamp back *)

(** The number in the first [count] characters, which must be digits, a separator
    behind it, and the rest. *)
Definition next_field (count : nat) (separator : Ascii.ascii) (t : Text) : option (Z * Text) :=
  match drop count t with
  | c :: rest => if Ascii.eqb c separator && forallb is_digit (take count t) then Some (number_of (take count t), rest) else None
  | [] => None
  end.

#[export] Instance valid_date_dec year month day : Decision (valid_date year month day).
Proof. unfold valid_date. apply _. Defined.

Definition valid_clock (hour minute second : Z) : Prop := hour < 24 /\ minute < 60 /\ second < 60.

#[export] Instance valid_clock_dec hour minute second : Decision (valid_clock hour minute second).
Proof. unfold valid_clock. apply _. Defined.

(** The instant a text of the form [yyyy-mm-ddThh:mm:ss.nnnnnnnnnZ] denotes: there
    is none unless the date exists and the clock shows the time. *)
Definition instant_of (t : Text) : option Z :=
  '(year, t) ← next_field 4 "-" t; '(month, t) ← next_field 2 "-" t; '(day, t) ← next_field 2 "T" t;
  '(hour, t) ← next_field 2 ":" t; '(minute, t) ← next_field 2 ":" t; '(second, t) ← next_field 2 "." t;
  '(fraction, t) ← next_field 9 "Z" t;
  guard (valid_date year month day);; guard (valid_clock hour minute second);; guard (t = []);;
  Some ((days_of_date year month day * 86400 + hour * 3600 + minute * 60 + second) * 1000000000 + fraction).

Lemma split_instant_floor nanos :
  split_instant nanos = (nanos / 86400000000000, nanos / 1000000000 mod 86400, nanos mod 1000000000).
Proof.
  unfold split_instant.
  destruct (Z.ltb_spec (Z.rem nanos 1000000000) 0).
  - destruct (Z.ltb_spec (Z.rem (Z.quot nanos 1000000000 - 1) 86400) 0); f_equal; [f_equal|..|f_equal|];
      Z.to_euclidean_division_equations; lia.
  - destruct (Z.ltb_spec (Z.rem (Z.quot nanos 1000000000) 86400) 0); f_equal; [f_equal|..|f_equal|];
      Z.to_euclidean_division_equations; lia.
Qed.

(** A 64-bit count of nanoseconds reaches from 1677 to 2262. *)
Lemma civil_year days : -106752 <= days <= 106752 -> 1600 <= (civil_from_days days).1.1 <= 2400.
Proof.
  intros Hd. unfold civil_from_days. rewrite era_floor. cbn [fst]. set (era := (days + 719468) / 146097).
  assert (He : 4 <= era <= 5) by (unfold era; Z.div_mod_to_equations; lia).
  assert (Hdoe : 0 <= days + 719468 - era * 146097 < 146097) by (unfold era; Z.div_mod_to_equations; lia).
  rewrite wrap64_small by (unfold is_u64; lia). fold (year_of_era (days + 719468 - era * 146097)).
  destruct (year_of_era_spec _ Hdoe) as [Hy _]. destruct (_ <=? 2); lia.
Qed.

Lemma next_field_app (p rest : Text) count separator :
  length p = count -> Forall (fun c => is_digit c = true) p ->
  next_field count separator (p ++ [separator] ++ rest) = Some (number_of p, rest).
Proof.
  intros <- Hd. unfold next_field. rewrite drop_app_length, take_app_length. cbn. rewrite Ascii.eqb_refl.
  replace (forallb is_digit p) with true; [done|]. symmetry. apply forallb_forall. intros c Hc.
  rewrite Forall_forall in Hd. by apply Hd, list_elem_of_In.
Qed.

(** C37: A time stamp names its instant. The text of every 64-bit count of
    nanoseconds has thirty characters; its date is a date of the Gregorian calendar
    (thirty days hath September, and the leap rule), its clock stays below 24 hours,
    60 minutes and 60 seconds, and the date, the clock and the nine digits of
    fraction denote exactly that count, also before 1970. *)
Theorem rfc3339_exact nanos :
  is_i64 nanos -> length (to_rfc3339_utc nanos) = 30%nat /\ instant_of (to_rfc3339_utc nanos) = Some nanos.
Proof.
  intros Hn. unfold to_rfc3339_utc. rewrite split_instant_floor. set (days := nanos / 86400000000000).
  set (second := nanos / 1000000000 mod 86400). set (fraction := nanos mod 1000000000).
  assert (Hdays : -106752 <= days <= 106752) by (unfold days, is_i64 in *; Z.div_mod_to_equations; lia).
  assert (Hsec : 0 <= second < 86400) by (unfold second; apply Z.mod_pos_bound; lia).
  assert (Hfrac : 0 <= fraction < 1000000000) by (unfold fraction; apply Z.mod_pos_bound; lia).
  assert (Hall : nanos = (days * 86400 + second) * 1000000000 + fraction)
    by (unfold days, second, fraction; Z.div_mod_to_equations; lia).
  clearbody days second fraction.
  pose proof (civil_year days Hdays) as Hyear. pose proof (civil_date_days days ltac:(unfold is_i64; lia)) as Hdate.
  destruct (civil_from_days days) as [[year month] day]. cbn [fst] in Hyear. destruct Hdate as [[Hm Hd] Hcount].
  assert (Hday : day <= 31) by (revert Hd; unfold days_in_month; repeat case_match; lia).
  destruct (padded_spec 4 year) as (L1 & D1 & V1); [lia|cbn; lia|].
  destruct (padded_spec 2 month) as (L2 & D2 & V2); [lia|cbn; lia|].
  destruct (padded_spec 2 day) as (L3 & D3 & V3); [lia|cbn; lia|].
  destruct (padded_spec 2 (second / 3600)) as (L4 & D4 & V4); [lia|cbn; Z.div_mod_to_equations; lia|].
  destruct (padded_spec 2 (second mod 3600 / 60)) as (L5 & D5 & V5); [lia|cbn; Z.div_mod_to_equations; lia|].
  destruct (padded_spec 2 (second mod 60)) as (L6 & D6 & V6); [lia|cbn; Z.div_mod_to_equations; lia|].
  destruct (padded_spec 9 fraction) as (L7 & D7 & V7); [lia|cbn; lia|].
  split; [rewrite !length_app, L1, L2, L3, L4, L5, L6, L7; done|].
  unfold instant_of. rewrite next_field_app by done. cbn [mbind option_bind].
  do 5 (rewrite next_field_app by done; cbn [mbind option_bind]).
  rewrite (next_field_app (padded 9 fraction) []) by done. cbn [mbind option_bind].
  rewrite V1, V2, V3, V4, V5, V6, V7. rewrite option_guard_True by done.
  rewrite option_guard_True by (unfold valid_clock; Z.div_mod_to_equations; lia). rewrite option_guard_True by done.
  rewrite Hcount. f_equal.
  rewrite Hall. Z.div_mod_to_equations; lia.
Qed.

(** The reader knows the calendar: June has thirty days, and 1900 had no leap day. *)
Example no_such_days :
  instant_of (chars "2010-06-31T00:00:00.000000000Z") = None /\ instant_of (chars "1900-02-29T00:00:00.000000000Z") = None.
Proof. vm_compute. by split. Qed.

(** A leap day, and the last nanosecond before the epoch. *)
Example leap_day : to_rfc3339_utc 951826271000000007 = chars "2000-02-29T12:11:11.000000007Z".
Proof. vm_compute. reflexivity. Qed.

Example before_epoch : to_rfc3339_utc (-1) = chars "1969-12-31T23:59:59.999999999Z".
Proof. vm_compute. reflexivity. Qed.

Lemma civil_date_witness : let '(year, month, day) := civil_from_days (-1) in
  valid_date year month day /\ days_of_date year month day = -1.
Proof. apply (civil_date (-1)). vm_compute. split; congruence. Defined.

Lemma rfc3339_exact_witness :
  length (to_rfc3339_utc (-1)) = 30%nat /\ instant_of (to_rfc3339_utc (-1)) = Some (-1).
Proof. apply (rfc3339_exact (-1)). vm_compute. split; congruence. Defined.
