(* ===== verification/Names.v ===== *)
(** * The names of the enumerators

    [to_string] and the [parse_...] functions of [authority.cpp], [capability.cpp],
    [identity.cpp], [graph.cpp], [evidence.cpp], [error.cpp], [persistence.cpp] and
    [registry.cpp].  Where the source looks a value up in a table, so does the
    model. *)
From S2P Require Import Prelude OrdMap Types.
#[local] Open Scope string_scope.

(** [name_from_table], [lookup]: the first name of a value, or a default. *)
Fixpoint name_from_table {E} `{EqDecision E} (table : list (string * E)) (fallback : string) (value : E) : string :=
  match table with
  | [] => fallback
  | entry :: table => if bool_decide (entry.2 = value) then entry.1 else name_from_table table fallback value
  end.

(** [parse_from_table]. *)
Fixpoint parse_from_table {E} (table : list (string * E)) (text : string) : option E :=
  match table with
  | [] => None
  | entry :: table => if bool_decide (text = entry.1) then Some entry.2 else parse_from_table table text
  end.

(** The overloads of [to_string]. *)
Class Named (E : Type) := to_name : E -> string.

Definition kAuthorityNames : list (string * AuthorityClass.t) :=
  [("Speculative", AuthorityClass.Speculative); ("Imported", AuthorityClass.Imported);
   ("Observed", AuthorityClass.Observed); ("Declared", AuthorityClass.Declared);
   ("Authoritative", AuthorityClass.Authoritative)].

Definition kProvenanceNames : list (string * ProvenanceClass.t) :=
  [("Unknown", ProvenanceClass.Unknown); ("OperatorEntry", ProvenanceClass.OperatorEntry);
   ("AssetImport", ProvenanceClass.AssetImport); ("DiscoveryAgent", ProvenanceClass.DiscoveryAgent);
   ("PhysicalMeasurement", ProvenanceClass.PhysicalMeasurement);
   ("Reconciliation", ProvenanceClass.Reconciliation); ("Synthetic", ProvenanceClass.Synthetic)].

Definition kMediaNames : list (string * MediaClass.t) :=
  [("Unknown", MediaClass.Unknown); ("CopperTwinax", MediaClass.CopperTwinax);
   ("CopperTwistedPair", MediaClass.CopperTwistedPair); ("MultimodeFiber", MediaClass.MultimodeFiber);
   ("SinglemodeFiber", MediaClass.SinglemodeFiber); ("ActiveOptical", MediaClass.ActiveOptical);
   ("DirectAttachCopper", MediaClass.DirectAttachCopper); ("PowerBus", MediaClass.PowerBus);
   ("Other", MediaClass.Other)].

Definition kConnectorNames : list (string * ConnectorClass.t) :=
  [("Unknown", ConnectorClass.Unknown); ("Rj45", ConnectorClass.Rj45); ("Sfp", ConnectorClass.Sfp);
   ("SfpPlus", ConnectorClass.SfpPlus); ("Sfp28", ConnectorClass.Sfp28); ("Qsfp", ConnectorClass.Qsfp);
   ("Qsfp28", ConnectorClass.Qsfp28); ("Qsfp56", ConnectorClass.Qsfp56); ("QsfpDd", ConnectorClass.QsfpDd);
   ("Ospf", ConnectorClass.Ospf); ("Mpo12", ConnectorClass.Mpo12); ("Mpo16", ConnectorClass.Mpo16);
   ("Mpo24", ConnectorClass.Mpo24); ("Lc", ConnectorClass.Lc); ("Sc", ConnectorClass.Sc);
   ("Cs", ConnectorClass.Cs); ("Sn", ConnectorClass.Sn); ("BareFiber", ConnectorClass.BareFiber);
   ("Other", ConnectorClass.Other)].

Definition kObjectKindNames : list (string * ObjectKind.t) :=
  [("Unknown", ObjectKind.Unknown); ("Cable", ObjectKind.Cable); ("PatchCord", ObjectKind.PatchCord);
   ("Trunk", ObjectKind.Trunk); ("Breakout", ObjectKind.Breakout); ("Adapter", ObjectKind.Adapter);
   ("PassiveModule", ObjectKind.PassiveModule); ("Loopback", ObjectKind.Loopback);
   ("Other", ObjectKind.Other)].

Definition kEndpointKindNames : list (string * EndpointKind.t) :=
  [("Unknown", EndpointKind.Unknown); ("Host", EndpointKind.Host); ("Switch", EndpointKind.Switch);
   ("Router", EndpointKind.Router); ("PatchPanel", EndpointKind.PatchPanel);
   ("AdapterChassis", EndpointKind.AdapterChassis); ("OpticalShelter", EndpointKind.OpticalShelter);
   ("Other", EndpointKind.Other)].

Definition kLifecycleStates : list (string * LifecycleState.t) :=
  [("Registered", LifecycleState.Registered); ("Unattached", LifecycleState.Unattached);
   ("Attached", LifecycleState.Attached); ("Quarantined", LifecycleState.Quarantined);
   ("Removed", LifecycleState.Removed); ("Retired", LifecycleState.Retired);
   ("Conflicting", LifecycleState.Conflicting)].

Definition kLifecycleActions : list (string * LifecycleAction.t) :=
  [("Present", LifecycleAction.Present); ("Quarantined", LifecycleAction.Quarantined);
   ("Removed", LifecycleAction.Removed); ("Retired", LifecycleAction.Retired)].

Definition kLifecycleEvents : list (string * LifecycleEventKind.t) :=
  [("Registered", LifecycleEventKind.Registered); ("Attached", LifecycleEventKind.Attached);
   ("Detached", LifecycleEventKind.Detached); ("Moved", LifecycleEventKind.Moved);
   ("Reincarnated", LifecycleEventKind.Reincarnated); ("Quarantined", LifecycleEventKind.Quarantined);
   ("Released", LifecycleEventKind.Released); ("Removed", LifecycleEventKind.Removed);
   ("Retired", LifecycleEventKind.Retired)].

Definition kValidationStates : list (string * ValidationState.t) :=
  [("Unvalidated", ValidationState.Unvalidated); ("PartiallyValidated", ValidationState.PartiallyValidated);
   ("Validated", ValidationState.Validated)].

Definition kValidationPolicies : list (string * ValidationPolicy.t) :=
  [("IncludeAll", ValidationPolicy.IncludeAll); ("LiveOnly", ValidationPolicy.LiveOnly)].

Definition kConflictReasons : list (string * ConflictReason.t) :=
  [("None", ConflictReason.None); ("TooManyAttachments", ConflictReason.TooManyAttachments);
   ("EmptyAndOccupied", ConflictReason.EmptyAndOccupied);
   ("ObjectSideDoubleBooked", ConflictReason.ObjectSideDoubleBooked);
   ("LifecycleConflict", ConflictReason.LifecycleConflict);
   ("CapabilityConflict", ConflictReason.CapabilityConflict);
   ("IncompatibleConnector", ConflictReason.IncompatibleConnector)].

Definition kMediaReason : list (string * ConflictReason.t) :=
  [("IncompatibleMedia", ConflictReason.IncompatibleMedia)].

Definition kPortStates : list (string * PortAttachmentState.t) :=
  [("Unknown", PortAttachmentState.Unknown); ("Empty", PortAttachmentState.Empty);
   ("Attached", PortAttachmentState.Attached); ("Conflicting", PortAttachmentState.Conflicting)].

Definition kEvidenceKinds : list (string * EvidenceKind.t) :=
  [("RegisterObject", EvidenceKind.RegisterObject); ("RegisterEndpoint", EvidenceKind.RegisterEndpoint);
   ("Attach", EvidenceKind.Attach); ("Detach", EvidenceKind.Detach); ("Move", EvidenceKind.Move);
   ("PublishObjectCapability", EvidenceKind.PublishObjectCapability);
   ("PublishPortCapability", EvidenceKind.PublishPortCapability); ("SetLifecycle", EvidenceKind.SetLifecycle);
   ("ReincarnateObject", EvidenceKind.ReincarnateObject)].

Definition kDispositions : list (string * IngestDisposition.t) :=
  [("Accepted", IngestDisposition.Accepted); ("AcceptedFencedSource", IngestDisposition.AcceptedFencedSource);
   ("AcceptedFencedIncarnation", IngestDisposition.AcceptedFencedIncarnation);
   ("AcceptedPendingReference", IngestDisposition.AcceptedPendingReference);
   ("AcceptedPendingIncarnation", IngestDisposition.AcceptedPendingIncarnation);
   ("AcceptedSuperseded", IngestDisposition.AcceptedSuperseded); ("Duplicate", IngestDisposition.Duplicate);
   ("RefusedUnknownSource", IngestDisposition.RefusedUnknownSource);
   ("RefusedLabelConflict", IngestDisposition.RefusedLabelConflict);
   ("RefusedConflict", IngestDisposition.RefusedConflict);
   ("RefusedInvalid", IngestDisposition.RefusedInvalid);
   ("RefusedCapacity", IngestDisposition.RefusedCapacity); ("RefusedClosed", IngestDisposition.RefusedClosed);
   ("RefusedPersistence", IngestDisposition.RefusedPersistence)].

Definition error_code_name (value : ErrorCode.t) : string :=
  match value with
  | ErrorCode.Ok => "ok"
  | ErrorCode.InvalidArgument => "invalid-argument"
  | ErrorCode.NotFound => "not-found"
  | ErrorCode.CapacityExceeded => "capacity-exceeded"
  | ErrorCode.Conflict => "conflict"
  | ErrorCode.Fenced => "fenced"
  | ErrorCode.UnsupportedVersion => "unsupported-version"
  | ErrorCode.PersistenceFailure => "persistence-failure"
  | ErrorCode.CorruptStore => "corrupt-store"
  | ErrorCode.TruncatedStore => "truncated-store"
  | ErrorCode.IoFailure => "io-failure"
  | ErrorCode.ProtocolViolation => "protocol-violation"
  | ErrorCode.Closed => "closed"
  | ErrorCode.PermissionDenied => "permission-denied"
  | ErrorCode.Internal => "internal"
  end.

Definition recovery_policy_name (value : RecoveryPolicy.t) : string :=
  match value with
  | RecoveryPolicy.Strict => "strict"
  | RecoveryPolicy.SalvagePrefix => "salvage-prefix"
  end.

Definition record_kind_name (value : RecordKind.t) : string :=
  match value with
  | RecordKind.SessionOpen => "session-open"
  | RecordKind.SessionClose => "session-close"
  | RecordKind.Evidence => "evidence"
  | RecordKind.StateSnapshot => "state-snapshot"
  end.

Definition recovery_issue_name (value : RecoveryIssue.t) : string :=
  match value with
  | RecoveryIssue.Created => "created"
  | RecoveryIssue.CleanOpen => "clean-open"
  | RecoveryIssue.TruncatedTail => "truncated-tail"
  | RecoveryIssue.CorruptRecordSalvaged => "corrupt-record-salvaged"
  | RecoveryIssue.BadHeader => "bad-header"
  | RecoveryIssue.ChainBreak => "chain-break"
  | RecoveryIssue.UnsupportedVersion => "unsupported-version"
  | RecoveryIssue.IoFailure => "io-failure"
  end.

Definition open_session_disposition_name (value : OpenSessionDisposition.t) : string :=
  match value with
  | OpenSessionDisposition.Opened => "opened"
  | OpenSessionDisposition.Resumed => "resumed"
  | OpenSessionDisposition.Reopened => "reopened"
  | OpenSessionDisposition.NewIncarnation => "new-incarnation"
  | OpenSessionDisposition.RefusedFenced => "refused-fenced"
  | OpenSessionDisposition.RefusedDescriptorConflict => "refused-descriptor-conflict"
  | OpenSessionDisposition.RefusedInvalid => "refused-invalid"
  | OpenSessionDisposition.RefusedCapacity => "refused-capacity"
  | OpenSessionDisposition.RefusedPersistence => "refused-persistence"
  | OpenSessionDisposition.RefusedClosed => "refused-closed"
  end.

Definition authority_class_name := name_from_table kAuthorityNames "Speculative".
Definition parse_authority_class := parse_from_table kAuthorityNames.
Definition provenance_class_name := name_from_table kProvenanceNames "Unknown".
Definition parse_provenance_class := parse_from_table kProvenanceNames.
Definition media_class_name := name_from_table kMediaNames "Unknown".
Definition parse_media_class := parse_from_table kMediaNames.
Definition connector_class_name := name_from_table kConnectorNames "Unknown".
Definition parse_connector_class := parse_from_table kConnectorNames.
Definition object_kind_name := name_from_table kObjectKindNames "Unknown".
Definition parse_object_kind := parse_from_table kObjectKindNames.
Definition endpoint_kind_name := name_from_table kEndpointKindNames "Unknown".
Definition parse_endpoint_kind := parse_from_table kEndpointKindNames.
Definition lifecycle_state_name := name_from_table kLifecycleStates "Unknown".
Definition parse_lifecycle_state := parse_from_table kLifecycleStates.
Definition lifecycle_action_name := name_from_table kLifecycleActions "Unknown".
Definition parse_lifecycle_action := parse_from_table kLifecycleActions.
Definition lifecycle_event_name := name_from_table kLifecycleEvents "Unknown".
Definition validation_state_name := name_from_table kValidationStates "Unknown".
Definition validation_policy_name := name_from_table kValidationPolicies "Unknown".
Definition conflict_reason_name (value : ConflictReason.t) : string :=
  if bool_decide (value = ConflictReason.IncompatibleMedia) then name_from_table kMediaReason "Unknown" value
  else name_from_table kConflictReasons "Unknown" value.
Definition port_state_name := name_from_table kPortStates "Unknown".
Definition evidence_kind_name := name_from_table kEvidenceKinds "RegisterObject".
Definition parse_evidence_kind := parse_from_table kEvidenceKinds.
Definition disposition_name := name_from_table kDispositions "RefusedInvalid".

#[export] Instance named_authority : Named AuthorityClass.t := authority_class_name.
#[export] Instance named_provenance : Named ProvenanceClass.t := provenance_class_name.
#[export] Instance named_media : Named MediaClass.t := media_class_name.
#[export] Instance named_connector : Named ConnectorClass.t := connector_class_name.
#[export] Instance named_object_kind : Named ObjectKind.t := object_kind_name.
#[export] Instance named_endpoint_kind : Named EndpointKind.t := endpoint_kind_name.
#[export] Instance named_lifecycle_state : Named LifecycleState.t := lifecycle_state_name.
#[export] Instance named_lifecycle_action : Named LifecycleAction.t := lifecycle_action_name.
#[export] Instance named_lifecycle_event : Named LifecycleEventKind.t := lifecycle_event_name.
#[export] Instance named_validation_state : Named ValidationState.t := validation_state_name.
#[export] Instance named_validation_policy : Named ValidationPolicy.t := validation_policy_name.
#[export] Instance named_conflict_reason : Named ConflictReason.t := conflict_reason_name.
#[export] Instance named_port_state : Named PortAttachmentState.t := port_state_name.
#[export] Instance named_evidence_kind : Named EvidenceKind.t := evidence_kind_name.
#[export] Instance named_disposition : Named IngestDisposition.t := disposition_name.
#[export] Instance named_error_code : Named ErrorCode.t := error_code_name.
#[export] Instance named_recovery_policy : Named RecoveryPolicy.t := recovery_policy_name.
#[export] Instance named_record_kind : Named RecordKind.t := record_kind_name.
#[export] Instance named_recovery_issue : Named RecoveryIssue.t := recovery_issue_name.
#[export] Instance named_open_disposition : Named OpenSessionDisposition.t := open_session_disposition_name.

(** [Error::describe]. *)
Definition describe (error : Error) : string :=
  if bool_decide (err_code error = ErrorCode.Ok) then "ok" else to_name (err_code error) +:+ ": " +:+ err_message error.

(** ** Names tell values apart *)

(** A name is read back as the value it was written for. *)
Definition reads_back {E} `{Named E} (parse : string -> option E) : Prop := forall value, parse (to_name value) = Some value.

Ltac by_cases := intros []; vm_compute; reflexivity.

(** Every enumeration that has a reader is read back from its names. *)
Theorem names_read_back :
  reads_back parse_authority_class /\ reads_back parse_provenance_class /\ reads_back parse_media_class /\
  reads_back parse_connector_class /\ reads_back parse_object_kind /\ reads_back parse_endpoint_kind /\
  reads_back parse_lifecycle_state /\ reads_back parse_lifecycle_action /\ reads_back parse_evidence_kind.
Proof. repeat split; by_cases. Qed.

(** The enumerations without a reader have different names for different values
    as well. *)
Theorem names_differ :
  Inj (=) (=) (to_name (E := LifecycleEventKind.t)) /\ Inj (=) (=) (to_name (E := ValidationState.t)) /\
  Inj (=) (=) (to_name (E := ValidationPolicy.t)) /\ Inj (=) (=) (to_name (E := ConflictReason.t)) /\
  Inj (=) (=) (to_name (E := PortAttachmentState.t)) /\ Inj (=) (=) (to_name (E := IngestDisposition.t)) /\
  Inj (=) (=) (to_name (E := ErrorCode.t)) /\ Inj (=) (=) (to_name (E := RecoveryIssue.t)) /\
  Inj (=) (=) (to_name (E := OpenSessionDisposition.t)).
Proof. repeat split; intros [] []; vm_compute; congruence. Qed.
