(* ===== verification/Json.v ===== *)
(** * The JSON writer ([src/render.cpp]) and a reader of JSON

    [JsonWriter] appends to a text and keeps one flag per open container.  The
    reader is the grammar of RFC 8259, for the integers and the characters the
    writer produces.  [writes f j] says that the operations [f] put the value [j]
    where a value may stand, whatever was written before; from it follows that a
    reader of the whole text finds [j]. *)
From S2P Require Import Prelude OrdMap Types Ids Text.
From Stdlib Require Import (notations) Ascii.
#[local] Open Scope Z_scope.

(** ** The writer *)

Record JsonWriter := mkWriter {
  jw_out : Text;
  jw_pretty : bool;
  jw_stack : list bool;
  jw_after_key : bool;
  jw_depth : Z;
}.

Definition new_writer (pretty : bool) : JsonWriter := mkWriter [] pretty [] false 0.

Definition quote : Ascii.ascii := "034".
Definition backslash : Ascii.ascii := "\".

Definition kDigits : Text := chars "0123456789abcdef".

(** One character of [write_escaped]. *)
Definition escape (c : Ascii.ascii) : Text :=
  if Ascii.eqb c quote then [backslash; quote]
  else if Ascii.eqb c backslash then [backslash; backslash]
  else if Ascii.eqb c "010" then [backslash; "n"%char]
  else if Ascii.eqb c "013" then [backslash; "r"%char]
  else if Ascii.eqb c "009" then [backslash; "t"%char]
  else if byte_of_ascii c <? 32 then
    [backslash; "u"%char; "0"%char; "0"%char;
     default "0"%char (kDigits !! Z.to_nat (Z.land (Z.shiftr (byte_of_ascii c) 4) 15));
     default "0"%char (kDigits !! Z.to_nat (Z.land (byte_of_ascii c) 15))]
  else [c].

Definition write_escaped (text : Text) : Text := [quote] ++ (text ≫= escape) ++ [quote].

Definition append (t : Text) (w : JsonWriter) : JsonWriter :=
  mkWriter (jw_out w ++ t) (jw_pretty w) (jw_stack w) (jw_after_key w) (jw_depth w).

(** [indent]: two blanks per level. *)
Definition indent (depth : Z) : Text := replicate (Z.to_nat (2 * depth)) " "%char.

(** The break before a member, and the comma if it is not the first. *)
Definition line_break (pretty : bool) (depth : Z) : Text := if pretty then "010"%char :: indent depth else [].
Definition separator (had : bool) : Text := if had then [","%char] else [].

Definition prepare_value (w : JsonWriter) : JsonWriter :=
  if jw_after_key w then mkWriter (jw_out w) (jw_pretty w) (jw_stack w) false (jw_depth w)
  else
    match jw_stack w with
    | [] => w
    | had :: stack =>
        mkWriter (jw_out w ++ separator had ++ line_break (jw_pretty w) (jw_depth w)) (jw_pretty w) (true :: stack) false
          (jw_depth w)
    end.

Definition begin_container (bracket : Ascii.ascii) (w : JsonWriter) : JsonWriter :=
  let w := append [bracket] (prepare_value w) in
  mkWriter (jw_out w) (jw_pretty w) (false :: jw_stack w) (jw_after_key w) (jw_depth w + 1).

Definition end_container (bracket : Ascii.ascii) (w : JsonWriter) : JsonWriter :=
  let had_members := default false (head (jw_stack w)) in
  mkWriter (jw_out w ++ (if had_members then line_break (jw_pretty w) (jw_depth w - 1) else []) ++ [bracket])
    (jw_pretty w) (tail (jw_stack w)) (jw_after_key w) (jw_depth w - 1).

Definition begin_object : JsonWriter -> JsonWriter := begin_container "{".
Definition end_object : JsonWriter -> JsonWriter := end_container "}".
Definition begin_array : JsonWriter -> JsonWriter := begin_container "[".
Definition end_array : JsonWriter -> JsonWriter := end_container "]".

Definition key (name : Text) (w : JsonWriter) : JsonWriter :=
  let '(before, stack) :=
    match jw_stack w with
    | [] => ([], [])
    | had :: stack => (separator had ++ line_break (jw_pretty w) (jw_depth w), true :: stack)
    end in
  mkWriter (jw_out w ++ before ++ write_escaped name ++ [":"%char] ++ (if jw_pretty w then [" "%char] else []))
    (jw_pretty w) stack true (jw_depth w).

(** The values. *)
Definition write_string (value : Text) (w : JsonWriter) : JsonWriter := append (write_escaped value) (prepare_value w).
Definition write_number (value : Z) (w : JsonWriter) : JsonWriter := append (chars (to_dec value)) (prepare_value w).
Definition write_boolean (value : bool) (w : JsonWriter) : JsonWriter :=
  append (chars (if value then "true" else "false")) (prepare_value w).
Definition write_null (w : JsonWriter) : JsonWriter := append (chars "null") (prepare_value w).
Definition write_raw (json : Text) (w : JsonWriter) : JsonWriter := append json (prepare_value w).

Definition field_text (name : string) (value : Text) (w : JsonWriter) : JsonWriter :=
  write_string value (key (chars name) w).
Definition field_string (name : string) (value : string) : JsonWriter -> JsonWriter := field_text name (chars value).
Definition field_number (name : string) (value : Z) (w : JsonWriter) : JsonWriter :=
  write_number value (key (chars name) w).
Definition field_boolean (name : string) (value : bool) (w : JsonWriter) : JsonWriter :=
  write_boolean value (key (chars name) w).

(** ** Values, and their reader *)

#[warnings="-register-all"]
Inductive Json :=
  | JNull
  | JBoolean (b : bool)
  | JNumber (n : Z)
  | JString (s : Text)
  | JArray (elements : list Json)
  | JObject (members : list (Text * Json)).

Definition is_space (c : Ascii.ascii) : bool :=
  Ascii.eqb c " " || Ascii.eqb c "009" || Ascii.eqb c "010" || Ascii.eqb c "013".

Fixpoint skip_space (t : Text) : Text :=
  match t with c :: rest => if is_space c then skip_space rest else t | [] => [] end.

(** The character behind a backslash, other than [u]. *)
Definition unescape (c : Ascii.ascii) : option Ascii.ascii :=
  if Ascii.eqb c quote then Some quote
  else if Ascii.eqb c backslash then Some backslash
  else if Ascii.eqb c "/" then Some "/"%char
  else if Ascii.eqb c "b" then Some "008"%char
  else if Ascii.eqb c "f" then Some "012"%char
  else if Ascii.eqb c "n" then Some "010"%char
  else if Ascii.eqb c "r" then Some "013"%char
  else if Ascii.eqb c "t" then Some "009"%char
  else None.

(** A string, behind its opening quote. Four hexadecimal digits are accepted for
    the characters of ASCII. *)
Fixpoint read_string (t : Text) : option (Text * Text) :=
  match t with
  | [] => None
  | c :: rest =>
      if Ascii.eqb c quote then Some ([], rest)
      else if Ascii.eqb c backslash then
        match rest with
        | [] => None
        | e :: rest =>
            if Ascii.eqb e "u" then
              match rest with
              | a :: b :: h :: l :: rest =>
                  if Ascii.eqb a "0" && Ascii.eqb b "0" && (0 <=? hex_value h) && (hex_value h <? 8) && (0 <=? hex_value l) then
                    '(s, after) ← read_string rest; Some (ascii_of_byte (16 * hex_value h + hex_value l) :: s, after)
                  else None
              | _ => None
              end
            else c ← unescape e; '(s, after) ← read_string rest; Some (c :: s, after)
        end
      else if byte_of_ascii c <? 32 then None
      else '(s, after) ← read_string rest; Some (c :: s, after)
  end.

(** An integer without leading zeros. *)
Definition read_number (t : Text) : option (Z * Text) :=
  let '(negative, t) := match t with c :: rest => if Ascii.eqb c "-" then (true, rest) else (false, t) | [] => (false, t) end in
  let '(digits, rest) := span_digits t in
  match digits with
  | [] => None
  | d :: more =>
      if Ascii.eqb d "0" && negb (bool_decide (more = [])) then None
      else Some (if negative then - number_of digits else number_of digits, rest)
  end.

(** The text behind a fixed word. *)
Fixpoint read_word (word t : Text) : option Text :=
  match word, t with
  | [], _ => Some t
  | c :: word, d :: t => if Ascii.eqb c d then read_word word t else None
  | _ :: _, [] => None
  end.

(** A value; the members of an object and the elements of an array behind the
    bracket or the comma. The fuel bounds the characters that are read. *)
Fixpoint read_value (fuel : nat) (t : Text) : option (Json * Text) :=
  match fuel with
  | O => None
  | S fuel =>
      match skip_space t with
      | [] => None
      | c :: t =>
          if Ascii.eqb c quote then '(s, rest) ← read_string t; Some (JString s, rest)
          else if Ascii.eqb c "{" then
            match skip_space t with
            | d :: rest =>
                if Ascii.eqb d "}" then Some (JObject [], rest)
                else '(members, rest) ← read_members fuel t; Some (JObject members, rest)
            | [] => None
            end
          else if Ascii.eqb c "[" then
            match skip_space t with
            | d :: rest =>
                if Ascii.eqb d "]" then Some (JArray [], rest)
                else '(elements, rest) ← read_elements fuel t; Some (JArray elements, rest)
            | [] => None
            end
          else if Ascii.eqb c "t" then rest ← read_word (chars "rue") t; Some (JBoolean true, rest)
          else if Ascii.eqb c "f" then rest ← read_word (chars "alse") t; Some (JBoolean false, rest)
          else if Ascii.eqb c "n" then rest ← read_word (chars "ull") t; Some (JNull, rest)
          else '(n, rest) ← read_number (c :: t); Some (JNumber n, rest)
      end
  end
with read_members (fuel : nat) (t : Text) : option (list (Text * Json) * Text) :=
  match fuel with
  | O => None
  | S fuel =>
      match skip_space t with
      | q :: t =>
          if Ascii.eqb q quote then
            '(name, t) ← read_string t;
            match skip_space t with
            | c :: t =>
                if Ascii.eqb c ":" then
                  '(value, t) ← read_value fuel t;
                  match skip_space t with
                  | d :: t =>
                      if Ascii.eqb d "," then '(members, rest) ← read_members fuel t; Some ((name, value) :: members, rest)
                      else if Ascii.eqb d "}" then Some ([(name, value)], t)
                      else None
                  | [] => None
                  end
                else None
            | [] => None
            end
          else None
      | [] => None
      end
  end
with read_elements (fuel : nat) (t : Text) : option (list Json * Text) :=
  match fuel with
  | O => None
  | S fuel =>
      '(value, t) ← read_value fuel t;
      match skip_space t with
      | d :: t =>
          if Ascii.eqb d "," then '(elements, rest) ← read_elements fuel t; Some (value :: elements, rest)
          else if Ascii.eqb d "]" then Some ([value], t)
          else None
      | [] => None
      end
  end.

(** A document: one value, and nothing but blanks behind it. *)
Definition read_json (t : Text) : option Json :=
  match read_value (2 * length t) t with
  | Some (j, rest) => if bool_decide (skip_space rest = []) then Some j else None
  | None => None
  end.

(** ** What the reader finds *)

(** Behind a value comes nothing or a character that is not a digit. *)
Definition ends (rest : Text) : Prop := forall c, head rest = Some c -> is_digit c = false.

(** A reader finds exactly [j] in [t], and leaves what follows. *)
Definition reads (t : Text) (j : Json) : Prop :=
  forall fuel rest, (2 * length (t ++ rest) <= fuel)%nat -> ends rest -> read_value fuel (t ++ rest) = Some (j, rest).

Lemma skip_space_app ws t : Forall (fun c => is_space c = true) ws -> skip_space (ws ++ t) = skip_space t.
Proof. induction 1 as [|c ws Hc _ IH]; [done|]. cbn. by rewrite Hc. Qed.

Lemma skip_solid c t : is_space c = false -> skip_space (c :: t) = c :: t.
Proof. cbn. by intros ->. Qed.

Lemma indent_space depth : Forall (fun c => is_space c = true) (indent depth).
Proof. by apply Forall_replicate. Qed.

Lemma break_space pretty depth : Forall (fun c => is_space c = true) (line_break pretty depth).
Proof. destruct pretty; [|constructor]. constructor; [done|apply indent_space]. Qed.

Lemma read_value_space fuel ws t :
  Forall (fun c => is_space c = true) ws -> read_value fuel (ws ++ t) = read_value fuel t.
Proof. intros Hws. destruct fuel; [done|]. cbn [read_value]. by rewrite skip_space_app. Qed.

Lemma reads_space ws t j : Forall (fun c => is_space c = true) ws -> reads t j -> reads (ws ++ t) j.
Proof.
  intros Hws Ht fuel rest Hf He. rewrite <- app_assoc, read_value_space by done. apply Ht; [|done].
  rewrite !length_app in *. lia.
Qed.

(** The two digits a control character is written with. *)
Definition control_ok (b : Z) : Prop :=
  let h := hex_value (default "0"%char (kDigits !! Z.to_nat (Z.land (Z.shiftr b 4) 15))) in
  let l := hex_value (default "0"%char (kDigits !! Z.to_nat (Z.land b 15))) in
  (0 <=? h) && (h <? 8) && (0 <=? l) = true /\ 16 * h + l = b.

Lemma control_digits b : 0 <= b < 32 -> control_ok b.
Proof.
  intros Hb. assert (Hall : Forall control_ok (seqZ 0 32)) by (repeat constructor).
  rewrite Forall_forall in Hall. apply Hall, elem_of_seqZ. lia.
Qed.

(** Every character is read back from its escaped form. *)
Lemma read_escape c t s after : read_string t = Some (s, after) -> read_string (escape c ++ t) = Some (c :: s, after).
Proof.
  intros H. unfold escape. destruct (Ascii.eqb_spec c quote) as [->|Hq]; [cbn; by rewrite H|].
  destruct (Ascii.eqb_spec c backslash) as [->|Hb]; [cbn; by rewrite H|].
  destruct (Ascii.eqb_spec c "010") as [->|Hn]; [cbn; by rewrite H|].
  destruct (Ascii.eqb_spec c "013") as [->|Hr]; [cbn; by rewrite H|].
  destruct (Ascii.eqb_spec c "009") as [->|Ht]; [cbn; by rewrite H|].
  destruct (Z.ltb_spec (byte_of_ascii c) 32) as [Hlow|Hhigh].
  - pose proof (byte_of_ascii_u8 c) as Hu. destruct (control_digits (byte_of_ascii c)) as [Hd Hv]; [unfold is_u8 in Hu; lia|].
    cbn [app read_string]. change (Ascii.eqb backslash quote) with false. change (Ascii.eqb backslash backslash) with true.
    change (Ascii.eqb "u" "u") with true. change (Ascii.eqb "0" "0") with true. cbn [andb].
    cbv zeta in Hd, Hv. rewrite Hd, H, Hv. cbn. by rewrite ascii_of_byte_of_ascii.
  - cbn [app read_string]. rewrite (proj2 (Ascii.eqb_neq c quote) Hq), (proj2 (Ascii.eqb_neq c backslash) Hb).
    rewrite (proj2 (Z.ltb_ge _ _) Hhigh), H. done.
Qed.

Lemma read_escaped s rest : read_string ((s ≫= escape) ++ quote :: rest) = Some (s, rest).
Proof.
  induction s as [|c s IH]; [done|]. rewrite bind_cons, <- app_assoc. by apply read_escape.
Qed.

Lemma reads_string s : reads (write_escaped s) (JString s).
Proof.
  intros [|fuel] rest Hf He; [cbn in Hf; lia|]. unfold write_escaped. rewrite <- !app_assoc. cbn [app read_value].
  rewrite skip_solid by done. rewrite Ascii.eqb_refl. by rewrite read_escaped.
Qed.

Lemma reads_boolean (b : bool) : reads (chars (if b then "true" else "false")) (JBoolean b).
Proof. intros [|fuel] rest Hf He; [destruct b; cbn in Hf; lia|]. by destruct b. Qed.

Lemma reads_null : reads (chars "null") JNull.
Proof. intros [|fuel] rest Hf He; [cbn in Hf; lia|]. done. Qed.

(** A digit starts nothing but a number. *)
Definition starts_number (c : Ascii.ascii) : Prop :=
  is_space c = false /\ Ascii.eqb c quote = false /\ Ascii.eqb c "{" = false /\ Ascii.eqb c "[" = false /\
  Ascii.eqb c "t" = false /\ Ascii.eqb c "f" = false /\ Ascii.eqb c "n" = false /\ Ascii.eqb c "-" = false.

Lemma digit_starts c : is_digit c = true -> starts_number c.
Proof.
  unfold is_digit. intros [H1 H2]%andb_true_iff. rewrite Z.leb_le in H1, H2.
  assert (Hall : Forall (fun b => starts_number (ascii_of_byte b)) (seqZ 48 10)) by (repeat constructor).
  rewrite Forall_forall in Hall. rewrite <- (ascii_of_byte_of_ascii c). apply Hall, elem_of_seqZ. lia.
Qed.

Lemma read_digits n rest :
  0 <= n -> ends rest -> exists c t, chars (to_dec n) = c :: t /\ is_digit c = true /\
  span_digits (c :: t ++ rest) = (c :: t, rest) /\ Ascii.eqb c "0" && negb (bool_decide (t = [])) = false /\ number_of (c :: t) = n.
Proof.
  intros Hn He. destruct (to_dec_digits n Hn) as (Hd & Hv & Hne & Hz & _).
  pose proof (span_digits_app (chars (to_dec n)) rest Hd He) as Hspan.
  destruct (chars (to_dec n)) as [|c t]; [done|]. apply Forall_cons in Hd as [Hc _]. exists c, t. split_and!; try done.
  destruct (Ascii.eqb_spec c "0") as [->|]; [|done]. specialize (Hz eq_refl). by injection Hz as ->.
Qed.

Lemma reads_number n : reads (chars (to_dec n)) (JNumber n).
Proof.
  intros fuel rest Hf He. destruct (decide (0 <= n)) as [Hn|Hn].
  - destruct (read_digits n rest Hn He) as (c & t & E & Hc & Hspan & Hz & Hv). rewrite E in Hf |- *.
    destruct fuel as [|fuel]; [cbn in Hf; lia|].
    destruct (digit_starts c Hc) as (S1 & S2 & S3 & S4 & S5 & S6 & S7 & S8). cbn [app read_value skip_space].
    rewrite S1, S2, S3, S4, S5, S6, S7. unfold read_number. rewrite S8, Hspan, Hz, Hv. done.
  - destruct (read_digits (- n) rest ltac:(lia) He) as (c & t & E & Hc & Hspan & Hz & Hv).
    assert (Eneg : chars (to_dec n) = "-"%char :: c :: t).
    { destruct n as [|p|p]; [lia..|]. unfold to_dec, pretty, pretty.pretty_Z. rewrite chars_app. by rewrite <- E. }
    rewrite Eneg in Hf |- *. destruct fuel as [|fuel]; [cbn in Hf; lia|]. cbn [app read_value].
    rewrite skip_solid by done. unfold read_number.
    repeat match goal with |- context [Ascii.eqb "-" ?d] => let b := eval vm_compute in (Ascii.eqb "-" d) in change (Ascii.eqb "-" d) with b end.
    cbn match. rewrite Hspan, Hz, Hv. cbn. do 2 f_equal. f_equal. lia.
Qed.

Lemma ends_space ws c rest : Forall (fun c => is_space c = true) ws -> is_digit c = false -> ends (ws ++ c :: rest).
Proof.
  intros Hws Hc d Hd. destruct Hws as [|c' ws Hs _]; injection Hd as <-; [done|].
  destruct (is_digit c') eqn:E; [|done]. destruct (digit_starts c' E). congruence.
Qed.

(** *** Objects *)

(** What stands behind a member: another one, or the end of the object. *)
Definition more_members (fuel : nat) (t : Text) : option (list (Text * Json) * Text) :=
  match skip_space t with
  | d :: t => if Ascii.eqb d "," then read_members fuel t else if Ascii.eqb d "}" then Some ([], t) else None
  | [] => None
  end.

(** The text of some members of an object that is still open. *)
Definition open_members (t : Text) (members : list (Text * Json)) : Prop :=
  forall fuel k more rest, (2 * length (t ++ k) <= fuel)%nat -> ends k ->
    (forall fuel', (2 * length k <= fuel')%nat -> more_members fuel' k = Some (more, rest)) ->
    read_members fuel (t ++ k) = Some (members ++ more, rest).

Lemma member_text name v t ws1 ws2 :
  Forall (fun c => is_space c = true) ws1 -> Forall (fun c => is_space c = true) ws2 -> reads t v ->
  open_members (ws1 ++ write_escaped name ++ [":"%char] ++ ws2 ++ t) [(name, v)].
Proof.
  intros Hw1 Hw2 Hv [|fuel] k more rest Hf He Hk; [rewrite !length_app in Hf; cbn in Hf; lia|].
  rewrite <- !app_assoc. cbn [read_members]. rewrite skip_space_app by done. unfold write_escaped. rewrite <- !app_assoc. cbn [app].
  rewrite skip_solid, Ascii.eqb_refl by done. rewrite read_escaped. cbn [mbind option_bind]. rewrite skip_solid by done.
  change (Ascii.eqb ":" ":") with true. cbn match. rewrite read_value_space by done.
  assert (Hlen : (2 * length (t ++ k) <= fuel)%nat).
  { unfold write_escaped in Hf. rewrite !length_app in *. cbn [length] in Hf. lia. }
  rewrite Hv by done. cbn [mbind option_bind]. rewrite length_app in Hlen. specialize (Hk fuel ltac:(lia)). unfold more_members in Hk.
  destruct (skip_space k) as [|d k']; [done|]. destruct (Ascii.eqb d ","); [by rewrite Hk|].
  destruct (Ascii.eqb d "}"); [|done]. by injection Hk as <- <-.
Qed.

Lemma members_app t1 ms1 t2 ms2 :
  open_members t1 ms1 -> open_members t2 ms2 -> open_members (t1 ++ [","%char] ++ t2) (ms1 ++ ms2).
Proof.
  intros H1 H2 fuel k more rest Hf He Hk. rewrite <- !app_assoc. apply H1.
  - by rewrite <- !app_assoc in Hf.
  - by intros c [= <-].
  - intros fuel' Hf'. unfold more_members. cbn [app]. rewrite skip_solid by done. change (Ascii.eqb "," ",") with true. cbn match.
    apply H2; [|done|done]. cbn in Hf'. lia.
Qed.

Lemma members_start fuel t ms rest : read_members fuel t = Some (ms, rest) -> exists t', skip_space t = quote :: t'.
Proof.
  destruct fuel as [|fuel]; [done|]. cbn [read_members]. destruct (skip_space t) as [|q t']; [done|].
  destruct (Ascii.eqb_spec q quote) as [->|]; [by eexists|done].
Qed.

Lemma reads_object t ms ws :
  Forall (fun c => is_space c = true) ws -> open_members t ms -> reads (["{"%char] ++ t ++ ws ++ ["}"%char]) (JObject ms).
Proof.
  intros Hws Ht [|fuel] rest Hf He; [cbn in Hf; lia|]. rewrite <- !app_assoc. cbn [app read_value]. rewrite skip_solid by done.
  assert (Hm : read_members fuel (t ++ ws ++ "}"%char :: rest) = Some (ms, rest)).
  { rewrite <- (app_nil_r ms). apply Ht.
    - rewrite !length_app in *. cbn [length] in *. lia.
    - by apply ends_space.
    - intros fuel' _. unfold more_members. rewrite skip_space_app, skip_solid by done. done. }
  destruct (members_start _ _ _ _ Hm) as [t' Hs]. change (Ascii.eqb "{" quote) with false. change (Ascii.eqb "{" "{") with true.
  cbn match. rewrite Hs. change (Ascii.eqb quote "}") with false. cbn match. by rewrite Hm.
Qed.

Lemma reads_empty_object : reads (chars "{}") (JObject []).
Proof. intros [|fuel] rest Hf He; [cbn in Hf; lia|]. done. Qed.

(** *** Arrays *)

Definition more_elements (fuel : nat) (t : Text) : option (list Json * Text) :=
  match skip_space t with
  | d :: t => if Ascii.eqb d "," then read_elements fuel t else if Ascii.eqb d "]" then Some ([], t) else None
  | [] => None
  end.

Definition open_elements (t : Text) (elements : list Json) : Prop :=
  forall fuel k more rest, (2 * length (t ++ k) < fuel)%nat -> ends k ->
    (forall fuel', (2 * length k < fuel')%nat -> more_elements fuel' k = Some (more, rest)) ->
    read_elements fuel (t ++ k) = Some (elements ++ more, rest).

Lemma reads_nonempty t j : reads t j -> t <> [].
Proof. intros Ht ->. by specialize (Ht 0%nat [] ltac:(done) ltac:(done)). Qed.

Lemma element_text t v : reads t v -> open_elements t [v].
Proof.
  intros Hv [|fuel] k more rest Hf He Hk; [lia|]. cbn [read_elements]. rewrite Hv by (done || lia). cbn [mbind option_bind].
  assert (Hpos : (0 < length t)%nat) by (destruct t; [by apply reads_nonempty in Hv|cbn; lia]).
  rewrite length_app in Hf. specialize (Hk fuel ltac:(lia)). unfold more_elements in Hk.
  destruct (skip_space k) as [|d k']; [done|]. destruct (Ascii.eqb d ","); [by rewrite Hk|].
  destruct (Ascii.eqb d "]"); [|done]. by injection Hk as <- <-.
Qed.

Lemma elements_app t1 vs1 t2 vs2 :
  open_elements t1 vs1 -> open_elements t2 vs2 -> open_elements (t1 ++ [","%char] ++ t2) (vs1 ++ vs2).
Proof.
  intros H1 H2 fuel k more rest Hf He Hk. rewrite <- !app_assoc. apply H1.
  - by rewrite <- !app_assoc in Hf.
  - by intros c [= <-].
  - intros fuel' Hf'. unfold more_elements. cbn [app]. rewrite skip_solid by done. change (Ascii.eqb "," ",") with true. cbn match.
    apply H2; [|done|done]. cbn in Hf'. lia.
Qed.

Lemma elements_start fuel t vs rest :
  read_elements fuel t = Some (vs, rest) -> exists c t', skip_space t = c :: t' /\ Ascii.eqb c "]" = false.
Proof.
  destruct fuel as [|[|fuel]]; [done..|]. cbn [read_elements read_value]. destruct (skip_space t) as [|c t']; [done|].
  intros H. exists c, t'. split; [done|]. by destruct (Ascii.eqb_spec c "]") as [->|].
Qed.

Lemma reads_array t vs ws :
  Forall (fun c => is_space c = true) ws -> open_elements t vs -> reads (["["%char] ++ t ++ ws ++ ["]"%char]) (JArray vs).
Proof.
  intros Hws Ht [|fuel] rest Hf He; [cbn in Hf; lia|]. rewrite <- !app_assoc. cbn [app read_value]. rewrite skip_solid by done.
  assert (Hm : read_elements fuel (t ++ ws ++ "]"%char :: rest) = Some (vs, rest)).
  { rewrite <- (app_nil_r vs). apply Ht.
    - rewrite !length_app in *. cbn [length] in *. lia.
    - by apply ends_space.
    - intros fuel' _. unfold more_elements. rewrite skip_space_app, skip_solid by done. done. }
  destruct (elements_start _ _ _ _ Hm) as (c & t' & Hs & Hc). change (Ascii.eqb "[" quote) with false.
  change (Ascii.eqb "[" "{") with false. change (Ascii.eqb "[" "[") with true. cbn match. rewrite Hs, Hc. by rewrite Hm.
Qed.

Lemma reads_empty_array : reads (chars "[]") (JArray []).
Proof. intros [|fuel] rest Hf He; [cbn in Hf; lia|]. done. Qed.

(** ** What the writer writes *)

(** [f] puts the value [j] where the writer stands. *)
Definition writes (f : JsonWriter -> JsonWriter) (j : Json) : Prop :=
  forall w, exists t, reads t j /\ f w = append t (prepare_value w).

(** The part of an open container: empty, or some members. *)
Definition holds {A} (open : Text -> list A -> Prop) (had : bool) (t : Text) (xs : list A) : Prop :=
  if had then open t xs else t = [] /\ xs = [].

(** [f] adds [xs] to the container that is open. *)
Definition fills {A} (open : Text -> list A -> Prop) (f : JsonWriter -> JsonWriter) (xs : list A) : Prop :=
  forall before t0 xs0 pretty had stack depth, holds open had t0 xs0 ->
    exists t1 had', f (mkWriter (before ++ t0) pretty (had :: stack) false depth) =
      mkWriter (before ++ t1) pretty (had' :: stack) false depth /\ holds open had' t1 (xs0 ++ xs).

Definition compose (f g : JsonWriter -> JsonWriter) : JsonWriter -> JsonWriter := fun w => g (f w).

Declare Scope json_scope.
Delimit Scope json_scope with json.
Notation "f >> g" := (compose f g) (at level 60, right associativity) : json_scope.
#[local] Open Scope json_scope.

(** A loop over a vector, one operation per element. *)
Definition for_each {A} (f : A -> JsonWriter -> JsonWriter) (l : list A) (w : JsonWriter) : JsonWriter :=
  foldl (fun w x => f x w) w l.

Lemma fills_none {A} (open : Text -> list A -> Prop) : fills open id [].
Proof. intros before t0 xs0 pretty had stack depth H. exists t0, had. by rewrite app_nil_r. Qed.

Lemma fills_app {A} (open : Text -> list A -> Prop) f g xs ys :
  fills open f xs -> fills open g ys -> fills open (f >> g) (xs ++ ys).
Proof.
  intros Hf Hg before t0 xs0 pretty had stack depth H. destruct (Hf before _ _ pretty _ stack depth H) as (t1 & had1 & E1 & H1).
  destruct (Hg before _ _ pretty _ stack depth H1) as (t2 & had2 & E2 & H2). exists t2, had2. unfold compose.
  by rewrite E1, E2, app_assoc.
Qed.

Lemma fills_each {A B} (open : Text -> list B -> Prop) (f : A -> JsonWriter -> JsonWriter) (h : A -> B) l :
  (forall x, fills open (f x) [h x]) -> fills open (for_each f l) (h <$> l).
Proof.
  intros Hf. induction l as [|x l IH]; [apply fills_none|].
  change (for_each f (x :: l)) with (f x >> for_each f l). exact (fills_app open _ _ [h x] _ (Hf x) IH).
Qed.

Lemma prepare_after_key w : jw_after_key (prepare_value w) = false.
Proof. unfold prepare_value. destruct (jw_after_key w) eqn:E; [done|]. by destruct (jw_stack w). Qed.

Lemma fills_key f j name : writes f j -> fills open_members (key name >> f) [(name, j)].
Proof.
  intros Hf before t0 ms0 pretty had stack depth H. unfold compose, key. cbn [jw_stack jw_pretty jw_depth jw_out].
  edestruct Hf as (t & Ht & ->). unfold append, prepare_value. cbn [jw_stack jw_pretty jw_depth jw_out jw_after_key].
  set (space := if pretty then [" "%char] else []).
  assert (Hm : open_members (line_break pretty depth ++ write_escaped name ++ [":"%char] ++ space ++ t) [(name, j)]).
  { apply member_text; [apply break_space|by destruct pretty; repeat constructor|done]. }
  eexists _, true. split; [by rewrite <- !app_assoc|]. cbn [holds]. destruct had; cbn [holds separator] in *.
  - by apply members_app.
  - destruct H as [-> ->]. exact Hm.
Qed.

Lemma fills_element f j : writes f j -> fills open_elements f [j].
Proof.
  intros Hf before t0 vs0 pretty had stack depth H. edestruct Hf as (t & Ht & ->). unfold append, prepare_value.
  cbn [jw_stack jw_pretty jw_depth jw_out jw_after_key].
  assert (Hm : open_elements (line_break pretty depth ++ t) [j]) by (apply element_text, reads_space; [apply break_space|done]).
  eexists _, true. split; [by rewrite <- !app_assoc|]. cbn [holds]. destruct had; cbn [holds separator] in *.
  - by apply elements_app.
  - destruct H as [-> ->]. exact Hm.
Qed.

(** A container whose parts read as its parts. *)
Lemma writes_container {A} (open : Text -> list A -> Prop) (value : list A -> Json) first last f xs :
  (forall t xs ws, Forall (fun c => is_space c = true) ws -> open t xs -> reads ([first] ++ t ++ ws ++ [last]) (value xs)) ->
  reads [first; last] (value []) ->
  fills open f xs -> writes (begin_container first >> f >> end_container last) (value xs).
Proof.
  intros Hfull Hempty Hf w. unfold compose, begin_container. set (w' := prepare_value w).
  destruct (Hf (jw_out w' ++ [first]) [] [] (jw_pretty w') false (jw_stack w') (jw_depth w' + 1) (conj eq_refl eq_refl))
    as (t & had & E & Ht). rewrite app_nil_r in E. cbn [append jw_out jw_pretty jw_stack jw_depth jw_after_key].
  unfold w' at 4. rewrite prepare_after_key. rewrite E. unfold end_container. cbn [jw_out jw_pretty jw_stack jw_depth jw_after_key head tail default].
  replace (jw_depth w' + 1 - 1) with (jw_depth w') by lia. cbn [app] in Ht.
  exists ([first] ++ t ++ (if had then line_break (jw_pretty w') (jw_depth w') else []) ++ [last]). split.
  - destruct had; cbn [holds] in Ht; [apply Hfull; [apply break_space|done]|]. by destruct Ht as [-> ->].
  - unfold append, w'. rewrite prepare_after_key. by rewrite <- !app_assoc.
Qed.

Lemma writes_object f ms : fills open_members f ms -> writes (begin_object >> f >> end_object) (JObject ms).
Proof. apply writes_container; [intros; by apply reads_object|apply reads_empty_object]. Qed.

Lemma writes_array f vs : fills open_elements f vs -> writes (begin_array >> f >> end_array) (JArray vs).
Proof. apply writes_container; [intros; by apply reads_array|apply reads_empty_array]. Qed.

Lemma writes_json_string s : writes (write_string s) (JString s).
Proof. intros w. eexists. split; [apply reads_string|done]. Qed.

Lemma writes_number n : writes (write_number n) (JNumber n).
Proof. intros w. eexists. split; [apply reads_number|done]. Qed.

Lemma writes_boolean b : writes (write_boolean b) (JBoolean b).
Proof. intros w. eexists. split; [apply reads_boolean|done]. Qed.

Lemma writes_raw t j : reads t j -> writes (write_raw t) j.
Proof. intros Ht w. by eexists. Qed.

Lemma writes_document f j pretty : writes f j -> reads (jw_out (f (new_writer pretty))) j.
Proof. intros Hf. destruct (Hf (new_writer pretty)) as (t & Ht & ->). done. Qed.

(** A document reads as its value. *)
Lemma read_document t j : reads t j -> read_json t = Some j.
Proof.
  intros Ht. unfold read_json. specialize (Ht (2 * length t)%nat []). rewrite app_nil_r in Ht. by rewrite Ht.
Qed.
