(* ===== verification/FlatJson.v ===== *)
(** * Reading a flat object ([parse_flat_json] of [src/render.cpp])

    The reader the header of the renderer offers for objects of scalar fields.  It
    is not the grammar of JSON: it accepts more, and it reads a [\u] escape as the
    letters behind the backslash.  On the objects the writer makes of scalar
    fields without such escapes it gives the fields back. *)
From S2P Require Import Prelude OrdMap Types Ids Text Json.
From Stdlib Require Import (notations) Ascii.
#[local] Open Scope Z_scope.

(** ** The reader *)

(** The character [switch (text[index])] appends. *)
Definition flat_unescape (c : Ascii.ascii) : Ascii.ascii :=
  if Ascii.eqb c "n" then "010"
  else if Ascii.eqb c "t" then "009"
  else if Ascii.eqb c "r" then "013"
  else c.

(** The loop of [read_string], behind the opening quote. *)
Fixpoint flat_chars (t : Text) : option (Text * Text) :=
  match t with
  | [] => None
  | c :: rest =>
      if Ascii.eqb c quote then Some ([], rest)
      else if Ascii.eqb c backslash then
        match rest with
        | [] => None
        | e :: rest => '(value, after) ← flat_chars rest; Some (flat_unescape e :: value, after)
        end
      else '(value, after) ← flat_chars rest; Some (c :: value, after)
  end.

(** [read_string]. *)
Definition flat_string (t : Text) : option (Text * Text) :=
  match t with c :: rest => if Ascii.eqb c quote then flat_chars rest else None | [] => None end.

(** Where [read_scalar] stops. *)
Definition ends_scalar (c : Ascii.ascii) : bool := Ascii.eqb c "," || Ascii.eqb c "}" || Ascii.eqb c "]".

Fixpoint span_scalar (t : Text) : Text * Text :=
  match t with
  | c :: rest => if ends_scalar c then ([], t) else let '(value, after) := span_scalar rest in (c :: value, after)
  | [] => ([], [])
  end.

(** The loop that moves [end] back over white space. *)
Definition trim_end (t : Text) : Text := rev (skip_space (rev t)).

(** [read_scalar]. *)
Definition flat_scalar (t : Text) : Text * Text := let '(value, after) := span_scalar t in (trim_end value, after).

(** The value of a member: a string, or anything up to the next [,], [}] or []]. *)
Definition flat_value (t : Text) : option (Text * Text) :=
  match t with
  | c :: _ => if Ascii.eqb c quote then flat_string t else Some (flat_scalar t)
  | [] => Some (flat_scalar t)
  end.

(** The members loop; [out] holds the pairs so far, also when the answer is
    [false]. *)
Fixpoint flat_members (fuel : nat) (t : Text) (out : list (Text * Text)) : bool * list (Text * Text) :=
  match fuel with
  | O => (false, out)
  | S fuel =>
      match flat_string (skip_space t) with
      | None => (false, out)
      | Some (name, t) =>
          match skip_space t with
          | [] => (false, out)
          | c :: t =>
              if negb (Ascii.eqb c ":") then (false, out)
              else
                match flat_value (skip_space t) with
                | None => (false, out)
                | Some (value, t) =>
                    let out := out ++ [(name, value)] in
                    match skip_space t with
                    | c :: t =>
                        if Ascii.eqb c "," then flat_members fuel t out
                        else if Ascii.eqb c "}" then (true, out)
                        else (false, out)
                    | [] => (false, out)
                    end
                end
          end
      end
  end.

Definition parse_flat_json (text : Text) : bool * list (Text * Text) :=
  match skip_space text with
  | [] => (false, [])
  | c :: t =>
      if negb (Ascii.eqb c "{") then (false, [])
      else
        match skip_space t with
        | d :: _ => if Ascii.eqb d "}" then (true, []) else flat_members (S (length t)) t []
        | [] => (false, [])
        end
  end.

(** ** The loop ends

    Every round consumes a character, so one more than the length of the text is
    fuel enough: more changes nothing. *)

Lemma skip_space_length t : (length (skip_space t) <= length t)%nat.
Proof. induction t as [|c t IH]; [done|]. cbn. destruct (is_space c); cbn; lia. Qed.

Lemma flat_chars_length t s after : flat_chars t = Some (s, after) -> (length after < length t)%nat.
Proof.
  revert s. induction t as [t IH] using (induction_ltof1 _ (@length Ascii.ascii)). unfold ltof in IH.
  intros s. destruct t as [|c t]; [done|]. cbn. destruct (Ascii.eqb c quote); [intros [= _ ->]; lia|].
  destruct (Ascii.eqb c backslash); [destruct t as [|e t]; [done|]|];
    (destruct (flat_chars t) as [[v a]|] eqn:E; [|done]); intros [= _ ->];
    specialize (IH t ltac:(cbn; lia) v E); cbn; lia.
Qed.

Lemma flat_string_length t s after : flat_string t = Some (s, after) -> (length after < length t)%nat.
Proof.
  destruct t as [|c t]; [done|]. cbn. destruct (Ascii.eqb c quote); [|done]. intros E%flat_chars_length. lia.
Qed.

Lemma span_scalar_length t : (length (span_scalar t).2 <= length t)%nat.
Proof.
  induction t as [|c t IH]; [done|]. cbn. destruct (ends_scalar c); [done|]. destruct (span_scalar t). cbn in *. lia.
Qed.

Lemma flat_value_length t s after : flat_value t = Some (s, after) -> (length after <= length t)%nat.
Proof.
  assert (Hs : forall t', (length (flat_scalar t').2 <= length t')%nat).
  { intros t'. unfold flat_scalar. pose proof (span_scalar_length t'). by destruct (span_scalar t'). }
  destruct t as [|c t]; cbn.
  - intros [= _ <-]. done.
  - destruct (Ascii.eqb c quote) eqn:E.
    + intros Hc. apply flat_chars_length in Hc. lia.
    + intros [= Hc]. specialize (Hs (c :: t)). rewrite Hc in Hs. exact Hs.
Qed.

Lemma flat_members_fuel fuel1 fuel2 t out :
  (length t < fuel1)%nat -> (length t < fuel2)%nat -> flat_members fuel1 t out = flat_members fuel2 t out.
Proof.
  revert fuel2 t out. induction fuel1 as [|fuel1 IH]; intros [|fuel2] t out H1 H2; try lia. cbn.
  destruct (flat_string (skip_space t)) as [[name t1]|] eqn:E1; [|done]. apply flat_string_length in E1.
  pose proof (skip_space_length t). pose proof (skip_space_length t1).
  destruct (skip_space t1) as [|c t2]; [done|]. destruct (negb _); [done|].
  destruct (flat_value (skip_space t2)) as [[value t3]|] eqn:E3; [|done]. apply flat_value_length in E3.
  pose proof (skip_space_length t2). pose proof (skip_space_length t3).
  destruct (skip_space t3) as [|d t4]; [done|]. destruct (Ascii.eqb d ","); [|done]. cbn in *. apply IH; lia.
Qed.

(** ** Objects of scalar fields *)

Inductive Scalar :=
  | SText (t : Text)
  | SNumber (n : Z)
  | SBoolean (b : bool).

Definition write_scalar (v : Scalar) : JsonWriter -> JsonWriter :=
  match v with
  | SText t => write_string t
  | SNumber n => write_number n
  | SBoolean b => write_boolean b
  end.

(** [writer.begin_object(); writer.field(name, value); ...; writer.end_object();] *)
Definition write_flat (fields : list (Text * Scalar)) : JsonWriter -> JsonWriter :=
  (begin_object >> for_each (fun '(name, v) => key name >> write_scalar v) fields >> end_object)%json.

(** The text of a value in the object, and the text the reader gives for it. *)
Definition scalar_text (v : Scalar) : Text :=
  match v with
  | SText t => write_escaped t
  | SNumber n => chars (to_dec n)
  | SBoolean b => chars (if b then "true" else "false")
  end.
Definition scalar_value (v : Scalar) : Text := match v with SText t => t | _ => scalar_text v end.

(** A character the writer does not turn into a [\u] escape. *)
Definition plain (c : Ascii.ascii) : bool :=
  (32 <=? byte_of_ascii c) || Ascii.eqb c "009" || Ascii.eqb c "010" || Ascii.eqb c "013".
Definition plain_text (t : Text) : bool := forallb plain t.
Definition plain_field (field : Text * Scalar) : bool :=
  plain_text (fst field) && match snd field with SText t => plain_text t | _ => true end.

(** *** The text of a flat object *)

Definition field_chars (pretty : bool) (name : Text) (v : Scalar) : Text :=
  write_escaped name ++ [":"%char] ++ (if pretty then [" "%char] else []) ++ scalar_text v.

Fixpoint fields_chars (pretty : bool) (depth : Z) (had : bool) (fields : list (Text * Scalar)) : Text :=
  match fields with
  | [] => []
  | (name, v) :: fields =>
      separator had ++ line_break pretty depth ++ field_chars pretty name v ++ fields_chars pretty depth true fields
  end.

Lemma write_fields fields out pretty had stack depth :
  for_each (fun '(name, v) => (key name >> write_scalar v)%json) fields (mkWriter out pretty (had :: stack) false depth) =
  mkWriter (out ++ fields_chars pretty depth had fields) pretty ((had || negb (bool_decide (fields = []))) :: stack) false depth.
Proof.
  revert out had. induction fields as [|[name v] fields IH]; intros out had; cbn [for_each foldl fields_chars].
  - by rewrite app_nil_r, orb_false_r.
  - unfold for_each in IH. etrans; [|etrans; [apply (IH (out ++ separator had ++ line_break pretty depth ++ field_chars pretty name v) true)|]].
    + unfold compose, field_chars, key, write_scalar, write_string, write_number, write_boolean, append, prepare_value.
      destruct v; cbn [jw_stack jw_after_key jw_out jw_pretty jw_depth scalar_text]; by rewrite <- !app_assoc.
    + rewrite <- !app_assoc. by rewrite orb_true_r.
Qed.

Lemma write_flat_text pretty fields :
  jw_out (write_flat fields (new_writer pretty)) =
  ["{"%char] ++ fields_chars pretty 1 false fields ++
  (if bool_decide (fields = []) then [] else line_break pretty 0) ++ ["}"%char].
Proof.
  unfold write_flat, compose, begin_object, begin_container, new_writer, prepare_value, append. cbn.
  rewrite write_fields. unfold end_object, end_container. cbn. by destruct fields.
Qed.

(** *** Reading it *)

Lemma flat_chars_escape c t : plain c = true -> flat_chars (escape c ++ t) = '(v, after) ← flat_chars t; Some (c :: v, after).
Proof.
  intros Hc. unfold escape.
  destruct (Ascii.eqb c quote) eqn:E1; [by apply Ascii.eqb_eq in E1 as ->|].
  destruct (Ascii.eqb c backslash) eqn:E2; [by apply Ascii.eqb_eq in E2 as ->|].
  destruct (Ascii.eqb c "010") eqn:E3; [by apply Ascii.eqb_eq in E3 as ->|].
  destruct (Ascii.eqb c "013") eqn:E4; [by apply Ascii.eqb_eq in E4 as ->|].
  destruct (Ascii.eqb c "009") eqn:E5; [by apply Ascii.eqb_eq in E5 as ->|].
  unfold plain in Hc. rewrite E3, E4, E5, !orb_false_r in Hc.
  replace (byte_of_ascii c <? 32) with false by lia. cbn [app flat_chars]. by rewrite E1, E2.
Qed.

Lemma flat_string_escaped s t : plain_text s = true -> flat_string (write_escaped s ++ t) = Some (s, t).
Proof.
  intros Hs. unfold write_escaped. rewrite <- !app_assoc. cbn [app flat_string]. rewrite Ascii.eqb_refl.
  induction s as [|c s IH]; cbn [mbind list_bind app].
  - by cbn.
  - cbn [plain_text forallb] in Hs. apply andb_true_iff in Hs as [Hc Hs]. rewrite <- app_assoc, flat_chars_escape by done.
    by rewrite IH.
Qed.

Lemma ends_not_space c : ends_scalar c = true -> is_space c = false.
Proof.
  unfold ends_scalar. intros [[H|H]%orb_true_iff|H]%orb_true_iff; by apply Ascii.eqb_eq in H as ->.
Qed.

(** A word of a scalar: neither blanks nor the characters that end one. *)
Definition word (t : Text) : Prop := Forall (fun c => ends_scalar c = false /\ is_space c = false /\ c <> quote) t.

Lemma span_scalar_app t d more :
  Forall (fun c => ends_scalar c = false) t -> ends_scalar d = true -> span_scalar (t ++ d :: more) = (t, d :: more).
Proof. intros Ht Hd. induction Ht as [|c t Hc _ IH]; cbn; [by rewrite Hd|]. by rewrite Hc, IH. Qed.

Lemma trim_end_word t ws : word t -> Forall (fun c => is_space c = true) ws -> trim_end (t ++ ws) = t.
Proof.
  intros Ht Hw. unfold trim_end. rewrite rev_app_distr, skip_space_app by by apply Forall_rev.
  rewrite <- (rev_involutive t) at 2. f_equal. apply Forall_rev in Ht. destruct (rev t) as [|c r]; [done|].
  cbn. apply Forall_cons in Ht as [(_ & -> & _) _]. done.
Qed.

Lemma flat_scalar_word t ws d more :
  word t -> t <> [] -> Forall (fun c => is_space c = true) ws -> ends_scalar d = true ->
  flat_value (t ++ ws ++ d :: more) = Some (t, d :: more).
Proof.
  intros Ht Hne Hw Hd. assert (E : flat_scalar (t ++ ws ++ d :: more) = (t, d :: more)).
  { unfold flat_scalar. rewrite app_assoc, span_scalar_app; [by rewrite trim_end_word| |done].
    apply Forall_app_2; [eapply Forall_impl; [exact Ht|]; naive_solver|]. eapply Forall_impl; [exact Hw|].
    intros c Hc. cbn. destruct (ends_scalar c) eqn:Ec; [|done]. apply ends_not_space in Ec. congruence. }
  rewrite <- E. destruct t as [|c t]; [done|]. cbn [app flat_value]. apply Forall_cons in Ht as [(_ & _ & Hq) _].
  destruct (Ascii.eqb c quote) eqn:Ec; [by apply Ascii.eqb_eq in Ec|done].
Qed.

Lemma digit_word c : is_digit c = true -> ends_scalar c = false /\ is_space c = false /\ c <> quote.
Proof. destruct c as [[] [] [] [] [] [] [] []]; (discriminate || by intros _). Qed.

Lemma number_word n : word (chars (to_dec n)) /\ chars (to_dec n) <> [].
Proof.
  destruct (decide (0 <= n)) as [Hn|Hn].
  - destruct (to_dec_digits n Hn) as (Hf & _ & Hne & _). split; [|done]. eapply Forall_impl; [exact Hf|apply digit_word].
  - destruct n as [| |p]; [lia..|]. destruct (to_dec_digits (Z.pos p) ltac:(lia)) as (Hf & _).
    change (chars (to_dec (Z.neg p))) with ("-"%char :: chars (to_dec (Z.pos p))). split; [|done].
    constructor; [by cbn|]. eapply Forall_impl; [exact Hf|apply digit_word].
Qed.

(** A value is read up to the character that ends it. *)
Lemma flat_value_reads v ws d more :
  match v with SText t => plain_text t | _ => true end = true ->
  Forall (fun c => is_space c = true) ws -> ends_scalar d = true ->
  exists after, flat_value (scalar_text v ++ ws ++ d :: more) = Some (scalar_value v, after) /\ skip_space after = d :: more.
Proof.
  intros Hv Hw Hd. pose proof (skip_solid d more (ends_not_space d Hd)) as Hs. destruct v as [t|n|b].
  - exists (ws ++ d :: more). split; [|by rewrite skip_space_app]. cbn [scalar_text scalar_value].
    rewrite <- (flat_string_escaped t (ws ++ d :: more) Hv). unfold write_escaped. by rewrite <- !app_assoc.
  - exists (d :: more). split; [|done]. apply flat_scalar_word; [apply number_word..|done|done].
  - exists (d :: more). split; [|done]. apply flat_scalar_word; [|by destruct b|done|done].
    destruct b; by repeat constructor.
Qed.

Lemma skip_escaped name t : skip_space (write_escaped name ++ t) = write_escaped name ++ t.
Proof. done. Qed.

Lemma flat_member_reads fuel pretty depth name v ws d more out :
  plain_field (name, v) = true -> Forall (fun c => is_space c = true) ws -> d = ","%char \/ d = "}"%char ->
  flat_members (S fuel) (line_break pretty depth ++ field_chars pretty name v ++ ws ++ d :: more) out =
  if Ascii.eqb d "," then flat_members fuel more (out ++ [(name, scalar_value v)]) else (true, out ++ [(name, scalar_value v)]).
Proof.
  intros [Hn Hv]%andb_true_iff Hw Hd. cbn [fst snd] in Hn, Hv. cbn [flat_members].
  rewrite skip_space_app by apply break_space. unfold field_chars. rewrite <- !app_assoc, skip_escaped, flat_string_escaped by done.
  cbn [app]. rewrite (skip_solid ":") by done. rewrite Ascii.eqb_refl. cbn [negb].
  destruct (flat_value_reads v ws d more Hv Hw ltac:(by destruct Hd as [->| ->])) as (after & E & Ha).
  rewrite skip_space_app by (by destruct pretty; repeat constructor).
  assert (Hsolid : skip_space (scalar_text v ++ ws ++ d :: more) = scalar_text v ++ ws ++ d :: more).
  { destruct v as [t|n|[]]; [done| |done..]. cbn [scalar_text]. destruct (number_word n) as [Hw' Hne].
    destruct (chars (to_dec n)) as [|c t]; [done|]. apply Forall_cons in Hw' as [(_ & Hc & _) _]. by apply skip_solid. }
  rewrite Hsolid, E, Ha. destruct Hd as [->| ->]; done.
Qed.

(** All the fields, from the first one on. *)
Lemma flat_fields_read pretty name v fields fuel out :
  forallb plain_field ((name, v) :: fields) = true -> (length fields < fuel)%nat ->
  flat_members fuel (line_break pretty 1 ++ field_chars pretty name v ++ fields_chars pretty 1 true fields ++
    line_break pretty 0 ++ ["}"%char]) out = (true, out ++ (prod_map id scalar_value <$> (name, v) :: fields)).
Proof.
  revert name v fuel out. induction fields as [|[name' v'] fields IH]; intros name v [|fuel] out; try (cbn; lia).
  - intros [Hp _]%andb_true_iff _. cbn [fields_chars app]. rewrite flat_member_reads by (done || apply break_space || by right). done.
  - intros [Hp Hps]%andb_true_iff Hf. cbn [fields_chars separator].
    rewrite <- !app_assoc. etrans; [apply (flat_member_reads fuel pretty 1 name v [] ","%char); [done|constructor|by left]|].
    cbn [Ascii.eqb Bool.eqb]. rewrite IH; [|done|cbn in Hf; lia]. by rewrite <- app_assoc.
Qed.

Lemma fields_length pretty depth had fields : (length fields <= length (fields_chars pretty depth had fields))%nat.
Proof.
  revert had. induction fields as [|[name v] fields IH]; intros had; [done|]. cbn [fields_chars length].
  unfold field_chars. rewrite !length_app. specialize (IH true). cbn [length]. lia.
Qed.

(** A flat object survives being written and read. [parse_flat_json] of an object
    of texts, numbers and booleans, printed compactly or on several lines, answers
    true with exactly the fields, in order, a text as it was given and a number or
    a boolean as it was printed, provided no name and no text holds a control
    character other than a tab, a line feed or a carriage return. *)
Theorem flat_object_reads_back pretty fields :
  forallb plain_field fields = true ->
  parse_flat_json (jw_out (write_flat fields (new_writer pretty))) = (true, prod_map id scalar_value <$> fields).
Proof.
  intros Hp. rewrite write_flat_text. unfold parse_flat_json. cbn [app]. rewrite skip_solid by done. rewrite Ascii.eqb_refl.
  cbn [negb]. destruct fields as [|[name v] fields]; [done|]. rewrite bool_decide_false by done.
  cbn [fields_chars separator app]. rewrite <- !app_assoc. rewrite skip_space_app by apply break_space.
  unfold field_chars at 1. rewrite <- app_assoc, skip_escaped. cbn [write_escaped app]. change (Ascii.eqb quote "}") with false.
  cbn match. rewrite flat_fields_read; [done|done|]. rewrite !length_app. pose proof (fields_length pretty 1 true fields). lia.
Qed.

Lemma flat_object_reads_back_witness :
  let fields := [(chars "name", SText (chars "rack 4, port 7")); (chars "rank", SNumber 12); (chars "live", SBoolean true)] in
  parse_flat_json (jw_out (write_flat fields (new_writer true))) =
  (true, [(chars "name", chars "rack 4, port 7"); (chars "rank", chars "12"); (chars "live", chars "true")]).
Proof. intros fields. apply (flat_object_reads_back true fields). reflexivity. Defined.

(** Other control characters do not survive: the byte 1 comes back as five letters. *)
Example escape_is_misread :
  parse_flat_json (jw_out (write_flat [(chars "label", SText ["001"%char])] (new_writer false))) =
  (true, [(chars "label", chars "u0001")]).
Proof. reflexivity. Qed.

(** A text that is not JSON may be accepted. *)
Example malformed_is_accepted :
  parse_flat_json (jw_out (write_flat [(chars "rank", SNumber 1)] (new_writer false)) ++ chars " and more") =
    (true, [(chars "rank", chars "1")]) /\
  parse_flat_json (["{"%char] ++ write_escaped (chars "rank") ++ chars ":}") = (true, [(chars "rank", [])]).
Proof. split; reflexivity. Qed.
