(* ===== verification/Snapshot.v ===== *)
(** * Canonical snapshots ([snapshot.hpp], [src/snapshot.cpp])

    An image of the graph and its canonical encoding, which is the identity two
    registries compare.  The encoder sorts every collection first, so the order
    in which a snapshot was assembled does not show; the decoder checks every
    count against the limits. *)
From S2P Require Import Prelude OrdMap Types Ids Graph Codec Serialization Digest.
#[local] Open Scope string_scope.
#[local] Open Scope Z_scope.

Record SnapshotClaim := mkSnapshotClaim {
  snc_source : SourceId;
  snc_incarnation : Z;
  snc_generation : Z;
  snc_evidence : EvidenceId;
  snc_observed_at : Z;
  snc_provenance : ProvenanceClass.t;
  snc_authority : Authority;
}.

Record SnapshotAttachment := mkSnapshotAttachment {
  sna_subject : ObjectSideRef;
  sna_port : PortRef;
  sna_slot : Z;
  sna_object_incarnation : Z;
  sna_authority : Authority;
  sna_connector_compatible : bool;
  sna_media_compatible : bool;
  sna_conflicting : bool;
  sna_claims : list SnapshotClaim;
}.

Record SnapshotConflict := mkSnapshotConflict {
  snx_reason : ConflictReason.t;
  snx_subject : ObjectSideRef;
  snx_port : PortRef;
  snx_claims : list SnapshotClaim;
}.

Record SnapshotPort := mkSnapshotPort {
  snp_port : PortRef;
  snp_state : PortAttachmentState.t;
  snp_capability : PortCapability;
  snp_attachments : list SnapshotAttachment;
  snp_conflicts : list SnapshotConflict;
}.

Record SnapshotObject := mkSnapshotObject {
  sno_id : ObjectId;
  sno_kind : ObjectKind.t;
  sno_label : string;
  sno_serial : string;
  sno_location : string;
  sno_incarnation : Z;
  sno_lifecycle : LifecycleState.t;
  sno_capability : NominalCapability;
  sno_sides : list ObjectSideDescriptor;
  sno_attachments : list SnapshotAttachment;
}.

Record SnapshotEndpoint := mkSnapshotEndpoint {
  sne_id : EndpointId;
  sne_kind : EndpointKind.t;
  sne_name : string;
  sne_location : string;
  sne_port_count : Z;
  sne_capability : PortCapability;
}.

Record SnapshotFencedSession := mkSnapshotFencedSession {
  snf_source : SourceId;
  snf_incarnation : Z;
  snf_fenced_by : Z;
  snf_claims : Z;
}.

Record SnapshotFencedObject := mkSnapshotFencedObject {
  sfo_object : ObjectId;
  sfo_incarnation : Z;
  sfo_claims : Z;
}.

Record TopologySnapshot := mkSnapshot {
  sn_format_version : Z;
  sn_registry : RegistryId;
  sn_summary : GraphSummary;
  sn_objects : list SnapshotObject;
  sn_endpoints : list SnapshotEndpoint;
  sn_ports : list SnapshotPort;
  sn_fenced_sessions : list SnapshotFencedSession;
  sn_fenced_objects : list SnapshotFencedObject;
  sn_provenance_digest : list Z;
}.

(** ** Canonical order *)

Definition claim_less (left right : SnapshotClaim) : bool :=
  if negb (keqb (snc_source left) (snc_source right)) then kltb (snc_source left) (snc_source right)
  else if negb (snc_incarnation left =? snc_incarnation right) then snc_incarnation left <? snc_incarnation right
  else if negb (snc_generation left =? snc_generation right) then snc_generation left <? snc_generation right
  else kltb (snc_evidence left) (snc_evidence right).

(** The attachments of an object, and those of a port. *)
Definition object_attachment_less (left right : SnapshotAttachment) : bool :=
  if negb (keqb (sna_port left) (sna_port right)) then kltb (sna_port left) (sna_port right)
  else sna_slot left <? sna_slot right.

Definition port_attachment_less (left right : SnapshotAttachment) : bool :=
  if negb (keqb (sna_subject left) (sna_subject right)) then kltb (sna_subject left) (sna_subject right)
  else sna_slot left <? sna_slot right.

Definition conflict_less (left right : SnapshotConflict) : bool :=
  if negb (bool_decide (snx_reason left = snx_reason right)) then enum_code (snx_reason left) <? enum_code (snx_reason right)
  else if negb (keqb (snx_subject left) (snx_subject right)) then kltb (snx_subject left) (snx_subject right)
  else kltb (snx_port left) (snx_port right).

Definition fenced_session_less (left right : SnapshotFencedSession) : bool :=
  if negb (keqb (snf_source left) (snf_source right)) then kltb (snf_source left) (snf_source right)
  else snf_incarnation left <? snf_incarnation right.

Definition sort_claims (a : SnapshotAttachment) : SnapshotAttachment :=
  mkSnapshotAttachment (sna_subject a) (sna_port a) (sna_slot a) (sna_object_incarnation a) (sna_authority a)
    (sna_connector_compatible a) (sna_media_compatible a) (sna_conflicting a) (std_sort claim_less (sna_claims a)).

Definition sort_conflict_claims (c : SnapshotConflict) : SnapshotConflict :=
  mkSnapshotConflict (snx_reason c) (snx_subject c) (snx_port c) (std_sort claim_less (snx_claims c)).

Definition canonical_object (o : SnapshotObject) : SnapshotObject :=
  mkSnapshotObject (sno_id o) (sno_kind o) (sno_label o) (sno_serial o) (sno_location o) (sno_incarnation o)
    (sno_lifecycle o) (sno_capability o) (sno_sides o)
    (sort_claims <$> std_sort object_attachment_less (sno_attachments o)).

Definition canonical_port (p : SnapshotPort) : SnapshotPort :=
  mkSnapshotPort (snp_port p) (snp_state p) (snp_capability p)
    (sort_claims <$> std_sort port_attachment_less (snp_attachments p))
    (sort_conflict_claims <$> std_sort conflict_less (snp_conflicts p)).

(** [canonicalise]. [std_sort] is stable; where different elements compare equal, as
    two attachments of one object at the same port and slot do, [std::sort] may leave
    them in the other order. *)
Definition canonicalise (s : TopologySnapshot) : TopologySnapshot :=
  mkSnapshot (sn_format_version s) (sn_registry s) (sn_summary s)
    (canonical_object <$> std_sort (fun left right => kltb (sno_id left) (sno_id right)) (sn_objects s))
    (std_sort (fun left right => kltb (sne_id left) (sne_id right)) (sn_endpoints s))
    (canonical_port <$> std_sort (fun left right => kltb (snp_port left) (snp_port right)) (sn_ports s))
    (std_sort fenced_session_less (sn_fenced_sessions s))
    (std_sort (fun left right => kltb (sfo_object left) (sfo_object right)) (sn_fenced_objects s))
    (sn_provenance_digest s).

(** ** Encoding *)

Definition encode_claim (value : SnapshotClaim) : Enc :=
  enc_id (snc_source value) ;> enc_u64 (snc_incarnation value) ;> enc_u64 (snc_generation value) ;>
  enc_id (snc_evidence value) ;> enc_i64 (snc_observed_at value) ;> enc_enum8 (snc_provenance value) ;>
  enc_enum8 (auth_class (snc_authority value)) ;> enc_u32 (auth_rank (snc_authority value)).

Definition encode_claims (claims : list SnapshotClaim) : Enc := enc_vector encode_claim claims.

Definition encode_attachment (value : SnapshotAttachment) : Enc :=
  enc_id (side_object (sna_subject value)) ;> enc_u32 (side_index (sna_subject value)) ;>
  enc_id (port_endpoint (sna_port value)) ;> enc_u32 (port_index (sna_port value)) ;>
  enc_u32 (sna_slot value) ;> enc_u64 (sna_object_incarnation value) ;>
  enc_enum8 (auth_class (sna_authority value)) ;> enc_u32 (auth_rank (sna_authority value)) ;>
  enc_boolean (sna_connector_compatible value) ;> enc_boolean (sna_media_compatible value) ;>
  enc_boolean (sna_conflicting value) ;> encode_claims (sna_claims value).

Definition encode_conflict (value : SnapshotConflict) : Enc :=
  enc_enum8 (snx_reason value) ;> enc_id (side_object (snx_subject value)) ;>
  enc_u32 (side_index (snx_subject value)) ;> enc_id (port_endpoint (snx_port value)) ;>
  enc_u32 (port_index (snx_port value)) ;> encode_claims (snx_claims value).

Definition encode_port (value : SnapshotPort) : Enc :=
  enc_id (port_endpoint (snp_port value)) ;> enc_u32 (port_index (snp_port value)) ;>
  enc_enum8 (snp_state value) ;> encode_port_capability (snp_capability value) ;>
  enc_vector encode_attachment (snp_attachments value) ;> enc_vector encode_conflict (snp_conflicts value).

Definition encode_object (limits : Limits) (value : SnapshotObject) : Enc :=
  enc_id (sno_id value) ;> enc_enum8 (sno_kind value) ;> enc_string (sno_label value) (max_string_bytes limits) ;>
  enc_string (sno_serial value) (max_string_bytes limits) ;>
  enc_string (sno_location value) (max_string_bytes limits) ;> enc_u64 (sno_incarnation value) ;>
  enc_enum8 (sno_lifecycle value) ;> encode_capability limits (sno_capability value) ;>
  enc_vector encode_side_descriptor (sno_sides value) ;> enc_vector encode_attachment (sno_attachments value).

Definition encode_endpoint (limits : Limits) (value : SnapshotEndpoint) : Enc :=
  enc_id (sne_id value) ;> enc_enum8 (sne_kind value) ;> enc_string (sne_name value) (max_string_bytes limits) ;>
  enc_string (sne_location value) (max_string_bytes limits) ;> enc_u32 (sne_port_count value) ;>
  encode_port_capability (sne_capability value).

Definition encode_fenced_session (value : SnapshotFencedSession) : Enc :=
  enc_id (snf_source value) ;> enc_u64 (snf_incarnation value) ;> enc_u64 (snf_fenced_by value) ;>
  enc_u64 (snf_claims value).

Definition encode_fenced_object (value : SnapshotFencedObject) : Enc :=
  enc_id (sfo_object value) ;> enc_u64 (sfo_incarnation value) ;> enc_u64 (sfo_claims value).

(** The body of [encode_snapshot_bytes] behind the format version and the
    registry identity. *)
Definition encode_snapshot_body (limits : Limits) (s : TopologySnapshot) : Enc :=
  enc_bytes (sn_provenance_digest s) ;> encode_summary (sn_summary s) ;>
  enc_vector (encode_object limits) (sn_objects s) ;> enc_vector (encode_endpoint limits) (sn_endpoints s) ;>
  enc_vector encode_port (sn_ports s) ;> enc_vector encode_fenced_session (sn_fenced_sessions s) ;>
  enc_vector encode_fenced_object (sn_fenced_objects s).

Definition encode_snapshot_image (include_registry : bool) (limits : Limits) (s : TopologySnapshot) : Enc :=
  enc_u32 (sn_format_version s) ;> (if include_registry then enc_id (sn_registry s) else enc_nop) ;>
  encode_snapshot_body limits s.

Definition encode_snapshot_bytes (source : TopologySnapshot) (include_registry : bool) (limits : Limits) : list Z :=
  enc_take (encode_snapshot_image include_registry limits (canonicalise source) new_encoder).

(** [TopologySnapshot::encode], [digest] and [graph_digest]. *)
Definition snapshot_encode (s : TopologySnapshot) : list Z := encode_snapshot_bytes s true default_limits.
Definition snapshot_digest (s : TopologySnapshot) : list Z := sha256 (snapshot_encode s).
Definition graph_digest (s : TopologySnapshot) : list Z := sha256 (encode_snapshot_bytes s false default_limits).

Definition encode_topology_snapshot (limits : Limits) (value : TopologySnapshot) : Enc :=
  enc_bytes (encode_snapshot_bytes value true limits).

(** ** Decoding *)

Definition decode_claim : Dec SnapshotClaim :=
  source ← dec_id; incarnation ← dec_u64; generation ← dec_u64; evidence ← dec_id; observed_at ← dec_i64;
  provenance ← dec_u8; authority_class ← dec_u8; rank ← dec_u32;
  provenance ← dec_enum provenance; authority_class ← dec_enum authority_class;
  mret (mkSnapshotClaim source incarnation generation evidence observed_at provenance (mkAuthority authority_class rank)).

Definition decode_claims (limits : Limits) : Dec (list SnapshotClaim) :=
  decode_vector (max_claim_records_per_port limits) decode_claim.

Definition decode_attachment (limits : Limits) : Dec SnapshotAttachment :=
  object ← dec_id; side ← dec_u32; endpoint ← dec_id; index ← dec_u32; slot ← dec_u32; incarnation ← dec_u64;
  authority_class ← dec_u8; rank ← dec_u32; connector_compatible ← dec_boolean; media_compatible ← dec_boolean;
  conflicting ← dec_boolean;
  authority_class ← dec_enum authority_class;
  claims ← decode_claims limits;
  mret (mkSnapshotAttachment (mkObjectSideRef object side) (mkPortRef endpoint index) slot incarnation
          (mkAuthority authority_class rank) connector_compatible media_compatible conflicting claims).

Definition decode_conflict (limits : Limits) : Dec SnapshotConflict :=
  reason ← dec_u8; object ← dec_id; side ← dec_u32; endpoint ← dec_id; index ← dec_u32;
  reason ← dec_enum reason;
  claims ← decode_claims limits;
  mret (mkSnapshotConflict reason (mkObjectSideRef object side) (mkPortRef endpoint index) claims).

Definition decode_port (limits : Limits) : Dec SnapshotPort :=
  endpoint ← dec_id; index ← dec_u32; state ← dec_u8; capability ← decode_port_capability limits;
  state ← dec_enum state;
  attachments ← decode_vector (max_claim_records_per_port limits) (decode_attachment limits);
  conflicts ← decode_vector (max_claim_records_per_port limits) (decode_conflict limits);
  mret (mkSnapshotPort (mkPortRef endpoint index) state capability attachments conflicts).

Definition decode_object (limits : Limits) : Dec SnapshotObject :=
  id ← dec_id; kind ← dec_u8; label ← dec_string (max_string_bytes limits);
  serial ← dec_string (max_string_bytes limits); location ← dec_string (max_string_bytes limits);
  incarnation ← dec_u64; lifecycle ← dec_u8;
  kind ← dec_enum kind; lifecycle ← dec_enum lifecycle;
  capability ← decode_capability limits;
  sides ← decode_vector (max_sides_per_object limits) decode_side_descriptor;
  attachments ← decode_vector (max_claim_records_per_port limits) (decode_attachment limits);
  mret (mkSnapshotObject id kind label serial location incarnation lifecycle capability sides attachments).

Definition decode_endpoint (limits : Limits) : Dec SnapshotEndpoint :=
  id ← dec_id; kind ← dec_u8; name ← dec_string (max_string_bytes limits);
  location ← dec_string (max_string_bytes limits); port_count ← dec_u32;
  kind ← dec_enum kind; _ ← dec_guard (negb (max_ports_per_endpoint limits <? port_count));
  capability ← decode_port_capability limits;
  mret (mkSnapshotEndpoint id kind name location port_count capability).

Definition decode_fenced_session : Dec SnapshotFencedSession :=
  source ← dec_id; incarnation ← dec_u64; fenced_by ← dec_u64; claims ← dec_u64;
  mret (mkSnapshotFencedSession source incarnation fenced_by claims).

Definition decode_fenced_object : Dec SnapshotFencedObject :=
  object ← dec_id; incarnation ← dec_u64; claims ← dec_u64;
  mret (mkSnapshotFencedObject object incarnation claims).

(** A decoder that says what is wrong. *)
Definition DecE (A : Type) : Type := Decoder -> Outcome (A * Decoder).

#[export] Instance DecE_ret : MRet DecE := fun A a d => inl (a, d).
#[export] Instance DecE_bind : MBind DecE := fun A B k m d =>
  match m d with inl (a, d') => k a d' | inr e => inr e end.

Definition expect {A} (message : string) (decode : Dec A) : DecE A := fun d =>
  match decode d with Some x => inl x | None => inr (mkError ErrorCode.CorruptStore message) end.

Definition require (condition : bool) (e : Error) : DecE unit := fun d => if condition then inl (tt, d) else inr e.

(** A count within the bound, and that many elements. *)
Definition decode_section {A} (what : string) (bound : Z) (element : Dec A) : DecE (list A) :=
  count ← expect ("snapshot " +:+ what +:+ " count is out of bounds")
            (count ← dec_u32; _ ← dec_guard (negb (bound <? count)); mret count);
  expect ("snapshot " +:+ what +:+ " is malformed") (dec_repeat (Z.to_nat count) element).

Definition decode_snapshot (data : list Z) (limits : Limits) : Outcome TopologySnapshot :=
  let bound := max_snapshot_entries limits in
  let body : DecE TopologySnapshot :=
    version ← expect "snapshot header is truncated" dec_u32;
    _ ← require (version =? kSnapshotFormatVersion)
          (mkError ErrorCode.UnsupportedVersion ("snapshot format version " +:+ to_dec version +:+ " is not supported"));
    registry ← expect "snapshot registry identity is truncated" dec_id;
    digest ← expect "snapshot provenance digest is truncated" (dec_bytes 32);
    _ ← require (zlen digest =? 32)
          (mkError ErrorCode.CorruptStore "snapshot provenance digest has the wrong size");
    summary ← expect "snapshot summary is truncated" decode_summary;
    objects ← decode_section "object" bound (decode_object limits);
    endpoints ← decode_section "endpoint" bound (decode_endpoint limits);
    ports ← decode_section "port" bound (decode_port limits);
    fenced_sessions ← decode_section "fenced session" bound decode_fenced_session;
    fenced_objects ← decode_section "fenced object" bound decode_fenced_object;
    mret (mkSnapshot version registry summary objects endpoints ports fenced_sessions fenced_objects digest) in
  match body (new_decoder data) with
  | inr e => inr e
  | inl (snapshot, decoder) =>
      if negb (dec_done decoder) then
        inr (mkError ErrorCode.CorruptStore
               ("snapshot carries " +:+ to_dec (dec_remaining decoder) +:+ " trailing bytes"))
      else inl snapshot
  end.

Definition decode_topology_snapshot (limits : Limits) : Dec TopologySnapshot :=
  length ← dec_u32;
  _ ← dec_guard (negb ((length =? 0) || (max_frame_payload_bytes limits <? length)));
  raw ← dec_take length;
  match decode_snapshot raw limits with
  | inl snapshot => mret snapshot
  | inr _ => dec_opt None
  end.
