(* ===== verification/SnapshotCodec.v ===== *)
(** * The canonical encoding is canonical, and comes back

    A snapshot within the limits survives encoding and decoding, up to the order
    of its collections; two snapshots that differ only in that order have the
    same bytes.  The digest of a snapshot whose encoding fails is exhibited at the
    end. *)
From S2P Require Import Prelude OrdMap Types Ids Graph Codec Serialization State Fold Derive Digest Snapshot.
#[local] Open Scope string_scope.
#[local] Open Scope Z_scope.

(** ** Values within the limits *)

Section wf.
Context (limits : Limits).

Definition wf_claim (c : SnapshotClaim) : Prop :=
  id_ok (snc_source c) /\ is_u64 (snc_incarnation c) /\ is_u64 (snc_generation c) /\ id_ok (snc_evidence c) /\
  is_i64 (snc_observed_at c) /\ wf_authority (snc_authority c).

Definition wf_claims (l : list SnapshotClaim) : Prop :=
  zlen l <= max_claim_records_per_port limits /\ Forall wf_claim l.

Definition wf_attachment (a : SnapshotAttachment) : Prop :=
  wf_side_ref (sna_subject a) /\ wf_port_ref (sna_port a) /\ is_u32 (sna_slot a) /\ is_u64 (sna_object_incarnation a) /\
  wf_authority (sna_authority a) /\ wf_claims (sna_claims a).

Definition wf_conflict (c : SnapshotConflict) : Prop :=
  wf_side_ref (snx_subject c) /\ wf_port_ref (snx_port c) /\ wf_claims (snx_claims c).

Definition wf_port (p : SnapshotPort) : Prop :=
  wf_port_ref (snp_port p) /\ wf_port_capability limits (snp_capability p) /\
  (zlen (snp_attachments p) <= max_claim_records_per_port limits /\ Forall wf_attachment (snp_attachments p)) /\
  (zlen (snp_conflicts p) <= max_claim_records_per_port limits /\ Forall wf_conflict (snp_conflicts p)).

Definition wf_object (o : SnapshotObject) : Prop :=
  id_ok (sno_id o) /\ wf_string limits (sno_label o) /\ wf_string limits (sno_serial o) /\
  wf_string limits (sno_location o) /\ is_u64 (sno_incarnation o) /\ wf_capability limits (sno_capability o) /\
  (zlen (sno_sides o) <= max_sides_per_object limits /\ Forall wf_side_descriptor (sno_sides o)) /\
  (zlen (sno_attachments o) <= max_claim_records_per_port limits /\ Forall wf_attachment (sno_attachments o)).

Definition wf_endpoint (e : SnapshotEndpoint) : Prop :=
  id_ok (sne_id e) /\ wf_string limits (sne_name e) /\ wf_string limits (sne_location e) /\
  is_u32 (sne_port_count e) /\ sne_port_count e <= max_ports_per_endpoint limits /\
  wf_port_capability limits (sne_capability e).

Definition wf_fenced_session (f : SnapshotFencedSession) : Prop :=
  id_ok (snf_source f) /\ is_u64 (snf_incarnation f) /\ is_u64 (snf_fenced_by f) /\ is_u64 (snf_claims f).

Definition wf_fenced_object (f : SnapshotFencedObject) : Prop :=
  id_ok (sfo_object f) /\ is_u64 (sfo_incarnation f) /\ is_u64 (sfo_claims f).

Definition wf_summary (s : GraphSummary) : Prop :=
  Forall is_u64 [gs_ports_attached s; gs_ports_empty s; gs_ports_unknown s; gs_ports_conflicting s;
    gs_objects_total s; gs_objects_registered s; gs_objects_unattached s; gs_objects_attached s;
    gs_objects_quarantined s; gs_objects_removed s; gs_objects_retired s; gs_edges s; gs_edges_unvalidated s;
    gs_conflicts s; gs_claims_fenced s; gs_claims_pending s].

(** A collection with at most [max_snapshot_entries] elements. *)
Definition wf_section {A} (P : A -> Prop) (l : list A) : Prop := zlen l <= max_snapshot_entries limits /\ Forall P l.

Record wf_snapshot (s : TopologySnapshot) : Prop := {
  ws_version : sn_format_version s = kSnapshotFormatVersion;
  ws_registry : id_ok (sn_registry s);
  ws_digest : zlen (sn_provenance_digest s) = 32;
  ws_summary : wf_summary (sn_summary s);
  ws_objects : wf_section wf_object (sn_objects s);
  ws_endpoints : wf_section wf_endpoint (sn_endpoints s);
  ws_ports : wf_section wf_port (sn_ports s);
  ws_sessions : wf_section wf_fenced_session (sn_fenced_sessions s);
  ws_fenced : wf_section wf_fenced_object (sn_fenced_objects s);
}.
End wf.

(** Sorting keeps a bounded collection of well-formed elements. *)
Lemma zlen_sort {A} (lt : A -> A -> bool) l : zlen (std_sort lt l) = zlen l.
Proof. unfold zlen. f_equal. apply Permutation_length, std_sort_perm. Qed.

Lemma Forall_sort {A} (lt : A -> A -> bool) (P : A -> Prop) l : Forall P l -> Forall P (std_sort lt l).
Proof. intros H. by rewrite std_sort_perm. Qed.

Section canonical_wf.
Context (limits : Limits).

Lemma sort_claims_wf a : wf_attachment limits a -> wf_attachment limits (sort_claims a).
Proof.
  intros (? & ? & ? & ? & ? & [? ?]). unfold wf_attachment, wf_claims, sort_claims. cbn.
  rewrite zlen_sort. split_and!; try done. by apply Forall_sort.
Qed.

Lemma sort_conflict_wf c : wf_conflict limits c -> wf_conflict limits (sort_conflict_claims c).
Proof.
  intros (? & ? & [? ?]). unfold wf_conflict, wf_claims, sort_conflict_claims. cbn.
  rewrite zlen_sort. split_and!; try done. by apply Forall_sort.
Qed.

(** [f <$> std_sort lt l] is as well formed as [l] when [f] keeps elements so. *)
Lemma sorted_section {A} (lt : A -> A -> bool) (f : A -> A) (P : A -> Prop) bound (l : list A) :
  (forall x, P x -> P (f x)) -> zlen l <= bound /\ Forall P l ->
  zlen (f <$> std_sort lt l) <= bound /\ Forall P (f <$> std_sort lt l).
Proof.
  intros Hf [Hl HP]. split; [unfold zlen; rewrite length_fmap; by apply (Z.le_trans _ (zlen l)); [rewrite <- (zlen_sort lt l)|]|].
  apply Forall_fmap. eapply Forall_impl; [by apply Forall_sort|]. done.
Qed.

Lemma canonical_object_wf o : wf_object limits o -> wf_object limits (canonical_object o).
Proof.
  intros (? & ? & ? & ? & ? & ? & ? & ?). unfold wf_object, canonical_object. cbn.
  do 7 (split; [done|]). by apply (sorted_section object_attachment_less sort_claims (wf_attachment limits)); [apply sort_claims_wf|].
Qed.

Lemma canonical_port_wf p : wf_port limits p -> wf_port limits (canonical_port p).
Proof.
  intros (? & ? & ? & ?). unfold wf_port, canonical_port. cbn.
  split; [done|]. split; [done|].
  split; [by apply (sorted_section port_attachment_less sort_claims (wf_attachment limits)); [apply sort_claims_wf|]|].
  by apply (sorted_section conflict_less sort_conflict_claims (wf_conflict limits)); [apply sort_conflict_wf|].
Qed.

Lemma sorted_only {A} (lt : A -> A -> bool) (P : A -> Prop) l :
  wf_section limits P l -> wf_section limits P (std_sort lt l).
Proof. intros [? ?]. split; [by rewrite zlen_sort|by apply Forall_sort]. Qed.

Lemma canonicalise_wf s : wf_snapshot limits s -> wf_snapshot limits (canonicalise s).
Proof.
  intros []. split; cbn [canonicalise sn_format_version sn_registry sn_provenance_digest sn_summary sn_objects
    sn_endpoints sn_ports sn_fenced_sessions sn_fenced_objects]; try done; try by apply sorted_only.
  - by apply sorted_section; [apply canonical_object_wf|].
  - by apply sorted_section; [apply canonical_port_wf|].
Qed.
End canonical_wf.

(** ** Round trip *)

(** A decoder that forgets what was wrong. *)
Definition quiet {A} (decode : DecE A) : Dec A := fun d => match decode d with inl x => Some x | inr _ => None end.

Lemma roundtrip_ext {A} f (d d' : Dec A) a : (forall x, d x = d' x) -> roundtrip f d a -> roundtrip f d' a.
Proof. intros E (bs & Hw & Hd). exists bs. split; [done|]. intros pre post. by rewrite <- E. Qed.

Lemma quiet_bind {A B} (m : DecE A) (k : A -> DecE B) x :
  (quiet m ≫= fun a => quiet (k a)) x = quiet (m ≫= k) x.
Proof. unfold quiet, mbind, Dec_bind, DecE_bind. by destruct (m x) as [[a d]|]. Qed.

Lemma rte_seq {A B} f g message (d : Dec A) (k : A -> DecE B) a b :
  roundtrip f d a -> roundtrip g (quiet (k a)) b -> roundtrip (f ;> g) (quiet (expect message d ≫= k)) b.
Proof.
  intros Hf Hg. eapply roundtrip_ext; [apply quiet_bind|]. eapply rt_seq; [|exact Hg].
  eapply roundtrip_ext; [|exact Hf]. intros x. unfold quiet, expect. by destruct (d x).
Qed.

Lemma rte_last {A B} f message (d : Dec A) (k : A -> DecE B) a b :
  roundtrip f d a -> decodes (quiet (k a)) [] b -> roundtrip f (quiet (expect message d ≫= k)) b.
Proof.
  intros Hf Hg. eapply roundtrip_ext; [apply quiet_bind|]. eapply rt_last; [|exact Hg].
  eapply roundtrip_ext; [|exact Hf]. intros x. unfold quiet, expect. by destruct (d x).
Qed.

Lemma rte_require {A} f c e (k : unit -> DecE A) a :
  c = true -> roundtrip f (quiet (k tt)) a -> roundtrip f (quiet (require c e ≫= k)) a.
Proof. intros -> Hf. eapply roundtrip_ext; [|exact Hf]. done. Qed.

(** A counted section reads as [decode_vector] does. *)
Lemma quiet_section {A} what bound (element : Dec A) x :
  decode_vector bound element x = quiet (decode_section what bound element) x.
Proof.
  unfold decode_vector, decode_section, quiet, expect, mbind, Dec_bind, DecE_bind.
  destruct (dec_u32 x) as [[count d]|]; [|done]. unfold dec_guard. destruct (negb _); [|done]. cbn.
  by destruct (dec_repeat _ _ d).
Qed.

Lemma rte_section {A B} what bound f g (element : Dec A) (k : list A -> DecE B) l b :
  roundtrip f (decode_vector bound element) l -> roundtrip g (quiet (k l)) b ->
  roundtrip (f ;> g) (quiet (decode_section what bound element ≫= k)) b.
Proof.
  intros Hf Hg. eapply roundtrip_ext; [apply quiet_bind|]. eapply rt_seq; [|exact Hg].
  eapply roundtrip_ext; [|exact Hf]. apply quiet_section.
Qed.

Lemma rte_section_last {A B} what bound f (element : Dec A) (k : list A -> DecE B) l b :
  roundtrip f (decode_vector bound element) l -> decodes (quiet (k l)) [] b ->
  roundtrip f (quiet (decode_section what bound element ≫= k)) b.
Proof.
  intros Hf Hg. eapply roundtrip_ext; [apply quiet_bind|]. eapply rt_last; [|exact Hg].
  eapply roundtrip_ext; [|exact Hf]. apply quiet_section.
Qed.

Section roundtrips.
Context (limits : Limits) (Hlim : limits_ok limits).

Lemma limits_claims : is_u32 (max_claim_records_per_port limits).
Proof using Hlim. apply Hlim. Qed.
Lemma limits_entries : is_u32 (max_snapshot_entries limits).
Proof using Hlim. apply Hlim. Qed.
Lemma limits_bound_strings : is_u32 (max_string_bytes limits).
Proof using Hlim. apply Hlim. Qed.

Lemma rt_claim c : wf_claim c -> roundtrip (encode_claim c) decode_claim c.
Proof using. unfold encode_claim, decode_claim, wf_claim, wf_authority. destruct c as [? ? ? ? ? ? [? ?]]. cbn. intros Hwf.
  destruct_and?. rt_steps. Qed.

Lemma rt_claims l : wf_claims limits l -> roundtrip (encode_claims l) (decode_claims limits) l.
Proof using Hlim. intros Hl. eapply rt_bounded; [apply limits_claims|apply rt_claim|exact Hl]. Qed.

#[local] Hint Resolve rt_claims limits_bound_strings : rt.

Lemma rt_attachment a : wf_attachment limits a -> roundtrip (encode_attachment a) (decode_attachment limits) a.
Proof using Hlim.
  unfold encode_attachment, decode_attachment, wf_attachment, wf_side_ref, wf_port_ref, wf_authority.
  destruct a as [[? ?] [? ?] ? ? [? ?] ? ? ? ?]. cbn. intros Hwf. destruct_and?. rt_steps.
Qed.

Lemma rt_conflict c : wf_conflict limits c -> roundtrip (encode_conflict c) (decode_conflict limits) c.
Proof using Hlim.
  unfold encode_conflict, decode_conflict, wf_conflict, wf_side_ref, wf_port_ref.
  destruct c as [? [? ?] [? ?] ?]. cbn. intros Hwf. destruct_and?. rt_steps.
Qed.

Lemma rt_attachments l :
  zlen l <= max_claim_records_per_port limits /\ Forall (wf_attachment limits) l ->
  roundtrip (enc_vector encode_attachment l) (decode_vector (max_claim_records_per_port limits) (decode_attachment limits)) l.
Proof using Hlim. apply rt_bounded; [apply limits_claims|apply rt_attachment]. Qed.

Lemma rt_conflicts l :
  zlen l <= max_claim_records_per_port limits /\ Forall (wf_conflict limits) l ->
  roundtrip (enc_vector encode_conflict l) (decode_vector (max_claim_records_per_port limits) (decode_conflict limits)) l.
Proof using Hlim. apply rt_bounded; [apply limits_claims|apply rt_conflict]. Qed.

#[local] Hint Resolve rt_attachments rt_conflicts rt_port_capability : rt.

Lemma rt_port p : wf_port limits p -> roundtrip (encode_port p) (decode_port limits) p.
Proof using Hlim.
  unfold encode_port, decode_port, wf_port, wf_port_ref. destruct p as [[? ?] ? ? ? ?]. cbn.
  intros ([? ?] & ? & ? & ?). rt_steps.
Qed.

Lemma rt_object o : wf_object limits o -> roundtrip (encode_object limits o) (decode_object limits) o.
Proof using Hlim.
  unfold encode_object, decode_object, wf_object, wf_string. destruct o. cbn.
  intros (? & ? & ? & ? & ? & ? & [? ?] & ?).
  pose proof (rt_capability limits Hlim). pose proof (rt_sides limits Hlim). rt_steps.
Qed.

Lemma rt_endpoint e : wf_endpoint limits e -> roundtrip (encode_endpoint limits e) (decode_endpoint limits) e.
Proof using Hlim.
  unfold encode_endpoint, decode_endpoint, wf_endpoint, wf_string. destruct e. cbn. intros Hwf. destruct_and?. rt_steps.
Qed.

Lemma rt_fenced_session f : wf_fenced_session f -> roundtrip (encode_fenced_session f) decode_fenced_session f.
Proof using. unfold encode_fenced_session, decode_fenced_session, wf_fenced_session. rt_record f. Qed.

Lemma rt_fenced_object f : wf_fenced_object f -> roundtrip (encode_fenced_object f) decode_fenced_object f.
Proof using. unfold encode_fenced_object, decode_fenced_object, wf_fenced_object. rt_record f. Qed.

Lemma rt_summary s : wf_summary s -> roundtrip (encode_summary s) decode_summary s.
Proof using.
  unfold encode_summary, decode_summary, wf_summary. rewrite !Forall_cons. destruct s. cbn. intros Hwf.
  destruct_and?. rt_steps.
Qed.
End roundtrips.

(** C14: The canonical encoding comes back. A snapshot whose integers fit their
    types, whose strings and collections are within the limits, and which fits
    the encoder at all, is decoded from its bytes to the same snapshot with its
    collections in canonical order, and nothing is left over. *)
Theorem snapshot_roundtrip limits s :
  limits_u32 limits -> wf_snapshot limits s -> encode_snapshot_bytes s true limits <> [] ->
  decode_snapshot (encode_snapshot_bytes s true limits) limits = inl (canonicalise s).
Proof.
  intros Hu Hwf Hne. unfold encode_snapshot_bytes in *. pose proof (limits_u32_ok _ Hu) as Hlim.
  pose proof (canonicalise_wf limits s Hwf) as [Hv Hr Hd Hs Ho He Hp Hf Hb].
  assert (Hok : enc_ok (encode_snapshot_image true limits (canonicalise s) new_encoder) = true).
  { unfold enc_take in Hne. unfold enc_ok. by destruct (enc_failed _). }
  revert Hok Hv Hr Hd Hs Ho He Hp Hf Hb. clear Hne Hwf. generalize (canonicalise s). intros c Hok Hv Hr Hd Hs Ho He Hp Hf Hb.
  unfold decode_snapshot. set (body := mbind _ _ : DecE TopologySnapshot).
  assert (Hrt : roundtrip (encode_snapshot_image true limits c) (quiet body) c).
  { destruct c as [version registry summary objects endpoints ports sessions fenced digest]. cbn in *.
    unfold encode_snapshot_image, encode_snapshot_body. cbn. subst version.
    eapply rte_seq; [by apply rt_u32|]. apply rte_require; [done|].
    eapply rte_seq; [by apply rt_id|].
    eapply rte_seq; [apply rt_bytes; [lia|done]|]. apply rte_require; [by rewrite Hd|].
    eapply rte_seq; [by apply rt_summary|].
    pose proof (limits_entries limits Hlim) as Hu32.
    eapply rte_section; [eapply rt_bounded; [done|by apply rt_object|done]|].
    eapply rte_section; [eapply rt_bounded; [done|by apply rt_endpoint|done]|].
    eapply rte_section; [eapply rt_bounded; [done|by apply rt_port|done]|].
    eapply rte_section; [eapply rt_bounded; [done|apply rt_fenced_session|done]|].
    eapply rte_section_last; [eapply rt_bounded; [done|apply rt_fenced_object|done]|]. apply decodes_ret. }
  destruct (roundtrip_ok _ _ _ Hrt Hok) as (d & E & Hdone). unfold quiet in E.
  destruct (body _) as [[s' d']|e]; [|done]. injection E as -> ->. by rewrite Hdone.
Qed.

(** ** Order does not show *)

(** The comparator tells the elements of a list apart. *)
Definition tells_apart {A} (lt : A -> A -> bool) (l : list A) : Prop :=
  forall a b, a ∈ l -> b ∈ l -> lt a b = false -> lt b a = false -> a = b.

(** The second list is the first in another order, with elements replaced by
    related ones. *)
Definition reordered {A} (lt : A -> A -> bool) (R : A -> A -> Prop) (l1 l2 : list A) : Prop :=
  tells_apart lt l1 /\ exists l, l1 ≡ₚ l /\ Forall2 R l l2.

Lemma Forall2_fmap_eq {A B} (R : A -> A -> Prop) (f : A -> B) l1 l2 :
  (forall a b, R a b -> f a = f b) -> Forall2 R l1 l2 -> f <$> l1 = f <$> l2.
Proof. intros HR. induction 1 as [|a b l1 l2 Hab _ IH]; [done|]. rewrite !fmap_cons, IH. f_equal. by apply HR. Qed.

(** Sorting and then normalising forgets the order. *)
Lemma reordered_sort {A} (lt : A -> A -> bool) (R : A -> A -> Prop) (f : A -> A) l1 l2 :
  StrictLt lt -> (forall a b, lt (f a) (f b) = lt a b) -> (forall a b, R a b -> f a = f b) ->
  reordered lt R l1 l2 -> f <$> std_sort lt l1 = f <$> std_sort lt l2.
Proof.
  intros Hst Hlt HR [Htot (l & Hperm & Hall)]. rewrite (std_sort_perm_eq lt l1 l) by done.
  rewrite <- !(std_sort_fmap f lt lt) by done. f_equal. by eapply Forall2_fmap_eq.
Qed.

Lemma reordered_plain {A} (lt : A -> A -> bool) l1 l2 :
  StrictLt lt -> reordered lt eq l1 l2 -> std_sort lt l1 = std_sort lt l2.
Proof.
  intros Hst H. rewrite <- (list_fmap_id (std_sort lt l1)), <- (list_fmap_id (std_sort lt l2)).
  by apply (reordered_sort lt eq id).
Qed.

(** The comparators of [canonicalise] compare keys. *)
Definition by_key {A K} `{Ord K} (key : A -> K) (a b : A) : bool := kltb (key a) (key b).

#[local] Instance by_key_strict {A K} `{Ord K} (key : A -> K) : StrictLt (by_key key).
Proof. split; unfold by_key; intros *; [apply slt_asym|apply slt_neg_trans]. Qed.

Lemma strict_ext {A} (lt lt' : A -> A -> bool) : (forall a b, lt a b = lt' a b) -> StrictLt lt' -> StrictLt lt.
Proof. intros E [H1 H2]. split; intros *; rewrite !E; [apply H1|apply H2]. Qed.

Lemma lex_pair {K L} `{Ord K, Ord L} (x x' : K) (y y' : L) rest :
  rest = kltb y y' -> (if negb (keqb x x') then kltb x x' else rest) = kltb (x, y) (x', y').
Proof.
  intros ->. unfold keqb, kltb. cbn. unfold lex_cmp. cbn. by destruct (cmp x x').
Qed.

Lemma lex_int {L} `{Ord L} (x x' : Z) (y y' : L) rest :
  rest = kltb y y' -> (if negb (x =? x') then x <? x' else rest) = kltb (x, y) (x', y').
Proof.
  intros ->. unfold kltb. cbn. unfold lex_cmp, Z.ltb. cbn.
  destruct (Z.eqb_spec x x') as [->|Hne]; cbn; [by rewrite Z.compare_refl|]. by destruct (Z.compare_spec x x').
Qed.

Definition claim_key (c : SnapshotClaim) := (snc_source c, (snc_incarnation c, (snc_generation c, snc_evidence c))).
Definition object_attachment_key (a : SnapshotAttachment) := (sna_port a, sna_slot a).
Definition port_attachment_key (a : SnapshotAttachment) := (sna_subject a, sna_slot a).
Definition conflict_key (c : SnapshotConflict) := (enum_code (snx_reason c), (snx_subject c, snx_port c)).
Definition fenced_session_key (f : SnapshotFencedSession) := (snf_source f, snf_incarnation f).

Lemma claim_less_key a b : claim_less a b = by_key claim_key a b.
Proof. unfold claim_less, by_key, claim_key. apply lex_pair, lex_int, lex_int. done. Qed.

Lemma object_attachment_less_key a b : object_attachment_less a b = by_key object_attachment_key a b.
Proof. unfold object_attachment_less, by_key, object_attachment_key. by apply lex_pair. Qed.

Lemma port_attachment_less_key a b : port_attachment_less a b = by_key port_attachment_key a b.
Proof. unfold port_attachment_less, by_key, port_attachment_key. by apply lex_pair. Qed.

Lemma fenced_session_less_key a b : fenced_session_less a b = by_key fenced_session_key a b.
Proof. unfold fenced_session_less, by_key, fenced_session_key. by apply lex_pair. Qed.

Lemma conflict_less_key a b : conflict_less a b = by_key conflict_key a b.
Proof.
  unfold conflict_less, by_key, conflict_key. rewrite <- (lex_int _ _ _ _ _ eq_refl).
  rewrite <- (lex_pair _ _ _ _ _ eq_refl).
  assert (E : bool_decide (snx_reason a = snx_reason b) = (enum_code (snx_reason a) =? enum_code (snx_reason b))); [|by rewrite E].
  destruct (Z.eqb_spec (enum_code (snx_reason a)) (enum_code (snx_reason b))) as [Heq|Hne].
  - apply bool_decide_eq_true. apply (f_equal (enum_cast (E := ConflictReason.t))) in Heq.
    rewrite !enum_cast_code in Heq. by injection Heq.
  - apply bool_decide_eq_false. congruence.
Qed.

#[local] Instance claim_less_strict : StrictLt claim_less.
Proof. eapply strict_ext; [apply claim_less_key|apply _]. Qed.
#[local] Instance object_attachment_less_strict : StrictLt object_attachment_less.
Proof. eapply strict_ext; [apply object_attachment_less_key|apply _]. Qed.
#[local] Instance port_attachment_less_strict : StrictLt port_attachment_less.
Proof. eapply strict_ext; [apply port_attachment_less_key|apply _]. Qed.
#[local] Instance conflict_less_strict : StrictLt conflict_less.
Proof. eapply strict_ext; [apply conflict_less_key|apply _]. Qed.
#[local] Instance fenced_session_less_strict : StrictLt fenced_session_less.
Proof. eapply strict_ext; [apply fenced_session_less_key|apply _]. Qed.

(** *** Snapshots that differ only in the order of their collections *)

Definition with_claims (claims : list SnapshotClaim) (a : SnapshotAttachment) : SnapshotAttachment :=
  mkSnapshotAttachment (sna_subject a) (sna_port a) (sna_slot a) (sna_object_incarnation a) (sna_authority a)
    (sna_connector_compatible a) (sna_media_compatible a) (sna_conflicting a) claims.

Definition same_attachment (a b : SnapshotAttachment) : Prop :=
  with_claims [] a = with_claims [] b /\ reordered claim_less eq (sna_claims a) (sna_claims b).

Definition same_conflict (a b : SnapshotConflict) : Prop :=
  snx_reason a = snx_reason b /\ snx_subject a = snx_subject b /\ snx_port a = snx_port b /\
  reordered claim_less eq (snx_claims a) (snx_claims b).

Definition with_attachments (attachments : list SnapshotAttachment) (o : SnapshotObject) : SnapshotObject :=
  mkSnapshotObject (sno_id o) (sno_kind o) (sno_label o) (sno_serial o) (sno_location o) (sno_incarnation o)
    (sno_lifecycle o) (sno_capability o) (sno_sides o) attachments.

Definition same_object (a b : SnapshotObject) : Prop :=
  with_attachments [] a = with_attachments [] b /\
  reordered object_attachment_less same_attachment (sno_attachments a) (sno_attachments b).

Definition same_port (a b : SnapshotPort) : Prop :=
  snp_port a = snp_port b /\ snp_state a = snp_state b /\ snp_capability a = snp_capability b /\
  reordered port_attachment_less same_attachment (snp_attachments a) (snp_attachments b) /\
  reordered conflict_less same_conflict (snp_conflicts a) (snp_conflicts b).

Record same_snapshot (s1 s2 : TopologySnapshot) : Prop := {
  sms_version : sn_format_version s1 = sn_format_version s2;
  sms_registry : sn_registry s1 = sn_registry s2;
  sms_summary : sn_summary s1 = sn_summary s2;
  sms_digest : sn_provenance_digest s1 = sn_provenance_digest s2;
  sms_objects : reordered (by_key sno_id) same_object (sn_objects s1) (sn_objects s2);
  sms_endpoints : reordered (by_key sne_id) eq (sn_endpoints s1) (sn_endpoints s2);
  sms_ports : reordered (by_key snp_port) same_port (sn_ports s1) (sn_ports s2);
  sms_sessions : reordered fenced_session_less eq (sn_fenced_sessions s1) (sn_fenced_sessions s2);
  sms_fenced : reordered (by_key sfo_object) eq (sn_fenced_objects s1) (sn_fenced_objects s2);
}.

Lemma same_attachment_sorted a b : same_attachment a b -> sort_claims a = sort_claims b.
Proof.
  intros [Hf Hc]. apply (f_equal (with_claims (std_sort claim_less (sna_claims a)))) in Hf.
  unfold sort_claims. rewrite <- (reordered_plain claim_less _ _ _ Hc). exact Hf.
Qed.

Lemma same_conflict_sorted a b : same_conflict a b -> sort_conflict_claims a = sort_conflict_claims b.
Proof.
  intros (H1 & H2 & H3 & Hc). unfold sort_conflict_claims. by rewrite H1, H2, H3, (reordered_plain claim_less _ _ _ Hc).
Qed.

Lemma same_object_canonical a b : same_object a b -> canonical_object a = canonical_object b.
Proof.
  intros [Hf Hc]. apply (f_equal (with_attachments (sort_claims <$> std_sort object_attachment_less (sno_attachments a)))) in Hf.
  unfold canonical_object.
  rewrite <- (reordered_sort object_attachment_less same_attachment sort_claims _ _ _
    (fun _ _ => eq_refl) same_attachment_sorted Hc). exact Hf.
Qed.

Lemma same_port_canonical a b : same_port a b -> canonical_port a = canonical_port b.
Proof.
  intros (H1 & H2 & H3 & Ha & Hc). unfold canonical_port. rewrite H1, H2, H3. f_equal.
  - by apply (reordered_sort port_attachment_less same_attachment sort_claims _ _ _ (fun _ _ => eq_refl) same_attachment_sorted).
  - by apply (reordered_sort conflict_less same_conflict sort_conflict_claims _ _ _ (fun _ _ => eq_refl) same_conflict_sorted).
Qed.

Lemma same_snapshot_canonical s1 s2 : same_snapshot s1 s2 -> canonicalise s1 = canonicalise s2.
Proof.
  intros [H1 H2 H3 H4 Ho He Hp Hs Hf]. unfold canonicalise. rewrite H1, H2, H3, H4. f_equal.
  - by apply (reordered_sort (by_key sno_id) same_object canonical_object _ _ _ (fun _ _ => eq_refl) same_object_canonical).
  - by apply (reordered_plain (by_key sne_id) _ _ _).
  - by apply (reordered_sort (by_key snp_port) same_port canonical_port _ _ _ (fun _ _ => eq_refl) same_port_canonical).
  - by apply (reordered_plain fenced_session_less _ _ _).
  - by apply (reordered_plain (by_key sfo_object) _ _ _).
Qed.

(** The encoding is canonical. Two snapshots that differ only in the order in
    which their objects, endpoints, ports, fenced entries, attachments, conflicts
    and claims were collected, where no collection holds two elements with equal
    sort keys, have the same bytes and the same digests. *)
Theorem snapshot_order_does_not_show s1 s2 limits include_registry :
  same_snapshot s1 s2 ->
  encode_snapshot_bytes s1 include_registry limits = encode_snapshot_bytes s2 include_registry limits /\
  snapshot_digest s1 = snapshot_digest s2 /\ graph_digest s1 = graph_digest s2.
Proof.
  intros H. apply same_snapshot_canonical in H.
  assert (E : forall i l, encode_snapshot_bytes s1 i l = encode_snapshot_bytes s2 i l)
    by (intros i l; unfold encode_snapshot_bytes; by rewrite H).
  unfold snapshot_digest, snapshot_encode, graph_digest. by rewrite !E.
Qed.

(** ** A snapshot that does not fit the default limits *)

(** An encoder that failed stays failed; an encoder that fails on every input
    spoils every sequence it is part of. *)
Definition keeps (f : Enc) : Prop := forall e, enc_failed e = true -> enc_failed (f e) = true.
Definition spoils (f : Enc) : Prop := forall e, enc_failed (f e) = true.

Lemma keeps_append raw : keeps (append_bytes raw).
Proof. intros e He. by rewrite append_failed. Qed.

Lemma keeps_nop : keeps enc_nop.
Proof. by intros e. Qed.

Lemma keeps_seq f g : keeps f -> keeps g -> keeps (f ;> g).
Proof. intros Hf Hg e He. by apply Hg, Hf. Qed.

Lemma keeps_string s m : keeps (enc_string s m).
Proof.
  intros e He. unfold enc_string. destruct (_ || _); [done|]. cbv zeta. unfold enc_u32.
  by rewrite append_failed, He, He by done.
Qed.

Lemma keeps_bytes l : keeps (enc_bytes l).
Proof.
  intros e He. unfold enc_bytes. destruct (_ <? _); [done|]. cbv zeta. unfold enc_u32.
  by rewrite append_failed, He, He by done.
Qed.

Lemma keeps_each {A} (f : A -> Enc) l : (forall x, keeps (f x)) -> keeps (enc_each f l).
Proof. intros Hf. induction l as [|x l IH]; [apply keeps_nop|]. by apply keeps_seq. Qed.

Lemma keeps_vector {A} (f : A -> Enc) l : (forall x, keeps (f x)) -> keeps (enc_vector f l).
Proof. intros Hf. apply keeps_seq; [apply keeps_append|by apply keeps_each]. Qed.

(** Follow an encoder down to its primitive writes. *)
Ltac keep :=
  repeat match goal with
    | |- forall _, _ => intro
    | |- keeps (_ ;> _) => apply keeps_seq
    | |- keeps (enc_vector _ _) => apply keeps_vector
    | |- keeps (enc_string _ _) => apply keeps_string
    | |- keeps (enc_bytes _) => apply keeps_bytes
    | |- keeps enc_nop => apply keeps_nop
    | |- keeps (enc_u8 _) => apply keeps_append
    | |- keeps (enc_u16 _) => apply keeps_append
    | |- keeps (enc_u32 _) => apply keeps_append
    | |- keeps (enc_u64 _) => apply keeps_append
    | |- keeps (enc_i64 _) => apply keeps_append
    | |- keeps (enc_boolean _) => apply keeps_append
    | |- keeps (enc_enum8 _) => apply keeps_append
    | |- keeps (enc_enum16 _) => apply keeps_append
    | |- keeps (enc_id _) => apply keeps_seq; apply keeps_append
    end.

Lemma spoils_l f g : spoils f -> keeps g -> spoils (f ;> g).
Proof. intros Hf Hg e. apply Hg, Hf. Qed.

Lemma spoils_r f g : spoils g -> spoils (f ;> g).
Proof. intros Hg e. apply Hg. Qed.

Lemma spoils_vector {A} (f : A -> Enc) l x : x ∈ l -> spoils (f x) -> (forall y, keeps (f y)) -> spoils (enc_vector f l).
Proof.
  intros Hx Hs Hk. apply spoils_r. induction l as [|y l IH]; [by apply not_elem_of_nil in Hx|].
  apply elem_of_cons in Hx as [->|Hx].
  - apply spoils_l; [done|by apply keeps_each].
  - by apply spoils_r, IH.
Qed.

Lemma spoils_string s m : m < slen s -> spoils (enc_string s m).
Proof. intros Hlt e. unfold enc_string. by rewrite (proj2 (Z.ltb_lt _ _) Hlt). Qed.

Lemma keeps_attachment a : keeps (encode_attachment a).
Proof. unfold encode_attachment, encode_claims, encode_claim. keep. Qed.

Lemma keeps_object limits o : keeps (encode_object limits o).
Proof. unfold encode_object, encode_capability, encode_side_descriptor. keep. apply keeps_attachment. Qed.

Lemma keeps_endpoint limits e : keeps (encode_endpoint limits e).
Proof. unfold encode_endpoint, encode_port_capability. keep. Qed.

Lemma keeps_port p : keeps (encode_port p).
Proof.
  unfold encode_port, encode_port_capability, encode_conflict, encode_claims, encode_claim. keep.
  apply keeps_attachment.
Qed.

Lemma spoils_object limits o : max_string_bytes limits < slen (sno_label o) -> spoils (encode_object limits o).
Proof.
  intros Hlt. unfold encode_object. do 2 apply spoils_r. apply spoils_l; [by apply spoils_string|].
  unfold encode_capability, encode_side_descriptor. keep. apply keeps_attachment.
Qed.

Lemma spoils_image limits include_registry s o :
  o ∈ sn_objects s -> max_string_bytes limits < slen (sno_label o) ->
  spoils (encode_snapshot_image include_registry limits (canonicalise s)).
Proof.
  intros Ho Hlt. unfold encode_snapshot_image, encode_snapshot_body. do 4 apply spoils_r. apply spoils_l.
  - apply (spoils_vector _ _ (canonical_object o)).
    + apply list_elem_of_fmap. exists o. split; [done|]. by rewrite std_sort_perm.
    + by apply spoils_object.
    + apply keeps_object.
  - unfold encode_fenced_session, encode_fenced_object. keep; [apply keeps_endpoint|apply keeps_port].
Qed.

(** The digest of a snapshot does not separate snapshots that do not fit the
    default limits. [TopologySnapshot::encode] encodes with [Limits{}] whatever
    the registry was configured with, and [encode_snapshot_bytes] returns the
    empty buffer of the failed encoder; so every snapshot that holds an object
    with a label longer than the default 256 bytes has an empty encoding, and all
    of them share the two digests of the empty string. *)
Theorem oversized_snapshots_share_digest s o :
  o ∈ sn_objects s -> max_string_bytes default_limits < slen (sno_label o) ->
  snapshot_encode s = [] /\ snapshot_digest s = sha256 [] /\ graph_digest s = sha256 [].
Proof.
  intros Ho Hlt.
  assert (E : forall i, encode_snapshot_bytes s i default_limits = []).
  { intros i. unfold encode_snapshot_bytes, enc_take. by rewrite (spoils_image default_limits i s o Ho Hlt). }
  unfold snapshot_digest, graph_digest, snapshot_encode. by rewrite !E.
Qed.

(** ** Examples *)

Definition sample_claim (n : Z) : SnapshotClaim :=
  mkSnapshotClaim (from_parts 0 n) 1 n (from_parts 7 n) 10 ProvenanceClass.DiscoveryAgent
    (mkAuthority AuthorityClass.Observed 0).

Definition sample_attachment (claims : list SnapshotClaim) : SnapshotAttachment :=
  mkSnapshotAttachment (mkObjectSideRef (from_parts 1 1) 0) (mkPortRef (from_parts 2 1) 0) 0 1
    (mkAuthority AuthorityClass.Observed 0) true true false claims.

Definition sample_object (n : Z) (label : string) (claims : list SnapshotClaim) : SnapshotObject :=
  mkSnapshotObject (from_parts 1 n) ObjectKind.Cable label "" "" 1 LifecycleState.Attached default_nominal_capability
    [default_side_descriptor] (if n =? 1 then [sample_attachment claims] else []).

Definition sample_port (claims : list SnapshotClaim) : SnapshotPort :=
  mkSnapshotPort (mkPortRef (from_parts 2 1) 0) PortAttachmentState.Attached default_port_capability
    [sample_attachment claims] [].

Definition sample_snapshot (objects : list SnapshotObject) (claims : list SnapshotClaim) : TopologySnapshot :=
  mkSnapshot kSnapshotFormatVersion (from_parts 9 9) (mkSummary 1 0 0 0 2 1 0 1 0 0 0 1 0 0 0 0) objects
    [mkSnapshotEndpoint (from_parts 2 1) EndpointKind.Switch "leaf" "row" 4 default_port_capability]
    [sample_port claims] [mkSnapshotFencedSession (from_parts 0 3) 1 2 5] [] (replicate 32 0).

(** The same snapshot, with its objects and its claims collected in two orders. *)
Definition claims_ab := [sample_claim 1; sample_claim 2].
Definition claims_ba := [sample_claim 2; sample_claim 1].
Definition sample_ab := sample_snapshot [sample_object 1 "a" claims_ab; sample_object 2 "b" []] claims_ab.
Definition sample_ba := sample_snapshot [sample_object 2 "b" []; sample_object 1 "a" claims_ba] claims_ba.

Lemma snapshot_roundtrip_witness :
  decode_snapshot (encode_snapshot_bytes sample_ba true default_limits) default_limits = inl (canonicalise sample_ba).
Proof.
  apply (snapshot_roundtrip default_limits sample_ba).
  - unfold limits_u32. repeat constructor; vm_compute; congruence.
  - split; repeat constructor; vm_compute; congruence.
  - vm_compute. discriminate.
Defined.

Lemma oversized_snapshots_share_digest_witness :
  let label n := String.concat "" (replicate 300 n) in
  let long n := sample_object 1 (label n) [] in
  snapshot_encode (sample_snapshot [long "x"] []) = [] /\
  snapshot_digest (sample_snapshot [long "x"] []) = sha256 [] /\
  graph_digest (sample_snapshot [long "x"] []) = sha256 [].
Proof.
  cbv zeta. apply (oversized_snapshots_share_digest _ (sample_object 1 (String.concat "" (replicate 300 "x")) [])).
  - apply list_elem_of_here.
  - vm_compute. reflexivity.
Defined.

(** A list with at most one element, and one of two elements that the order
    tells apart. *)
Lemma tells_apart_one {A} (lt : A -> A -> bool) (x : A) : tells_apart lt [x].
Proof. intros a b Ha Hb _ _. apply list_elem_of_singleton in Ha, Hb. congruence. Qed.

Lemma tells_apart_two {A} (lt : A -> A -> bool) (x y : A) : lt x y = true \/ lt y x = true -> tells_apart lt [x; y].
Proof.
  intros Hlt a b Ha Hb H1 H2. rewrite !elem_of_cons, elem_of_nil in Ha, Hb.
  destruct Ha as [->|[->|[]]], Hb as [->|[->|[]]]; try done; destruct Hlt; congruence.
Qed.

Lemma reordered_one {A} (lt : A -> A -> bool) (R : A -> A -> Prop) x y : R x y -> reordered lt R [x] [y].
Proof. intros HR. split; [apply tells_apart_one|]. exists [x]. by repeat constructor. Qed.

Lemma reordered_swap {A} (lt : A -> A -> bool) (R : A -> A -> Prop) x y x' y' :
  lt x y = true \/ lt y x = true -> R x x' -> R y y' -> reordered lt R [x; y] [y'; x'].
Proof. intros Hlt Hx Hy. split; [by apply tells_apart_two|]. exists [y; x]. split; [constructor|by repeat constructor]. Qed.

Lemma reordered_nil {A} (lt : A -> A -> bool) (R : A -> A -> Prop) : reordered lt R [] [].
Proof. split; [by intros a b Ha%not_elem_of_nil|]. by exists []. Qed.

Lemma sample_same_attachment : same_attachment (sample_attachment claims_ab) (sample_attachment claims_ba).
Proof. split; [done|]. by apply reordered_swap; [left| |]. Qed.

Lemma sample_same : same_snapshot sample_ab sample_ba.
Proof.
  split; try done.
  - apply reordered_swap; [by left| |]; (split; [done|]).
    + apply reordered_one, sample_same_attachment.
    + apply reordered_nil.
  - by apply reordered_one.
  - apply reordered_one. split_and!; try done; [apply reordered_one, sample_same_attachment|apply reordered_nil].
  - by apply reordered_one.
  - apply reordered_nil.
Qed.

Lemma snapshot_order_does_not_show_witness :
  sample_ab <> sample_ba /\
  encode_snapshot_bytes sample_ab true default_limits = encode_snapshot_bytes sample_ba true default_limits /\
  snapshot_digest sample_ab = snapshot_digest sample_ba /\ graph_digest sample_ab = graph_digest sample_ba.
Proof. split; [discriminate|]. apply (snapshot_order_does_not_show sample_ab sample_ba default_limits true), sample_same. Defined.

(** Two attachments of one object in the same slot of one port, on two sides, are
    equal for the comparator of [canonicalise]: the order they were collected in
    shows in the bytes. *)
Definition twin (side : Z) : SnapshotAttachment :=
  mkSnapshotAttachment (mkObjectSideRef (from_parts 1 1) side) (mkPortRef (from_parts 2 1) 0) 0 1
    (mkAuthority AuthorityClass.Observed 0) true true true [].

Definition twin_snapshot (attachments : list SnapshotAttachment) : TopologySnapshot :=
  sample_snapshot [mkSnapshotObject (from_parts 1 1) ObjectKind.Cable "a" "" "" 1 LifecycleState.Attached
    default_nominal_capability [default_side_descriptor; default_side_descriptor] attachments] [].

Theorem two_sides_of_one_slot_show_their_order :
  object_attachment_less (twin 0) (twin 1) = false /\ object_attachment_less (twin 1) (twin 0) = false /\
  snapshot_encode (twin_snapshot [twin 0; twin 1]) <> snapshot_encode (twin_snapshot [twin 1; twin 0]).
Proof. split_and!; [done|done|]. vm_compute. discriminate. Qed.
