(* ===== verification/ViewCodec.v ===== *)
(** * View codecs ([src/serialization.cpp])

    The encodings of the query results that travel between the server and a
    client.  Every view within the limits comes back, with three exceptions that
    are stated here as they are: the inspection view forgets the kind and the
    disposition of what it lists, and one disposition of [OpenSessionResult] is
    refused by its reader. *)
From S2P Require Import Prelude OrdMap Types Ids Graph Codec Serialization.
#[local] Open Scope Z_scope.

Definition encode_claim_provenance (value : ClaimProvenance) : Enc :=
  enc_id (cp_source value) ;> enc_u64 (cp_incarnation value) ;> enc_u64 (cp_generation value) ;>
  enc_id (cp_evidence value) ;> enc_i64 (cp_observed_at value) ;> enc_i64 (cp_received_at value) ;>
  enc_enum8 (cp_provenance value) ;> encode_authority (cp_authority value) ;>
  enc_u64 (cp_object_incarnation value) ;> enc_boolean (cp_asserted_in_lifetime value).

Definition decode_claim_provenance : Dec ClaimProvenance :=
  source ← dec_id; incarnation ← dec_u64; generation ← dec_u64; evidence ← dec_id; observed_at ← dec_i64;
  received_at ← dec_i64; provenance ← dec_u8; authority ← decode_authority; object_incarnation ← dec_u64;
  asserted_in_lifetime ← dec_boolean;
  provenance ← dec_enum provenance;
  mret (mkClaim source incarnation generation evidence observed_at received_at provenance authority object_incarnation
          asserted_in_lifetime).

Definition encode_provenances (claims : list ClaimProvenance) : Enc := enc_vector encode_claim_provenance claims.

Section codecs.
Context (limits : Limits).

Definition decode_provenances : Dec (list ClaimProvenance) :=
  decode_vector (max_claim_records_per_port limits) decode_claim_provenance.

Definition encode_conflict_note (value : ConflictNote) : Enc :=
  enc_enum8 (cn_reason value) ;> encode_object_side_ref (cn_subject value) ;> encode_port_ref (cn_port value) ;>
  enc_string (cn_detail value) (max_string_bytes limits) ;> encode_provenances (cn_claims value).

Definition decode_conflict_note : Dec ConflictNote :=
  reason ← dec_u8; subject ← decode_object_side_ref; port ← decode_port_ref;
  detail ← dec_string (max_string_bytes limits);
  reason ← dec_enum reason;
  claims ← decode_provenances;
  mret (mkConflictNote reason subject port detail claims).

Definition encode_attachment_edge (value : AttachmentEdge) : Enc :=
  encode_object_side_ref (ae_subject value) ;> encode_port_ref (ae_port value) ;> enc_u32 (ae_slot value) ;>
  encode_authority (ae_authority value) ;> enc_enum8 (ae_validation value) ;>
  enc_boolean (ae_connector_compatible value) ;> enc_boolean (ae_media_compatible value) ;>
  enc_boolean (ae_conflicting value) ;> enc_u64 (ae_object_incarnation value) ;>
  encode_provenances (ae_claims value) ;> encode_provenances (ae_overridden value) ;>
  enc_u32 (ae_overridden_total value).

(** The bound on the overridden claims is a 32 bit product. *)
Definition max_overridden : Z := wrap32 (max_history_per_key limits * max_claim_records_per_port limits).

Definition decode_attachment_edge : Dec AttachmentEdge :=
  subject ← decode_object_side_ref; port ← decode_port_ref; slot ← dec_u32; authority ← decode_authority;
  validation ← dec_u8; connector_compatible ← dec_boolean; media_compatible ← dec_boolean; conflicting ← dec_boolean;
  object_incarnation ← dec_u64;
  validation ← dec_enum validation;
  claims ← decode_provenances;
  overridden ← decode_vector max_overridden decode_claim_provenance;
  overridden_total ← dec_u32;
  mret (mkEdge subject port slot authority validation connector_compatible media_compatible conflicting
          object_incarnation claims overridden overridden_total).

Definition decode_edges : Dec (list AttachmentEdge) :=
  decode_vector (max_claim_records_per_port limits) decode_attachment_edge.
Definition decode_notes : Dec (list ConflictNote) :=
  decode_vector (max_claim_records_per_port limits) decode_conflict_note.

Definition encode_port_view (value : PortView) : Enc :=
  encode_port_ref (pv_port value) ;> enc_enum8 (pv_state value) ;> enc_enum8 (pv_validation value) ;>
  encode_port_capability (pv_capability value) ;> enc_vector encode_attachment_edge (pv_edges value) ;>
  enc_vector encode_conflict_note (pv_conflicts value) ;> encode_provenances (pv_emptiness_claims value) ;>
  enc_u32 (pv_emptiness_claims_total value).

Definition decode_port_view : Dec PortView :=
  port ← decode_port_ref; state ← dec_u8; validation ← dec_u8; capability ← decode_port_capability limits;
  state ← dec_enum state; validation ← dec_enum validation;
  edges ← decode_edges; conflicts ← decode_notes; emptiness_claims ← decode_provenances;
  emptiness_claims_total ← dec_u32;
  mret (mkPortView port state validation capability edges conflicts emptiness_claims emptiness_claims_total).

Definition encode_lifecycle_event (value : LifecycleEvent) : Enc :=
  enc_enum8 (le_kind value) ;> enc_i64 (le_observed_at value) ;> enc_i64 (le_received_at value) ;>
  enc_id (le_source value) ;> enc_u64 (le_incarnation value) ;> enc_u64 (le_generation value) ;>
  enc_id (le_evidence value) ;> enc_enum8 (le_provenance value) ;> enc_u64 (le_object_incarnation value) ;>
  enc_u32 (le_side value) ;> encode_port_ref (le_port value) ;> encode_port_ref (le_from_port value) ;>
  enc_boolean (le_has_from_port value) ;> enc_string (le_detail value) (max_string_bytes limits).

Definition decode_lifecycle_event : Dec LifecycleEvent :=
  kind ← dec_u8; observed_at ← dec_i64; received_at ← dec_i64; source ← dec_id; incarnation ← dec_u64;
  generation ← dec_u64; evidence ← dec_id; provenance ← dec_u8; object_incarnation ← dec_u64; side ← dec_u32;
  port ← decode_port_ref; from_port ← decode_port_ref; has_from_port ← dec_boolean;
  detail ← dec_string (max_string_bytes limits);
  kind ← dec_enum kind; provenance ← dec_enum provenance;
  mret (mkLifecycleEvent kind observed_at received_at source incarnation generation evidence provenance
          object_incarnation side port from_port has_from_port detail).

Definition encode_side_view (value : ObjectSideView) : Enc :=
  enc_u32 (sv_side value) ;> encode_side_descriptor (sv_descriptor value) ;> enc_enum8 (sv_state value) ;>
  enc_enum8 (sv_validation value) ;> enc_vector encode_attachment_edge (sv_edges value) ;>
  enc_vector encode_conflict_note (sv_conflicts value).

Definition decode_side_view : Dec ObjectSideView :=
  side ← dec_u32; descriptor ← decode_side_descriptor; state ← dec_u8; validation ← dec_u8;
  state ← dec_enum state; validation ← dec_enum validation;
  edges ← decode_edges; conflicts ← decode_notes;
  mret (mkSideView side descriptor state validation edges conflicts).

Definition decode_events : Dec (list LifecycleEvent) := decode_vector (max_history_events limits) decode_lifecycle_event.

Definition encode_object_view (value : ObjectView) : Enc :=
  enc_id (ov_id value) ;> enc_enum8 (ov_kind value) ;> enc_string (ov_label value) (max_string_bytes limits) ;>
  enc_string (ov_serial value) (max_string_bytes limits) ;>
  enc_string (ov_location value) (max_string_bytes limits) ;> enc_u64 (ov_incarnation value) ;>
  enc_enum8 (ov_lifecycle value) ;> encode_capability limits (ov_capability value) ;>
  enc_vector encode_side_view (ov_sides value) ;> enc_vector encode_lifecycle_event (ov_history value) ;>
  enc_u32 (ov_history_dropped value) ;> enc_vector encode_conflict_note (ov_conflicts value) ;>
  enc_enum8 (ov_validation value).

Definition decode_object_view : Dec ObjectView :=
  id ← dec_id; kind ← dec_u8; label ← dec_string (max_string_bytes limits);
  serial ← dec_string (max_string_bytes limits); location ← dec_string (max_string_bytes limits);
  incarnation ← dec_u64; lifecycle ← dec_u8;
  kind ← dec_enum kind; lifecycle ← dec_enum lifecycle;
  capability ← decode_capability limits;
  sides ← decode_vector (max_sides_per_object limits) decode_side_view;
  history ← decode_events; history_dropped ← dec_u32; conflicts ← decode_notes;
  validation ← dec_u8; validation ← dec_enum validation;
  mret (mkObjectView id kind label serial location incarnation lifecycle capability sides history history_dropped
          conflicts validation).

Definition encode_endpoint_view (value : EndpointView) : Enc :=
  enc_id (epv_id value) ;> enc_enum8 (epv_kind value) ;> enc_string (epv_name value) (max_string_bytes limits) ;>
  enc_string (epv_location value) (max_string_bytes limits) ;> enc_u32 (epv_port_count value) ;>
  encode_port_capability (epv_default_capability value) ;> enc_vector encode_port_view (epv_ports value).

Definition decode_endpoint_view : Dec EndpointView :=
  id ← dec_id; kind ← dec_u8; name ← dec_string (max_string_bytes limits);
  location ← dec_string (max_string_bytes limits); port_count ← dec_u32;
  kind ← dec_enum kind; _ ← dec_guard (negb (max_ports_per_endpoint limits <? port_count));
  capability ← decode_port_capability limits;
  ports ← decode_vector (max_ports_per_endpoint limits) decode_port_view;
  mret (mkEndpointView id kind name location port_count capability ports).

Definition encode_object_history (value : ObjectHistory) : Enc :=
  enc_id (oh_object value) ;> enc_vector encode_lifecycle_event (oh_events value) ;> enc_u32 (oh_dropped value).

Definition decode_object_history : Dec ObjectHistory :=
  object ← dec_id; events ← decode_events; dropped ← dec_u32; mret (mkObjectHistory object events dropped).

Definition encode_ingest_result (value : IngestResult) : Enc :=
  enc_enum8 (ir_disposition value) ;> enc_id (ir_evidence value) ;> enc_enum16 (ir_kind value) ;>
  enc_u64 (ir_high_water value) ;> enc_i64 (ir_received_at value) ;>
  enc_string (ir_detail value) (max_string_bytes limits).

Definition decode_ingest_result : Dec IngestResult :=
  disposition ← dec_u8; evidence ← dec_id; kind ← dec_u16; high_water ← dec_u64; received_at ← dec_i64;
  detail ← dec_string (max_string_bytes limits);
  disposition ← dec_enum disposition; kind ← dec_enum kind;
  mret (mkIngestResult disposition evidence kind high_water received_at detail).

Definition encode_ingest_results (values : list IngestResult) : Enc := enc_vector encode_ingest_result values.
Definition decode_ingest_results : Dec (list IngestResult) := decode_vector (max_evidence_batch limits) decode_ingest_result.

Definition encode_fenced_session_view (value : FencedSessionView) : Enc :=
  enc_id (fs_source value) ;> enc_u64 (fs_incarnation value) ;> enc_u64 (fs_fenced_by value) ;> enc_u64 (fs_claims value).

Definition decode_fenced_session_view : Dec FencedSessionView :=
  source ← dec_id; incarnation ← dec_u64; fenced_by ← dec_u64; claims ← dec_u64;
  mret (mkFencedSession source incarnation fenced_by claims).

Definition encode_fenced_object_view (value : FencedObjectView) : Enc :=
  enc_id (fo_object value) ;> enc_u64 (fo_current value) ;> enc_u64 (fo_claims value) ;>
  enc_string (fo_label value) (max_string_bytes limits).

Definition decode_fenced_object_view : Dec FencedObjectView :=
  object ← dec_id; current ← dec_u64; claims ← dec_u64; label ← dec_string (max_string_bytes limits);
  mret (mkFencedObject object current claims label).

Definition encode_pending_view (value : PendingReferenceView) : Enc :=
  enc_id (pr_evidence value) ;> enc_enum16 (pr_kind value) ;> enc_id (pr_source value) ;>
  enc_u64 (pr_incarnation value) ;> enc_u64 (pr_generation value) ;>
  enc_string (pr_detail value) (max_string_bytes limits).

(** The kind is read and checked; the element keeps its default kind. *)
Definition decode_pending_view : Dec PendingReferenceView :=
  evidence ← dec_id; kind ← dec_u16; source ← dec_id; incarnation ← dec_u64; generation ← dec_u64;
  detail ← dec_string (max_string_bytes limits);
  _ ← dec_guard ((1 <=? kind) && (kind <=? 9));
  mret (mkPending evidence EvidenceKind.RegisterObject source incarnation generation detail).

Definition encode_refusal_view (value : RefusalView) : Enc :=
  enc_id (rv_evidence value) ;> enc_enum16 (rv_kind value) ;> enc_id (rv_source value) ;>
  enc_u64 (rv_incarnation value) ;> enc_u64 (rv_generation value) ;> enc_enum8 (rv_disposition value) ;>
  enc_string (rv_detail value) (max_string_bytes limits).

(** The kind and the disposition are read and checked; the element keeps the
    defaults of [RefusalView]. *)
Definition decode_refusal_view : Dec RefusalView :=
  evidence ← dec_id; kind ← dec_u16; source ← dec_id; incarnation ← dec_u64; generation ← dec_u64;
  disposition ← dec_u8; detail ← dec_string (max_string_bytes limits);
  _ ← dec_guard (negb ((kind <? 1) || (9 <? kind) || (enum_code IngestDisposition.RefusedPersistence <? disposition)));
  mret (mkRefusal evidence EvidenceKind.RegisterObject source incarnation generation IngestDisposition.RefusedInvalid detail).

Definition encode_inspection_view (value : InspectionView) : Enc :=
  enc_vector encode_fenced_session_view (iv_fenced_sessions value) ;>
  enc_vector encode_fenced_object_view (iv_fenced_objects value) ;>
  enc_vector (encode_port_view) (iv_unvalidated_ports value) ;>
  enc_vector encode_pending_view (iv_pending_references value) ;>
  enc_vector encode_refusal_view (iv_refusals value) ;> encode_summary (iv_summary value).

Definition decode_inspection_view : Dec InspectionView :=
  fenced_sessions ← decode_vector (wrap32 (max_sources limits * 64)) decode_fenced_session_view;
  fenced_objects ← decode_vector (max_objects limits) decode_fenced_object_view;
  unvalidated_ports ← decode_vector (max_snapshot_entries limits) decode_port_view;
  pending_references ← decode_vector (max_evidence_batch limits) decode_pending_view;
  refusals ← decode_vector (max_refusal_audit limits) decode_refusal_view;
  summary ← decode_summary;
  mret (mkInspection fenced_sessions fenced_objects unvalidated_ports pending_references refusals summary).

Definition encode_registry_stats (value : RegistryStats) : Enc :=
  enc_id (st_registry value) ;> enc_i64 (st_opened_at value) ;> enc_u64 (st_objects value) ;>
  enc_u64 (st_endpoints value) ;> enc_u64 (st_ports value) ;> enc_u64 (st_sources value) ;>
  enc_u64 (st_sessions value) ;> enc_u64 (st_live_sessions value) ;> enc_u64 (st_claim_records value) ;>
  enc_u64 (st_port_records value) ;> enc_u64 (st_lifecycle_records value) ;> enc_u64 (st_capability_records value) ;>
  enc_u64 (st_evidence_accepted value) ;> enc_u64 (st_evidence_refused value) ;>
  enc_u64 (st_evidence_duplicate value) ;> enc_u64 (st_evidence_superseded value) ;>
  enc_u64 (st_evidence_fenced value) ;> enc_u64 (st_evidence_pending value) ;> enc_u64 (st_store_records value) ;>
  enc_u64 (st_store_bytes value) ;> enc_u64 (st_store_rewrites value) ;> encode_recovery_report limits (st_recovery value).

Definition decode_registry_stats : Dec RegistryStats :=
  registry ← dec_id; opened_at ← dec_i64; objects ← dec_u64; endpoints ← dec_u64; ports ← dec_u64; sources ← dec_u64;
  sessions ← dec_u64; live_sessions ← dec_u64; claim_records ← dec_u64; port_records ← dec_u64;
  lifecycle_records ← dec_u64; capability_records ← dec_u64; accepted ← dec_u64; refused ← dec_u64;
  duplicate ← dec_u64; superseded ← dec_u64; fenced ← dec_u64; pending ← dec_u64; store_records ← dec_u64;
  store_bytes ← dec_u64; store_rewrites ← dec_u64; recovery ← decode_recovery_report limits;
  mret (mkStats registry opened_at objects endpoints ports sources sessions live_sessions claim_records port_records
          lifecycle_records capability_records accepted refused duplicate superseded fenced pending store_records
          store_bytes store_rewrites recovery).

Definition encode_open_session_result (value : OpenSessionResult) : Enc :=
  enc_enum8 (os_disposition value) ;> enc_id (key_source (os_key value)) ;> enc_u64 (key_incarnation (os_key value)) ;>
  enc_u64 (os_previous value) ;> enc_u64 (os_fenced_claims value) ;>
  enc_string (os_detail value) (max_string_bytes limits).

Definition decode_open_session_result : Dec OpenSessionResult :=
  disposition ← dec_u8; source ← dec_id; incarnation ← dec_u64; previous ← dec_u64; fenced_claims ← dec_u64;
  detail ← dec_string (max_string_bytes limits);
  _ ← dec_guard (negb (enum_code OpenSessionDisposition.RefusedPersistence <? disposition));
  disposition ← dec_enum disposition;
  mret (mkOpenSession disposition (mkKey source incarnation) previous fenced_claims detail).
End codecs.

Definition encode_query_options (value : QueryOptions) : Enc :=
  enc_enum8 (qo_policy value) ;> enc_boolean (qo_include_object_sides value) ;> enc_boolean (qo_include_history value) ;>
  enc_boolean (qo_include_endpoint_ports value) ;> enc_id (qo_endpoint value) ;> enc_id (qo_object value).

Definition decode_query_options : Dec QueryOptions :=
  policy ← dec_u8; sides ← dec_boolean; history ← dec_boolean; ports ← dec_boolean; endpoint ← dec_id; object ← dec_id;
  policy ← dec_enum policy;
  mret (mkQueryOptions policy sides history ports endpoint object).

(** * Round trips *)

(** ** Values within the limits *)

Section wf.
Context (limits : Limits).

(** At most [m] elements, each of them well formed. *)
Definition wf_bounded {A} (m : Z) (P : A -> Prop) (l : list A) : Prop := zlen l <= m /\ Forall P l.

Definition wf_provenance (c : ClaimProvenance) : Prop :=
  id_ok (cp_source c) /\ is_u64 (cp_incarnation c) /\ is_u64 (cp_generation c) /\ id_ok (cp_evidence c) /\
  is_i64 (cp_observed_at c) /\ is_i64 (cp_received_at c) /\ wf_authority (cp_authority c) /\
  is_u64 (cp_object_incarnation c).

Definition wf_provenances : list ClaimProvenance -> Prop := wf_bounded (max_claim_records_per_port limits) wf_provenance.

Definition wf_note (n : ConflictNote) : Prop :=
  wf_side_ref (cn_subject n) /\ wf_port_ref (cn_port n) /\ wf_string limits (cn_detail n) /\ wf_provenances (cn_claims n).

Definition wf_edge (e : AttachmentEdge) : Prop :=
  wf_side_ref (ae_subject e) /\ wf_port_ref (ae_port e) /\ is_u32 (ae_slot e) /\ wf_authority (ae_authority e) /\
  is_u64 (ae_object_incarnation e) /\ wf_provenances (ae_claims e) /\
  wf_bounded (max_overridden limits) wf_provenance (ae_overridden e) /\ is_u32 (ae_overridden_total e).

Definition wf_edges : list AttachmentEdge -> Prop := wf_bounded (max_claim_records_per_port limits) wf_edge.
Definition wf_notes : list ConflictNote -> Prop := wf_bounded (max_claim_records_per_port limits) wf_note.

Definition wf_port_view (v : PortView) : Prop :=
  wf_port_ref (pv_port v) /\ wf_port_capability limits (pv_capability v) /\ wf_edges (pv_edges v) /\
  wf_notes (pv_conflicts v) /\ wf_provenances (pv_emptiness_claims v) /\ is_u32 (pv_emptiness_claims_total v).

Definition wf_event (e : LifecycleEvent) : Prop :=
  is_i64 (le_observed_at e) /\ is_i64 (le_received_at e) /\ id_ok (le_source e) /\ is_u64 (le_incarnation e) /\
  is_u64 (le_generation e) /\ id_ok (le_evidence e) /\ is_u64 (le_object_incarnation e) /\ is_u32 (le_side e) /\
  wf_port_ref (le_port e) /\ wf_port_ref (le_from_port e) /\ wf_string limits (le_detail e).

Definition wf_events : list LifecycleEvent -> Prop := wf_bounded (max_history_events limits) wf_event.

Definition wf_side_view (v : ObjectSideView) : Prop :=
  is_u32 (sv_side v) /\ wf_side_descriptor (sv_descriptor v) /\ wf_edges (sv_edges v) /\ wf_notes (sv_conflicts v).

Definition wf_object_view (v : ObjectView) : Prop :=
  id_ok (ov_id v) /\ wf_string limits (ov_label v) /\ wf_string limits (ov_serial v) /\ wf_string limits (ov_location v) /\
  is_u64 (ov_incarnation v) /\ wf_capability limits (ov_capability v) /\
  wf_bounded (max_sides_per_object limits) wf_side_view (ov_sides v) /\ wf_events (ov_history v) /\
  is_u32 (ov_history_dropped v) /\ wf_notes (ov_conflicts v).

Definition wf_endpoint_view (v : EndpointView) : Prop :=
  id_ok (epv_id v) /\ wf_string limits (epv_name v) /\ wf_string limits (epv_location v) /\ is_u32 (epv_port_count v) /\
  epv_port_count v <= max_ports_per_endpoint limits /\ wf_port_capability limits (epv_default_capability v) /\
  wf_bounded (max_ports_per_endpoint limits) wf_port_view (epv_ports v).

Definition wf_history (h : ObjectHistory) : Prop := id_ok (oh_object h) /\ wf_events (oh_events h) /\ is_u32 (oh_dropped h).

Definition wf_ingest_result (r : IngestResult) : Prop :=
  id_ok (ir_evidence r) /\ is_u64 (ir_high_water r) /\ is_i64 (ir_received_at r) /\ wf_string limits (ir_detail r).

Definition wf_fenced_session_view (v : FencedSessionView) : Prop :=
  id_ok (fs_source v) /\ is_u64 (fs_incarnation v) /\ is_u64 (fs_fenced_by v) /\ is_u64 (fs_claims v).
Definition wf_fenced_object_view (v : FencedObjectView) : Prop :=
  id_ok (fo_object v) /\ is_u64 (fo_current v) /\ is_u64 (fo_claims v) /\ wf_string limits (fo_label v).
Definition wf_pending (v : PendingReferenceView) : Prop :=
  id_ok (pr_evidence v) /\ id_ok (pr_source v) /\ is_u64 (pr_incarnation v) /\ is_u64 (pr_generation v) /\
  wf_string limits (pr_detail v).
Definition wf_refusal (v : RefusalView) : Prop :=
  id_ok (rv_evidence v) /\ id_ok (rv_source v) /\ is_u64 (rv_incarnation v) /\ is_u64 (rv_generation v) /\
  wf_string limits (rv_detail v).
Definition wf_counters (s : GraphSummary) : Prop :=
  Forall is_u64 [gs_ports_attached s; gs_ports_empty s; gs_ports_unknown s; gs_ports_conflicting s;
    gs_objects_total s; gs_objects_registered s; gs_objects_unattached s; gs_objects_attached s;
    gs_objects_quarantined s; gs_objects_removed s; gs_objects_retired s; gs_edges s; gs_edges_unvalidated s;
    gs_conflicts s; gs_claims_fenced s; gs_claims_pending s].

Definition wf_inspection (v : InspectionView) : Prop :=
  wf_bounded (wrap32 (max_sources limits * 64)) wf_fenced_session_view (iv_fenced_sessions v) /\
  wf_bounded (max_objects limits) wf_fenced_object_view (iv_fenced_objects v) /\
  wf_bounded (max_snapshot_entries limits) wf_port_view (iv_unvalidated_ports v) /\
  wf_bounded (max_evidence_batch limits) wf_pending (iv_pending_references v) /\
  wf_bounded (max_refusal_audit limits) wf_refusal (iv_refusals v) /\ wf_counters (iv_summary v).

Definition wf_report (r : RecoveryReport) : Prop :=
  is_u32 (rr_format_version r) /\ is_u64 (rr_records_loaded r) /\ is_u64 (rr_records_rejected r) /\
  is_u64 (rr_bytes_loaded r) /\ is_u64 (rr_bytes_discarded r) /\ is_u64 (rr_issue_offset r) /\ wf_string limits (rr_detail r).

Definition wf_stats (s : RegistryStats) : Prop :=
  id_ok (st_registry s) /\ is_i64 (st_opened_at s) /\
  Forall is_u64 [st_objects s; st_endpoints s; st_ports s; st_sources s; st_sessions s; st_live_sessions s;
    st_claim_records s; st_port_records s; st_lifecycle_records s; st_capability_records s; st_evidence_accepted s;
    st_evidence_refused s; st_evidence_duplicate s; st_evidence_superseded s; st_evidence_fenced s;
    st_evidence_pending s; st_store_records s; st_store_bytes s; st_store_rewrites s] /\ wf_report (st_recovery s).

Definition wf_session_result (r : OpenSessionResult) : Prop :=
  id_ok (key_source (os_key r)) /\ is_u64 (key_incarnation (os_key r)) /\ is_u64 (os_previous r) /\
  is_u64 (os_fenced_claims r) /\ wf_string limits (os_detail r).
End wf.

Definition wf_query_options (o : QueryOptions) : Prop := id_ok (qo_endpoint o) /\ id_ok (qo_object o).

(** ** One lemma per codec *)

Section roundtrips.
Context (limits : Limits) (Hlim : limits_ok limits).

Lemma bound_strings : is_u32 (max_string_bytes limits).
Proof using Hlim. apply Hlim. Qed.
Lemma bound_claims : is_u32 (max_claim_records_per_port limits).
Proof using Hlim. apply Hlim. Qed.
Lemma bound_overridden : is_u32 (max_overridden limits).
Proof using. apply Z.mod_pos_bound. lia. Qed.

Hint Resolve bound_strings rt_authority rt_side_ref rt_port_ref rt_side_descriptor rt_capability rt_port_capability : rt.

Lemma rt_provenance c : wf_provenance c -> roundtrip (encode_claim_provenance c) decode_claim_provenance c.
Proof using. unfold encode_claim_provenance, decode_claim_provenance, wf_provenance. rt_record c. Qed.

Lemma rt_provenances l : wf_provenances limits l -> roundtrip (encode_provenances l) (decode_provenances limits) l.
Proof using Hlim. intros Hl. eapply rt_bounded; [apply bound_claims|apply rt_provenance|exact Hl]. Qed.

Lemma rt_overridden l :
  wf_bounded (max_overridden limits) wf_provenance l ->
  roundtrip (encode_provenances l) (decode_vector (max_overridden limits) decode_claim_provenance) l.
Proof using. intros Hl. eapply rt_bounded; [apply bound_overridden|apply rt_provenance|exact Hl]. Qed.

Hint Resolve rt_provenances rt_overridden : rt.

Lemma rt_note n : wf_note limits n -> roundtrip (encode_conflict_note limits n) (decode_conflict_note limits) n.
Proof using Hlim. unfold encode_conflict_note, decode_conflict_note, wf_note. rt_record n. Qed.

Lemma rt_notes l : wf_notes limits l -> roundtrip (enc_vector (encode_conflict_note limits) l) (decode_notes limits) l.
Proof using Hlim. intros Hl. eapply rt_bounded; [apply bound_claims|apply rt_note|exact Hl]. Qed.

Lemma rt_edge e : wf_edge limits e -> roundtrip (encode_attachment_edge e) (decode_attachment_edge limits) e.
Proof using Hlim. unfold encode_attachment_edge, decode_attachment_edge, wf_edge. rt_record e. Qed.

Lemma rt_edges l : wf_edges limits l -> roundtrip (enc_vector encode_attachment_edge l) (decode_edges limits) l.
Proof using Hlim. intros Hl. eapply rt_bounded; [apply bound_claims|apply rt_edge|exact Hl]. Qed.

Hint Resolve rt_notes rt_edges : rt.

Lemma rt_port_view v : wf_port_view limits v -> roundtrip (encode_port_view limits v) (decode_port_view limits) v.
Proof using Hlim. unfold encode_port_view, decode_port_view, wf_port_view. rt_record v. Qed.

Lemma rt_event e : wf_event limits e -> roundtrip (encode_lifecycle_event limits e) (decode_lifecycle_event limits) e.
Proof using Hlim. unfold encode_lifecycle_event, decode_lifecycle_event, wf_event. rt_record e. Qed.

Lemma rt_events l : wf_events limits l -> roundtrip (enc_vector (encode_lifecycle_event limits) l) (decode_events limits) l.
Proof using Hlim. intros Hl. eapply rt_bounded; [apply Hlim|apply rt_event|exact Hl]. Qed.

Lemma rt_side_view v : wf_side_view limits v -> roundtrip (encode_side_view limits v) (decode_side_view limits) v.
Proof using Hlim. unfold encode_side_view, decode_side_view, wf_side_view. rt_record v. Qed.

Lemma rt_side_views l :
  wf_bounded (max_sides_per_object limits) (wf_side_view limits) l ->
  roundtrip (enc_vector (encode_side_view limits) l) (decode_vector (max_sides_per_object limits) (decode_side_view limits)) l.
Proof using Hlim. intros Hl. eapply rt_bounded; [apply Hlim|apply rt_side_view|exact Hl]. Qed.

Hint Resolve rt_events rt_side_views : rt.

Lemma rt_object_view v : wf_object_view limits v -> roundtrip (encode_object_view limits v) (decode_object_view limits) v.
Proof using Hlim. unfold encode_object_view, decode_object_view, wf_object_view. rt_record v. Qed.

Lemma rt_port_views m l :
  is_u32 m -> wf_bounded m (wf_port_view limits) l ->
  roundtrip (enc_vector (encode_port_view limits) l) (decode_vector m (decode_port_view limits)) l.
Proof using Hlim. intros Hm Hl. eapply rt_bounded; [exact Hm|apply rt_port_view|exact Hl]. Qed.

Lemma rt_endpoint_view v :
  wf_endpoint_view limits v -> roundtrip (encode_endpoint_view limits v) (decode_endpoint_view limits) v.
Proof using Hlim.
  assert (Hm : is_u32 (max_ports_per_endpoint limits)) by apply Hlim.
  pose proof rt_port_views as Hports. unfold encode_endpoint_view, decode_endpoint_view, wf_endpoint_view. rt_record v.
Qed.

Lemma rt_history h : wf_history limits h -> roundtrip (encode_object_history limits h) (decode_object_history limits) h.
Proof using Hlim. unfold encode_object_history, decode_object_history, wf_history. rt_record h. Qed.

Lemma rt_ingest_result r :
  wf_ingest_result limits r -> roundtrip (encode_ingest_result limits r) (decode_ingest_result limits) r.
Proof using Hlim. unfold encode_ingest_result, decode_ingest_result, wf_ingest_result. rt_record r. Qed.

Lemma rt_ingest_results l :
  wf_bounded (max_evidence_batch limits) (wf_ingest_result limits) l ->
  roundtrip (encode_ingest_results limits l) (decode_ingest_results limits) l.
Proof using Hlim. intros Hl. eapply rt_bounded; [apply Hlim|apply rt_ingest_result|exact Hl]. Qed.

Lemma rt_report r : wf_report limits r -> roundtrip (encode_recovery_report limits r) (decode_recovery_report limits) r.
Proof using Hlim. unfold encode_recovery_report, decode_recovery_report, wf_report. rt_record r. Qed.

Hint Resolve rt_report : rt.

Lemma rt_stats s : wf_stats limits s -> roundtrip (encode_registry_stats limits s) (decode_registry_stats limits) s.
Proof using Hlim.
  unfold encode_registry_stats, decode_registry_stats, wf_stats. rewrite !Forall_cons. rt_record s.
Qed.

Lemma rt_query_options o : wf_query_options o -> roundtrip (encode_query_options o) decode_query_options o.
Proof using. unfold encode_query_options, decode_query_options, wf_query_options. rt_record o. Qed.

Lemma rt_session_result r :
  wf_session_result limits r -> os_disposition r <> OpenSessionDisposition.RefusedClosed ->
  roundtrip (encode_open_session_result limits r) (decode_open_session_result limits) r.
Proof using Hlim.
  intros Hwf Hd. assert (Hle : enum_code (os_disposition r) <= enum_code OpenSessionDisposition.RefusedPersistence)
    by (by destruct (os_disposition r)).
  revert Hwf. unfold encode_open_session_result, decode_open_session_result, wf_session_result.
  destruct r as [disposition [source incarnation] previous claims detail]. cbn -[enum_code] in *. intros Hwf.
  unfold wf_string in *. destruct_and?. rt_steps.
Qed.
End roundtrips.
