(* ===== verification/Protocol.v ===== *)
(** * Frames and messages ([src/ipc/protocol.cpp], [src/ipc/messages.hpp])

    The framed transport between a publisher and the registry: a 28 byte header
    with its own checksum, a payload with another, and the payloads of the
    requests and replies. *)
From S2P Require Import Prelude OrdMap Types Ids Graph Codec Serialization Digest Words ViewCodec.
#[local] Open Scope string_scope.
#[local] Open Scope Z_scope.

Module MessageType.
Inductive t :=
  | Hello | HelloAck | OpenSession | OpenSessionAck | CloseSession | CloseSessionAck
  | Publish | PublishAck | PublishBatch | PublishBatchAck
  | QueryPort | QueryPortAck | QueryEndpoint | QueryEndpointAck | QueryObject | QueryObjectAck
  | QueryHistory | QueryHistoryAck | Inspect | InspectAck
  | Snapshot | SnapshotAck | Digest | DigestAck | Stats | StatsAck
  | Shutdown | ShutdownAck | Failure.
Definition all : list t :=
  [Hello; HelloAck; OpenSession; OpenSessionAck; CloseSession; CloseSessionAck; Publish; PublishAck;
   PublishBatch; PublishBatchAck; QueryPort; QueryPortAck; QueryEndpoint; QueryEndpointAck;
   QueryObject; QueryObjectAck; QueryHistory; QueryHistoryAck; Inspect; InspectAck; Snapshot; SnapshotAck;
   Digest; DigestAck; Stats; StatsAck; Shutdown; ShutdownAck; Failure].
Definition code (e : t) : Z :=
  match e with
  | Hello => 1 | HelloAck => 2 | OpenSession => 10 | OpenSessionAck => 11 | CloseSession => 12
  | CloseSessionAck => 13 | Publish => 20 | PublishAck => 21 | PublishBatch => 22 | PublishBatchAck => 23
  | QueryPort => 30 | QueryPortAck => 31 | QueryEndpoint => 32 | QueryEndpointAck => 33 | QueryObject => 34
  | QueryObjectAck => 35 | QueryHistory => 36 | QueryHistoryAck => 37 | Inspect => 38 | InspectAck => 39
  | Snapshot => 50 | SnapshotAck => 51 | Digest => 52 | DigestAck => 53 | Stats => 54 | StatsAck => 55
  | Shutdown => 60 | ShutdownAck => 61 | Failure => 70
  end.
(** [to_string]. *)
Definition name (e : t) : string :=
  match e with
  | Hello => "hello" | HelloAck => "hello-ack" | OpenSession => "open-session" | OpenSessionAck => "open-session-ack"
  | CloseSession => "close-session" | CloseSessionAck => "close-session-ack" | Publish => "publish"
  | PublishAck => "publish-ack" | PublishBatch => "publish-batch" | PublishBatchAck => "publish-batch-ack"
  | QueryPort => "query-port" | QueryPortAck => "query-port-ack" | QueryEndpoint => "query-endpoint"
  | QueryEndpointAck => "query-endpoint-ack" | QueryObject => "query-object" | QueryObjectAck => "query-object-ack"
  | QueryHistory => "query-history" | QueryHistoryAck => "query-history-ack" | Inspect => "inspect"
  | InspectAck => "inspect-ack" | Snapshot => "snapshot" | SnapshotAck => "snapshot-ack" | Digest => "digest"
  | DigestAck => "digest-ack" | Stats => "stats" | StatsAck => "stats-ack" | Shutdown => "shutdown"
  | ShutdownAck => "shutdown-ack" | Failure => "failure"
  end.
End MessageType.

#[export] Instance MessageType_eq_dec : EqDecision MessageType.t.
Proof. solve_decision. Defined.

(** [known_type], with the cast. *)
Definition known_type (raw : Z) : option MessageType.t :=
  List.find (fun type => MessageType.code type =? raw) MessageType.all.

Lemma known_code type : known_type (MessageType.code type) = Some type.
Proof. by destruct type. Qed.

(** ** Frames *)

Definition kFrameMagic : Z := 0x31424143.
Definition kFrameHeaderBytes : Z := 28.
Definition kHeaderChecksumOffset : Z := 24.

Record Frame := mkFrame {
  fr_type : MessageType.t;
  fr_request_id : Z;
  fr_payload : list Z;
}.

(** The 24 bytes the header checksum covers. *)
Definition frame_fields (type : MessageType.t) (request_id : Z) (payload : list Z) : list Z :=
  le_bytes 4 kFrameMagic ++ le_bytes 2 kProtocolVersion ++ le_bytes 2 (MessageType.code type)
  ++ le_bytes 4 (wrap32 (zlen payload)) ++ le_bytes 8 request_id ++ le_bytes 4 (crc32c payload).

Definition frame_header (type : MessageType.t) (request_id : Z) (payload : list Z) : list Z :=
  frame_fields type request_id payload ++ le_bytes 4 (crc32c (frame_fields type request_id payload)).

Definition encode_frame (type : MessageType.t) (request_id : Z) (payload : list Z) (max_payload_bytes : Z) : list Z :=
  if max_payload_bytes <? zlen payload then []
  else (frame_header type request_id payload ++ payload)%list.

(** The message type, the request identifier and the payload length. *)
Definition decode_frame_header (header : list Z) (max_payload_bytes : Z) : Outcome (MessageType.t * Z * Z) :=
  if negb (zlen header =? kFrameHeaderBytes) then
    inr (mkError ErrorCode.ProtocolViolation "the frame header is not the expected size")
  else if negb (load_at 4 header 0 =? kFrameMagic) then
    inr (mkError ErrorCode.ProtocolViolation "the frame magic does not match")
  else if negb (load_at 4 header kHeaderChecksumOffset =? crc32c (take 24 header)) then
    inr (mkError ErrorCode.ProtocolViolation "the frame header checksum does not match")
  else
    let version := load_at 2 header 4 in
    if negb (version =? kProtocolVersion) then
      inr (mkError ErrorCode.UnsupportedVersion ("protocol version " +:+ to_dec version +:+ " is not supported"))
    else
      let raw_type := load_at 2 header 6 in
      match known_type raw_type with
      | None =>
          inr (mkError ErrorCode.ProtocolViolation ("message type " +:+ to_dec raw_type +:+ " is not recognised"))
      | Some type =>
          let payload_bytes := load_at 4 header 8 in
          if max_payload_bytes <? payload_bytes then
            inr (mkError ErrorCode.CapacityExceeded
                   ("frame payload of " +:+ to_dec payload_bytes +:+ " bytes exceeds the "
                    +:+ to_dec max_payload_bytes +:+ " byte limit"))
          else inl (type, load_at 8 header 12, payload_bytes)
      end.

Definition decode_frame (data : list Z) (max_payload_bytes : Z) : Outcome Frame :=
  if zlen data <? kFrameHeaderBytes then
    inr (mkError ErrorCode.ProtocolViolation "the frame is shorter than its header")
  else
    match decode_frame_header (take 28 data) max_payload_bytes with
    | inr e => inr e
    | inl (type, request_id, payload_bytes) =>
        if negb (zlen data =? kFrameHeaderBytes + payload_bytes) then
          inr (mkError ErrorCode.ProtocolViolation "the frame length does not match its header")
        else
          let payload := take (Z.to_nat payload_bytes) (drop 28 data) in
          if negb (crc32c payload =? load_at 4 data 20) then
            inr (mkError ErrorCode.ProtocolViolation "the frame payload checksum does not match")
          else inl (mkFrame type request_id payload)
    end.

(** ** The greeting *)

Definition kVersionMajor : Z := 1.
Definition kVersionMinor : Z := 0.
Definition kVersionPatch : Z := 0.

Definition version_string : string :=
  to_dec kVersionMajor +:+ "." +:+ to_dec kVersionMinor +:+ "." +:+ to_dec kVersionPatch.
Definition version_number : Z := kVersionMajor * 10000 + kVersionMinor * 100 + kVersionPatch.

Record Greeting := mkHello {
  he_protocol_version : Z;
  he_library_version : Z;
  he_registry : RegistryId;
  he_max_payload_bytes : Z;
  he_shutdown_allowed : bool;
  he_identity : string;
}.

Definition encode_hello (limits : Limits) (value : Greeting) : Enc :=
  enc_u32 (he_protocol_version value) ;> enc_u32 (he_library_version value) ;> enc_id (he_registry value) ;>
  enc_u32 (he_max_payload_bytes value) ;> enc_boolean (he_shutdown_allowed value) ;>
  enc_string (he_identity value) (max_string_bytes limits).

Definition decode_hello (limits : Limits) : Dec Greeting :=
  protocol_version ← dec_u32; library_version ← dec_u32; registry ← dec_id; max_payload_bytes ← dec_u32;
  shutdown_allowed ← dec_boolean; identity ← dec_string (max_string_bytes limits);
  mret (mkHello protocol_version library_version registry max_payload_bytes shutdown_allowed identity).

(** ** Payloads *)

Definition encode_policy (policy : ValidationPolicy.t) : Enc := enc_enum8 policy.
Definition decode_policy : Dec ValidationPolicy.t := raw ← dec_u8; dec_enum raw.

Definition encode_source_key (value : SourceIncarnationKey) : Enc :=
  enc_id (key_source value) ;> enc_u64 (key_incarnation value).
Definition decode_source_key : Dec SourceIncarnationKey :=
  source ← dec_id; incarnation ← dec_u64; mret (mkKey source incarnation).

Definition encode_digest (value : list Z) : Enc := enc_bytes value.

Definition encode_failure (limits : Limits) (error : Error) : Enc :=
  enc_enum16 (err_code error) ;> enc_string (err_message error) (max_string_bytes limits).

(** [Internal], the code behind [PermissionDenied], is not accepted. *)
Definition decode_failure (limits : Limits) : Dec Error :=
  code ← dec_u16; message ← dec_string (max_string_bytes limits);
  _ ← dec_guard (negb (enum_code ErrorCode.PermissionDenied <? code));
  code ← dec_enum code;
  mret (mkError code message).

(** The bytes of a payload: [encoder.take()]. *)
Definition payload_of (f : Enc) : list Z := enc_take (f new_encoder).

Definition encode_open_session_request (limits : Limits) (descriptor : SourceDescriptor) (incarnation : Z) : Enc :=
  encode_source_descriptor limits descriptor ;> enc_u64 incarnation.
Definition decode_open_session_request (limits : Limits) : Dec (SourceDescriptor * Z) :=
  descriptor ← decode_source_descriptor limits; incarnation ← dec_u64; mret (descriptor, incarnation).

Definition encode_publish_batch_request (limits : Limits) (batch : list Evidence) : Enc :=
  enc_vector (encode_evidence limits) batch.
Definition decode_publish_batch_request (limits : Limits) : Dec (list Evidence) :=
  count ← dec_u32; _ ← dec_guard (negb (max_evidence_batch limits <? count));
  dec_repeat (Z.to_nat count) (decode_evidence limits).

Definition encode_port_query (port : PortRef) (policy : ValidationPolicy.t) : Enc :=
  encode_port_ref port ;> encode_policy policy.
Definition decode_port_query : Dec (PortRef * ValidationPolicy.t) :=
  port ← decode_port_ref; policy ← decode_policy; mret (port, policy).

Definition encode_endpoint_query (endpoint : EndpointId) (include_ports : bool) (policy : ValidationPolicy.t) : Enc :=
  enc_id endpoint ;> enc_boolean include_ports ;> encode_policy policy.
Definition decode_endpoint_query : Dec (EndpointId * bool * ValidationPolicy.t) :=
  endpoint ← dec_id; include_ports ← dec_boolean; policy ← decode_policy; mret (endpoint, include_ports, policy).

Definition encode_object_query (object : ObjectId) (options : QueryOptions) : Enc :=
  enc_id object ;> encode_query_options options.
Definition decode_object_query : Dec (ObjectId * QueryOptions) :=
  object ← dec_id; options ← decode_query_options; mret (object, options).

Definition encode_history_query (object : ObjectId) (max_events : Z) : Enc := enc_id object ;> enc_u32 max_events.
Definition decode_history_query : Dec (ObjectId * Z) := object ← dec_id; max_events ← dec_u32; mret (object, max_events).

Definition encode_inspect_query (max_entries : Z) : Enc := enc_u32 max_entries.
Definition decode_inspect_query : Dec Z := dec_u32.

Definition decode_digest_response : Dec (list Z) :=
  raw ← dec_bytes 32; _ ← dec_guard (zlen raw =? 32); mret raw.

(** * Facts *)

Lemma frame_fields_length type id payload : length (frame_fields type id payload) = 24%nat.
Proof. unfold frame_fields. by rewrite !length_app, !le_bytes_length. Qed.

Lemma frame_header_length type id payload : length (frame_header type id payload) = 28%nat.
Proof. unfold frame_header. by rewrite length_app, frame_fields_length, le_bytes_length. Qed.

Lemma load_prefix width pre rest post offset :
  (Z.to_nat offset + width <= length pre)%nat -> load_at width ((pre ++ rest) ++ post) offset = load_at width (pre ++ post) offset.
Proof.
  intros Hle. unfold load_at. f_equal. rewrite <- app_assoc, !drop_app_le by lia.
  by rewrite !take_app_le by (rewrite length_drop; lia).
Qed.

(** The fields of a header, with anything behind it. *)
Section fields.
Context (type : MessageType.t) (id : Z) (payload post : list Z).
#[local] Abbreviation header := (frame_header type id payload ++ post)%list.

Lemma field_magic : load_at 4 header 0 = kFrameMagic.
Proof using. unfold frame_header, frame_fields. rewrite <- !app_assoc. by apply (load_at_app 4 []). Qed.

Lemma field_version : load_at 2 header 4 = kProtocolVersion.
Proof using. unfold frame_header, frame_fields. rewrite <- !app_assoc. by apply (load_at_app 2 (le_bytes 4 kFrameMagic)). Qed.

Lemma field_type : load_at 2 header 6 = MessageType.code type.
Proof using.
  unfold frame_header, frame_fields. rewrite <- !app_assoc, (app_assoc (le_bytes 4 kFrameMagic)).
  apply (load_at_app 2 (le_bytes 4 kFrameMagic ++ le_bytes 2 kProtocolVersion)). by destruct type.
Qed.

Lemma field_length : zlen payload < 2 ^ 32 -> load_at 4 header 8 = zlen payload.
Proof using.
  intros Hlt. pose proof (zlen_nonneg payload). unfold frame_header, frame_fields.
  rewrite wrap32_small by (unfold is_u32; lia).
  rewrite <- !app_assoc, (app_assoc (le_bytes 4 kFrameMagic)), (app_assoc (le_bytes 4 kFrameMagic ++ _)).
  apply (load_at_app 4 ((le_bytes 4 kFrameMagic ++ le_bytes 2 kProtocolVersion) ++ le_bytes 2 (MessageType.code type))). lia.
Qed.

Lemma field_id : is_u64 id -> load_at 8 header 12 = id.
Proof using.
  intros Hid. unfold frame_header, frame_fields.
  rewrite <- !app_assoc, (app_assoc (le_bytes 4 kFrameMagic)), (app_assoc (le_bytes 4 kFrameMagic ++ _)),
    (app_assoc ((le_bytes 4 kFrameMagic ++ _) ++ _)).
  apply (load_at_app 8 (((le_bytes 4 kFrameMagic ++ le_bytes 2 kProtocolVersion) ++ le_bytes 2 (MessageType.code type))
    ++ le_bytes 4 (wrap32 (zlen payload)))). unfold is_u64 in Hid. lia.
Qed.

Lemma field_payload_checksum : load_at 4 header 20 = crc32c payload.
Proof using.
  unfold frame_header, frame_fields.
  rewrite <- !app_assoc, (app_assoc (le_bytes 4 kFrameMagic)), (app_assoc (le_bytes 4 kFrameMagic ++ _)),
    (app_assoc ((le_bytes 4 kFrameMagic ++ _) ++ _)), (app_assoc (((le_bytes 4 kFrameMagic ++ _) ++ _) ++ _)).
  apply (load_at_app 4 ((((le_bytes 4 kFrameMagic ++ le_bytes 2 kProtocolVersion) ++ le_bytes 2 (MessageType.code type))
    ++ le_bytes 4 (wrap32 (zlen payload))) ++ le_bytes 8 id)). pose proof (crc32c_u32 payload). unfold is_u32 in *. lia.
Qed.

Lemma field_checksum : load_at 4 header kHeaderChecksumOffset = crc32c (frame_fields type id payload).
Proof using.
  unfold frame_header. rewrite <- app_assoc.
  assert (E : kHeaderChecksumOffset = zlen (frame_fields type id payload)) by (unfold zlen; by rewrite frame_fields_length).
  rewrite E. apply load_at_app. pose proof (crc32c_u32 (frame_fields type id payload)). unfold is_u32 in *. lia.
Qed.
End fields.

(** A header is accepted when the payload fits the reader. *)
Lemma decode_own_header type id payload max :
  is_u64 id -> zlen payload <= max -> is_u32 max ->
  decode_frame_header (frame_header type id payload) max = inl (type, id, zlen payload).
Proof.
  intros Hid Hle Hmax. unfold is_u32 in Hmax. unfold decode_frame_header.
  assert (Ez : zlen (frame_header type id payload) = 28) by (unfold zlen; by rewrite frame_header_length).
  pose proof (field_magic type id payload []) as F1. pose proof (field_version type id payload []) as F2.
  pose proof (field_type type id payload []) as F3. pose proof (field_length type id payload [] ltac:(lia)) as F4.
  pose proof (field_id type id payload [] Hid) as F5. pose proof (field_checksum type id payload []) as F6.
  rewrite app_nil_r in F1, F2, F3, F4, F5, F6. rewrite Ez, F1, F2, F3, F4, F5, F6, known_code.
  unfold frame_header. rewrite take_app_length' by (symmetry; apply frame_fields_length).
  rewrite !Z.eqb_refl. cbn [negb]. by rewrite (proj2 (Z.ltb_ge _ _) Hle).
Qed.

Lemma frame_header_u8 type id payload : Forall is_u8 (frame_header type id payload).
Proof. unfold frame_header, frame_fields. repeat apply Forall_app_2; apply le_bytes_u8. Qed.

(** A header that is accepted is a codeword of the checksum. *)
Lemma accepted_codeword header max r :
  Forall is_u8 header -> decode_frame_header header max = inl r -> crc_update header 0xFFFFFFFF = crc_residue.
Proof.
  intros Hu. unfold decode_frame_header. destruct (Z.eqb_spec (zlen header) kFrameHeaderBytes) as [Hz|]; [|done].
  cbn [negb]. case_match; [done|]. destruct (Z.eqb_spec (load_at 4 header kHeaderChecksumOffset) (crc32c (take 24 header))) as [Hc|]; [|done].
  intros _. unfold zlen, kFrameHeaderBytes in Hz. rewrite <- (take_drop 24 header).
  assert (Hd : length (drop 24 header) = 4%nat) by (rewrite length_drop; lia).
  apply checksum_codeword; [by apply Forall_take|by apply Forall_drop|done|]. rewrite <- Hc. unfold load_at.
  f_equal. change (Z.to_nat kHeaderChecksumOffset) with 24%nat. by rewrite take_ge by lia.
Qed.

Lemma own_codeword type id payload : crc_update (frame_header type id payload) 0xFFFFFFFF = crc_residue.
Proof.
  unfold frame_header. pose proof (crc32c_u32 (frame_fields type id payload)) as Hc. unfold is_u32 in Hc.
  apply checksum_codeword; [|apply le_bytes_u8|apply le_bytes_length|apply le_load_bytes; lia].
  unfold frame_fields. repeat apply Forall_app_2; apply le_bytes_u8.
Qed.

(** A frame comes back. A message whose payload fits the limit, which itself
    fits 32 bits, and whose request identifier fits 64 bits, is decoded from the
    bytes of its frame to the same type, identifier and payload. *)
Theorem frame_roundtrip type id payload max :
  is_u64 id -> zlen payload <= max -> is_u32 max ->
  decode_frame (encode_frame type id payload max) max = inl (mkFrame type id payload).
Proof.
  intros Hid Hle Hmax. unfold encode_frame. rewrite (proj2 (Z.ltb_ge _ _) Hle). unfold decode_frame.
  pose proof (frame_header_length type id payload) as Hl. pose proof (zlen_nonneg payload).
  assert (Ez : zlen (frame_header type id payload ++ payload) = 28 + zlen payload) by (rewrite zlen_app; unfold zlen at 1; by rewrite Hl).
  rewrite Ez, (proj2 (Z.ltb_ge _ _)) by (unfold kFrameHeaderBytes; lia).
  rewrite take_app_length' by done. rewrite decode_own_header by done.
  rewrite Z.eqb_refl. cbn [negb]. rewrite drop_app_length' by done.
  unfold zlen. rewrite Nat2Z.id, firstn_all. by rewrite field_payload_checksum, Z.eqb_refl.
Qed.

(** A reader that lost its place notices. Change at most four neighbouring
    bytes of a frame header, to any other bytes: the header is refused, whatever
    the limit, so the reader closes the connection instead of reading a wrong
    length. *)
Theorem damaged_header_is_refused type id payload max a w1 w2 b :
  Forall is_u8 w2 -> frame_header type id payload = (a ++ w1 ++ b)%list ->
  length w1 = length w2 -> (length w1 <= 4)%nat -> w1 <> w2 ->
  exists e, decode_frame_header (a ++ w2 ++ b) max = inr e.
Proof.
  intros Hw Hh Hl Hle Hne. destruct (decode_frame_header (a ++ w2 ++ b) max) as [r|e] eqn:E; [exfalso|by exists e].
  pose proof (frame_header_u8 type id payload) as Hu. rewrite Hh in Hu.
  assert (Hu2 : Forall is_u8 (a ++ w2 ++ b)).
  { apply Forall_app in Hu as [Ha [_ Hb]%Forall_app]. by repeat apply Forall_app_2. }
  apply Hne, (codewords_apart a w1 w2 b); [done..| |by eapply accepted_codeword].
  rewrite <- Hh. apply own_codeword.
Qed.
