(* ===== verification/Socket.v ===== *)
(** * Whole transfers over a stream socket ([src/ipc/socket.cpp])

    The loops of [send_all] and [receive_exact] move a whole buffer through a
    socket that moves a few bytes at a time; the check of the handle in front of
    them is in [Net.v].  What the operating system does in each turn of
    their loops is a script.  For every way of cutting the stream they do the
    same as one transfer of the whole buffer, [receive_exact], on which the
    server and the client are built. *)
From S2P Require Import Prelude Types Codec.
#[local] Open Scope string_scope.
#[local] Open Scope Z_scope.

(** What [send] or [recv] does: it moves at least one byte and at most [1 + more],
    or fails with what [strerror] says. *)
Inductive Transfer := Moves (more : nat) | TransferFails (reason : string).

(** A turn of a loop that polls: the stop flag is seen, [select] fails, nothing
    happens within the interval, or the socket is ready. *)
Inductive Turn := StopSeen | SelectFails (reason : string) | Idle | Ready (transfer : Transfer).

Definition socket_error (operation reason : string) : Error :=
  mkError ErrorCode.IoFailure (operation +:+ " failed: " +:+ reason).
Definition peer_closed : Error := mkError ErrorCode.Closed "the peer closed the connection".
Definition server_stopping : Error := mkError ErrorCode.Closed "the server is stopping".

(** The bytes one call is asked for. *)
Definition chunk (remaining : Z) : Z := Z.min remaining 0x40000000.

(** How many of them it moves, where [available] are there. *)
Definition moved (more : nat) (remaining : Z) (available : list Z) : nat :=
  Nat.min (Datatypes.S more) (Nat.min (Z.to_nat (chunk remaining)) (length available)).

(** [receive_exact] of a server thread. The peer sends [input] and closes.
    [None]: the loop still waits when the script ends. *)
Fixpoint receive_polled (script : list Turn) (remaining : Z) (received input : list Z) : option (Outcome (list Z) * list Z) :=
  if remaining <=? 0 then Some (inl received, input)
  else
    match script with
    | [] => None
    | StopSeen :: _ => Some (inr server_stopping, input)
    | SelectFails reason :: _ => Some (inr (socket_error "select" reason), input)
    | Idle :: script => receive_polled script remaining received input
    | Ready (TransferFails reason) :: _ => Some (inr (socket_error "recv" reason), input)
    | Ready (Moves more) :: script =>
        let got := moved more remaining input in
        if (got =? 0)%nat then Some (inr peer_closed, input)
        else receive_polled script (remaining - Z.of_nat got) (received ++ take got input) (drop got input)
    end.

(** [receive_exact] of a client, which waits inside [recv]. *)
Fixpoint receive_blocking (script : list Transfer) (remaining : Z) (received input : list Z)
    : option (Outcome (list Z) * list Z) :=
  if remaining <=? 0 then Some (inl received, input)
  else
    match script with
    | [] => None
    | TransferFails reason :: _ => Some (inr (socket_error "recv" reason), input)
    | Moves more :: script =>
        let got := moved more remaining input in
        if (got =? 0)%nat then Some (inr peer_closed, input)
        else receive_blocking script (remaining - Z.of_nat got) (received ++ take got input) (drop got input)
    end.

(** [send_all] of a server thread: the outcome, and the bytes the peer gets. *)
Fixpoint send_polled (script : list Turn) (data sent : list Z) : option (Outcome unit) * list Z :=
  match data with
  | [] => (Some (inl tt), sent)
  | _ =>
      match script with
      | [] => (None, sent)
      | StopSeen :: _ => (Some (inr server_stopping), sent)
      | SelectFails reason :: _ => (Some (inr (socket_error "select" reason)), sent)
      | Idle :: script => send_polled script data sent
      | Ready (TransferFails reason) :: _ => (Some (inr (socket_error "send" reason)), sent)
      | Ready (Moves more) :: script =>
          let written := moved more (zlen data) data in
          send_polled script (drop written data) (sent ++ take written data)
      end
  end.

(** [send_all] of a client. *)
Fixpoint send_blocking (script : list Transfer) (data sent : list Z) : option (Outcome unit) * list Z :=
  match data with
  | [] => (Some (inl tt), sent)
  | _ =>
      match script with
      | [] => (None, sent)
      | TransferFails reason :: _ => (Some (inr (socket_error "send" reason)), sent)
      | Moves more :: script =>
          let written := moved more (zlen data) data in
          send_blocking script (drop written data) (sent ++ take written data)
      end
  end.

(** ** One transfer of the whole buffer *)

(** All bytes arrive, or the peer closes first. *)
Definition receive_exact (count : Z) (input : list Z) : option (list Z * list Z) :=
  if zlen input <? count then None else Some (take (Z.to_nat count) input, drop (Z.to_nat count) input).

(** A script in which nothing fails and the stop flag is not seen. *)
Definition uneventful (turn : Turn) : Prop := match turn with Idle | Ready (Moves _) => True | _ => False end.

(** The turns that move something. *)
Fixpoint transfers (script : list Turn) : nat :=
  match script with [] => 0 | Ready (Moves _) :: script => Datatypes.S (transfers script) | _ :: script => transfers script end.

Lemma moved_some more remaining available :
  0 < remaining -> available <> [] -> (0 < moved more remaining available)%nat.
Proof. intros Hr Ha. unfold moved, chunk. destruct available; [done|]. cbn [length]. lia. Qed.

Lemma moved_bound more remaining available :
  (moved more remaining available <= length available)%nat /\ (0 <= remaining -> Z.of_nat (moved more remaining available) <= remaining).
Proof. unfold moved, chunk. lia. Qed.

Lemma moved_none more remaining : moved more remaining [] = 0%nat.
Proof. unfold moved. cbn [length]. lia. Qed.

(** What is left to receive when [got] bytes of it have arrived. *)
Lemma receive_exact_split got count input :
  (got <= length input)%nat -> Z.of_nat got <= count ->
  receive_exact count input =
    '(data, rest) ← receive_exact (count - Z.of_nat got) (drop got input); Some ((take got input ++ data)%list, rest).
Proof.
  intros Hg Hc. unfold receive_exact. unfold zlen. rewrite length_drop.
  destruct (Z.ltb_spec (Z.of_nat (length input)) count) as [Hlt|Hge].
  - rewrite (proj2 (Z.ltb_lt _ _)) by lia. done.
  - rewrite (proj2 (Z.ltb_ge _ _)) by lia. cbn. replace (Z.to_nat count) with (got + Z.to_nat (count - Z.of_nat got))%nat by lia.
    by rewrite take_take_drop, drop_drop.
Qed.

Lemma receive_pieces script count received input :
  Forall uneventful script -> 0 <= count -> (Z.to_nat count <= transfers script)%nat ->
  receive_polled script count received input =
    match receive_exact count input with
    | Some (data, rest) => Some (inl (received ++ data)%list, rest)
    | None => Some (inr peer_closed, [])
    end.
Proof.
  intros Hu. revert count received input. induction Hu as [|turn script Ht Hu IH]; intros count received input Hc Hn; cbn [receive_polled].
  - cbn in Hn. assert (count = 0) as -> by lia. cbn. unfold receive_exact. pose proof (zlen_nonneg input).
    rewrite (proj2 (Z.ltb_ge _ _)) by done. cbn. by rewrite app_nil_r.
  - destruct (Z.leb_spec count 0) as [Hz|Hpos].
    { assert (count = 0) as -> by lia. unfold receive_exact. pose proof (zlen_nonneg input).
      rewrite (proj2 (Z.ltb_ge _ _)) by done. cbn. by rewrite app_nil_r. }
    destruct turn as [|r| |[more|r]]; try done; cbn [transfers] in Hn; [by apply IH|].
    destruct input as [|b input']; [|set (input := b :: input')].
    { rewrite moved_none. cbn [Nat.eqb]. unfold receive_exact. by rewrite (proj2 (Z.ltb_lt (zlen []) count)) by (unfold zlen; cbn [length]; lia). }
    pose proof (moved_some more count input Hpos ltac:(done)). destruct (moved_bound more count input) as [Hb Hr].
    specialize (Hr ltac:(lia)). rewrite (proj2 (Nat.eqb_neq _ _)) by lia. rewrite IH by lia.
    rewrite (receive_exact_split (moved more count input) count) by lia.
    destruct (receive_exact _ _) as [[data rest]|]; cbn; [|done]. by rewrite app_assoc.
Qed.

Lemma send_pieces script data sent :
  Forall uneventful script -> (length data <= transfers script)%nat ->
  send_polled script data sent = (Some (inl tt), (sent ++ data)%list).
Proof.
  intros Hu. revert data sent. induction Hu as [|turn script Ht Hu IH]; intros data sent Hn.
  - destruct data; cbn in *; [by rewrite app_nil_r|lia].
  - destruct data as [|b data']; cbn [send_polled]; [by rewrite app_nil_r|]. set (data := b :: data') in *.
    destruct turn as [|r| |[more|r]]; try done; cbn [transfers] in Hn; [by apply IH|].
    assert (Hpos : (0 < moved more (zlen data) data)%nat) by (apply moved_some; [unfold data, zlen; cbn; lia|done]).
    rewrite IH by (rewrite length_drop; lia). by rewrite <- app_assoc, take_drop.
Qed.

(** C31: Cutting the stream changes nothing. However few bytes each call moves and
    however often the socket is not ready, as long as nothing fails and the stop
    flag is not seen, a thread of the server receives exactly the bytes one read
    of the whole buffer gets, leaves exactly the rest unread, reports a closed
    peer exactly when fewer were sent, and sends exactly its data; each needs at
    most one call per byte. *)
Theorem pieces_do_not_matter script count input data :
  Forall uneventful script -> 0 <= count -> (Z.to_nat count <= transfers script)%nat ->
  (length data <= transfers script)%nat ->
  receive_polled script count [] input =
    match receive_exact count input with
    | Some (bytes, rest) => Some (inl bytes, rest)
    | None => Some (inr peer_closed, [])
    end /\
  send_polled script data [] = (Some (inl tt), data).
Proof. intros Hu Hc Hr Hs. split; [by apply receive_pieces|by apply send_pieces]. Qed.

(** A client's loops are a server's without the polling. *)
Lemma receive_blocking_polled script count received input :
  receive_blocking script count received input = receive_polled (Ready <$> script) count received input.
Proof.
  revert count received input. induction script as [|[more|reason] script IH]; intros count received input; cbn; [done| |done].
  destruct (count <=? 0); [done|]. destruct (_ =? 0)%nat; [done|apply IH].
Qed.

Lemma send_blocking_polled script data sent : send_blocking script data sent = send_polled (Ready <$> script) data sent.
Proof.
  revert data sent. induction script as [|[more|reason] script IH]; intros [|b data] sent; cbn [send_blocking send_polled fmap list_fmap];
    [done..|apply IH|done|done].
Qed.

(** *** Transfers that are cut off *)

(** Whatever happens, what the peer got is a beginning of the data, and all of it
    when the call succeeds. *)
Lemma send_prefix script data sent outcome bytes :
  send_polled script data sent = (outcome, bytes) ->
  exists there unsent, bytes = (sent ++ there)%list /\ data = (there ++ unsent)%list /\ (outcome = Some (inl tt) -> unsent = []).
Proof.
  revert data sent. induction script as [|turn script IH]; intros [|b data'] sent; cbn [send_polled];
    try (intros [= <- <-]; exists [], []; by rewrite app_nil_r).
  - intros [= <- <-]. exists [], (b :: data'). by rewrite app_nil_r.
  - set (data := b :: data'). destruct turn as [|r| |[more|r]];
      try (intros [= <- <-]; exists [], data; by rewrite app_nil_r); [by apply IH|].
    intros (there & unsent & -> & Hd & Ho)%IH. exists (take (moved more (zlen data) data) data ++ there)%list, unsent.
    rewrite <- !app_assoc, <- Hd, take_drop. done.
Qed.

(** The stop flag is seen within one turn: the loop is over. *)
Lemma stop_ends_receive script later count received input :
  receive_polled (script ++ StopSeen :: later) count received input <> None.
Proof.
  revert count received input. induction script as [|turn script IH]; intros count received input; cbn [receive_polled app].
  - by destruct (count <=? 0).
  - destruct (count <=? 0); [done|]. destruct turn as [|r| |[more|r]]; try done. destruct (_ =? 0)%nat; [done|apply IH].
Qed.

Lemma stop_ends_send script later data sent : (send_polled (script ++ StopSeen :: later) data sent).1 <> None.
Proof.
  revert data sent. induction script as [|turn script IH]; intros [|b data] sent; cbn [send_polled app]; try done.
  destruct turn as [|r| |[more|r]]; try done; apply IH.
Qed.

(** A thread that waits on its connection sees the stop flag: whatever came
    before, at the turn at which the flag is set the transfer is over, with what
    was sent a beginning of the data, so that the peer never gets bytes that were
    not in the reply. *)
Theorem stop_ends_transfers script later count data input :
  (exists outcome, receive_polled (script ++ StopSeen :: later) count [] input = Some outcome) /\
  exists outcome there unsent,
    send_polled (script ++ StopSeen :: later) data [] = (Some outcome, there) /\ data = (there ++ unsent)%list.
Proof.
  split.
  - pose proof (stop_ends_receive script later count [] input) as Hr. destruct (receive_polled _ _ _ _) as [o|]; [by eexists|done].
  - pose proof (stop_ends_send script later data []) as Hs. destruct (send_polled _ _ _) as [[o|] bytes] eqn:E; [|done].
    destruct (send_prefix _ _ _ _ _ E) as (there & unsent & -> & Hd & _). exists o, there, unsent. done.
Qed.

(** ** Examples *)

Definition trickle : list Turn :=
  [Idle; Ready (Moves 1); Idle; Idle; Ready (Moves 0); Ready (Moves 7); Ready (Moves 0); Ready (Moves 0)].

Lemma pieces_do_not_matter_witness :
  receive_polled trickle 4 [] [1; 2; 3; 4; 5] =
    match receive_exact 4 [1; 2; 3; 4; 5] with
    | Some (bytes, rest) => Some (inl bytes, rest)
    | None => Some (inr peer_closed, [])
    end /\
  send_polled trickle [6; 7; 8; 9; 10] [] = (Some (inl tt), [6; 7; 8; 9; 10]).
Proof.
  apply (pieces_do_not_matter trickle 4 [1; 2; 3; 4; 5] [6; 7; 8; 9; 10]).
  - repeat constructor.
  - lia.
  - vm_compute. lia.
  - vm_compute. lia.
Defined.
