(* ===== verification/Net.v ===== *)
(** * Sockets and their descriptors ([src/ipc/socket.cpp])

    What the operations of [Socket] do besides moving bytes: they ask the operating
    system for descriptors and give them back.  The operating system answers each
    call as it likes; [os] lists its answers.  The theorem at the end says that no
    operation loses a descriptor or an address list, whichever call fails. *)
From stdpp Require Import gmap sets.
From S2P Require Import Prelude Types Text Socket.
#[local] Open Scope string_scope.
#[local] Open Scope Z_scope.

(** A call fails with what [strerror] says, or succeeds; [value] is the number of
    addresses found ([getaddrinfo]), the port ([getsockname]), or the ready sockets
    as bits ([select]).  A [send] that moves nothing counts as failed. *)
Inductive SysAnswer := Denied (reason : string) | Granted (value : Z).

(** The process as the operating system sees it: its open descriptors, the
    address lists it has not freed, and the number of calls made so far. *)
Record Net := mkNet {
  net_open : gset Z;
  net_lists : Z;
  net_asked : nat;
}.

(** A new descriptor is the lowest one that is not open. *)
Definition lowest_free (open : gset Z) : Z :=
  default 0 (head (filter (fun d => d ∉ open) (Z.of_nat <$> seq 0 (Datatypes.S (size open))))).

(** [Socket]: its [handle_]. *)
Abbreviation Socket := Z.
Definition kInvalidSocket : Socket := -1.
Definition valid (socket : Socket) : bool := negb (socket =? kInvalidSocket).

Section calls.
Context (os : nat -> SysAnswer).
Implicit Types n : Net.

(** The next call and its answer. *)
Definition ask n : SysAnswer * Net := (os (net_asked n), mkNet (net_open n) (net_lists n) (Datatypes.S (net_asked n))).

(** A call that gives a new descriptor: [socket] and [::accept]. *)
Definition new_descriptor n : (Z + string) * Net :=
  match ask n with
  | (Denied reason, n) => (inr reason, n)
  | (Granted _, n) =>
      let raw := lowest_free (net_open n) in (inl raw, mkNet (net_open n ∪ {[raw]}) (net_lists n) (net_asked n))
  end.

(** [::close]: the descriptor is gone whatever it returns. *)
Definition sys_close (raw : Z) n : Net := mkNet (net_open n ∖ {[raw]}) (net_lists n) (Datatypes.S (net_asked n)).

(** [::getaddrinfo]: the number of candidates; [freeaddrinfo]. *)
Definition resolve n : option nat * Net :=
  match ask n with
  | (Denied _, n) => (None, n)
  | (Granted count, n) =>
      if count <=? 0 then (None, n) else (Some (Z.to_nat count), mkNet (net_open n) (net_lists n + 1) (net_asked n))
  end.
Definition freeaddrinfo n : Net := mkNet (net_open n) (net_lists n - 1) (net_asked n).

(** [set_option]: what [setsockopt] answers is ignored. *)
Definition set_option n : Net := (ask n).2.

(** [Socket::close]; the handle is invalid afterwards. *)
Definition close_socket (socket : Socket) n : Net := if valid socket then sys_close socket n else n.

(** [Socket::shutdown]. *)
Definition shutdown_socket (socket : Socket) n : Net := if valid socket then (ask n).2 else n.

(** The loop of [Socket::connect] over the candidates. *)
Fixpoint connect_any (candidates : nat) n : Socket * Net :=
  match candidates with
  | O => (kInvalidSocket, n)
  | Datatypes.S candidates =>
      match new_descriptor n with
      | (inr _, n) => connect_any candidates n
      | (inl raw, n) =>
          match ask n with
          | (Granted _, n) => (raw, set_option n)
          | (Denied _, n) => connect_any candidates (sys_close raw n)
          end
      end
  end.

Definition connect (host : string) (port : Z) n : Outcome Socket * Net :=
  let service := to_dec port in
  match resolve n with
  | (None, n) => (inr (mkError ErrorCode.IoFailure ("could not resolve " +:+ host +:+ ":" +:+ service)), n)
  | (Some candidates, n) =>
      let '(result, n) := connect_any candidates n in
      let n := freeaddrinfo n in
      if negb (valid result) then
        (inr (mkError ErrorCode.IoFailure ("could not connect to " +:+ host +:+ ":" +:+ service)), n)
      else (inl result, n)
  end.

(** [Socket::listen_on]: the socket, and [bound_port] as it leaves it. *)
Definition listen_on (address : string) (port backlog bound_port : Z) n : Outcome (Socket * Z) * Net :=
  match resolve n with
  | (None, n) => (inr (mkError ErrorCode.IoFailure ("could not resolve bind address " +:+ address)), n)
  | (Some _, n) =>
      match new_descriptor n with
      | (inr reason, n) => (inr (socket_error "socket" reason), freeaddrinfo n)
      | (inl raw, n) =>
          match ask (set_option n) with
          | (Denied reason, n) => (inr (socket_error "bind" reason), sys_close raw (freeaddrinfo n))
          | (Granted _, n) =>
              match ask (freeaddrinfo n) with
              | (Denied reason, n) => (inr (socket_error "listen" reason), sys_close raw n)
              | (Granted _, n) =>
                  match ask n with
                  | (Granted bound, n) => (inl (raw, bound), n)
                  | (Denied _, n) => (inl (raw, bound_port), n)
                  end
              end
          end
      end
  end.

(** [Socket::accept]. *)
Definition accept (socket : Socket) n : Outcome Socket * Net :=
  if negb (valid socket) then (inr (mkError ErrorCode.Closed "accept on a closed socket"), n)
  else
    match new_descriptor n with
    | (inr reason, n) => (inr (socket_error "accept" reason), n)
    | (inl raw, n) => (inl raw, set_option n)
    end.

(** [Socket::make_pair]: the writing and the reading end. *)
Definition make_pair n : Outcome (Socket * Socket) * Net :=
  match listen_on "127.0.0.1" 0 1 0 n with
  | (inr error, n) => (inr error, n)
  | (inl (listener, port), n) =>
      match connect "127.0.0.1" port n with
      | (inr error, n) => (inr error, close_socket listener n)
      | (inl client, n) =>
          let '(server, n) := accept listener n in
          let n := close_socket listener n in
          match server with
          | inr error => (inr error, close_socket client n)
          | inl server => (inl (client, server), n)
          end
      end
  end.

(** [Socket::wait_readable]: 0 for the first socket, 1 for the second. *)
Definition wait_readable (first second : Socket) n : Outcome Z * Net :=
  if negb (valid first) || negb (valid second) then
    (inr (mkError ErrorCode.Closed "wait_readable on a closed socket"), n)
  else
    match ask n with
    | (Denied reason, n) => (inr (socket_error "select" reason), n)
    | (Granted ready, n) => (inl (if Z.testbit ready 0 then 0 else 1), n)
    end.

(** [Socket::wait_ready]: whether the socket is ready before the interval ends. *)
Definition wait_ready (socket : Socket) n : Outcome bool * Net :=
  if negb (valid socket) then (inr (mkError ErrorCode.Closed "wait on a closed socket"), n)
  else
    match ask n with
    | (Denied reason, n) => (inr (socket_error "select" reason), n)
    | (Granted ready, n) => (inl (0 <? ready), n)
    end.

(** [Socket::wake]: one byte. *)
Definition wake (socket : Socket) n : Outcome unit * Net :=
  if negb (valid socket) then (inr (mkError ErrorCode.Closed "send on a closed socket"), n)
  else
    match ask n with
    | (Denied reason, n) => (inr (socket_error "send" reason), n)
    | (Granted _, n) => (inl tt, n)
    end.
End calls.

(** ** Whole transfers

    The two [receive_exact] and the two [send_all], with the check of the handle in
    front of their loops, which are in [Socket.v]. *)

Definition receive_closed : Error := mkError ErrorCode.Closed "receive on a closed socket".
Definition send_closed : Error := mkError ErrorCode.Closed "send on a closed socket".

Definition receive_exact_stoppable (socket : Socket) (script : list Turn) (count : Z) (input : list Z)
    : option (Outcome (list Z) * list Z) :=
  if negb (valid socket) then Some (inr receive_closed, input) else receive_polled script count [] input.

Definition receive_exact_waiting (socket : Socket) (script : list Transfer) (count : Z) (input : list Z)
    : option (Outcome (list Z) * list Z) :=
  if negb (valid socket) then Some (inr receive_closed, input) else receive_blocking script count [] input.

Definition send_all_stoppable (socket : Socket) (script : list Turn) (data : list Z) : option (Outcome unit) * list Z :=
  if negb (valid socket) then (Some (inr send_closed), []) else send_polled script data [].

Definition send_all_waiting (socket : Socket) (script : list Transfer) (data : list Z) : option (Outcome unit) * list Z :=
  if negb (valid socket) then (Some (inr send_closed), []) else send_blocking script data [].

(** A closed handle moves nothing, whatever the network does; an open one of a client
    behaves as one of a server that is always ready. *)
Lemma closed_handle_moves_nothing script turns count data input :
  receive_exact_stoppable kInvalidSocket turns count input = Some (inr receive_closed, input) /\
  receive_exact_waiting kInvalidSocket script count input = Some (inr receive_closed, input) /\
  send_all_stoppable kInvalidSocket turns data = (Some (inr send_closed), []) /\
  send_all_waiting kInvalidSocket script data = (Some (inr send_closed), []).
Proof. done. Qed.

Lemma waiting_is_always_ready socket script count data input :
  receive_exact_waiting socket script count input = receive_exact_stoppable socket (Ready <$> script) count input /\
  send_all_waiting socket script data = send_all_stoppable socket (Ready <$> script) data.
Proof.
  unfold receive_exact_waiting, receive_exact_stoppable, send_all_waiting, send_all_stoppable.
  by rewrite receive_blocking_polled, send_blocking_polled.
Qed.

(** ** Descriptors are accounted for *)

Lemma lowest_free_spec (open : gset Z) : (lowest_free open ∉ open) /\ 0 <= lowest_free open <= Z.of_nat (size open).
Proof.
  unfold lowest_free. set (candidates := Z.of_nat <$> seq 0 (Datatypes.S (size open))).
  destruct (filter (fun d => d ∉ open) candidates) as [|d rest] eqn:E; cbn.
  - exfalso. assert (Hin : forall d, d ∈ candidates -> d ∈ open).
    { intros d Hd. destruct (decide (d ∈ open)) as [|Hn]; [done|].
      assert (Hf : d ∈ filter (fun d => d ∉ open) candidates) by (by apply list_elem_of_filter). rewrite E in Hf. by apply not_elem_of_nil in Hf. }
    assert (Hnd : NoDup candidates) by (apply NoDup_fmap_2; [apply _|apply NoDup_seq]).
    assert (Hsub : (list_to_set candidates : gset Z) ⊆ open) by (intros d; rewrite elem_of_list_to_set; apply Hin).
    apply subseteq_size in Hsub. rewrite size_list_to_set in Hsub by done. unfold candidates in Hsub.
    rewrite length_fmap, length_seq in Hsub. lia.
  - assert (Hd : d ∈ filter (fun d => d ∉ open) candidates) by (rewrite E; by left).
    apply list_elem_of_filter in Hd as [Hn Hc]. split; [done|].
    apply list_elem_of_fmap in Hc as (k & -> & Hk). apply elem_of_seq in Hk. lia.
Qed.

(** The descriptors and lists are the same. *)
Definition same_resources (n n' : Net) : Prop := net_open n' = net_open n /\ net_lists n' = net_lists n.

(** [X] is what was gained: descriptors that were not open, none of them far
    beyond the number of open ones. *)
Record gained (X : gset Z) (slack : Z) (n n' : Net) : Prop := {
  ga_open : net_open n' = net_open n ∪ X;
  ga_new : X ## net_open n;
  ga_bound : forall d : Z, d ∈ X -> 0 <= d <= Z.of_nat (size (net_open n)) + slack;
  ga_lists : net_lists n' = net_lists n;
}.

Section accounts.
Context (os : nat -> SysAnswer).
Implicit Types n : Net.

(** What an operation that makes a descriptor does to the accounts. *)
Definition makes_one {A E} (socket_of : A -> Z) n (result : (A + E) * Net) : Prop :=
  match result with
  | (inl a, n') => gained {[socket_of a]} 0 n n'
  | (inr _, n') => same_resources n n'
  end.

Lemma same_gained X slack n0 n n' : same_resources n0 n -> gained X slack n n' -> gained X slack n0 n'.
Proof. intros [Eo El] [H1 H2 H3 H4]. split; rewrite <- ?Eo, <- ?El; done. Qed.

Lemma gained_same X slack n n' n'' : gained X slack n n' -> same_resources n' n'' -> gained X slack n n''.
Proof. intros [H1 H2 H3 H4] [Eo El]. split; rewrite ?Eo, ?El; done. Qed.

Lemma gained_valid d slack n n' : gained {[d]} slack n n' -> valid d = true.
Proof.
  intros [_ _ Hb _]. specialize (Hb d ltac:(set_solver)). unfold valid, kInvalidSocket.
  destruct (Z.eqb_spec d (-1)); [lia|done].
Qed.

(** Closing what was gained. *)
Lemma gained_close d slack n n' : gained {[d]} slack n n' -> same_resources n (sys_close d n').
Proof.
  intros [H1 H2 H3 H4]. split; cbn; [|done]. rewrite H1. apply set_eq. intros x. destruct (decide (x = d)); set_solver.
Qed.

Lemma new_descriptor_accounts n : makes_one id n (new_descriptor os n).
Proof.
  unfold makes_one, new_descriptor, ask. destruct (os (net_asked n)); [done|].
  destruct (lowest_free_spec (net_open n)) as [Hn Hb]. cbn. split; cbn; [done|set_solver| |done].
  intros d ->%elem_of_singleton. unfold id. lia.
Qed.

Lemma connect_any_accounts candidates n :
  let '(s, n') := connect_any os candidates n in
  if valid s then gained {[s]} 0 n n' else same_resources n n'.
Proof.
  revert n. induction candidates as [|candidates IH]; intros n; cbn [connect_any]; [done|].
  pose proof (new_descriptor_accounts n) as Hn. destruct (new_descriptor os n) as [[raw|reason] n1]; cbn [makes_one id] in Hn.
  - unfold ask, set_option. destruct (os (net_asked n1)).
    + specialize (IH (sys_close raw (mkNet (net_open n1) (net_lists n1) (Datatypes.S (net_asked n1))))).
      destruct (connect_any os candidates _) as [s n']. destruct (gained_close raw 0 n n1 Hn) as [Eo El].
      cbn [net_open net_lists sys_close] in *. destruct (valid s); [by eapply same_gained, IH|].
      destruct IH as [E1 E2]. cbn in *. split; congruence.
    + rewrite (gained_valid raw 0 n n1 Hn). by apply (gained_same _ _ _ n1).
  - specialize (IH n1). destruct (connect_any os candidates n1) as [s n']. destruct Hn as [Eo El].
    destruct (valid s); [by eapply same_gained, IH|]. destruct IH. split; congruence.
Qed.

Lemma resolve_accounts n :
  match resolve os n with
  | (None, n') => same_resources n n'
  | (Some _, n') => net_open n' = net_open n /\ net_lists n' = net_lists n + 1
  end.
Proof. unfold resolve, ask. destruct (os (net_asked n)); [done|]. by destruct (_ <=? 0). Qed.

Lemma connect_accounts host port n : makes_one id n (connect os host port n).
Proof.
  unfold connect. pose proof (resolve_accounts n) as Hr. destruct (resolve os n) as [[candidates|] n1]; [|done].
  pose proof (connect_any_accounts candidates n1) as Hc. destruct (connect_any os candidates n1) as [s n2].
  destruct Hr as [Eo El]. destruct (valid s); cbn.
  - destruct Hc as [H1 H2 H3 H4]. split; cbn; rewrite <- ?Eo; [done|done|done|lia].
  - destruct Hc as [H1 H2]. split; cbn; [congruence|lia].
Qed.

Lemma listen_on_accounts address port backlog bound n : makes_one fst n (listen_on os address port backlog bound n).
Proof.
  unfold listen_on. pose proof (resolve_accounts n) as Hr. destruct (resolve os n) as [[candidates|] n1]; [|done].
  destruct Hr as [Eo El]. pose proof (new_descriptor_accounts n1) as Hn.
  destruct (new_descriptor os n1) as [[raw|reason] n2]; cbn [makes_one id] in Hn.
  2:{ destruct Hn. split; cbn; [congruence|lia]. }
  assert (Hg : forall k, gained {[raw]} 0 n (mkNet (net_open n2) (net_lists n2 - 1) k)).
  { destruct Hn as [H1 H2 H3 H4]. intros k. split; cbn; rewrite <- ?Eo; [done|done|done|lia]. }
  unfold ask, set_option, freeaddrinfo. cbn [net_asked net_open net_lists snd].
  destruct (os _); cbn [makes_one]; [exact (gained_close raw 0 n _ (Hg _))|]. cbn [net_asked net_open net_lists].
  destruct (os _); cbn [makes_one]; [exact (gained_close raw 0 n _ (Hg _))|]. cbn [net_asked net_open net_lists].
  destruct (os _); cbn [makes_one fst]; apply Hg.
Qed.

Lemma accept_accounts socket n : makes_one id n (accept os socket n).
Proof.
  unfold accept. destruct (negb (valid socket)); [done|]. pose proof (new_descriptor_accounts n) as Hn.
  destruct (new_descriptor os n) as [[raw|reason] n1]; [|done]. cbn in *. by apply (gained_same _ _ _ n1).
Qed.
(** *** Several descriptors *)

Lemma gained_more X k slack d n n1 n2 :
  gained X slack n n1 -> gained {[d]} 0 n1 n2 -> (size X <= k)%nat -> slack <= Z.of_nat k ->
  gained (X ∪ {[d]}) (Z.of_nat k) n n2 /\ (d ∉ X).
Proof.
  intros [H1 H2 H3 H4] [G1 G2 G3 G4] Hk Hs. split; [|set_solver]. split.
  - rewrite G1, H1. set_solver.
  - rewrite H1 in G2. set_solver.
  - intros x [Hx| ->%elem_of_singleton]%elem_of_union; [specialize (H3 x Hx); lia|].
    specialize (G3 d ltac:(set_solver)). rewrite H1, size_union in G3 by set_solver. lia.
  - congruence.
Qed.

Lemma gained_drop X slack d n n' : gained X slack n n' -> d ∈ X -> gained (X ∖ {[d]}) slack n (sys_close d n').
Proof.
  intros [H1 H2 H3 H4] Hd. split; cbn; [|set_solver| |done].
  - rewrite H1. apply set_eq. intros x. destruct (decide (x = d)); set_solver.
  - intros x Hx. apply H3. set_solver.
Qed.

Lemma gained_nothing slack n n' : gained ∅ slack n n' -> same_resources n n'.
Proof. intros [H1 H2 H3 H4]. split; [|done]. rewrite H1. apply union_empty_r_L. Qed.

Lemma gained_set X Y slack n n' : X = Y -> gained X slack n n' -> gained Y slack n n'.
Proof. by intros ->. Qed.

Lemma make_pair_accounts n :
  match make_pair os n with
  | (inl (writer, reader), n') => gained {[writer; reader]} 2 n n' /\ writer <> reader
  | (inr _, n') => same_resources n n'
  end.
Proof.
  unfold make_pair. pose proof (listen_on_accounts "127.0.0.1" 0 1 0 n) as Hl.
  destruct (listen_on os _ _ _ _ n) as [[[listener port]|error] n1]; cbn [makes_one fst] in Hl; [|done].
  pose proof (gained_valid _ _ _ _ Hl) as Vl. unfold close_socket. rewrite Vl.
  pose proof (connect_accounts "127.0.0.1" port n1) as Hc.
  destruct (connect os _ _ n1) as [[client|error] n2]; cbn [makes_one id] in Hc.
  2:{ apply (gained_close listener 0). by apply (gained_same _ _ _ n1). }
  rewrite (gained_valid _ _ _ _ Hc).
  destruct (gained_more {[listener]} 1 0 client n n1 n2 Hl Hc ltac:(rewrite size_singleton; lia) ltac:(lia)) as [H2 N2].
  pose proof (accept_accounts listener n2) as Ha.
  destruct (accept os listener n2) as [[server|error] n3]; cbn [makes_one id] in Ha.
  - destruct (gained_more _ 2 1 server n n2 n3 H2 Ha) as [H3 N3]; [rewrite size_union, !size_singleton by set_solver; lia|lia|].
    split; [|set_solver]. eapply gained_set, (gained_drop _ 2 listener); [|exact H3|set_solver]. set_solver.
  - apply (gained_nothing 1), (gained_set ({[listener; client]} ∖ {[listener]} ∖ {[client]})); [set_solver|].
    apply gained_drop; [|set_solver]. apply gained_drop; [by apply (gained_same _ _ _ n2)|set_solver].
Qed.
End accounts.
