(* ===== verification/FileIo.v ===== *)
(** * The file primitives under the store ([src/detail/file_io.cpp])

    The store needs positional reads and writes, a flush, truncation and an
    atomic replace.  A [World] holds the files by path, and a script of what
    the operating system answers to the calls to come: each system call takes
    the next answer, and when the script has run out every call succeeds, or
    every call fails with the reason [w_rest].  A process that stops at some
    point leaves the files that the same process leaves when every call fails
    from that point on, so the scripts that end in failure also stand for
    crashes.  The POSIX branch of the source is the one modelled. *)
From stdpp Require Import gmap.
From S2P Require Import Prelude OrdMap Types.
#[local] Open Scope string_scope.
#[local] Open Scope Z_scope.

(** What a system call answers.  [Short n] transfers [n] bytes of a read or
    write and means success for the other calls. *)
Inductive Answer := Done | Short (n : Z) | Interrupted | Refused (reason : string).

Record World := mkWorld {
  w_files : gmap string (list Z);
  w_script : list Answer;
  w_rest : option string;
}.

(** A call that may fail, in the world. *)
Definition IO (A : Type) : Type := World -> World * Outcome A.

#[export] Instance io_ret : MRet IO := fun A a w => (w, inl a).
#[export] Instance io_bind : MBind IO := fun A B f m w =>
  match m w with
  | (w', inl a) => f a w'
  | (w', inr e) => (w', inr e)
  end.

Definition io_fail {A} (e : Error) : IO A := fun w => (w, inr e).
Definition io_lift {A} (o : Outcome A) : IO A := fun w => (w, o).

Definition set_files (files : gmap string (list Z)) (w : World) : World := mkWorld files (w_script w) (w_rest w).

Definition io_get {A} (f : World -> A) : IO A := fun w => (w, inl (f w)).
Definition io_modify (f : World -> gmap string (list Z)) : IO unit := fun w => (set_files (f w) w, inl tt).

(** [io_error], with what [strerror] says. *)
Definition io_error (operation path reason : string) : Error :=
  mkError ErrorCode.IoFailure (operation +:+ " failed for " +:+ path +:+ ": " +:+ reason).

(** The answer to a call that transfers nothing: success, or why not. *)
Definition next_answer (w : World) : World * option string :=
  match w_script w with
  | [] => (w, w_rest w)
  | answer :: script =>
      (mkWorld (w_files w) script (w_rest w),
       match answer with
       | Done | Short _ => None
       | Interrupted => Some "Interrupted system call"
       | Refused reason => Some reason
       end)
  end.

Definition system_call (operation path : string) : IO unit := fun w =>
  let '(w, refused) := next_answer w in
  (w, match refused with None => inl tt | Some reason => inr (io_error operation path reason) end).

(** ** File handles *)

(** An open descriptor by the path it was opened on; [None] is a null handle. *)
Abbreviation FileHandle := (option string).

Definition file_exists (path : string) (w : World) : bool := bool_decide (is_Some (w_files w !! path)).

Definition content_of (path : string) (w : World) : list Z := default [] (w_files w !! path).

(** [FileHandle::Open]. *)
Definition file_open (path : string) (read write create : bool) : IO FileHandle := fun w =>
  if negb read && negb write then
    (w, inr (mkError ErrorCode.InvalidArgument "a file must be opened for reading, writing or both"))
  else if negb create && negb (file_exists path w) then
    (w, inr (mkError ErrorCode.NotFound ("file does not exist: " +:+ path)))
  else
    match system_call "open" path w with
    | (w, inl _) => (set_files (<[path := content_of path w]> (w_files w)) w, inl (Some path))
    | (w, inr e) => (w, inr e)
    end.

(** The bytes of a file after a write at an offset; a gap is filled with
    zeros. *)
Definition overlay (offset : nat) (data content : list Z) : list Z :=
  (take offset content ++ repeat 0 (offset - length content) ++ data
   ++ drop (offset + length data) content)%list.

(** The loop of [WriteAt]. *)
Fixpoint pwrite_loop (rest : option string) (script : list Answer) (offset : nat) (data content : list Z)
    : list Z * list Answer * Outcome unit :=
  match data with
  | [] => (content, script, inl tt)
  | _ :: _ =>
      match script with
      | [] =>
          match rest with
          | None => (overlay offset data content, [], inl tt)
          | Some reason => (content, [], inr (io_error "pwrite" "" reason))
          end
      | Done :: script => (overlay offset data content, script, inl tt)
      | Short n :: script =>
          if n <=? 0 then
            (content, script, inr (mkError ErrorCode.IoFailure "pwrite reported a zero length write"))
          else
            let chunk := take (Z.to_nat n) data in
            pwrite_loop rest script (offset + length chunk) (drop (Z.to_nat n) data) (overlay offset chunk content)
      | Interrupted :: script => pwrite_loop rest script offset data content
      | Refused reason :: script => (content, script, inr (io_error "pwrite" "" reason))
      end
  end.

(** [FileHandle::WriteAt]. *)
Definition write_at (handle : FileHandle) (offset : Z) (data : list Z) : IO unit := fun w =>
  match handle with
  | None => (w, inr (mkError ErrorCode.IoFailure "write on a closed file"))
  | Some path =>
      let '(content, script, outcome) :=
        pwrite_loop (w_rest w) (w_script w) (Z.to_nat offset) data (content_of path w) in
      (mkWorld (<[path := content]> (w_files w)) script (w_rest w), outcome)
  end.

(** The loop of [ReadAt]: at most [size] bytes from [offset].  A read returns
    at least one byte before the end of the file, and none at its end. *)
Fixpoint pread_loop (rest : option string) (script : list Answer) (offset size : nat) (content : list Z)
    : list Answer * Outcome (list Z) :=
  match size with
  | O => (script, inl [])
  | S _ =>
      let available := take size (drop offset content) in
      let transfer chunk script :=
        match chunk with
        | [] => (script, inl [])
        | _ :: _ =>
            let '(script, outcome) := pread_loop rest script (offset + length chunk) (size - length chunk) content in
            (script, match outcome with inl more => inl (chunk ++ more)%list | inr e => inr e end)
        end in
      match script with
      | [] =>
          match rest with
          | None => ([], inl available)
          | Some reason => ([], inr (io_error "pread" "" reason))
          end
      | Done :: script => transfer available script
      | Short n :: script => transfer (take (Z.to_nat (Z.max 1 n)) available) script
      | Interrupted :: script => pread_loop rest script offset size content
      | Refused reason :: script => (script, inr (io_error "pread" "" reason))
      end
  end.

(** [FileHandle::ReadAt]: the bytes read. *)
Definition read_at (handle : FileHandle) (offset size : Z) : IO (list Z) := fun w =>
  match handle with
  | None => (w, inr (mkError ErrorCode.IoFailure "read on a closed file"))
  | Some path =>
      let '(script, outcome) :=
        pread_loop (w_rest w) (w_script w) (Z.to_nat offset) (Z.to_nat size) (content_of path w) in
      (mkWorld (w_files w) script (w_rest w), outcome)
  end.

(** [FileHandle::Sync], [Truncate] and [Size]. *)
Definition file_sync (handle : FileHandle) : IO unit :=
  match handle with
  | None => io_fail (mkError ErrorCode.IoFailure "flush on a closed file")
  | Some path => system_call "fsync" ""
  end.

Definition file_truncate (handle : FileHandle) (size : Z) : IO unit :=
  match handle with
  | None => io_fail (mkError ErrorCode.IoFailure "truncate on a closed file")
  | Some path =>
      _ ← system_call "ftruncate" "";
      io_modify (fun w => <[path := overlay (Z.to_nat size) [] (take (Z.to_nat size) (content_of path w))]> (w_files w))
  end.

Definition file_size (handle : FileHandle) : IO Z :=
  match handle with
  | None => io_fail (mkError ErrorCode.IoFailure "size on a closed file")
  | Some path => _ ← system_call "fstat" ""; io_get (fun w => zlen (content_of path w))
  end.

(** ** Paths *)

Definition atomic_replace (from to : string) : IO unit :=
  _ ← system_call "rename" to;
  io_modify (fun w => delete from (<[to := content_of from w]> (w_files w))).

(** [std::filesystem::remove], which succeeds when the file is already gone. *)
Definition remove_file (path : string) : IO unit :=
  _ ← system_call "remove" path;
  io_modify (fun w => delete path (w_files w)).

(** The text before the last separator, as [std::filesystem::path::parent_path]
    gives it for a path without repeated separators. *)
Fixpoint split_parent (path : string) : option string :=
  match path with
  | EmptyString => None
  | String c rest =>
      match split_parent rest with
      | Some parent => Some (String c parent)
      | None => if bool_decide (c = Ascii.ascii_of_nat 47) then Some EmptyString else None
      end
  end.

Definition create_parent_directories (path : string) : IO unit := fun w =>
  match split_parent path with
  | None => (w, inl tt)
  | Some parent =>
      let parent := if bool_decide (parent = "") then "/" else parent in
      let '(w, refused) := next_answer w in
      (w, match refused with
          | None => inl tt
          | Some reason => inr (mkError ErrorCode.IoFailure ("could not create " +:+ parent +:+ ": " +:+ reason))
          end)
  end.

(** * Facts *)

(** A world in which every call succeeds. *)
Definition reliable (w : World) : Prop := w_script w = [] /\ w_rest w = None.

Lemma next_answer_files w w' r : next_answer w = (w', r) -> w_files w' = w_files w.
Proof. unfold next_answer. destruct (w_script w); by intros [= <- <-]. Qed.

Lemma next_answer_reliable w : reliable w -> next_answer w = (w, None).
Proof. intros [H1 H2]. unfold next_answer. by rewrite H1, H2. Qed.

Lemma system_call_files op path w w' r : system_call op path w = (w', r) -> w_files w' = w_files w.
Proof.
  unfold system_call. destruct (next_answer w) as [w1 o] eqn:E. apply next_answer_files in E. by intros [= <- <-].
Qed.

Lemma system_call_reliable op path w : reliable w -> system_call op path w = (w, inl tt).
Proof. intros Hw. unfold system_call. by rewrite next_answer_reliable. Qed.

Lemma overlay_within offset data content :
  (offset <= length content)%nat ->
  overlay offset data content = (take offset content ++ data ++ drop (offset + length data) content)%list.
Proof. intros Ho. unfold overlay. by replace (offset - length content)%nat with 0%nat by lia. Qed.

Lemma overlay_nil offset content : (offset <= length content)%nat -> overlay offset [] content = content.
Proof. intros Ho. rewrite overlay_within by done. cbn. rewrite Nat.add_0_r. apply take_drop. Qed.

Lemma overlay_app offset d1 d2 content :
  (offset <= length content)%nat ->
  overlay (offset + length d1) d2 (overlay offset d1 content) = overlay offset (d1 ++ d2) content.
Proof.
  intros Ho. rewrite (overlay_within offset d1), (overlay_within offset (d1 ++ d2)) by done.
  set (t := take offset content). assert (Ht : length t = offset) by (unfold t; rewrite length_take; lia).
  rewrite overlay_within by (rewrite !length_app; lia). rewrite !app_assoc.
  assert (Hl : length (t ++ d1) = (offset + length d1)%nat) by (rewrite length_app; lia).
  rewrite <- Hl at 1. rewrite take_app_length. f_equal.
  rewrite drop_app_ge by lia. rewrite drop_drop. f_equal. rewrite !length_app in *. lia.
Qed.

(** At the end of a file a write appends. *)
Lemma overlay_prefix base tail data :
  overlay (length base) data (base ++ tail) = (base ++ data ++ drop (length data) tail)%list.
Proof.
  rewrite overlay_within by (rewrite length_app; lia). rewrite take_app_length. do 2 f_equal.
  rewrite drop_app_ge by lia. f_equal. lia.
Qed.

(** A write stores some leading part of its data, and all of it when it
    reports success. *)
Lemma pwrite_loop_spec rest script offset data content content' script' o :
  (offset <= length content)%nat ->
  pwrite_loop rest script offset data content = (content', script', o) ->
  exists k, content' = overlay offset (take k data) content /\ (o = inl tt -> take k data = data).
Proof.
  revert offset data content. induction script as [|a script IH]; intros offset data content Ho.
  - destruct data as [|x data].
    + intros [= <- <- <-]. exists 0%nat. by rewrite take_nil, overlay_nil.
    + cbn [pwrite_loop]. destruct rest; intros [= <- <- <-].
      * exists 0%nat. split; [by rewrite take_0, overlay_nil|done].
      * exists (length (x :: data)). by rewrite take_ge by lia.
  - destruct data as [|x data].
    + intros [= <- <- <-]. exists 0%nat. by rewrite take_nil, overlay_nil.
    + cbn [pwrite_loop]. set (d := x :: data). destruct a as [|n| |reason].
      * intros [= <- <- <-]. exists (length d). by rewrite take_ge by lia.
      * destruct (Z.leb_spec n 0).
        { intros [= <- <- <-]. exists 0%nat. split; [by rewrite take_0, overlay_nil|done]. }
        set (m := Z.to_nat n). intros Heq. apply IH in Heq as (k & -> & Hk).
        2:{ rewrite overlay_within by done. rewrite !length_app, !length_take, length_drop, ?length_take. lia. }
        exists (m + k)%nat. rewrite overlay_app by done.
        assert (Hsplit : (take m d ++ take k (drop m d))%list = take (m + k) d).
        { by rewrite <- take_take_drop. }
        rewrite Hsplit. split; [done|]. intros Ho'. rewrite <- Hsplit, Hk by done. apply take_drop.
      * intros Heq. by apply IH in Heq.
      * intros [= <- <- <-]. exists 0%nat. split; [by rewrite take_0, overlay_nil|done].
Qed.

Lemma write_at_spec path offset data w w' o :
  0 <= offset <= zlen (content_of path w) ->
  write_at (Some path) offset data w = (w', o) ->
  exists k, w_files w' = <[path := overlay (Z.to_nat offset) (take k data) (content_of path w)]> (w_files w) /\
    (o = inl tt -> take k data = data).
Proof.
  intros Ho. unfold write_at. destruct (pwrite_loop _ _ _ _ _) as [[c s] r] eqn:E. intros [= <- <-].
  apply pwrite_loop_spec in E as (k & -> & Hk); [|unfold zlen in Ho; lia]. by exists k.
Qed.

Lemma write_at_reliable path offset data w :
  reliable w -> 0 <= offset <= zlen (content_of path w) ->
  write_at (Some path) offset data w =
    (set_files (<[path := overlay (Z.to_nat offset) data (content_of path w)]> (w_files w)) w, inl tt).
Proof.
  intros [H1 H2] Ho. unfold write_at. rewrite H1, H2. destruct data as [|x data]; cbn [pwrite_loop].
  - rewrite overlay_nil by (unfold zlen in Ho; lia). unfold set_files. by rewrite H1, H2.
  - unfold set_files. by rewrite H1, H2.
Qed.

(** A read that succeeds returns the bytes that are there. *)
Lemma pread_loop_spec rest script offset size content script' bytes :
  pread_loop rest script offset size content = (script', inl bytes) -> bytes = take size (drop offset content).
Proof.
  revert offset size bytes. induction script as [|a script IH]; intros offset size bytes.
  - destruct size as [|size]; cbn [pread_loop]; [by intros [= <- <-]|].
    destruct rest; [done|]. by intros [= <- <-].
  - assert (Htr : forall n chunk,
      chunk = take n (take size (drop offset content)) -> chunk <> [] ->
      (let '(script, outcome) := pread_loop rest script (offset + length chunk) (size - length chunk) content in
       (script, match outcome with inl more => inl (chunk ++ more)%list | inr e => inr e end)) = (script', inl bytes) ->
      bytes = take size (drop offset content)).
    { intros n chunk Hc Hne. destruct (pread_loop _ _ _ _ _) as [s [more|e]] eqn:E; [|done].
      intros [= <- <-]. apply IH in E. rewrite E.
      set (whole := take size (drop offset content)) in *.
      assert (Hchunk : chunk = take (length chunk) whole).
      { rewrite Hc, length_take. destruct (Nat.min_spec n (length whole)) as [[? ->]|[? ->]]; [done|].
        by rewrite !take_ge by lia. }
      assert (Hmore : take (size - length chunk) (drop (offset + length chunk) content) = drop (length chunk) whole).
      { unfold whole. rewrite <- drop_drop, skipn_firstn_comm. done. }
      rewrite Hmore. rewrite Hchunk at 1. apply take_drop. }
    destruct size as [|size]; cbn [pread_loop]; [by intros [= <- <-]|].
    set (available := take (S size) (drop offset content)) in *.
    destruct a as [|n| |reason].
    + destruct available as [|x l] eqn:Ea; [by intros [= <- <-]|].
      apply (Htr (S size) (x :: l)); [|done]. rewrite take_ge; [done|]. rewrite <- Ea. apply firstn_le_length.
    + destruct (take (Z.to_nat (Z.max 1 n)) available) as [|x l] eqn:Ea.
      * intros [= <- <-]. destruct available as [|y av] eqn:Eav; [done|].
        destruct (Z.to_nat (Z.max 1 n)) eqn:En; [lia|done].
      * intros Heq. apply (Htr (Z.to_nat (Z.max 1 n)) (x :: l)); [by rewrite Ea|done|done].
    + intros Heq. by apply IH in Heq.
    + done.
Qed.

Lemma read_at_spec path offset size w w' o :
  read_at (Some path) offset size w = (w', o) ->
  w_files w' = w_files w /\
  forall bytes, o = inl bytes -> bytes = take (Z.to_nat size) (drop (Z.to_nat offset) (content_of path w)).
Proof.
  unfold read_at. destruct (pread_loop _ _ _ _ _) as [s r] eqn:E. intros [= <- <-]. split; [done|].
  intros bytes ->. by apply pread_loop_spec in E.
Qed.

Lemma read_at_reliable path offset size w :
  reliable w ->
  read_at (Some path) offset size w =
    (w, inl (take (Z.to_nat size) (drop (Z.to_nat offset) (content_of path w)))).
Proof.
  intros [H1 H2]. unfold read_at. rewrite H1, H2. destruct w as [files script rest]; cbn in *; subst.
  by destruct (Z.to_nat size).
Qed.

(** ** How calls use up the script *)

(** [w'] is a world the calls made in [w] can lead to: the answers still to come
    are the last of those that were. *)
Definition later (w w' : World) : Prop := w_script w' `suffix_of` w_script w /\ w_rest w' = w_rest w.

#[export] Instance later_preorder : PreOrder later.
Proof.
  split; [done|]. intros w1 w2 w3 [H1 E1] [H2 E2]. split; [by etransitivity|by rewrite E2].
Qed.

(** Every call fails from here on. *)
Definition dead (w : World) : Prop := w_script w = [] /\ is_Some (w_rest w).

(** A process that runs until it stops: reads and writes may be short or fail,
    and the other calls succeed until every call fails. *)
Definition steady (w : World) : Prop :=
  Forall (fun a => match a with Done | Short _ => True | Interrupted | Refused _ => False end) (w_script w).

Lemma dead_later w w' : later w w' -> dead w -> dead w'.
Proof. intros [[k Hs] Hr] [Hd Hsome]. rewrite Hd in Hs. split; [by destruct k, (w_script w')|by rewrite Hr]. Qed.

Lemma steady_later w w' : later w w' -> steady w -> steady w'.
Proof. intros [[k Hs] _]. unfold steady. rewrite Hs, Forall_app. by intros [_ ?]. Qed.

Lemma next_answer_later w w' r : next_answer w = (w', r) -> later w w'.
Proof.
  unfold next_answer. destruct w as [files [|a script] rest]; cbn; intros [= <- <-]; [done|].
  split; cbn; [by apply suffix_cons_r|done].
Qed.

Lemma system_call_later op path w w' o : system_call op path w = (w', o) -> later w w'.
Proof.
  unfold system_call. destruct (next_answer w) as [w1 r] eqn:E. intros [= <- _]. by eapply next_answer_later.
Qed.

(** In a steady world a call that fails is the last that could succeed. *)
Lemma system_call_failed op path w w' e : steady w -> system_call op path w = (w', inr e) -> dead w'.
Proof.
  unfold system_call, next_answer, steady, dead. destruct w as [files [|a script] rest]; cbn.
  - intros _. destruct rest; [|done]. intros [= <- _]. by cbn.
  - intros Ha. apply Forall_cons in Ha as [Ha _]. by destruct a.
Qed.

Lemma dead_fails op path w w' o : dead w -> system_call op path w = (w', o) -> exists e, o = inr e.
Proof.
  intros [Hs [reason Hr]]. unfold system_call, next_answer. rewrite Hs, Hr. intros [= _ <-]. by eexists.
Qed.

Lemma pwrite_loop_later rest script offset data content content' script' o :
  pwrite_loop rest script offset data content = (content', script', o) -> script' `suffix_of` script.
Proof.
  revert offset data content. induction script as [|a script IH]; intros offset [|x data] content;
    cbn [pwrite_loop]; [by intros [= _ <- _]|destruct rest; by intros [= _ <- _]|by intros [= _ <- _]|].
  destruct a as [|n| |reason]; [intros [= _ <- _]; by apply suffix_cons_r| | |intros [= _ <- _]; by apply suffix_cons_r].
  - destruct (n <=? 0); [intros [= _ <- _]; by apply suffix_cons_r|]. intros H. by apply suffix_cons_r, (IH _ _ _ H).
  - intros H. by apply suffix_cons_r, (IH _ _ _ H).
Qed.

Lemma write_at_later handle offset data w w' o : write_at handle offset data w = (w', o) -> later w w'.
Proof.
  unfold write_at. destruct handle as [path|]; [|by intros [= <- _]].
  destruct (pwrite_loop _ _ _ _ _) as [[c script] r] eqn:E. intros [= <- _]. split; [|done]. by eapply pwrite_loop_later.
Qed.

Lemma pread_loop_later rest script offset size content script' o :
  pread_loop rest script offset size content = (script', o) -> script' `suffix_of` script.
Proof.
  revert offset size o. induction script as [|a script IH]; intros offset [|size] o;
    cbn [pread_loop]; [by intros [= <- _]|destruct rest; by intros [= <- _]|by intros [= <- _]|].
  assert (Htr : forall chunk, match chunk with
    | [] => (script, inl [])
    | _ :: _ => let '(script, outcome) := pread_loop rest script (offset + length chunk) (S size - length chunk) content in
        (script, match outcome with inl more => inl (chunk ++ more)%list | inr e => inr e end)
    end = (script', o) -> script' `suffix_of` (a :: script)).
  { intros [|y chunk]; [intros [= <- _]; by apply suffix_cons_r|].
    destruct (pread_loop _ _ _ _ _) as [s r] eqn:E. intros [= <- _]. by apply suffix_cons_r, (IH _ _ _ E). }
  destruct a as [|n| |reason]; [apply Htr|apply Htr| |intros [= <- _]; by apply suffix_cons_r].
  intros H. by apply suffix_cons_r, (IH _ _ _ H).
Qed.

Lemma read_at_later handle offset size w w' o : read_at handle offset size w = (w', o) -> later w w'.
Proof.
  unfold read_at. destruct handle as [path|]; [|by intros [= <- _]].
  destruct (pread_loop _ _ _ _ _) as [script r] eqn:E. intros [= <- _]. split; [|done]. by eapply pread_loop_later.
Qed.

Lemma file_open_later path read write create w w' o : file_open path read write create w = (w', o) -> later w w'.
Proof.
  unfold file_open. do 2 (case_match; [by intros [= <- _]|]).
  destruct (system_call "open" path w) as [w1 [u|e]] eqn:E; apply system_call_later in E; by intros [= <- _].
Qed.

Lemma file_sync_later handle w w' o : file_sync handle w = (w', o) -> later w w'.
Proof. unfold file_sync. destruct handle; [apply system_call_later|by intros [= <- _]]. Qed.

Lemma io_modify_later f w w' o : io_modify f w = (w', o) -> later w w'.
Proof. by intros [= <- _]. Qed.

Lemma io_bind_later {A B} (m : IO A) (f : A -> IO B) w w' o :
  (forall w w' o, m w = (w', o) -> later w w') -> (forall a w w' o, f a w = (w', o) -> later w w') ->
  (m ≫= f) w = (w', o) -> later w w'.
Proof.
  intros Hm Hf. unfold mbind, io_bind. destruct (m w) as [w1 [a|e]] eqn:E; apply Hm in E.
  - intros H. etransitivity; [exact E|]. by eapply Hf.
  - by intros [= <- _].
Qed.

Create HintDb later.
#[export] Hint Resolve system_call_later write_at_later read_at_later file_open_later file_sync_later
  io_modify_later io_bind_later : later.

Lemma atomic_replace_later from to w w' o : atomic_replace from to w = (w', o) -> later w w'.
Proof. apply io_bind_later; eauto with later. Qed.

Lemma remove_file_later path w w' o : remove_file path w = (w', o) -> later w w'.
Proof. apply io_bind_later; eauto with later. Qed.

#[export] Hint Resolve atomic_replace_later remove_file_later : later.
