(* ===== verification/Store.v ===== *)
(** * The append-only store ([src/persistence.cpp])

    The log file: a header, then one frame per record.  A frame carries its
    length, the kind, a sequence number, a checksum of the payload, the payload,
    the running chain digest and a checksum of everything before it.
    [store_open] scans and validates the whole file and truncates an incomplete
    tail; [store_visit] replays the validated records; [store_append] and
    [store_rewrite] write.  Every file operation goes through [FileIo.v], so
    each of them can fail at any point. *)
From stdpp Require Import gmap.
From S2P Require Import Prelude OrdMap Types Graph Codec Digest FileIo Log.
#[local] Open Scope string_scope.
#[local] Open Scope Z_scope.

(** ** The format *)

Definition kStoreMagic : list Z := string_bytes "CABLEARG".
Definition kHeaderBytes : Z := 8 + 4 + 4 + 4 + 4.
Definition kRecordHeaderBytes : Z := 4 + 2 + 2 + 8 + 4 + 4.
Definition kChainBytes : Z := 32.
Definition kRecordTrailerBytes : Z := kChainBytes + 4.
Definition kMinRecordBytes : Z := kRecordHeaderBytes + kRecordTrailerBytes.
Definition kRecordFlagsNone : Z := 0.

(** [valid_record_kind], on the code of a kind. *)
Definition valid_record_kind (code : Z) : option RecordKind.t := enum_cast code.

Definition chain_step (previous header_from_kind payload : list Z) : list Z :=
  sha_finish (sha_update payload (sha_update header_from_kind (sha_update previous sha_reset))).

(** [fill_header]. *)
Definition header_prefix : list Z :=
  (kStoreMagic ++ le_bytes 4 kStoreFormatVersion ++ le_bytes 4 0 ++ le_bytes 4 kHeaderBytes)%list.
Definition file_header : list Z := (header_prefix ++ le_bytes 4 (crc32c header_prefix))%list.

(** The part of a record header that enters the chain: everything from the
    kind on. *)
Definition header_from_kind (kind : RecordKind.t) (sequence : Z) (payload : list Z) : list Z :=
  (le_bytes 2 (enum_code kind) ++ le_bytes 2 kRecordFlagsNone ++ le_bytes 8 sequence
   ++ le_bytes 4 (wrap32 (zlen payload)) ++ le_bytes 4 (crc32c payload))%list.

Definition next_chain (chain : list Z) (kind : RecordKind.t) (sequence : Z) (payload : list Z) : list Z :=
  chain_step chain (header_from_kind kind sequence payload) payload.

(** The frame [Append] and [Rewrite] build, up to the final checksum. *)
Definition frame_body (chain : list Z) (kind : RecordKind.t) (sequence : Z) (payload : list Z) : list Z :=
  (le_bytes 4 (wrap32 (kMinRecordBytes + zlen payload - 4)) ++ header_from_kind kind sequence payload
   ++ payload ++ next_chain chain kind sequence payload)%list.

Definition record_frame (chain : list Z) (kind : RecordKind.t) (sequence : Z) (payload : list Z) : list Z :=
  let body := frame_body chain kind sequence payload in (body ++ le_bytes 4 (crc32c body))%list.

(** ** State *)

Record StoreOptions := mkStoreOptions {
  so_path : string;
  so_max_record_bytes : Z;
  so_max_log_bytes : Z;
  so_max_records_before_compaction : Z;
  so_fsync_on_commit : bool;
  so_recovery_policy : RecoveryPolicy.t;
}.

(** [Store] with its [Impl]. *)
Record Store := mkStore {
  st_file : FileHandle;
  st_write_offset : Z;
  st_valid_end : Z;
  st_next_sequence : Z;
  st_options : StoreOptions;
  st_chain : list Z;
  st_bytes_on_disk : Z;
  st_records_written : Z;
  st_records_loaded : Z;
  st_records_since_rewrite : Z;
  st_rewrite_count : Z;
  st_replayed : bool;
  st_closed : bool;
}.

Definition set_file (file : FileHandle) (s : Store) : Store :=
  mkStore file (st_write_offset s) (st_valid_end s) (st_next_sequence s) (st_options s) (st_chain s)
    (st_bytes_on_disk s) (st_records_written s) (st_records_loaded s) (st_records_since_rewrite s)
    (st_rewrite_count s) (st_replayed s) (st_closed s).

Definition set_replayed (s : Store) : Store :=
  mkStore (st_file s) (st_write_offset s) (st_valid_end s) (st_next_sequence s) (st_options s) (st_chain s)
    (st_bytes_on_disk s) (st_records_written s) (st_records_loaded s) (st_records_since_rewrite s)
    (st_rewrite_count s) true (st_closed s).

Definition should_compact (s : Store) : bool :=
  (so_max_records_before_compaction (st_options s) <=? st_records_since_rewrite s)
  || (so_max_log_bytes (st_options s) <=? st_bytes_on_disk s).

Definition temporary_of (path : string) : string := path +:+ ".tmp".

(** ** The scan *)

(** [ScanStop] of a scan that stopped. *)
Record ScanStop := mkStop {
  stop_tail_incomplete : bool;
  stop_issue : RecoveryIssue.t;
  stop_offset : Z;
  stop_detail : string;
}.

Record ScanPosition := mkPosition { sp_chain : list Z; sp_offset : Z; sp_sequence : Z; sp_loaded : Z }.

Definition torn (offset : Z) (detail : string) : ScanStop := mkStop true RecoveryIssue.TruncatedTail offset detail.
Definition corrupt (offset : Z) (detail : string) : ScanStop :=
  mkStop false RecoveryIssue.CorruptRecordSalvaged offset detail.
Definition chain_break (offset : Z) (detail : string) : ScanStop := mkStop false RecoveryIssue.ChainBreak offset detail.

(** The first of a sequence of checks that stops the scan. *)
Fixpoint first_stop (checks : list (bool * ScanStop)) : option ScanStop :=
  match checks with
  | [] => None
  | (failed, stop) :: rest => if failed : bool then Some stop else first_stop rest
  end.

(** The checks on a record header with [remaining] bytes from its offset. *)
Definition check_header (options : StoreOptions) (remaining : Z) (position : ScanPosition) (header : list Z)
    : option ScanStop :=
  let offset := sp_offset position in
  let frame_bytes := load_at 4 header 0 in
  let flags := load_at 2 header 6 in
  let payload_bytes := load_at 4 header 16 in
  first_stop [
    (remaining <? frame_bytes + 4, torn offset "record extends past the end of the store");
    (frame_bytes <? kMinRecordBytes - 4, corrupt offset "record frame length is too small");
    (negb (flags =? kRecordFlagsNone), corrupt offset "record flags are not understood");
    (bool_decide (valid_record_kind (load_at 2 header 4) = None), corrupt offset "record kind is not understood");
    (negb (payload_bytes + kRecordHeaderBytes + kRecordTrailerBytes =? frame_bytes + 4),
     corrupt offset "record payload length is inconsistent");
    (so_max_record_bytes options <? payload_bytes, corrupt offset "record payload exceeds the configured limit");
    (negb (load_at 8 header 8 =? sp_sequence position), chain_break offset "record sequence is not contiguous")].

(** The payload and the chain digest the record must carry. *)
Definition frame_payload (payload_bytes : Z) (frame : list Z) : list Z :=
  take (Z.to_nat payload_bytes) (drop (Z.to_nat kRecordHeaderBytes) frame).
Definition expected_chain (chain : list Z) (payload_bytes : Z) (frame : list Z) : list Z :=
  chain_step chain (take (Z.to_nat (kRecordHeaderBytes - 4)) (drop 4 frame)) (frame_payload payload_bytes frame).

(** The checks on the whole frame, whose header was read before. *)
Definition check_frame (position : ScanPosition) (header frame : list Z) : option ScanStop :=
  let offset := sp_offset position in
  let payload_bytes := load_at 4 header 16 in
  let crc_offset := kRecordHeaderBytes + payload_bytes + kChainBytes in
  first_stop [
    (negb (load_at 4 frame crc_offset =? crc32c (take (Z.to_nat crc_offset) frame)),
     corrupt offset "record checksum does not match");
    (negb (crc32c (frame_payload payload_bytes frame) =? load_at 4 header 20),
     corrupt offset "record payload checksum does not match");
    (bool_decide (take (Z.to_nat kChainBytes) (drop (Z.to_nat (kRecordHeaderBytes + payload_bytes)) frame)
                  <> expected_chain (sp_chain position) payload_bytes frame),
     chain_break offset "record chain digest does not match")].

Definition advance (position : ScanPosition) (header frame : list Z) : ScanPosition :=
  mkPosition (expected_chain (sp_chain position) (load_at 4 header 16) frame)
    (sp_offset position + (load_at 4 header 0 + 4))
    (wrap64 (sp_sequence position + 1)) (wrap64 (sp_loaded position + 1)).

(** The body of the scan loop: the next position, or why the scan stops. *)
Definition scan_record (file : FileHandle) (options : StoreOptions) (size : Z) (position : ScanPosition)
    : IO (ScanPosition + ScanStop) :=
  let remaining := size - sp_offset position in
  let offset := sp_offset position in
  if remaining <? kRecordHeaderBytes then
    mret (inr (torn offset "trailing bytes shorter than a record header"))
  else
    header ← read_at file offset kRecordHeaderBytes;
    if negb (zlen header =? kRecordHeaderBytes) then mret (inr (torn offset "record header is incomplete"))
    else
      match check_header options remaining position header with
      | Some stop => mret (inr stop)
      | None =>
          let frame_bytes := load_at 4 header 0 + 4 in
          frame ← read_at file offset frame_bytes;
          if negb (zlen frame =? frame_bytes) then mret (inr (torn offset "record body is incomplete"))
          else
            match check_frame position header frame with
            | Some stop => mret (inr stop)
            | None => mret (inl (advance position header frame))
            end
      end.

(** [while (offset < file_size)].  A record takes at least [kMinRecordBytes]
    bytes, so the size of the file is fuel enough ([scan_complete]). *)
Fixpoint scan (fuel : nat) (file : FileHandle) (options : StoreOptions) (size : Z) (position : ScanPosition)
    : IO (ScanPosition * option ScanStop) :=
  if size <=? sp_offset position then mret (position, None)
  else
    match fuel with
    | O => mret (position, None)
    | S fuel =>
        step ← scan_record file options size position;
        match step with
        | inl position => scan fuel file options size position
        | inr stop => mret (position, Some stop)
        end
    end.

(** ** Open *)

Definition report_of_options : RecoveryReport :=
  mkRecoveryReport false false false false kStoreFormatVersion 0 0 0 0 RecoveryIssue.Created 0 "".

(** The fields of the report that an open sets along the way. *)
Definition report_set (opened chain_intact : bool) (version : Z) (issue : RecoveryIssue.t) (detail : string)
    (r : RecoveryReport) : RecoveryReport :=
  mkRecoveryReport opened (rr_created r) (rr_salvaged r) chain_intact version (rr_records_loaded r)
    (rr_records_rejected r) (rr_bytes_loaded r) (rr_bytes_discarded r) issue (rr_issue_offset r) detail.

Definition report_io (e : Error) (r : RecoveryReport) : RecoveryReport :=
  report_set false (rr_chain_intact r) (rr_format_version r) RecoveryIssue.IoFailure (err_message e) r.
Definition report_bad (issue : RecoveryIssue.t) (detail : string) (r : RecoveryReport) : RecoveryReport :=
  report_set false false (rr_format_version r) issue detail r.

(** An open threads the report, which the caller sees also when it fails. *)
Definition OpenIO (A : Type) : Type := RecoveryReport -> World -> World * (RecoveryReport * Outcome A).

#[export] Instance open_ret : MRet OpenIO := fun A a r w => (w, (r, inl a)).
#[export] Instance open_bind : MBind OpenIO := fun A B f m r w =>
  match m r w with
  | (w', (r', inl a)) => f a r' w'
  | (w', (r', inr e)) => (w', (r', inr e))
  end.

Definition open_fail {A} (report : RecoveryReport -> RecoveryReport) (e : Error) : OpenIO A :=
  fun r w => (w, (report r, inr e)).
Definition open_report (f : RecoveryReport -> RecoveryReport) : OpenIO unit := fun r w => (w, (f r, inl tt)).

(** A file operation whose failure sets the report. *)
Definition open_call {A} (report : Error -> RecoveryReport -> RecoveryReport) (io : IO A) : OpenIO A := fun r w =>
  match io w with
  | (w', inl a) => (w', (r, inl a))
  | (w', inr e) => (w', (report e r, inr e))
  end.

Definition keep_report (e : Error) (r : RecoveryReport) : RecoveryReport := r.

(** The checks on the header of an existing file. *)
Definition check_store_header (header : list Z) : OpenIO unit :=
  if negb (zlen header =? kHeaderBytes) || bool_decide (take 8 header <> kStoreMagic) then
    open_fail (report_bad RecoveryIssue.BadHeader "store magic does not match")
      (mkError ErrorCode.CorruptStore "store magic does not match; this is not a cable registry store")
  else if negb (load_at 4 header 20 =? crc32c (take 20 header)) then
    open_fail (report_bad RecoveryIssue.BadHeader "store header checksum does not match")
      (mkError ErrorCode.CorruptStore "store header checksum does not match")
  else
    let format := load_at 4 header 8 in
    if negb (format =? kStoreFormatVersion) then
      let detail := "store format version " +:+ to_dec format +:+ " is not supported" in
      open_fail (report_set false false format RecoveryIssue.UnsupportedVersion detail)
        (mkError ErrorCode.UnsupportedVersion detail)
    else if negb (load_at 4 header 16 =? kHeaderBytes) then
      open_fail (report_bad RecoveryIssue.BadHeader "store header length does not match the format")
        (mkError ErrorCode.CorruptStore "store header length does not match the format")
    else open_report (fun r => report_set (rr_opened r) (rr_chain_intact r) format (rr_issue r) (rr_detail r) r).

Definition start_position : ScanPosition := mkPosition (sha256 []) kHeaderBytes 1 0.

(** What the scan of a file of [size] bytes found. *)
Definition report_scan (size : Z) (position : ScanPosition) (r : RecoveryReport) : RecoveryReport :=
  mkRecoveryReport (rr_opened r) (rr_created r) (rr_salvaged r) (rr_chain_intact r) (rr_format_version r)
    (sp_loaded position) (rr_records_rejected r) (sp_offset position) (size - sp_offset position)
    (rr_issue r) (rr_issue_offset r) (rr_detail r).

Definition report_stop (opened salvaged : bool) (stop : ScanStop) (r : RecoveryReport) : RecoveryReport :=
  mkRecoveryReport opened (rr_created r) salvaged false (rr_format_version r) (rr_records_loaded r) 1
    (rr_bytes_loaded r) (rr_bytes_discarded r) (stop_issue stop) (stop_offset stop) (stop_detail stop).

Definition report_clean (r : RecoveryReport) : RecoveryReport :=
  mkRecoveryReport (rr_opened r) (rr_created r) (rr_salvaged r) true (rr_format_version r) (rr_records_loaded r)
    (rr_records_rejected r) (rr_bytes_loaded r) 0 RecoveryIssue.CleanOpen (rr_issue_offset r) "opened cleanly".

(** What follows the scan: refuse damage the policy does not allow, truncate a
    tail that may go. *)
Definition repair (file : FileHandle) (options : StoreOptions) (position : ScanPosition) (stopped : option ScanStop)
    : OpenIO unit :=
  match stopped with
  | None => open_report report_clean
  | Some stop =>
      let recoverable := stop_tail_incomplete stop
        || bool_decide (so_recovery_policy options = RecoveryPolicy.SalvagePrefix) in
      if negb recoverable then
        open_fail (report_stop false false stop)
          (mkError ErrorCode.CorruptStore
             ("store is damaged at offset " +:+ to_dec (stop_offset stop) +:+ ": " +:+ stop_detail stop))
      else
        _ ← open_report (fun r => report_stop (rr_opened r) true stop r);
        _ ← open_call report_io (file_truncate file (sp_offset position));
        open_call report_io (file_sync file)
  end.

Definition report_over_budget (options : StoreOptions) (position : ScanPosition) (r : RecoveryReport)
    : RecoveryReport :=
  if so_max_log_bytes options <? sp_offset position then
    report_set (rr_opened r) (rr_chain_intact r) (rr_format_version r) (rr_issue r)
      (rr_detail r +:+ "; log is over the configured byte budget") r
  else r.

Definition report_created (r : RecoveryReport) : RecoveryReport :=
  mkRecoveryReport true true (rr_salvaged r) true (rr_format_version r) (rr_records_loaded r) (rr_records_rejected r)
    kHeaderBytes (rr_bytes_discarded r) RecoveryIssue.Created (rr_issue_offset r) "created a new store".

Definition opened_store (file : FileHandle) (options : StoreOptions) (position : ScanPosition) : Store :=
  mkStore file (sp_offset position) (sp_offset position) (sp_sequence position) options (sp_chain position)
    (sp_offset position) 0 (sp_loaded position) 0 0 false false.

(** A new or empty file gets its header. *)
Definition create_store (file : FileHandle) (options : StoreOptions) : OpenIO Store :=
  _ ← open_call keep_report (write_at file 0 file_header);
  _ ← open_call keep_report (file_sync file);
  _ ← open_report report_created;
  mret (opened_store file options start_position).

(** An existing file is scanned, and its tail repaired. *)
Definition load_store (file : FileHandle) (options : StoreOptions) (size : Z) : OpenIO Store :=
  if size <? kHeaderBytes then
    open_fail (report_bad RecoveryIssue.BadHeader "store is shorter than its header")
      (mkError ErrorCode.TruncatedStore
         ("store is " +:+ to_dec size +:+ " bytes, shorter than the " +:+ to_dec kHeaderBytes +:+ " byte header"))
  else
    header ← open_call report_io (read_at file 0 kHeaderBytes);
    _ ← check_store_header header;
    scanned ← open_call report_io (scan (Z.to_nat size) file options size start_position);
    let '(position, stopped) := scanned in
    _ ← open_report (report_scan size position);
    _ ← repair file options position stopped;
    _ ← open_report (report_over_budget options position);
    mret (opened_store file options position).

(** A leftover rewrite target was never committed. *)
Definition remove_temporary (path : string) : IO unit := fun w =>
  if file_exists path w then remove_file path w else (w, inl tt).

(** [Store::Open]. *)
Definition store_open (options : StoreOptions) : World -> World * (RecoveryReport * Outcome Store) := fun w =>
  (if bool_decide (so_path options = "") then
     open_fail id (mkError ErrorCode.InvalidArgument "the store path is empty")
   else if so_max_record_bytes options <? kMinRecordBytes then
     open_fail id (mkError ErrorCode.InvalidArgument
                     ("store max_record_bytes must be at least " +:+ to_dec kMinRecordBytes))
   else if so_max_log_bytes options <? 4 * kHeaderBytes then
     open_fail id (mkError ErrorCode.InvalidArgument "store max_log_bytes is implausibly small")
   else
     _ ← open_call report_io (create_parent_directories (so_path options));
     _ ← open_call report_io (remove_temporary (temporary_of (so_path options)));
     existed ← open_call report_io (io_get (file_exists (so_path options)));
     file ← open_call report_io (file_open (so_path options) true true true);
     size ← open_call report_io (file_size file);
     _ ← open_report (fun r => report_set true true (rr_format_version r) (rr_issue r) (rr_detail r) r);
     if negb existed || (size =? 0) then create_store file options else load_store file options size)
  report_of_options w.

(** ** The methods of an open store *)

(** A method changes the store and the world, and reports success or an error. *)
Record Machine := mkMachine { ma_store : Store; ma_world : World }.

Definition ma_fail {A} (e : Error) (m : Machine) : Machine * Outcome A := (m, inr e).

Definition closed_error : Error := mkError ErrorCode.Closed "the store is closed".

(** The counters after a record of [frame_bytes] bytes was appended. *)
Definition appended (chain : list Z) (frame_bytes : Z) (s : Store) : Store :=
  let offset := st_write_offset s + frame_bytes in
  mkStore (st_file s) offset offset (wrap64 (st_next_sequence s + 1)) (st_options s) chain offset
    (wrap64 (st_records_written s + 1)) (st_records_loaded s) (wrap64 (st_records_since_rewrite s + 1))
    (st_rewrite_count s) (st_replayed s) (st_closed s).

(** [PersistenceFailure] with the message of the error below. *)
Definition persistence_failure (e : Error) : Error := mkError ErrorCode.PersistenceFailure (err_message e).

(** [Store::Append]. *)
Definition store_append (kind : RecordKind.t) (payload : list Z) (m : Machine) : Machine * Outcome unit :=
  let s := ma_store m in
  let options := st_options s in
  if st_closed s then ma_fail closed_error m
  else if negb (st_replayed s) then
    ma_fail (mkError ErrorCode.Internal "the store must be replayed before it is appended to") m
  else if so_max_record_bytes options <? zlen payload then
    ma_fail (mkError ErrorCode.CapacityExceeded
      ("record of " +:+ to_dec (zlen payload) +:+ " bytes exceeds the "
       +:+ to_dec (so_max_record_bytes options) +:+ " byte limit")) m
  else
    match checked_add kRecordHeaderBytes (zlen payload) ≫= fun bytes => checked_add bytes kRecordTrailerBytes with
    | None => ma_fail (mkError ErrorCode.CapacityExceeded "record length overflows") m
    | Some frame_bytes =>
        let sequence := st_next_sequence s in
        let frame := record_frame (st_chain s) kind sequence payload in
        match write_at (st_file s) (st_write_offset s) frame (ma_world m) with
        | (w, inr e) => (mkMachine s w, inr (persistence_failure e))
        | (w, inl _) =>
            let synced := if so_fsync_on_commit options then file_sync (st_file s) w else (w, inl tt) in
            match synced with
            | (w, inr e) => (mkMachine s w, inr (persistence_failure e))
            | (w, inl _) =>
                (mkMachine (appended (next_chain (st_chain s) kind sequence payload) frame_bytes s) w, inl tt)
            end
        end
    end.

(** The loop of [VisitRecords], up to [valid_end], with a visitor that never
    stops: the records visited before the loop ended or failed.  A kind outside
    the enumeration cannot be handed on as a [RecordKind]; the model ends the
    visit there with the error the registry's visitor reports for it. *)
Fixpoint visit_loop (fuel : nat) (file : FileHandle) (offset finish : Z) (w : World)
    : World * (list LogRecord * Outcome unit) :=
  if finish <=? offset then (w, ([], inl tt))
  else
    match fuel with
    | O => (w, ([], inl tt))
    | S fuel =>
        match read_at file offset kRecordHeaderBytes w with
        | (w, inr e) => (w, ([], inr e))
        | (w, inl header) =>
            if negb (zlen header =? kRecordHeaderBytes) then
              (w, ([], inr (mkError ErrorCode.TruncatedStore "validated record header disappeared during replay")))
            else
              let frame_bytes := load_at 4 header 0 + 4 in
              match read_at file offset frame_bytes w with
              | (w, inr e) => (w, ([], inr e))
              | (w, inl frame) =>
                  if negb (zlen frame =? frame_bytes) then
                    (w, ([], inr (mkError ErrorCode.TruncatedStore "validated record disappeared during replay")))
                  else
                    match valid_record_kind (load_at 2 header 4) with
                    | None =>
                        (w, ([], inr (mkError ErrorCode.CorruptStore
                           "the store contains a record kind this version does not understand")))
                    | Some kind =>
                        let '(w, (rest, outcome)) := visit_loop fuel file (offset + frame_bytes) finish w in
                        (w, ((kind, frame_payload (load_at 4 header 16) frame) :: rest, outcome))
                    end
              end
        end
    end.

(** [Store::VisitRecords]. *)
Definition store_visit (m : Machine) : Machine * (list LogRecord * Outcome unit) :=
  let s := ma_store m in
  if st_closed s then (m, ([], inr closed_error))
  else if st_replayed s then (m, ([], inr (mkError ErrorCode.Internal "the store has already been replayed")))
  else
    match visit_loop (Z.to_nat (st_valid_end s)) (st_file s) kHeaderBytes (st_valid_end s) (ma_world m) with
    | (w, (records, inl _)) => (mkMachine (set_replayed s) w, (records, inl tt))
    | (w, (records, inr e)) => (mkMachine s w, (records, inr e))
    end.

(** The loop of [Rewrite] over the records: the offset, chain and sequence
    after the last. *)
Fixpoint write_records (file : FileHandle) (options : StoreOptions) (records : list LogRecord)
    (position : ScanPosition) : IO ScanPosition :=
  match records with
  | [] => mret position
  | (kind, payload) :: rest =>
      if so_max_record_bytes options <? zlen payload then
        io_fail (mkError ErrorCode.CapacityExceeded "rewrite record exceeds the configured record limit")
      else
        match checked_add kRecordHeaderBytes (zlen payload) ≫= fun bytes => checked_add bytes kRecordTrailerBytes with
        | None => io_fail (mkError ErrorCode.CapacityExceeded "rewrite record length overflows")
        | Some frame_bytes =>
            let frame := record_frame (sp_chain position) kind (sp_sequence position) payload in
            _ ← write_at file (sp_offset position) frame;
            write_records file options rest
              (mkPosition (next_chain (sp_chain position) kind (sp_sequence position) payload)
                 (sp_offset position + frame_bytes) (wrap64 (sp_sequence position + 1))
                 (wrap64 (sp_loaded position + 1)))
        end
  end.

(** The new log, complete and flushed in the temporary file. *)
Definition write_temporary (options : StoreOptions) (records : list LogRecord) : IO ScanPosition :=
  let temporary := temporary_of (so_path options) in
  _ ← remove_file temporary;
  file ← file_open temporary false true true;
  _ ← write_at file 0 file_header;
  position ← write_records file options records start_position;
  _ ← file_sync file;
  mret position.

Definition rewritten (file : FileHandle) (position : ScanPosition) (s : Store) : Store :=
  mkStore file (sp_offset position) (sp_offset position) (sp_sequence position) (st_options s) (sp_chain position)
    (sp_offset position) 0 (sp_loaded position) 0 (wrap64 (st_rewrite_count s + 1)) (st_replayed s) (st_closed s).

(** [Store::Rewrite]. *)
Definition store_rewrite (records : list LogRecord) (m : Machine) : Machine * Outcome unit :=
  let s := ma_store m in
  let path := so_path (st_options s) in
  if st_closed s then ma_fail closed_error m
  else if negb (st_replayed s) then
    ma_fail (mkError ErrorCode.Internal "the store must be replayed before it is rewritten") m
  else
    match write_temporary (st_options s) records (ma_world m) with
    | (w, inr e) => (mkMachine s w, inr e)
    | (w, inl position) =>
        let s := set_file None s in
        match atomic_replace (temporary_of path) path w with
        | (w, inr e) =>
            let '(w, _) := remove_file (temporary_of path) w in
            match file_open path true true false w with
            | (w, inl file) => (mkMachine (set_file file s) w, inr e)
            | (w, inr _) => (mkMachine s w, inr e)
            end
        | (w, inl _) =>
            match file_open path true true false w with
            | (w, inr e) => (mkMachine s w, inr e)
            | (w, inl file) => (mkMachine (rewritten file position s) w, inl tt)
            end
        end
    end.

(** [Store::Sync] and [Store::Close]. *)
Definition store_sync (m : Machine) : Machine * Outcome unit :=
  if st_closed (ma_store m) then ma_fail closed_error m
  else let '(w, outcome) := file_sync (st_file (ma_store m)) (ma_world m) in (mkMachine (ma_store m) w, outcome).

Definition store_close (m : Machine) : Machine :=
  let s := ma_store m in
  if st_closed s then m
  else
    mkMachine (mkStore None (st_write_offset s) (st_valid_end s) (st_next_sequence s) (st_options s) (st_chain s)
      (st_bytes_on_disk s) (st_records_written s) (st_records_loaded s) (st_records_since_rewrite s)
      (st_rewrite_count s) (st_replayed s) true) (ma_world m).
