(* ===== verification/StoreFrame.v ===== *)
(** * Frames and the scan, as functions of the bytes

    The framing of [Store.v] without the file system: what the fields of a
    frame load to, which byte strings the scan accepts, and what it does with
    a frame that is torn or damaged.  [scan_step] is the body of the scan loop
    on a file whose bytes are known; [Store.v]'s [scan_record] computes it
    whenever its reads succeed ([StoreOpen.v]). *)
From stdpp Require Import gmap.
From S2P Require Import Prelude OrdMap Types Graph Codec Digest Words FileIo Log Store.
#[local] Open Scope string_scope.
#[local] Open Scope Z_scope.

(** ** Frames *)

Lemma sha_finish_u8 h : Forall is_u8 (sha_finish h).
Proof.
  assert (Hw : forall w, Forall is_u8 (word_bytes w)).
  { intros w. unfold word_bytes. repeat constructor; try (change 255 with (Z.ones 8); rewrite Z.land_ones by lia);
      apply Z.mod_pos_bound; lia. }
  assert (Hd : forall s, Forall is_u8 (digest_of s)) by (intros s; unfold digest_of; by repeat apply Forall_app_2).
  unfold sha_finish. destruct (sha_finalized h); [done|]. destruct (if (56 <? _)%nat then _ else _). done.
Qed.

Lemma next_chain_length chain kind sequence payload : length (next_chain chain kind sequence payload) = 32%nat.
Proof. apply sha_finish_length. Qed.

Lemma header_from_kind_length kind sequence payload : length (header_from_kind kind sequence payload) = 20%nat.
Proof. unfold header_from_kind. by rewrite !length_app, !le_bytes_length. Qed.

Lemma frame_body_length chain kind sequence payload :
  zlen (frame_body chain kind sequence payload) = kMinRecordBytes - 4 + zlen payload.
Proof.
  unfold zlen, frame_body. rewrite !length_app, le_bytes_length, header_from_kind_length, next_chain_length.
  unfold kMinRecordBytes, kRecordHeaderBytes, kRecordTrailerBytes, kChainBytes. lia.
Qed.

Lemma record_frame_length chain kind sequence payload :
  zlen (record_frame chain kind sequence payload) = kMinRecordBytes + zlen payload.
Proof.
  unfold record_frame. rewrite zlen_app, frame_body_length. unfold zlen at 2. rewrite le_bytes_length. lia.
Qed.

Lemma frame_body_u8 chain kind sequence payload :
  Forall is_u8 payload -> Forall is_u8 (frame_body chain kind sequence payload).
Proof.
  intros Hp. unfold frame_body, header_from_kind.
  repeat apply Forall_app_2; try apply le_bytes_u8; [done|apply sha_finish_u8].
Qed.

(** A frame is a codeword of the checksum. *)
Lemma record_frame_codeword chain kind sequence payload :
  Forall is_u8 payload -> crc_update (record_frame chain kind sequence payload) 0xFFFFFFFF = crc_residue.
Proof.
  intros Hp. apply crc_codeword; [by apply frame_body_u8|apply le_bytes_u8|apply le_bytes_length|].
  apply le_word_bytes. pose proof (crc32c_u32 (frame_body chain kind sequence payload)). unfold is_u32 in *. lia.
Qed.

(** The bytes of a frame in order. *)
Definition record_header (kind : RecordKind.t) (sequence : Z) (payload : list Z) : list Z :=
  (le_bytes 4 (wrap32 (kMinRecordBytes + zlen payload - 4)) ++ header_from_kind kind sequence payload)%list.

Lemma record_frame_parts chain kind sequence payload :
  record_frame chain kind sequence payload =
    (record_header kind sequence payload ++ payload ++ next_chain chain kind sequence payload
     ++ le_bytes 4 (crc32c (frame_body chain kind sequence payload)))%list.
Proof. unfold record_frame, frame_body, record_header. by rewrite <- !app_assoc. Qed.

Lemma record_header_length kind sequence payload : length (record_header kind sequence payload) = 24%nat.
Proof. unfold record_header. by rewrite length_app, le_bytes_length, header_from_kind_length. Qed.

(** What the fields of a header load to. *)
Lemma header_frame_bytes kind sequence payload :
  zlen payload + kMinRecordBytes < 2 ^ 32 ->
  load_at 4 (record_header kind sequence payload) 0 = kMinRecordBytes + zlen payload - 4.
Proof.
  intros Hp. pose proof (zlen_nonneg payload). unfold kMinRecordBytes, kRecordHeaderBytes, kRecordTrailerBytes, kChainBytes in *.
  assert (Hs : is_u32 (4 + 2 + 2 + 8 + 4 + 4 + (32 + 4) + zlen payload - 4)) by (unfold is_u32; lia).
  transitivity (le_load (le_bytes 4 (wrap32 (4 + 2 + 2 + 8 + 4 + 4 + (32 + 4) + zlen payload - 4)))); [reflexivity|].
  rewrite wrap32_small by done. apply le_load_bytes. exact Hs.
Qed.

Lemma header_kind kind sequence payload :
  load_at 2 (record_header kind sequence payload) 4 = enum_code kind.
Proof.
  transitivity (le_load (le_bytes 2 (enum_code kind))); [reflexivity|]. apply le_load_bytes.
  pose proof (enum_code_u16 kind). unfold is_u16 in *. lia.
Qed.

Lemma header_flags kind sequence payload : load_at 2 (record_header kind sequence payload) 6 = 0.
Proof. transitivity (le_load (le_bytes 2 0)); reflexivity. Qed.

Lemma header_sequence kind sequence payload :
  is_u64 sequence -> load_at 8 (record_header kind sequence payload) 8 = sequence.
Proof.
  intros Hs. transitivity (le_load (le_bytes 8 sequence)); [reflexivity|]. by apply le_load_bytes.
Qed.

Lemma header_payload_bytes kind sequence payload :
  zlen payload < 2 ^ 32 -> load_at 4 (record_header kind sequence payload) 16 = zlen payload.
Proof.
  intros Hp. pose proof (zlen_nonneg payload). transitivity (le_load (le_bytes 4 (wrap32 (zlen payload)))); [reflexivity|].
  rewrite wrap32_small by (unfold is_u32; lia). by apply le_load_bytes.
Qed.

Lemma header_payload_crc kind sequence payload :
  load_at 4 (record_header kind sequence payload) 20 = crc32c payload.
Proof.
  transitivity (le_load (le_bytes 4 (crc32c payload))); [reflexivity|]. apply le_load_bytes.
  pose proof (crc32c_u32 payload). unfold is_u32 in *. lia.
Qed.

(** ** The scan on known bytes *)

Definition scan_step (options : StoreOptions) (content : list Z) (position : ScanPosition) : ScanPosition + ScanStop :=
  let bytes := drop (Z.to_nat (sp_offset position)) content in
  let remaining := zlen content - sp_offset position in
  if remaining <? kRecordHeaderBytes then
    inr (torn (sp_offset position) "trailing bytes shorter than a record header")
  else
    let header := take (Z.to_nat kRecordHeaderBytes) bytes in
    match check_header options remaining position header with
    | Some stop => inr stop
    | None =>
        let frame := take (Z.to_nat (load_at 4 header 0 + 4)) bytes in
        match check_frame position header frame with
        | Some stop => inr stop
        | None => inl (advance position header frame)
        end
    end.

(** The position after a record. *)
Definition log_step (position : ScanPosition) (record : LogRecord) : ScanPosition :=
  mkPosition (next_chain (sp_chain position) record.1 (sp_sequence position) record.2)
    (sp_offset position + (kMinRecordBytes + zlen record.2))
    (wrap64 (sp_sequence position + 1)) (wrap64 (sp_loaded position + 1)).

Definition position_frame (position : ScanPosition) (record : LogRecord) : list Z :=
  record_frame (sp_chain position) record.1 (sp_sequence position) record.2.

(** Records the reader accepts: within the configured limit. *)
Definition record_fits (options : StoreOptions) (record : LogRecord) : Prop :=
  zlen record.2 <= so_max_record_bytes options.

(** The limit keeps every frame length within 32 bits. *)
Definition sane_options (options : StoreOptions) : Prop := so_max_record_bytes options + kMinRecordBytes < 2 ^ 32.

Lemma first_stop_none checks : Forall (fun check => check.1 = false) checks -> first_stop checks = None.
Proof. induction 1 as [|[[] stop] checks Hc _ IH]; cbn; [done|done|done]. Qed.

Lemma first_stop_passed checks : first_stop checks = None -> Forall (fun check => check.1 = false) checks.
Proof. induction checks as [|[[] stop] checks IH]; cbn; [constructor|done|]. intros H. constructor; auto. Qed.

(** A frame that is all there is accepted. *)
Lemma scan_step_frame options pre record post position :
  sane_options options -> record_fits options record -> is_u64 (sp_sequence position) ->
  zlen pre = sp_offset position ->
  scan_step options (pre ++ position_frame position record ++ post) position = inl (log_step position record).
Proof.
  destruct record as [kind payload]. unfold sane_options, record_fits, position_frame. cbn [fst snd].
  intros Hmax Hfit Hseq Hpre. set (chain := sp_chain position). set (seq := sp_sequence position) in *.
  set (frame := record_frame chain kind seq payload).
  pose proof (zlen_nonneg payload) as Hp0.
  assert (Hbytes : drop (Z.to_nat (sp_offset position)) (pre ++ frame ++ post) = (frame ++ post)%list).
  { rewrite <- Hpre. unfold zlen. rewrite Nat2Z.id. apply drop_app_length. }
  assert (Hrem : zlen (pre ++ frame ++ post) - sp_offset position = zlen frame + zlen post)
    by (rewrite !zlen_app; lia).
  pose proof (record_frame_length chain kind seq payload) as Hlen. fold frame in Hlen.
  pose proof (zlen_nonneg post) as Hpost0.
  unfold scan_step. rewrite Hbytes, Hrem, Hlen.
  assert (Hmin : kMinRecordBytes = 60) by reflexivity.
  rewrite (proj2 (Z.ltb_ge _ kRecordHeaderBytes)) by (unfold kRecordHeaderBytes; lia).
  assert (Hhead : take (Z.to_nat kRecordHeaderBytes) (frame ++ post) = record_header kind seq payload).
  { unfold frame. rewrite record_frame_parts, <- app_assoc.
    apply take_app_length'. by rewrite record_header_length. }
  rewrite Hhead, header_frame_bytes by lia.
  assert (Hcheck : check_header options (kMinRecordBytes + zlen payload + zlen post) position
            (record_header kind seq payload) = None).
  { unfold check_header. apply first_stop_none.
    rewrite header_frame_bytes, header_flags, header_kind, header_payload_bytes, header_sequence by (done || lia).
    repeat constructor; cbn [fst].
    - apply Z.ltb_ge. lia.
    - apply Z.ltb_ge. lia.
    - apply bool_decide_eq_false. unfold valid_record_kind. by rewrite enum_cast_code.
    - apply negb_false_iff, Z.eqb_eq. unfold kMinRecordBytes. lia.
    - apply Z.ltb_ge. lia.
    - apply negb_false_iff, Z.eqb_eq. done. }
  rewrite Hcheck.
  assert (Hframe : take (Z.to_nat (kMinRecordBytes + zlen payload - 4 + 4)) (frame ++ post) = frame).
  { apply take_app_length'. rewrite Z.sub_add, <- Hlen. unfold zlen. by rewrite Nat2Z.id. }
  rewrite Hframe.
  assert (Hpayload : frame_payload (zlen payload) frame = payload).
  { unfold frame_payload, frame. rewrite record_frame_parts.
    rewrite (drop_app_length' (record_header kind seq payload)) by (by rewrite record_header_length).
    unfold zlen. rewrite Nat2Z.id. apply take_app_length. }
  assert (Hchain : expected_chain chain (zlen payload) frame = next_chain chain kind seq payload).
  { unfold expected_chain. rewrite Hpayload. unfold next_chain. by f_equal. }
  assert (Hfc : check_frame position (record_header kind seq payload) frame = None).
  { unfold check_frame. rewrite header_payload_bytes, header_payload_crc by lia. apply first_stop_none.
    assert (Hbody : frame = (frame_body chain kind seq payload ++ le_bytes 4 (crc32c (frame_body chain kind seq payload)) ++ [])%list)
      by (by rewrite app_nil_r).
    assert (Hbl : kRecordHeaderBytes + zlen payload + kChainBytes = zlen (frame_body chain kind seq payload))
      by (rewrite frame_body_length; unfold kMinRecordBytes, kRecordTrailerBytes; lia).
    repeat constructor; cbn [fst].
    - apply negb_false_iff, Z.eqb_eq. rewrite Hbl, Hbody, load_at_app.
      2:{ pose proof (crc32c_u32 (frame_body chain kind seq payload)) as Hu. unfold is_u32 in Hu. lia. }
      unfold zlen. by rewrite Nat2Z.id, take_app_length.
    - apply negb_false_iff, Z.eqb_eq. by rewrite Hpayload.
    - apply bool_decide_eq_false. intros Hne. apply Hne. fold chain. rewrite Hchain. unfold frame. rewrite record_frame_parts.
      rewrite app_assoc, drop_app_length', take_app_length'; [done|by rewrite next_chain_length|].
      rewrite length_app, record_header_length. unfold zlen, kRecordHeaderBytes. lia. }
  rewrite Hfc. f_equal. unfold advance, log_step. cbn [fst snd]. fold chain seq.
  rewrite header_payload_bytes, header_frame_bytes, Hchain by lia. f_equal. lia.
Qed.

(** *** What the scan accepts *)

Lemma load_at_take width n bytes offset :
  0 <= offset -> (Z.to_nat offset + width <= n)%nat -> load_at width (take n bytes) offset = load_at width bytes offset.
Proof.
  intros Ho Hn. unfold load_at. rewrite skipn_firstn_comm, take_take. by replace (width `min` (n - Z.to_nat offset))%nat with width by lia.
Qed.

(** A slice of bytes is the field it loads to. *)
Lemma slice_field width bytes offset :
  Forall is_u8 bytes -> 0 <= offset -> (Z.to_nat offset + width <= length bytes)%nat ->
  take width (drop (Z.to_nat offset) bytes) = le_bytes width (load_at width bytes offset).
Proof.
  intros Hb Ho Hlen. unfold load_at. symmetry.
  assert (Hl : length (take width (drop (Z.to_nat offset) bytes)) = width) by (rewrite length_take, length_drop; lia).
  rewrite <- Hl at 1. apply le_bytes_load. by apply Forall_take, Forall_drop.
Qed.

Lemma load_at_range width bytes offset :
  Forall is_u8 bytes -> 0 <= load_at width bytes offset < 2 ^ (8 * Z.of_nat width).
Proof.
  intros Hb. unfold load_at. set (s := take width _).
  assert (Hs : Forall is_u8 s) by (by apply Forall_take, Forall_drop).
  rewrite le_load_word by done. pose proof (le_word_bound s Hs) as Hw. split; [lia|].
  apply Z.lt_le_trans with (2 ^ (8 * zlen s)); [lia|]. apply Z.pow_le_mono_r; [lia|].
  unfold s, zlen. rewrite length_take. lia.
Qed.

(** The fields of a header, from its slices. *)
Lemma header_slices bytes :
  Forall is_u8 bytes -> (24 <= length bytes)%nat ->
  take 24 bytes =
    (le_bytes 4 (load_at 4 bytes 0) ++ le_bytes 2 (load_at 2 bytes 4) ++ le_bytes 2 (load_at 2 bytes 6)
     ++ le_bytes 8 (load_at 8 bytes 8) ++ le_bytes 4 (load_at 4 bytes 16) ++ le_bytes 4 (load_at 4 bytes 20))%list.
Proof.
  intros Hb Hlen. rewrite <- !slice_field by (done || cbn; lia).
  change (Z.to_nat 0) with 0%nat. change (Z.to_nat 4) with 4%nat. change (Z.to_nat 6) with 6%nat.
  change (Z.to_nat 8) with 8%nat. change (Z.to_nat 16) with 16%nat. change (Z.to_nat 20) with 20%nat.
  do 24 (destruct bytes as [|? bytes]; [cbn in Hlen; lia|]). reflexivity.
Qed.

(** The checks a frame passed, as facts about the bytes from its offset. *)
Record passed (options : StoreOptions) (position : ScanPosition) (bytes : list Z) (kind : RecordKind.t) : Prop := {
  pa_room : load_at 4 bytes 0 + 4 <= zlen bytes;
  pa_kind : load_at 2 bytes 4 = enum_code kind;
  pa_flags : load_at 2 bytes 6 = 0;
  pa_sequence : load_at 8 bytes 8 = sp_sequence position;
  pa_length : load_at 4 bytes 0 + 4 = load_at 4 bytes 16 + kMinRecordBytes;
  pa_limit : load_at 4 bytes 16 <= so_max_record_bytes options;
}.

Lemma check_header_passed options position bytes :
  Forall is_u8 bytes -> (24 <= length bytes)%nat ->
  check_header options (zlen bytes) position (take 24 bytes) = None ->
  exists kind, passed options position bytes kind.
Proof.
  intros Hb Hlen Hcheck. apply first_stop_passed in Hcheck.
  rewrite !load_at_take in Hcheck by (lia || cbn; lia).
  apply Forall_cons in Hcheck as [Hroom Hcheck]. apply Forall_cons in Hcheck as [_ Hcheck].
  apply Forall_cons in Hcheck as [Hflags Hcheck]. apply Forall_cons in Hcheck as [Hkind Hcheck].
  apply Forall_cons in Hcheck as [Hpl Hcheck]. apply Forall_cons in Hcheck as [Hmax Hcheck].
  apply Forall_cons in Hcheck as [Hseq _]. cbn [fst] in *.
  apply bool_decide_eq_false in Hkind. unfold valid_record_kind in Hkind.
  destruct (enum_cast (load_at 2 bytes 4)) as [kind|] eqn:Ek; [|done]. apply enum_code_cast in Ek.
  apply Z.ltb_ge in Hroom, Hmax. apply negb_false_iff, Z.eqb_eq in Hflags, Hpl, Hseq.
  exists kind. split; [done|done|done|done| |done]. rewrite <- Hpl. unfold kMinRecordBytes. lia.
Qed.

(** A frame that passed every check is the frame of its payload. *)
Lemma passed_frame options position bytes kind :
  Forall is_u8 bytes -> passed options position bytes kind ->
  let header := take 24 bytes in
  let frame := take (Z.to_nat (load_at 4 header 0 + 4)) bytes in
  check_frame position header frame = None ->
  exists payload, Forall is_u8 payload /\ zlen payload = load_at 4 bytes 16 /\
    frame = position_frame position (kind, payload) /\
    advance position header frame = log_step position (kind, payload).
Proof.
  intros Hb [Hroom Hkind Hflags Hseq Hpl Hmax] header frame Hcheck.
  assert (Hmin : kMinRecordBytes = 60) by reflexivity.
  pose proof (load_at_range 4 bytes 16 Hb) as Hp0. pose proof (load_at_range 4 bytes 0 Hb) as Hf0.
  set (P := load_at 4 bytes 16) in *. set (F := load_at 4 bytes 0) in *.
  assert (Hlen : (24 <= length bytes)%nat) by (unfold zlen in Hroom; lia).
  assert (EF : load_at 4 header 0 = F) by (unfold header; by rewrite load_at_take by (lia || cbn; lia)).
  assert (EP : load_at 4 header 16 = P) by (unfold header; by rewrite load_at_take by (lia || cbn; lia)).
  assert (EC : load_at 4 header 20 = load_at 4 bytes 20) by (unfold header; by rewrite load_at_take by (lia || cbn; lia)).
  set (n := Z.to_nat P). assert (Efr : frame = take (60 + n) bytes).
  { unfold frame, n. rewrite EF. f_equal. lia. }
  assert (Hflen : length frame = (60 + n)%nat) by (rewrite Efr, length_take; unfold zlen in Hroom; lia).
  assert (Hfu8 : Forall is_u8 frame) by (rewrite Efr; by apply Forall_take).
  set (payload := frame_payload P frame).
  assert (Epay : payload = take n (drop 24 frame)) by reflexivity.
  assert (Hplen : zlen payload = P).
  { rewrite Epay. unfold zlen. rewrite length_take, length_drop, Hflen. unfold n. lia. }
  apply first_stop_passed in Hcheck. rewrite EP, EC in Hcheck. fold payload in Hcheck.
  apply Forall_cons in Hcheck as [Hcrc Hcheck]. apply Forall_cons in Hcheck as [Hpcrc Hcheck].
  apply Forall_cons in Hcheck as [Hchain _]. cbn [fst] in *.
  apply negb_false_iff, Z.eqb_eq in Hcrc, Hpcrc. apply bool_decide_eq_false, dec_stable in Hchain.
  assert (Ehead : take 24 frame = record_header kind (sp_sequence position) payload).
  { rewrite Efr, take_take. replace (24 `min` (60 + n))%nat with 24%nat by lia. rewrite header_slices by done.
    fold F P. rewrite Hkind, Hflags, Hseq, <- Hpcrc. unfold record_header, header_from_kind. rewrite Hplen.
    rewrite !wrap32_small by (unfold is_u32; lia). replace (kMinRecordBytes + P - 4) with F by lia. done. }
  assert (Echain : expected_chain (sp_chain position) P frame = next_chain (sp_chain position) kind (sp_sequence position) payload).
  { unfold expected_chain. fold payload. unfold next_chain. f_equal.
    replace (take (Z.to_nat (kRecordHeaderBytes - 4)) (drop 4 frame)) with (drop 4 (take 24 frame))
      by (rewrite skipn_firstn_comm; reflexivity).
    rewrite Ehead. reflexivity. }
  assert (Ebody : take (56 + n) frame = frame_body (sp_chain position) kind (sp_sequence position) payload).
  { unfold frame_body. rewrite app_assoc. fold (record_header kind (sp_sequence position) payload). rewrite <- Ehead.
    replace (56 + n)%nat with (24 + (n + 32))%nat by lia. rewrite <- (take_take_drop frame 24 (n + 32)). f_equal.
    rewrite <- (take_take_drop (drop 24 frame) n 32). rewrite <- Epay. f_equal.
    rewrite drop_drop. rewrite <- Echain, <- Hchain. f_equal. unfold n, kRecordHeaderBytes, kChainBytes. f_equal. lia. }
  assert (Efull : frame = position_frame position (kind, payload)).
  { unfold position_frame, record_frame. cbn [fst snd]. rewrite <- Ebody.
    assert (Eoff : kRecordHeaderBytes + P + kChainBytes = Z.of_nat (56 + n)) by (unfold n, kRecordHeaderBytes, kChainBytes; lia).
    rewrite Eoff in Hcrc. rewrite Nat2Z.id in Hcrc. rewrite <- Hcrc.
    rewrite <- slice_field by (done || lia). rewrite Nat2Z.id, take_take_drop, take_ge by lia. done. }
  exists payload. split_and!; [by apply Forall_take, Forall_drop|done|done|].
  unfold advance, log_step. rewrite EP, EF, Echain. cbn [fst snd]. f_equal. lia.
Qed.

(** The scan accepts only bytes that [Append] would have written there. *)
Lemma scan_step_sound options content position position' :
  Forall is_u8 content -> 0 <= sp_offset position ->
  scan_step options content position = inl position' ->
  exists record rest, drop (Z.to_nat (sp_offset position)) content = (position_frame position record ++ rest)%list /\
    position' = log_step position record /\ record_fits options record /\ Forall is_u8 record.2.
Proof.
  intros Hu8 Ho. unfold scan_step. set (bytes := drop _ content).
  assert (Hb : Forall is_u8 bytes) by (by apply Forall_drop).
  destruct (Z.ltb_spec (zlen content - sp_offset position) kRecordHeaderBytes) as [|Hrem]; [done|].
  assert (Hzl : zlen bytes = zlen content - sp_offset position).
  { unfold bytes, zlen in *. rewrite length_drop. unfold kRecordHeaderBytes in Hrem. lia. }
  rewrite <- Hzl. destruct (check_header _ _ _ _) as [|] eqn:Ec; [done|].
  apply check_header_passed in Ec as (kind & Hp); [|done|unfold zlen in *; unfold kRecordHeaderBytes in Hrem; lia].
  destruct (check_frame _ _ _) as [|] eqn:Ef; [done|]. intros [= <-].
  pose proof Hp as []. apply (passed_frame options position bytes kind Hb Hp) in Ef as (payload & Hpu8 & Hpl & Hfr & Hadv).
  exists (kind, payload), (drop (Z.to_nat (load_at 4 (take 24 bytes) 0 + 4)) bytes). split_and!.
  - rewrite <- Hfr. symmetry. apply take_drop.
  - exact Hadv.
  - unfold record_fits. cbn [snd]. lia.
  - done.
Qed.

(** *** A frame cut short *)

Lemma scan_step_torn options pre record k position :
  sane_options options -> record_fits options record ->
  zlen pre = sp_offset position -> (0 < k)%nat -> (k < length (position_frame position record))%nat ->
  exists detail, scan_step options (pre ++ take k (position_frame position record)) position
    = inr (torn (sp_offset position) detail).
Proof.
  destruct record as [kind payload]. unfold sane_options, record_fits, position_frame. cbn [fst snd].
  set (frame := record_frame _ _ _ _). intros Hmax Hfit Hpre Hk0 Hk.
  pose proof (zlen_nonneg payload) as Hp0. assert (Hmin : kMinRecordBytes = 60) by reflexivity.
  assert (Hlen : zlen frame = kMinRecordBytes + zlen payload) by apply record_frame_length.
  assert (Hbytes : drop (Z.to_nat (sp_offset position)) (pre ++ take k frame) = take k frame).
  { rewrite <- Hpre. unfold zlen. rewrite Nat2Z.id. apply drop_app_length. }
  assert (Hrem : zlen (pre ++ take k frame) - sp_offset position = Z.of_nat k).
  { rewrite zlen_app. unfold zlen at 2. rewrite length_take. lia. }
  unfold scan_step. rewrite Hbytes, Hrem.
  destruct (Z.ltb_spec (Z.of_nat k) kRecordHeaderBytes) as [|Hge]; [by eexists|]. unfold kRecordHeaderBytes in Hge.
  assert (Hhead : take (Z.to_nat kRecordHeaderBytes) (take k frame) = record_header kind (sp_sequence position) payload).
  { rewrite take_take. replace (Z.to_nat kRecordHeaderBytes `min` k)%nat with 24%nat by (unfold kRecordHeaderBytes; lia).
    unfold frame. rewrite record_frame_parts. apply take_app_length'. by rewrite record_header_length. }
  rewrite Hhead. exists "record extends past the end of the store".
  unfold check_header. rewrite header_frame_bytes by lia. cbn [first_stop].
  assert (Hfl : Z.of_nat (length frame) = 60 + zlen payload) by (rewrite <- Hmin; exact Hlen).
  rewrite (proj2 (Z.ltb_lt _ _)) by lia. done.
Qed.

(** ** Logs *)

Fixpoint frames (position : ScanPosition) (records : list LogRecord) : list Z :=
  match records with
  | [] => []
  | record :: rest => (position_frame position record ++ frames (log_step position record) rest)%list
  end.

Definition position_after (position : ScanPosition) (records : list LogRecord) : ScanPosition :=
  foldl log_step position records.

Lemma frames_app position l1 l2 :
  frames position (l1 ++ l2) = (frames position l1 ++ frames (position_after position l1) l2)%list.
Proof.
  revert position. induction l1 as [|r l1 IH]; intros position; [done|].
  cbn [frames app position_after foldl]. by rewrite IH, <- app_assoc.
Qed.

Lemma position_after_app position l1 l2 :
  position_after position (l1 ++ l2) = position_after (position_after position l1) l2.
Proof. apply foldl_app. Qed.

Lemma position_frame_length position record : zlen (position_frame position record) = kMinRecordBytes + zlen record.2.
Proof. apply record_frame_length. Qed.

Lemma frames_length position records :
  zlen (frames position records) = sp_offset (position_after position records) - sp_offset position.
Proof.
  revert position. induction records as [|r l IH]; intros position; cbn [frames position_after foldl]; [unfold zlen; cbn; lia|].
  rewrite zlen_app, IH, position_frame_length. cbn [log_step sp_offset]. unfold position_after. lia.
Qed.

Lemma position_after_u64 position records :
  is_u64 (sp_sequence position) -> is_u64 (sp_sequence (position_after position records)).
Proof.
  revert position. induction records as [|r l IH]; intros position Hp; [done|]. apply IH. apply wrap64_u64.
Qed.

Lemma start_u64 : is_u64 (sp_sequence start_position).
Proof. by vm_compute. Qed.

Lemma position_frame_u8 position record : Forall is_u8 record.2 -> Forall is_u8 (position_frame position record).
Proof.
  intros Hu. unfold position_frame, record_frame. apply Forall_app_2; [by apply frame_body_u8|apply le_bytes_u8].
Qed.

Lemma frames_u8 position records :
  Forall (fun record => Forall is_u8 record.2) records -> Forall is_u8 (frames position records).
Proof.
  intros Hu. revert position. induction Hu as [|r l Hr _ IH]; intros position; [constructor|].
  cbn [frames]. apply Forall_app_2; [by apply position_frame_u8|apply IH].
Qed.

(** ** Frames determine their records *)

Lemma record_kind_inj (k1 k2 : RecordKind.t) : enum_code k1 = enum_code k2 -> k1 = k2.
Proof. intros E. apply (f_equal (enum_cast (E := RecordKind.t))) in E. rewrite !enum_cast_code in E. by injection E. Qed.

Lemma position_frame_inj options position r1 r2 x y :
  sane_options options -> record_fits options r1 -> record_fits options r2 ->
  (position_frame position r1 ++ x = position_frame position r2 ++ y)%list -> r1 = r2 /\ x = y.
Proof.
  destruct r1 as [k1 p1], r2 as [k2 p2]. unfold sane_options, record_fits, position_frame. cbn [fst snd].
  intros Hs H1 H2 E. assert (kMinRecordBytes = 60) by reflexivity.
  rewrite !record_frame_parts, <- !app_assoc in E.
  apply app_inj_1 in E as [Eh E]; [|by rewrite !record_header_length].
  assert (Ek : k1 = k2) by (apply record_kind_inj; rewrite <- (header_kind k1 (sp_sequence position) p1), Eh; apply header_kind).
  assert (El : zlen p1 = zlen p2).
  { rewrite <- (header_payload_bytes k1 (sp_sequence position) p1), <- (header_payload_bytes k2 (sp_sequence position) p2) by lia.
    by rewrite Eh. }
  apply app_inj_1 in E as [-> E]; [|unfold zlen in El; lia]. subst k2. split; [done|]. by apply app_inv_head in E; apply app_inv_head in E.
Qed.

Lemma frames_inj options position l1 l2 x y :
  sane_options options -> Forall (record_fits options) l1 -> Forall (record_fits options) l2 ->
  zlen (frames position l1) = zlen (frames position l2) ->
  (frames position l1 ++ x = frames position l2 ++ y)%list -> l1 = l2.
Proof.
  intros Hs H1. revert position l2. assert (Hmin : kMinRecordBytes = 60) by reflexivity.
  induction H1 as [|r1 l1 Hr1 _ IH]; intros position l2 H2 Hlen E; destruct H2 as [|r2 l2 Hr2 H2]; [done| | |];
    cbn [frames] in Hlen; rewrite ?zlen_app, ?position_frame_length in Hlen.
  - pose proof (zlen_nonneg r2.2). pose proof (zlen_nonneg (frames (log_step position r2) l2)). rewrite zlen_nil in Hlen. lia.
  - pose proof (zlen_nonneg r1.2). pose proof (zlen_nonneg (frames (log_step position r1) l1)). rewrite zlen_nil in Hlen. lia.
  - cbn [frames] in E. rewrite <- !app_assoc in E. eapply position_frame_inj in E as [-> E]; [|done..].
    f_equal. eapply IH; [done| |exact E]. lia.
Qed.

(** The scan loop on known bytes. *)
Fixpoint scan_bytes (fuel : nat) (options : StoreOptions) (content : list Z) (position : ScanPosition)
    : ScanPosition * option ScanStop :=
  if zlen content <=? sp_offset position then (position, None)
  else
    match fuel with
    | O => (position, None)
    | S fuel =>
        match scan_step options content position with
        | inl position => scan_bytes fuel options content position
        | inr stop => (position, Some stop)
        end
    end.

(** Scanning over whole frames reaches the position behind them. *)
Lemma scan_frames options records pre post position fuel :
  sane_options options -> Forall (record_fits options) records -> is_u64 (sp_sequence position) ->
  zlen pre = sp_offset position -> (length (frames position records) <= fuel)%nat ->
  exists fuel', (fuel <= fuel' + length (frames position records))%nat /\
    scan_bytes fuel options (pre ++ frames position records ++ post) position =
    scan_bytes fuel' options (pre ++ frames position records ++ post) (position_after position records).
Proof.
  intros Hsane Hfits. revert pre position fuel. induction Hfits as [|r l Hr _ IH]; intros pre position fuel Hseq Hpre Hfuel.
  { exists fuel. cbn [frames app]. split; [lia|done]. }
  pose proof (position_frame_length position r) as Hfl. pose proof (zlen_nonneg r.2) as H0.
  assert (Hmin : kMinRecordBytes = 60) by reflexivity.
  cbn [frames] in Hfuel. rewrite length_app in Hfuel. unfold zlen in Hfl at 1.
  destruct fuel as [|fuel]; [lia|]. cbn [frames position_after foldl].
  destruct (IH (pre ++ position_frame position r)%list (log_step position r) fuel) as (fuel' & H2 & H3).
  { apply wrap64_u64. }
  { rewrite zlen_app, position_frame_length. cbn [log_step sp_offset]. lia. }
  { lia. }
  exists fuel'. rewrite length_app. split; [lia|].
  rewrite <- app_assoc in H3. rewrite <- app_assoc.
  cbn [scan_bytes]. rewrite (proj2 (Z.leb_gt _ _)).
  2:{ rewrite !zlen_app, position_frame_length. pose proof (zlen_nonneg (frames (log_step position r) l)).
      pose proof (zlen_nonneg post). lia. }
  rewrite scan_step_frame by done. done.
Qed.

(** The scan of any bytes: what it passed over is a log, and it runs to the end
    of the file unless it stops.  The size of the file is fuel enough. *)
Lemma scan_bytes_sound options content position fuel final stopped :
  Forall is_u8 content -> 0 <= sp_offset position <= zlen content ->
  scan_bytes fuel options content position = (final, stopped) ->
  exists records tail,
    drop (Z.to_nat (sp_offset position)) content = (frames position records ++ tail)%list /\
    final = position_after position records /\ Forall (record_fits options) records /\
    Forall (fun record => Forall is_u8 record.2) records /\
    (stopped = None -> zlen content - sp_offset position <= Z.of_nat fuel -> tail = []).
Proof.
  intros Hu8. revert position. induction fuel as [|fuel IH]; intros position Ho; cbn [scan_bytes];
    destruct (Z.leb_spec (zlen content) (sp_offset position)) as [Hend|Hmore].
  1,3: intros [= <- <-]; exists [], []; cbn [frames app position_after foldl];
    split_and!; [rewrite drop_ge; [done|unfold zlen in *; lia]|done|constructor|constructor|done].
  - intros [= <- <-]. exists [], (drop (Z.to_nat (sp_offset position)) content).
    split_and!; [done|done|constructor|constructor|lia].
  - destruct (scan_step options content position) as [next|stop] eqn:Es.
    + apply scan_step_sound in Es as (r & rest & Hdrop & -> & Hfit & Hru8); [|done|lia]. intros Hscan.
      pose proof (position_frame_length position r) as Hfl. pose proof (zlen_nonneg r.2).
      assert (Hmin : kMinRecordBytes = 60) by reflexivity.
      assert (Hrem : zlen content - sp_offset position = zlen (position_frame position r) + zlen rest).
      { rewrite <- zlen_app, <- Hdrop. unfold zlen. rewrite length_drop. unfold zlen in Ho. lia. }
      pose proof (zlen_nonneg rest).
      apply IH in Hscan as (records & tail & Hd & -> & Hfits & Hus & Hend); [|cbn [log_step sp_offset]; lia].
      exists (r :: records), tail. split_and!.
      * rewrite Hdrop. cbn [frames]. rewrite <- app_assoc. f_equal. rewrite <- Hd. cbn [log_step sp_offset].
        apply (f_equal (drop (length (position_frame position r)))) in Hdrop.
        rewrite drop_app_length, drop_drop in Hdrop. rewrite <- Hdrop. f_equal.
        unfold zlen in Hfl at 1. lia.
      * done.
      * by constructor.
      * by constructor.
      * intros -> Hf. apply Hend; [done|]. cbn [log_step sp_offset]. lia.
    + intros [= <- <-]. exists [], (drop (Z.to_nat (sp_offset position)) content).
      split_and!; [done|done|constructor|constructor|done].
Qed.

(** ** Damage *)

(** Two frames of different lengths differ in both of their length fields, and
    those lie further apart than four bytes. *)
Lemma length_fields_apart position r1 r2 (a w1 w2 b post rest : list Z) options :
  sane_options options -> record_fits options r1 -> record_fits options r2 ->
  position_frame position r1 = (a ++ w1 ++ b)%list -> length w1 = length w2 -> (length w1 <= 4)%nat ->
  ((a ++ w2 ++ b) ++ post = position_frame position r2 ++ rest)%list ->
  zlen r1.2 = zlen r2.2.
Proof.
  unfold sane_options, record_fits. intros Hsane H1 H2 Hfr Hw Hle Heq.
  pose proof (position_frame_length position r1) as Hl1. pose proof (zlen_nonneg r1.2). pose proof (zlen_nonneg r2.2).
  assert (Hmin : kMinRecordBytes = 60) by reflexivity.
  assert (Hfield : forall r tail, take 24 (position_frame position r ++ tail) = record_header r.1 (sp_sequence position) r.2).
  { intros r tail. unfold position_frame. rewrite record_frame_parts, <- app_assoc. apply take_app_length'.
    by rewrite record_header_length. }
  pose proof (Hfield r1 []) as F1. rewrite app_nil_r, Hfr in F1. pose proof (Hfield r2 rest) as F2. rewrite <- Heq in F2.
  assert (Hlen : (60 <= length (a ++ w1 ++ b))%nat) by (rewrite Hfr in Hl1; unfold zlen in Hl1 at 1; lia).
  rewrite !length_app in Hlen.
  destruct (Nat.lt_ge_cases (length a) 4) as [Hshort|Hlong].
  - (* the window ends before the payload length *)
    assert (Hsame : load_at 4 (take 24 (a ++ w1 ++ b)) 16 = load_at 4 (take 24 ((a ++ w2 ++ b) ++ post)) 16).
    { rewrite !load_at_take by (lia || cbn; lia). unfold load_at. f_equal. change (Z.to_nat 16) with 16%nat.
      rewrite <- !app_assoc. rewrite !(drop_app_ge a) by lia. rewrite (drop_app_ge w1), (drop_app_ge w2) by lia.
      rewrite <- Hw, (drop_app_le b), take_app_le; [done|rewrite length_drop; lia|lia]. }
    rewrite F1, F2, !header_payload_bytes in Hsame by lia. done.
  - (* the window starts behind the frame length *)
    assert (Hsame : load_at 4 (take 24 (a ++ w1 ++ b)) 0 = load_at 4 (take 24 ((a ++ w2 ++ b) ++ post)) 0).
    { rewrite !load_at_take by (lia || cbn; lia). unfold load_at. f_equal. change (Z.to_nat 0) with 0%nat.
      rewrite !drop_0, <- !app_assoc. by rewrite !take_app_le by lia. }
    rewrite F1, F2, !header_frame_bytes in Hsame by lia. lia.
Qed.

(** Changing at most four neighbouring bytes of a frame is always noticed. *)
Lemma burst_detected options pre record a w1 w2 b post position next :
  sane_options options -> record_fits options record -> Forall is_u8 record.2 -> Forall is_u8 pre -> Forall is_u8 post ->
  Forall is_u8 w2 -> zlen pre = sp_offset position ->
  position_frame position record = (a ++ w1 ++ b)%list -> length w1 = length w2 -> (length w1 <= 4)%nat -> w1 <> w2 ->
  scan_step options (pre ++ (a ++ w2 ++ b) ++ post) position <> inl next.
Proof.
  intros Hsane Hfit Hu8 Hpu Hqu Hwu Hpre Hfr Hw Hle Hne Hscan. apply Hne.
  pose proof (position_frame_u8 position record Hu8) as Hfu.
  rewrite Hfr in Hfu. apply Forall_app in Hfu as [Ha [Hw1 Hb]%Forall_app].
  apply scan_step_sound in Hscan as (r & rest & Hdrop & _ & Hrfit & Hru8).
  2:{ by repeat apply Forall_app_2. }
  2:{ rewrite <- Hpre. apply zlen_nonneg. }
  assert (Hd : drop (Z.to_nat (sp_offset position)) (pre ++ (a ++ w2 ++ b) ++ post) = ((a ++ w2 ++ b) ++ post)%list).
  { rewrite <- Hpre. unfold zlen. rewrite Nat2Z.id. apply drop_app_length. }
  rewrite Hd in Hdrop.
  assert (Hlen : zlen record.2 = zlen r.2) by (by eapply length_fields_apart).
  assert (Hcut : (a ++ w2 ++ b)%list = position_frame position r).
  { apply (f_equal (take (length (a ++ w1 ++ b)))) in Hdrop.
    rewrite take_app_length' in Hdrop by (rewrite !length_app; lia).
    rewrite take_app_length' in Hdrop; [done|]. rewrite <- Hfr.
    pose proof (position_frame_length position record) as E1. pose proof (position_frame_length position r) as E2.
    unfold zlen in E1 at 1, E2 at 1. lia. }
  pose proof (record_frame_codeword (sp_chain position) record.1 (sp_sequence position) record.2 Hu8) as C1.
  pose proof (record_frame_codeword (sp_chain position) r.1 (sp_sequence position) r.2 Hru8) as C2.
  fold (position_frame position record) in C1. fold (position_frame position r) in C2.
  rewrite Hfr in C1. rewrite <- Hcut in C2. 
  refine (crc_burst a w1 w2 b _ _ Ha Hw1 Hwu Hb Hw Hle (eq_trans C1 (eq_sym C2))). unfold is_u32. lia.
Qed.
