(* ===== verification/StoreOpen.v ===== *)
(** * Opening a store

    What [store_open] of [Store.v] does on a file: whatever bytes it finds,
    a store it returns stands at the end of a log, byte for byte as [Append]
    would have written it; a log that is all there, or all there but for a torn
    last frame, is always opened. *)
From stdpp Require Import gmap.
From S2P Require Import Prelude OrdMap Types Graph Codec Digest FileIo Log Store StoreFrame.
#[local] Open Scope string_scope.
#[local] Open Scope Z_scope.

(** ** Reading computations *)

(** In the world [w] the computation leaves the files alone, and returns [a] or
    an error; when every call succeeds it returns [a]. *)
Definition computes {A} (io : IO A) (w : World) (a : A) : Prop :=
  exists w' o, io w = (w', o) /\ w_files w' = w_files w /\ (o = inl a \/ exists e, o = inr e) /\
    (reliable w -> w' = w /\ o = inl a).

Lemma computes_ret {A} w (a : A) : computes (mret a) w a.
Proof. exists w, (inl a). by split_and!; [| |left|]. Qed.

Lemma computes_bind {A B} (m : IO A) (f : A -> IO B) w a b :
  computes m w a -> (forall w', w_files w' = w_files w -> computes (f a) w' b) -> computes (m ≫= f) w b.
Proof.
  intros (w1 & o & Hm & Hf & Ho & Hr) Hk. unfold computes, mbind, io_bind. rewrite Hm.
  destruct Ho as [-> |[e ->]].
  - destruct (Hk w1 Hf) as (w2 & o2 & Hm2 & Hf2 & Ho2 & Hr2). exists w2, o2. split_and!; [done|by rewrite Hf2|done|].
    intros Hw. destruct (Hr Hw) as [-> _]. by apply Hr2.
  - exists w1, (inr e). split_and!; [done|done|by right; exists e|]. intros Hw. by destruct (Hr Hw).
Qed.

Lemma computes_read path offset size w :
  computes (read_at (Some path) offset size) w (take (Z.to_nat size) (drop (Z.to_nat offset) (content_of path w))).
Proof.
  destruct (read_at (Some path) offset size w) as [w' o] eqn:E. exists w', o.
  destruct (read_at_spec _ _ _ _ _ _ E) as [Hf Ho]. split_and!; [done|done| |].
  - destruct o as [bytes|e]; [left; by rewrite (Ho bytes)|right; by exists e].
  - intros Hw. rewrite read_at_reliable in E by done. by injection E as <- <-.
Qed.

Lemma content_of_files path w w' : w_files w' = w_files w -> content_of path w' = content_of path w.
Proof. intros Hf. unfold content_of. by rewrite Hf. Qed.

(** The scan of a file is the scan of its bytes. *)
Lemma scan_record_computes path options position w :
  0 <= sp_offset position ->
  computes (scan_record (Some path) options (zlen (content_of path w)) position) w
    (scan_step options (content_of path w) position).
Proof.
  intros Ho. set (content := content_of path w). unfold scan_record, scan_step.
  set (bytes := drop (Z.to_nat (sp_offset position)) content).
  destruct (Z.ltb_spec (zlen content - sp_offset position) kRecordHeaderBytes) as [|Hrem]; [apply computes_ret|].
  assert (Hzl : zlen bytes = zlen content - sp_offset position).
  { unfold bytes, zlen in *. rewrite length_drop. unfold kRecordHeaderBytes in Hrem. lia. }
  eapply computes_bind; [apply computes_read|]. intros w1 Hf1. fold content bytes.
  assert (Hhl : zlen (take (Z.to_nat kRecordHeaderBytes) bytes) = kRecordHeaderBytes).
  { unfold zlen in *. rewrite length_take. unfold kRecordHeaderBytes in *. lia. }
  rewrite Hhl, Z.eqb_refl. cbn [negb].
  destruct (check_header _ _ _ _) as [|] eqn:Ec; [apply computes_ret|].
  apply first_stop_passed in Ec. apply Forall_cons in Ec as [Hroom Ec]. apply Forall_cons in Ec as [Hsmall _].
  cbn [fst] in *. apply Z.ltb_ge in Hroom, Hsmall. set (F := load_at 4 _ 0) in *.
  assert (Hmin : kMinRecordBytes = 60) by reflexivity.
  eapply computes_bind; [apply computes_read|]. intros w2 Hf2. rewrite (content_of_files path w w1) by done.
  fold content bytes.
  assert (Hfl : zlen (take (Z.to_nat (F + 4)) bytes) = F + 4).
  { unfold zlen in *. rewrite length_take. lia. }
  rewrite Hfl, Z.eqb_refl. cbn [negb]. destruct (check_frame _ _ _); apply computes_ret.
Qed.

Lemma scan_computes fuel path options position w :
  0 <= sp_offset position ->
  computes (scan fuel (Some path) options (zlen (content_of path w)) position) w
    (scan_bytes fuel options (content_of path w) position).
Proof.
  revert position w. induction fuel as [|fuel IH]; intros position w Ho; cbn [scan scan_bytes];
    destruct (zlen (content_of path w) <=? sp_offset position); try apply computes_ret.
  eapply computes_bind; [by apply scan_record_computes|]. intros w' Hf.
  destruct (scan_step options (content_of path w) position) as [next|stop] eqn:Es; [|apply computes_ret].
  rewrite <- !(content_of_files path w w') by done. apply IH.
  unfold scan_step in Es. repeat case_match; try done. injection Es as <-. unfold advance. cbn [sp_offset].
  apply first_stop_passed in H0. apply Forall_cons in H0 as [_ Hs]. apply Forall_cons in Hs as [Hs _].
  cbn [fst] in Hs. apply Z.ltb_ge in Hs. assert (kMinRecordBytes = 60) by reflexivity. lia.
Qed.

(** ** Inversion of the steps of an open *)

Lemma open_bind_inv {A B} (m : OpenIO A) (f : A -> OpenIO B) r w w' r' b :
  (m ≫= f) r w = (w', (r', inl b)) ->
  exists a r1 w1, m r w = (w1, (r1, inl a)) /\ f a r1 w1 = (w', (r', inl b)).
Proof.
  unfold mbind, open_bind. destruct (m r w) as [w1 [r1 [a|e]]]; [|done]. intros H. by exists a, r1, w1.
Qed.

Lemma open_call_inv {A} report (io : IO A) r w w' r' a :
  open_call report io r w = (w', (r', inl a)) -> io w = (w', inl a) /\ r' = r.
Proof. unfold open_call. destruct (io w) as [w1 [x|e]]; [|done]. by intros [= <- <- <-]. Qed.

Lemma open_report_inv f r w w' r' a : open_report f r w = (w', (r', inl a)) -> w' = w /\ r' = f r.
Proof. by intros [= <- <- _]. Qed.

Ltac open_step H :=
  let a := fresh "a" in let r1 := fresh "r" in let w1 := fresh "w" in let H1 := fresh "Hs" in
  apply open_bind_inv in H as (a & r1 & w1 & H1 & H).

Lemma computes_inv {A} (io : IO A) w a w' b :
  computes io w a -> io w = (w', inl b) -> b = a /\ w_files w' = w_files w.
Proof.
  intros (w1 & o & Hio & Hf & Ho & _) E. rewrite Hio in E. injection E as -> ->.
  split; [|done]. destruct Ho as [[= ->]|[e ?]]; done.
Qed.

(** ** The file header *)

Record header_ok (h : list Z) : Prop := {
  ho_length : length h = 24%nat;
  ho_magic : take 8 h = kStoreMagic;
  ho_crc : load_at 4 h 20 = crc32c (take 20 h);
  ho_version : load_at 4 h 8 = kStoreFormatVersion;
  ho_bytes : load_at 4 h 16 = kHeaderBytes;
}.

Lemma file_header_ok : header_ok file_header.
Proof. split; vm_compute; reflexivity. Qed.

Definition report_version (h : list Z) (r : RecoveryReport) : RecoveryReport :=
  report_set (rr_opened r) (rr_chain_intact r) (load_at 4 h 8) (rr_issue r) (rr_detail r) r.

Lemma check_store_header_ok h r w :
  header_ok h -> check_store_header h r w = (w, (report_version h r, inl tt)).
Proof.
  intros [Hl Hm Hc Hv Hb]. unfold check_store_header.
  assert (Hz : zlen h = kHeaderBytes) by (unfold zlen; by rewrite Hl).
  rewrite Hz, Hm, Hc, Hv, Hb, !Z.eqb_refl. cbn [negb orb]. rewrite bool_decide_false by (intros Hne; by apply Hne).
  unfold report_version. by rewrite Hv.
Qed.

Lemma check_store_header_inv h r w w' r' u :
  check_store_header h r w = (w', (r', inl u)) -> header_ok h /\ w' = w.
Proof.
  unfold check_store_header, open_fail, open_report.
  destruct (Z.eqb_spec (zlen h) kHeaderBytes) as [Hl|]; cbn [negb orb]; [|done].
  destruct (bool_decide_reflect (take 8 h <> kStoreMagic)) as [|Hm]; [done|]. apply dec_stable in Hm.
  destruct (Z.eqb_spec (load_at 4 h 20) (crc32c (take 20 h))); cbn [negb]; [|done].
  destruct (Z.eqb_spec (load_at 4 h 8) kStoreFormatVersion); cbn [negb]; [|done].
  destruct (Z.eqb_spec (load_at 4 h 16) kHeaderBytes); cbn [negb]; [|done].
  intros [= <- _ _]. split; [|done]. split; [|done..]. unfold zlen, kHeaderBytes in Hl. lia.
Qed.

(** ** The file after an open *)

(** A file is a log of some records behind an accepted header. *)
Definition log_file (h : list Z) (records : list LogRecord) : list Z := (h ++ frames start_position records)%list.

Definition records_ok (options : StoreOptions) (records : list LogRecord) : Prop :=
  Forall (record_fits options) records.

Lemma log_file_length h records :
  header_ok h -> zlen (log_file h records) = sp_offset (position_after start_position records).
Proof.
  intros [Hl _ _ _ _]. unfold log_file. rewrite zlen_app, frames_length.
  assert (zlen h = 24) as -> by (unfold zlen; by rewrite Hl).
  assert (sp_offset start_position = 24) as -> by reflexivity. lia.
Qed.

(** Truncation at the end of the log leaves the log. *)
Lemma file_truncate_inv path size w w' u :
  0 <= size <= zlen (content_of path w) ->
  file_truncate (Some path) size w = (w', inl u) ->
  w_files w' = <[path := take (Z.to_nat size) (content_of path w)]> (w_files w).
Proof.
  intros Hs. unfold file_truncate, mbind, io_bind. destruct (system_call "ftruncate" "" w) as [w1 [x|e]] eqn:E; [|done].
  apply system_call_files in E. intros [= <- _]. cbn [set_files w_files io_modify].
  rewrite (content_of_files path w w1), E by done. f_equal. apply overlay_nil.
  rewrite length_take. unfold zlen in Hs. lia.
Qed.

Lemma file_sync_inv handle w w' o : file_sync handle w = (w', o) -> w_files w' = w_files w.
Proof. destruct handle; [apply system_call_files|]. by intros [= <- _]. Qed.

Lemma content_of_insert path c w (files : gmap string (list Z)) :
  w_files w = <[path := c]> files -> content_of path w = c.
Proof. intros Hf. unfold content_of. by rewrite Hf, lookup_insert_eq. Qed.

(** The scan of a file passes over exactly these records. *)
Definition scan_reaches (options : StoreOptions) (content : list Z) (records : list LogRecord) : Prop :=
  exists stopped, scan_bytes (Z.to_nat (zlen content)) options content start_position =
    (position_after start_position records, stopped).

(** What a load of arbitrary bytes returns. *)
Record loaded (path : string) (options : StoreOptions) (w w' : World) (s : Store) (h : list Z)
    (records : list LogRecord) (tail : list Z) : Prop := {
  ld_header : header_ok h;
  ld_records : records_ok options records;
  ld_before : content_of path w = (log_file h records ++ tail)%list;
  ld_after : content_of path w' = log_file h records;
  ld_others : forall p, p <> path -> w_files w' !! p = w_files w !! p;
  ld_store : s = opened_store (Some path) options (position_after start_position records);
  ld_scan : scan_reaches options (content_of path w) records;
}.

Lemma repair_inv path options position stopped r w w' r' u :
  0 <= sp_offset position <= zlen (content_of path w) ->
  (stopped = None -> sp_offset position = zlen (content_of path w)) ->
  repair (Some path) options position stopped r w = (w', (r', inl u)) ->
  content_of path w' = take (Z.to_nat (sp_offset position)) (content_of path w) /\
  (forall p, p <> path -> w_files w' !! p = w_files w !! p).
Proof.
  intros Ho Hnone. destruct stopped as [stop|]; cbn [repair].
  - destruct (negb _); [done|]. intros H. open_step H. apply open_report_inv in Hs as [-> ->].
    open_step H. apply open_call_inv in Hs as [Ht ->]. apply open_call_inv in H as [Hsync ->].
    apply file_truncate_inv in Ht; [|done]. apply file_sync_inv in Hsync. split.
    + apply (content_of_insert path _ _ (w_files w)). by rewrite Hsync.
    + intros p Hp. rewrite Hsync, Ht. by apply lookup_insert_ne.
  - intros H. apply open_report_inv in H as [-> _]. split; [|done]. rewrite Hnone by done. symmetry. apply take_ge.
    unfold zlen. lia.
Qed.

Lemma load_store_sound path options r w w' r' s :
  Forall is_u8 (content_of path w) ->
  load_store (Some path) options (zlen (content_of path w)) r w = (w', (r', inl s)) ->
  exists h records tail, loaded path options w w' s h records tail.
Proof.
  intros Hu8. set (content := content_of path w) in *. unfold load_store.
  destruct (Z.ltb_spec (zlen content) kHeaderBytes) as [|Hlen]; [done|]. intros H.
  open_step H. apply open_call_inv in Hs as [Hread ->].
  destruct (computes_inv _ _ _ _ _ (computes_read path 0 kHeaderBytes w) Hread) as [Ea Hf]. fold content in Ea.
  open_step H. apply check_store_header_inv in Hs as [Hh ->].
  open_step H. apply open_call_inv in Hs as [Hscan ->].
  assert (Hc1 : content_of path w0 = content) by (by apply content_of_files).
  pose proof (scan_computes (Z.to_nat (zlen content)) path options start_position w0 ltac:(done)) as Hcomp.
  rewrite Hc1 in Hcomp. destruct (computes_inv _ _ _ _ _ Hcomp Hscan) as [-> Hf2]. clear Hcomp.
  destruct (scan_bytes _ options content start_position) as [final stopped] eqn:Eb.
  pose proof Eb as Eb'.
  apply scan_bytes_sound in Eb as (records & tail & Hdrop & -> & Hfits & Hus & Hend); [|done|done].
  open_step H. apply open_report_inv in Hs as [-> ->]. open_step H.
  open_step H. apply open_report_inv in Hs0 as [-> ->]. injection H as <- <- <-.
  assert (Hsplit : content = (log_file a records ++ tail)%list).
  { unfold log_file. rewrite <- app_assoc, <- Hdrop, Ea. symmetry. apply take_drop. }
  assert (Hoff : sp_offset (position_after start_position records) = zlen (log_file a records))
    by (by rewrite log_file_length).
  assert (Hc2 : content_of path w1 = content) by (rewrite <- Hc1; by apply content_of_files).
  exists a, records, tail. apply repair_inv in Hs as [Hafter Hothers].
  - split; [done|done|done| | |done|by exists stopped].
    + rewrite Hafter, Hc2, Hoff, Hsplit. unfold zlen. rewrite Nat2Z.id. apply take_app_length.
    + intros p Hp. rewrite Hothers, Hf2, Hf by done. done.
  - rewrite Hc2, Hoff, Hsplit, zlen_app. pose proof (zlen_nonneg tail). pose proof (zlen_nonneg (log_file a records)). lia.
  - intros ->. rewrite Hc2, Hoff, Hsplit, Hend; [by rewrite app_nil_r|done|].
    assert (sp_offset start_position = 24) as -> by done. pose proof (zlen_nonneg content). lia.
Qed.

(** ** The whole open *)

Lemma temporary_ne path : temporary_of path <> path.
Proof.
  unfold temporary_of. intros H. apply (f_equal String.length) in H.
  assert (Hl : forall a b, String.length (a +:+ b) = (String.length a + String.length b)%nat).
  { intros a b. induction a as [|c a IH]; [done|]. exact (f_equal S IH). }
  rewrite Hl in H. cbn in H. lia.
Qed.

(** A store stands at the end of the log its file holds. *)
Record opens (options : StoreOptions) (w' : World) (s : Store) (h : list Z) (records : list LogRecord) : Prop := {
  os_header : header_ok h;
  os_records : records_ok options records;
  os_file : w_files w' !! so_path options = Some (log_file h records);
  os_store : s = opened_store (Some (so_path options)) options (position_after start_position records);
}.

Lemma content_of_some path w c : content_of path w = c -> c <> [] -> w_files w !! path = Some c.
Proof. unfold content_of. destruct (w_files w !! path); cbn; [by intros ->|by intros <-]. Qed.

Lemma log_file_nonempty h records : header_ok h -> log_file h records <> [].
Proof. intros [Hl _ _ _ _] E. unfold log_file in E. destruct h; [done|by apply app_eq_nil in E as [? _]]. Qed.

Lemma write_at_files path offset data w w' :
  0 <= offset <= zlen (content_of path w) ->
  write_at (Some path) offset data w = (w', inl tt) ->
  w_files w' = <[path := overlay (Z.to_nat offset) data (content_of path w)]> (w_files w).
Proof.
  intros Ho Hw. apply write_at_spec in Hw as (k & Hf & Hk); [|done]. by rewrite Hk in Hf.
Qed.

Lemma create_store_sound path options r w w' r' s :
  so_path options = path -> content_of path w = [] ->
  create_store (Some path) options r w = (w', (r', inl s)) ->
  opens options w' s file_header [] /\ rr_created r' = true.
Proof.
  intros Hp Hempty H. unfold create_store in H. open_step H. apply open_call_inv in Hs as [Hw ->].
  open_step H. apply open_call_inv in Hs as [Hsync ->]. open_step H. apply open_report_inv in Hs as [-> ->].
  injection H as <- <- <-. split; [|done].
  destruct a. apply write_at_files in Hw; [|rewrite Hempty; by vm_compute]. rewrite Hempty in Hw.
  apply file_sync_inv in Hsync.
  split; [apply file_header_ok|constructor| |by rewrite Hp].
  rewrite Hsync, Hw, Hp, lookup_insert_eq. unfold log_file, overlay. cbn [frames]. rewrite take_nil, drop_nil. done.
Qed.

Lemma file_open_inv path read write create w w' f :
  file_open path read write create w = (w', inl f) ->
  f = Some path /\ w_files w' = <[path := content_of path w]> (w_files w) /\ content_of path w' = content_of path w.
Proof.
  unfold file_open. destruct (negb read && negb write); [done|]. destruct (negb create && _); [done|].
  destruct (system_call "open" path w) as [w1 [u|e]] eqn:E; [|done]. apply system_call_files in E.
  intros [= <- <-]. cbn [set_files w_files]. rewrite E, (content_of_files path w w1) by done.
  split_and!; [done|done|]. unfold content_of. cbn [w_files set_files]. by rewrite lookup_insert_eq.
Qed.

Lemma file_size_inv path w w' n :
  file_size (Some path) w = (w', inl n) -> n = zlen (content_of path w) /\ w_files w' = w_files w.
Proof.
  unfold file_size, mbind, io_bind. destruct (system_call "fstat" "" w) as [w1 [u|e]] eqn:E; [|done].
  apply system_call_files in E. intros [= <- <-]. by rewrite (content_of_files path w w1) by done.
Qed.

Lemma remove_file_inv path w w' o :
  remove_file path w = (w', o) -> w_files w' = w_files w \/ w_files w' = delete path (w_files w).
Proof.
  unfold remove_file, mbind, io_bind. destruct (system_call "remove" path w) as [w1 [u|e]] eqn:E;
    apply system_call_files in E; intros [= <- _]; [right|left]; [cbn; by rewrite E|done].
Qed.

Lemma content_of_delete path path' w w' :
  path <> path' -> w_files w' = w_files w \/ w_files w' = delete path' (w_files w) ->
  content_of path w' = content_of path w.
Proof. intros Hne [Hf|Hf]; unfold content_of; rewrite Hf; [done|]. by rewrite lookup_delete_ne. Qed.

(** Whatever the file held, a store that opens stands at the end of a log: the
    file is now exactly that log, the log is a prefix of what the file held, and
    the file was created only if it held nothing. *)
Lemma store_open_sound options w w' r' s :
  Forall is_u8 (content_of (so_path options) w) ->
  store_open options w = (w', (r', inl s)) ->
  exists h records tail, opens options w' s h records /\
    (content_of (so_path options) w = (log_file h records ++ tail)%list /\
       scan_reaches options (content_of (so_path options) w) records \/
     content_of (so_path options) w = [] /\ records = [] /\ rr_created r' = true).
Proof.
  intros Hu8. unfold store_open. set (path := so_path options) in *. cbv beta.
  destruct (bool_decide _); [done|]. destruct (_ <? kMinRecordBytes); [done|]. destruct (_ <? _); [done|]. intros H.
  open_step H. apply open_call_inv in Hs as [Hd ->].
  assert (Hc0 : w_files w0 = w_files w).
  { unfold create_parent_directories in Hd. destruct (split_parent path); [|by injection Hd as <- _].
    destruct (next_answer w) as [wx o] eqn:E. apply next_answer_files in E. by injection Hd as <- _. }
  open_step H. apply open_call_inv in Hs as [Ht ->].
  assert (Hc1 : content_of path w1 = content_of path w).
  { rewrite <- (content_of_files path w w0) by done. apply (content_of_delete _ (temporary_of path)).
    { apply not_eq_sym, temporary_ne. }
    unfold remove_temporary in Ht. destruct (file_exists _ w0); [by apply remove_file_inv in Ht|].
    injection Ht as <- _. by left. }
  open_step H. apply open_call_inv in Hs as [He ->]. injection He as <- <-.
  open_step H. apply open_call_inv in Hs as [Ho ->]. apply file_open_inv in Ho as (-> & Hf2 & Hc2).
  open_step H. apply open_call_inv in Hs as [Hz ->]. apply file_size_inv in Hz as [-> Hf3].
  assert (Hc3 : content_of path w3 = content_of path w) by (rewrite (content_of_files path w2 w3) by done; by rewrite Hc2).
  rewrite Hc2, Hc1 in H.
  open_step H. apply open_report_inv in Hs as [-> ->].
  destruct (negb _ || _) eqn:Ec.
  - assert (Hempty : content_of path w = []).
    { apply orb_true_iff in Ec as [Ec|Ec].
      - apply negb_true_iff, bool_decide_eq_false in Ec. rewrite <- Hc1. unfold content_of.
        destruct (w_files w1 !! path); [destruct Ec; by eexists|done].
      - apply Z.eqb_eq in Ec. unfold zlen in Ec. destruct (content_of path w); [done|cbn in Ec; lia]. }
    apply create_store_sound in H as [Hop Hcr]; [|done|by rewrite Hc3].
    exists file_header, [], []. split; [done|right; done].
  - rewrite <- Hc3 in H. apply load_store_sound in H as (h & records & tail & [Hh Hr Hb Ha _ Hst Hscan]); [|by rewrite Hc3].
    exists h, records, tail. split; [|left; by rewrite <- Hc3].
    split; [done|done|apply content_of_some; [done|by apply log_file_nonempty]|done].
Qed.

(** ** Logs that are always opened *)

(** What may follow the records: nothing, or part of one more frame. *)
Definition torn_tail (options : StoreOptions) (position : ScanPosition) (tail : list Z) : Prop :=
  tail = [] \/
  exists record k, record_fits options record /\ (0 < k < length (position_frame position record))%nat /\
    tail = take k (position_frame position record).

Lemma scan_log options h records tail :
  sane_options options -> header_ok h -> records_ok options records ->
  torn_tail options (position_after start_position records) tail ->
  let content := (log_file h records ++ tail)%list in
  let final := position_after start_position records in
  exists stopped, scan_bytes (Z.to_nat (zlen content)) options content start_position = (final, stopped) /\
    (tail = [] -> stopped = None) /\
    (tail <> [] -> exists detail, stopped = Some (torn (sp_offset final) detail)).
Proof.
  intros Hsane Hh Hfits Htail content final.
  assert (Hlen : zlen h = sp_offset start_position) by (unfold zlen; by rewrite (ho_length h Hh)).
  assert (Hoff : sp_offset final = zlen (log_file h records)) by (by rewrite log_file_length).
  assert (Hcontent : content = (h ++ frames start_position records ++ tail)%list)
    by (unfold content, log_file; by rewrite <- app_assoc).
  destruct (scan_frames options records h tail start_position (Z.to_nat (zlen content))) as (fuel & Hfuel & Hscan);
    [done|done|apply start_u64|done| |].
  { rewrite Hcontent. unfold zlen. rewrite Nat2Z.id, !length_app. lia. }
  rewrite <- Hcontent in Hscan. rewrite Hscan. fold final.
  assert (Hfuel' : (length h + length tail <= fuel)%nat).
  { rewrite Hcontent in Hfuel. unfold zlen in Hfuel. rewrite Nat2Z.id, !length_app in Hfuel. lia. }
  assert (Hzc : zlen content = sp_offset final + zlen tail) by (unfold content; rewrite zlen_app; lia).
  destruct Htail as [->|(record & k & Hfit & Hk & ->)].
  - exists None. split; [|done]. destruct fuel; cbn [scan_bytes];
      (destruct (Z.leb_spec (zlen content) (sp_offset final)); [done|rewrite zlen_nil in Hzc; lia]).
  - assert (Hne : take k (position_frame final record) <> []).
    { intros E. apply (f_equal length) in E. rewrite length_take in E. fold final in Hk. cbn in E. lia. }
    destruct (scan_step_torn options (log_file h records) record k final) as (detail & Hstep);
      [done|done|done|exact (proj1 Hk)|exact (proj2 Hk)|].
    exists (Some (torn (sp_offset final) detail)). split_and!; [|done|by exists detail].
    destruct fuel as [|fuel]; [rewrite (ho_length h Hh) in Hfuel'; lia|]. cbn [scan_bytes].
    rewrite (proj2 (Z.leb_gt _ _)).
    2:{ rewrite Hzc. unfold zlen. rewrite length_take. fold final in Hk |- *. lia. }
    unfold content. fold final. by rewrite Hstep.
Qed.

Lemma open_call_computes {A} report (io : IO A) r w a :
  computes io w a -> reliable w -> open_call report io r w = (w, (r, inl a)).
Proof.
  intros (w' & o & Hio & _ & _ & Hr) Hw. destruct (Hr Hw) as [-> ->]. unfold open_call. by rewrite Hio.
Qed.

Lemma open_bind_eq {A B} (m : OpenIO A) (f : A -> OpenIO B) r w a r1 w1 :
  m r w = (w1, (r1, inl a)) -> (m ≫= f) r w = f a r1 w1.
Proof. intros Hm. unfold mbind, open_bind. by rewrite Hm. Qed.

Lemma computes_system_call op path w : computes (system_call op path) w tt.
Proof.
  destruct (system_call op path w) as [w' o] eqn:E. exists w', o. split_and!; [done|by apply system_call_files in E| |].
  - destruct o as [[]|e]; [by left|right; by exists e].
  - intros Hw. rewrite system_call_reliable in E by done. by injection E as <- <-.
Qed.

Lemma reliable_set_files files w : reliable w -> reliable (set_files files w).
Proof. done. Qed.

Lemma repair_complete path options h records tail stopped r w :
  reliable w -> header_ok h -> content_of path w = (log_file h records ++ tail)%list ->
  (tail = [] -> stopped = None) ->
  (tail <> [] -> exists detail, stopped = Some (torn (sp_offset (position_after start_position records)) detail)) ->
  exists w' r', repair (Some path) options (position_after start_position records) stopped r w = (w', (r', inl tt)) /\
    reliable w' /\ content_of path w' = log_file h records /\ rr_created r' = rr_created r /\
    rr_records_loaded r' = rr_records_loaded r /\ (tail = [] -> rr_issue r' = RecoveryIssue.CleanOpen /\ w' = w) /\
    (tail <> [] -> rr_issue r' = RecoveryIssue.TruncatedTail /\ rr_salvaged r' = true).
Proof.
  intros Hw Hh Hc Hnil Hsome. destruct (decide (tail = [])) as [->|Hne].
  { rewrite Hnil by done. rewrite app_nil_r in Hc. exists w, (report_clean r).
    split_and!; [done|done|done|done|done|done|done]. }
  destruct (Hsome Hne) as [detail ->]. unfold repair. cbn [stop_tail_incomplete torn orb negb].
  set (n := sp_offset (position_after start_position records)).
  assert (Hn : n = zlen (log_file h records)) by (unfold n; by rewrite log_file_length).
  erewrite open_bind_eq by reflexivity. unfold open_call, file_truncate, mbind, open_bind, io_bind.
  rewrite system_call_reliable by done. cbn [io_modify].
  rewrite Hc, Hn. unfold zlen. rewrite Nat2Z.id, take_app_length, overlay_nil by lia.
  unfold file_sync. rewrite system_call_reliable by (by apply reliable_set_files).
  eexists _, _. split; [reflexivity|]. split_and!; [done| |done|done|done|done].
  unfold content_of. cbn [w_files set_files]. by rewrite lookup_insert_eq.
Qed.

Lemma load_store_complete path options h records tail r w :
  so_path options = path -> sane_options options -> reliable w -> header_ok h -> records_ok options records ->
  content_of path w = (log_file h records ++ tail)%list ->
  torn_tail options (position_after start_position records) tail ->
  exists w' r', load_store (Some path) options (zlen (content_of path w)) r w =
      (w', (r', inl (opened_store (Some path) options (position_after start_position records)))) /\
    reliable w' /\ opens options w' (opened_store (Some path) options (position_after start_position records)) h records /\
    rr_created r' = rr_created r /\
    rr_records_loaded r' = sp_loaded (position_after start_position records) /\
    (tail = [] -> rr_issue r' = RecoveryIssue.CleanOpen /\ w' = w) /\
    (tail <> [] -> rr_issue r' = RecoveryIssue.TruncatedTail /\ rr_salvaged r' = true).
Proof.
  intros Hp Hsane Hw Hh Hr Hc Ht. unfold load_store.
  assert (Hl24 : (24 <= length (content_of path w))%nat).
  { rewrite Hc. unfold log_file. rewrite !length_app, (ho_length h Hh). lia. }
  rewrite (proj2 (Z.ltb_ge _ kHeaderBytes)) by (unfold zlen, kHeaderBytes; lia).
  erewrite open_bind_eq by (apply open_call_computes; [apply computes_read|done]).
  assert (Hhead : take (Z.to_nat kHeaderBytes) (drop (Z.to_nat 0) (content_of path w)) = h).
  { change (Z.to_nat 0) with 0%nat. rewrite drop_0, Hc. unfold log_file. rewrite <- app_assoc.
    apply take_app_length'. by rewrite (ho_length h Hh). }
  rewrite Hhead. erewrite open_bind_eq by (by apply check_store_header_ok).
  destruct (scan_log options h records tail Hsane Hh Hr Ht) as (stopped & Hscan & Hnil & Hsome).
  rewrite <- Hc in Hscan.
  erewrite open_bind_eq by (apply open_call_computes; [by apply scan_computes|done]). rewrite Hscan.
  erewrite open_bind_eq by reflexivity.
  set (r1 := report_scan _ _ _).
  destruct (repair_complete path options h records tail stopped r1 w Hw Hh Hc Hnil Hsome)
    as (w' & r' & Hrep & Hw' & Hc' & Hcr & Hld & Hclean & Htorn).
  erewrite open_bind_eq by exact Hrep. erewrite open_bind_eq by reflexivity.
  exists w', (report_over_budget options (position_after start_position records) r').
  split; [reflexivity|]. split; [done|]. split.
  { split; [done|done|rewrite Hp; apply content_of_some; [done|by apply log_file_nonempty]|by rewrite Hp]. }
  unfold report_over_budget. case_match; cbn [report_set rr_created rr_records_loaded rr_issue rr_salvaged]; rewrite Hcr, Hld; done.
Qed.

(** Options [store_open] accepts, with frame lengths within 32 bits. *)
Record valid_options (options : StoreOptions) : Prop := {
  vo_path : so_path options <> "";
  vo_record : kMinRecordBytes <= so_max_record_bytes options;
  vo_log : 4 * kHeaderBytes <= so_max_log_bytes options;
  vo_sane : sane_options options;
}.

Lemma remove_temporary_reliable path w :
  reliable w ->
  exists w1, remove_temporary (temporary_of path) w = (w1, inl tt) /\ reliable w1 /\
    content_of path w1 = content_of path w.
Proof.
  intros Hw. unfold remove_temporary. destruct (file_exists _ w); [|by exists w].
  unfold remove_file, mbind, io_bind. rewrite system_call_reliable by done. eexists. split; [reflexivity|].
  split; [done|]. apply (content_of_delete _ (temporary_of path)); [apply not_eq_sym, temporary_ne|by right].
Qed.

(** The steps before the file is looked at. *)
Lemma store_open_prefix options w :
  valid_options options -> reliable w -> content_of (so_path options) w <> [] ->
  exists w2 r2, store_open options w =
      load_store (Some (so_path options)) options (zlen (content_of (so_path options) w2)) r2 w2 /\
    reliable w2 /\ content_of (so_path options) w2 = content_of (so_path options) w /\ rr_created r2 = false.
Proof.
  intros [Hpath Hrec Hlog _] Hw Hne. set (path := so_path options) in *. unfold store_open. fold path.
  rewrite bool_decide_false by done. rewrite (proj2 (Z.ltb_ge _ _) Hrec), (proj2 (Z.ltb_ge _ _) Hlog).
  erewrite open_bind_eq.
  2:{ apply open_call_computes; [|done]. unfold create_parent_directories.
      instantiate (1 := tt). destruct (split_parent path); [|by apply computes_ret].
      destruct (next_answer w) as [w1 o] eqn:E. unfold computes. rewrite E. eexists _, _. split; [reflexivity|].
      split; [by apply next_answer_files in E|]. split.
      - destruct o; [right; by eexists|by left].
      - intros _. rewrite next_answer_reliable in E by done. by injection E as <- <-. }
  destruct (remove_temporary_reliable path w Hw) as (w1 & Hrm & Hw1 & Hc1).
  erewrite open_bind_eq by (unfold open_call; rewrite Hrm; reflexivity).
  erewrite open_bind_eq by reflexivity.
  assert (Hex : w_files w1 !! path = Some (content_of path w1)) by (apply content_of_some; [done|by rewrite Hc1]).
  assert (Hexb : file_exists path w1 = true) by (apply bool_decide_eq_true; by eexists).
  rewrite Hexb.
  set (w2 := set_files (<[path := content_of path w1]> (w_files w1)) w1).
  erewrite open_bind_eq.
  2:{ unfold open_call, file_open. cbn [negb andb]. rewrite system_call_reliable by done. reflexivity. }
  fold w2. assert (Hc2 : content_of path w2 = content_of path w).
  { rewrite <- Hc1. unfold content_of at 1. cbn [w2 set_files w_files]. by rewrite lookup_insert_eq. }
  erewrite open_bind_eq.
  2:{ unfold open_call, file_size, mbind, io_bind. rewrite system_call_reliable by done. reflexivity. }
  erewrite open_bind_eq by reflexivity. cbn [negb orb].
  rewrite (proj2 (Z.eqb_neq _ _)).
  2:{ rewrite Hc2. unfold zlen. destruct (content_of path w); [done|cbn; lia]. }
  eexists w2, _. by split_and!; [reflexivity|done|done|].
Qed.

(** A log with nothing behind it, or part of a frame, opens under every policy,
    with exactly its records; the part of a frame is truncated away. *)
Lemma store_open_complete options h records tail w :
  valid_options options -> reliable w -> header_ok h -> records_ok options records ->
  content_of (so_path options) w = (log_file h records ++ tail)%list ->
  torn_tail options (position_after start_position records) tail ->
  exists w' r' s, store_open options w = (w', (r', inl s)) /\ reliable w' /\ opens options w' s h records /\
    rr_created r' = false /\ rr_records_loaded r' = sp_loaded (position_after start_position records) /\
    (tail = [] -> rr_issue r' = RecoveryIssue.CleanOpen) /\
    (tail <> [] -> rr_issue r' = RecoveryIssue.TruncatedTail /\ rr_salvaged r' = true).
Proof.
  intros Hv Hw Hh Hr Hc Ht. pose proof (log_file_nonempty h records Hh) as Hne.
  destruct (store_open_prefix options w Hv Hw) as (w2 & r2 & Hopen & Hw2 & Hc2 & Hcr).
  { rewrite Hc. by destruct (log_file h records). }
  destruct (load_store_complete (so_path options) options h records tail r2 w2)
    as (w' & r' & Hload & Hw' & Hop & Hcr' & Hld & Hclean & Htorn);
    [done|apply Hv|done|done|done|by rewrite Hc2|done|].
  exists w', r', (opened_store (Some (so_path options)) options (position_after start_position records)).
  rewrite Hopen, Hcr' in *. split_and!; [done|done|done|done|done|by intros ->; apply Hclean|done].
Qed.
