(* ===== verification/DurableLog.v ===== *)
(** * The store is an append-only log

    [store_rep m records] says that a store and its file hold exactly these
    records: the file starts with their frames, and a store that can still be
    written stands behind the last of them.  Replays and appends keep it
    whatever the operating system answers, rewrites keep it in a steady world,
    so the store implements [AppendLog], the interface the registry is proved
    against. *)
From stdpp Require Import gmap.
From S2P Require Import Prelude OrdMap Types Graph Codec Digest FileIo Log Store StoreFrame StoreOpen.
#[local] Open Scope string_scope.
#[local] Open Scope Z_scope.

Record at_end (s : Store) (records : list LogRecord) : Prop := {
  ae_offset : st_write_offset s = sp_offset (position_after start_position records);
  ae_valid : st_valid_end s = sp_offset (position_after start_position records);
  ae_chain : st_chain s = sp_chain (position_after start_position records);
  ae_sequence : st_next_sequence s = sp_sequence (position_after start_position records);
}.

(** A store that lost its handle in a failed rewrite either still stands behind
    the last record or lives in a world where no call succeeds any more. *)
Definition ready (s : Store) (w : World) (records : list LogRecord) : Prop :=
  (st_file s = None /\ st_replayed s = true /\ (at_end s records \/ dead w)) \/
  (st_file s = Some (so_path (st_options s)) /\ at_end s records).

Record store_rep (m : Machine) (records : list LogRecord) : Prop := {
  sr_sane : sane_options (st_options (ma_store m));
  sr_fits : records_ok (st_options (ma_store m)) records;
  sr_file : exists h tail, header_ok h /\
    w_files (ma_world m) !! so_path (st_options (ma_store m)) = Some (log_file h records ++ tail)%list;
  sr_ready : st_closed (ma_store m) = false -> ready (ma_store m) (ma_world m) records;
}.

(** A store fresh from [store_open] represents the records it found. *)
Lemma opens_rep options w s h records :
  sane_options options -> opens options w s h records -> store_rep (mkMachine s w) records.
Proof.
  intros Hsane [Hh Hr Hf ->]. split; cbn [ma_store ma_world opened_store st_options st_closed st_file]; [done|done| |].
  - exists h, []. by rewrite app_nil_r.
  - intros _. by right.
Qed.

(** ** Replay *)

Lemma visit_loop_frames fuel path records position finish pre tail w w' visited o :
  content_of path w = (pre ++ frames position records ++ tail)%list ->
  zlen pre = sp_offset position -> finish = sp_offset (position_after position records) ->
  Forall (fun record => zlen record.2 + kMinRecordBytes < 2 ^ 32) records ->
  (length (frames position records) <= fuel)%nat ->
  visit_loop fuel (Some path) (sp_offset position) finish w = (w', (visited, o)) ->
  w_files w' = w_files w /\ (o = inl tt -> visited = records) /\ (reliable w -> w' = w /\ o = inl tt).
Proof.
  revert position pre fuel w w' visited o.
  induction records as [|record records IH]; intros position pre fuel w w' visited o Hc Hpre -> Hsmall Hfuel Hvisit.
  { unfold position_after in Hvisit. cbn [foldl] in Hvisit.
    destruct fuel; cbn [visit_loop] in Hvisit; rewrite Z.leb_refl in Hvisit; by injection Hvisit as <- <- <-. }
  apply Forall_cons in Hsmall as [Hsm Hsmall].
  pose proof (position_frame_length position record) as Hfl. pose proof (zlen_nonneg record.2) as H0.
  assert (Hmin : kMinRecordBytes = 60) by reflexivity.
  set (frame := position_frame position record) in *.
  cbn [frames] in Hc, Hfuel. fold frame in Hc, Hfuel. rewrite length_app in Hfuel.
  assert (Hflen : Z.of_nat (length frame) = 60 + zlen record.2) by (rewrite <- Hmin; exact Hfl).
  destruct fuel as [|fuel]; [lia|]. cbn [visit_loop] in Hvisit.
  pose proof (frames_length (log_step position record) records) as Hrest.
  pose proof (zlen_nonneg (frames (log_step position record) records)) as H1.
  cbn [log_step sp_offset] in Hrest.
  rewrite (proj2 (Z.leb_gt _ _)) in Hvisit by (unfold position_after in *; cbn [foldl]; lia).
  assert (Hbytes : drop (Z.to_nat (sp_offset position)) (content_of path w) =
                   (frame ++ frames (log_step position record) records ++ tail)%list).
  { rewrite Hc, <- Hpre, <- app_assoc. unfold zlen. rewrite Nat2Z.id. apply drop_app_length. }
  assert (Hhead : take (Z.to_nat kRecordHeaderBytes) (drop (Z.to_nat (sp_offset position)) (content_of path w)) =
                  record_header record.1 (sp_sequence position) record.2).
  { rewrite Hbytes. unfold frame, position_frame. rewrite record_frame_parts, <- app_assoc.
    apply take_app_length'. by rewrite record_header_length. }
  pose proof (computes_read path (sp_offset position) kRecordHeaderBytes w) as (w1 & o1 & E1 & Hf1 & Ho1 & Hr1).
  rewrite Hhead in Ho1, Hr1. rewrite E1 in Hvisit.
  destruct Ho1 as [-> |[e ->]].
  2:{ injection Hvisit as <- <- <-. split_and!; [done|done|]. intros Hw. by destruct (Hr1 Hw). }
  assert (Hhl : zlen (record_header record.1 (sp_sequence position) record.2) = kRecordHeaderBytes)
    by (unfold zlen; by rewrite record_header_length).
  rewrite Hhl, Z.eqb_refl in Hvisit. cbn [negb] in Hvisit. rewrite header_frame_bytes in Hvisit by done.
  replace (kMinRecordBytes + zlen record.2 - 4 + 4) with (Z.of_nat (length frame)) in Hvisit by lia.
  pose proof (computes_read path (sp_offset position) (Z.of_nat (length frame)) w1) as (w2 & o2 & E2 & Hf2 & Ho2 & Hr2).
  rewrite (content_of_files path w w1), Hbytes, Nat2Z.id, take_app_length in Ho2, Hr2 by done.
  rewrite E2 in Hvisit. destruct Ho2 as [-> |[e ->]].
  2:{ injection Hvisit as <- <- <-. split_and!; [by rewrite Hf2|done|]. intros Hw. destruct (Hr1 Hw) as [-> _].
      by destruct (Hr2 Hw). }
  fold (zlen frame) in Hvisit. rewrite Z.eqb_refl in Hvisit. cbn [negb] in Hvisit.
  rewrite header_kind in Hvisit. unfold valid_record_kind in Hvisit. rewrite enum_cast_code in Hvisit.
  rewrite header_payload_bytes in Hvisit by lia.
  destruct (visit_loop fuel _ _ _ w2) as [w3 [rest o3]] eqn:E3. injection Hvisit as <- <- <-.
  assert (Hstep : sp_offset position + zlen frame = sp_offset (log_step position record)).
  { cbn [log_step sp_offset]. by rewrite Hfl. }
  rewrite Hstep in E3.
  apply (IH _ (pre ++ frame)%list) in E3 as (Hf3 & Hv3 & Hr3).
  - split_and!; [by rewrite Hf3, Hf2, Hf1| |].
    + intros ->. rewrite Hv3 by done. destruct record as [kind payload]. cbn [fst snd]. do 2 f_equal.
      unfold frame_payload, frame, position_frame. rewrite record_frame_parts.
      rewrite (drop_app_length' (record_header _ _ _)) by (by rewrite record_header_length).
      cbn [snd]. unfold zlen. rewrite Nat2Z.id. apply take_app_length.
    + intros Hw. destruct (Hr1 Hw) as [-> _]. destruct (Hr2 Hw) as [-> _]. by apply Hr3.
  - rewrite (content_of_files path w) by (by rewrite Hf2). rewrite Hc. by rewrite <- !app_assoc.
  - rewrite zlen_app. lia.
  - done.
  - done.
  - lia.
Qed.

Lemma fits_small options records :
  sane_options options -> records_ok options records ->
  Forall (fun record => zlen record.2 + kMinRecordBytes < 2 ^ 32) records.
Proof.
  unfold sane_options, records_ok, record_fits. intros Hs Hr. eapply Forall_impl; [exact Hr|]. intros r Hf. cbn in *. lia.
Qed.

Lemma rep_content m records : store_rep m records -> exists h tail, header_ok h /\
  content_of (so_path (st_options (ma_store m))) (ma_world m) = (log_file h records ++ tail)%list.
Proof. intros [_ _ (h & tail & Hh & Hf) _]. exists h, tail. split; [done|]. unfold content_of. by rewrite Hf. Qed.

(** Changing the world but not the files changes nothing. *)
Lemma ready_later s w w' records : later w w' -> ready s w records -> ready s w' records.
Proof.
  intros Hl [(? & ? & [?|?])|?]; [left; by auto| |by right]. left. split_and!; [done|done|]. right. by eapply dead_later.
Qed.

Lemma rep_world m w records :
  store_rep m records -> w_files w = w_files (ma_world m) -> later (ma_world m) w ->
  store_rep (mkMachine (ma_store m) w) records.
Proof.
  intros [H1 H2 H3 H4] Hf Hl. split; cbn [ma_store ma_world]; [done|done|by rewrite Hf|].
  intros Hc. eapply ready_later; [exact Hl|]. by apply H4.
Qed.

Lemma visit_loop_later fuel file offset finish w w' x : visit_loop fuel file offset finish w = (w', x) -> later w w'.
Proof.
  revert offset w w' x. induction fuel as [|fuel IH]; intros offset w w' x; cbn [visit_loop];
    (destruct (finish <=? offset); [by intros [= <- _]|]); [by intros [= <- _]|].
  destruct (read_at _ _ _ w) as [w1 [header|e]] eqn:E1; apply read_at_later in E1; [|by intros [= <- _]].
  case_match; [by intros [= <- _]|].
  destruct (read_at _ _ _ w1) as [w2 [frame|e]] eqn:E2; apply read_at_later in E2;
    [|intros [= <- _]; by etransitivity].
  case_match; [intros [= <- _]; by etransitivity|].
  case_match; [|intros [= <- _]; by etransitivity].
  destruct (visit_loop fuel _ _ _ w2) as [w3 [rest o]] eqn:E3. apply IH in E3. intros [= <- _].
  etransitivity; [exact E1|]. by etransitivity.
Qed.

Lemma store_visit_rep m records m' visited o :
  store_rep m records -> store_visit m = (m', (visited, o)) ->
  store_rep m' records /\ (o = inl tt -> visited = records) /\ st_options (ma_store m') = st_options (ma_store m) /\
  w_files (ma_world m') = w_files (ma_world m).
Proof.
  intros Hrep. unfold store_visit. destruct (st_closed (ma_store m)) eqn:Ec; [by intros [= <- <- <-]|].
  destruct (st_replayed (ma_store m)) eqn:Er; [by intros [= <- <- <-]|].
  pose proof (sr_ready _ _ Hrep Ec) as [(_ & ? & _)|[Hfile Hend]]; [congruence|].
  destruct (rep_content m records Hrep) as (h & tail & Hh & Hc).
  set (path := so_path (st_options (ma_store m))) in *.
  destruct (visit_loop _ _ _ _ _) as [w' [vis out]] eqn:E. pose proof (visit_loop_later _ _ _ _ _ _ _ E) as Hlater.
  rewrite Hfile, (ae_valid _ _ Hend) in E.
  change kHeaderBytes with (sp_offset start_position) in E.
  assert (Hl : zlen h = sp_offset start_position) by (unfold zlen; by rewrite (ho_length h Hh)).
  apply (visit_loop_frames _ path records start_position _ h tail) in E as (Hf & Hv & _).
  - destruct out as [[]|e]; intros [= <- <- <-]; (split_and!; [|by auto|done|done]).
    + apply (rep_world m w' records Hrep) in Hf; [|done]. destruct Hf as [H1 H2 H3 H4].
      split; cbn [ma_store ma_world set_replayed st_options st_closed st_file st_replayed]; [done|done|done|].
      intros _. right. split; [done|]. by destruct Hend.
    + by apply rep_world.
  - rewrite Hc. unfold log_file. by rewrite <- app_assoc.
  - done.
  - done.
  - eapply fits_small; [apply (sr_sane _ _ Hrep)|apply (sr_fits _ _ Hrep)].
  - pose proof (frames_length start_position records) as Hfl. unfold zlen in Hfl.
    assert (0 <= sp_offset start_position) by done. lia.
Qed.

(** ** Append *)

Lemma frame_bytes_ok (payload : list Z) :
  zlen payload + kMinRecordBytes < 2 ^ 32 ->
  (checked_add kRecordHeaderBytes (zlen payload) ≫= fun bytes => checked_add bytes kRecordTrailerBytes)
    = Some (kMinRecordBytes + zlen payload).
Proof.
  intros Hp. pose proof (zlen_nonneg payload). assert (Hmin : kMinRecordBytes = 60) by reflexivity.
  rewrite checked_add_spec by (unfold is_u64, kRecordHeaderBytes; lia).
  rewrite (proj2 (Z.ltb_lt _ _)) by (unfold kRecordHeaderBytes; lia). cbn [mbind option_bind].
  rewrite checked_add_spec by (unfold is_u64, kRecordHeaderBytes, kRecordTrailerBytes, kChainBytes; lia).
  rewrite (proj2 (Z.ltb_lt _ _)) by (unfold kRecordHeaderBytes, kRecordTrailerBytes, kChainBytes; lia).
  f_equal. unfold kMinRecordBytes. lia.
Qed.

(** The records a store holds after an append. *)
Definition append_result (kind : RecordKind.t) (payload : list Z) (o : Outcome unit) (records : list LogRecord)
    : list LogRecord :=
  match o with inl _ => (records ++ [(kind, payload)])%list | inr _ => records end.

(** Writing at the end of the log, wholly or in part, keeps its records. *)
Lemma write_at_end path h records tail frame w w' o :
  w_files w !! path = Some (log_file h records ++ tail)%list -> header_ok h ->
  write_at (Some path) (sp_offset (position_after start_position records)) frame w = (w', o) ->
  exists k, w_files w' !! path = Some (log_file h records ++ take k frame ++ drop (length (take k frame)) tail)%list /\
    (o = inl tt -> take k frame = frame).
Proof.
  intros Hf Hh Hw. assert (Hc : content_of path w = (log_file h records ++ tail)%list) by (unfold content_of; by rewrite Hf).
  rewrite <- (log_file_length h records Hh) in Hw.
  apply write_at_spec in Hw as (k & Hfiles & Hk).
  2:{ rewrite Hc, zlen_app. pose proof (zlen_nonneg tail). pose proof (zlen_nonneg (log_file h records)). lia. }
  exists k. split; [|done]. rewrite Hfiles, lookup_insert_eq, Hc. unfold zlen. by rewrite Nat2Z.id, overlay_prefix.
Qed.

Lemma store_append_rep kind payload m records m' o :
  store_rep m records -> store_append kind payload m = (m', o) ->
  store_rep m' (append_result kind payload o records) /\ st_options (ma_store m') = st_options (ma_store m).
Proof.
  intros Hrep. unfold store_append, ma_fail. destruct (st_closed (ma_store m)) eqn:Ec; [by intros [= <- <-]|].
  destruct (st_replayed (ma_store m)) eqn:Er; cbn [negb]; [|by intros [= <- <-]].
  destruct (Z.ltb_spec (so_max_record_bytes (st_options (ma_store m))) (zlen payload)) as [|Hfit]; [by intros [= <- <-]|].
  pose proof Hrep as [Hsane Hfits (h & tail & Hh & Hf) Hready]. unfold sane_options in Hsane.
  rewrite frame_bytes_ok by lia.
  destruct (Hready Ec) as [(Hnone & _)|[Hfile [Ho Hv Hch Hsq]]].
  { rewrite Hnone. cbn [write_at]. intros [= <- <-]. split; [by apply rep_world|done]. }
  rewrite Hfile, Ho, Hch, Hsq. set (path := so_path (st_options (ma_store m))) in *.
  set (position := position_after start_position records) in *.
  change (record_frame (sp_chain position) kind (sp_sequence position) payload) with (position_frame position (kind, payload)).
  destruct (write_at _ _ _ _) as [w1 o1] eqn:Ew. apply (write_at_end path h records tail) in Ew as (k & Hf1 & Hk); [|done|done].
  assert (Hkeep : forall w, w_files w !! path = w_files w1 !! path -> store_rep (mkMachine (ma_store m) w) records).
  { intros w Hw. split; cbn [ma_store ma_world]; [done|done| |by intros _; right].
    eexists h, _. split; [done|]. fold path. rewrite Hw. exact Hf1. }
  destruct o1 as [[]|e]; [|intros [= <- <-]; split; [by apply Hkeep|done]]. rewrite Hk in Hf1 by done.
  destruct (if so_fsync_on_commit _ then _ else _) as [w2 o2] eqn:Es.
  assert (Hf2 : w_files w2 = w_files w1).
  { destruct (so_fsync_on_commit _); [by apply file_sync_inv in Es|by injection Es as <- _]. }
  destruct o2 as [[]|e]; intros [= <- <-]; cbn [append_result]; [|split; [apply Hkeep; by rewrite Hf2|done]].
  split; [|done]. split; cbn [ma_store ma_world appended st_options st_closed st_file st_replayed].
  - done.
  - apply Forall_app_2; [done|]. constructor; [|constructor]. exact Hfit.
  - exists h, (drop (length (position_frame position (kind, payload))) tail). split; [done|]. fold path.
    rewrite Hf2, Hf1. f_equal. unfold log_file. rewrite frames_app. cbn [frames]. fold position.
    rewrite (app_nil_r (position_frame _ _)). by rewrite <- !app_assoc.
  - intros _. right. split; [done|].
    split; cbn [appended st_write_offset st_valid_end st_chain st_next_sequence]; rewrite position_after_app, ?Ho, ?Hsq; done.
Qed.

(** ** Rewrite *)

Lemma io_bind_inv {A B} (m : IO A) (f : A -> IO B) w w' o :
  (m ≫= f) w = (w', o) ->
  (exists e, m w = (w', inr e) /\ o = inr e) \/ (exists a w1, m w = (w1, inl a) /\ f a w1 = (w', o)).
Proof.
  unfold mbind, io_bind. destruct (m w) as [w1 [a|e]]; [right; by exists a, w1|].
  intros [= <- <-]. left. by exists e.
Qed.

(** What a computation on [path] leaves of the other files. *)
Definition elsewhere (path : string) (w w' : World) : Prop :=
  forall p, p <> path -> w_files w' !! p = w_files w !! p.

#[local] Instance elsewhere_trans path : Transitive (elsewhere path).
Proof. intros w1 w2 w3 H1 H2 p Hp. by rewrite H2, H1. Qed.

Lemma elsewhere_same path w w' : w_files w' = w_files w -> elsewhere path w w'.
Proof. intros Hf p _. by rewrite Hf. Qed.

Lemma write_at_elsewhere path offset data w w' o :
  write_at (Some path) offset data w = (w', o) -> elsewhere path w w'.
Proof.
  unfold write_at. destruct (pwrite_loop _ _ _ _ _) as [[c s] r]. intros [= <- _] p Hp. by apply lookup_insert_ne.
Qed.

Lemma write_records_spec path options records position w w' o :
  sane_options options -> zlen (content_of path w) = sp_offset position ->
  write_records (Some path) options records position w = (w', o) ->
  elsewhere path w w' /\
  forall final, o = inl final -> final = position_after position records /\ records_ok options records /\
    content_of path w' = (content_of path w ++ frames position records)%list.
Proof.
  intros Hsane. revert position w w' o. induction records as [|[kind payload] records IH]; intros position w w' o Hlen.
  { intros [= <- <-]. split; [by apply elsewhere_same|]. intros final [= <-]. split_and!; [done|constructor|by rewrite app_nil_r]. }
  cbn [write_records]. destruct (Z.ltb_spec (so_max_record_bytes options) (zlen payload)) as [|Hfit].
  { intros [= <- <-]. split; [by apply elsewhere_same|done]. }
  rewrite frame_bytes_ok by (unfold sane_options in Hsane; lia). intros H.
  change (record_frame (sp_chain position) kind (sp_sequence position) payload) with (position_frame position (kind, payload)) in H.
  apply io_bind_inv in H as [(e & Hw & ->)|([] & w1 & Hw & H)].
  { split; [by eapply write_at_elsewhere|done]. }
  pose proof (write_at_elsewhere _ _ _ _ _ _ Hw) as Helse. rewrite <- Hlen in Hw.
  apply write_at_files in Hw; [|pose proof (zlen_nonneg (content_of path w)); lia].
  assert (Hc1 : content_of path w1 = (content_of path w ++ position_frame position (kind, payload))%list).
  { apply content_of_insert in Hw. rewrite Hw. unfold zlen. rewrite Nat2Z.id.
    rewrite <- (app_nil_r (content_of path w)) at 2. rewrite overlay_prefix, drop_nil, app_nil_r. done. }
  apply (IH (log_step position (kind, payload))) in H as [Hel Hfin].
  - split; [by etransitivity|]. intros final Ho. destruct (Hfin final Ho) as (-> & Hr & Hc).
    split_and!; [done|constructor; [exact Hfit|done]|]. rewrite Hc, Hc1. cbn [frames]. by rewrite <- app_assoc.
  - rewrite Hc1, zlen_app, position_frame_length. cbn [log_step sp_offset snd]. lia.
Qed.

Lemma write_temporary_spec options records w w' o :
  sane_options options -> write_temporary options records w = (w', o) ->
  elsewhere (temporary_of (so_path options)) w w' /\
  forall final, o = inl final -> final = position_after start_position records /\ records_ok options records /\
    content_of (temporary_of (so_path options)) w' = log_file file_header records.
Proof.
  intros Hsane. unfold write_temporary. set (tmp := temporary_of (so_path options)). intros H.
  apply io_bind_inv in H as [(e & Hr & ->)|([] & w1 & Hr & H)].
  { split; [|done]. apply remove_file_inv in Hr as [Hf|Hf]; [by apply elsewhere_same|].
    intros p Hp. rewrite Hf. by apply lookup_delete_ne. }
  assert (Hf1 : w_files w1 = delete tmp (w_files w)).
  { unfold remove_file, mbind, io_bind in Hr. destruct (system_call "remove" tmp w) as [wx [u|e]] eqn:E; [|done].
    apply system_call_files in E. injection Hr as <-. cbn. by rewrite E. }
  assert (He1 : elsewhere tmp w w1) by (intros p Hp; rewrite Hf1; by apply lookup_delete_ne).
  assert (Hc1 : content_of tmp w1 = []) by (unfold content_of; by rewrite Hf1, lookup_delete_eq).
  apply io_bind_inv in H as [(e & Ho & ->)|(f & w2 & Ho & H)].
  { split; [|done]. etransitivity; [exact He1|]. unfold file_open in Ho. cbn [negb andb] in Ho.
    destruct (system_call "open" tmp w1) as [wx [u|e']] eqn:E; [done|]. apply system_call_files in E.
    injection Ho as <- _. by apply elsewhere_same. }
  apply file_open_inv in Ho as (-> & Hf2 & Hc2). rewrite Hc1 in Hf2, Hc2.
  assert (He2 : elsewhere tmp w w2).
  { etransitivity; [exact He1|]. intros p Hp. rewrite Hf2. by apply lookup_insert_ne. }
  apply io_bind_inv in H as [(e & Hw & ->)|([] & w3 & Hw & H)].
  { split; [|done]. etransitivity; [exact He2|]. by eapply write_at_elsewhere. }
  assert (He3 : elsewhere tmp w w3) by (etransitivity; [exact He2|]; by eapply write_at_elsewhere).
  apply write_at_files in Hw; [|rewrite Hc2; by vm_compute].
  assert (Hc3 : content_of tmp w3 = file_header).
  { apply content_of_insert in Hw. rewrite Hw, Hc2. unfold overlay. by rewrite take_nil, drop_nil. }
  assert (Hl3 : zlen (content_of tmp w3) = sp_offset start_position) by (rewrite Hc3; by vm_compute).
  apply io_bind_inv in H as [(e & Hwr & ->)|(final & w4 & Hwr & H)];
    apply write_records_spec in Hwr as [He4 Hfin]; [|done|done| |done|done].
  { split; [by etransitivity|done]. }
  destruct (Hfin final eq_refl) as (-> & Hok & Hc4).
  apply io_bind_inv in H as [(e & Hs & ->)|([] & w5 & Hs & H)]; apply file_sync_inv in Hs.
  { split; [|done]. etransitivity; [exact He3|]. etransitivity; [exact He4|]. by apply elsewhere_same. }
  injection H as <- <-. split.
  { etransitivity; [exact He3|]. etransitivity; [exact He4|]. by apply elsewhere_same. }
  intros final [= <-]. split_and!; [done|done|]. rewrite (content_of_files tmp w4) by done. by rewrite Hc4, Hc3.
Qed.

(** The records a store holds after a rewrite: the new ones when it succeeded
    or when the new log is already in place, and the old ones otherwise. *)
Definition rewrite_result (new old : list LogRecord) (m m' : Machine) (o : Outcome unit) : list LogRecord :=
  let path := so_path (st_options (ma_store m)) in
  match o with
  | inl _ => new
  | inr _ => if bool_decide (content_of path (ma_world m') = content_of path (ma_world m)) then old else new
  end.

(** The old log is untouched. *)
Lemma rep_elsewhere m records path s w :
  store_rep m records -> path <> so_path (st_options (ma_store m)) -> elsewhere path (ma_world m) w ->
  st_options s = st_options (ma_store m) -> st_closed s = st_closed (ma_store m) ->
  (st_closed s = false -> ready s w records) ->
  store_rep (mkMachine s w) records.
Proof.
  intros [H1 H2 H3 _] Hp He Ho Hcl Hready. split; cbn [ma_store ma_world]; rewrite ?Ho; [done|done| |by rewrite <- ?Ho].
  by rewrite (He _ (not_eq_sym Hp)).
Qed.

Lemma atomic_replace_inv from to w w' o :
  atomic_replace from to w = (w', o) ->
  (exists e, o = inr e /\ w_files w' = w_files w) \/
  (o = inl tt /\ w_files w' = delete from (<[to := content_of from w]> (w_files w))).
Proof.
  unfold atomic_replace, mbind, io_bind. destruct (system_call "rename" to w) as [w1 [[]|e]] eqn:E;
    apply system_call_files in E; intros [= <- <-]; [right|left; by exists e].
  split; [done|]. cbn. by rewrite E, (content_of_files from w w1) by done.
Qed.

Lemma file_open_failed path read write create w w' e :
  file_open path read write create w = (w', inr e) -> w_files w' = w_files w.
Proof.
  unfold file_open. destruct (negb read && negb write); [by intros [= <- _]|].
  destruct (negb create && _); [by intros [= <- _]|].
  destruct (system_call "open" path w) as [w1 [u|e']] eqn:E; [done|]. apply system_call_files in E. by intros [= <- _].
Qed.

Lemma file_open_same path read write create w w' o c :
  w_files w !! path = Some c -> file_open path read write create w = (w', o) ->
  w_files w' = w_files w /\ (forall f, o = inl f -> f = Some path).
Proof.
  intros Hp H. destruct o as [f|e]; [|split; [by apply file_open_failed in H|done]].
  apply file_open_inv in H as (-> & Hf & _). split; [|by intros f [= <-]].
  rewrite Hf. apply insert_id. unfold content_of. by rewrite Hp.
Qed.

Lemma rewrite_kept new old m s w o e :
  store_rep (mkMachine s w) old -> o = inr e ->
  content_of (so_path (st_options (ma_store m))) w = content_of (so_path (st_options (ma_store m))) (ma_world m) ->
  store_rep (mkMachine s w) (rewrite_result new old m (mkMachine s w) o).
Proof. intros Hrep -> Hc. unfold rewrite_result. cbn [ma_world]. by rewrite bool_decide_true. Qed.

(** The new log is in place under the path of the store. *)
Lemma rep_new options records s w :
  sane_options options -> records_ok options records -> st_options s = options ->
  w_files w !! so_path options = Some (log_file file_header records) ->
  (st_closed s = false -> ready s w records) ->
  store_rep (mkMachine s w) records.
Proof.
  intros H1 H2 <- Hf Hready. split; cbn [ma_store ma_world]; [done|done| |done].
  exists file_header, []. split; [apply file_header_ok|]. by rewrite app_nil_r.
Qed.

Lemma write_records_later file options records position w w' o :
  write_records file options records position w = (w', o) -> later w w'.
Proof.
  revert position w w' o. induction records as [|[kind payload] records IH]; intros position w w' o;
    cbn [write_records]; [by intros [= <- _]|].
  case_match; [by intros [= <- _]|]. case_match; [|by intros [= <- _]]. apply io_bind_later; eauto with later.
Qed.

Lemma write_temporary_later options records w w' o : write_temporary options records w = (w', o) -> later w w'.
Proof.
  unfold write_temporary.
  do 5 (apply io_bind_later; [clear; eauto using write_records_later with later|clear; intros ? w w' o]).
  by intros [= <- _].
Qed.

Lemma atomic_replace_failed from to w w' e : steady w -> atomic_replace from to w = (w', inr e) -> dead w'.
Proof.
  intros Hs. unfold atomic_replace, mbind, io_bind. destruct (system_call "rename" to w) as [w1 [[]|e']] eqn:E; [done|].
  intros [= <- _]. by eapply system_call_failed.
Qed.

Lemma file_open_dead path read write create w w' o :
  is_Some (w_files w !! path) -> file_open path read write create w = (w', o) ->
  (dead w -> exists e, o = inr e) /\ (steady w -> forall e, o = inr e -> read || write = true -> dead w').
Proof.
  intros Hp. unfold file_open. destruct read, write; cbn [negb andb orb];
    try (by intros [= <- <-]; split; [by eexists|]);
    unfold file_exists; rewrite (bool_decide_true _ Hp), andb_false_r;
    destruct (system_call "open" path w) as [w1 [u|e]] eqn:E; intros [= <- <-]; (split;
      [intros Hd; destruct (dead_fails _ _ _ _ _ Hd E); (done || by eexists)
      |intros Hs ? Ho _; (done || by eapply system_call_failed)]).
Qed.

(** What a rewrite does to a store and its file, whatever the operating system
    answers. *)
Inductive rewrite_case (new : list LogRecord) (m : Machine) : Machine -> Outcome unit -> Prop :=
  | rewrite_refused e w :
      elsewhere (temporary_of (so_path (st_options (ma_store m)))) (ma_world m) w ->
      rewrite_case new m (mkMachine (ma_store m) w) (inr e)
  | rewrite_restored e w :
      elsewhere (temporary_of (so_path (st_options (ma_store m)))) (ma_world m) w -> ~ steady (ma_world m) ->
      rewrite_case new m (mkMachine (set_file (Some (so_path (st_options (ma_store m)))) (ma_store m)) w) (inr e)
  | rewrite_detached e w :
      elsewhere (temporary_of (so_path (st_options (ma_store m)))) (ma_world m) w -> (steady (ma_world m) -> dead w) ->
      st_replayed (ma_store m) = true ->
      rewrite_case new m (mkMachine (set_file None (ma_store m)) w) (inr e)
  | rewrite_stale e w :
      records_ok (st_options (ma_store m)) new ->
      w_files w !! so_path (st_options (ma_store m)) = Some (log_file file_header new) -> (steady (ma_world m) -> dead w) ->
      st_replayed (ma_store m) = true ->
      rewrite_case new m (mkMachine (set_file None (ma_store m)) w) (inr e)
  | rewrite_done w :
      records_ok (st_options (ma_store m)) new ->
      w_files w !! so_path (st_options (ma_store m)) = Some (log_file file_header new) ->
      rewrite_case new m
        (mkMachine (rewritten (Some (so_path (st_options (ma_store m)))) (position_after start_position new)
                      (set_file None (ma_store m))) w) (inl tt).

Lemma store_rewrite_cases new m m' o :
  sane_options (st_options (ma_store m)) -> is_Some (w_files (ma_world m) !! so_path (st_options (ma_store m))) ->
  store_rewrite new m = (m', o) -> rewrite_case new m m' o /\ later (ma_world m) (ma_world m').
Proof.
  intros Hsane Hexists. unfold store_rewrite, ma_fail. set (options := st_options (ma_store m)) in *.
  set (path := so_path options) in *.
  assert (Hstay : forall e, rewrite_case new m m (inr e)).
  { intros e. pose proof (rewrite_refused new m e (ma_world m)) as H. destruct m. by apply H. }
  destruct (st_closed (ma_store m)); [by intros [= <- <-]|].
  destruct (st_replayed (ma_store m)) eqn:Er; cbn [negb]; [|by intros [= <- <-]].
  destruct (write_temporary options new (ma_world m)) as [w1 o1] eqn:Et. pose proof (write_temporary_later _ _ _ _ _ Et) as Hl1.
  apply write_temporary_spec in Et as [He1 Hfin]; [|done]. fold path in He1, Hfin.
  destruct o1 as [final|e]; [|intros [= <- <-]; by split; [apply rewrite_refused|]].
  destruct (Hfin final eq_refl) as (-> & Hok & Hctmp). clear Hfin.
  pose proof (temporary_ne path) as Hne.
  destruct (atomic_replace _ _ w1) as [w2 o2] eqn:Ea. pose proof (atomic_replace_later _ _ _ _ _ Ea) as Hl2.
  assert (Hdead : forall e, o2 = inr e -> steady (ma_world m) -> dead w2).
  { intros e -> Hs. eapply atomic_replace_failed; [|exact Ea]. by eapply steady_later. }
  apply atomic_replace_inv in Ea as [(e & -> & Hf2)|[-> Hf2]].
  - destruct (remove_file _ w2) as [w3 o3] eqn:Erm. pose proof (remove_file_later _ _ _ _ Erm) as Hl3.
    apply remove_file_inv in Erm.
    assert (He3 : elsewhere (temporary_of path) (ma_world m) w3).
    { intros p Hp. destruct Erm as [-> | ->]; rewrite ?lookup_delete_ne, Hf2 by done; by apply He1. }
    destruct Hexists as [c Hc].
    assert (Hp3 : w_files w3 !! path = Some c) by (by rewrite He3 by (by apply not_eq_sym)).
    destruct (file_open path true true false w3) as [w4 o4] eqn:Eo. pose proof (file_open_later _ _ _ _ _ _ _ Eo) as Hl4.
    destruct (file_open_dead _ _ _ _ _ _ _ ltac:(by eexists) Eo) as [Hdo _].
    destruct (file_open_same _ _ _ _ _ _ _ _ Hp3 Eo) as [Hf4 Hfd].
    assert (He4 : elsewhere (temporary_of path) (ma_world m) w4)
      by (etransitivity; [exact He3|by apply elsewhere_same]).
    assert (Hl : later (ma_world m) w4) by (do 3 (etransitivity; [eassumption|]); done).
    assert (Hd3 : steady (ma_world m) -> dead w3) by (intros Hs; eapply dead_later; [exact Hl3|by eapply Hdead]).
    destruct o4 as [fd|e4]; intros [= <- <-]; (split; [|done]).
    + rewrite (Hfd fd eq_refl). apply rewrite_restored; [done|]. intros Hs. by destruct (Hdo (Hd3 Hs)).
    + apply rewrite_detached; [done| |done]. intros Hs. eapply dead_later; [exact Hl4|by apply Hd3].
  - assert (Hp2 : w_files w2 !! path = Some (log_file file_header new)).
    { rewrite Hf2, lookup_delete_ne, lookup_insert_eq by done. by rewrite Hctmp. }
    destruct (file_open path true true false w2) as [w3 o3] eqn:Eo. pose proof (file_open_later _ _ _ _ _ _ _ Eo) as Hl3.
    destruct (file_open_dead _ _ _ _ _ _ _ ltac:(by eexists) Eo) as [_ Hdo].
    destruct (file_open_same _ _ _ _ _ _ _ _ Hp2 Eo) as [Hf3 Hfd].
    assert (Hl : later (ma_world m) w3) by (do 2 (etransitivity; [eassumption|]); done).
    destruct o3 as [fd|e3]; intros [= <- <-]; (split; [|done]).
    + rewrite (Hfd fd eq_refl). apply rewrite_done; [done|]. by rewrite Hf3.
    + apply rewrite_stale; [done|by rewrite Hf3| |done]. intros Hs. eapply Hdo; [|done|done].
      eapply steady_later; [|exact Hs]. transitivity w1; done.
Qed.

Lemma store_rewrite_rep new m old m' o :
  store_rep m old -> steady (ma_world m) -> store_rewrite new m = (m', o) ->
  store_rep m' (rewrite_result new old m m' o).
Proof.
  intros Hrep Hsteady H. pose proof Hrep as [Hsane Hfits (h & tail & Hh & Hf) Hready].
  pose proof (temporary_ne (so_path (st_options (ma_store m)))) as Hne.
  apply store_rewrite_cases in H as [Hcase Hl]; [|done|by eexists].
  assert (Hc : forall w, elsewhere (temporary_of (so_path (st_options (ma_store m)))) (ma_world m) w ->
    content_of (so_path (st_options (ma_store m))) w = content_of (so_path (st_options (ma_store m))) (ma_world m)).
  { intros w He. unfold content_of. by rewrite (He _ (not_eq_sym Hne)). }
  destruct Hcase as [e w He|e w He Hns|e w He Hd Hr|e w Hok Hnew Hd Hr|w Hok Hnew]; cbn [ma_world] in Hl.
  - eapply rewrite_kept; [|done|by apply Hc].
    eapply rep_elsewhere; [exact Hrep|exact Hne|exact He|done|done|]. intros Ec. eapply ready_later; [exact Hl|by apply Hready].
  - done.
  - eapply rewrite_kept; [|done|by apply Hc].
    eapply rep_elsewhere; [exact Hrep|exact Hne|exact He|done|done|]. intros Ec. left. split_and!; [done|exact Hr|].
    right. by apply Hd.
  - assert (Hdead : forall records, ready (set_file None (ma_store m)) w records).
    { intros records. left. split_and!; [done|exact Hr|]. right. by apply Hd. }
    unfold rewrite_result. cbn [ma_world]. case_bool_decide as Esame.
    + split; cbn [ma_store ma_world set_file st_options st_closed]; [done|done| |done].
      exists h, tail. split; [done|]. rewrite Hnew. f_equal.
      unfold content_of in Esame. rewrite Hnew, Hf in Esame. exact Esame.
    + by apply (rep_new (st_options (ma_store m))).
  - cbn [rewrite_result]. apply (rep_new (st_options (ma_store m))); [done|done|done|done|]. intros _. right. by split.
Qed.

(** ** The store implements the log the registry relies on *)

Lemma store_append_later kind payload m m' o : store_append kind payload m = (m', o) -> later (ma_world m) (ma_world m').
Proof.
  unfold store_append, ma_fail. do 3 (case_match; [by intros [= <- _]|]). case_match; [|by intros [= <- _]].
  destruct (write_at _ _ _ _) as [w1 o1] eqn:E1. apply write_at_later in E1.
  destruct o1 as [[]|e]; [|by intros [= <- _]].
  destruct (if so_fsync_on_commit _ then _ else _) as [w2 o2] eqn:E2.
  assert (later w1 w2).
  { destruct (so_fsync_on_commit _); [by apply file_sync_later in E2|by injection E2 as <- _]. }
  destruct o2; intros [= <- _]; by transitivity w1.
Qed.

Lemma store_visit_later m m' x : store_visit m = (m', x) -> later (ma_world m) (ma_world m').
Proof.
  unfold store_visit. do 2 (case_match; [by intros [= <- _]|]).
  destruct (visit_loop _ _ _ _ _) as [w [records o]] eqn:E. apply visit_loop_later in E.
  by destruct o; intros [= <- _].
Qed.

Lemma store_close_rep m records : store_rep m records -> store_rep (store_close m) records.
Proof.
  intros Hrep. unfold store_close. destruct (st_closed (ma_store m)) eqn:Ec; [done|]. destruct Hrep as [H1 H2 H3 H4].
  split; [exact H1|exact H2|exact H3|]. intros Hc. by cbn in Hc.
Qed.

Lemma store_close_world m : ma_world (store_close m) = ma_world m.
Proof. unfold store_close. by case_match. Qed.

Lemma store_close_options m : st_options (ma_store (store_close m)) = st_options (ma_store m).
Proof. unfold store_close. by case_match. Qed.

Lemma store_visit_options m records :
  store_rep m records -> st_options (ma_store (store_visit m).1) = st_options (ma_store m).
Proof.
  intros Hrep. destruct (store_visit m) as [m' [visited o]] eqn:E.
  by destruct (store_visit_rep _ _ _ _ _ Hrep E) as (_ & _ & ? & _).
Qed.

Lemma store_append_options kind payload m records :
  store_rep m records -> st_options (ma_store (store_append kind payload m).1) = st_options (ma_store m).
Proof.
  intros Hrep. destruct (store_append kind payload m) as [m' o] eqn:E. by destruct (store_append_rep _ _ _ _ _ _ Hrep E).
Qed.

Lemma store_rewrite_frame new m records :
  store_rep m records ->
  later (ma_world m) (ma_world (store_rewrite new m).1) /\
  st_options (ma_store (store_rewrite new m).1) = st_options (ma_store m).
Proof.
  intros [Hsane _ (h & tail & _ & Hf) _]. destruct (store_rewrite new m) as [m' o] eqn:E.
  apply store_rewrite_cases in E as [Hcase Hl]; [|done|by eexists]. split; [done|]. by destruct Hcase.
Qed.

(** A store with these options and its file in a steady world, and the records it
    holds. *)
Record DurableLog (options : StoreOptions) := mkDurable {
  dl_machine : Machine;
  dl_records : list LogRecord;
  dl_options : st_options (ma_store dl_machine) = options;
  dl_steady : steady (ma_world dl_machine);
  dl_rep : store_rep dl_machine dl_records;
}.
Arguments mkDurable {_} _ _ _ _ _.
Arguments dl_machine {_} _.
Arguments dl_records {_} _.
Arguments dl_options {_} _.
Arguments dl_steady {_} _.
Arguments dl_rep {_} _.

Section durable.
Context {options : StoreOptions}.
Implicit Types s : DurableLog options.

Definition durable_visit s : DurableLog options * (list LogRecord * Outcome unit) :=
  (mkDurable (store_visit (dl_machine s)).1 (dl_records s)
     (eq_trans (store_visit_options _ _ (dl_rep s)) (dl_options s))
     (steady_later _ _ (store_visit_later _ _ _ (surjective_pairing _)) (dl_steady s))
     (proj1 (store_visit_rep _ _ (store_visit (dl_machine s)).1 (store_visit (dl_machine s)).2.1
               (store_visit (dl_machine s)).2.2 (dl_rep s)
               (eq_trans (surjective_pairing _) (f_equal (pair _) (surjective_pairing _))))),
   (store_visit (dl_machine s)).2).

Definition durable_append (kind : RecordKind.t) (payload : list Z) s : DurableLog options * Outcome unit :=
  (mkDurable (store_append kind payload (dl_machine s)).1
     (append_result kind payload (store_append kind payload (dl_machine s)).2 (dl_records s))
     (eq_trans (store_append_options _ _ _ _ (dl_rep s)) (dl_options s))
     (steady_later _ _ (store_append_later _ _ _ _ _ (surjective_pairing _)) (dl_steady s))
     (proj1 (store_append_rep _ _ _ _ _ _ (dl_rep s) (surjective_pairing _))),
   (store_append kind payload (dl_machine s)).2).

Definition durable_rewrite (new : list LogRecord) s : DurableLog options * Outcome unit :=
  (mkDurable (store_rewrite new (dl_machine s)).1
     (rewrite_result new (dl_records s) (dl_machine s) (store_rewrite new (dl_machine s)).1
        (store_rewrite new (dl_machine s)).2)
     (eq_trans (proj2 (store_rewrite_frame new _ _ (dl_rep s))) (dl_options s))
     (steady_later _ _ (proj1 (store_rewrite_frame new _ _ (dl_rep s))) (dl_steady s))
     (store_rewrite_rep _ _ _ _ _ (dl_rep s) (dl_steady s) (surjective_pairing _)),
   (store_rewrite new (dl_machine s)).2).

Definition durable_close s : DurableLog options :=
  mkDurable (store_close (dl_machine s)) (dl_records s)
    (eq_trans (store_close_options _) (dl_options s))
    (eq_ind_r steady (dl_steady s) (store_close_world (dl_machine s))) (store_close_rep _ _ (dl_rep s)).

#[export] Program Instance durable_log : AppendLog (DurableLog options) := {|
  log_records := dl_records;
  log_visit := durable_visit;
  log_append := durable_append;
  log_rewrite := durable_rewrite;
  log_close := durable_close;
|}.
Next Obligation.
  intros s s' records. unfold durable_visit. intros [= <- Hv]. split; [|done].
  destruct (store_visit (dl_machine s)) as [m' [visited o]] eqn:E. cbn in Hv. injection Hv as -> ->.
  by apply (store_visit_rep _ _ _ _ _ (dl_rep s) E).
Qed.
Next Obligation. intros kind payload s s'. unfold durable_append. intros [= <- Ho]. cbn. by rewrite Ho. Qed.
Next Obligation. intros kind payload s s' e. unfold durable_append. intros [= <- Ho]. cbn. by rewrite Ho. Qed.
Next Obligation. intros records s s'. unfold durable_rewrite. intros [= <- Ho]. cbn. by rewrite Ho. Qed.
Next Obligation.
  intros records s s' e. unfold durable_rewrite. intros [= <- Ho]. cbn. rewrite Ho. cbn. case_bool_decide; [by left|by right].
Qed.
Next Obligation. done. Qed.
End durable.

(** ** Reopening *)

(** Replaying a store fresh from an open hands out its records, and in a
    reliable world it succeeds. *)
Lemma opens_visit options w s h records m' visited o :
  sane_options options -> opens options w s h records -> store_visit (mkMachine s w) = (m', (visited, o)) ->
  (o = inl tt -> visited = records) /\ (reliable w -> visited = records /\ o = inl tt).
Proof.
  intros Hsane Hop Hv. pose proof (opens_rep _ _ _ _ _ Hsane Hop) as Hrep.
  split; [by apply (store_visit_rep _ _ _ _ _ Hrep Hv)|]. intros Hw. revert Hv.
  destruct Hop as [Hh Hr Hf ->]. unfold store_visit. cbn [ma_store ma_world opened_store st_closed st_replayed st_valid_end st_file].
  destruct (visit_loop _ _ _ _ _) as [w' [vis out]] eqn:E. change kHeaderBytes with (sp_offset start_position) in E.
  apply (visit_loop_frames _ (so_path options) records start_position _ h []) in E as (_ & Hvis & Hrel).
  - destruct (Hrel Hw) as [_ ->]. intros [= <- <- <-]. by rewrite Hvis.
  - unfold content_of. rewrite Hf. cbn. by rewrite app_nil_r.
  - unfold zlen. by rewrite (ho_length h Hh).
  - done.
  - by eapply fits_small.
  - pose proof (frames_length start_position records) as Hfl. unfold zlen in Hfl.
    assert (0 <= sp_offset start_position) by done. lia.
Qed.

(** Opening and replaying in one. *)
Definition open_and_visit (options : StoreOptions) (w : World) : RecoveryReport * Outcome (Machine * list LogRecord) :=
  let '(w, (report, opened)) := store_open options w in
  (report,
   match opened with
   | inr e => inr e
   | inl s =>
       match store_visit (mkMachine s w) with
       | (m, (records, inl _)) => inl (m, records)
       | (_, (_, inr e)) => inr e
       end
   end).

Lemma reopen_log options h records tail w :
  valid_options options -> reliable w -> header_ok h -> records_ok options records ->
  content_of (so_path options) w = (log_file h records ++ tail)%list ->
  torn_tail options (position_after start_position records) tail ->
  exists report m, open_and_visit options w = (report, inl (m, records)) /\ rr_created report = false /\
    rr_issue report = (if bool_decide (tail = []) then RecoveryIssue.CleanOpen else RecoveryIssue.TruncatedTail).
Proof.
  intros Hv Hw Hh Hr Hc Ht.
  destruct (store_open_complete options h records tail w Hv Hw Hh Hr Hc Ht)
    as (w' & r' & s & Hopen & Hw' & Hop & Hcr & _ & Hclean & Htorn).
  unfold open_and_visit. rewrite Hopen.
  destruct (store_visit (mkMachine s w')) as [m [visited o]] eqn:E.
  destruct (opens_visit _ _ _ _ _ _ _ _ (vo_sane _ Hv) Hop E) as [_ Hvis]. destruct (Hvis Hw') as [-> ->].
  eexists _, m. split; [reflexivity|]. split; [done|]. case_bool_decide; [by apply Hclean|by apply Htorn].
Qed.

(** A store whose file holds its records and nothing else, ready to append. *)
Record store_clean (m : Machine) (h : list Z) (records : list LogRecord) : Prop := {
  sc_rep : store_rep m records;
  sc_header : header_ok h;
  sc_file : w_files (ma_world m) !! so_path (st_options (ma_store m)) = Some (log_file h records);
}.

Lemma opens_clean options w s h records m' visited o :
  sane_options options -> opens options w s h records -> store_visit (mkMachine s w) = (m', (visited, o)) ->
  store_clean m' h records /\ st_options (ma_store m') = options.
Proof.
  intros Hsane Hop Hv. destruct (store_visit_rep _ _ _ _ _ (opens_rep _ _ _ _ _ Hsane Hop) Hv) as (Hrep & _ & Ho & Hf).
  destruct Hop as [Hh Hr Hfile ->]. cbn [ma_store ma_world opened_store st_options] in Ho, Hf.
  split; [|done]. split; [done|done|by rewrite Ho, Hf].
Qed.

(** What an append leaves in the file of a clean store: a leading part of the
    frame behind the records, and the whole of it when the append succeeded. *)
Definition append_left (kind : RecordKind.t) (payload : list Z) (h : list Z) (records : list LogRecord)
    (m m' : Machine) (o : Outcome unit) : Prop :=
  let frame := position_frame (position_after start_position records) (kind, payload) in
  st_options (ma_store m') = st_options (ma_store m) /\
  exists k, w_files (ma_world m') !! so_path (st_options (ma_store m)) = Some (log_file h records ++ take k frame)%list /\
    (take k frame <> [] -> record_fits (st_options (ma_store m)) (kind, payload)) /\
    (o = inl tt -> take k frame = frame).

Lemma append_leaves kind payload m h records m' o :
  store_clean m h records -> store_append kind payload m = (m', o) -> append_left kind payload h records m m' o.
Proof.
  intros [Hrep Hh Hf]. pose proof Hrep as [Hsane Hfits _ Hready]. unfold store_append, ma_fail.
  assert (Hnone : forall e m1, ma_store m1 = ma_store m -> w_files (ma_world m1) = w_files (ma_world m) ->
    (m1, inr e) = (m', o) -> append_left kind payload h records m m' o).
  { intros e m1 Hs Hw [= <- <-]. split; [by rewrite Hs|]. exists 0%nat. rewrite take_0, app_nil_r, Hw. done. }
  destruct (st_closed (ma_store m)) eqn:Ec; [by apply Hnone|]. specialize (Hready eq_refl).
  destruct (st_replayed (ma_store m)); cbn [negb]; [|by apply Hnone].
  destruct (Z.ltb_spec (so_max_record_bytes (st_options (ma_store m))) (zlen payload)) as [|Hfit]; [by apply Hnone|].
  rewrite frame_bytes_ok by (unfold sane_options in Hsane; lia).
  destruct Hready as [(Hnofile & _)|[Hfile [Ho Hv Hch Hsq]]].
  { rewrite Hnofile. cbn [write_at]. by apply Hnone. }
  rewrite Hfile, Ho, Hch, Hsq. set (path := so_path (st_options (ma_store m))) in *.
  set (position := position_after start_position records) in *.
  change (record_frame (sp_chain position) kind (sp_sequence position) payload) with (position_frame position (kind, payload)).
  destruct (write_at _ _ _ _) as [w1 o1] eqn:Ew.
  apply (write_at_end path h records []) in Ew as (k & Hf1 & Hk); [|by rewrite app_nil_r|done].
  rewrite drop_nil, app_nil_r in Hf1.
  assert (Hsome : forall (m1 : Machine) (o2 : Outcome unit), st_options (ma_store m1) = st_options (ma_store m) ->
    w_files (ma_world m1) = w_files w1 -> (o2 = inl tt -> o1 = inl tt) -> (m1, o2) = (m', o) ->
    append_left kind payload h records m m' o).
  { intros m1 o2 Hs Hw Himp [= <- <-]. split; [done|]. exists k. rewrite Hw. auto. }
  destruct o1 as [[]|e]; [|by apply Hsome].
  destruct (if so_fsync_on_commit _ then _ else _) as [w2 o2] eqn:Es.
  assert (Hf2 : w_files w2 = w_files w1).
  { destruct (so_fsync_on_commit _); [by apply file_sync_inv in Es|by injection Es as <- _]. }
  destruct o2 as [[]|e]; by apply Hsome.
Qed.

(** Such a file is a log of the old records or of one more, with at most part of
    a frame behind it. *)
Lemma append_left_log kind payload h records m m' o :
  store_rep m records -> append_left kind payload h records m m' o ->
  exists found tail,
    w_files (ma_world m') !! so_path (st_options (ma_store m)) = Some (log_file h found ++ tail)%list /\
    torn_tail (st_options (ma_store m)) (position_after start_position found) tail /\
    records_ok (st_options (ma_store m)) found /\
    (found = (records ++ [(kind, payload)])%list \/ o <> inl tt /\ found = records).
Proof.
  intros Hrep (_ & k & Hf & Hfits & Hok). set (frame := position_frame _ _) in *.
  pose proof (sr_fits _ _ Hrep) as Hr.
  destruct (decide (length frame <= k)%nat) as [Hall|Hpart].
  - rewrite take_ge in Hf, Hfits by done. exists (records ++ [(kind, payload)])%list, [].
    assert (Hne : frame <> []).
    { intros E. pose proof (position_frame_length (position_after start_position records) (kind, payload)) as Hl.
      fold frame in Hl. rewrite E, zlen_nil in Hl. pose proof (zlen_nonneg payload).
      assert (kMinRecordBytes = 60) by reflexivity. cbn [snd] in Hl. lia. }
    split_and!; [|by left| |by left].
    + rewrite Hf, app_nil_r. unfold log_file. rewrite frames_app. cbn [frames]. fold frame. by rewrite app_nil_r, <- app_assoc.
    + apply Forall_app_2; [done|]. constructor; [by apply Hfits|constructor].
  - exists records, (take k frame). split_and!; [done| |done|].
    + destruct k as [|k]; [left; by rewrite take_0|]. right. exists (kind, payload), (S k).
      split_and!; [|lia|fold frame; lia|done]. apply Hfits. destruct frame; [cbn in Hpart; lia|done].
    + right. split; [|done]. intros Ho. apply Hok in Ho. apply (f_equal length) in Ho. rewrite length_take in Ho. lia.
Qed.
