(* ===== verification/StoreGuarantees.v ===== *)
(** * What the store promises

    The guarantees of [persistence.cpp] on the bytes of its file: what an open
    makes of arbitrary bytes, what an append or a rewrite that is cut short
    leaves behind, and which damage is noticed.  The last part exhibits runs in
    which the store does less than its documentation says. *)
From stdpp Require Import gmap.
From S2P Require Import Prelude OrdMap Types Graph Codec Digest FileIo Log Store StoreFrame StoreOpen DurableLog.
#[local] Open Scope string_scope.
#[local] Open Scope Z_scope.

(** C18: [Store::Open] on arbitrary bytes, under any recovery policy and whatever
    the operating system answers: when it succeeds, what the file held splits
    into a log and a rest, or was empty; the file now holds exactly that log, and
    a replay that succeeds hands out exactly its records, in order. *)
Theorem open_recovers_a_log options w w' report s m visited :
  sane_options options -> Forall is_u8 (content_of (so_path options) w) ->
  store_open options w = (w', (report, inl s)) -> store_visit (mkMachine s w') = (m, (visited, inl tt)) ->
  exists h tail, header_ok h /\ records_ok options visited /\
    w_files w' !! so_path options = Some (log_file h visited) /\
    (content_of (so_path options) w = (log_file h visited ++ tail)%list \/
     content_of (so_path options) w = [] /\ visited = [] /\ rr_created report = true).
Proof.
  intros Hs Hu8 Ho Hv. apply store_open_sound in Ho as (h & records & tail & Hop & Hc); [|done].
  destruct (opens_visit _ _ _ _ _ _ _ _ Hs Hop Hv) as [Hvis _]. rewrite Hvis by done. destruct Hop as [Hh Hr Hf _].
  exists h, tail. split_and!; [done|done|done|]. destruct Hc as [[? _]|?]; [by left|by right].
Qed.

(** C16: An append is atomic across a crash. Take a clean store, one whose file holds
    exactly the log of some records with no bytes of a failed append behind it,
    and append to it while the operating system answers anything at all,
    including nothing more: then opening the file again succeeds under every
    recovery policy and replays the old records, or the old records and the new
    one; after a successful append it is always the latter. *)
Theorem append_survives_crash kind payload m h records m' o w :
  store_clean m h records -> valid_options (st_options (ma_store m)) ->
  store_append kind payload m = (m', o) -> reliable w -> w_files w = w_files (ma_world m') ->
  exists report m'' found, open_and_visit (st_options (ma_store m)) w = (report, inl (m'', found)) /\
    (found = (records ++ [(kind, payload)])%list \/ o <> inl tt /\ found = records).
Proof.
  intros Hclean Hv Ha Hw Hf. pose proof (append_leaves _ _ _ _ _ _ _ Hclean Ha) as Hleft.
  apply append_left_log in Hleft as (found & tail & Hfile & Htorn & Hok & Hcase); [|apply Hclean].
  destruct (reopen_log (st_options (ma_store m)) h found tail w) as (report & m'' & Hopen & _);
    [done|done|apply Hclean|done|unfold content_of; by rewrite Hf, Hfile|done|].
  by exists report, m'', found.
Qed.

(** C17: A rewrite is atomic. Whatever the operating system answers, after
    [Store::Rewrite] the file at the store's path is unchanged or holds exactly
    the new records behind a fresh header, and nothing but the temporary file
    beside it has changed; after a success it is the new log and the store stands
    at its end. *)
Theorem rewrite_is_atomic new m old m' o :
  store_rep m old -> store_rewrite new m = (m', o) ->
  let path := so_path (st_options (ma_store m)) in
  (w_files (ma_world m') !! path = w_files (ma_world m) !! path /\ o <> inl tt \/
   w_files (ma_world m') !! path = Some (log_file file_header new) /\ records_ok (st_options (ma_store m)) new) /\
  (o = inl tt -> store_clean m' file_header new).
Proof.
  intros Hrep H path. pose proof Hrep as [Hsane Hfits (h & tail & Hh & Hf) Hready].
  pose proof (temporary_ne path) as Hne.
  apply store_rewrite_cases in H as [Hcase _]; [|done|by eexists].
  assert (Hkeep : forall w, elsewhere (temporary_of path) (ma_world m) w ->
    w_files w !! path = w_files (ma_world m) !! path) by (intros w He; by apply He, not_eq_sym).
  destruct Hcase as [e w He|e w He _|e w He _ _|e w Hok Hnew _ _|w Hok Hnew]; cbn [ma_world];
    (split; [|done || (intros _)]); [left; by auto..|by right|by right|].
  split; [|apply file_header_ok|done]. apply (rep_new (st_options (ma_store m))); [done|done|done|done|].
  intros _. right. by split.
Qed.

(** The scan of a damaged log ends where the damage begins. *)
Lemma scan_stops options h before record a w1 w2 b post found :
  sane_options options -> header_ok h -> records_ok options before -> record_fits options record ->
  Forall is_u8 record.2 -> Forall is_u8 (log_file h before) -> Forall is_u8 post -> Forall is_u8 w2 ->
  position_frame (position_after start_position before) record = (a ++ w1 ++ b)%list ->
  length w1 = length w2 -> (length w1 <= 4)%nat -> w1 <> w2 ->
  scan_reaches options (log_file h before ++ (a ++ w2 ++ b) ++ post) found ->
  position_after start_position found = position_after start_position before.
Proof.
  intros Hs Hh Hb Hr Hru Hlu Hpu Hwu Hfr Hw Hle Hne [stopped Hscan].
  set (content := (log_file h before ++ (a ++ w2 ++ b) ++ post)%list) in *.
  assert (Hc : content = (h ++ frames start_position before ++ (a ++ w2 ++ b) ++ post)%list)
    by (unfold content, log_file; by rewrite <- !app_assoc).
  assert (Hh24 : zlen h = sp_offset start_position) by (unfold zlen; by rewrite (ho_length h Hh)).
  destruct (scan_frames options before h ((a ++ w2 ++ b) ++ post) start_position (Z.to_nat (zlen content)))
    as (fuel & Hfuel & Heq); [done|done|apply start_u64|done|rewrite Hc; unfold zlen; rewrite Nat2Z.id, !length_app; lia|].
  rewrite <- Hc, Hscan in Heq.
  assert (Hlf : zlen (log_file h before) = sp_offset (position_after start_position before)) by (by apply log_file_length).
  assert (Hlong : (length (a ++ w2 ++ b) = length (position_frame (position_after start_position before) record))%nat)
    by (rewrite Hfr, !length_app; lia).
  pose proof (position_frame_length (position_after start_position before) record) as Hfl.
  assert (kMinRecordBytes = 60) by reflexivity. pose proof (zlen_nonneg record.2).
  assert (Hz : zlen (a ++ w2 ++ b) = kMinRecordBytes + zlen record.2) by (rewrite <- Hfl; unfold zlen; by rewrite Hlong).
  assert (Hzc : zlen content = zlen (log_file h before) + zlen (a ++ w2 ++ b) + zlen post)
    by (unfold content; rewrite !zlen_app; lia).
  pose proof (zlen_nonneg post).
  destruct fuel as [|fuel]; cbn [scan_bytes] in Heq.
  { destruct (_ <=? _); by injection Heq. }
  rewrite (proj2 (Z.leb_gt _ _)) in Heq by lia.
  destruct (scan_step options content (position_after start_position before)) as [next|stop] eqn:Es; [|by injection Heq].
  by apply (burst_detected options (log_file h before) record a w1 w2 b post) in Es.
Qed.

(** C19: A damaged record is never replayed. Change at most four neighbouring bytes
    anywhere in the frame of one record of a log: then [Store::Open], under any
    recovery policy and whatever the operating system answers, fails, or leaves a
    store that holds exactly the records before the damaged one. *)
Theorem damage_is_never_replayed options h before record a w1 w2 b post w w' report s :
  sane_options options -> header_ok h -> Forall is_u8 h -> records_ok options (before ++ [record]) ->
  Forall (fun r => Forall is_u8 r.2) (before ++ [record]) -> Forall is_u8 post -> Forall is_u8 w2 ->
  position_frame (position_after start_position before) record = (a ++ w1 ++ b)%list ->
  length w1 = length w2 -> (length w1 <= 4)%nat -> w1 <> w2 ->
  content_of (so_path options) w = (log_file h before ++ (a ++ w2 ++ b) ++ post)%list ->
  store_open options w = (w', (report, inl s)) ->
  opens options w' s h before.
Proof.
  intros Hs Hh Hhu Hok Hu8 Hpu Hwu Hfr Hw Hle Hne Hc Hopen.
  apply Forall_app in Hok as [Hb [Hr _]%Forall_cons]. apply Forall_app in Hu8 as [Hbu [Hru _]%Forall_cons].
  assert (Hlu : Forall is_u8 (log_file h before)) by (apply Forall_app_2; [done|by apply frames_u8]).
  assert (Hcu : Forall is_u8 (content_of (so_path options) w)).
  { assert (Hfu : Forall is_u8 (position_frame (position_after start_position before) record))
      by (by apply position_frame_u8).
    rewrite Hfr in Hfu. apply Forall_app in Hfu as [Ha [_ Hb']%Forall_app]. rewrite Hc.
    rewrite !Forall_app; tauto. }
  apply store_open_sound in Hopen as (h' & found & tail & [Hh' Hr' Hf' ->] & Hcase); [|done].
  destruct Hcase as [[Hc' Hscan]|(Hnil & _)].
  2:{ rewrite Hc in Hnil. apply app_eq_nil in Hnil as [Hnil _]. by apply log_file_nonempty in Hnil. }
  rewrite Hc in Hscan, Hc'. pose proof (scan_stops options h before record a w1 w2 b post found
    Hs Hh Hb Hr Hru Hlu Hpu Hwu Hfr Hw Hle Hne Hscan) as Hpos.
  unfold log_file in Hc'. rewrite <- !app_assoc in Hc'.
  apply app_inj_1 in Hc' as [-> Hfr']; [|by rewrite (ho_length h Hh), (ho_length h' Hh')].
  assert (Heq : before = found).
  { eapply frames_inj; [exact Hs|exact Hb|exact Hr'| |exact Hfr']. rewrite !frames_length. by rewrite Hpos. }
  subst found. by split.
Qed.

(** ** Termination *)

Lemma scan_step_advances options content position next :
  scan_step options content position = inl next -> sp_offset position < sp_offset next.
Proof.
  unfold scan_step. case_match; [done|]. case_match; [done|]. case_match; [done|]. intros [= <-].
  unfold advance. cbn [sp_offset].
  match goal with H : check_header _ _ _ _ = None |- _ => apply first_stop_passed in H; rename H into Hpass end.
  apply Forall_cons in Hpass as [_ [Hs _]%Forall_cons]. cbn [fst] in Hs. apply Z.ltb_ge in Hs.
  assert (kMinRecordBytes = 60) by reflexivity. lia.
Qed.

(** Fuel beyond the bytes that are left makes no difference. *)
Lemma scan_bytes_fuel options content f1 f2 position :
  zlen content - sp_offset position <= Z.of_nat f1 -> zlen content - sp_offset position <= Z.of_nat f2 ->
  scan_bytes f1 options content position = scan_bytes f2 options content position.
Proof.
  revert f2 position. induction f1 as [|f1 IH]; intros [|f2] position H1 H2; cbn [scan_bytes]; [done|..];
    destruct (Z.leb_spec (zlen content) (sp_offset position)); try done; try lia.
  destruct (scan_step options content position) as [next|stop] eqn:Es; [|done].
  apply scan_step_advances in Es. apply IH; lia.
Qed.

(** C38: The scan of [Store::Open] terminates on any file. However many steps it is
    allowed beyond the size of the file, it returns the same result in a world
    whose calls succeed, and it ends at the end of the file unless it has found
    something to stop at. *)
Theorem scan_terminates path options fuel w :
  Forall is_u8 (content_of path w) -> reliable w -> kHeaderBytes <= zlen (content_of path w) ->
  zlen (content_of path w) <= Z.of_nat fuel ->
  exists final stopped,
    scan fuel (Some path) options (zlen (content_of path w)) start_position w = (w, inl (final, stopped)) /\
    scan (Z.to_nat (zlen (content_of path w))) (Some path) options (zlen (content_of path w)) start_position w
      = (w, inl (final, stopped)) /\
    (stopped = None -> sp_offset final = zlen (content_of path w)).
Proof.
  intros Hu8 Hw Hlen Hfuel. set (content := content_of path w) in *. assert (sp_offset start_position = 24) by done.
  unfold kHeaderBytes in Hlen.
  destruct (scan_computes fuel path options start_position w ltac:(done)) as (w1 & o1 & E1 & _ & _ & R1).
  destruct (scan_computes (Z.to_nat (zlen content)) path options start_position w ltac:(done)) as (w2 & o2 & E2 & _ & _ & R2).
  destruct (R1 Hw) as [-> ->]. destruct (R2 Hw) as [-> ->]. fold content in E1, E2. rewrite E1, E2.
  rewrite (scan_bytes_fuel options content fuel (Z.to_nat (zlen content))) by lia.
  destruct (scan_bytes (Z.to_nat (zlen content)) options content start_position) as [final stopped] eqn:Eb. exists final, stopped.
  split_and!; [done|done|]. intros ->. apply scan_bytes_sound in Eb as (records & tail & Hd & -> & _ & _ & Hend); [|done|lia].
  rewrite Hend, app_nil_r in Hd by (done || lia). pose proof (frames_length start_position records) as Hfl.
  rewrite <- Hd in Hfl. unfold zlen in *. rewrite length_drop in Hfl. lia.
Qed.

(** ** A concrete store *)

Definition store_options (policy : RecoveryPolicy.t) : StoreOptions := mkStoreOptions "log" 1000 100000 1000 true policy.

(** No files yet, and every call succeeds. *)
Definition empty_world : World := mkWorld ∅ [] None.

(** The store [open_and_visit] returns, and the records it found. *)
Definition opened_machine (policy : RecoveryPolicy.t) (w : World) : Machine :=
  match (open_and_visit (store_options policy) w).2 with
  | inl (m, _) => m
  | inr _ => mkMachine (opened_store None (store_options policy) start_position) w
  end.

Definition found_records (policy : RecoveryPolicy.t) (w : World) : Outcome (list LogRecord) :=
  match (open_and_visit (store_options policy) w).2 with inl (_, records) => inl records | inr e => inr e end.

(** The same store when the operating system answers from a script. *)
Definition answering (script : list Answer) (m : Machine) : Machine :=
  mkMachine (ma_store m) (mkWorld (w_files (ma_world m)) script None).

Definition appended_to (m : Machine) (record : LogRecord) : Machine := (store_append record.1 record.2 m).1.

Definition record1 : LogRecord := (RecordKind.SessionOpen, [1; 2; 3]).
Definition record2 : LogRecord := (RecordKind.Evidence, [4; 5]).
Definition record3 : LogRecord := (RecordKind.Evidence, [6]).

Definition new_machine : Machine := opened_machine RecoveryPolicy.Strict empty_world.
Definition full_machine : Machine := foldl appended_to new_machine [record1; record2; record3].

Example full_machine_reopens :
  found_records RecoveryPolicy.Strict (ma_world full_machine) = inl [record1; record2; record3].
Proof. vm_compute. reflexivity. Qed.

Lemma store_options_valid policy : valid_options (store_options policy).
Proof. split; vm_compute; discriminate || reflexivity. Qed.

Lemma full_machine_clean : store_clean full_machine file_header [record1; record2; record3].
Proof.
  split; [|apply file_header_ok|vm_compute; reflexivity].
  split; [vm_compute; reflexivity|repeat constructor; vm_compute; discriminate| |].
  - exists file_header, []. split; [apply file_header_ok|vm_compute; reflexivity].
  - intros _. right. split; [vm_compute; reflexivity|]. split; vm_compute; reflexivity.
Qed.

Lemma all_bytes_u8 (l : list Z) : forallb (fun b => (0 <=? b) && (b <? 256)) l = true -> Forall is_u8 l.
Proof.
  intros H. apply Forall_forall. intros b Hb. apply list_elem_of_In in Hb. pose proof (proj1 (forallb_forall _ _) H b Hb) as E.
  cbn beta in E. apply andb_true_iff in E as [?%Z.leb_le ?%Z.ltb_lt]. unfold is_u8. lia.
Qed.

(** The file of [full_machine] with the last twenty bytes missing. *)
Definition cut_world : World :=
  set_files {[ "log" := take 190 (content_of "log" (ma_world full_machine)) ]} empty_world.

Definition strict : StoreOptions := store_options RecoveryPolicy.Strict.
Definition salvage : StoreOptions := store_options RecoveryPolicy.SalvagePrefix.

(** The store an open returned, if it returned one. *)
Definition store_of (opened : World * (RecoveryReport * Outcome Store)) : Store :=
  match opened.2.2 with inl s => s | inr _ => opened_store None strict start_position end.

Definition cut_opened : World * (RecoveryReport * Outcome Store) := store_open strict cut_world.

Lemma open_recovers_a_log_witness :
  exists h tail, header_ok h /\ records_ok strict [record1; record2] /\
    w_files cut_opened.1 !! so_path strict = Some (log_file h [record1; record2]) /\
    (content_of (so_path strict) cut_world = (log_file h [record1; record2] ++ tail)%list \/
     content_of (so_path strict) cut_world = [] /\ [record1; record2] = [] /\ rr_created cut_opened.2.1 = true).
Proof.
  apply (open_recovers_a_log strict cut_world cut_opened.1 cut_opened.2.1 (store_of cut_opened)
           (store_visit (mkMachine (store_of cut_opened) cut_opened.1)).1 [record1; record2]).
  - vm_compute. reflexivity.
  - apply all_bytes_u8. vm_compute. reflexivity.
  - vm_compute. reflexivity.
  - vm_compute. reflexivity.
Defined.

(** An append cut off after forty bytes, and the file after a restart. *)
Definition torn_append : Machine * Outcome unit :=
  store_append RecordKind.Evidence [7; 8; 9] (answering [Short 40; Refused "EIO"] full_machine).
Definition torn_world : World := set_files (w_files (ma_world torn_append.1)) empty_world.

Lemma files_set_files files w : w_files (set_files files w) = files.
Proof. done. Qed.

Lemma answering_rep script m records :
  store_rep m records -> is_Some (st_file (ma_store m)) -> store_rep (answering script m) records.
Proof.
  intros [H1 H2 H3 H4] [f Hf]. split; [done|done|done|]. intros Hc.
  destruct (H4 Hc) as [(Hn & _)|?]; [by rewrite Hn in Hf|by right].
Qed.

Lemma append_survives_crash_witness :
  exists report m found, open_and_visit strict torn_world = (report, inl (m, found)) /\
    (found = ([record1; record2; record3] ++ [(RecordKind.Evidence, [7%Z; 8%Z; 9%Z])])%list \/
     torn_append.2 <> inl tt /\ found = [record1; record2; record3]).
Proof.
  assert (Hclean : store_clean (answering [Short 40; Refused "EIO"] full_machine) file_header [record1; record2; record3]).
  { destruct full_machine_clean as [H1 H2 H3]. split; [|done|exact H3].
    apply answering_rep; [done|]. exists "log". vm_compute. reflexivity. }
  assert (Ho : st_options (ma_store (answering [Short 40; Refused "EIO"] full_machine)) = strict)
    by (vm_compute; reflexivity).
  pose proof (append_survives_crash RecordKind.Evidence [7; 8; 9] (answering [Short 40; Refused "EIO"] full_machine)
           file_header [record1; record2; record3] torn_append.1 torn_append.2 torn_world Hclean) as H.
  rewrite Ho in H. apply H; [apply store_options_valid|vm_compute; reflexivity|split; reflexivity|apply files_set_files].
Defined.

Lemma rewrite_is_atomic_witness :
  let m := answering [Done; Done; Done; Short 30; Refused "ENOSPC"] full_machine in
  let m' := (store_rewrite [record3] m).1 in
  (w_files (ma_world m') !! "log" = w_files (ma_world m) !! "log" /\ (store_rewrite [record3] m).2 <> inl tt \/
   w_files (ma_world m') !! "log" = Some (log_file file_header [record3]) /\
     records_ok (store_options RecoveryPolicy.Strict) [record3]) /\
  ((store_rewrite [record3] m).2 = inl tt -> store_clean m' file_header [record3]).
Proof.
  intros m m'. apply (rewrite_is_atomic [record3] m [record1; record2; record3]); [|apply surjective_pairing].
  apply answering_rep; [apply full_machine_clean|]. exists "log". vm_compute. reflexivity.
Defined.

(** The payload of the second record changed on the disk. *)
Definition damaged_world : World :=
  set_files {[ "log" := <[112%nat := 77]> (content_of "log" (ma_world full_machine)) ]} empty_world.

Definition damaged_opened : World * (RecoveryReport * Outcome Store) := store_open salvage damaged_world.
Definition frame2 : list Z := position_frame (position_after start_position [record1]) record2.

Lemma damage_is_never_replayed_witness :
  opens salvage damaged_opened.1 (store_of damaged_opened) file_header [record1].
Proof.
  apply (damage_is_never_replayed salvage file_header [record1] record2
    (take 25 frame2) [5] [77] (drop 26 frame2) (frames (position_after start_position [record1; record2]) [record3])
    damaged_world damaged_opened.1 damaged_opened.2.1 (store_of damaged_opened)).
  - vm_compute. reflexivity.
  - apply file_header_ok.
  - apply all_bytes_u8. vm_compute. reflexivity.
  - repeat constructor; vm_compute; discriminate.
  - repeat constructor; vm_compute; discriminate || reflexivity.
  - apply all_bytes_u8. vm_compute. reflexivity.
  - apply all_bytes_u8. vm_compute. reflexivity.
  - vm_compute. reflexivity.
  - reflexivity.
  - cbn. lia.
  - discriminate.
  - vm_compute. reflexivity.
  - vm_compute. reflexivity.
Defined.

Lemma scan_terminates_witness :
  exists final stopped,
    scan 400 (Some "log") (store_options RecoveryPolicy.Strict) 190 start_position cut_world
      = (cut_world, inl (final, stopped)) /\
    scan (Z.to_nat 190) (Some "log") (store_options RecoveryPolicy.Strict) 190 start_position cut_world
      = (cut_world, inl (final, stopped)) /\
    (stopped = None -> sp_offset final = 190).
Proof.
  assert (E : zlen (content_of "log" cut_world) = 190) by (vm_compute; reflexivity).
  pose proof (scan_terminates "log" (store_options RecoveryPolicy.Strict) 400 cut_world) as H. rewrite E in H.
  apply H; [apply all_bytes_u8; vm_compute; reflexivity|split; reflexivity|vm_compute; discriminate|vm_compute; discriminate].
Defined.

(** ** Runs in which the store does less than it says *)

(** The third byte of the length of the first frame is changed: the record it
    belongs to looks longer than the file. *)
Definition length_damaged_world : World :=
  set_files {[ "log" := <[27%nat := 9]> (content_of "log" (ma_world full_machine)) ]} empty_world.

(** Under the [Strict] policy, documented to refuse to open on any damage,
    damage to the length of an early record is taken for an unfinished final
    record: the open succeeds and truncates the file to its header, and the two
    undamaged records behind the first are discarded with it. *)
Theorem strict_open_discards_intact_records :
  found_records RecoveryPolicy.Strict (ma_world full_machine) = inl [record1; record2; record3] /\
  found_records RecoveryPolicy.Strict length_damaged_world = inl [] /\
  content_of "log" (ma_world (opened_machine RecoveryPolicy.Strict length_damaged_world)) = file_header.
Proof. vm_compute. done. Qed.

(** An append whose flush fails. *)
Definition unflushed : Machine * Outcome unit :=
  store_append record3.1 record3.2 (answering [Done; Refused "EIO"] (appended_to new_machine record1)).

(** An append that is refused because its flush failed is not undone: the
    store reports an error and does not count the record, and the next open
    replays it. *)
Theorem refused_append_is_replayed :
  (exists e, unflushed.2 = inr e) /\
  st_next_sequence (ma_store unflushed.1) = 2 /\
  found_records RecoveryPolicy.Strict (set_files (w_files (ma_world unflushed.1)) empty_world) = inl [record1; record3].
Proof. split; [|split]; [eexists|..]; vm_compute; reflexivity. Qed.

(** A long append whose flush fails, and then a short one that succeeds. *)
Definition overlapped : Machine * Outcome unit :=
  store_append record3.1 record3.2
    (answering [] (store_append RecordKind.Evidence (repeat 0 80)
       (answering [Done; Refused "EIO"] (appended_to new_machine record1))).1).

(** The bytes of a failed append stay behind the end of the log, where a
    shorter append that follows overwrites them only in part: although every
    append after the failed one succeeded and nothing damaged the file, the store
    no longer opens under the default policy. *)
Theorem acknowledged_append_blocks_open :
  overlapped.2 = inl tt /\
  exists e, found_records RecoveryPolicy.Strict (ma_world overlapped.1) = inr e /\ err_code e = ErrorCode.CorruptStore.
Proof. split; [|eexists; split]; vm_compute; reflexivity. Qed.

(** A compaction whose rename succeeds and whose reopen fails, a compaction whose
    rename fails, and then an append. *)
Definition stale : Machine * Outcome unit :=
  let m1 := (store_rewrite [record1] (answering [Done; Done; Done; Done; Done; Done; Refused "EMFILE"] full_machine)).1 in
  let m2 := (store_rewrite [record1] (answering [Done; Done; Done; Done; Done; Refused "EBUSY"] m1)).1 in
  store_append record3.1 record3.2 (answering [] m2).

(** After a rewrite that replaced the file and could not reopen it, the store
    keeps the offset and chain of the old log. A later rewrite whose rename fails
    restores the handle without them, so the next append is acknowledged and
    written beyond the end of the new log: the store no longer opens under the
    default policy, and a salvage loses the acknowledged record. *)
Theorem stale_offsets_lose_appends :
  stale.2 = inl tt /\
  (exists e, found_records RecoveryPolicy.Strict (ma_world stale.1) = inr e /\ err_code e = ErrorCode.CorruptStore) /\
  found_records RecoveryPolicy.SalvagePrefix (ma_world stale.1) = inl [record1].
Proof. split_and!; [|eexists; split|]; vm_compute; reflexivity. Qed.
