(* ===== verification/Admit.v ===== *)
(** * Admission of evidence ([src/registry.cpp]): shape checks and decisions

    The pure half of ingestion.  [validate_evidence_shape] is the gate every
    record passes first.  [decide] resolves each claim key a record touches
    and stages the change; it never writes.  The label index is a cache that
    [decide] may have to rebuild, so it is threaded explicitly. *)
From S2P Require Import Prelude OrdMap Types Ids Graph Codec Serialization State Fold Derive.
#[local] Open Scope string_scope.
#[local] Open Scope Z_scope.

(** ** Shape checks

    A check returns [None] when it passes and the error text otherwise. *)

Definition kMaxObjectIncarnation : Z := Z.shiftl 1 32.

Definition fits (text : string) (max_bytes : Z) : bool := slen text <=? max_bytes.

(** [enumerator > Last]. *)
Definition above {E} `{Enum E} (value last : E) : bool := enum_code last <? enum_code value.

(** The early returns of a validator: the first failing check decides. *)
Fixpoint first_error (checks : list (bool * string)) : option string :=
  match checks with
  | [] => None
  | (fails, error) :: rest => if fails : bool then Some error else first_error rest
  end.

Definition validate_object_descriptor (descriptor : ObjectDescriptor) (limits : Limits) : option string :=
  first_error [
    (is_nil (od_id descriptor), "object identity is nil");
    (zlen (od_sides descriptor) =? 0, "an object must declare at least one side");
    (max_sides_per_object limits <? zlen (od_sides descriptor),
      "an object declares more sides than the configured limit");
    (negb (fits (od_label descriptor) (max_string_bytes limits))
     || negb (fits (od_serial descriptor) (max_string_bytes limits))
     || negb (fits (od_location descriptor) (max_string_bytes limits)),
      "an object descriptor string exceeds the configured limit");
    (negb (fits (nc_code (od_capability descriptor)) (max_capability_code_bytes limits)),
      "the capability code exceeds the configured limit");
    (above (od_kind descriptor) ObjectKind.Other, "the object kind is not recognised");
    (existsb (fun side => above (sd_connector side) ConnectorClass.Other
                          || above (sd_media side) MediaClass.Other) (od_sides descriptor),
      "a side descriptor uses an unrecognised connector or media class");
    (above (nc_media (od_capability descriptor)) MediaClass.Other
     || above (nc_connector (od_capability descriptor)) ConnectorClass.Other,
      "the capability vocabulary is not recognised")].

Definition validate_endpoint_descriptor (descriptor : EndpointDescriptor) (limits : Limits) : option string :=
  first_error [
    (is_nil (ed_id descriptor), "endpoint identity is nil");
    ((ed_port_count descriptor =? 0) || (max_ports_per_endpoint limits <? ed_port_count descriptor),
      "the endpoint port count is outside the configured range");
    (negb (fits (ed_name descriptor) (max_string_bytes limits))
     || negb (fits (ed_location descriptor) (max_string_bytes limits)),
      "an endpoint descriptor string exceeds the configured limit");
    (above (ed_kind descriptor) EndpointKind.Other, "the endpoint kind is not recognised");
    ((pc_max_attachments (ed_default_capability descriptor) =? 0)
     || (max_port_simultaneous_attachments limits <? pc_max_attachments (ed_default_capability descriptor)),
      "the default port capability is outside the configured range")].

Definition validate_header (header : EvidenceHeader) (limits : Limits) : option string :=
  first_error [
    (is_nil (hdr_id header), "evidence identity is nil");
    (is_nil (hdr_source header), "source identity is nil");
    (hdr_incarnation header =? 0, "the source incarnation must be at least one");
    (hdr_generation header =? 0, "the evidence generation must be at least one");
    (negb (hdr_schema header =? kEvidenceSchemaVersion),
      "unsupported evidence schema version " +:+ to_dec (hdr_schema header));
    (negb (fits (hdr_detail header) (max_string_bytes limits)),
      "the provenance detail exceeds the configured limit");
    (above (hdr_provenance header) ProvenanceClass.Synthetic, "the provenance class is not recognised")].

Definition validate_attachment_payload (payload : EvidencePayload) (limits : Limits) : option string :=
  match payload with
  | Attach p => first_error [
      (is_nil (side_object (at_subject p)) || is_nil (port_endpoint (at_port p)),
        "the attachment names a nil identity");
      (at_incarnation p =? 0, "the object incarnation must be at least one");
      (max_port_simultaneous_attachments limits <=? at_slot p,
        "the attachment slot exceeds the configured limit")]
  | Detach p => first_error [
      (is_nil (side_object (de_subject p)), "the detachment names a nil object");
      (de_incarnation p =? 0, "the object incarnation must be at least one");
      (de_has_from_port p && is_nil (port_endpoint (de_from_port p)), "the detachment names a nil port");
      (max_port_simultaneous_attachments limits <=? de_slot p,
        "the detachment slot exceeds the configured limit")]
  | Move p => first_error [
      (is_nil (side_object (mv_subject p)) || is_nil (port_endpoint (mv_from p))
       || is_nil (port_endpoint (mv_to p)), "the move names a nil identity");
      (mv_incarnation p =? 0, "the object incarnation must be at least one");
      ((max_port_simultaneous_attachments limits <=? mv_from_slot p)
       || (max_port_simultaneous_attachments limits <=? mv_to_slot p),
        "the move slot exceeds the configured limit")]
  | _ => None
  end.

Definition validate_other_payload (payload : EvidencePayload) (limits : Limits) : option string :=
  match payload with
  | PublishObjectCapability p => first_error [
      (is_nil (po_object p), "the capability publication names a nil object");
      (negb (fits (nc_code (po_capability p)) (max_capability_code_bytes limits)),
        "the capability code exceeds the configured limit");
      (above (nc_media (po_capability p)) MediaClass.Other
       || above (nc_connector (po_capability p)) ConnectorClass.Other,
        "the capability vocabulary is not recognised")]
  | PublishPortCapability p => first_error [
      (is_nil (port_endpoint (pp_port p)), "the capability publication names a nil endpoint");
      ((pc_max_attachments (pp_capability p) =? 0)
       || (max_port_simultaneous_attachments limits <? pc_max_attachments (pp_capability p)),
        "the port capability is outside the configured range")]
  | SetLifecycle p => first_error [
      (is_nil (sl_object p), "the lifecycle assertion names a nil object");
      (sl_incarnation p =? 0, "the object incarnation must be at least one");
      (above (sl_action p) LifecycleAction.Retired, "the lifecycle action is not recognised");
      (negb (fits (sl_reason p) (max_string_bytes limits)),
        "the lifecycle reason exceeds the configured limit")]
  | ReincarnateObject p => first_error [
      (is_nil (re_object p), "the reincarnation names a nil object");
      ((re_from_incarnation p =? 0) || (kMaxObjectIncarnation <? wrap64 (re_from_incarnation p + 1)),
        "the reincarnation source incarnation is outside the supported range");
      (negb (fits (re_serial p) (max_string_bytes limits))
       || negb (fits (re_reason p) (max_string_bytes limits)),
        "a reincarnation string exceeds the configured limit")]
  | _ => None
  end.

Definition validate_evidence_shape (evidence : Evidence) (limits : Limits) : option string :=
  match validate_header (ev_header evidence) limits with
  | Some error => Some error
  | None =>
      match ev_payload evidence with
      | RegisterObject descriptor => validate_object_descriptor descriptor limits
      | RegisterEndpoint descriptor => validate_endpoint_descriptor descriptor limits
      | Attach _ | Detach _ | Move _ => validate_attachment_payload (ev_payload evidence) limits
      | _ => validate_other_payload (ev_payload evidence) limits
      end
  end.

(** ** Staged changes *)

Record PortUpdate := mkPortUpdate { pu_key : PortSlotKey; pu_value : PortValue }.

(** What a record does to one table: nothing, a write ([has_x]) or an entry in
    the supersession ring only ([ring_x]), with the key and value members that
    go with the flag. *)
Inductive Stage (K V : Type) :=
  | NoStage
  | StageWrite (key : K) (value : V)
  | StageRing (key : K).
Arguments NoStage {K V}.
Arguments StageWrite {K V} _ _.
Arguments StageRing {K V} _.

(** [StagedChange].  [ring_only] is never set by the source and is left out. *)
Record StagedChange := mkStagedChange {
  sc_meta : Attestation;
  sc_object_registration : Stage ObjectId ObjectDescriptor;
  sc_endpoint_registration : Stage EndpointId EndpointDescriptor;
  sc_subject : Stage ObjectSideRef SubjectValue;
  sc_port_updates : list PortUpdate;
  sc_ring_port_keys : list PortSlotKey;
  sc_lifecycle : Stage ObjectId LifecycleValue;
  sc_reincarnation : Stage ObjectId ReincarnationValue;
  sc_object_capability : Stage ObjectId NominalCapability;
  sc_port_capability : Stage PortRef PortCapability;
  sc_apply : bool;
}.

Definition no_change (meta : Attestation) : StagedChange :=
  mkStagedChange meta NoStage NoStage NoStage [] [] NoStage NoStage NoStage NoStage false.

Definition stage_object_registration meta s :=
  mkStagedChange meta s NoStage NoStage [] [] NoStage NoStage NoStage NoStage true.
Definition stage_endpoint_registration meta s :=
  mkStagedChange meta NoStage s NoStage [] [] NoStage NoStage NoStage NoStage true.
Definition stage_attachment meta s updates ring_keys :=
  mkStagedChange meta NoStage NoStage s updates ring_keys NoStage NoStage NoStage NoStage true.
Definition stage_lifecycle meta s :=
  mkStagedChange meta NoStage NoStage NoStage [] [] s NoStage NoStage NoStage true.
Definition stage_reincarnation meta s :=
  mkStagedChange meta NoStage NoStage NoStage [] [] NoStage s NoStage NoStage true.
Definition stage_object_capability meta s :=
  mkStagedChange meta NoStage NoStage NoStage [] [] NoStage NoStage s NoStage true.
Definition stage_port_capability meta s :=
  mkStagedChange meta NoStage NoStage NoStage [] [] NoStage NoStage NoStage s true.

(** What [decide] leaves in its two out-parameters: the disposition and detail
    of the result, and the staged change. *)
Record Ruling := mkRuling {
  dc_disposition : IngestDisposition.t;
  dc_detail : string;
  dc_change : StagedChange;
}.

Definition effective_disposition (base : IngestDisposition.t)
    (session_fenced fenced_incarnation future_incarnation : bool) : IngestDisposition.t :=
  match base with
  | IngestDisposition.Duplicate | IngestDisposition.RefusedConflict
  | IngestDisposition.AcceptedSuperseded | IngestDisposition.RefusedLabelConflict
  | IngestDisposition.RefusedCapacity | IngestDisposition.RefusedInvalid => base
  | _ =>
      if session_fenced then IngestDisposition.AcceptedFencedSource
      else if fenced_incarnation then IngestDisposition.AcceptedFencedIncarnation
      else if future_incarnation then IngestDisposition.AcceptedPendingIncarnation
      else base
  end.

(** ** Key plans *)

Record KeyPlan := mkKeyPlan {
  kp_write : bool; kp_ring : bool; kp_duplicate : bool; kp_collision : bool }.

Definition plan_of (outcome : GenerationOutcome) : KeyPlan :=
  match outcome with
  | Insert => mkKeyPlan true false false false
  | Superseded => mkKeyPlan false true false false
  | Duplicate => mkKeyPlan false false true false
  | Collision => mkKeyPlan false false false true
  end.

(** The outcome of writing one claim key, given what already lives there and
    how the source compares values of the table. *)
Definition existing_outcome {K O V} `{Ord K, Ord O} (same : V -> V -> bool) (g : groups K O V)
    (key : K) (owner : O) (meta : Attestation) (value : V) : GenerationOutcome :=
  match map_find key g with
  | None => Insert
  | Some group =>
      match map_find owner group with
      | None => Insert
      | Some existing => compare_generation (fd_meta existing) meta (same (fd_value existing) value)
      end
  end.

Definition same_value {A} `{EqDecision A} (a b : A) : bool := bool_decide (a = b).

(** ** The label index *)

Record LabelCache := mkLabelCache {
  lc_index : ordmap string (ordmap ObjectId unit);
  lc_valid : bool;
}.

Definition index_insert (label : string) (object : ObjectId) (index : ordmap string (ordmap ObjectId unit))
    : ordmap string (ordmap ObjectId unit) :=
  map_set label (map_set object tt (default [] (map_find label index))) index.

Definition is_empty (text : string) : bool := slen text =? 0.

Definition rebuild_label_index (state : RegistryState) : LabelCache :=
  mkLabelCache
    (foldl (fun index entry =>
       foldl (fun index owner =>
         let label := od_label (fd_value owner.2) in
         if is_empty label then index else index_insert label entry.1 index) index entry.2)
     [] (rs_object_registrations state))
    true.

(** [label_holders]: the holders, and the cache afterwards. *)
Definition label_holders (state : RegistryState) (cache : LabelCache) (label : string)
    : list ObjectId * LabelCache :=
  let cache := if lc_valid cache then cache else rebuild_label_index state in
  (match map_find label (lc_index cache) with None => [] | Some holders => holders.*1 end, cache).

(** ** Decisions *)

(** The three early returns every single-key case shares, after which only a
    new or winning record is left. *)
Definition resolve (outcome : GenerationOutcome) (meta : Attestation)
    (collision_text duplicate_text superseded_text : string) (ring : StagedChange)
    (insert : Ruling) : Ruling :=
  match outcome with
  | Collision => mkRuling IngestDisposition.RefusedConflict
                   ("generation " +:+ to_dec (att_generation meta) +:+ collision_text) (no_change meta)
  | Duplicate => mkRuling IngestDisposition.Duplicate duplicate_text (no_change meta)
  | Superseded => mkRuling IngestDisposition.AcceptedSuperseded superseded_text ring
  | Insert => insert
  end.

Section decide.
Context (limits : Limits) (state : RegistryState) (meta : Attestation).

Definition finish (base : IngestDisposition.t) (fenced_incarnation future_incarnation : bool)
    : IngestDisposition.t :=
  effective_disposition base (session_is_fenced state (att_owner meta)) fenced_incarnation
    future_incarnation.

(** The first holder of the label, other than the object itself, that still
    registers it and is not retired. *)
Definition holds_label (label : string) (holder : ObjectId) : bool :=
  match map_find holder (rs_object_registrations state) with
  | None => false
  | Some other => existsb (fun owner => same_value (od_label (fd_value owner.2)) label) other
  end.

Definition blocks_label (object : ObjectId) (label : string) (holder : ObjectId) : bool :=
  if keqb holder object then false
  else if negb (holds_label label holder) then false
  else
    let '(action, _, _) := lifecycle_action_of state holder in
    negb (bool_decide (action = LifecycleAction.Retired)).

Definition decide_register_object (cache : LabelCache) (descriptor : ObjectDescriptor)
    : Ruling * LabelCache :=
  let outcome := existing_outcome same_value (rs_object_registrations state) (od_id descriptor)
                   (att_owner meta) meta descriptor in
  let early := resolve outcome meta " already carries a different object registration"
    "the object registration is already recorded"
    "a newer generation of this source already registered the object"
    (stage_object_registration meta (StageRing (od_id descriptor))) in
  match outcome with
  | Insert =>
      let '(holders, cache) :=
        if is_empty (od_label descriptor) then ([], cache)
        else label_holders state cache (od_label descriptor) in
      match List.find (blocks_label (od_id descriptor) (od_label descriptor)) holders with
      | Some holder =>
          (mkRuling IngestDisposition.RefusedLabelConflict
             ("the physical label is already bound to live object " +:+ to_hex (sid_value holder))
             (no_change meta), cache)
      | None =>
          (if negb (bool_decide (is_Some (map_find (od_id descriptor) (rs_object_registrations state))))
              && (max_objects limits <=? zlen (rs_object_registrations state))
           then mkRuling IngestDisposition.RefusedCapacity
                  "the registry has reached its object limit" (no_change meta)
           else mkRuling (finish IngestDisposition.Accepted false false) ""
                  (stage_object_registration meta (StageWrite (od_id descriptor) descriptor)), cache)
      end
  | _ => (early (mkRuling IngestDisposition.Accepted "" (no_change meta)), cache)
  end.

Definition decide_register_endpoint (descriptor : EndpointDescriptor) : Ruling :=
  resolve (existing_outcome same_value (rs_endpoint_registrations state) (ed_id descriptor)
             (att_owner meta) meta descriptor) meta
    " already carries a different endpoint registration"
    "the endpoint registration is already recorded"
    "a newer generation of this source already registered the endpoint"
    (stage_endpoint_registration meta (StageRing (ed_id descriptor)))
    (if negb (bool_decide (is_Some (map_find (ed_id descriptor) (rs_endpoint_registrations state))))
        && (max_endpoints limits <=? zlen (rs_endpoint_registrations state))
     then mkRuling IngestDisposition.RefusedCapacity
            "the registry has reached its endpoint limit" (no_change meta)
     else mkRuling (finish IngestDisposition.Accepted false false) ""
            (stage_endpoint_registration meta (StageWrite (ed_id descriptor) descriptor))).

(** *** Attach, Detach and Move *)

Definition new_port_key (port : PortRef) (slot : Z) : PortSlotKey :=
  mkPortSlotKey (att_owner meta) port slot.

Definition port_capacity_reached (port : PortRef) (key : PortSlotKey) : bool :=
  match map_find port (rs_port_records state) with
  | None => false
  | Some found =>
      match map_find key found with
      | Some _ => false
      | None => max_claim_records_per_port limits <=? zlen found
      end
  end.

(** The subject value and the port updates a record of the three kinds
    stands for. *)
Definition attach_updates (p : AttachPayload) : list PortUpdate :=
  [mkPortUpdate (new_port_key (at_port p) (at_slot p)) (mkPortValue (at_incarnation p) false (at_subject p))].

Definition detach_updates (p : DetachPayload) : list PortUpdate :=
  if de_has_from_port p then
    [mkPortUpdate (new_port_key (de_from_port p) (de_slot p))
       (mkPortValue (de_incarnation p) true (de_subject p))]
  else [].

Definition move_updates (p : MovePayload) : list PortUpdate :=
  let same_place := keqb (mv_from p) (mv_to p) && (mv_from_slot p =? mv_to_slot p) in
  mkPortUpdate (new_port_key (mv_to p) (mv_to_slot p)) (mkPortValue (mv_incarnation p) false (mv_subject p))
  :: (if negb same_place then
        [mkPortUpdate (new_port_key (mv_from p) (mv_from_slot p))
           (mkPortValue (mv_incarnation p) true (mv_subject p))]
      else []).

(** [change.subject_value]: the port and slot come from the first update when
    the record attaches. *)
Definition subject_value_of (incarnation : Z) (attached via_move : bool) (move_from : PortRef)
    (updates : list PortUpdate) : SubjectValue :=
  match attached, updates with
  | true, front :: _ =>
      mkSubjectValue incarnation true
        (if pt_empty (pu_value front) then default_port else ps_port (pu_key front))
        (ps_slot (pu_key front)) via_move move_from
  | _, _ => mkSubjectValue incarnation attached default_port 0 via_move move_from
  end.

Definition port_plan (update : PortUpdate) : KeyPlan :=
  plan_of (existing_outcome same_value (rs_port_records state) (ps_port (pu_key update))
             (pu_key update) meta (pu_value update)).

Definition decide_attachment (subject : ObjectSideRef) (value : SubjectValue)
    (updates : list PortUpdate) : Ruling :=
  if existsb (fun update => port_capacity_reached (ps_port (pu_key update)) (pu_key update)) updates then
    mkRuling IngestDisposition.RefusedCapacity
      "the port already carries the maximum number of distinct claims" (no_change meta)
  else
    let subject_plan := plan_of (existing_outcome same_value (rs_subject_records state) subject
                                   (att_owner meta) meta value) in
    let port_plans := (fun update => (update, port_plan update)) <$> updates in
    if kp_collision subject_plan || existsb (fun p => kp_collision p.2) port_plans then
      mkRuling IngestDisposition.RefusedConflict
        ("generation " +:+ to_dec (att_generation meta)
         +:+ " already carries different content for this claim key") (no_change meta)
    else
      let writes := kp_write subject_plan || existsb (fun p => kp_write p.2) port_plans in
      let rings := kp_ring subject_plan || existsb (fun p => kp_ring p.2) port_plans in
      if negb writes && negb rings then
        mkRuling IngestDisposition.Duplicate "the record is already stored at this generation"
          (no_change meta)
      else
        let change := stage_attachment meta
          (if kp_write subject_plan then StageWrite subject value
           else if kp_ring subject_plan then StageRing subject else NoStage)
          (fst <$> filter (fun p => kp_write p.2 = true) port_plans)
          ((fun p => pu_key p.1) <$> filter (fun p => kp_ring p.2 = true) port_plans) in
        if negb writes then
          mkRuling IngestDisposition.AcceptedSuperseded
            "a newer generation of this source already owns every claim key" change
        else
          let current := object_incarnation_of state (side_object subject) in
          let pending := negb (object_exists state (side_object subject))
            || existsb (fun update => negb (port_exists state (ps_port (pu_key update)))) updates in
          mkRuling
            (finish (if pending then IngestDisposition.AcceptedPendingReference
                     else IngestDisposition.Accepted)
               (su_incarnation value <? current) (current <? su_incarnation value)) "" change.

Definition decide_attach (p : AttachPayload) : Ruling :=
  let updates := attach_updates p in
  decide_attachment (at_subject p) (subject_value_of (at_incarnation p) true false default_port updates) updates.

Definition decide_detach (p : DetachPayload) : Ruling :=
  let updates := detach_updates p in
  decide_attachment (de_subject p) (subject_value_of (de_incarnation p) false false default_port updates) updates.

Definition decide_move (p : MovePayload) : Ruling :=
  let updates := move_updates p in
  decide_attachment (mv_subject p) (subject_value_of (mv_incarnation p) true true (mv_from p) updates) updates.

(** *** Lifecycle, reincarnation and capabilities *)

(** The lifecycle comparison looks at action and reason only. *)
Definition same_lifecycle (existing incoming : LifecycleValue) : bool :=
  same_value (lv_action existing) (lv_action incoming) && same_value (lv_reason existing) (lv_reason incoming).

Definition decide_set_lifecycle (p : SetLifecyclePayload) : Ruling :=
  let value := mkLifecycleValue (sl_incarnation p) (sl_action p) (sl_reason p) in
  let current := object_incarnation_of state (sl_object p) in
  resolve (existing_outcome same_lifecycle (rs_lifecycle_records state) (sl_object p)
             (att_owner meta) meta value) meta
    " already carries a different lifecycle assertion"
    "the lifecycle assertion is already recorded"
    "a newer generation of this source already asserted the lifecycle"
    (stage_lifecycle meta (StageRing (sl_object p)))
    (mkRuling
       (finish (if object_exists state (sl_object p) then IngestDisposition.Accepted
                else IngestDisposition.AcceptedPendingReference)
          (sl_incarnation p <? current) (current <? sl_incarnation p)) ""
       (stage_lifecycle meta (StageWrite (sl_object p) value))).

Definition same_reincarnation (existing incoming : ReincarnationValue) : bool :=
  (ri_from existing =? ri_from incoming) && same_value (ri_serial existing) (ri_serial incoming)
  && same_value (ri_reason existing) (ri_reason incoming).

Definition decide_reincarnate (p : ReincarnateObjectPayload) : Ruling :=
  let value := mkReincarnationValue (re_from_incarnation p) (wrap64 (re_from_incarnation p + 1))
                 (re_serial p) (re_reason p) in
  let current := object_incarnation_of state (re_object p) in
  let ring := stage_reincarnation meta (StageRing (re_object p)) in
  let write := stage_reincarnation meta (StageWrite (re_object p) value) in
  resolve (existing_outcome same_reincarnation (rs_reincarnation_records state) (re_object p)
             (att_owner meta) meta value) meta
    " already carries a different reincarnation"
    "the reincarnation is already recorded"
    "a newer generation of this source already asserted a reincarnation"
    ring
    (if negb (object_exists state (re_object p)) then
       mkRuling (finish IngestDisposition.AcceptedPendingReference false false) "" write
     else if ri_target value <=? current then
       mkRuling IngestDisposition.AcceptedSuperseded
         ("the object is already at incarnation " +:+ to_dec current +:+ " or beyond") ring
     else mkRuling (finish IngestDisposition.Accepted false false) "" write).

Definition decide_publish_object (p : PublishObjectCapabilityPayload) : Ruling :=
  resolve (existing_outcome same_value (rs_object_capability_records state) (po_object p)
             (att_owner meta) meta (po_capability p)) meta
    " already carries a different capability"
    "the capability publication is already recorded"
    "a newer generation of this source already published the capability"
    (stage_object_capability meta (StageRing (po_object p)))
    (mkRuling
       (finish (if object_exists state (po_object p) then IngestDisposition.Accepted
                else IngestDisposition.AcceptedPendingReference) false false) ""
       (stage_object_capability meta (StageWrite (po_object p) (po_capability p)))).

Definition decide_publish_port (p : PublishPortCapabilityPayload) : Ruling :=
  resolve (existing_outcome same_value (rs_port_capability_records state) (pp_port p)
             (att_owner meta) meta (pp_capability p)) meta
    " already carries a different port capability"
    "the port capability publication is already recorded"
    "a newer generation of this source already published the port capability"
    (stage_port_capability meta (StageRing (pp_port p)))
    (mkRuling
       (finish (if port_exists state (pp_port p) then IngestDisposition.Accepted
                else IngestDisposition.AcceptedPendingReference) false false) ""
       (stage_port_capability meta (StageWrite (pp_port p) (pp_capability p)))).

Definition decide_evidence (cache : LabelCache) (evidence : Evidence) : Ruling * LabelCache :=
  match ev_payload evidence with
  | RegisterObject descriptor => decide_register_object cache descriptor
  | RegisterEndpoint descriptor => (decide_register_endpoint descriptor, cache)
  | Attach p => (decide_attach p, cache)
  | Detach p => (decide_detach p, cache)
  | Move p => (decide_move p, cache)
  | SetLifecycle p => (decide_set_lifecycle p, cache)
  | ReincarnateObject p => (decide_reincarnate p, cache)
  | PublishObjectCapability p => (decide_publish_object p, cache)
  | PublishPortCapability p => (decide_publish_port p, cache)
  end.
End decide.

(** * Facts *)

(** ** What passes the shape checks can be encoded *)

(** The ranges C++ gives the integer members of a record. *)
Definition typed_capability (c : NominalCapability) : Prop :=
  is_u16 (nc_lanes c) /\ is_u64 (nc_lane_rate_kbps c) /\ is_u64 (nc_total_kbps c) /\ is_u64 (nc_reach_mm c).

Definition typed_port_capability (c : PortCapability) : Prop :=
  is_u32 (pc_max_attachments c) /\ is_u16 (pc_lanes c).

Definition typed_payload (payload : EvidencePayload) : Prop :=
  match payload with
  | RegisterObject d => id_ok (od_id d) /\ Forall wf_side_descriptor (od_sides d) /\
                        typed_capability (od_capability d)
  | RegisterEndpoint d => id_ok (ed_id d) /\ is_u32 (ed_port_count d) /\
                          typed_port_capability (ed_default_capability d)
  | Attach p => wf_side_ref (at_subject p) /\ wf_port_ref (at_port p) /\ is_u64 (at_incarnation p) /\
                is_u32 (at_slot p)
  | Detach p => wf_side_ref (de_subject p) /\ is_u64 (de_incarnation p) /\ wf_port_ref (de_from_port p) /\
                is_u32 (de_slot p)
  | Move p => wf_side_ref (mv_subject p) /\ is_u64 (mv_incarnation p) /\ wf_port_ref (mv_from p) /\
              wf_port_ref (mv_to p) /\ is_u32 (mv_from_slot p) /\ is_u32 (mv_to_slot p)
  | PublishObjectCapability p => id_ok (po_object p) /\ typed_capability (po_capability p)
  | PublishPortCapability p => wf_port_ref (pp_port p) /\ typed_port_capability (pp_capability p)
  | SetLifecycle p => id_ok (sl_object p) /\ is_u64 (sl_incarnation p)
  | ReincarnateObject p => id_ok (re_object p) /\ is_u64 (re_from_incarnation p)
  end.

Definition typed_evidence (evidence : Evidence) : Prop :=
  let h := ev_header evidence in
  id_ok (hdr_id h) /\ id_ok (hdr_source h) /\ is_u64 (hdr_incarnation h) /\ is_u64 (hdr_generation h) /\
  is_i64 (hdr_observed_at h) /\ typed_payload (ev_payload evidence).

Lemma first_error_none checks : first_error checks = None <-> Forall (fun c => c.1 = false) checks.
Proof.
  induction checks as [|[[] e] l IH]; cbn; [done| |].
  - split; [done|]. by inversion 1.
  - rewrite IH, Forall_cons. naive_solver.
Qed.

Lemma fits_true text n : fits text n = true <-> slen text <= n.
Proof. apply Z.leb_le. Qed.

(** Turns a passed validator into the facts its checks establish. *)
Ltac checked H :=
  cbv beta delta [validate_header validate_object_descriptor validate_endpoint_descriptor] in H;
  rewrite first_error_none in H; repeat rewrite Forall_cons in H; cbn [fst] in H; destruct_and? H;
  repeat match goal with
  | H : (_ || _) = false |- _ => apply orb_false_iff in H as [? ?]
  | H : negb _ = false |- _ => apply negb_false_iff in H
  | H : fits _ _ = true |- _ => apply fits_true in H
  | H : (_ =? _) = false |- _ => apply Z.eqb_neq in H
  | H : (_ =? _) = true |- _ => apply Z.eqb_eq in H
  | H : (_ <? _) = false |- _ => apply Z.ltb_ge in H
  | H : (_ <=? _) = false |- _ => apply Z.leb_gt in H
  end.

Lemma validated_header limits h :
  validate_header h limits = None -> id_ok (hdr_id h) -> id_ok (hdr_source h) ->
  is_u64 (hdr_incarnation h) -> is_u64 (hdr_generation h) -> is_i64 (hdr_observed_at h) ->
  wf_header limits h.
Proof. intros H. checked H. intros. unfold wf_header, wf_string. split_and!; done. Qed.

Lemma validated_object limits d :
  validate_object_descriptor d limits = None -> typed_payload (RegisterObject d) ->
  wf_object_descriptor limits d.
Proof.
  intros H (Hid & Hs & Hc). checked H. destruct Hc as (? & ? & ? & ?).
  unfold wf_object_descriptor, wf_string, wf_capability. split_and!; done.
Qed.

Lemma validated_endpoint limits d :
  validate_endpoint_descriptor d limits = None -> typed_payload (RegisterEndpoint d) ->
  wf_endpoint_descriptor limits d.
Proof.
  intros H (Hid & Hp & Hc1 & Hc2). checked H.
  unfold wf_endpoint_descriptor, wf_string, wf_port_capability. split_and!; done.
Qed.

(** Every record that passes the shape checks satisfies what the encoder and
    the decoder demand. *)
Lemma validated_wf limits e :
  validate_evidence_shape e limits = None -> typed_evidence e -> wf_evidence limits e.
Proof.
  unfold validate_evidence_shape. destruct (validate_header _ _) eqn:Hh; [done|].
  intros Hp (Hid & Hsrc & Hinc & Hgen & Hobs & Ht). split; [by apply validated_header|].
  destruct e as [h []]; cbn -[first_error] in Hp, Ht |- *.
  - by apply validated_object.
  - by apply validated_endpoint.
  - checked Hp. destruct_and? Ht. split_and!; done.
  - checked Hp. destruct_and? Ht. split_and!; done.
  - checked Hp. destruct_and? Ht. split_and!; done.
  - checked Hp. destruct Ht as [? (? & ? & ? & ?)]. unfold wf_capability. split_and!; done.
  - checked Hp. destruct Ht as [? (? & ?)]. unfold wf_port_capability. split_and!; done.
  - checked Hp. destruct_and? Ht. split_and!; done.
  - checked Hp. destruct_and? Ht. split_and!; done.
Qed.

(** ** The label index is only a cache *)

Definition index_sorted (index : ordmap string (ordmap ObjectId unit)) : Prop := group_sorted index.

Definition indexed (index : ordmap string (ordmap ObjectId unit)) (label : string) (object : ObjectId) : Prop :=
  (object, tt) ∈ default [] (map_find label index).

(** A valid cache lists every object under every label it registers. *)
Definition labels_ok (state : RegistryState) (cache : LabelCache) : Prop :=
  lc_valid cache = true ->
  index_sorted (lc_index cache) /\
  forall object label, is_empty label = false -> holds_label state label object = true ->
    indexed (lc_index cache) label object.

Lemma index_insert_sorted index label object : index_sorted index -> index_sorted (index_insert label object index).
Proof.
  intros Hs. apply group_sorted_set; [done|]. apply map_sorted_set.
  destruct (map_find label index) eqn:E; cbn; [exact (group_sorted_find _ _ _ Hs E)|constructor].
Qed.

Lemma map_set_mono {K V} `{Ord K} (k : K) (v : V) m k' v' :
  map_sorted m -> (k', v') ∈ m -> (k' = k -> v' = v) -> (k', v') ∈ map_set k v m.
Proof.
  intros Hs Hin Hv. apply find_elem. rewrite find_set. destruct (keqb k' k) eqn:E.
  - apply keqb_eq in E as ->. by rewrite Hv.
  - by apply sorted_find.
Qed.

Lemma indexed_insert index label object label' object' :
  index_sorted index ->
  (label', object') = (label, object) \/ indexed index label' object' ->
  indexed (index_insert label object index) label' object'.
Proof.
  intros Hs Hor. unfold indexed, index_insert. rewrite find_set.
  assert (Hin : map_sorted (default [] (map_find label index))).
  { destruct (map_find label index) eqn:E; cbn; [exact (group_sorted_find _ _ _ Hs E)|constructor]. }
  destruct (keqb label' label) eqn:E; cbn.
  - apply keqb_eq in E as ->. destruct Hor as [[= ->]|Hor]; [apply map_set_elem_key|].
    by apply map_set_mono.
  - destruct Hor as [[= -> ->]|Hor]; [by rewrite keqb_refl in E|done].
Qed.

Section rebuild.
#[local] Abbreviation idx := (ordmap string (ordmap ObjectId unit)).

Definition index_owners (object : ObjectId) (index : idx)
    (owners : ordmap SourceIncarnationKey (Folded ObjectDescriptor)) : idx :=
  foldl (fun index owner =>
    let label := od_label (fd_value owner.2) in
    if is_empty label then index else index_insert label object index) index owners.

Lemma index_owners_spec object owners (index : idx) :
  index_sorted index ->
  index_sorted (index_owners object index owners) /\
  (forall label o, indexed index label o -> indexed (index_owners object index owners) label o) /\
  (forall e, e ∈ owners -> is_empty (od_label (fd_value e.2)) = false ->
     indexed (index_owners object index owners) (od_label (fd_value e.2)) object).
Proof.
  revert index. induction owners as [|e owners IH]; intros index Hs; cbn.
  - split; [done|]. split; [done|]. intros x Hx. inversion Hx.
  - destruct (is_empty (od_label (fd_value e.2))) eqn:Ee.
    + destruct (IH index Hs) as (H1 & H2 & H3). split; [done|]. split; [done|].
      intros x. rewrite elem_of_cons. intros [->|Hx] He; [congruence|auto].
    + destruct (IH _ (index_insert_sorted index (od_label (fd_value e.2)) object Hs)) as (H1 & H2 & H3).
      split; [done|]. split.
      * intros l o Ho. apply H2, indexed_insert; auto.
      * intros x. rewrite elem_of_cons. intros [->|Hx] He; [|auto].
        apply H2, indexed_insert; auto.
Qed.

Lemma index_tables_spec registrations (index : idx) :
  index_sorted index ->
  let index' := foldl (fun index entry => index_owners entry.1 index entry.2) index registrations in
  index_sorted index' /\
  (forall label o, indexed index label o -> indexed index' label o) /\
  (forall object owners e, (object, owners) ∈ registrations -> e ∈ owners ->
     is_empty (od_label (fd_value e.2)) = false -> indexed index' (od_label (fd_value e.2)) object).
Proof.
  revert index. induction registrations as [|[o owners] regs IH]; intros index Hs; cbn.
  - split; [done|]. split; [done|]. intros ? ? ? Hx. inversion Hx.
  - destruct (index_owners_spec o owners index Hs) as (S1 & M1 & E1).
    destruct (IH _ S1) as (S2 & M2 & E2). split; [done|]. split; [auto|].
    intros o' ow e. rewrite elem_of_cons. intros [[= -> ->]|Hin] He Hne; [auto|eauto].
Qed.
End rebuild.

Lemma rebuild_ok state : labels_ok state (rebuild_label_index state).
Proof.
  intros _. destruct (index_tables_spec (rs_object_registrations state) []) as (Hs & _ & He).
  { split; constructor. }
  split; [exact Hs|]. intros object label Hne Hh. unfold holds_label in Hh.
  destruct (map_find object (rs_object_registrations state)) as [owners|] eqn:Ef; [|done].
  apply existsb_exists in Hh as (e & Hin & Hl). apply bool_decide_eq_true in Hl. subst label.
  apply list_elem_of_In in Hin. apply (He object owners); [by apply find_elem|done|done].
Qed.

Lemma label_holders_ok state cache label :
  labels_ok state cache -> labels_ok state (label_holders state cache label).2.
Proof. intros Hok. unfold label_holders. cbn. destruct (lc_valid cache) eqn:E; [done|apply rebuild_ok]. Qed.

Lemma label_holders_spec state cache label :
  labels_ok state cache -> is_empty label = false ->
  let holders := (label_holders state cache label).1 in
  StronglySorted (fun a b => kltb a b = true) holders /\
  forall object, holds_label state label object = true -> object ∈ holders.
Proof.
  intros Hok Hne holders. pose proof (label_holders_ok state cache label Hok) as Hok'.
  unfold holders, label_holders in *. cbn in Hok' |- *.
  set (cache' := if lc_valid cache then cache else rebuild_label_index state) in *.
  assert (Hv : lc_valid cache' = true) by (unfold cache'; by destruct (lc_valid cache) eqn:E).
  destruct (Hok' Hv) as [Hs Hin]. split.
  - destruct (map_find label (lc_index cache')) as [m|] eqn:E; [|constructor].
    apply (group_sorted_find _ _ _ Hs) in E. clear -E.
    induction E as [|e l Hl IH Hall]; cbn; constructor; [done|]. apply Forall_fmap. exact Hall.
  - intros object Hh. specialize (Hin object label Hne Hh). unfold indexed in Hin.
    destruct (map_find label (lc_index cache')); cbn in Hin; [|inversion Hin].
    apply list_elem_of_fmap. by exists (object, tt).
Qed.

(** Two sorted lists that agree on the elements satisfying [p] have the same
    first such element. *)
Lemma find_sorted_agree {A} `{Ord A} (p : A -> bool) l k :
  StronglySorted (fun a b => kltb a b = true) l -> StronglySorted (fun a b => kltb a b = true) k ->
  (forall x, p x = true -> x ∈ l <-> x ∈ k) -> List.find p l = List.find p k.
Proof.
  intros Hl Hk Hagree.
  assert (Hfirst : forall l x, StronglySorted (fun a b => kltb a b = true) l -> List.find p l = Some x ->
            forall y, y ∈ l -> p y = true -> kltb y x = false).
  { clear. intros l x Hl. induction Hl as [|a l Hl IH Hall]; cbn; [done|].
    destruct (p a) eqn:Ea.
    - intros [= ->] y. rewrite elem_of_cons. intros [->|Hy] _; [apply kltb_irrefl|].
      rewrite Forall_forall in Hall. apply kltb_asym. auto.
    - intros Hf y. rewrite elem_of_cons. intros [->|Hy] Hp; [congruence|auto]. }
  destruct (List.find p l) as [x|] eqn:El, (List.find p k) as [y|] eqn:Ek; [..|done].
  - pose proof (find_some _ _ El) as [Hxl Hx]. pose proof (find_some _ _ Ek) as [Hyk Hy].
    apply list_elem_of_In in Hxl, Hyk. f_equal. apply kltb_total.
    + apply (Hfirst k y); [done|done|by apply Hagree|done].
    + apply (Hfirst l x); [done|done|by apply Hagree|done].
  - pose proof (find_some _ _ El) as [Hxl Hx]. apply list_elem_of_In, Hagree, list_elem_of_In in Hxl; [|done].
    by rewrite (find_none _ _ Ek x Hxl) in Hx.
  - pose proof (find_some _ _ Ek) as [Hyk Hy]. apply list_elem_of_In, Hagree, list_elem_of_In in Hyk; [|done].
    by rewrite (find_none _ _ El y Hyk) in Hy.
Qed.

Lemma blocks_holds state object label holder :
  blocks_label state object label holder = true -> holds_label state label holder = true.
Proof. unfold blocks_label. destruct (keqb _ _); [done|]. by destruct (holds_label _ _ _). Qed.

(** The decision does not depend on what the cache holds. *)
Lemma decide_cache_irrelevant limits state meta c1 c2 e :
  labels_ok state c1 -> labels_ok state c2 ->
  (decide_evidence limits state meta c1 e).1 = (decide_evidence limits state meta c2 e).1.
Proof.
  intros H1 H2. unfold decide_evidence. destruct (ev_payload e) as [d| | | | | | | |]; try done.
  unfold decide_register_object. destruct (existing_outcome _ _ _ _ _ _); try done.
  destruct (is_empty (od_label d)) eqn:Ee; [done|].
  destruct (label_holders_spec state c1 (od_label d) H1 Ee) as [S1 M1].
  destruct (label_holders_spec state c2 (od_label d) H2 Ee) as [S2 M2].
  destruct (label_holders state c1 (od_label d)) as [l1 c1'], (label_holders state c2 (od_label d)) as [l2 c2'].
  cbn in *. rewrite (find_sorted_agree _ l1 l2 S1 S2).
  - destruct (List.find _ l2); [done|]. by case_match.
  - intros x Hx. apply blocks_holds in Hx. split; auto.
Qed.

Lemma decide_cache_ok limits state meta cache e :
  labels_ok state cache -> labels_ok state (decide_evidence limits state meta cache e).2.
Proof.
  intros Hok. unfold decide_evidence. destruct (ev_payload e) as [d| | | | | | | |]; try done.
  unfold decide_register_object. destruct (existing_outcome _ _ _ _ _ _); try done.
  destruct (is_empty (od_label d)) eqn:Ee.
  - cbn. done.
  - pose proof (label_holders_ok state cache (od_label d) Hok) as Hok'.
    destruct (label_holders state cache (od_label d)) as [l c]. cbn in *. by destruct (List.find _ l).
Qed.

(** ** Decisions *)

(** A decision is consistent when it stages a change exactly if it accepts a
    record that is not a duplicate. *)
Definition consistent (d : Ruling) : Prop :=
  sc_apply (dc_change d) = is_accepted (dc_disposition d)
    && negb (bool_decide (dc_disposition d = IngestDisposition.Duplicate)).

Lemma resolve_consistent outcome meta t1 t2 t3 ring insert :
  sc_apply ring = true -> consistent insert -> consistent (resolve outcome meta t1 t2 t3 ring insert).
Proof. intros Hr Hi. by destruct outcome. Qed.

Lemma finish_consistent state meta base f1 f2 text change :
  base = IngestDisposition.Accepted \/ base = IngestDisposition.AcceptedPendingReference ->
  sc_apply change = true -> consistent (mkRuling (finish state meta base f1 f2) text change).
Proof.
  unfold consistent, finish. cbn. intros [->| ->] ->;
    destruct (session_is_fenced state (att_owner meta)), f1, f2; done.
Qed.

Lemma attachment_consistent limits state meta subject value updates :
  consistent (decide_attachment limits state meta subject value updates).
Proof.
  unfold decide_attachment. case_match; [done|]. case_match; [done|]. case_match; [done|].
  case_match; [done|]. apply finish_consistent; [case_match; auto|done].
Qed.

Lemma decide_consistent limits state meta cache e :
  consistent (decide_evidence limits state meta cache e).1.
Proof.
  unfold decide_evidence. destruct (ev_payload e) as [d|d|p|p|p|p|p|p|p]; cbn [fst];
    try apply attachment_consistent; try (apply resolve_consistent; [done|]).
  - unfold decide_register_object. destruct (existing_outcome _ _ _ _ _ _); try done.
    destruct (if is_empty (od_label d) then _ else _) as [holders c].
    destruct (List.find _ holders); [done|]. cbn [fst]. case_match; [done|]. apply finish_consistent; auto.
  - case_match; [done|]. apply finish_consistent; auto.
  - apply finish_consistent; [|done]. case_match; auto.
  - apply finish_consistent; [|done]. case_match; auto.
  - apply finish_consistent; [|done]. case_match; auto.
  - case_match; [|case_match; [done|]]; apply finish_consistent; auto.
Qed.

(** Every staged change carries the attestation it was decided for. *)
Lemma decide_meta limits state meta cache e :
  sc_meta (dc_change (decide_evidence limits state meta cache e).1) = meta.
Proof.
  assert (Hr : forall outcome t1 t2 t3 ring insert, sc_meta ring = meta -> sc_meta (dc_change insert) = meta ->
            sc_meta (dc_change (resolve outcome meta t1 t2 t3 ring insert)) = meta)
    by (intros []; done).
  assert (Ha : forall subject value updates,
            sc_meta (dc_change (decide_attachment limits state meta subject value updates)) = meta).
  { intros. unfold decide_attachment. by repeat case_match. }
  unfold decide_evidence. destruct (ev_payload e) as [d|d|p|p|p|p|p|p|p]; cbn [fst]; try apply Ha;
    try (apply Hr; [done|]); try done; try by repeat case_match.
  unfold decide_register_object. destruct (existing_outcome _ _ _ _ _ _); try done.
  destruct (if is_empty (od_label d) then _ else _) as [holders c].
  destruct (List.find _ holders); [done|]. by case_match.
Qed.

(** ** The label rule *)

(** Another live object registers the label. *)
Definition label_taken (state : RegistryState) (object : ObjectId) (label : string) : Prop :=
  exists holder, holder <> object /\ holds_label state label holder = true /\
    (lifecycle_action_of state holder).1.1 <> LifecycleAction.Retired.

Lemma blocks_label_true state object label holder :
  blocks_label state object label holder = true <->
  holder <> object /\ holds_label state label holder = true /\
  (lifecycle_action_of state holder).1.1 <> LifecycleAction.Retired.
Proof.
  unfold blocks_label. destruct (keqb holder object) eqn:E.
  - apply keqb_eq in E. naive_solver.
  - apply keqb_neq in E. destruct (holds_label state label holder); cbn; [|naive_solver].
    destruct (lifecycle_action_of state holder) as [[a c] l]; cbn.
    rewrite negb_true_iff, bool_decide_eq_false. naive_solver.
Qed.

(** The physical-label rule. For a registration that is new for its claim key
    and carries a label, [decide] refuses with a label conflict exactly when
    some other object currently registers the same label and its lifecycle
    action is not Retired, whatever the state of the label index: a valid
    index that lists every registration, or an invalid one that has to be
    rebuilt, gives the answer of a scan over all registrations. *)
Theorem register_object_label_rule limits state meta cache e d :
  labels_ok state cache ->
  ev_payload e = RegisterObject d ->
  existing_outcome same_value (rs_object_registrations state) (od_id d) (att_owner meta) meta d = Insert ->
  is_empty (od_label d) = false ->
  dc_disposition (decide_evidence limits state meta cache e).1 = IngestDisposition.RefusedLabelConflict <->
  label_taken state (od_id d) (od_label d).
Proof.
  intros Hok Hp Hins Hne. unfold decide_evidence. rewrite Hp. unfold decide_register_object.
  rewrite Hins, Hne. destruct (label_holders_spec state cache (od_label d) Hok Hne) as [_ Hall].
  destruct (label_holders state cache (od_label d)) as [holders cache']. cbn [fst] in Hall.
  unfold label_taken. setoid_rewrite <- blocks_label_true.
  destruct (List.find _ holders) as [holder|] eqn:Ef; cbn [fst dc_disposition].
  - apply find_some in Ef as [_ Hb]. split; [|done]. intros _. by exists holder.
  - split.
    + case_match; cbn; [done|]. unfold finish. by destruct (session_is_fenced _ _).
    + intros (holder & Hb). pose proof (blocks_holds _ _ _ _ Hb) as Hin.
      apply Hall, list_elem_of_In in Hin. by rewrite (find_none _ _ Ef holder Hin) in Hb.
Qed.
