(* ===== verification/Ingest.v ===== *)
(** * Ingestion ([src/registry.cpp])

    The stateful half: folding a staged change into the tables, making the
    record durable, the session counters and the refusal audit.
    [ingest_locked] is the whole handler, written against the log interface. *)
From S2P Require Import Prelude OrdMap Types Ids Graph Codec Serialization State Fold Derive Log Admit.
#[local] Open Scope string_scope.
#[local] Open Scope Z_scope.

(** ** The registry object *)

Record Impl (S : Type) := mkImpl {
  im_limits : Limits;
  im_history_per_key : Z;
  im_state : RegistryState;
  im_store : option S;
  im_recovery : RecoveryReport;
  im_refusals : list RefusalView;
  im_closed : bool;
  im_labels : LabelCache;
}.
Arguments mkImpl {S} _ _ _ _ _ _ _ _.
Arguments im_limits {S} _.
Arguments im_history_per_key {S} _.
Arguments im_state {S} _.
Arguments im_store {S} _.
Arguments im_recovery {S} _.
Arguments im_refusals {S} _.
Arguments im_closed {S} _.
Arguments im_labels {S} _.

Section with_impl.
Context {S : Type}.
Implicit Types impl : Impl S.

Definition set_state (state : RegistryState) impl : Impl S :=
  mkImpl (im_limits impl) (im_history_per_key impl) state (im_store impl) (im_recovery impl)
    (im_refusals impl) (im_closed impl) (im_labels impl).
Definition set_store (store : option S) impl : Impl S :=
  mkImpl (im_limits impl) (im_history_per_key impl) (im_state impl) store (im_recovery impl)
    (im_refusals impl) (im_closed impl) (im_labels impl).
Definition set_refusals (refusals : list RefusalView) impl : Impl S :=
  mkImpl (im_limits impl) (im_history_per_key impl) (im_state impl) (im_store impl) (im_recovery impl)
    refusals (im_closed impl) (im_labels impl).
Definition set_closed (closed : bool) impl : Impl S :=
  mkImpl (im_limits impl) (im_history_per_key impl) (im_state impl) (im_store impl) (im_recovery impl)
    (im_refusals impl) closed (im_labels impl).
Definition set_labels (labels : LabelCache) impl : Impl S :=
  mkImpl (im_limits impl) (im_history_per_key impl) (im_state impl) (im_store impl) (im_recovery impl)
    (im_refusals impl) (im_closed impl) labels.
End with_impl.

Definition with_tables (state : RegistryState) object_registrations endpoint_registrations subject_records
    port_records lifecycle_records reincarnation_records object_capability_records
    port_capability_records : RegistryState :=
  mkState (rs_id state) (rs_opened_at state) (rs_sources state) (rs_sessions state)
    object_registrations endpoint_registrations subject_records port_records lifecycle_records
    reincarnation_records object_capability_records port_capability_records.

Definition set_sessions (sessions : ordmap SourceIncarnationKey SessionRecord) (state : RegistryState)
    : RegistryState :=
  mkState (rs_id state) (rs_opened_at state) (rs_sources state) sessions
    (rs_object_registrations state) (rs_endpoint_registrations state) (rs_subject_records state)
    (rs_port_records state) (rs_lifecycle_records state) (rs_reincarnation_records state)
    (rs_object_capability_records state) (rs_port_capability_records state).

(** ** Applying a staged change *)

Section apply.
Context (h : Z).

(** The ring half of a stage: [fold_losing] when the group exists. *)
Definition ring_stage {K V} `{Ord K} (stage : Stage K V) (meta : Attestation)
    (g : groups K SourceIncarnationKey V) : groups K SourceIncarnationKey V :=
  match stage with
  | StageRing key => group_fold_losing h key (att_owner meta) meta g
  | _ => g
  end.

(** The write half: [fold] into the group, created when missing. *)
Definition write_stage {K V} `{Ord K} (stage : Stage K V) (meta : Attestation)
    (g : groups K SourceIncarnationKey V) : groups K SourceIncarnationKey V :=
  match stage with
  | StageWrite key value => group_fold h key (att_owner meta) meta value g
  | _ => g
  end.

Definition ring_ports (keys : list PortSlotKey) (meta : Attestation)
    (g : groups PortRef PortSlotKey PortValue) : groups PortRef PortSlotKey PortValue :=
  foldl (fun g key => group_fold_losing h (ps_port key) key meta g) g keys.

Definition write_ports (updates : list PortUpdate) (meta : Attestation)
    (g : groups PortRef PortSlotKey PortValue) : groups PortRef PortSlotKey PortValue :=
  foldl (fun g update => group_fold h (ps_port (pu_key update)) (pu_key update) meta (pu_value update) g)
    g updates.

Definition apply_ring_only (change : StagedChange) (state : RegistryState) : RegistryState :=
  let meta := sc_meta change in
  with_tables state
    (ring_stage (sc_object_registration change) meta (rs_object_registrations state))
    (ring_stage (sc_endpoint_registration change) meta (rs_endpoint_registrations state))
    (ring_stage (sc_subject change) meta (rs_subject_records state))
    (ring_ports (sc_ring_port_keys change) meta (rs_port_records state))
    (ring_stage (sc_lifecycle change) meta (rs_lifecycle_records state))
    (ring_stage (sc_reincarnation change) meta (rs_reincarnation_records state))
    (ring_stage (sc_object_capability change) meta (rs_object_capability_records state))
    (ring_stage (sc_port_capability change) meta (rs_port_capability_records state)).

(** [apply_change] on the tables. *)
Definition apply_tables (change : StagedChange) (state : RegistryState) : RegistryState :=
  let meta := sc_meta change in
  let state := apply_ring_only change state in
  with_tables state
    (write_stage (sc_object_registration change) meta (rs_object_registrations state))
    (write_stage (sc_endpoint_registration change) meta (rs_endpoint_registrations state))
    (write_stage (sc_subject change) meta (rs_subject_records state))
    (write_ports (sc_port_updates change) meta (rs_port_records state))
    (write_stage (sc_lifecycle change) meta (rs_lifecycle_records state))
    (write_stage (sc_reincarnation change) meta (rs_reincarnation_records state))
    (write_stage (sc_object_capability change) meta (rs_object_capability_records state))
    (write_stage (sc_port_capability change) meta (rs_port_capability_records state)).
End apply.

(** [apply_change] on the label index: a valid index learns the new label. *)
Definition apply_labels (change : StagedChange) (cache : LabelCache) : LabelCache :=
  match sc_object_registration change with
  | StageWrite object descriptor =>
      if lc_valid cache && negb (is_empty (od_label descriptor))
      then mkLabelCache (index_insert (od_label descriptor) object (lc_index cache)) true
      else cache
  | _ => cache
  end.

Definition apply_change {S} (change : StagedChange) (impl : Impl S) : Impl S :=
  set_labels (apply_labels change (im_labels impl))
    (set_state (apply_tables (im_history_per_key impl) change (im_state impl)) impl).

(** ** Refusal audit *)

(** [while (refusals.size() > limit) refusals.pop_front()]. *)
Fixpoint pop_front_to (limit : Z) (l : list RefusalView) : list RefusalView :=
  match l with
  | [] => []
  | _ :: rest => if limit <? zlen l then pop_front_to limit rest else l
  end.

Definition note_refusal {S} (result : IngestResult) (impl : Impl S) : Impl S :=
  let view := mkRefusal (ir_evidence result) (ir_kind result) nil_id 0 0 (ir_disposition result)
                (ir_detail result) in
  set_refusals (pop_front_to (max_refusal_audit (im_limits impl)) (im_refusals impl ++ [view])) impl.

(** ** Durability *)

Section ingest.
Context {S : Type} `{AppendLog S}.
Implicit Types impl : Impl S.

Definition encode_evidence_record (limits : Limits) (evidence : Evidence) (received_at : Z) : Enc :=
  enc_u32 1 ;> enc_i64 received_at ;> encode_evidence limits evidence.

Definition persist_evidence (evidence : Evidence) (received_at : Z) impl : bool * Impl S :=
  match im_store impl with
  | None => (true, impl)
  | Some store =>
      let encoder := encode_evidence_record (im_limits impl) evidence received_at new_encoder in
      if negb (enc_ok encoder) then (false, impl)
      else
        let '(store, outcome) := log_append RecordKind.Evidence (enc_take encoder) store in
        (match outcome with inl _ => true | inr _ => false end, set_store (Some store) impl)
  end.

(** ** The ingest handler *)

Definition attestation_of (evidence : Evidence) (authority : Authority) (received_at : Z) (live : bool)
    : Attestation :=
  let header := ev_header evidence in {|
    att_owner := mkKey (hdr_source header) (hdr_incarnation header);
    att_generation := hdr_generation header;
    att_evidence := hdr_id header;
    att_observed_at := hdr_observed_at header;
    att_received_at := received_at;
    att_provenance := hdr_provenance header;
    att_authority := authority;
    att_object_incarnation := object_incarnation_of_evidence evidence;
    att_asserted_in_lifetime := live;
  |}.

(** The session record after a record of [generation] with [disposition]. *)
Definition count_session (generation : Z) (disposition : IngestDisposition.t) (session : SessionRecord)
    : SessionRecord :=
  let advances := ss_high_water session <? generation in
  let accepted := is_accepted disposition in
  mkSessionRecord (ss_opened_at session)
    (if advances then generation else ss_high_water session)
    (ss_live session) (ss_closed session)
    (if accepted then wrap64 (ss_accepted session + 1) else ss_accepted session)
    (if accepted then ss_refused session else wrap64 (ss_refused session + 1))
    (if bool_decide (disposition = IngestDisposition.Duplicate)
     then wrap64 (ss_duplicates session + 1) else ss_duplicates session)
    (if advances && negb (ss_high_water session =? 0)
     then wrap64 (ss_missing_generations session + (generation - ss_high_water session - 1))
     else ss_missing_generations session).

Definition refuse (evidence : Evidence) (received_at : Z) (disposition : IngestDisposition.t)
    (detail : string) : IngestResult :=
  mkIngestResult disposition (hdr_id (ev_header evidence)) (kind_of evidence) 0 received_at detail.

(** Deciding, persisting and applying, up to the session counters. *)
Definition commit (evidence : Evidence) (received_at : Z) (persist : bool) (meta : Attestation) impl
    : IngestDisposition.t * string * Impl S :=
  let '(decision, cache) := decide_evidence (im_limits impl) (im_state impl) meta (im_labels impl) evidence in
  let impl := set_labels cache impl in
  let change := dc_change decision in
  if sc_apply change && is_accepted (dc_disposition decision) then
    let '(durable, impl) := if persist then persist_evidence evidence received_at impl else (true, impl) in
    if durable then (dc_disposition decision, dc_detail decision, apply_change change impl)
    else (IngestDisposition.RefusedPersistence, "the record could not be made durable", impl)
  else (dc_disposition decision, dc_detail decision, impl).

Definition ingest_locked (evidence : Evidence) (received_at : Z) (persist live : bool) impl
    : IngestResult * Impl S :=
  let header := ev_header evidence in
  let note result impl := if persist then note_refusal result impl else impl in
  if im_closed impl then
    (refuse evidence received_at IngestDisposition.RefusedClosed
       "the registry is stopping and no longer accepts work", impl)
  else
    match validate_evidence_shape evidence (im_limits impl) with
    | Some error =>
        let result := refuse evidence received_at IngestDisposition.RefusedInvalid error in
        (result, note result impl)
    | None =>
        match map_find (hdr_source header) (rs_sources (im_state impl)) with
        | Some source =>
            if negb (sr_described source) then
              let result := refuse evidence received_at IngestDisposition.RefusedUnknownSource
                "the source is not registered; open a session before publishing" in
              (result, note result impl)
            else
              let key := mkKey (hdr_source header) (hdr_incarnation header) in
              match map_find key (rs_sessions (im_state impl)) with
              | None =>
                  let result := refuse evidence received_at IngestDisposition.RefusedUnknownSource
                    ("no session is open for source incarnation " +:+ to_dec (hdr_incarnation header)) in
                  (result, note result impl)
              | Some _ =>
                  let meta := attestation_of evidence (src_authority (sr_descriptor source)) received_at live in
                  let '(disposition, detail, impl) := commit evidence received_at persist meta impl in
                  let session := count_session (hdr_generation header) disposition
                    (default default_session_record (map_find key (rs_sessions (im_state impl)))) in
                  let impl := set_state (set_sessions (map_set key session (rs_sessions (im_state impl)))
                                           (im_state impl)) impl in
                  let noted := mkIngestResult disposition (hdr_id header) (kind_of evidence) 0 received_at detail in
                  let impl := if is_accepted disposition then impl else note noted impl in
                  (mkIngestResult disposition (hdr_id header) (kind_of evidence) (ss_high_water session)
                     received_at detail, impl)
              end
        | None =>
            let result := refuse evidence received_at IngestDisposition.RefusedUnknownSource
              "the source is not registered; open a session before publishing" in
            (result, note result impl)
        end
    end.

(** [Registry::Ingest] and [Registry::IngestBatch]; [now] is the clock. *)
Definition registry_ingest (now : Z) (evidence : Evidence) impl : IngestResult * Impl S :=
  ingest_locked evidence now true true impl.

Fixpoint ingest_all (now : nat -> Z) (evidence : list Evidence) impl : list IngestResult * Impl S :=
  match evidence with
  | [] => ([], impl)
  | first :: rest =>
      let '(result, impl) := ingest_locked first (now 0%nat) true true impl in
      let '(results, impl) := ingest_all (fun i => now (Datatypes.S i)) rest impl in
      (result :: results, impl)
  end.

Definition registry_ingest_batch (now : nat -> Z) (evidence : list Evidence) impl
    : list IngestResult * Impl S :=
  ingest_all now (take (Z.to_nat (Z.min (zlen evidence) (max_evidence_batch (im_limits impl)))) evidence) impl.
End ingest.

(** * Facts *)

(** ** The entries of a table after a fold *)

Lemma fold_winning_meta {T} h meta (v : T) f : fd_meta (fold_winning h meta v f) = meta.
Proof. unfold fold_winning. by destruct (trim _ _ _). Qed.

Lemma fold_winning_value {T} h meta (v : T) f : fd_value (fold_winning h meta v f) = v.
Proof. unfold fold_winning. by destruct (trim _ _ _). Qed.

Lemma fold_losing_meta {T} h meta (f : Folded T) : fd_meta (fold_losing_slot h meta f) = fd_meta f.
Proof. unfold fold_losing_slot. do 2 (case_match; [done|]). by destruct (trim _ _ _). Qed.

Lemma fold_losing_value {T} h meta (f : Folded T) : fd_value (fold_losing_slot h meta f) = fd_value f.
Proof. unfold fold_losing_slot. do 2 (case_match; [done|]). by destruct (trim _ _ _). Qed.

Section entries.
Context {K O T : Type} `{Ord K, Ord O} (h : Z) (primary : K) (key : O) (meta : Attestation).
Implicit Types g : groups K O T.

Lemma group_find_fold v g k o :
  group_find k o (group_fold h primary key meta v g) =
  if keqb k primary && keqb o key then
    Some (match group_find primary key g with
          | Some f => fold_winning h meta v f
          | None => mkFolded meta v [] 0 end)
  else group_find k o g.
Proof.
  unfold group_find, group_fold. rewrite find_set. destruct (keqb k primary) eqn:Ek; cbn; [|done].
  apply keqb_eq in Ek as ->. unfold fold.
  destruct (map_find primary g) as [slots|] eqn:Es; cbn [from_option id].
  - destruct (map_find key slots) eqn:Ef; rewrite find_set; by destruct (keqb o key).
  - cbn. by destruct (keqb o key).
Qed.

Lemma group_find_fold_losing g k o :
  group_find k o (group_fold_losing h primary key meta g) =
  if keqb k primary && keqb o key then fold_losing_slot h meta <$> group_find primary key g
  else group_find k o g.
Proof.
  unfold group_find, group_fold_losing. destruct (map_find primary g) as [slots|] eqn:Es.
  - rewrite find_set. destruct (keqb k primary) eqn:Ek; cbn; [|done]. apply keqb_eq in Ek as ->.
    rewrite Es. unfold fold_losing. destruct (map_find key slots) eqn:Ef; cbn.
    + rewrite find_set. by destruct (keqb o key).
    + destruct (keqb o key) eqn:Eo; [|done]. by apply keqb_eq in Eo as ->.
  - destruct (keqb k primary) eqn:Ek; cbn; [|done]. apply keqb_eq in Ek as ->. rewrite Es.
    by destruct (keqb o key).
Qed.

Lemma group_fold_sorted v g : group_sorted g -> group_sorted (group_fold h primary key meta v g).
Proof.
  intros Hs. apply group_sorted_set; [done|].
  assert (map_sorted (default [] (map_find primary g))).
  { destruct (map_find primary g) eqn:E; [exact (group_sorted_find _ _ _ Hs E)|constructor]. }
  unfold fold. case_match; by apply map_sorted_set.
Qed.

Lemma group_fold_losing_sorted g : group_sorted g -> group_sorted (group_fold_losing h primary key meta g).
Proof.
  intros Hs. unfold group_fold_losing. destruct (map_find primary g) eqn:E; [|done].
  apply group_sorted_set; [done|]. pose proof (group_sorted_find _ _ _ Hs E).
  unfold fold_losing. case_match; [by apply map_sorted_set|done].
Qed.
End entries.

(** A predicate that every entry of a table satisfies, and its preservation by
    the two folds. *)
Definition all_entries {K O T} `{Ord K, Ord O} (P : K -> O -> Folded T -> Prop) (g : groups K O T) : Prop :=
  forall k o f, group_find k o g = Some f -> P k o f.

Section all_entries.
Context {K O T : Type} `{Ord K, Ord O} (P : K -> O -> Folded T -> Prop) (h : Z) (primary : K) (key : O)
  (meta : Attestation).

Lemma all_entries_fold v g :
  all_entries P g ->
  (forall f, group_find primary key g = Some f -> P primary key (fold_winning h meta v f)) ->
  (group_find primary key g = None -> P primary key (mkFolded meta v [] 0)) ->
  all_entries P (group_fold h primary key meta v g).
Proof.
  intros Hall Hw Hn k o f. rewrite group_find_fold. destruct (keqb k primary) eqn:Ek; cbn; [|apply Hall].
  destruct (keqb o key) eqn:Eo; [|apply Hall]. apply keqb_eq in Ek as ->. apply keqb_eq in Eo as ->.
  destruct (group_find primary key g); intros [= <-]; auto.
Qed.

Lemma all_entries_fold_losing g :
  all_entries P g ->
  (forall f, group_find primary key g = Some f -> P primary key (fold_losing_slot h meta f)) ->
  all_entries P (group_fold_losing h primary key meta g).
Proof.
  intros Hall Hw k o f. rewrite group_find_fold_losing. destruct (keqb k primary) eqn:Ek; cbn; [|apply Hall].
  destruct (keqb o key) eqn:Eo; [|apply Hall]. apply keqb_eq in Ek as ->. apply keqb_eq in Eo as ->.
  destruct (group_find primary key g) eqn:E; cbn; [|done]. intros [= <-]. auto.
Qed.
End all_entries.

(** ** The label index after a change *)

Lemma holds_label_find state label object :
  map_sorted (default [] (map_find object (rs_object_registrations state))) ->
  holds_label state label object = true <->
  exists o f, group_find object o (rs_object_registrations state) = Some f /\ od_label (fd_value f) = label.
Proof.
  unfold holds_label, group_find. destruct (map_find object _) as [owners|]; cbn; [|naive_solver].
  intros Hs. rewrite existsb_exists. setoid_rewrite bool_decide_eq_true. split.
  - intros ([o f] & Hin & <-). exists o, f. split; [|done]. apply sorted_find; [done|].
    by apply list_elem_of_In.
  - intros (o & f & Hf & <-). exists (o, f). split; [|done]. by apply list_elem_of_In, find_elem.
Qed.

Definition group_ok {K O T} `{Ord K, Ord O} (g : groups K O T) : Prop := group_sorted g.

Lemma group_sorted_default {K O T} `{Ord K, Ord O} (g : groups K O T) k :
  group_sorted g -> map_sorted (default [] (map_find k g)).
Proof. intros Hs. destruct (map_find k g) eqn:E; cbn; [exact (group_sorted_find _ _ _ Hs E)|constructor]. Qed.

Lemma ring_stage_sorted {K V} `{Ord K} h (stage : Stage K V) meta g :
  group_sorted g -> group_sorted (ring_stage h stage meta g).
Proof. intros Hs. destruct stage; [done|done|]. by apply group_fold_losing_sorted. Qed.

Lemma write_stage_sorted {K V} `{Ord K} h (stage : Stage K V) meta g :
  group_sorted g -> group_sorted (write_stage h stage meta g).
Proof. intros Hs. destruct stage; [done| |done]. by apply group_fold_sorted. Qed.

Lemma ring_ports_sorted h keys meta g : group_sorted g -> group_sorted (ring_ports h keys meta g).
Proof.
  revert g. induction keys as [|k keys IH]; intros g Hs; [done|].
  apply IH, group_fold_losing_sorted, Hs.
Qed.

Lemma write_ports_sorted h updates meta g : group_sorted g -> group_sorted (write_ports h updates meta g).
Proof.
  revert g. induction updates as [|u updates IH]; intros g Hs; [done|].
  apply IH, group_fold_sorted, Hs.
Qed.

#[export] Hint Resolve ring_stage_sorted write_stage_sorted ring_ports_sorted write_ports_sorted : ordmap.

Lemma apply_labels_ok h change state cache :
  group_sorted (rs_object_registrations state) -> labels_ok state cache ->
  labels_ok (apply_tables h change state) (apply_labels change cache).
Proof.
  intros Hs Hok. unfold apply_labels.
  assert (Hsub : forall label object, holds_label (apply_tables h change state) label object = true ->
    holds_label state label object = true \/
    exists d, sc_object_registration change = StageWrite object d /\ od_label d = label).
  { intros label object. rewrite holds_label_find by (apply group_sorted_default; cbn; auto with ordmap).
    intros (o & f & Hf & Hl).
    cbn [apply_tables with_tables apply_ring_only rs_object_registrations] in Hf.
    destruct (sc_object_registration change) as [|k d|k]; cbn [write_stage ring_stage] in Hf.
    - left. apply holds_label_find; [by apply group_sorted_default|eauto].
    - rewrite group_find_fold in Hf. destruct (keqb object k && keqb o (att_owner (sc_meta change))) eqn:E.
      + right. apply andb_prop in E as [E _]. apply keqb_eq in E as ->. exists d. split; [done|].
        injection Hf as <-. rewrite <- Hl. case_match; [by rewrite fold_winning_value|done].
      + left. apply holds_label_find; [by apply group_sorted_default|eauto].
    - left. rewrite group_find_fold_losing in Hf. apply holds_label_find; [by apply group_sorted_default|].
      destruct (keqb object k && _) eqn:E; [|eauto]. apply andb_prop in E as [E _]. apply keqb_eq in E as ->.
      destruct (group_find k (att_owner (sc_meta change)) (rs_object_registrations state)) as [f'|] eqn:Ef; [|done].
      injection Hf as <-. rewrite fold_losing_value in Hl. eauto. }
  assert (Hkeep : (forall object d, sc_object_registration change = StageWrite object d ->
                     is_empty (od_label d) = true) -> labels_ok (apply_tables h change state) cache).
  { intros Hw Hv. destruct (Hok Hv) as [H1 H2]. split; [done|]. intros object label Hne Hh.
    apply Hsub in Hh as [Hh|(d & Hd & <-)]; [auto|]. rewrite (Hw _ _ Hd) in Hne. done. }
  destruct (sc_object_registration change) as [|k d|k] eqn:Ec; [by apply Hkeep| |by apply Hkeep].
  destruct (lc_valid cache) eqn:Hv; cbn [andb]; [|intros Hv'; congruence].
  destruct (is_empty (od_label d)) eqn:Ee; cbn [negb].
  { apply Hkeep. by intros ? ? [= <- <-]. }
  intros _. destruct (Hok Hv) as [H1 H2]. split; [by apply index_insert_sorted|].
  intros object label Hne Hh. apply indexed_insert; [done|].
  apply Hsub in Hh as [Hh|(d' & [= -> ->] & <-)]; auto.
Qed.

(** ** The cases of the handler *)

(** The records a replay of the registry's log would visit. *)
Definition logged {S} `{AppendLog S} (impl : Impl S) : list LogRecord :=
  match im_store impl with None => [] | Some store => log_records store end.

Section handler.
Context {S : Type} `{AppendLog S}.
Implicit Types impl : Impl S.

(** What [commit] does, case by case. *)
Inductive commit_case (e : Evidence) (now : Z) (persist : bool) (meta : Attestation) impl
    : IngestDisposition.t -> string -> Impl S -> Prop :=
  | commit_no_change d cache :
      decide_evidence (im_limits impl) (im_state impl) meta (im_labels impl) e = (d, cache) ->
      sc_apply (dc_change d) = false ->
      commit_case e now persist meta impl (dc_disposition d) (dc_detail d) (set_labels cache impl)
  | commit_not_durable d cache text impl' :
      decide_evidence (im_limits impl) (im_state impl) meta (im_labels impl) e = (d, cache) ->
      persist = true -> logged impl' = logged impl ->
      im_state impl' = im_state impl -> im_labels impl' = cache -> im_limits impl' = im_limits impl ->
      im_history_per_key impl' = im_history_per_key impl -> im_closed impl' = im_closed impl ->
      (is_Some (im_store impl') <-> is_Some (im_store impl)) ->
      commit_case e now persist meta impl IngestDisposition.RefusedPersistence text impl'
  | commit_applied d cache store :
      decide_evidence (im_limits impl) (im_state impl) meta (im_labels impl) e = (d, cache) ->
      sc_apply (dc_change d) = true -> is_accepted (dc_disposition d) = true ->
      (is_Some store <-> is_Some (im_store impl)) ->
      (persist = false /\ store = im_store impl \/
       persist = true /\ im_store impl = None /\ store = None \/
       persist = true /\ is_Some (im_store impl) /\
         enc_ok (encode_evidence_record (im_limits impl) e now new_encoder) = true /\
         logged (set_store store impl) = (logged impl ++
           [(RecordKind.Evidence, enc_take (encode_evidence_record (im_limits impl) e now new_encoder))])%list) ->
      commit_case e now persist meta impl (dc_disposition d) (dc_detail d)
        (apply_change (dc_change d) (set_store store (set_labels cache impl))).

Lemma commit_cases e now persist meta impl d t impl' :
  commit e now persist meta impl = (d, t, impl') -> commit_case e now persist meta impl d t impl'.
Proof.
  unfold commit. destruct (decide_evidence _ _ _ _ _) as [dec cache] eqn:Ed.
  pose proof (decide_consistent (im_limits impl) (im_state impl) meta (im_labels impl) e) as Hc.
  rewrite Ed in Hc. cbn in Hc. unfold consistent in Hc.
  destruct (sc_apply (dc_change dec)) eqn:Ea; cbn [andb].
  2: { intros [= <- <- <-]. by apply commit_no_change. }
  destruct (is_accepted (dc_disposition dec)) eqn:Eacc; [|done].
  destruct persist; [|intros [= <- <- <-]].
  2: { pose proof (commit_applied e now false meta impl dec cache (im_store impl)) as Hcase.
       destruct impl. apply Hcase; auto. }
  unfold persist_evidence. cbn [set_labels im_store im_limits].
  destruct (im_store impl) as [store|] eqn:Es.
  2: { intros [= <- <- <-]. pose proof (commit_applied e now true meta impl dec cache None) as Hcase.
       destruct impl. cbn in *. subst. apply Hcase; auto. }
  destruct (enc_ok _) eqn:Eok; cbn [negb].
  2: { intros [= <- <- <-]. apply (commit_not_durable _ _ _ _ _ dec cache); done. }
  destruct (log_append _ _ store) as [store' [[]|err]] eqn:El; intros [= <- <- <-].
  - apply (commit_applied e now true meta impl dec cache (Some store')); try done.
    right. right. rewrite Es. split_and!; [done|done|done|].
    unfold logged. cbn. rewrite Es. by apply log_append_ok.
  - apply (commit_not_durable _ _ _ _ _ dec cache); try done.
    unfold logged. cbn. rewrite Es. by apply log_append_failed in El.
Qed.

(** What [ingest_locked] does. *)
Inductive ingest_case (e : Evidence) (now : Z) (persist live : bool) impl : IngestResult -> Impl S -> Prop :=
  | ingest_refused r refusals :
      is_accepted (ir_disposition r) = false ->
      ingest_case e now persist live impl r (set_refusals refusals impl)
  | ingest_committed source session d t impl1 refusals :
      let h := ev_header e in
      let key := mkKey (hdr_source h) (hdr_incarnation h) in
      im_closed impl = false ->
      validate_evidence_shape e (im_limits impl) = None ->
      map_find (hdr_source h) (rs_sources (im_state impl)) = Some source ->
      sr_described source = true ->
      map_find key (rs_sessions (im_state impl)) = Some session ->
      commit_case e now persist (attestation_of e (src_authority (sr_descriptor source)) now live) impl d t impl1 ->
      ingest_case e now persist live impl
        (mkIngestResult d (hdr_id h) (kind_of e) (ss_high_water (count_session (hdr_generation h) d session)) now t)
        (set_refusals refusals
           (set_state (set_sessions (map_set key (count_session (hdr_generation h) d session)
                                       (rs_sessions (im_state impl1))) (im_state impl1)) impl1)).

Lemma set_refusals_id impl : set_refusals (im_refusals impl) impl = impl.
Proof. by destruct impl. Qed.

Lemma note_case persist r impl :
  exists refusals, (if persist : bool then note_refusal r impl else impl) = set_refusals refusals impl.
Proof. destruct persist; [by eexists|]. exists (im_refusals impl). by rewrite set_refusals_id. Qed.

Lemma commit_sessions e now persist meta impl d t impl1 :
  commit_case e now persist meta impl d t impl1 -> rs_sessions (im_state impl1) = rs_sessions (im_state impl).
Proof. destruct 1 as [| ? ? ? ? ? ? ? Hst |]; [done|by rewrite Hst|done]. Qed.

Lemma ingest_cases e now persist live impl r impl' :
  ingest_locked e now persist live impl = (r, impl') -> ingest_case e now persist live impl r impl'.
Proof.
  unfold ingest_locked.
  assert (Href : forall d t, is_accepted d = false ->
    (refuse e now d t, if persist then note_refusal (refuse e now d t) impl else impl) = (r, impl') ->
    ingest_case e now persist live impl r impl').
  { intros d t Hd [= <- <-]. destruct (note_case persist (refuse e now d t) impl) as [x ->].
    by apply ingest_refused. }
  destruct (im_closed impl) eqn:Ec.
  { intros [= <- <-]. rewrite <- (set_refusals_id impl) at 2. by apply ingest_refused. }
  destruct (validate_evidence_shape e (im_limits impl)) eqn:Ev; [by apply Href|].
  destruct (map_find _ (rs_sources _)) as [source|] eqn:Es; [|by apply Href].
  destruct (sr_described source) eqn:Edesc; cbn [negb]; [|by apply Href].
  destruct (map_find _ (rs_sessions (im_state impl))) as [session|] eqn:Ess; [|by apply Href].
  destruct (commit _ _ _ _ _) as [[d t] impl1] eqn:Ecom. apply commit_cases in Ecom.
  pose proof (commit_sessions _ _ _ _ _ _ _ _ Ecom) as Hsess.
  rewrite Hsess, Ess. cbn [from_option id]. rewrite <- Hsess.
  set (impl2 := set_state _ impl1). set (noted := mkIngestResult d _ _ 0 _ _).
  assert (exists refusals, (if is_accepted d then impl2 else if persist then note_refusal noted impl2 else impl2)
                           = set_refusals refusals impl2) as [x ->].
  { destruct (is_accepted d); [|apply note_case]. exists (im_refusals impl2). by rewrite set_refusals_id. }
  intros [= <- <-]. by apply (ingest_committed e now persist live impl source session d t impl1 x).
Qed.
End handler.
