(* ===== verification/Session.v ===== *)
(** * Sessions ([src/registry.cpp])

    [OpenSession], [CloseSession], [Sessions] and [Close]: how a source
    incarnation becomes current, what it fences, and what a reopened session
    reports. *)
From S2P Require Import Prelude OrdMap Types Ids Graph Codec Serialization State Fold Derive Log Admit Ingest.
#[local] Open Scope string_scope.
#[local] Open Scope Z_scope.

Definition set_sources (sources : ordmap SourceId SourceRecord) (state : RegistryState) : RegistryState :=
  mkState (rs_id state) (rs_opened_at state) sources (rs_sessions state)
    (rs_object_registrations state) (rs_endpoint_registrations state) (rs_subject_records state)
    (rs_port_records state) (rs_lifecycle_records state) (rs_reincarnation_records state)
    (rs_object_capability_records state) (rs_port_capability_records state).

(** ** Opening *)

(** The source record after a session of [incarnation] opened. *)
Definition open_source (descriptor : SourceDescriptor) (incarnation : Z) (source : SourceRecord) : SourceRecord :=
  let rebinds := negb (sr_described source) || (sr_descriptor_incarnation source <? incarnation) in
  mkSourceRecord
    (if rebinds then descriptor else sr_descriptor source)
    (if rebinds then incarnation else sr_descriptor_incarnation source)
    (if sr_current_incarnation source <? incarnation then incarnation else sr_current_incarnation source)
    (if rebinds then true else sr_described source).

Definition stamp_session (opened_at : Z) (session : SessionRecord) : SessionRecord :=
  if ss_opened_at session =? 0 then
    mkSessionRecord opened_at (ss_high_water session) (ss_live session) (ss_closed session)
      (ss_accepted session) (ss_refused session) (ss_duplicates session) (ss_missing_generations session)
  else session.

Definition apply_session_open (descriptor : SourceDescriptor) (incarnation opened_at : Z)
    (state : RegistryState) : RegistryState :=
  let source := default default_source_record (map_find (src_id descriptor) (rs_sources state)) in
  let key := mkKey (src_id descriptor) incarnation in
  let session := default default_session_record (map_find key (rs_sessions state)) in
  set_sessions (map_set key (stamp_session opened_at session) (rs_sessions state))
    (set_sources (map_set (src_id descriptor) (open_source descriptor incarnation source) (rs_sources state))
       state).

(** The records of one table whose owner satisfies [p], rings included. *)
Definition scan_claims {K O T} (p : O -> bool) (g : groups K O T) (total : Z) : Z :=
  foldl (fun total group =>
    foldl (fun total owner => if p owner.1 then wrap64 (total + (1 + zlen (fd_superseded owner.2))) else total)
      total group.2) total g.

(** The five owner-keyed tables, then the port records. *)
Definition scan_all (p : SourceIncarnationKey -> bool) (state : RegistryState) : Z :=
  scan_claims (fun key => p (ps_owner key)) (rs_port_records state)
    (scan_claims p (rs_port_capability_records state)
      (scan_claims p (rs_object_capability_records state)
        (scan_claims p (rs_reincarnation_records state)
          (scan_claims p (rs_lifecycle_records state)
            (scan_claims p (rs_subject_records state) 0))))).

Definition count_claims_before (state : RegistryState) (source : SourceId) (incarnation : Z) : Z :=
  scan_all (fun key => keqb (key_source key) source && (key_incarnation key <? incarnation)) state.

Definition count_session_claims (state : RegistryState) (key : SourceIncarnationKey) : Z :=
  scan_all (fun owner => keqb owner key) state.

Definition set_live (live closed : bool) (session : SessionRecord) : SessionRecord :=
  mkSessionRecord (ss_opened_at session) (ss_high_water session) live closed (ss_accepted session)
    (ss_refused session) (ss_duplicates session) (ss_missing_generations session).

Section session.
Context {S : Type} `{AppendLog S}.
Implicit Types impl : Impl S.

Definition encode_session_open (limits : Limits) (descriptor : SourceDescriptor) (incarnation now : Z) : Enc :=
  encode_source_descriptor limits descriptor ;> enc_u64 incarnation ;> enc_i64 now.

(** The checks before anything is written: [None] lets the session open, and
    the previous incarnation is reported either way. *)
Definition open_session_refusal (descriptor : SourceDescriptor) (incarnation : Z) impl
    : option (OpenSessionDisposition.t * Z * string) :=
  let limits := im_limits impl in
  if im_closed impl then Some (OpenSessionDisposition.RefusedClosed, 0, "the registry is stopping")
  else if is_nil (src_id descriptor) || (incarnation =? 0) then
    Some (OpenSessionDisposition.RefusedInvalid, 0, "the source identity and incarnation must both be set")
  else if negb (fits (src_name descriptor) (max_string_bytes limits))
          || negb (fits (src_domain descriptor) (max_string_bytes limits)) then
    Some (OpenSessionDisposition.RefusedInvalid, 0, "a source descriptor string exceeds the configured limit")
  else if above (auth_class (src_authority descriptor)) AuthorityClass.Authoritative then
    Some (OpenSessionDisposition.RefusedInvalid, 0, "the authority class is not recognised")
  else
    match map_find (src_id descriptor) (rs_sources (im_state impl)) with
    | None =>
        if max_sources limits <=? zlen (rs_sources (im_state impl)) then
          Some (OpenSessionDisposition.RefusedCapacity, 0, "the registry has reached its source limit")
        else None
    | Some existing =>
        let previous := sr_current_incarnation existing in
        if incarnation <? previous then
          Some (OpenSessionDisposition.RefusedFenced, previous,
                "incarnation " +:+ to_dec incarnation +:+ " is fenced by " +:+ to_dec previous)
        else if (incarnation =? previous) && sr_described existing
                && negb (same_value (sr_descriptor existing) descriptor) then
          Some (OpenSessionDisposition.RefusedDescriptorConflict, previous,
                "a source's descriptor and authority are bound to its incarnation; reopen with a higher incarnation")
        else None
    end.

Definition log_session_open (descriptor : SourceDescriptor) (incarnation logged_at : Z) impl
    : option (OpenSessionDisposition.t * string) * Impl S :=
  match im_store impl with
  | None => (None, impl)
  | Some store =>
      let encoder := encode_session_open (im_limits impl) descriptor incarnation logged_at new_encoder in
      if negb (enc_ok encoder) then
        (Some (OpenSessionDisposition.RefusedInvalid, "the session record could not be encoded"), impl)
      else
        let '(store, outcome) := log_append RecordKind.SessionOpen (enc_take encoder) store in
        (match outcome with
         | inl _ => None
         | inr error => Some (OpenSessionDisposition.RefusedPersistence, err_message error)
         end, set_store (Some store) impl)
  end.

(** The state change of a session that opens. *)
Definition open_session_state (descriptor : SourceDescriptor) (incarnation opened_at : Z)
    (state : RegistryState) : RegistryState :=
  let key := mkKey (src_id descriptor) incarnation in
  let state := apply_session_open descriptor incarnation opened_at state in
  let session := default default_session_record (map_find key (rs_sessions state)) in
  let state := set_sessions (map_set key (set_live true false session) (rs_sessions state)) state in
  let source := default default_source_record (map_find (src_id descriptor) (rs_sources state)) in
  set_sources (map_set (src_id descriptor)
    (mkSourceRecord (sr_descriptor source) (sr_descriptor_incarnation source)
       (Z.max (sr_current_incarnation source) incarnation) (sr_described source)) (rs_sources state)) state.

(** [OpenSession]; [logged_at] and [opened_at] are its two readings of the
    clock. *)
Definition open_session (descriptor : SourceDescriptor) (incarnation logged_at opened_at : Z) impl
    : OpenSessionResult * Impl S :=
  match open_session_refusal descriptor incarnation impl with
  | Some (disposition, previous, detail) =>
      (mkOpenSession disposition (mkKey nil_id 0) previous 0 detail, impl)
  | None =>
      let existing := map_find (src_id descriptor) (rs_sources (im_state impl)) in
      let previous := match existing with None => 0 | Some source => sr_current_incarnation source end in
      let key := mkKey (src_id descriptor) incarnation in
      let was_live := match map_find key (rs_sessions (im_state impl)) with
                      | None => false | Some session => ss_live session end in
      match log_session_open descriptor incarnation logged_at impl with
      | (Some (disposition, detail), impl) =>
          (mkOpenSession disposition (mkKey nil_id 0) 0 0 detail, impl)
      | (None, impl) =>
          let fenced_claims := if previous <? incarnation
            then count_claims_before (im_state impl) (src_id descriptor) incarnation else 0 in
          let impl := set_state (open_session_state descriptor incarnation opened_at (im_state impl)) impl in
          let '(disposition, detail) :=
            if negb (bool_decide (is_Some existing)) || (previous =? 0) then
              (OpenSessionDisposition.Opened, "the source was registered")
            else if previous <? incarnation then
              (OpenSessionDisposition.NewIncarnation,
               "incarnation " +:+ to_dec incarnation +:+ " replaced " +:+ to_dec previous
               +:+ "; the earlier incarnation is fenced")
            else if was_live then
              (OpenSessionDisposition.Resumed, "the session was already live in this registry lifetime")
            else
              (OpenSessionDisposition.Reopened,
               "the incarnation was recovered from durable storage; its claims stay historical until re-asserted") in
          (mkOpenSession disposition key previous fenced_claims detail, impl)
      end
  end.

(** ** Closing *)

Definition encode_session_close (key : SourceIncarnationKey) : Enc :=
  enc_id (key_source key) ;> enc_u64 (key_incarnation key).

Definition close_session (key : SourceIncarnationKey) impl : Outcome unit * Impl S :=
  if im_closed impl then (inr (mkError ErrorCode.Closed "the registry is stopping"), impl)
  else
    match map_find key (rs_sessions (im_state impl)) with
    | None => (inr (mkError ErrorCode.NotFound "no session is open for that source incarnation"), impl)
    | Some session =>
        let closed impl := set_state (set_sessions (map_set key (set_live false true session)
                             (rs_sessions (im_state impl))) (im_state impl)) impl in
        match im_store impl with
        | None => (inl tt, closed impl)
        | Some store =>
            let '(store, outcome) := log_append RecordKind.SessionClose
              (enc_take (encode_session_close key new_encoder)) store in
            match outcome with
            | inl _ => (inl tt, closed (set_store (Some store) impl))
            | inr error => (inr (mkError ErrorCode.PersistenceFailure (err_message error)),
                            set_store (Some store) impl)
            end
        end
    end.

(** [Registry::Close]. *)
Definition close_registry impl : Impl S :=
  if im_closed impl then impl
  else
    let impl := set_closed true impl in
    match im_store impl with
    | None => impl
    | Some store => set_store (Some (log_close store)) impl
    end.
End session.

Record SourceSessionView := mkSessionView {
  sw_key : SourceIncarnationKey;
  sw_name : string;
  sw_authority : Authority;
  sw_live : bool;
  sw_fenced : bool;
  sw_fenced_by : Z;
  sw_high_water : Z;
  sw_opened_at : Z;
  sw_accepted : Z;
  sw_refused : Z;
  sw_duplicates : Z;
  sw_missing_generations : Z;
}.

Definition sessions_view (state : RegistryState) : list SourceSessionView :=
  (fun entry : SourceIncarnationKey * SessionRecord =>
     let source := map_find (key_source entry.1) (rs_sources state) in
     let fenced := session_is_fenced state entry.1 in
     mkSessionView entry.1
       (match source with Some s => src_name (sr_descriptor s) | None => "" end)
       (match source with Some s => src_authority (sr_descriptor s) | None => default_authority end)
       (ss_live entry.2) fenced
       (if fenced then match source with Some s => sr_current_incarnation s | None => 0 end else 0)
       (ss_high_water entry.2) (ss_opened_at entry.2) (ss_accepted entry.2) (ss_refused entry.2)
       (ss_duplicates entry.2) (ss_missing_generations entry.2))
  <$> rs_sessions state.
