(* ===== verification/Recovery.v ===== *)
(** * Opening, replaying and compacting ([src/registry.cpp])

    [Registry::Open] with the visitor that replays the log, and
    [Registry::Compact].  The identity minted for a new registry and the
    readings of the clock are arguments; so is what [Store::Open] returned. *)
From S2P Require Import Prelude OrdMap Types Ids Graph Codec Serialization State StateCodec Fold Derive Log Admit Ingest Session.
#[local] Open Scope string_scope.
#[local] Open Scope Z_scope.

(** ** Replay *)

Definition decode_session_open (limits : Limits) : Dec (SourceDescriptor * Z * Z) :=
  descriptor ← decode_source_descriptor limits; incarnation ← dec_u64; opened_at ← dec_i64;
  mret (descriptor, incarnation, opened_at).

Definition decode_session_close : Dec SourceIncarnationKey :=
  source ← dec_id; incarnation ← dec_u64; mret (mkKey source incarnation).

Definition decode_evidence_record (limits : Limits) : Dec (Z * Evidence) :=
  envelope_version ← dec_u32; _ ← dec_guard (envelope_version =? 1);
  received_at ← dec_i64; evidence ← decode_evidence limits;
  mret (received_at, evidence).

Section recovery.
Context {S : Type} `{AppendLog S}.
Implicit Types impl : Impl S.

(** The visitor: the registry after one record, or the reason the replay
    fails. *)
Definition replay_record (record : LogRecord) impl : Impl S + string :=
  let limits := im_limits impl in
  let payload := record.2 in
  match record.1 with
  | RecordKind.StateSnapshot =>
      match decode_all (decode_state limits) payload with
      | Some loaded =>
          inl (set_labels (mkLabelCache (lc_index (im_labels impl)) false) (set_state loaded impl))
      | None => inr "the compacted state image could not be decoded"
      end
  | RecordKind.SessionOpen =>
      match decode_all (decode_session_open limits) payload with
      | Some (descriptor, incarnation, opened_at) =>
          if (incarnation =? 0) || is_nil (src_id descriptor)
          then inr "a session record carries an invalid incarnation"
          else inl (set_state (apply_session_open descriptor incarnation opened_at (im_state impl)) impl)
      | None => inr "a session record could not be decoded"
      end
  | RecordKind.SessionClose =>
      match decode_all decode_session_close payload with
      | Some key =>
          inl (match map_find key (rs_sessions (im_state impl)) with
               | None => impl
               | Some session =>
                   set_state (set_sessions (map_set key (set_live false true session)
                                (rs_sessions (im_state impl))) (im_state impl)) impl
               end)
      | None => inr "a session close record could not be decoded"
      end
  | RecordKind.Evidence =>
      match decode_all (decode_evidence_record limits) payload with
      | Some (received_at, evidence) => inl (ingest_locked evidence received_at false false impl).2
      | None => inr "an evidence record could not be decoded"
      end
  end.

Fixpoint replay (records : list LogRecord) impl : Impl S + string :=
  match records with
  | [] => inl impl
  | record :: rest =>
      match replay_record record impl with
      | inl impl => replay rest impl
      | inr error => inr error
      end
  end.

(** ** Open *)

Record RegistryOptions := mkOptions {
  op_id : RegistryId;
  op_limits : Limits;
  op_history_per_key : Z;
}.

Definition empty_report : RecoveryReport :=
  mkRecoveryReport false false false false 0 0 0 0 0 RecoveryIssue.Created 0 "".

(** The registry before its store is opened. *)
Definition fresh_impl (options : RegistryOptions) (now : Z) : Impl S :=
  mkImpl (op_limits options) (Z.min (op_history_per_key options) (max_history_per_key (op_limits options)))
    (empty_state (op_id options) now) None empty_report [] false (mkLabelCache [] false).

Definition set_id (id : RegistryId) (state : RegistryState) : RegistryState :=
  mkState id (rs_opened_at state) (rs_sources state) (rs_sessions state)
    (rs_object_registrations state) (rs_endpoint_registrations state) (rs_subject_records state)
    (rs_port_records state) (rs_lifecycle_records state) (rs_reincarnation_records state)
    (rs_object_capability_records state) (rs_port_capability_records state).

(** [RegistryId(detail::random_id128())]. *)
Definition mint_id (draws : Z * Z) : RegistryId := mkStrongId (random_id128 draws.1 draws.2).

(** The image [Compact] writes and [Open] bootstraps a new store with. *)
Definition encode_image (limits : Limits) (state : RegistryState) : Encoder :=
  encode_state limits (clear_volatile state) new_encoder.

Definition forget_process impl : Impl S := set_state (clear_volatile (im_state impl)) impl.

(** What follows a replay: the identity, the bootstrap snapshot of a new
    store, and the reset of process-local facts. *)
Definition finish_open (options : RegistryOptions) (draws : Z * Z) (created : bool) (store : S) impl
    : Outcome (Impl S) :=
  let id := rs_id (im_state impl) in
  if negb (is_nil id) && negb (is_nil (op_id options)) && negb (keqb id (op_id options)) then
    inr (mkError ErrorCode.Conflict
           ("the store belongs to registry " +:+ to_hex (sid_value id) +:+ " but "
            +:+ to_hex (sid_value (op_id options)) +:+ " was requested"))
  else
    let impl := if is_nil id
      then set_state (set_id (if is_nil (op_id options) then mint_id draws else op_id options) (im_state impl)) impl
      else impl in
    if created then
      let encoder := encode_image (op_limits options) (im_state impl) in
      if negb (enc_ok encoder) then
        inr (mkError ErrorCode.Internal "the initial state image could not be encoded")
      else
        match log_append RecordKind.StateSnapshot (enc_take encoder) store with
        | (store, inl _) => inl (forget_process (set_store (Some store) impl))
        | (_, inr error) => inr error
        end
    else inl (forget_process (set_store (Some store) impl)).

(** [Registry::Open].  [store_open] is [None] for a registry in memory, and
    otherwise what [Store::Open] returned; [draws] is what the random engine
    would yield. *)
Definition registry_open (options : RegistryOptions) (draws : Z * Z) (now : Z)
    (store_open : option (RecoveryReport * Outcome S)) : Outcome (Impl S) :=
  match validate_limits (op_limits options) with
  | inr error => inr error
  | inl _ =>
      if op_history_per_key options =? 0 then
        inr (mkError ErrorCode.InvalidArgument "history_per_key must be greater than zero")
      else
        let impl := fresh_impl options now in
        match store_open with
        | None =>
            inl (forget_process
                   (if is_nil (op_id options) then set_state (set_id (mint_id draws) (im_state impl)) impl else impl))
        | Some (_, inr error) => inr error
        | Some (report, inl store) =>
            let impl := mkImpl (im_limits impl) (im_history_per_key impl) (im_state impl) (Some store) report
                          [] false (im_labels impl) in
            let '(store, (records, visited)) := log_visit store in
            match replay records impl with
            | inr error => inr (mkError ErrorCode.CorruptStore error)
            | inl impl =>
                match visited with
                | inr error => inr error
                | inl _ => finish_open options draws (rr_created report) store impl
                end
            end
        end
  end.

(** ** Compaction *)

Definition compact impl : Outcome unit * Impl S :=
  if im_closed impl then (inr (mkError ErrorCode.Closed "the registry is stopping"), impl)
  else
    match im_store impl with
    | None => (inr (mkError ErrorCode.InvalidArgument "the registry has no store to compact"), impl)
    | Some store =>
        let encoder := encode_image (im_limits impl) (im_state impl) in
        if negb (enc_ok encoder) then
          (inr (mkError ErrorCode.CapacityExceeded "the state image exceeds the encoder ceiling"), impl)
        else
          let '(store, outcome) := log_rewrite [(RecordKind.StateSnapshot, enc_take encoder)] store in
          (match outcome with
           | inl _ => inl tt
           | inr error => inr (mkError ErrorCode.PersistenceFailure (err_message error))
           end, set_store (Some store) impl)
    end.
End recovery.
