(* ===== verification/Invariant.v ===== *)
(** * The registry invariant

    What holds of every reachable registry object: the tables are keyed and
    sorted as their types promise, every record sits under its own session,
    supersession rings are bounded, sorted and older than their winner,
    capacities are respected, the label index is coherent, and every session
    belongs to a described source that is at least at its incarnation. *)
From S2P Require Import Prelude OrdMap Types Ids Graph Codec Serialization State StateCodec Fold Derive Log Admit Ingest Session Recovery.
#[local] Open Scope Z_scope.

(** ** One record *)

(** A folded record of owner [o] in a ring of at most [h] entries. *)
Definition entry_ok {T} (h : Z) (o : SourceIncarnationKey) (f : Folded T) : Prop :=
  att_owner (fd_meta f) = o /\ Forall (fun a => att_owner a = o) (fd_superseded f) /\
  zlen (fd_superseded f) <= h /\ StronglySorted (not_after att_lt) (fd_superseded f) /\
  is_u32 (fd_history_dropped f).

(** The ring holds older generations than the winner. *)
Definition ring_below {T} (f : Folded T) : Prop :=
  Forall (fun a => att_generation a < att_generation (fd_meta f)) (fd_superseded f).

Lemma lastn_sorted_weak h l : StronglySorted (not_after att_lt) l -> StronglySorted (not_after att_lt) (lastn h l).
Proof.
  intros Hs. unfold lastn. rewrite <- (take_drop (length l - h) l) in Hs.
  by apply StronglySorted_app in Hs as (_ & _ & ?).
Qed.

(** Sorting a ring and trimming it. *)
Lemma trim_ring_ok h ring d (P : Attestation -> Prop) :
  0 <= h -> is_u32 d -> Forall P ring ->
  let '(ring', d') := trim h (std_sort att_lt ring) d in
  Forall P ring' /\ zlen ring' <= h /\ StronglySorted (not_after att_lt) ring' /\ is_u32 d'.
Proof.
  intros Hh Hd HP. rewrite trim_spec by done. split_and!.
  - apply Forall_forall. intros a Ha. apply lastn_incl in Ha. rewrite std_sort_perm in Ha.
    rewrite Forall_forall in HP. auto.
  - unfold zlen. rewrite lastn_length. lia.
  - apply lastn_sorted_weak, std_sort_sorted, _.
  - apply wrap32_u32.
Qed.

Section entry.
Context {T : Type} (h : Z) (Hh : 0 <= h) (o : SourceIncarnationKey) (meta : Attestation)
  (Hown : att_owner meta = o).
Implicit Types f : Folded T.

Lemma fold_winning_ok v f : entry_ok h o f -> entry_ok h o (fold_winning h meta v f).
Proof using Hh Hown.
  intros (Ho & Hr & Hl & Hs & Hd). unfold fold_winning.
  set (ring := if has_evidence _ _ then _ else _).
  assert (HP : Forall (fun a => att_owner a = o) ring).
  { unfold ring. case_match; [done|]. apply Forall_app. split; [done|by constructor]. }
  pose proof (trim_ring_ok h ring (fd_history_dropped f) _ Hh Hd HP) as Ht.
  destruct (trim _ _ _). destruct Ht as (? & ? & ? & ?). split_and!; done.
Qed.

Lemma fold_losing_ok f : entry_ok h o f -> entry_ok h o (fold_losing_slot h meta f).
Proof using Hh Hown.
  intros (Ho & Hr & Hl & Hs & Hd). unfold fold_losing_slot. case_match; [done|]. case_match; [done|].
  assert (HP : Forall (fun a => att_owner a = o) (fd_superseded f ++ [meta])).
  { apply Forall_app. split; [done|by constructor]. }
  pose proof (trim_ring_ok h _ (fd_history_dropped f) _ Hh Hd HP) as Ht.
  destruct (trim _ _ _). destruct Ht as (? & ? & ? & ?). split_and!; done.
Qed.

Lemma entry_new v : entry_ok h o (mkFolded meta v [] 0 : Folded T).
Proof using Hh Hown. unfold entry_ok, is_u32. cbn. split_and!; try done; try constructor; lia. Qed.

Lemma fold_winning_below v f :
  is_u32 (fd_history_dropped f) ->
  att_generation (fd_meta f) < att_generation meta -> ring_below f -> ring_below (fold_winning h meta v f).
Proof using Hh.
  intros Hd Hlt Hb. unfold fold_winning, ring_below. set (ring := if has_evidence _ _ then _ else _).
  assert (HP : Forall (fun a => att_generation a < att_generation meta) ring).
  { assert (Forall (fun a => att_generation a < att_generation meta) (fd_superseded f))
      by (eapply Forall_impl; [exact Hb|]; cbn; lia).
    unfold ring. case_match; [done|]. apply Forall_app. split; [done|by constructor]. }
  pose proof (trim_ring_ok h ring (fd_history_dropped f) _ Hh Hd HP) as Ht.
  destruct (trim _ _ _). by destruct Ht.
Qed.

Lemma fold_losing_below f :
  is_u32 (fd_history_dropped f) ->
  att_generation meta < att_generation (fd_meta f) -> ring_below f -> ring_below (fold_losing_slot h meta f).
Proof using Hh.
  intros Hd Hlt Hb. unfold fold_losing_slot, ring_below. case_match; [done|]. case_match; [done|].
  assert (HP : Forall (fun a => att_generation a < att_generation (fd_meta f)) (fd_superseded f ++ [meta])).
  { apply Forall_app. split; [done|by constructor]. }
  pose proof (trim_ring_ok h _ (fd_history_dropped f) _ Hh Hd HP) as Ht.
  destruct (trim _ _ _). by destruct Ht.
Qed.
End entry.

(** ** What a decision stages *)

(** A write goes to a key that is free or holds an older generation; a ring
    entry goes to a key that holds a newer one. *)
Definition may_write {K O V} `{Ord K, Ord O} (g : groups K O V) (k : K) (o : O) (meta : Attestation) : Prop :=
  forall f, group_find k o g = Some f -> att_generation (fd_meta f) < att_generation meta.

Definition may_ring {K O V} `{Ord K, Ord O} (g : groups K O V) (k : K) (o : O) (meta : Attestation) : Prop :=
  exists f, group_find k o g = Some f /\ att_generation meta < att_generation (fd_meta f).

Definition stage_ok {K V} `{Ord K} (g : groups K SourceIncarnationKey V) (meta : Attestation)
    (stage : Stage K V) : Prop :=
  match stage with
  | NoStage => True
  | StageWrite k _ => may_write g k (att_owner meta) meta
  | StageRing k => may_ring g k (att_owner meta) meta
  end.

(** A reincarnation that is not ahead of the object goes to the ring whatever
    its generation. *)
Definition stage_weak {K V} `{Ord K} (g : groups K SourceIncarnationKey V) (meta : Attestation)
    (stage : Stage K V) : Prop :=
  match stage with
  | StageWrite k _ => may_write g k (att_owner meta) meta
  | _ => True
  end.

(** A write to a catalogue table keeps it within its limit. *)
Definition room {K O V} `{Ord K} (g : groups K O V) (limit : Z) (stage : Stage K V) : Prop :=
  match stage with
  | StageWrite k _ => is_Some (map_find k g) \/ zlen g < limit
  | _ => True
  end.

Record change_ok (limits : Limits) (state : RegistryState) (change : StagedChange) : Prop := {
  co_object_room : room (rs_object_registrations state) (max_objects limits) (sc_object_registration change);
  co_endpoint_room : room (rs_endpoint_registrations state) (max_endpoints limits) (sc_endpoint_registration change);
  co_objects : stage_ok (rs_object_registrations state) (sc_meta change) (sc_object_registration change);
  co_endpoints : stage_ok (rs_endpoint_registrations state) (sc_meta change) (sc_endpoint_registration change);
  co_subject : stage_ok (rs_subject_records state) (sc_meta change) (sc_subject change);
  co_lifecycle : stage_ok (rs_lifecycle_records state) (sc_meta change) (sc_lifecycle change);
  co_reincarnation : stage_weak (rs_reincarnation_records state) (sc_meta change) (sc_reincarnation change);
  co_object_capability :
    stage_ok (rs_object_capability_records state) (sc_meta change) (sc_object_capability change);
  co_port_capability :
    stage_ok (rs_port_capability_records state) (sc_meta change) (sc_port_capability change);
  co_port_keys : NoDup ((pu_key <$> sc_port_updates change) ++ sc_ring_port_keys change);
  co_port_owner : Forall (fun key => ps_owner key = att_owner (sc_meta change))
                    ((pu_key <$> sc_port_updates change) ++ sc_ring_port_keys change);
  co_port_writes : Forall (fun u => may_write (rs_port_records state) (ps_port (pu_key u)) (pu_key u) (sc_meta change))
                     (sc_port_updates change);
  co_port_rings : Forall (fun key => may_ring (rs_port_records state) (ps_port key) key (sc_meta change))
                    (sc_ring_port_keys change);
}.

Lemma outcome_insert {K O V} `{Ord K, Ord O} same (g : groups K O V) k o meta v :
  existing_outcome same g k o meta v = Insert -> may_write g k o meta.
Proof.
  unfold existing_outcome, may_write, group_find. destruct (map_find k g) as [m|]; [|done].
  destruct (map_find o m) as [f|]; [|done]. unfold compare_generation.
  destruct (Z.ltb_spec (att_generation (fd_meta f)) (att_generation meta)); [|by repeat case_match].
  by intros _ ? [= <-].
Qed.

Lemma outcome_superseded {K O V} `{Ord K, Ord O} same (g : groups K O V) k o meta v :
  existing_outcome same g k o meta v = Superseded -> may_ring g k o meta.
Proof.
  unfold existing_outcome, may_ring, group_find. destruct (map_find k g) as [m|]; [|done].
  destruct (map_find o m) as [f|]; [|done]. unfold compare_generation.
  destruct (Z.ltb_spec (att_generation (fd_meta f)) (att_generation meta)); [done|].
  destruct (Z.ltb_spec (att_generation meta) (att_generation (fd_meta f))); [|by case_match].
  intros _. by exists f.
Qed.

Lemma no_change_ok limits state meta : change_ok limits state (no_change meta).
Proof. split; cbn; try done; constructor. Qed.

(** Staging one table keeps the rest empty. *)
Ltac stage_only := split; cbn; try done; try solve [constructor].

Section stages.
Context (limits : Limits) (state : RegistryState) (meta : Attestation).

Lemma has_room {K O V} `{Ord K} (g : groups K O V) k limit :
  negb (bool_decide (is_Some (map_find k g))) && (limit <=? zlen g) = false ->
  is_Some (map_find k g) \/ zlen g < limit.
Proof.
  destruct (bool_decide_reflect (is_Some (map_find k g))) as [Hs|Hs]; [by left|]. cbn.
  intros Hlt%Z.leb_gt. by right.
Qed.

Lemma register_object_ok cache d :
  change_ok limits state (dc_change (decide_register_object limits state meta cache d).1).
Proof.
  unfold decide_register_object. destruct (existing_outcome _ _ _ _ _ _) eqn:E; try apply no_change_ok.
  - destruct (if is_empty (od_label d) then _ else _) as [holders c].
    destruct (List.find _ holders); [apply no_change_ok|]. cbn [fst].
    destruct (negb _ && _) eqn:Eroom; [apply no_change_ok|]. stage_only; [by apply has_room|].
    by eapply outcome_insert.
  - stage_only. by eapply outcome_superseded.
Qed.

(** The single-key cases share this shape. *)
Lemma resolve_ok outcome t1 t2 t3 ring insert :
  (outcome = Superseded -> change_ok limits state ring) ->
  (outcome = Insert -> change_ok limits state (dc_change insert)) ->
  change_ok limits state (dc_change (resolve outcome meta t1 t2 t3 ring insert)).
Proof. intros Hr Hi. destruct outcome; cbn; auto; apply no_change_ok. Qed.

Lemma port_plan_write u : kp_write (port_plan state meta u) = true ->
  may_write (rs_port_records state) (ps_port (pu_key u)) (pu_key u) meta.
Proof. unfold port_plan. destruct (existing_outcome _ _ _ _ _ _) eqn:E; try done. intros _. by eapply outcome_insert. Qed.

Lemma port_plan_ring u : kp_ring (port_plan state meta u) = true ->
  may_ring (rs_port_records state) (ps_port (pu_key u)) (pu_key u) meta /\
  kp_write (port_plan state meta u) = false.
Proof.
  unfold port_plan. destruct (existing_outcome _ _ _ _ _ _) eqn:E; try done. intros _.
  split; [by eapply outcome_superseded|done].
Qed.

Lemma planned_filter {B} (f : PortUpdate -> B) (p : KeyPlan -> bool) (updates : list PortUpdate) :
  (fun x => f x.1) <$> filter (fun x => p x.2 = true) ((fun u => (u, port_plan state meta u)) <$> updates) =
  f <$> filter (fun u => p (port_plan state meta u) = true) updates.
Proof.
  induction updates as [|u l IH]; [done|]. rewrite fmap_cons, !filter_cons. cbn [fst snd].
  destruct (decide (p (port_plan state meta u) = true)); [|exact IH]. rewrite !fmap_cons. by f_equal.
Qed.

Lemma elem_of_key_filter (p : PortUpdate -> bool) key (updates : list PortUpdate) :
  key ∈ pu_key <$> filter (fun u => p u = true) updates ->
  exists u, u ∈ updates /\ p u = true /\ key = pu_key u.
Proof.
  intros (u & -> & Hu)%list_elem_of_fmap. apply list_elem_of_filter in Hu as [Hp Hin]. by exists u.
Qed.

Lemma split_keys_nodup (p q : PortUpdate -> bool) (updates : list PortUpdate) :
  NoDup (pu_key <$> updates) -> (forall u, q u = true -> p u = false) ->
  NoDup ((pu_key <$> filter (fun u => p u = true) updates) ++ (pu_key <$> filter (fun u => q u = true) updates)).
Proof.
  intros Hnd Hpq. induction updates as [|u l IH]; [constructor|].
  rewrite fmap_cons, NoDup_cons in Hnd. destruct Hnd as [Hnin Hnd]. specialize (IH Hnd).
  assert (Hfresh : forall r, pu_key u ∉ pu_key <$> filter (fun u => r u = true) l).
  { intros r (u' & Hin & _ & Hk)%elem_of_key_filter. apply Hnin. rewrite Hk. by apply list_elem_of_fmap_2. }
  rewrite !filter_cons. destruct (decide (p u = true)) as [Hp|Hp].
  - destruct (decide (q u = true)) as [Hq|Hq]; [rewrite (Hpq u Hq) in Hp; done|].
    rewrite fmap_cons. cbn. apply NoDup_cons. split; [|done].
    intros [Hin|Hin]%elem_of_app; by apply Hfresh in Hin.
  - destruct (decide (q u = true)) as [Hq|Hq]; [|done]. rewrite fmap_cons.
    rewrite <- Permutation_middle. apply NoDup_cons. split; [|done].
    intros [Hin|Hin]%elem_of_app; by apply Hfresh in Hin.
Qed.

Lemma attachment_ok subject value updates :
  NoDup (pu_key <$> updates) -> Forall (fun u => ps_owner (pu_key u) = att_owner meta) updates ->
  change_ok limits state (dc_change (decide_attachment limits state meta subject value updates)).
Proof.
  intros Hnd Hown. unfold decide_attachment. case_match; [apply no_change_ok|].
  case_match; [apply no_change_ok|]. case_match; [apply no_change_ok|].
  rewrite (planned_filter (fun u => u) kp_write), (planned_filter pu_key kp_ring), list_fmap_id.
  set (W := filter _ updates). set (R := pu_key <$> filter _ updates).
  set (plan := plan_of _). set (stage := if kp_write plan then _ else _).
  assert (Hs : stage_ok (rs_subject_records state) meta stage).
  { unfold stage, plan. destruct (existing_outcome _ _ _ _ _ _) eqn:E; cbn; try done.
    - by eapply outcome_insert.
    - by eapply outcome_superseded. }
  assert (Hok : change_ok limits state (stage_attachment meta stage W R)).
  { rewrite Forall_forall in Hown. split; cbn; try done.
    - apply (split_keys_nodup (fun u => kp_write (port_plan state meta u))
               (fun u => kp_ring (port_plan state meta u))); [done|].
      intros u Hu. by apply port_plan_ring in Hu as [_ ?].
    - apply Forall_forall. intros key [Hk|Hk]%elem_of_app;
        apply (elem_of_key_filter (fun u => _ (port_plan state meta u))) in Hk as (u & Hin & _ & ->); auto.
    - apply Forall_forall. intros u [Hw _]%list_elem_of_filter. by apply port_plan_write.
    - apply Forall_forall. intros key Hk.
      apply (elem_of_key_filter (fun u => kp_ring (port_plan state meta u))) in Hk as (u & _ & Hr & ->).
      by apply port_plan_ring in Hr as [? _]. }
  case_match; exact Hok.
Qed.

Lemma decide_change_ok cache e : change_ok limits state (dc_change (decide_evidence limits state meta cache e).1).
Proof.
  unfold decide_evidence. destruct (ev_payload e) as [d|d|p|p|p|p|p|p|p]; cbn [fst];
    try (apply resolve_ok; intros E).
  - apply register_object_ok.
  - stage_only. by eapply outcome_superseded.
  - destruct (negb _ && _) eqn:Eroom; [apply no_change_ok|]. stage_only; [by apply has_room|].
    by eapply outcome_insert.
  - apply attachment_ok; cbn; [apply NoDup_singleton|repeat constructor].
  - apply attachment_ok; unfold detach_updates; case_match; repeat constructor. set_solver.
  - apply attachment_ok; unfold move_updates; case_match; repeat constructor; [|set_solver..].
    cbn. rewrite list_elem_of_singleton. intros [= E1 E2].
    match goal with Hp : negb _ = true |- _ => rewrite E1, E2, keqb_refl, Z.eqb_refl in Hp end. done.
  - stage_only. by eapply outcome_superseded.
  - stage_only. by eapply outcome_insert.
  - stage_only. by eapply outcome_superseded.
  - stage_only. by eapply outcome_insert.
  - stage_only. by eapply outcome_superseded.
  - stage_only. by eapply outcome_insert.
  - stage_only.
  - case_match; [|case_match]; stage_only; by eapply outcome_insert.
Qed.
End stages.

(** ** The tables *)

Section tables.
Context {K O V : Type} `{Ord K, Ord O} (own : O -> SourceIncarnationKey) (place : K -> O -> Prop)
  (below : Prop) (h : Z) (sess : SourceIncarnationKey -> Prop).
Implicit Types g : groups K O V.

(** Every record of a table is well formed, filed in its place, and owned by
    a known session. *)
Definition table_inv g : Prop :=
  group_sorted g /\
  all_entries (fun k o f => entry_ok h (own o) f /\ (below -> ring_below f) /\ place k o /\ sess (own o)) g.

Lemma table_inv_empty : table_inv [].
Proof. split; [split; constructor|]. intros k o f. done. Qed.

Lemma fold_inv k o meta v g :
  0 <= h -> att_owner meta = own o -> place k o -> sess (own o) -> may_write g k o meta ->
  table_inv g -> table_inv (group_fold h k o meta v g).
Proof.
  intros Hh Ho Hp Hse Hw [Hs Hall]. split; [by apply group_fold_sorted|].
  apply all_entries_fold; [done| |].
  - intros f Hf. destruct (Hall _ _ _ Hf) as (He & Hb & _). split_and!; [by apply fold_winning_ok| |done..].
    intros HB. apply fold_winning_below; [done|apply He|by apply Hw|auto].
  - intros _. split_and!; [by apply entry_new|by constructor|done..].
Qed.

Lemma fold_losing_inv k o meta g :
  0 <= h -> att_owner meta = own o -> (below -> may_ring g k o meta) ->
  table_inv g -> table_inv (group_fold_losing h k o meta g).
Proof.
  intros Hh Ho Hr [Hs Hall]. split; [by apply group_fold_losing_sorted|].
  apply all_entries_fold_losing; [done|]. intros f Hf. destruct (Hall _ _ _ Hf) as (He & Hb & Hp).
  split_and!; [by apply fold_losing_ok| |apply Hp..].
  intros HB. destruct (Hr HB) as (f' & Hf' & Hlt). rewrite Hf in Hf'. injection Hf' as <-.
  apply fold_losing_below; [done|apply He|done|auto].
Qed.
End tables.

Lemma may_write_other {K O V} `{Ord K, Ord O} (g g' : groups K O V) k o meta :
  group_find k o g' = group_find k o g -> may_write g k o meta -> may_write g' k o meta.
Proof. unfold may_write. by intros ->. Qed.

Lemma may_ring_other {K O V} `{Ord K, Ord O} (g g' : groups K O V) k o meta :
  group_find k o g' = group_find k o g -> may_ring g k o meta -> may_ring g' k o meta.
Proof. unfold may_ring. by intros ->. Qed.

Abbreviation id_own := (fun o : SourceIncarnationKey => o).
Abbreviation anywhere := (fun _ _ => True).

Section stage_inv.
Context {K V : Type} `{Ord K} (h : Z) (sess : SourceIncarnationKey -> Prop) (meta : Attestation)
  (Hh : 0 <= h) (Hsess : sess (att_owner meta)).
Implicit Types (g : groups K SourceIncarnationKey V) (stage : Stage K V).

Lemma stage_inv stage g :
  stage_ok g meta stage -> table_inv id_own anywhere True h sess g ->
  table_inv id_own anywhere True h sess (write_stage h stage meta (ring_stage h stage meta g)).
Proof using Hh Hsess.
  intros Hok Hg. destruct stage; cbn in *; [done| |].
  - by apply fold_inv.
  - by apply fold_losing_inv.
Qed.

Lemma stage_weak_inv stage g :
  stage_weak g meta stage -> table_inv id_own anywhere False h sess g ->
  table_inv id_own anywhere False h sess (write_stage h stage meta (ring_stage h stage meta g)).
Proof using Hh Hsess.
  intros Hok Hg. destruct stage; cbn in *; [done| |].
  - by apply fold_inv.
  - by apply fold_losing_inv.
Qed.
End stage_inv.

Abbreviation at_port := (fun (k : PortRef) (o : PortSlotKey) => ps_port o = k).

Section ports_inv.
Context (h : Z) (sess : SourceIncarnationKey -> Prop) (meta : Attestation)
  (Hh : 0 <= h) (Hsess : sess (att_owner meta)).
#[local] Abbreviation inv := (table_inv ps_owner at_port True h sess).

Lemma ring_ports_inv keys g :
  NoDup keys -> Forall (fun key => ps_owner key = att_owner meta) keys ->
  Forall (fun key => may_ring g (ps_port key) key meta) keys -> inv g ->
  inv (ring_ports h keys meta g) /\
  forall key, key ∉ keys ->
    group_find (ps_port key) key (ring_ports h keys meta g) = group_find (ps_port key) key g.
Proof using Hh.
  revert g. induction keys as [|k keys IH]; intros g Hnd Ho Hr Hg; [done|].
  apply NoDup_cons in Hnd as [Hnin Hnd]. inversion Ho; subst. inversion Hr; subst.
  assert (Hsame : forall key, key <> k ->
    group_find (ps_port key) key (group_fold_losing h (ps_port k) k meta g) = group_find (ps_port key) key g).
  { intros key Hne. rewrite group_find_fold_losing. rewrite (proj2 (keqb_neq key k) Hne).
    by rewrite andb_false_r. }
  destruct (IH (group_fold_losing h (ps_port k) k meta g)) as [Hi Hf]; [done|done| |by apply fold_losing_inv|].
  { rewrite Forall_forall in *. intros key Hk. apply (may_ring_other g); [|auto].
    apply Hsame. by intros ->. }
  split; [exact Hi|]. intros key Hkey. apply not_elem_of_cons in Hkey as [Hne Hkey].
  etrans; [by apply Hf|by apply Hsame].
Qed.

Lemma write_ports_inv updates g :
  NoDup (pu_key <$> updates) -> Forall (fun u => ps_owner (pu_key u) = att_owner meta) updates ->
  Forall (fun u => may_write g (ps_port (pu_key u)) (pu_key u) meta) updates -> inv g ->
  inv (write_ports h updates meta g).
Proof using Hh Hsess.
  revert g. induction updates as [|u updates IH]; intros g Hnd Ho Hw Hg; [done|].
  rewrite fmap_cons, NoDup_cons in Hnd. destruct Hnd as [Hnin Hnd]. inversion Ho as [|? ? Hou]; subst.
  inversion Hw; subst. apply IH; [done|done| |].
  - rewrite Forall_forall in *. intros u' Hu'. apply (may_write_other g); [|auto].
    rewrite group_find_fold. destruct (keqb (pu_key u') (pu_key u)) eqn:E; [|by rewrite andb_false_r].
    apply keqb_eq in E. exfalso. apply Hnin. rewrite <- E. by apply list_elem_of_fmap_2.
  - apply fold_inv; try done. by rewrite Hou.
Qed.
End ports_inv.

(** ** The state *)

Lemma table_inv_mono {K O V} `{Ord K, Ord O} own place below h (sess sess' : SourceIncarnationKey -> Prop)
    (g : groups K O V) :
  (forall o, sess o -> sess' o) -> table_inv own place below h sess g -> table_inv own place below h sess' g.
Proof. intros Hss [Hs Hall]. split; [done|]. intros k o f Hf. destruct (Hall k o f Hf) as (? & ? & ? & ?). auto. Qed.

Lemma group_fold_zlen {K O V} `{Ord K, Ord O} h (k : K) (o : O) meta v (g : groups K O V) :
  map_sorted g ->
  zlen (group_fold h k o meta v g) = if bool_decide (is_Some (map_find k g)) then zlen g else zlen g + 1.
Proof.
  intros Hs. unfold group_fold, zlen. rewrite map_set_length by done.
  destruct (map_find k g); [rewrite bool_decide_true by done; done|].
  rewrite bool_decide_false by (by intros [? ?]). lia.
Qed.

Lemma group_fold_losing_zlen {K O V} `{Ord K, Ord O} h (k : K) (o : O) meta (g : groups K O V) :
  map_sorted g -> zlen (group_fold_losing h k o meta g) = zlen g.
Proof.
  intros Hs. unfold group_fold_losing. destruct (map_find k g) eqn:E; [|done].
  unfold zlen. by rewrite map_set_length, E by done.
Qed.

Definition has_session (s : RegistryState) (o : SourceIncarnationKey) : Prop :=
  is_Some (map_find o (rs_sessions s)).

(** A session belongs to a described source that has reached its incarnation. *)
Definition session_sourced (s : RegistryState) (key : SourceIncarnationKey) : Prop :=
  exists source, map_find (key_source key) (rs_sources s) = Some source /\ sr_described source = true /\
    key_incarnation key <= sr_current_incarnation source.

Record state_inv (limits : Limits) (h : Z) (s : RegistryState) : Prop := {
  si_sources_sorted : map_sorted (rs_sources s);
  si_sessions_sorted : map_sorted (rs_sessions s);
  si_sources_cap : zlen (rs_sources s) <= max_sources limits;
  si_objects_cap : zlen (rs_object_registrations s) <= max_objects limits;
  si_endpoints_cap : zlen (rs_endpoint_registrations s) <= max_endpoints limits;
  si_sessions : forall key, has_session s key -> session_sourced s key;
  si_objects : table_inv id_own anywhere True h (has_session s) (rs_object_registrations s);
  si_endpoints : table_inv id_own anywhere True h (has_session s) (rs_endpoint_registrations s);
  si_subjects : table_inv id_own anywhere True h (has_session s) (rs_subject_records s);
  si_ports : table_inv ps_owner at_port True h (has_session s) (rs_port_records s);
  si_lifecycle : table_inv id_own anywhere True h (has_session s) (rs_lifecycle_records s);
  si_reincarnation : table_inv id_own anywhere False h (has_session s) (rs_reincarnation_records s);
  si_object_capability : table_inv id_own anywhere True h (has_session s) (rs_object_capability_records s);
  si_port_capability : table_inv id_own anywhere True h (has_session s) (rs_port_capability_records s);
}.

Lemma state_inv_empty limits h id opened_at :
  0 <= max_sources limits -> 0 <= max_objects limits -> 0 <= max_endpoints limits ->
  state_inv limits h (empty_state id opened_at).
Proof.
  intros. split; cbn; try done; try apply table_inv_empty; try constructor.
  intros key [x Hx]. done.
Qed.

Lemma stage_cap {K V} `{Ord K} h limit (stage : Stage K V) meta (g : groups K SourceIncarnationKey V) :
  group_sorted g -> room g limit stage -> zlen g <= limit ->
  zlen (write_stage h stage meta (ring_stage h stage meta g)) <= limit.
Proof.
  intros [Hs _] Hroom Hcap. destruct stage; cbn [write_stage ring_stage room] in *; [done| |].
  - rewrite group_fold_zlen by done. case_bool_decide; [done|]. destruct Hroom; [done|lia].
  - by rewrite group_fold_losing_zlen.
Qed.

Lemma apply_tables_inv limits h change s :
  0 <= h -> state_inv limits h s -> change_ok limits s change -> has_session s (att_owner (sc_meta change)) ->
  state_inv limits h (apply_tables h change s).
Proof.
  intros Hh [] [] Hse. split; try done.
  - apply stage_cap; [apply si_objects0|done|done].
  - apply stage_cap; [apply si_endpoints0|done|done].
  - by apply (stage_inv h (has_session s)).
  - by apply (stage_inv h (has_session s)).
  - by apply (stage_inv h (has_session s)).
  - apply NoDup_app in co_port_keys0 as (Hnd1 & Hdisj & Hnd2).
    apply Forall_app in co_port_owner0 as [Ho1 Ho2].
    destruct (ring_ports_inv h (has_session s) (sc_meta change) Hh (sc_ring_port_keys change) (rs_port_records s)) as [Hi Hsame];
      [done..|].
    apply (write_ports_inv h (has_session s)); [done|done|done|by apply Forall_fmap in Ho1| |exact Hi].
    rewrite Forall_forall in co_port_writes0 |- *. intros u Hu. eapply may_write_other; [|by apply co_port_writes0].
    apply Hsame. apply Hdisj. by apply list_elem_of_fmap_2.
  - by apply (stage_inv h (has_session s)).
  - by apply (stage_weak_inv h (has_session s)).
  - by apply (stage_inv h (has_session s)).
  - by apply (stage_inv h (has_session s)).
Qed.

(** Replacing the session table by one that knows at least the same sessions. *)
Lemma set_sessions_inv limits h s sessions :
  state_inv limits h s -> map_sorted sessions ->
  (forall key, is_Some (map_find key sessions) -> session_sourced s key) ->
  (forall key, has_session s key -> is_Some (map_find key sessions)) ->
  state_inv limits h (set_sessions sessions s).
Proof.
  intros [] Hs Hsrc Hmono. split; try done; by eapply table_inv_mono.
Qed.

Lemma is_Some_set {K V} `{Ord K} (k k' : K) (v : V) m :
  is_Some (map_find k' (map_set k v m)) <-> k' = k \/ is_Some (map_find k' m).
Proof.
  rewrite find_set. destruct (keqb k' k) eqn:E.
  - apply keqb_eq in E as ->. split; [by left|done].
  - apply keqb_neq in E. naive_solver.
Qed.

Lemma update_session_inv limits h s key session :
  state_inv limits h s -> has_session s key -> state_inv limits h (set_sessions (map_set key session (rs_sessions s)) s).
Proof.
  intros Hinv Hk. apply set_sessions_inv; [done|apply map_sorted_set, Hinv| |].
  - intros k [->|Hs]%is_Some_set; by apply Hinv.
  - intros k Hs. apply is_Some_set. by right.
Qed.

(** ** The registry object *)

Record impl_inv {S} (impl : Impl S) : Prop := {
  ii_history : 0 < im_history_per_key impl;
  ii_state : state_inv (im_limits impl) (im_history_per_key impl) (im_state impl);
  ii_labels : labels_ok (im_state impl) (im_labels impl);
}.

Section impl.
Context {S : Type} `{AppendLog S}.
Implicit Types impl : Impl S.

Lemma impl_inv_same impl impl' :
  im_limits impl' = im_limits impl -> im_history_per_key impl' = im_history_per_key impl ->
  im_state impl' = im_state impl -> im_labels impl' = im_labels impl -> impl_inv impl -> impl_inv impl'.
Proof. intros E1 E2 E3 E4 []. split; [by rewrite E2|by rewrite E1, E2, E3|by rewrite E3, E4]. Qed.

Lemma commit_inv e now persist meta impl d t impl1 :
  commit_case e now persist meta impl d t impl1 -> impl_inv impl -> has_session (im_state impl) (att_owner meta) ->
  impl_inv impl1 /\ im_limits impl1 = im_limits impl /\ im_history_per_key impl1 = im_history_per_key impl.
Proof.
  intros Hcase Hinv Hse. destruct Hinv as [Hh Hst Hlab].
  assert (Hcache : forall dec cache,
    decide_evidence (im_limits impl) (im_state impl) meta (im_labels impl) e = (dec, cache) ->
    labels_ok (im_state impl) cache /\ change_ok (im_limits impl) (im_state impl) (dc_change dec) /\
    sc_meta (dc_change dec) = meta).
  { intros dec cache E.
    pose proof (decide_cache_ok (im_limits impl) _ meta _ e Hlab) as H1.
    pose proof (decide_change_ok (im_limits impl) (im_state impl) meta (im_labels impl) e) as H2.
    rewrite E in H1, H2. split_and!; [done|done|].
    pose proof (decide_meta (im_limits impl) (im_state impl) meta (im_labels impl) e) as H3. by rewrite E in H3. }
  destruct Hcase as [dec cache Hd Ha|dec cache text impl' Hd Hp Hl Hs Hc Hlim Hhis Hcl Hsto
                    |dec cache store Hd Ha Hacc Hsto Hlog].
  - split; [|done]. destruct (Hcache _ _ Hd) as (? & _ & _). by split.
  - split; [|done]. destruct (Hcache _ _ Hd) as (? & _ & _).
    split; [by rewrite Hhis|by rewrite Hlim, Hhis, Hs|by rewrite Hs, Hc].
  - split; [|done]. destruct (Hcache _ _ Hd) as (Hok & Hch & Hm). split; cbn; [done| |].
    + apply apply_tables_inv; [lia|done|done|by rewrite Hm].
    + apply apply_labels_ok; [apply Hst|done].
Qed.

Lemma ingest_inv e now persist live impl :
  impl_inv impl -> impl_inv (ingest_locked e now persist live impl).2.
Proof.
  intros Hinv. destruct (ingest_locked e now persist live impl) as [r impl'] eqn:E.
  apply ingest_cases in E as [r' refusals Hr|source session d t impl1 refusals hdr key Hc Hv Hsrc Hdes Hses Hcase].
  - by eapply impl_inv_same; [..|exact Hinv].
  - assert (Hk : has_session (im_state impl) key) by (unfold has_session; rewrite Hses; by eexists).
    destruct (commit_inv _ _ _ _ _ _ _ _ Hcase Hinv Hk) as (Hinv1 & _ & _).
    pose proof (commit_sessions _ _ _ _ _ _ _ _ Hcase) as Hss.
    destruct Hinv1 as [Hh Hst Hlab]. split; cbn; [done| |done].
    apply update_session_inv; [done|]. unfold has_session. by rewrite Hss.
Qed.

Lemma ingest_all_inv now evidence impl : impl_inv impl -> impl_inv (ingest_all now evidence impl).2.
Proof.
  revert now impl. induction evidence as [|e rest IH]; intros now impl Hinv; [done|]. cbn.
  pose proof (ingest_inv e (now 0%nat) true true impl Hinv) as H1.
  destruct (ingest_locked _ _ _ _ _) as [r impl1]. cbn in H1.
  specialize (IH (fun i => now (Datatypes.S i)) impl1 H1). by destruct (ingest_all _ rest impl1).
Qed.
End impl.

(** ** Sessions *)

Lemma open_source_current descriptor incarnation source :
  sr_current_incarnation (open_source descriptor incarnation source) =
  Z.max (sr_current_incarnation source) incarnation.
Proof. cbn. destruct (Z.ltb_spec (sr_current_incarnation source) incarnation); lia. Qed.

Lemma open_source_described descriptor incarnation source :
  sr_described (open_source descriptor incarnation source) = true.
Proof. cbn. destruct (sr_described source) eqn:E; cbn; [by case_match|done]. Qed.

(** The source table after a session opened. *)
Lemma open_session_sources descriptor incarnation opened_at s :
  let source := default default_source_record (map_find (src_id descriptor) (rs_sources s)) in
  exists opened,
    rs_sources (open_session_state descriptor incarnation opened_at s) =
      map_set (src_id descriptor) opened (rs_sources s) /\
    sr_described opened = true /\
    sr_current_incarnation opened = Z.max (sr_current_incarnation source) incarnation.
Proof.
  cbn -[map_set map_find open_source]. rewrite find_set_eq. cbn [from_option id]. rewrite map_set_set.
  eexists. split; [reflexivity|]. split; [apply open_source_described|].
  cbn [sr_current_incarnation]. rewrite open_source_current. lia.
Qed.

(** The session table after a session opened. *)
Lemma open_session_sessions descriptor incarnation opened_at s :
  exists session,
    rs_sessions (open_session_state descriptor incarnation opened_at s) =
      map_set (mkKey (src_id descriptor) incarnation) session (rs_sessions s) /\
    ss_live session = true /\ ss_closed session = false.
Proof.
  cbn -[map_set map_find]. rewrite find_set_eq. cbn [from_option id]. rewrite map_set_set.
  eexists. split; [reflexivity|]. done.
Qed.

(** Opening a session touches no evidence table. *)
Lemma open_session_tables descriptor incarnation opened_at s :
  open_session_state descriptor incarnation opened_at s =
  set_sessions (rs_sessions (open_session_state descriptor incarnation opened_at s))
    (set_sources (rs_sources (open_session_state descriptor incarnation opened_at s)) s).
Proof. done. Qed.

Lemma open_session_state_inv limits h descriptor incarnation opened_at s :
  is_Some (map_find (src_id descriptor) (rs_sources s)) \/ zlen (rs_sources s) < max_sources limits ->
  state_inv limits h s -> state_inv limits h (open_session_state descriptor incarnation opened_at s).
Proof.
  intros Hroom Hinv. rewrite open_session_tables.
  destruct (open_session_sources descriptor incarnation opened_at s) as (opened & Hso & Hd & Hc).
  destruct (open_session_sessions descriptor incarnation opened_at s) as (session & Hse & _).
  rewrite Hso, Hse. clear Hso Hse. destruct Hinv.
  assert (Hmono : forall o, has_session s o -> is_Some (map_find o
            (map_set (mkKey (src_id descriptor) incarnation) session (rs_sessions s))))
    by (intros o Ho; apply is_Some_set; by right).
  split; cbn; try done; try (by eapply table_inv_mono; [exact Hmono|]).
  - by apply map_sorted_set.
  - by apply map_sorted_set.
  - unfold zlen in *. rewrite map_set_length by done.
    destruct (map_find (src_id descriptor) (rs_sources s)); [done|].
    destruct Hroom as [[? ?]|]; [done|lia].
  - intros key Hk. unfold has_session in Hk. cbn in Hk. apply is_Some_set in Hk. unfold session_sourced. cbn.
    rewrite find_set. destruct (keqb (key_source key) (src_id descriptor)) eqn:E.
    + eexists. split; [done|]. split; [done|]. rewrite Hc. destruct Hk as [->|Hk]; [cbn; lia|].
      apply keqb_eq in E. destruct (si_sessions0 key Hk) as (source & Hs & _ & Hle). rewrite <- E, Hs. cbn. lia.
    + destruct Hk as [->|Hk]; [by rewrite keqb_refl in E|]. by apply si_sessions0.
Qed.

Section session_inv.
Context {S : Type} `{AppendLog S}.
Implicit Types impl : Impl S.

Lemma log_session_open_same descriptor incarnation now impl r impl' :
  log_session_open descriptor incarnation now impl = (r, impl') ->
  exists store, impl' = set_store store impl.
Proof.
  unfold log_session_open. destruct (im_store impl) as [st|] eqn:Es.
  2: { intros [= _ <-]. exists (im_store impl). by destruct impl. }
  destruct (enc_ok _); cbn [negb].
  2: { intros [= _ <-]. exists (im_store impl). by destruct impl. }
  destruct (log_append _ _ st) as [st' out]. intros [= _ <-]. by eexists.
Qed.

Lemma open_refusal_room descriptor incarnation impl :
  open_session_refusal descriptor incarnation impl = None ->
  is_Some (map_find (src_id descriptor) (rs_sources (im_state impl))) \/
  zlen (rs_sources (im_state impl)) < max_sources (im_limits impl).
Proof.
  unfold open_session_refusal. do 4 (case_match; [done|]).
  destruct (map_find _ _) as [existing|]; [left; by eexists|].
  destruct (Z.leb_spec (max_sources (im_limits impl)) (zlen (rs_sources (im_state impl)))); [done|]. by right.
Qed.

Lemma open_session_inv descriptor incarnation t1 t2 impl :
  impl_inv impl -> impl_inv (open_session descriptor incarnation t1 t2 impl).2.
Proof.
  intros Hinv. unfold open_session. destruct (open_session_refusal _ _ _) as [[[? ?] ?]|] eqn:Er; [done|].
  apply open_refusal_room in Er.
  destruct (log_session_open _ _ _ _) as [r impl1] eqn:El.
  apply log_session_open_same in El as [store ->].
  destruct r as [[? ?]|]; [by eapply impl_inv_same; [..|exact Hinv]|].
  destruct (if negb _ || _ then _ else _) as [disp detail]. cbn [snd].
  destruct Hinv as [Hh Hst Hlab]. split; cbn [set_state set_store im_limits im_history_per_key im_state im_labels];
    [done|by apply open_session_state_inv|exact Hlab].
Qed.

Lemma close_session_inv key impl : impl_inv impl -> impl_inv (close_session key impl).2.
Proof.
  intros Hinv. unfold close_session. case_match; [done|].
  destruct (map_find key _) as [session|] eqn:Es; [|done].
  assert (Hk : has_session (im_state impl) key) by (unfold has_session; rewrite Es; by eexists).
  destruct Hinv as [Hh Hst Hlab].
  destruct (im_store impl) as [store|]; [|split; cbn; [done|by apply update_session_inv|done]].
  destruct (log_append _ _ store) as [store' [|]]; split; cbn; try done. by apply update_session_inv.
Qed.

Lemma close_registry_inv impl : impl_inv impl -> impl_inv (close_registry impl).
Proof.
  intros Hinv. unfold close_registry. case_match; [done|].
  destruct (im_store _); by eapply impl_inv_same; [..|exact Hinv].
Qed.

(** Compaction only touches the store. *)
Lemma compact_same impl : exists store, (compact impl).2 = set_store store impl /\
  (is_Some store <-> is_Some (im_store impl)).
Proof.
  assert (Hsame : exists store, impl = set_store store impl /\ (is_Some store <-> is_Some (im_store impl)))
    by (exists (im_store impl); by destruct impl).
  unfold compact. case_match; [done|]. destruct (im_store impl) as [st|]; [|done].
  case_match; [done|]. destruct (log_rewrite _ st) as [st' [|]]; by exists (Some st').
Qed.

Lemma compact_inv impl : impl_inv impl -> impl_inv (compact impl).2.
Proof.
  intros Hinv. destruct (compact_same impl) as (store & -> & _). by eapply impl_inv_same; [..|exact Hinv].
Qed.
End session_inv.

(** ** Reachability *)

(** The ranges C++ gives the members of a source descriptor. *)
Definition typed_descriptor (d : SourceDescriptor) : Prop := id_ok (src_id d) /\ wf_authority (src_authority d).

(** One call of the public interface that may change the registry, with
    arguments of the widths their types have.  Compaction is kept apart: it
    rewrites the log and leaves the registry alone. *)
Inductive call {S} `{AppendLog S} (impl : Impl S) : Impl S -> Prop :=
  | step_ingest now evidence :
      is_i64 now -> typed_evidence evidence -> call impl (registry_ingest now evidence impl).2
  | step_ingest_batch now evidence :
      (forall i, is_i64 (now i)) -> Forall typed_evidence evidence ->
      call impl (registry_ingest_batch now evidence impl).2
  | step_open_session descriptor incarnation logged_at opened_at :
      typed_descriptor descriptor -> is_u64 incarnation -> is_i64 logged_at -> is_i64 opened_at ->
      call impl (open_session descriptor incarnation logged_at opened_at impl).2
  | step_close_session key :
      id_ok (key_source key) -> is_u64 (key_incarnation key) -> call impl (close_session key impl).2
  | step_close : call impl (close_registry impl).

Inductive step {S} `{AppendLog S} (impl : Impl S) : Impl S -> Prop :=
  | step_call impl' : call impl impl' -> step impl impl'
  | step_compact : step impl (compact impl).2.

Abbreviation reachable := (rtc step).

Lemma step_inv {S} `{AppendLog S} (impl impl' : Impl S) : step impl impl' -> impl_inv impl -> impl_inv impl'.
Proof.
  intros [? []|] Hinv; [by apply ingest_inv|by apply ingest_all_inv|by apply open_session_inv
                       |by apply close_session_inv|by apply close_registry_inv|by apply compact_inv].
Qed.

Lemma reachable_inv {S} `{AppendLog S} (impl impl' : Impl S) :
  reachable impl impl' -> impl_inv impl -> impl_inv impl'.
Proof. induction 1; eauto using step_inv. Qed.
