(* ===== verification/WellFormed.v ===== *)
(** * Machine ranges of the registry state

    The C++ types bound every integer the registry stores; the model keeps
    integers unbounded and this file shows that the bounds hold: when the
    inputs of the public interface have the widths their types give them, every
    reachable state satisfies [wf_state], the precondition of the state image
    ([StateCodec.v]). *)
From S2P Require Import Prelude OrdMap Types Ids Graph Codec Serialization State StateCodec Fold Derive Log Admit Ingest Session Recovery Invariant.
#[local] Open Scope Z_scope.

(** ** Tables *)

Lemma map_set_forall {K V} `{Ord K} (P : K * V -> Prop) k v (m : ordmap K V) :
  Forall P m -> P (k, v) -> Forall P (map_set k v m).
Proof.
  rewrite !Forall_forall. intros Hall Hk e He. apply map_set_elem in He as [->|He]; auto.
Qed.

Lemma forall_find {K V} `{Ord K} (P : K * V -> Prop) k v (m : ordmap K V) :
  Forall P m -> map_find k m = Some v -> P (k, v).
Proof. intros Hall Hf. rewrite Forall_forall in Hall. by apply Hall, find_elem. Qed.

Section table.
Context (limits : Limits) (h : Z) (Hh : 0 <= h <= max_history_per_key limits)
  (meta : Attestation) (Hmeta : wf_attestation meta).

Lemma fold_winning_wf {T} (wv : T -> Prop) v f :
  wv v -> wf_folded limits wv f -> wf_folded limits wv (fold_winning h meta v f).
Proof using Hh Hmeta.
  intros Hv (Hm & _ & Hl & Hr & Hd). unfold fold_winning. set (ring := if has_evidence _ _ then _ else _).
  assert (HP : Forall wf_attestation ring).
  { unfold ring. case_match; [done|]. apply Forall_app. split; [done|by constructor]. }
  pose proof (trim_ring_ok h ring (fd_history_dropped f) _ (proj1 Hh) Hd HP) as Ht.
  destruct (trim _ _ _) as [ring' d']. destruct Ht as (? & ? & _ & ?). split_and!; cbn; try done. lia.
Qed.

Lemma fold_losing_wf {T} (wv : T -> Prop) f :
  wf_folded limits wv f -> wf_folded limits wv (fold_losing_slot h meta f).
Proof using Hh Hmeta.
  intros Hwf. pose proof Hwf as (Hm & Hv & Hl & Hr & Hd). unfold fold_losing_slot.
  case_match; [done|]. case_match; [done|].
  assert (HP : Forall wf_attestation (fd_superseded f ++ [meta])).
  { apply Forall_app. split; [done|by constructor]. }
  pose proof (trim_ring_ok h _ (fd_history_dropped f) _ (proj1 Hh) Hd HP) as Ht.
  destruct (trim _ _ _) as [ring' d']. destruct Ht as (? & ? & _ & ?). split_and!; cbn; try done. lia.
Qed.

Context {K O T : Type} `{Ord K, Ord O} (wp : K -> Prop) (wk : K -> O -> Prop) (wv : T -> Prop).
Implicit Types g : groups K O T.
#[local] Abbreviation wf := (wf_group limits wp wk wv).

Lemma group_fold_wf k o v g :
  wp k -> wk k o -> wv v -> wf g -> wf (group_fold h k o meta v g).
Proof using Hh Hmeta.
  intros Hk Ho Hv [Hs Hall]. split; [by apply group_fold_sorted|].
  apply map_set_forall; [done|]. split; [done|]. cbn [fst snd].
  assert (Hin : Forall (fun f => wk k f.1 /\ wf_folded limits wv f.2) (default [] (map_find k g))).
  { destruct (map_find k g) eqn:E; cbn; [|constructor]. by apply (forall_find _ _ _ _ Hall) in E as [_ ?]. }
  unfold fold. destruct (map_find o _) as [f|] eqn:Ef; apply map_set_forall; try done; split; try done.
  - apply (forall_find _ _ _ _ Hin) in Ef as [_ Hf]. by apply fold_winning_wf.
  - unfold wf_folded. cbn [fd_meta fd_value fd_superseded fd_history_dropped fst snd].
    split_and!; [done|done|rewrite zlen_nil; lia|constructor|done].
Qed.

Lemma group_fold_losing_wf k o g : wf g -> wf (group_fold_losing h k o meta g).
Proof using Hh Hmeta.
  intros [Hs Hall]. split; [by apply group_fold_losing_sorted|].
  unfold group_fold_losing. destruct (map_find k g) as [slots|] eqn:E; [|done].
  apply (forall_find _ _ _ _ Hall) in E as [Hk Hin]. apply map_set_forall; [done|]. split; [done|].
  unfold fold_losing. cbn [fst snd]. destruct (map_find o slots) as [f|] eqn:Ef; [|done].
  apply (forall_find _ _ _ _ Hin) in Ef as [Ho Hf]. apply map_set_forall; [done|]. split; [done|].
  by apply fold_losing_wf.
Qed.
End table.

(** ** What a decision stages *)

Definition stage_wf {K V} (wp : K -> Prop) (wv : V -> Prop) (stage : Stage K V) : Prop :=
  match stage with
  | StageWrite k v => wp k /\ wv v
  | _ => True
  end.

Definition update_wf (u : PortUpdate) : Prop :=
  wf_port_ref (ps_port (pu_key u)) /\ wf_owner (ps_owner (pu_key u)) /\ is_u32 (ps_slot (pu_key u)) /\
  wf_port_value (pu_value u).

Record change_wf (limits : Limits) (change : StagedChange) : Prop := {
  cw_object : stage_wf id_ok (wf_object_descriptor limits) (sc_object_registration change);
  cw_endpoint : stage_wf id_ok (wf_endpoint_descriptor limits) (sc_endpoint_registration change);
  cw_subject : stage_wf wf_side_ref wf_subject_value (sc_subject change);
  cw_ports : Forall update_wf (sc_port_updates change);
  cw_lifecycle : stage_wf id_ok (wf_lifecycle_value limits) (sc_lifecycle change);
  cw_reincarnation : stage_wf id_ok (wf_reincarnation_value limits) (sc_reincarnation change);
  cw_object_capability : stage_wf id_ok (wf_capability limits) (sc_object_capability change);
  cw_port_capability : stage_wf wf_port_ref (wf_port_capability limits) (sc_port_capability change);
}.

Lemma no_change_wf limits meta : change_wf limits (no_change meta).
Proof. by split. Qed.

Lemma resolve_wf limits outcome meta t1 t2 t3 ring insert :
  change_wf limits ring -> change_wf limits (dc_change insert) ->
  change_wf limits (dc_change (resolve outcome meta t1 t2 t3 ring insert)).
Proof. destruct outcome; [done|done|intros; apply no_change_wf..]. Qed.

Lemma attachment_wf limits state meta subject value updates :
  wf_side_ref subject -> wf_subject_value value -> Forall update_wf updates ->
  change_wf limits (dc_change (decide_attachment limits state meta subject value updates)).
Proof.
  intros Hs Hv Hu. unfold decide_attachment. case_match; [apply no_change_wf|].
  case_match; [apply no_change_wf|]. case_match; [apply no_change_wf|].
  set (stage := if kp_write _ then _ else _). set (W := fst <$> _). set (R := _ <$> filter _ _).
  assert (Hst : stage_wf wf_side_ref wf_subject_value stage) by (unfold stage; repeat case_match; done).
  assert (HW : Forall update_wf W).
  { apply Forall_forall. intros u Hin. unfold W in Hin. apply list_elem_of_fmap in Hin as ([u' p] & -> & Hin).
    apply list_elem_of_filter in Hin as [_ Hin]. apply list_elem_of_fmap in Hin as (u'' & [= -> ->] & Hin).
    rewrite Forall_forall in Hu. by apply Hu. }
  case_match; by split.
Qed.

Lemma default_port_wf : wf_port_ref default_port.
Proof. by repeat split. Qed.

(** The values a validated record stages are well formed. *)
Lemma decide_change_wf limits state meta cache e :
  wf_payload limits (ev_payload e) -> wf_owner (att_owner meta) ->
  change_wf limits (dc_change (decide_evidence limits state meta cache e).1).
Proof.
  intros Hp Ho. pose proof default_port_wf.
  unfold decide_evidence. destruct (ev_payload e) as [d|d|p|p|p|p|p|p|p]; cbn [fst]; cbn [wf_payload] in Hp.
  - unfold decide_register_object. destruct (existing_outcome _ _ _ _ _ _); try apply no_change_wf.
    + destruct (if is_empty (od_label d) then _ else _) as [holders c].
      destruct (List.find _ holders); [apply no_change_wf|]. cbn [fst].
      case_match; [apply no_change_wf|]. split; cbn; try done. split; [apply Hp|done].
    + by split.
  - apply resolve_wf; [by split|]. case_match; [apply no_change_wf|]. split; cbn; try done. split; [apply Hp|done].
  - destruct_and! Hp. apply attachment_wf; [done|by unfold wf_subject_value|].
    by apply Forall_singleton.
  - destruct_and! Hp. apply attachment_wf; [done|by unfold wf_subject_value|].
    unfold detach_updates. case_match; [by apply Forall_singleton|done].
  - destruct_and! Hp. apply attachment_wf; [done|by unfold wf_subject_value|].
    unfold move_updates. case_match; [|by apply Forall_singleton]. apply Forall_cons. split; [done|].
    by apply Forall_singleton.
  - apply resolve_wf; [by split|]. split; cbn; try done; naive_solver.
  - apply resolve_wf; [by split|]. split; cbn; try done; naive_solver.
  - apply resolve_wf; [by split|]. split; cbn; try done. unfold wf_lifecycle_value. naive_solver.
  - destruct_and! Hp.
    assert (Hv : forall stage, stage = StageRing (re_object p) \/ stage = StageWrite (re_object p)
       (mkReincarnationValue (re_from_incarnation p) (wrap64 (re_from_incarnation p + 1)) (re_serial p) (re_reason p)) ->
       change_wf limits (stage_reincarnation meta stage)).
    { intros stage [->| ->]; split; cbn; try done. unfold wf_reincarnation_value. cbn.
      split_and!; try done; apply Z.mod_pos_bound; lia. }
    apply resolve_wf; [auto|]. case_match; [|case_match]; apply Hv; auto.
Qed.

(** ** Applying a change *)

Section apply.
Context (limits : Limits) (h : Z) (Hh : 0 <= h <= max_history_per_key limits).

Lemma stage_apply_wf {K V} `{Ord K} (wp : K -> Prop) (wv : V -> Prop) (stage : Stage K V) meta g :
  wf_attestation meta -> stage_wf wp wv stage -> wf_group limits wp owner_key wv g ->
  wf_group limits wp owner_key wv (write_stage h stage meta (ring_stage h stage meta g)).
Proof using Hh.
  intros Hm Hs Hg. destruct stage as [|k v|k]; cbn in Hs |- *; [done| |].
  - apply group_fold_wf; [done|done|apply Hs|apply Hm|apply Hs|done].
  - by apply group_fold_losing_wf.
Qed.

Lemma ring_ports_wf keys meta g :
  wf_attestation meta -> wf_group limits wf_port_ref slot_key wf_port_value g ->
  wf_group limits wf_port_ref slot_key wf_port_value (ring_ports h keys meta g).
Proof using Hh.
  intros Hm. revert g. induction keys as [|k keys IH]; intros g Hg; [done|].
  apply IH. by apply group_fold_losing_wf.
Qed.

Lemma write_ports_wf updates meta g :
  wf_attestation meta -> Forall update_wf updates -> wf_group limits wf_port_ref slot_key wf_port_value g ->
  wf_group limits wf_port_ref slot_key wf_port_value (write_ports h updates meta g).
Proof using Hh.
  intros Hm Hu. revert g. induction Hu as [|u updates (? & ? & ? & ?) _ IH]; intros g Hg; [done|].
  apply IH. by apply group_fold_wf.
Qed.

Lemma apply_tables_wf change s :
  wf_attestation (sc_meta change) -> change_wf limits change -> wf_state limits s ->
  wf_state limits (apply_tables h change s).
Proof using Hh.
  intros Hm [] (Hid & Hop & Hsrc & Hse & H1 & H2 & H3 & H4 & H5 & H6 & H7 & H8).
  unfold wf_state, apply_tables, apply_ring_only.
  split_and!; try apply Hsrc; try apply Hse; try done; try (by apply stage_apply_wf).
  by apply write_ports_wf, ring_ports_wf.
Qed.
End apply.

Lemma attestation_wf limits e authority now live :
  wf_evidence limits e -> wf_authority authority -> is_i64 now -> wf_attestation (attestation_of e authority now live).
Proof.
  intros [(? & ? & ? & ? & ? & ? & ? & ? & ? & ?) Hp] Ha Hn. unfold wf_attestation, wf_owner.
  split_and!; try done. unfold attestation_of, object_incarnation_of_evidence. cbn.
  destruct (ev_payload e); cbn in Hp |- *; try done; by destruct_and! Hp.
Qed.

(** ** Sessions *)

Lemma wrap64_range z : is_u64 (wrap64 z).
Proof. unfold is_u64, wrap64. apply Z.mod_pos_bound. lia. Qed.

Lemma count_session_wf generation d s :
  is_u64 generation -> wf_session_record s -> wf_session_record (count_session generation d s).
Proof.
  intros Hg (? & ? & ? & ? & ? & ?). unfold wf_session_record, count_session. cbn.
  split_and!; try done; case_match; try done; apply wrap64_range.
Qed.

Lemma default_session_wf : wf_session_record default_session_record.
Proof. by unfold wf_session_record. Qed.

Lemma set_live_wf live closed s : wf_session_record s -> wf_session_record (set_live live closed s).
Proof. done. Qed.

Lemma stamp_session_wf t s : is_i64 t -> wf_session_record s -> wf_session_record (stamp_session t s).
Proof. intros Ht Hs. unfold stamp_session. case_match; [|done]. by destruct Hs as (? & ? & ? & ? & ? & ?). Qed.

Lemma default_find {K V} `{Ord K} (P : K * V -> Prop) k d (m : ordmap K V) :
  Forall P m -> P (k, d) -> P (k, default d (map_find k m)).
Proof. intros Hm Hd. destruct (map_find k m) eqn:E; cbn; [by eapply forall_find|done]. Qed.

Lemma set_sessions_wf limits s key session :
  wf_state limits s -> wf_owner key -> wf_session_record session ->
  wf_state limits (set_sessions (map_set key session (rs_sessions s)) s).
Proof.
  intros (Hid & Hop & Hsrc & [Hs Hall] & Htab) Hk Hses. split_and!; try done; try apply Hsrc; try apply Htab.
  - by apply map_sorted_set.
  - by apply map_set_forall.
Qed.

Lemma set_sources_wf limits s id source :
  wf_state limits s -> id_ok id -> wf_source_record limits source ->
  wf_state limits (set_sources (map_set id source (rs_sources s)) s).
Proof.
  intros (Hid & Hop & [Hs Hall] & Hses & Htab) Hk Hsrc. split_and!; try done; try apply Hses; try apply Htab.
  - by apply map_sorted_set.
  - by apply map_set_forall.
Qed.

Lemma open_source_wf limits descriptor incarnation source :
  wf_source_descriptor limits descriptor -> is_u64 incarnation ->
  wf_source_record limits source \/ source = default_source_record ->
  wf_source_record limits (open_source descriptor incarnation source).
Proof.
  intros Hd Hi [(? & ? & ?)| ->]; unfold wf_source_record, open_source; cbn [sr_descriptor sr_descriptor_incarnation
    sr_current_incarnation]; split_and!; repeat case_match; try done.
Qed.

Lemma apply_session_open_wf limits descriptor incarnation opened_at s :
  wf_source_descriptor limits descriptor -> is_u64 incarnation -> incarnation <> 0 -> is_i64 opened_at ->
  wf_state limits s -> wf_state limits (apply_session_open descriptor incarnation opened_at s).
Proof.
  intros Hd Hi Hn Ht Hs. unfold apply_session_open.
  apply (set_sessions_wf _ (set_sources (map_set (src_id descriptor) (open_source descriptor incarnation
    (default default_source_record (map_find (src_id descriptor) (rs_sources s)))) (rs_sources s)) s)).
  - apply set_sources_wf; [done|apply Hd|]. apply open_source_wf; [done|done|].
    destruct (map_find _ _) as [src|] eqn:E; [left|by right].
    destruct Hs as (_ & _ & [_ Hall] & _). by apply (forall_find _ _ _ _ Hall) in E as [_ ?].
  - split_and!; try done; apply Hd.
  - apply stamp_session_wf; [done|]. destruct (map_find _ _) as [r|] eqn:E; [|apply default_session_wf].
    destruct Hs as (_ & _ & _ & [_ Hall] & _). by apply (forall_find _ _ _ _ Hall) in E as [_ ?].
Qed.

(** Opening a session is the replayed change followed by marking it live. *)
Lemma open_session_state_eq descriptor incarnation opened_at s :
  let s1 := apply_session_open descriptor incarnation opened_at s in
  let key := mkKey (src_id descriptor) incarnation in
  open_session_state descriptor incarnation opened_at s =
  set_sessions (map_set key (set_live true false (default default_session_record (map_find key (rs_sessions s1))))
                  (rs_sessions s1)) s1.
Proof.
  cbn -[map_set map_find open_source]. unfold open_session_state, set_sessions, set_sources.
  cbn -[map_set map_find open_source]. f_equal. rewrite find_set_eq. cbn [from_option id].
  rewrite map_set_set. f_equal. destruct (open_source _ _ _) as [d i c b] eqn:E. cbn. f_equal.
  apply (f_equal sr_current_incarnation) in E. rewrite open_source_current in E. cbn in E. lia.
Qed.

Lemma open_session_state_wf limits descriptor incarnation opened_at s :
  wf_source_descriptor limits descriptor -> is_u64 incarnation -> incarnation <> 0 -> is_i64 opened_at ->
  wf_state limits s -> wf_state limits (open_session_state descriptor incarnation opened_at s).
Proof.
  intros Hd Hi Hn Ht Hs. rewrite open_session_state_eq.
  pose proof (apply_session_open_wf limits descriptor incarnation opened_at s Hd Hi Hn Ht Hs) as Hs1.
  apply set_sessions_wf; [done|split_and!; try done; apply Hd|]. apply set_live_wf.
  destruct (map_find _ _) as [r|] eqn:E; [|apply default_session_wf].
  destruct Hs1 as (_ & _ & _ & [_ Hall] & _). by apply (forall_find _ _ _ _ Hall) in E as [_ ?].
Qed.

(** ** The registry object *)

Record impl_wf {S} (impl : Impl S) : Prop := {
  iw_limits : limits_u32 (im_limits impl);
  iw_history : 0 <= im_history_per_key impl <= max_history_per_key (im_limits impl);
  iw_state : wf_state (im_limits impl) (im_state impl);
}.

Section impl.
Context {S : Type} `{AppendLog S}.
Implicit Types impl : Impl S.

Lemma impl_wf_state impl impl' :
  im_limits impl' = im_limits impl -> im_history_per_key impl' = im_history_per_key impl ->
  wf_state (im_limits impl) (im_state impl') -> impl_wf impl -> impl_wf impl'.
Proof. intros E1 E2 Hs []. split; [by rewrite E1|by rewrite E1, E2|by rewrite E1]. Qed.

Lemma state_find_source limits s id source :
  wf_state limits s -> map_find id (rs_sources s) = Some source -> wf_source_record limits source.
Proof. intros (_ & _ & [_ Hall] & _) E. by apply (forall_find _ _ _ _ Hall) in E as [_ ?]. Qed.

Lemma state_find_session limits s key session :
  wf_state limits s -> map_find key (rs_sessions s) = Some session -> wf_owner key /\ wf_session_record session.
Proof. intros (_ & _ & _ & [_ Hall] & _) E. by apply (forall_find _ _ _ _ Hall) in E. Qed.

Lemma commit_wf e now persist meta impl d t impl1 :
  commit_case e now persist meta impl d t impl1 -> impl_wf impl -> wf_evidence (im_limits impl) e ->
  wf_attestation meta ->
  wf_state (im_limits impl) (im_state impl1) /\ im_limits impl1 = im_limits impl /\
  im_history_per_key impl1 = im_history_per_key impl.
Proof.
  intros Hcase [Hl Hh Hs] [_ He] Hm.
  destruct Hcase as [dec cache Hd Ha|dec cache text impl' Hd Hp Hlog Hst Hc Hlim Hhis|dec cache store Hd Ha Hacc Hsto Hlog].
  - done.
  - by rewrite Hst.
  - split; [|done].
    pose proof (decide_change_wf (im_limits impl) (im_state impl) meta (im_labels impl) e He (proj1 Hm)) as Hw.
    pose proof (decide_meta (im_limits impl) (im_state impl) meta (im_labels impl) e) as Hme.
    rewrite Hd in Hw, Hme. cbn in Hme. apply apply_tables_wf; [done|by rewrite Hme|done|done].
Qed.

Lemma ingest_wf e now persist live impl :
  impl_wf impl -> typed_evidence e -> is_i64 now -> impl_wf (ingest_locked e now persist live impl).2.
Proof.
  intros Hwf Ht Hn. destruct (ingest_locked e now persist live impl) as [r impl'] eqn:E.
  apply ingest_cases in E as [r' refusals Hr|source session d t impl1 refusals hdr key Hc Hv Hsrc Hdes Hses Hcase].
  - by eapply impl_wf_state; [..|exact Hwf]; [| |apply Hwf].
  - pose proof (validated_wf _ _ Hv Ht) as He.
    destruct (state_find_source _ _ _ _ (iw_state _ Hwf) Hsrc) as (Hsd & _ & _).
    destruct (commit_wf _ _ _ _ _ _ _ _ Hcase Hwf He) as (Hs1 & El & Eh).
    { apply (attestation_wf (im_limits impl)); [done|apply Hsd|done]. }
    destruct (state_find_session _ _ _ _ (iw_state _ Hwf) Hses) as [Hko Hsess].
    apply (impl_wf_state impl); [done|done| |done].
    apply set_sessions_wf; [done|done|]. apply count_session_wf; [apply He|done].
Qed.

Lemma ingest_all_wf now evidence impl :
  impl_wf impl -> (forall i, is_i64 (now i)) -> Forall typed_evidence evidence ->
  impl_wf (ingest_all now evidence impl).2.
Proof.
  intros Hwf Hn Ht. revert now impl Hwf Hn. induction Ht as [|e rest He _ IH]; intros now impl Hwf Hn; [done|]. cbn.
  pose proof (ingest_wf e (now 0%nat) true true impl Hwf He (Hn _)) as H1.
  destruct (ingest_locked _ _ _ _ _) as [r impl1]. cbn in H1.
  specialize (IH (fun i => now (Datatypes.S i)) impl1 H1 (fun i => Hn _)). by destruct (ingest_all _ rest impl1).
Qed.

Lemma open_refusal_wf descriptor incarnation impl :
  open_session_refusal descriptor incarnation impl = None -> typed_descriptor descriptor ->
  wf_source_descriptor (im_limits impl) descriptor /\ incarnation <> 0.
Proof.
  unfold open_session_refusal. case_match; [done|].
  destruct (is_nil (src_id descriptor) || (incarnation =? 0)) eqn:E1; [done|].
  destruct (negb (fits (src_name descriptor) _) || _) eqn:E2; [done|]. intros _ [Hid Ha].
  apply orb_false_iff in E1 as [Hnil Hinc]. apply orb_false_iff in E2 as [Hn Hd].
  apply negb_false_iff, fits_true in Hn, Hd. apply Z.eqb_neq in Hinc. by split_and!.
Qed.

Lemma open_session_wf descriptor incarnation t1 t2 impl :
  impl_wf impl -> typed_descriptor descriptor -> is_u64 incarnation -> is_i64 t2 ->
  impl_wf (open_session descriptor incarnation t1 t2 impl).2.
Proof.
  intros Hwf Htd Hi Ht. unfold open_session.
  destruct (open_session_refusal _ _ _) as [[[? ?] ?]|] eqn:Er; [done|].
  apply open_refusal_wf in Er as [Hd Hn]; [|done].
  destruct (log_session_open _ _ _ _) as [r impl1] eqn:El.
  apply log_session_open_same in El as [store ->].
  destruct r as [[? ?]|]; [by eapply impl_wf_state; [..|exact Hwf]; [| |apply Hwf]|].
  destruct (if negb _ || _ then _ else _) as [disp detail]. cbn [snd].
  apply (impl_wf_state impl); [done|done| |done]. apply open_session_state_wf; try done. apply Hwf.
Qed.

Lemma close_session_wf key impl : impl_wf impl -> impl_wf (close_session key impl).2.
Proof.
  intros Hwf. unfold close_session. case_match; [done|].
  destruct (map_find key _) as [session|] eqn:Es; [|done].
  destruct (state_find_session _ _ _ _ (iw_state _ Hwf) Es) as [Hk Hse].
  assert (wf_state (im_limits impl) (set_sessions (map_set key (set_live false true session)
            (rs_sessions (im_state impl))) (im_state impl))).
  { apply set_sessions_wf; [apply Hwf|done|done]. }
  destruct (im_store impl) as [store|]; [|by apply (impl_wf_state impl)].
  destruct (log_append _ _ store) as [store' [|]]; apply (impl_wf_state impl); try done. apply Hwf.
Qed.

Lemma step_wf impl impl' : step impl impl' -> impl_wf impl -> impl_wf impl'.
Proof.
  intros Hstep Hwf. destruct Hstep as [? [now e Hn He|now es Hn Hes|d i t1 t2 Hd Hi Ht1 Ht2|key Hid Hin|]|].
  - by apply ingest_wf.
  - apply ingest_all_wf; [done|done|]. by apply Forall_take.
  - by apply open_session_wf.
  - by apply close_session_wf.
  - unfold close_registry. case_match; [done|].
    destruct (im_store _); apply (impl_wf_state impl); try done; apply Hwf.
  - destruct (compact_same impl) as (store & -> & _). apply (impl_wf_state impl); try done. apply Hwf.
Qed.

Lemma reachable_wf impl impl' : reachable impl impl' -> impl_wf impl -> impl_wf impl'.
Proof. induction 1; eauto using step_wf. Qed.
End impl.
