(* ===== verification/Replica.v ===== *)
(** * States that hold the same evidence

    Two registry states are replicas when they agree on everything but the
    facts that belong to one process: whether a claim was asserted in this
    lifetime, the session counters, and the open time.  A looser relation also
    forgets when each record was received.  Replay after a restart
    produces a replica of the state that wrote the log, not the state itself.
    This file shows that admission depends on a state only up to replication
    and that applying a change preserves it; the relation is an equivalence,
    used for rewriting. *)
From S2P Require Import Prelude OrdMap Types Ids Graph Codec Serialization State Fold Derive Log Admit Ingest.
#[local] Open Scope Z_scope.

(** ** What a replica forgets *)

(** Whether two replicas agree on when each record was received. *)
Class Forgets := keeps_received : bool.

Definition erase_attestation `{Forgets} (a : Attestation) : Attestation :=
  mkAttestation (att_owner a) (att_generation a) (att_evidence a) (att_observed_at a)
    (if keeps_received then att_received_at a else 0) (att_provenance a) (att_authority a) (att_object_incarnation a) false.

Definition erase_folded `{Forgets} {T} (f : Folded T) : Folded T :=
  mkFolded (erase_attestation (fd_meta f)) (fd_value f) (erase_attestation <$> fd_superseded f) (fd_history_dropped f).

Definition erase_group `{Forgets} {K O T} (g : groups K O T) : groups K O T := map_vals (map_vals erase_folded) g.

(** The part of a state that evidence determines. *)
Definition essence `{Forgets} (state : RegistryState) : RegistryState :=
  mkState nil_id 0 (rs_sources state) (map_vals (fun _ => default_session_record) (rs_sessions state))
    (erase_group (rs_object_registrations state))
    (erase_group (rs_endpoint_registrations state))
    (erase_group (rs_subject_records state))
    (erase_group (rs_port_records state))
    (erase_group (rs_lifecycle_records state))
    (erase_group (rs_reincarnation_records state))
    (erase_group (rs_object_capability_records state))
    (erase_group (rs_port_capability_records state)).

Definition replica `{Forgets} (s1 s2 : RegistryState) : Prop := essence s1 = essence s2.

Infix "≈" := replica (at level 70).

#[export] Instance replica_equiv `{Forgets} : Equivalence replica.
Proof. split; unfold replica; [done|by intros ? ?|by intros ? ? ? -> ->]. Qed.

Section forgetting.
Context {F : Forgets}.

Lemma erase_clear {K O T} (g : groups K O T) : erase_group (clear_group g) = erase_group g.
Proof.
  unfold erase_group, clear_group. rewrite map_vals_compose. apply list_fmap_ext.
  intros i [k m] _. cbn [fst snd]. f_equal. rewrite map_vals_compose. apply list_fmap_ext.
  intros j [o f] _. cbn [fst snd]. f_equal. unfold erase_folded. cbn. f_equal. by rewrite <- list_fmap_compose.
Qed.

Lemma erase_attestation_idem a : erase_attestation (erase_attestation a) = erase_attestation a.
Proof. unfold erase_attestation. cbn. by destruct keeps_received. Qed.

Lemma erase_folded_idem {T} (f : Folded T) : erase_folded (erase_folded f) = erase_folded f.
Proof.
  unfold erase_folded. cbn. rewrite erase_attestation_idem. f_equal. rewrite <- list_fmap_compose. apply list_fmap_ext.
  intros. apply erase_attestation_idem.
Qed.

Lemma erase_group_idem {K O T} (g : groups K O T) : erase_group (erase_group g) = erase_group g.
Proof.
  unfold erase_group. rewrite map_vals_compose. apply list_fmap_ext.
  intros i [k m] _. cbn [fst snd]. f_equal. rewrite map_vals_compose. apply list_fmap_ext.
  intros j [o f] _. cbn [fst snd]. f_equal. apply erase_folded_idem.
Qed.

Lemma essence_idem state : essence (essence state) = essence state.
Proof.
  unfold essence. cbn -[erase_group map_vals]. rewrite !erase_group_idem. f_equal.
  by rewrite map_vals_compose.
Qed.

Lemma essence_replica state : essence state ≈ state.
Proof. apply essence_idem. Qed.

Lemma clear_volatile_replica state : clear_volatile state ≈ state.
Proof.
  unfold replica, essence. cbn -[erase_group clear_group map_vals]. rewrite !erase_clear. f_equal.
  by rewrite map_vals_compose.
Qed.

(** ** Folding and clearing commute *)

Lemma trim_fmap h l d :
  trim h (erase_attestation <$> l) d = (erase_attestation <$> (trim h l d).1, (trim h l d).2).
Proof.
  revert d. induction l as [|x l IH]; intros d; [done|].
  rewrite fmap_cons. cbn [trim]. rewrite <- fmap_cons. unfold zlen. rewrite length_fmap.
  destruct (h <? _); [|done]. apply IH.
Qed.

Lemma has_evidence_clear e l : has_evidence e (erase_attestation <$> l) = has_evidence e l.
Proof. unfold has_evidence. induction l as [|x l IH]; [done|]. cbn. by rewrite <- IH. Qed.

Lemma sort_clear l : std_sort att_lt (erase_attestation <$> l) = erase_attestation <$> std_sort att_lt l.
Proof. by apply std_sort_fmap. Qed.

Section clear_fold.
Context {T : Type} (h : Z).

Lemma fold_winning_clear meta (value : T) folded :
  erase_folded (fold_winning h meta value folded) =
  fold_winning h (erase_attestation meta) value (erase_folded folded).
Proof.
  unfold fold_winning.
  change (fd_superseded (erase_folded folded)) with (erase_attestation <$> fd_superseded folded).
  change (fd_meta (erase_folded folded)) with (erase_attestation (fd_meta folded)).
  change (att_evidence (erase_attestation (fd_meta folded))) with (att_evidence (fd_meta folded)).
  rewrite has_evidence_clear.
  assert (Hring : (if has_evidence (att_evidence (fd_meta folded)) (fd_superseded folded)
    then erase_attestation <$> fd_superseded folded
    else (erase_attestation <$> fd_superseded folded) ++ [erase_attestation (fd_meta folded)]) =
    erase_attestation <$> (if has_evidence (att_evidence (fd_meta folded)) (fd_superseded folded)
      then fd_superseded folded else fd_superseded folded ++ [fd_meta folded])).
  { destruct (has_evidence _ _); [done|]. by rewrite fmap_app. }
  rewrite Hring, sort_clear, trim_fmap. by destruct (trim _ _ _).
Qed.

Lemma fold_losing_clear meta (folded : Folded T) :
  erase_folded (fold_losing_slot h meta folded) =
  fold_losing_slot h (erase_attestation meta) (erase_folded folded).
Proof.
  unfold fold_losing_slot.
  change (fd_superseded (erase_folded folded)) with (erase_attestation <$> fd_superseded folded).
  change (att_evidence (fd_meta (erase_folded folded))) with (att_evidence (fd_meta folded)).
  change (att_evidence (erase_attestation meta)) with (att_evidence meta).
  rewrite has_evidence_clear.
  destruct (keqb _ _); [done|]. destruct (has_evidence _ _); [done|].
  change [erase_attestation meta] with (erase_attestation <$> [meta]). rewrite <- fmap_app.
  rewrite sort_clear, trim_fmap. by destruct (trim _ _ _).
Qed.

Context {K O : Type} `{Ord K, Ord O}.

Lemma group_fold_clear (primary : K) (key : O) meta value (g : groups K O T) :
  erase_group (group_fold h primary key meta value g) =
  group_fold h primary key (erase_attestation meta) value (erase_group g).
Proof.
  unfold group_fold, erase_group. rewrite map_vals_set, find_map_vals. f_equal.
  destruct (map_find primary g) as [slots|]; cbn [from_option id fmap option_fmap option_map].
  - unfold fold. rewrite find_map_vals. destruct (map_find key slots); cbn [fmap option_fmap option_map];
      rewrite map_vals_set; f_equal. apply fold_winning_clear.
  - done.
Qed.

Lemma group_fold_losing_clear (primary : K) (key : O) meta (g : groups K O T) :
  erase_group (group_fold_losing h primary key meta g) =
  group_fold_losing h primary key (erase_attestation meta) (erase_group g).
Proof.
  unfold group_fold_losing, erase_group. rewrite find_map_vals.
  destruct (map_find primary g) as [slots|]; cbn [fmap option_fmap option_map]; [|done].
  rewrite map_vals_set. f_equal. unfold fold_losing. rewrite find_map_vals.
  destruct (map_find key slots); cbn [fmap option_fmap option_map]; [|done].
  rewrite map_vals_set. f_equal. apply fold_losing_clear.
Qed.
End clear_fold.

(** ** Applying a change *)

Definition clear_change (change : StagedChange) : StagedChange :=
  mkStagedChange (erase_attestation (sc_meta change)) (sc_object_registration change)
    (sc_endpoint_registration change) (sc_subject change) (sc_port_updates change)
    (sc_ring_port_keys change) (sc_lifecycle change) (sc_reincarnation change)
    (sc_object_capability change) (sc_port_capability change) (sc_apply change).

Section apply_clear.
Context (h : Z) (meta : Attestation).

Lemma ring_stage_clear {K V} `{Ord K} (stage : Stage K V) g :
  erase_group (ring_stage h stage meta g) = ring_stage h stage (erase_attestation meta) (erase_group g).
Proof. destruct stage; [done|done|]. apply group_fold_losing_clear. Qed.

Lemma write_stage_clear {K V} `{Ord K} (stage : Stage K V) g :
  erase_group (write_stage h stage meta g) = write_stage h stage (erase_attestation meta) (erase_group g).
Proof. destruct stage; [done| |done]. apply group_fold_clear. Qed.

Lemma ring_ports_clear keys g :
  erase_group (ring_ports h keys meta g) = ring_ports h keys (erase_attestation meta) (erase_group g).
Proof.
  revert g. induction keys as [|k keys IH]; intros g; [done|].
  unfold ring_ports in *. cbn [foldl]. by rewrite IH, group_fold_losing_clear.
Qed.

Lemma write_ports_clear updates g :
  erase_group (write_ports h updates meta g) = write_ports h updates (erase_attestation meta) (erase_group g).
Proof.
  revert g. induction updates as [|u updates IH]; intros g; [done|].
  unfold write_ports in *. cbn [foldl]. by rewrite IH, group_fold_clear.
Qed.
End apply_clear.

Lemma apply_tables_essence h change state :
  essence (apply_tables h change state) = essence (apply_tables h (clear_change change) (essence state)).
Proof.
  unfold essence, apply_tables, apply_ring_only. cbn -[erase_group map_vals ring_stage write_stage ring_ports write_ports].
  rewrite !write_stage_clear, !write_ports_clear, !ring_stage_clear, !ring_ports_clear, !erase_group_idem, !erase_attestation_idem.
  f_equal. by rewrite map_vals_compose.
Qed.

Lemma apply_tables_replica h c1 c2 s1 s2 :
  clear_change c1 = clear_change c2 -> s1 ≈ s2 -> apply_tables h c1 s1 ≈ apply_tables h c2 s2.
Proof.
  intros Hc Hs. unfold replica in *. by rewrite (apply_tables_essence h c1), (apply_tables_essence h c2), Hc, Hs.
Qed.

(** ** Decisions *)

Definition clear_decision (d : Ruling) : Ruling :=
  mkRuling (dc_disposition d) (dc_detail d) (clear_change (dc_change d)).

Lemma foldl_map_vals {K V W A} (f : A -> K * W -> A) (g : V -> W) (m : ordmap K V) a :
  foldl f a (map_vals g m) = foldl (fun a e => f a (e.1, g e.2)) a m.
Proof. revert a. induction m as [|e m IH]; intros a; cbn; [done|]. apply IH. Qed.

Lemma filter_map_vals {K V W} (g : V -> W) (p : K * W -> bool) (m : ordmap K V) :
  filter (fun e => p e = true) (map_vals g m) =
  map_vals g (filter (fun e => p (e.1, g e.2) = true) m).
Proof.
  induction m as [|e m IH]; [done|]. cbn [map_vals fmap list_fmap].
  change (map_vals g (e :: m)) with ((e.1, g e.2) :: map_vals g m). rewrite !filter_cons.
  destruct (decide (p (e.1, g e.2) = true)); [|exact IH]. cbn. f_equal. exact IH.
Qed.

Lemma existsb_map_vals {K V W} (g : V -> W) (p : K * W -> bool) (m : ordmap K V) :
  existsb p (map_vals g m) = existsb (fun e => p (e.1, g e.2)) m.
Proof. induction m as [|e m IH]; cbn; [done|]. by rewrite <- IH. Qed.

Lemma existing_outcome_clear {K O V} `{Ord K, Ord O} (same : V -> V -> bool) (g : groups K O V) k o meta v :
  existing_outcome same (erase_group g) k o (erase_attestation meta) v = existing_outcome same g k o meta v.
Proof.
  unfold existing_outcome, erase_group. rewrite find_map_vals.
  destruct (map_find k g) as [m|]; cbn [fmap option_fmap option_map]; [|done].
  rewrite find_map_vals. by destruct (map_find o m).
Qed.

Lemma erase_group_find_some {K O V} `{Ord K} (g : groups K O V) k :
  is_Some (map_find k (erase_group g)) <-> is_Some (map_find k g).
Proof. unfold erase_group. rewrite find_map_vals. by rewrite fmap_is_Some. Qed.

Lemma erase_group_zlen {K O V} (g : groups K O V) : zlen (erase_group g) = zlen g.
Proof. unfold zlen, erase_group. by rewrite map_vals_length. Qed.

Section essence_reads.
Context (state : RegistryState).

Lemma essence_incarnation object : object_incarnation_of (essence state) object = object_incarnation_of state object.
Proof.
  rewrite !object_incarnation_of_max. cbn. unfold erase_group. rewrite find_map_vals.
  destruct (map_find _ _) as [found|]; cbn; [|done].
  unfold running_max. generalize 1. induction found as [|e l IH]; intros z; cbn; [done|].
  apply IH.
Qed.

Lemma essence_object_exists object : object_exists (essence state) object = object_exists state object.
Proof.
  unfold object_exists. cbn. unfold erase_group. rewrite find_map_vals.
  destruct (map_find _ _) as [found|]; cbn; [|done]. unfold zlen. by rewrite map_vals_length.
Qed.

Lemma essence_port_count endpoint : endpoint_port_count (essence state) endpoint = endpoint_port_count state endpoint.
Proof.
  unfold endpoint_port_count. cbn. unfold erase_group. rewrite find_map_vals.
  destruct (map_find _ _) as [found|]; cbn; [|done].
  generalize 0. induction found as [|e l IH]; intros z; cbn; [done|]. apply IH.
Qed.

Lemma essence_port_exists port : port_exists (essence state) port = port_exists state port.
Proof. unfold port_exists. by rewrite essence_port_count. Qed.

Definition clear_candidate (c : Candidate) : Candidate :=
  mkCandidate (ca_action c) (ca_authority c) (ca_from_reincarnation c) (erase_attestation (ca_meta c)).

Lemma essence_candidates object :
  lifecycle_candidates (essence state) object = clear_candidate <$> lifecycle_candidates state object.
Proof.
  unfold lifecycle_candidates. rewrite essence_incarnation, fmap_app.
  cbn -[filter session_is_fenced]. unfold erase_group. rewrite !find_map_vals. f_equal.
  - destruct (map_find object (rs_lifecycle_records state)) as [m|]; cbn -[filter session_is_fenced]; [|done].
    rewrite (filter_map_vals erase_folded (fun e => negb (session_is_fenced (essence state) e.1)
      && (lv_incarnation (fd_value e.2) =? object_incarnation_of state object))).
    unfold map_vals. rewrite <- !list_fmap_compose. done.
  - destruct (map_find object (rs_reincarnation_records state)) as [m|]; cbn -[filter session_is_fenced]; [|done].
    rewrite (filter_map_vals erase_folded (fun e => negb (session_is_fenced (essence state) e.1)
      && (ri_target (fd_value e.2) =? object_incarnation_of state object))).
    unfold map_vals. rewrite <- !list_fmap_compose. done.
Qed.

Lemma best_authority_clear (l : list Candidate) : best_authority (clear_candidate <$> l) = best_authority l.
Proof.
  unfold best_authority. destruct l as [|c l]; [done|]. cbn [fmap list_fmap clear_candidate ca_authority foldl].
  generalize (raise_authority (ca_authority c) (ca_authority c)).
  induction l as [|x l IH]; intros a; [done|]. cbn. apply IH.
Qed.

Lemma filter_candidates best (l : list Candidate) :
  filter (fun c => keqb (ca_authority c) best = true) (clear_candidate <$> l) =
  clear_candidate <$> filter (fun c => keqb (ca_authority c) best = true) l.
Proof.
  induction l as [|c l IH]; [done|]. rewrite fmap_cons, !filter_cons. cbn [clear_candidate ca_authority].
  destruct (decide (keqb (ca_authority c) best = true)); [|exact IH]. rewrite fmap_cons. by f_equal.
Qed.

Lemma existsb_clear (f : Candidate -> bool) (l : list Candidate) :
  (forall c, f (clear_candidate c) = f c) -> existsb f (clear_candidate <$> l) = existsb f l.
Proof. intros Hf. induction l as [|c l IH]; [done|]. cbn. rewrite Hf. f_equal. exact IH. Qed.

Lemma ruling_clear (l : list Candidate) : lifecycle_ruling (clear_candidate <$> l) = lifecycle_ruling l.
Proof. unfold lifecycle_ruling, saw. by rewrite !existsb_clear by done. Qed.

Lemma essence_lifecycle object :
  lifecycle_action_of (essence state) object =
  ((lifecycle_action_of state object).1, erase_attestation <$> (lifecycle_action_of state object).2).
Proof.
  unfold lifecycle_action_of. rewrite essence_candidates.
  destruct (lifecycle_candidates state object) as [|c l]; [done|].
  change (clear_candidate <$> (c :: l)) with (clear_candidate c :: (clear_candidate <$> l)) at 1.
  cbv beta iota. change (clear_candidate c :: (clear_candidate <$> l)) with (clear_candidate <$> (c :: l)).
  rewrite best_authority_clear, filter_candidates, ruling_clear. cbn [fst snd].
  rewrite <- !list_fmap_compose. done.
Qed.

Lemma essence_holds_label label object : holds_label (essence state) label object = holds_label state label object.
Proof.
  unfold holds_label. cbn. unfold erase_group. rewrite find_map_vals.
  destruct (map_find object (rs_object_registrations state)); cbn [fmap option_fmap option_map]; [|done].
  by rewrite existsb_map_vals.
Qed.

Lemma essence_blocks_label object label holder :
  blocks_label (essence state) object label holder = blocks_label state object label holder.
Proof.
  unfold blocks_label. rewrite essence_holds_label, essence_lifecycle.
  by destruct (lifecycle_action_of state holder) as [[] ?].
Qed.

Lemma essence_rebuild : rebuild_label_index (essence state) = rebuild_label_index state.
Proof.
  unfold rebuild_label_index. f_equal. cbn [essence rs_object_registrations]. unfold erase_group.
  rewrite foldl_map_vals. generalize (@nil (string * ordmap ObjectId unit)).
  induction (rs_object_registrations state) as [|e l IH]; intros index; [done|]. cbn [foldl fst snd].
  rewrite IH, foldl_map_vals. done.
Qed.

Lemma essence_labels_ok cache : labels_ok (essence state) cache <-> labels_ok state cache.
Proof. unfold labels_ok. by setoid_rewrite essence_holds_label. Qed.
End essence_reads.

Lemma resolve_clear outcome meta t1 t2 t3 ring insert :
  resolve outcome (erase_attestation meta) t1 t2 t3 (clear_change ring) (clear_decision insert) =
  clear_decision (resolve outcome meta t1 t2 t3 ring insert).
Proof. by destruct outcome. Qed.

Section decide_essence.
Context (limits : Limits) (state : RegistryState) (meta : Attestation).
#[local] Abbreviation meta' := (erase_attestation meta).
#[local] Abbreviation state' := (essence state).

Lemma finish_clear base f1 f2 : finish state' meta' base f1 f2 = finish state meta base f1 f2.
Proof. done. Qed.

Lemma is_Some_clear {K O V} `{Ord K} (g : groups K O V) k :
  bool_decide (is_Some (map_find k (erase_group g))) = bool_decide (is_Some (map_find k g)).
Proof. apply bool_decide_ext, erase_group_find_some. Qed.

Lemma register_object_clear cache d :
  decide_register_object limits state' meta' cache d =
  (clear_decision (decide_register_object limits state meta cache d).1,
   (decide_register_object limits state meta cache d).2).
Proof.
  unfold decide_register_object. cbn [essence rs_object_registrations]. fold (essence state).
  rewrite existing_outcome_clear. destruct (existing_outcome _ _ _ _ _ _); try done.
  assert (Hh : label_holders state' cache (od_label d) = label_holders state cache (od_label d)).
  { unfold label_holders. by rewrite essence_rebuild. }
  rewrite Hh, is_Some_clear, erase_group_zlen.
  destruct (if is_empty (od_label d) then _ else _) as [holders c].
  rewrite (find_ext _ (blocks_label state (od_id d) (od_label d)))
    by (intros; apply essence_blocks_label).
  destruct (List.find _ holders); [done|]. by case_match.
Qed.

Lemma capacity_clear port key :
  port_capacity_reached limits state' port key = port_capacity_reached limits state port key.
Proof.
  unfold port_capacity_reached. cbn. unfold erase_group. rewrite find_map_vals.
  destruct (map_find port (rs_port_records state)) as [m|]; cbn [fmap option_fmap option_map]; [|done].
  rewrite find_map_vals. destruct (map_find key m); cbn [fmap option_fmap option_map]; [done|].
  unfold zlen. by rewrite map_vals_length.
Qed.

Lemma port_plan_clear update : port_plan state' meta' update = port_plan state meta update.
Proof. unfold port_plan. cbn [essence rs_port_records]. by rewrite existing_outcome_clear. Qed.

Lemma attachment_clear subject value updates :
  decide_attachment limits state' meta' subject value updates =
  clear_decision (decide_attachment limits state meta subject value updates).
Proof.
  unfold decide_attachment.
  rewrite (existsb_ext _ (fun update => port_capacity_reached limits state (ps_port (pu_key update)) (pu_key update)))
    by (intros; apply capacity_clear).
  rewrite essence_incarnation, essence_object_exists.
  rewrite (existsb_ext (fun update => negb (port_exists state' _))
             (fun update => negb (port_exists state (ps_port (pu_key update)))))
    by (intros; by rewrite essence_port_exists).
  rewrite (list_fmap_ext (fun update => (update, port_plan state' meta' update))
             (fun update => (update, port_plan state meta update)) updates)
    by (intros; by rewrite port_plan_clear).
  cbn [essence rs_subject_records]. rewrite existing_outcome_clear.
  change (att_generation meta') with (att_generation meta).
  change (att_owner meta') with (att_owner meta).
  case_match; [done|]. case_match; [done|]. case_match; [done|]. by case_match.
Qed.

Lemma decide_clear cache e :
  decide_evidence limits state' meta' cache e =
  (clear_decision (decide_evidence limits state meta cache e).1, (decide_evidence limits state meta cache e).2).
Proof.
  unfold decide_evidence. destruct (ev_payload e) as [d|d|p|p|p|p|p|p|p]; cbn [fst snd].
  - apply register_object_clear.
  - f_equal. unfold decide_register_endpoint. rewrite <- resolve_clear.
    cbn [essence rs_endpoint_registrations]. rewrite existing_outcome_clear, is_Some_clear, erase_group_zlen.
    f_equal. by case_match.
  - f_equal. apply attachment_clear.
  - f_equal. apply attachment_clear.
  - f_equal. apply attachment_clear.
  - f_equal. unfold decide_publish_object. rewrite <- resolve_clear, essence_object_exists.
    cbn [essence rs_object_capability_records]. by rewrite existing_outcome_clear.
  - f_equal. unfold decide_publish_port. rewrite <- resolve_clear, essence_port_exists.
    cbn [essence rs_port_capability_records]. by rewrite existing_outcome_clear.
  - f_equal. unfold decide_set_lifecycle. rewrite <- resolve_clear, essence_object_exists, essence_incarnation.
    cbn [essence rs_lifecycle_records]. by rewrite existing_outcome_clear.
  - f_equal. unfold decide_reincarnate. rewrite <- resolve_clear, essence_object_exists, essence_incarnation.
    cbn [essence rs_reincarnation_records]. rewrite existing_outcome_clear. f_equal.
    case_match; [done|]. by case_match.
Qed.
End decide_essence.

(** Admission depends on the state only up to replication. *)
Lemma decide_replica limits s1 s2 m1 m2 c1 c2 e :
  s1 ≈ s2 -> erase_attestation m1 = erase_attestation m2 -> labels_ok s1 c1 -> labels_ok s2 c2 ->
  clear_decision (decide_evidence limits s1 m1 c1 e).1 = clear_decision (decide_evidence limits s2 m2 c2 e).1.
Proof.
  intros Hs Hm H1 H2. pose proof (decide_clear limits s1 m1 c1 e) as E1.
  pose proof (decide_clear limits s2 m2 c2 e) as E2.
  assert (Hok1 : labels_ok (essence s1) c1) by by apply essence_labels_ok.
  assert (Hok2 : labels_ok (essence s1) c2) by (rewrite Hs; by apply essence_labels_ok).
  rewrite Hs in E1, Hok1, Hok2. rewrite Hm in E1.
  apply (f_equal fst) in E1, E2. cbn [fst] in E1, E2. rewrite <- E1, <- E2.
  by apply decide_cache_irrelevant.
Qed.
End forgetting.

(** A restart keeps the times of the records. *)
#[export] Instance restart_forgets : Forgets := true.
