(* ===== verification/Canonical.v ===== *)
(** * Whatever is accepted is well formed and canonical

    The round trips say that what an encoder writes is read back.  Here is the
    other direction: whatever bytes a decoder accepts, wherever they came from,
    the value it returns satisfies the ranges and ceilings of its type, and the
    encoder writes exactly the accepted bytes for it.  A record has one encoding. *)
From S2P Require Import Prelude OrdMap Types Ids Graph Codec Digest Words Serialization State Log Protocol Admit Ingest Session Recovery Invariant.
#[local] Open Scope Z_scope.

(** [d], on bytes, consumes some of them and returns a value such that [Q]. *)
Definition reads {A} (d : Dec A) (Q : list Z -> A -> Prop) : Prop :=
  forall data offset a d',
    Forall is_u8 data -> d (mkDecoder data offset) = Some (a, d') ->
    exists bs, Q bs a /\ dec_data d' = data /\ dec_offset d' = (offset + length bs)%nat /\
      take (length bs) (drop offset data) = bs.

(** [d] accepts only what [f] writes, for values such that [P]. *)
Definition canonical {A} (d : Dec A) (f : A -> Enc) (P : A -> Prop) : Prop :=
  reads d (fun bs a => P a /\ writes (f a) (Some bs)).

(** ** One read after the other *)

Lemma reads_ret {A} (a : A) (Q : list Z -> A -> Prop) : Q [] a -> reads (mret a) Q.
Proof. intros HQ data offset b d' _ [= <- <-]. exists []. rewrite Nat.add_0_r. done. Qed.

Lemma reads_bind {A B} (d : Dec A) (k : A -> Dec B) (P : list Z -> A -> Prop) (Q : list Z -> B -> Prop) :
  reads d P -> (forall bs1 a, P bs1 a -> reads (k a) (fun bs2 b => Q (bs1 ++ bs2) b)) -> reads (d ≫= k) Q.
Proof.
  intros Hd Hk data offset b d' Hu. unfold mbind, Dec_bind.
  destruct (d (mkDecoder data offset)) as [[a [data1 offset1]]|] eqn:E; [|done]. intros E2.
  destruct (Hd _ _ _ _ Hu E) as (bs1 & HP & Ed & Eo & Et). cbn in Ed, Eo. subst data1 offset1.
  destruct (Hk bs1 a HP _ _ _ _ Hu E2) as (bs2 & HQ & Ed2 & Eo2 & Et2).
  exists (bs1 ++ bs2). split_and!; [done|done|rewrite length_app; lia|].
  rewrite length_app, <- take_take_drop, drop_drop, Et, Et2. done.
Qed.

Lemma reads_guard {A} c (k : unit -> Dec A) (Q : list Z -> A -> Prop) :
  (c = true -> reads (k tt) Q) -> reads (dec_guard c ≫= k) Q.
Proof. intros Hk data offset a d' Hu. unfold mbind, Dec_bind, dec_guard. destruct c; [|done]. by apply Hk. Qed.

Lemma reads_enum {E A} `{Enum E} raw (k : E -> Dec A) (Q : list Z -> A -> Prop) :
  (forall e, enum_code e = raw -> reads (k e) Q) -> reads (dec_enum raw ≫= k) Q.
Proof.
  intros Hk data offset a d' Hu. unfold mbind, Dec_bind, dec_enum, dec_opt.
  destruct (enum_cast raw) as [e|] eqn:E1; [|done]. apply enum_code_cast in E1. by apply (Hk e E1).
Qed.

Lemma reads_weaken {A} (d : Dec A) (P Q : list Z -> A -> Prop) :
  reads d P -> (forall bs a, P bs a -> Q bs a) -> reads d Q.
Proof. intros Hd HPQ data offset a d' Hu E. destruct (Hd _ _ _ _ Hu E) as (bs & HP & Hrest). exists bs. by eauto. Qed.

(** ** Integers, identities and strings *)

Lemma reads_take count : reads (dec_take count) (fun bs raw => raw = bs /\ length bs = Z.to_nat count /\ Forall is_u8 bs).
Proof.
  intros data offset raw d' Hu. unfold dec_take. cbn [dec_data dec_offset].
  destruct (Z.ltb_spec (zlen data - Z.of_nat offset) count) as [|Hge]; [done|]. intros [= <- <-].
  set (bs := take (Z.to_nat count) (drop offset data)).
  assert (Hlen : length bs = Z.to_nat count).
  { unfold bs. rewrite length_take, length_drop. unfold zlen in Hge. lia. }
  exists bs. split_and!; cbn; [done|done|by apply Forall_take, Forall_drop|done|by rewrite Hlen|by rewrite Hlen].
Qed.

(** What was loaded fits the bytes it was loaded from. *)
Lemma le_load_bound raw : Forall is_u8 raw -> 0 <= le_load raw < 2 ^ (zlen raw * 8).
Proof. intros Hu. rewrite le_load_word by done. rewrite Z.mul_comm. by apply le_word_bound. Qed.

Lemma reads_le n : reads (raw ← dec_take (Z.of_nat n); mret (le_load raw))
  (fun bs v => 0 <= v < 2 ^ (Z.of_nat n * 8) /\ bs = le_bytes n v).
Proof.
  eapply reads_bind; [apply reads_take|]. intros bs raw (-> & Hlen & Hu). rewrite Nat2Z.id in Hlen. apply reads_ret.
  rewrite app_nil_r. pose proof (le_bytes_load bs Hu) as Hb. pose proof (le_load_bound bs Hu) as Hr. unfold zlen in Hr. rewrite Hlen in Hb, Hr. done.
Qed.

(** What the encoder writes for the value that was read. *)
Lemma canonical_le n (f : Z -> Enc) (P : Z -> Prop) :
  (forall v, 0 <= v < 2 ^ (Z.of_nat n * 8) -> P v /\ writes (f v) (Some (le_bytes n v))) ->
  canonical (raw ← dec_take (Z.of_nat n); mret (le_load raw)) f P.
Proof. intros Hf. eapply reads_weaken; [apply reads_le|]. intros bs v [Hv ->]. by apply Hf. Qed.

Lemma canonical_u8 : canonical dec_u8 enc_u8 is_u8.
Proof.
  apply (canonical_le 1). intros v Hv. split; [done|]. replace (le_bytes 1 v) with [v]; [apply writes_u8|].
  cbn. rewrite Z.shiftr_0_r. change 255 with (Z.ones 8). rewrite Z.land_ones by lia. by rewrite Z.mod_small.
Qed.

Lemma canonical_u16 : canonical dec_u16 enc_u16 is_u16.
Proof. apply (canonical_le 2). intros v Hv. split; [done|apply writes_append]. Qed.

Lemma canonical_u32 : canonical dec_u32 enc_u32 is_u32.
Proof. apply (canonical_le 4). intros v Hv. split; [done|apply writes_append]. Qed.

Lemma canonical_u64 : canonical dec_u64 enc_u64 is_u64.
Proof. apply (canonical_le 8). intros v Hv. split; [done|apply writes_append]. Qed.

(** *** Automation: one field or check at a time *)

Create HintDb canonical.
#[export] Hint Resolve canonical_u8 canonical_u16 canonical_u32 canonical_u64 : canonical.

Lemma canonical_step {A B} (d : Dec A) (f : A -> Enc) (P : A -> Prop) (k : A -> Dec B) (Q : list Z -> B -> Prop) :
  canonical d f P ->
  (forall bs a, P a -> writes (f a) (Some bs) -> reads (k a) (fun bs2 b => Q (bs ++ bs2) b)) -> reads (d ≫= k) Q.
Proof. intros Hd Hk. eapply reads_bind; [exact Hd|]. intros bs a [HP Hw]. by apply Hk. Qed.

Lemma writes_then f g b1 b2 : writes f (Some b1) -> writes g (Some b2) -> writes (f ;> g) (Some (b1 ++ b2)).
Proof. intros H1 H2. exact (writes_seq _ _ _ _ H1 H2). Qed.

Lemma writes_end f b : writes f (Some b) -> writes f (Some (b ++ [])).
Proof. by rewrite app_nil_r. Qed.

(** The checks a decoder made, as facts. *)
Ltac canonical_facts :=
  repeat match goal with
  | H : negb _ = true |- _ => apply negb_true_iff in H
  | H : _ || _ = false |- _ => apply orb_false_iff in H as [? ?]
  | H : (_ <? _) = false |- _ => apply Z.ltb_ge in H
  | H : (_ =? _) = false |- _ => apply Z.eqb_neq in H
  | H : (_ =? _) = true |- _ => apply Z.eqb_eq in H
  end.

Ltac canonical_writes :=
  repeat first [ assumption | apply writes_end; assumption | eapply writes_then ].

Ltac canonical_step :=
  cbv beta;
  lazymatch goal with
  | |- reads (dec_guard _ ≫= _) _ => apply reads_guard; intros ?
  | |- reads (dec_enum _ ≫= _) _ => apply reads_enum; intros ? <-
  | |- reads (mret _) _ => apply reads_ret
  | |- reads (_ ≫= _) _ => eapply canonical_step; [solve [eauto with canonical]|]; intros ? ? ? ?
  end.

(** A decoder that reads the members of a record and checks them. *)
Ltac canonical_record :=
  unfold canonical; repeat canonical_step; canonical_facts; cbv beta in *; destruct_and?;
  split; [split_and?; done|canonical_writes].

Lemma canonical_boolean : canonical dec_boolean enc_boolean (fun _ => True).
Proof.
  unfold canonical, dec_boolean. canonical_step. canonical_step. canonical_step. split; [done|]. canonical_facts.
  match goal with H : is_u8 ?v, Hw : writes (enc_u8 ?v) _ |- _ =>
    assert (v = 0 \/ v = 1) as [->| ->] by (unfold is_u8 in H; lia); apply writes_end; exact Hw end.
Qed.

Lemma canonical_i64 : canonical dec_i64 enc_i64 is_i64.
Proof.
  unfold canonical, dec_i64. canonical_step. canonical_step.
  match goal with H : is_u64 ?v, Hw : writes (enc_u64 ?v) (Some ?bs) |- _ => rename v into w; rename H into Hu; rename Hw into Hwr end.
  unfold is_u64 in Hu. unfold enc_i64, i64_to_u64, u64_to_i64, is_i64. rewrite app_nil_r.
  destruct (Z.ltb_spec w (2 ^ 63)).
  - rewrite Z.mod_small by lia. split; [lia|done].
  - rewrite <- (Z.mod_add _ 1) by lia. rewrite Z.mod_small by lia. replace (w - 2 ^ 64 + 1 * 2 ^ 64) with w by lia. split; [lia|done].
Qed.

Lemma canonical_id128 : canonical dec_id128 enc_id128 id128_ok.
Proof. unfold dec_id128, enc_id128, id128_ok. canonical_record. Qed.

Lemma canonical_id tag : canonical (@dec_id tag) enc_id id_ok.
Proof.
  unfold canonical, dec_id. eapply canonical_step; [apply canonical_id128|]. intros bs a Ha Hw. apply reads_ret.
  split; [done|by apply writes_end].
Qed.

Lemma canonical_string m : is_u32 m -> canonical (dec_string m) (fun s => enc_string s m) (fun s => slen s <= m).
Proof.
  intros Hm. unfold canonical, dec_string. eapply canonical_step; [apply canonical_u32|]. intros bs len Hlen Hw.
  apply reads_guard. intros Hle. canonical_facts. eapply reads_bind; [apply reads_take|]. intros bs2 raw (-> & El & Hu).
  apply reads_ret. assert (Es : slen (bytes_string bs2) = len).
  { unfold slen. rewrite string_bytes_string by done. unfold zlen. unfold is_u32 in Hlen. lia. }
  rewrite Es. split; [done|]. intros e He. unfold is_u32 in *. rewrite enc_string_seq.
  2:{ apply orb_false_iff. rewrite !Z.ltb_ge. lia. }
  rewrite Es, string_bytes_string, app_nil_r by done. by apply (writes_then _ _ _ _ Hw (writes_append bs2)).
Qed.
#[export] Hint Resolve canonical_boolean canonical_i64 canonical_id128 canonical_id : canonical.

Lemma canonical_repeat {A} (d : Dec A) (f : A -> Enc) (P : A -> Prop) n :
  canonical d f P -> canonical (dec_repeat n d) (enc_each f) (fun l => length l = n /\ Forall P l).
Proof.
  intros Hd. induction n as [|n IH]; cbn [dec_repeat]; unfold canonical.
  - apply reads_ret. split; [done|apply writes_nop].
  - eapply canonical_step; [exact Hd|]. intros bs x Hx Hw. eapply canonical_step; [exact IH|].
    intros bs2 l [Hl Hall] Hw2. apply reads_ret. split; [split; [cbn; lia|by constructor]|].
    rewrite app_nil_r. by apply writes_then.
Qed.

Lemma canonical_vector {A} m (d : Dec A) (f : A -> Enc) (P : A -> Prop) :
  canonical d f P -> canonical (decode_vector m d) (enc_vector f) (fun l => zlen l <= m /\ Forall P l).
Proof.
  intros Hd. unfold canonical, decode_vector. eapply canonical_step; [apply canonical_u32|]. intros bs count Hc Hw.
  apply reads_guard. intros Hle. canonical_facts. eapply reads_weaken; [apply (canonical_repeat d f P _ Hd)|].
  intros bs2 l [[Hl Hall] Hw2]. assert (El : zlen l = count) by (unfold zlen; unfold is_u32 in Hc; lia).
  rewrite El. split; [done|]. unfold enc_vector. rewrite El, wrap32_small by done. by apply writes_then.
Qed.

(** ** The records of the wire *)

Lemma canonical_authority : canonical decode_authority encode_authority wf_authority.
Proof. unfold decode_authority, encode_authority, wf_authority. canonical_record. Qed.

Lemma canonical_side_descriptor : canonical decode_side_descriptor encode_side_descriptor wf_side_descriptor.
Proof. unfold decode_side_descriptor, encode_side_descriptor, wf_side_descriptor. canonical_record. Qed.

Lemma canonical_side_ref : canonical decode_object_side_ref encode_object_side_ref wf_side_ref.
Proof. unfold decode_object_side_ref, encode_object_side_ref, wf_side_ref. canonical_record. Qed.

Lemma canonical_port_ref : canonical decode_port_ref encode_port_ref wf_port_ref.
Proof. unfold decode_port_ref, encode_port_ref, wf_port_ref. canonical_record. Qed.

Lemma canonical_source_key :
  canonical decode_source_key encode_source_key (fun key => id_ok (key_source key) /\ is_u64 (key_incarnation key)).
Proof. unfold decode_source_key, encode_source_key. canonical_record. Qed.
#[export] Hint Resolve canonical_authority canonical_side_descriptor canonical_side_ref canonical_port_ref : canonical.

Section limited.
Context (limits : Limits) (Hlim : limits_ok limits).

Lemma canonical_text : canonical (dec_string (max_string_bytes limits)) (fun s => enc_string s (max_string_bytes limits)) (wf_string limits).
Proof using Hlim. apply canonical_string, Hlim. Qed.

Lemma canonical_code : canonical (dec_string (max_capability_code_bytes limits))
  (fun s => enc_string s (max_capability_code_bytes limits)) (fun s => slen s <= max_capability_code_bytes limits).
Proof using Hlim. apply canonical_string, Hlim. Qed.
#[local] Hint Resolve canonical_text canonical_code canonical_vector : canonical.

Lemma canonical_source_descriptor :
  canonical (decode_source_descriptor limits) (encode_source_descriptor limits) (wf_source_descriptor limits).
Proof using Hlim. unfold decode_source_descriptor, encode_source_descriptor, wf_source_descriptor. canonical_record. Qed.

Lemma canonical_capability : canonical (decode_capability limits) (encode_capability limits) (wf_capability limits).
Proof using Hlim. unfold decode_capability, encode_capability, wf_capability. canonical_record. Qed.

Lemma canonical_port_capability :
  canonical (decode_port_capability limits) encode_port_capability (wf_port_capability limits).
Proof using Hlim. unfold decode_port_capability, encode_port_capability, wf_port_capability. canonical_record. Qed.
#[local] Hint Resolve canonical_source_descriptor canonical_capability canonical_port_capability : canonical.

Lemma canonical_object_descriptor :
  canonical (decode_object_descriptor limits) (encode_object_descriptor limits) (wf_object_descriptor limits).
Proof using Hlim. unfold decode_object_descriptor, encode_object_descriptor, wf_object_descriptor. canonical_record. Qed.

Lemma canonical_endpoint_descriptor :
  canonical (decode_endpoint_descriptor limits) (encode_endpoint_descriptor limits) (wf_endpoint_descriptor limits).
Proof using Hlim. unfold decode_endpoint_descriptor, encode_endpoint_descriptor, wf_endpoint_descriptor. canonical_record. Qed.
#[local] Hint Resolve canonical_object_descriptor canonical_endpoint_descriptor : canonical.

(** The payload of a kind, and the kind it is written under. *)
Lemma canonical_payload kind :
  canonical (decode_payload limits kind) (encode_payload limits)
    (fun payload => wf_payload limits payload /\ kind_of_payload payload = kind).
Proof using Hlim. destruct kind; unfold decode_payload, encode_payload, wf_payload; canonical_record. Qed.
#[local] Hint Resolve canonical_payload : canonical.

Lemma canonical_evidence : canonical (decode_evidence limits) (encode_evidence limits) (wf_evidence limits).
Proof using Hlim.
  unfold canonical, decode_evidence. repeat canonical_step. canonical_facts. cbv beta in *.
  match goal with H : wf_payload _ _ /\ _ |- _ => destruct H as [? Hk] end.
  split; [split; [cbn; split_and?; done|done]|]. unfold encode_evidence, kind_of. cbn [ev_header ev_payload].
  rewrite Hk. canonical_writes.
Qed.
End limited.

(** ** Whole messages *)

Lemma decode_all_canonical {A} (d : Dec A) (f : A -> Enc) (P : A -> Prop) bytes a :
  canonical d f P -> Forall is_u8 bytes -> decode_all d bytes = Some a ->
  P a /\ (zlen bytes <= kMaxEncodedBytes -> enc_take (f a new_encoder) = bytes).
Proof.
  intros Hd Hu. unfold decode_all, new_decoder. destruct (d (mkDecoder bytes 0)) as [[b d']|] eqn:E; [|done].
  destruct (dec_done d') eqn:Ed; [|done]. intros [= <-].
  destruct (Hd _ _ _ _ Hu E) as (bs & [HP Hw] & Edata & Eo & Et). split; [done|]. intros Hlen.
  unfold dec_done in Ed. apply bool_decide_eq_true in Ed. rewrite Eo, Edata in Ed. cbn in Ed, Et.
  rewrite drop_0, Ed, firstn_all in Et. subst bs. rewrite (Hw _ enc_inv_new). cbn -[kMaxEncodedBytes]. rewrite Z.add_0_l.
  by rewrite (proj2 (Z.leb_le _ _) Hlen).
Qed.

Lemma decode_evidence_all bytes limits e :
  decode_evidence_bytes bytes limits = inl e -> decode_all (decode_evidence limits) bytes = Some e.
Proof.
  unfold decode_evidence_bytes, decode_all. destruct (decode_evidence limits _) as [[e' d]|]; [|done].
  destruct (dec_done d); cbn; [|done]. by intros [= ->].
Qed.

(** Well-formed records have the ranges of their types. *)
Lemma wf_typed limits e : wf_evidence limits e -> typed_evidence e.
Proof.
  unfold wf_evidence, wf_header, typed_evidence. intros [Hh Hp]. destruct_and? Hh. split_and!; try done.
  destruct (ev_payload e) as [d|d|p|p|p|p|p|p|p]; cbn in *; unfold wf_object_descriptor, wf_endpoint_descriptor, wf_capability,
    wf_port_capability, typed_capability, typed_port_capability in *; tauto.
Qed.

Lemma typed_request_descriptor limits d : wf_source_descriptor limits d -> typed_descriptor d.
Proof. unfold wf_source_descriptor, typed_descriptor. tauto. Qed.

(** The requests that change the registry, from arbitrary bytes. *)
Lemma open_request_typed limits bytes d incarnation :
  limits_u32 limits -> Forall is_u8 bytes -> decode_all (decode_open_session_request limits) bytes = Some (d, incarnation) ->
  typed_descriptor d /\ is_u64 incarnation.
Proof.
  intros Hl%limits_u32_ok Hu E.
  assert (Hc : canonical (decode_open_session_request limits) (fun '(d, i) => encode_open_session_request limits d i)
    (fun '(d, i) => wf_source_descriptor limits d /\ is_u64 i)).
  { pose proof (canonical_source_descriptor limits Hl). unfold decode_open_session_request, encode_open_session_request.
    canonical_record. }
  destruct (decode_all_canonical _ _ _ _ _ Hc Hu E) as [[Hd Hi] _]. split; [by apply (typed_request_descriptor limits)|done].
Qed.

Lemma close_request_typed bytes key :
  Forall is_u8 bytes -> decode_all decode_source_key bytes = Some key -> id_ok (key_source key) /\ is_u64 (key_incarnation key).
Proof. intros Hu E. by destruct (decode_all_canonical _ _ _ _ _ canonical_source_key Hu E). Qed.

Lemma publish_request_typed limits bytes e :
  limits_u32 limits -> Forall is_u8 bytes -> decode_evidence_bytes bytes limits = inl e -> typed_evidence e.
Proof.
  intros Hl%limits_u32_ok Hu E%decode_evidence_all. apply (wf_typed limits).
  by destruct (decode_all_canonical _ _ _ _ _ (canonical_evidence limits Hl) Hu E).
Qed.

Lemma batch_request_wf limits bytes batch :
  limits_u32 limits -> Forall is_u8 bytes -> decode_all (decode_publish_batch_request limits) bytes = Some batch ->
  zlen batch <= max_evidence_batch limits /\ Forall typed_evidence batch.
Proof.
  intros Hl%limits_u32_ok Hu E.
  assert (Hc := canonical_vector (max_evidence_batch limits) _ _ _ (canonical_evidence limits Hl)).
  destruct (decode_all_canonical (decode_publish_batch_request limits) _ _ _ _ Hc Hu E) as [[Hn Hall] _].
  split; [done|]. eapply Forall_impl; [exact Hall|]. apply wf_typed.
Qed.

(** C15: A record has one encoding, and what is accepted is well formed. Whatever
    bytes [decode_evidence] accepts, from a client or from a log: every integer of
    the record fits its type, the identity and the source in its header are not
    nil, its incarnation and generation not zero, its schema the current one, and
    its strings and lists are within the limits; and when there are no more than the
    encoder's ceiling of 8 MiB of them, [encode_evidence] writes for the record
    exactly the bytes that were accepted. *)
Theorem accepted_evidence_is_canonical limits bytes e :
  limits_u32 limits -> Forall is_u8 bytes -> decode_evidence_bytes bytes limits = inl e ->
  wf_evidence limits e /\ typed_evidence e /\
  (zlen bytes <= kMaxEncodedBytes -> encode_evidence_bytes e limits = bytes).
Proof.
  intros Hl%limits_u32_ok Hu E%decode_evidence_all.
  destruct (decode_all_canonical _ _ _ _ _ (canonical_evidence limits Hl) Hu E) as [Hwf Henc].
  split; [done|]. split; [by apply (wf_typed limits)|exact Henc].
Qed.

(** No two byte sequences are accepted as the same record. *)
Theorem evidence_is_not_malleable limits bytes1 bytes2 e :
  limits_u32 limits -> Forall is_u8 bytes1 -> Forall is_u8 bytes2 ->
  zlen bytes1 <= kMaxEncodedBytes -> zlen bytes2 <= kMaxEncodedBytes ->
  decode_evidence_bytes bytes1 limits = inl e -> decode_evidence_bytes bytes2 limits = inl e -> bytes1 = bytes2.
Proof.
  intros Hl%limits_u32_ok Hu1 Hu2 H1 H2 E1%decode_evidence_all E2%decode_evidence_all.
  destruct (decode_all_canonical _ _ _ _ _ (canonical_evidence limits Hl) Hu1 E1) as [_ <-]; [|done].
  by destruct (decode_all_canonical _ _ _ _ _ (canonical_evidence limits Hl) Hu2 E2) as [_ <-].
Qed.

(** ** An accepted record *)

Definition sample_evidence : Evidence :=
  mkEvidence (mkHeader (mkStrongId (mkId128 1 2)) (mkStrongId (mkId128 3 4)) 7 1 (-5) ProvenanceClass.OperatorEntry "note" kEvidenceSchemaVersion)
    (ReincarnateObject (mkReincarnate (mkStrongId (mkId128 5 6)) 1 "S-1" "replaced")).
Definition sample_bytes : list Z := encode_evidence_bytes sample_evidence default_limits.

Lemma all_u8 bytes : forallb (fun b => (0 <=? b) && (b <? 256)) bytes = true -> Forall is_u8 bytes.
Proof.
  induction bytes as [|b bytes IH]; cbn; [constructor|]. intros [[H1 H2]%andb_prop H3]%andb_prop. constructor; [|by apply IH].
  unfold is_u8. lia.
Qed.

Lemma accepted_evidence_is_canonical_witness :
  decode_evidence_bytes sample_bytes default_limits = inl sample_evidence /\
  wf_evidence default_limits sample_evidence /\ encode_evidence_bytes sample_evidence default_limits = sample_bytes.
Proof.
  assert (E : decode_evidence_bytes sample_bytes default_limits = inl sample_evidence) by (vm_compute; reflexivity).
  split; [exact E|].
  destruct (accepted_evidence_is_canonical default_limits sample_bytes sample_evidence) as (Hwf & _ & Henc).
  - unfold limits_u32. repeat (apply Forall_cons; split; [split; [vm_compute; discriminate|vm_compute; reflexivity]|]). constructor.
  - apply all_u8. vm_compute. reflexivity.
  - exact E.
  - split; [exact Hwf|]. apply Henc. vm_compute. discriminate.
Defined.
