(* ===== verification/Views.v ===== *)
(** * Views ([src/registry.cpp])

    What a query reports: [derive_port_view], [derive_object_view],
    [collect_history], the summary and the claim counters.  Every view is a
    function of the registry state. *)
From S2P Require Import Prelude OrdMap Types Ids Graph State Fold Derive Log Admit Ingest Session.
#[local] Open Scope string_scope.
#[local] Open Scope Z_scope.

(** ** Ports *)

Record LiveRecord := mkLive {
  lr_owner : SourceIncarnationKey;
  lr_slot : Z;
  lr_record : Folded PortValue;
}.

Definition lr_meta (r : LiveRecord) : Attestation := fd_meta (lr_record r).
Definition lr_value (r : LiveRecord) : PortValue := fd_value (lr_record r).
Definition lr_authority (r : LiveRecord) : Authority := att_authority (lr_meta r).

(** The owning source still asserts that the subject sits in this slot: its
    own newest statement about the subject is the one that wrote the record. *)
Definition still_asserted (state : RegistryState) (port : PortRef) (key : PortSlotKey)
    (folded : Folded PortValue) (current : Z) : bool :=
  match map_find (pt_subject (fd_value folded)) (rs_subject_records state) with
  | None => false
  | Some group =>
      match map_find (ps_owner key) group with
      | None => false
      | Some entry =>
          let value := fd_value entry in
          su_attached value && keqb (su_port value) port && (su_slot value =? ps_slot key)
          && (su_incarnation value =? current)
          && (att_generation (fd_meta entry) =? att_generation (fd_meta folded))
      end
  end.

Definition port_record_live (state : RegistryState) (port : PortRef) (policy : ValidationPolicy.t)
    (entry : PortSlotKey * Folded PortValue) : bool :=
  let value := fd_value entry.2 in
  let object := side_object (pt_subject value) in
  let current := object_incarnation_of state object in
  if session_is_fenced state (ps_owner entry.1) || negb (participates (fd_meta entry.2) policy) then false
  else if negb (object_exists state object) || object_excluded state object then false
  else if negb (pt_incarnation value =? current) then false
  else if negb (pt_empty value) then still_asserted state port entry.1 entry.2 current
  else true.

Definition live_records (state : RegistryState) (port : PortRef) (policy : ValidationPolicy.t)
    : list LiveRecord :=
  (fun entry => mkLive (ps_owner entry.1) (ps_slot entry.1) entry.2) <$>
    filter (fun entry => port_record_live state port policy entry = true)
      (default [] (map_find port (rs_port_records state))).

Definition best_live (live : list LiveRecord) : Authority :=
  match live with
  | [] => default_authority
  | front :: _ => foldl (fun best record => raise_authority best (lr_authority record)) (lr_authority front) live
  end.

Definition sorted_claims (metas : list Attestation) : list ClaimProvenance :=
  std_sort claim_order (to_provenance <$> metas).

Definition lifetime_validation (metas : list Attestation) : ValidationState.t :=
  combine_validation (existsb att_asserted_in_lifetime metas) (forallb att_asserted_in_lifetime metas).

(** The subjects of the occupied records, sorted and without repetition. *)
Definition subjects_of (occupied : list LiveRecord) : list ObjectSideRef :=
  std_unique keqb (std_sort kltb ((fun r => pt_subject (lr_value r)) <$> occupied)).

(** The last occupied record of a subject, whose slot and incarnation the edge
    keeps. *)
Definition last_record (records : list LiveRecord) : Z * Z :=
  match last records with
  | None => (0, 0)
  | Some r => (lr_slot r, pt_incarnation (lr_value r))
  end.

Definition port_edge (state : RegistryState) (port : PortRef) (capability : PortCapability) (best : Authority)
    (conflicting : bool) (overridden : list ClaimProvenance) (overridden_total : Z)
    (occupied : list LiveRecord) (subject : ObjectSideRef) : AttachmentEdge :=
  let own := filter (fun r => keqb (pt_subject (lr_value r)) subject = true) occupied in
  let descriptor := side_descriptor_of state (side_object subject) (side_index subject) in
  mkEdge subject port (last_record own).1 best (lifetime_validation (lr_meta <$> own))
    (connector_compatible descriptor capability) (media_compatible descriptor capability) conflicting
    (last_record own).2 (sorted_claims (lr_meta <$> own)) overridden overridden_total.

Definition edge_notes (edge : AttachmentEdge) : list ConflictNote :=
  ((if negb (ae_connector_compatible edge) then
     [mkConflictNote ConflictReason.IncompatibleConnector (ae_subject edge) (ae_port edge)
        "the object side connector does not match the declared port connector" (ae_claims edge)]
   else [])
  ++ (if negb (ae_media_compatible edge) then
     [mkConflictNote ConflictReason.IncompatibleMedia (ae_subject edge) (ae_port edge)
        "the object side media does not match the declared port media" (ae_claims edge)]
   else []))%list.

Definition double_booked_note (state : RegistryState) (port : PortRef) (policy : ValidationPolicy.t)
    (subject : ObjectSideRef) : ConflictNote :=
  mkConflictNote ConflictReason.ObjectSideDoubleBooked subject port
    "the object side is claimed at more than one port at the same authority"
    (sorted_claims (sj_top (derive_subject state subject policy))).

(** The part of the view that is reached when some record is live. *)
Definition port_view_of (state : RegistryState) (limits : Limits) (port : PortRef)
    (policy : ValidationPolicy.t) (live : list LiveRecord) : PortView :=
  let capability := port_capability_of state port in
  let best := best_live live in
  let winning := filter (fun r => keqb (lr_authority r) best = true) live in
  let losing := filter (fun r => keqb (lr_authority r) best = false) live in
  let occupied := filter (fun r => pt_empty (lr_value r) = false) winning in
  let empty := filter (fun r => pt_empty (lr_value r) = true) winning in
  let validation := lifetime_validation (lr_meta <$> winning) in
  let emptiness := sorted_claims (lr_meta <$> empty) in
  let emptiness_total := wrap32 (zlen empty) in
  let overridden := sorted_claims (lr_meta <$> take (Z.to_nat (max_overridden_reported limits)) losing) in
  let overridden_total := wrap32 (zlen losing) in
  match occupied with
  | [] =>
      mkPortView port (match empty with [] => PortAttachmentState.Unknown | _ => PortAttachmentState.Empty end)
        validation capability [] [] emptiness emptiness_total
  | _ =>
      let subjects := subjects_of occupied in
      let double_booked := existsb (fun subject => subject_double_booked state subject policy) subjects in
      let too_many := pc_max_attachments capability <? zlen subjects in
      let mixed := negb (zlen empty =? 0) in
      let conflicting := too_many || mixed || double_booked in
      let edges := port_edge state port capability best conflicting overridden overridden_total occupied
                     <$> subjects in
      let conflicts :=
        (mjoin (edge_notes <$> edges)
        ++ (if too_many then
              [mkConflictNote ConflictReason.TooManyAttachments default_side port
                 (to_dec (zlen subjects) +:+ " distinct subjects claim a port that admits "
                  +:+ to_dec (pc_max_attachments capability))
                 (sorted_claims (lr_meta <$> occupied))] else [])
        ++ (if mixed then
              [mkConflictNote ConflictReason.EmptyAndOccupied default_side port
                 "equal authority asserts both that the port is empty and that it is occupied"
                 (sorted_claims (lr_meta <$> winning))] else [])
        ++ (if double_booked then
              double_booked_note state port policy <$>
                filter (fun subject => subject_double_booked state subject policy = true) subjects
            else []))%list in
      mkPortView port
        (if conflicting then PortAttachmentState.Conflicting else PortAttachmentState.Attached)
        validation capability
        (std_sort (fun left right => kltb (ae_subject left) (ae_subject right)) edges)
        conflicts emptiness emptiness_total
  end.

Definition derive_port_view (state : RegistryState) (limits : Limits) (port : PortRef)
    (policy : ValidationPolicy.t) : PortView :=
  match live_records state port policy with
  | [] => mkPortView port PortAttachmentState.Unknown ValidationState.Unvalidated
            (port_capability_of state port) [] [] [] 0
  | live => port_view_of state limits port policy live
  end.

(** ** History *)

Definition history_event (state : RegistryState) (object : ObjectId) (kind : LifecycleEventKind.t)
    (detail : string) (subject : option ObjectSideRef) (port from_port : option PortRef) (has_from : bool)
    (meta : Attestation) : LifecycleEvent := {|
  le_kind := kind;
  le_observed_at := att_observed_at meta;
  le_received_at := att_received_at meta;
  le_source := key_source (att_owner meta);
  le_incarnation := key_incarnation (att_owner meta);
  le_generation := att_generation meta;
  le_evidence := att_evidence meta;
  le_provenance := att_provenance meta;
  le_object_incarnation := object_incarnation_of state object;
  le_side := match subject with Some s => side_index s | None => 0 end;
  le_port := default default_port port;
  le_from_port := default default_port from_port;
  le_has_from_port := has_from;
  le_detail := detail;
|}.

Definition registration_events (state : RegistryState) (object : ObjectId) : list LifecycleEvent :=
  mjoin ((fun entry : SourceIncarnationKey * Folded ObjectDescriptor =>
    history_event state object LifecycleEventKind.Registered "registered" None None None false (fd_meta entry.2)
    :: (history_event state object LifecycleEventKind.Registered "re-registered" None None None false
          <$> fd_superseded entry.2))
    <$> default [] (map_find object (rs_object_registrations state))).

Definition subject_events (state : RegistryState) (object : ObjectId) (subject : ObjectSideRef)
    (record : Folded SubjectValue) : list LifecycleEvent :=
  let value := fd_value record in
  if su_attached value then
    let kind := if su_via_move value then LifecycleEventKind.Moved else LifecycleEventKind.Attached in
    let event detail := history_event state object kind detail (Some subject) (Some (su_port value))
                          (Some (su_move_from value)) (su_via_move value) in
    event (if su_via_move value then "moved" else "attached") (fd_meta record)
    :: (event "superseded" <$> fd_superseded record)
  else
    let event detail := history_event state object LifecycleEventKind.Detached detail (Some subject) None None false in
    event "detached" (fd_meta record) :: (event "superseded" <$> fd_superseded record).

Definition attachment_events (state : RegistryState) (object : ObjectId) : list LifecycleEvent :=
  let current := object_incarnation_of state object in
  mjoin ((fun entry : ObjectSideRef * ordmap SourceIncarnationKey (Folded SubjectValue) =>
    if negb (keqb (side_object entry.1) object) then []
    else
      mjoin ((fun owner => subject_events state object entry.1 owner.2) <$>
        filter (fun owner => negb (session_is_fenced state owner.1)
                             && (su_incarnation (fd_value owner.2) =? current) = true) entry.2))
    <$> rs_subject_records state).

Definition lifecycle_event_kind (action : LifecycleAction.t) : LifecycleEventKind.t :=
  match action with
  | LifecycleAction.Present => LifecycleEventKind.Released
  | LifecycleAction.Quarantined => LifecycleEventKind.Quarantined
  | LifecycleAction.Removed => LifecycleEventKind.Removed
  | LifecycleAction.Retired => LifecycleEventKind.Retired
  end.

Definition lifecycle_events (state : RegistryState) (object : ObjectId) : list LifecycleEvent :=
  let unfenced {T} (entries : list (SourceIncarnationKey * Folded T)) :=
    filter (fun entry => session_is_fenced state entry.1 = false) entries in
  (((fun entry : SourceIncarnationKey * Folded LifecycleValue =>
      history_event state object (lifecycle_event_kind (lv_action (fd_value entry.2)))
        (lv_reason (fd_value entry.2)) None None None false (fd_meta entry.2))
     <$> unfenced (default [] (map_find object (rs_lifecycle_records state))))
  ++
  ((fun entry : SourceIncarnationKey * Folded ReincarnationValue =>
      history_event state object LifecycleEventKind.Reincarnated
        (ri_reason (fd_value entry.2)) None None None false (fd_meta entry.2))
     <$> unfenced (default [] (map_find object (rs_reincarnation_records state)))))%list.

Definition event_order (left right : LifecycleEvent) : bool :=
  if negb (le_observed_at left =? le_observed_at right) then le_observed_at left <? le_observed_at right
  else if negb (keqb (le_source left) (le_source right)) then kltb (le_source left) (le_source right)
  else if negb (le_incarnation left =? le_incarnation right) then le_incarnation left <? le_incarnation right
  else if negb (le_generation left =? le_generation right) then le_generation left <? le_generation right
  else kltb (le_evidence left) (le_evidence right).

(** The events and the number dropped. *)
Definition collect_history (state : RegistryState) (object : ObjectId) (max_events : Z)
    : list LifecycleEvent * Z :=
  let events := std_sort event_order
    (registration_events state object ++ attachment_events state object ++ lifecycle_events state object)%list in
  if max_events <? zlen events then
    let dropped := wrap32 (zlen events - max_events) in (drop (Z.to_nat dropped) events, dropped)
  else (events, 0).

(** ** Objects *)

(** The reincarnation record that explains the current unit. *)
Definition current_unit (state : RegistryState) (object : ObjectId) (incarnation : Z)
    : option (Folded ReincarnationValue) :=
  snd <$> foldl winner_step None
    (filter (fun entry => negb (session_is_fenced state entry.1)
                          && (ri_target (fd_value entry.2) =? incarnation) = true)
       (default [] (map_find object (rs_reincarnation_records state)))).

(** The capability scan: chosen record and key, best authority, and whether an
    equal authority declared something else. *)
Definition object_capability_step (state : RegistryState)
    (chosen : option (SourceIncarnationKey * NominalCapability * Authority * bool))
    (entry : SourceIncarnationKey * Folded NominalCapability)
    : option (SourceIncarnationKey * NominalCapability * Authority * bool) :=
  if session_is_fenced state entry.1 then chosen
  else
    let authority := att_authority (fd_meta entry.2) in
    match chosen with
    | None => Some (entry.1, fd_value entry.2, authority, false)
    | Some (chosen_key, value, best, differing) =>
        if kltb best authority then Some (entry.1, fd_value entry.2, authority, false)
        else if keqb authority best then
          let differing := if bool_decide (fd_value entry.2 = value) then differing else true in
          if kltb entry.1 chosen_key then Some (entry.1, fd_value entry.2, best, differing)
          else Some (chosen_key, value, best, differing)
        else chosen
    end.

Definition capability_note : ConflictNote :=
  mkConflictNote ConflictReason.CapabilityConflict default_side default_port
    "equal authority published different nominal capabilities for this object" [].

Definition registration_note : ConflictNote :=
  mkConflictNote ConflictReason.CapabilityConflict default_side default_port
    "equal authority registered different descriptors for this object" [].

(** The scan for registrations of the best authority that differ from the
    winning one. *)
Definition registrations_differ (winning : ObjectDescriptor)
    (all : list (SourceIncarnationKey * Folded ObjectDescriptor)) : bool :=
  let '(_, differing) :=
    foldl (fun acc entry =>
      let '(best, differing) := acc in
      let authority := att_authority (fd_meta entry.2) in
      match best with
      | None => (Some authority, false)
      | Some b =>
          if kltb b authority then (Some authority, false)
          else if keqb authority b && negb (bool_decide (fd_value entry.2 = winning)) then (best, true)
          else acc
      end) (None, false) all in
  differing.

Definition side_edges (state : RegistryState) (reference : ObjectSideRef) (descriptor : ObjectSideDescriptor)
    (d : SubjectDerivation) : list AttachmentEdge :=
  imap (fun index port =>
    let capability := port_capability_of state port in
    mkEdge reference port (default 0 (sj_slots d !! index)) (sj_authority d) (sj_validation d)
      (connector_compatible descriptor capability) (media_compatible descriptor capability)
      (bool_decide (sj_state d = PortAttachmentState.Conflicting)) (sj_incarnation d)
      (sorted_claims (sj_top d)) [] 0) (sj_ports d).

Definition side_view (state : RegistryState) (object : ObjectId) (policy : ValidationPolicy.t) (index : nat)
    : ObjectSideView :=
  let reference := mkObjectSideRef object (Z.of_nat index) in
  let descriptor := side_descriptor_of state object (Z.of_nat index) in
  let d := derive_subject state reference policy in
  mkSideView (Z.of_nat index) descriptor (sj_state d) (sj_validation d)
    (side_edges state reference descriptor d)
    (if bool_decide (sj_state d = PortAttachmentState.Conflicting) && (1 <? zlen (sj_ports d)) then
       [mkConflictNote ConflictReason.ObjectSideDoubleBooked reference default_port
          "the object side is claimed at more than one port at the same authority"
          (sorted_claims (sj_top d))]
     else []).

Definition default_object_view : ObjectView :=
  mkObjectView nil_id ObjectKind.Unknown "" "" "" 0 LifecycleState.Registered default_nominal_capability
    [] [] 0 [] ValidationState.Unvalidated.

Definition derive_object_view (state : RegistryState) (limits : Limits) (object : ObjectId)
    (options : QueryOptions) : ObjectView :=
  match winning_registration state object with
  | None => default_object_view
  | Some registration =>
      let descriptor := fd_value registration in
      let incarnation := object_incarnation_of state object in
      let serial :=
        match current_unit state object incarnation with
        | Some unit => if is_empty (ri_serial (fd_value unit)) then od_serial descriptor
                       else ri_serial (fd_value unit)
        | None => od_serial descriptor
        end in
      let '(capability, capability_notes) :=
        match foldl (object_capability_step state) None
                (default [] (map_find object (rs_object_capability_records state))) with
        | Some (_, value, _, differing) => (value, if differing : bool then [capability_note] else [])
        | None => (od_capability descriptor, [])
        end in
      let registration_notes :=
        if registrations_differ descriptor (default [] (map_find object (rs_object_registrations state)))
        then [registration_note] else [] in
      let sides := seq 0 (length (od_sides descriptor)) in
      let derive index := derive_subject state (mkObjectSideRef object (Z.of_nat index)) (qo_policy options) in
      let derivations := derive <$> sides in
      let has_attachment := existsb (fun d => bool_decide (sj_state d = PortAttachmentState.Attached)
                              || bool_decide (sj_state d = PortAttachmentState.Conflicting)) derivations in
      let has_detachment := existsb (fun d => bool_decide (sj_state d = PortAttachmentState.Empty)) derivations in
      let recorded := filter (fun d => sj_has_records d = true) derivations in
      let any_lifetime := qo_include_object_sides options
        && existsb (fun d => negb (bool_decide (sj_validation d = ValidationState.Unvalidated))) recorded in
      let all_lifetime := negb (qo_include_object_sides options)
        || forallb (fun d => bool_decide (sj_validation d = ValidationState.Validated)) recorded in
      let lifecycle := derive_lifecycle state object has_attachment has_detachment in
      let lifecycle_notes :=
        if ld_conflicting lifecycle then
          [mkConflictNote ConflictReason.LifecycleConflict default_side default_port
             "equal authority asserts incompatible lifecycle states" (sorted_claims (ld_citations lifecycle))]
        else [] in
      let '(history, history_dropped) :=
        if qo_include_history options then collect_history state object (max_history_events limits) else ([], 0) in
      mkObjectView object (od_kind descriptor) (od_label descriptor) serial (od_location descriptor)
        incarnation (ld_state lifecycle) capability
        (if qo_include_object_sides options then side_view state object (qo_policy options) <$> sides else [])
        history history_dropped (capability_notes ++ registration_notes ++ lifecycle_notes)%list
        (combine_validation any_lifetime all_lifetime)
  end.

(** ** Counters and the summary *)

(** The per-object and per-port counters are 64 bit. *)
Definition count64 {A} (p : A -> bool) (l : list A) : Z := foldl (fun n x => if p x then wrap64 (n + 1) else n) 0 l.
Definition sum64 {A} (f : A -> Z) (l : list A) : Z := foldl (fun n x => wrap64 (n + f x)) 0 l.

Definition summarize (ports : list PortView) (objects : list ObjectView) (fenced pending : Z) : GraphSummary :=
  let in_state s := count64 (fun port => bool_decide (pv_state port = s)) ports in
  let in_lifecycle s := count64 (fun object => bool_decide (ov_lifecycle object = s)) objects in
  {|
    gs_ports_attached := in_state PortAttachmentState.Attached;
    gs_ports_empty := in_state PortAttachmentState.Empty;
    gs_ports_unknown := in_state PortAttachmentState.Unknown;
    gs_ports_conflicting := in_state PortAttachmentState.Conflicting;
    gs_objects_total := count64 (fun _ => true) objects;
    gs_objects_registered := in_lifecycle LifecycleState.Registered;
    gs_objects_unattached := in_lifecycle LifecycleState.Unattached;
    gs_objects_attached := in_lifecycle LifecycleState.Attached;
    gs_objects_quarantined := in_lifecycle LifecycleState.Quarantined;
    gs_objects_removed := in_lifecycle LifecycleState.Removed;
    gs_objects_retired := in_lifecycle LifecycleState.Retired;
    gs_edges := sum64 (fun port => zlen (pv_edges port)) ports;
    gs_edges_unvalidated := sum64 (fun port => count64 (fun edge =>
      negb (bool_decide (ae_validation edge = ValidationState.Validated))) (pv_edges port)) ports;
    gs_conflicts := wrap64 (sum64 (fun port => zlen (pv_conflicts port)) ports
      + sum64 (fun object => zlen (ov_conflicts object)
                 + (if bool_decide (ov_lifecycle object = LifecycleState.Conflicting) then 1 else 0)) objects);
    gs_claims_fenced := fenced;
    gs_claims_pending := pending;
  |}.

(** The records of one table that satisfy [p], rings included. *)
Definition weigh {K O T} (p : K -> O -> Folded T -> bool) (g : groups K O T) (total : Z) : Z :=
  foldl (fun total group =>
    foldl (fun total owner =>
      if p group.1 owner.1 owner.2 then wrap64 (total + (1 + zlen (fd_superseded owner.2))) else total)
      total group.2) total g.

Definition incarnation_fenced (state : RegistryState) (object : ObjectId) (incarnation : Z) : bool :=
  object_exists state object && negb (incarnation =? object_incarnation_of state object).

Definition count_fenced_claims (state : RegistryState) : Z :=
  weigh (fun object owner f => session_is_fenced state owner
           || incarnation_fenced state object (lv_incarnation (fd_value f))) (rs_lifecycle_records state)
  (weigh (fun _ key f => session_is_fenced state (ps_owner key)
            || incarnation_fenced state (side_object (pt_subject (fd_value f))) (pt_incarnation (fd_value f)))
     (rs_port_records state)
  (weigh (fun subject owner f => session_is_fenced state owner
            || incarnation_fenced state (side_object subject) (su_incarnation (fd_value f)))
     (rs_subject_records state)
  (weigh (fun _ owner _ => session_is_fenced state owner) (rs_port_capability_records state)
  (weigh (fun _ owner _ => session_is_fenced state owner) (rs_object_capability_records state) 0)))).

Definition count_pending_claims (state : RegistryState) : Z :=
  let missing_object {O T} (g : groups ObjectId O T) :=
    sum64 (fun entry => if negb (object_exists state entry.1) then zlen entry.2 else 0) g in
  wrap64
    (sum64 (fun entry =>
       if negb (object_exists state (side_object entry.1)) then zlen entry.2
       else count64 (fun owner => negb (session_is_fenced state owner.1)
              && (object_incarnation_of state (side_object entry.1) <? su_incarnation (fd_value owner.2))) entry.2)
       (rs_subject_records state)
     + sum64 (fun entry =>
         count64 (fun owner =>
           let object := side_object (pt_subject (fd_value owner.2)) in
           negb (port_exists state entry.1) || negb (object_exists state object)
           || (object_incarnation_of state object <? pt_incarnation (fd_value owner.2))) entry.2)
         (rs_port_records state)
     + missing_object (rs_lifecycle_records state)
     + missing_object (rs_reincarnation_records state)
     + missing_object (rs_object_capability_records state)
     + sum64 (fun entry => if negb (port_exists state entry.1) then zlen entry.2 else 0)
         (rs_port_capability_records state)).

(** [totals\[object\] += count], unless the count is zero. *)
Definition add_total (object : ObjectId) (count : Z) (totals : ordmap ObjectId Z) : ordmap ObjectId Z :=
  if count =? 0 then totals
  else map_set object (wrap64 (default 0 (map_find object totals) + count)) totals.

Definition fenced_claims_by_object (state : RegistryState) : ordmap ObjectId Z :=
  let stale {T} (incarnation : T -> Z) (current : Z) (owners : list (SourceIncarnationKey * Folded T)) :=
    foldl (fun count owner => if negb (incarnation (fd_value owner.2) =? current)
                              then wrap64 (count + (1 + zlen (fd_superseded owner.2))) else count) 0 owners in
  let totals := foldl (fun totals entry =>
      add_total (side_object entry.1)
        (stale su_incarnation (object_incarnation_of state (side_object entry.1)) entry.2) totals)
    [] (rs_subject_records state) in
  let totals := foldl (fun totals (entry : PortRef * ordmap PortSlotKey (Folded PortValue)) =>
      foldl (fun totals owner =>
        let object := side_object (pt_subject (fd_value owner.2)) in
        if pt_incarnation (fd_value owner.2) =? object_incarnation_of state object then totals
        else add_total object (1 + zlen (fd_superseded owner.2)) totals) totals entry.2)
    totals (rs_port_records state) in
  foldl (fun totals entry =>
      add_total entry.1 (stale lv_incarnation (object_incarnation_of state entry.1) entry.2) totals)
    totals (rs_lifecycle_records state).

(** ** Queries *)

(** [push_back] followed by [if (size >= bound) break]. *)
Definition push_until {A} (bound : Z) (l : list A) : list A := take (Z.to_nat (Z.max 1 bound)) l.

Definition query_port (state : RegistryState) (limits : Limits) (port : PortRef) (policy : ValidationPolicy.t)
    : Outcome PortView :=
  if is_nil (port_endpoint port) then
    inr (mkError ErrorCode.InvalidArgument "the port names a nil endpoint")
  else if negb (endpoint_exists state (port_endpoint port)) then
    inr (mkError ErrorCode.NotFound "the endpoint is not registered")
  else if negb (port_exists state port) then
    inr (mkError ErrorCode.NotFound "the port index is outside the endpoint")
  else inl (derive_port_view state limits port policy).

Definition query_endpoint (state : RegistryState) (limits : Limits) (endpoint : EndpointId)
    (include_ports : bool) (policy : ValidationPolicy.t) : Outcome EndpointView :=
  if is_nil endpoint then inr (mkError ErrorCode.InvalidArgument "the endpoint identity is nil")
  else
    match winning_endpoint state endpoint with
    | None => inr (mkError ErrorCode.NotFound "the endpoint is not registered")
    | Some registration =>
        let d := fd_value registration in
        inl (mkEndpointView endpoint (ed_kind d) (ed_name d) (ed_location d) (ed_port_count d)
               (ed_default_capability d)
               (if include_ports then
                  (fun index => derive_port_view state limits (mkPortRef endpoint (Z.of_nat index)) policy)
                    <$> seq 0 (Z.to_nat (ed_port_count d))
                else []))
    end.

Definition query_object (state : RegistryState) (limits : Limits) (object : ObjectId) (options : QueryOptions)
    : Outcome ObjectView :=
  if is_nil object then inr (mkError ErrorCode.InvalidArgument "the object identity is nil")
  else if negb (object_exists state object) then
    inr (mkError ErrorCode.NotFound "the object is not registered")
  else inl (derive_object_view state limits object options).

Definition query_topology (state : RegistryState) (limits : Limits) (options : QueryOptions) : TopologyView :=
  let bound := max_snapshot_entries limits in
  let objects := push_until bound
    ((fun entry => derive_object_view state limits entry.1 options) <$>
       filter (fun entry => is_nil (qo_object options) || keqb (qo_object options) entry.1 = true)
         (rs_object_registrations state)) in
  let endpoints := push_until bound
    (omap (fun entry => match query_endpoint state limits entry.1 (qo_include_endpoint_ports options)
                                (qo_policy options) with inl view => Some view | inr _ => None end)
       (filter (fun entry => is_nil (qo_endpoint options) || keqb (qo_endpoint options) entry.1 = true)
          (rs_endpoint_registrations state))) in
  let ports :=
    if is_nil (qo_object options) then
      push_until bound ((fun entry => derive_port_view state limits entry.1 (qo_policy options)) <$>
        filter (fun entry => is_nil (qo_endpoint options)
                             || keqb (qo_endpoint options) (port_endpoint entry.1) = true) (rs_port_records state))
    else [] in
  mkTopologyView (rs_id state)
    (summarize ports objects (count_fenced_claims state) (count_pending_claims state))
    (qo_policy options) objects endpoints ports.

Definition query_history (state : RegistryState) (limits : Limits) (object : ObjectId) (max_events : Z)
    : Outcome ObjectHistory :=
  if is_nil object then inr (mkError ErrorCode.InvalidArgument "the object identity is nil")
  else if negb (object_exists state object) then
    inr (mkError ErrorCode.NotFound "the object is not registered")
  else
    let '(events, dropped) := collect_history state object (Z.min max_events (max_history_events limits)) in
    inl (mkObjectHistory object events dropped).

Definition collect_ports_by_state (state : RegistryState) (limits : Limits) (wanted : PortAttachmentState.t)
    (policy : ValidationPolicy.t) : list PortView :=
  push_until (max_snapshot_entries limits)
    (filter (fun view => pv_state view = wanted)
       ((fun entry => derive_port_view state limits entry.1 policy) <$> rs_port_records state)).

(** * Facts *)

(** ** Port views *)

Section port.
Context (state : RegistryState) (limits : Limits) (port : PortRef) (policy : ValidationPolicy.t).
#[local] Abbreviation view := (derive_port_view state limits port policy).
#[local] Abbreviation live := (live_records state port policy).

(** The records that decide the view: live and of the best authority. *)
Definition winning_record (r : LiveRecord) : Prop :=
  r ∈ live /\ forall r', r' ∈ live -> kltb (lr_authority r) (lr_authority r') = false.

Definition occupying (r : LiveRecord) : Prop := winning_record r /\ pt_empty (lr_value r) = false.
Definition vacating (r : LiveRecord) : Prop := winning_record r /\ pt_empty (lr_value r) = true.

Lemma best_live_bound r : r ∈ live -> kltb (best_live live) (lr_authority r) = false.
Proof.
  unfold best_live. destruct live as [|f l]; [by inversion 1|].
  exact (authority_max_bound lr_authority (lr_authority f) (f :: l) r).
Qed.

Lemma best_live_attained : live <> [] -> exists r, r ∈ live /\ lr_authority r = best_live live.
Proof.
  unfold best_live. destruct live as [|f l]; [done|]. intros _.
  apply (authority_max_front lr_authority f (f :: l)). by left.
Qed.

Lemma winning_best r : winning_record r <-> r ∈ live /\ lr_authority r = best_live live.
Proof.
  split.
  - intros [Hin Hmax]. split; [done|]. apply kltb_total; [|by apply best_live_bound].
    destruct best_live_attained as (r' & Hr' & Hb); [intros E; rewrite E in Hin; inversion Hin|].
    rewrite <- Hb. auto.
  - intros [Hin Hb]. split; [done|]. intros r' Hr'. rewrite Hb. by apply best_live_bound.
Qed.

Lemma winning_elem r :
  r ∈ filter (fun r => keqb (lr_authority r) (best_live live) = true) live <-> winning_record r.
Proof. rewrite list_elem_of_filter, keqb_eq, winning_best. naive_solver. Qed.

Definition occupied_list : list LiveRecord :=
  filter (fun r => pt_empty (lr_value r) = false)
    (filter (fun r => keqb (lr_authority r) (best_live live) = true) live).
Definition empty_list : list LiveRecord :=
  filter (fun r => pt_empty (lr_value r) = true)
    (filter (fun r => keqb (lr_authority r) (best_live live) = true) live).

Lemma occupied_elem r : r ∈ occupied_list <-> occupying r.
Proof. unfold occupied_list, occupying. rewrite list_elem_of_filter, winning_elem. naive_solver. Qed.

Lemma empty_elem r : r ∈ empty_list <-> vacating r.
Proof. unfold empty_list, vacating. rewrite list_elem_of_filter, winning_elem. naive_solver. Qed.

Lemma subjects_elem subject :
  subject ∈ subjects_of occupied_list <-> exists r, occupying r /\ pt_subject (lr_value r) = subject.
Proof.
  unfold subjects_of. rewrite std_unique_elem, std_sort_perm, list_elem_of_fmap.
  setoid_rewrite occupied_elem. naive_solver.
Qed.

Lemma view_no_live : live = [] -> pv_state view = PortAttachmentState.Unknown /\ pv_edges view = [].
Proof. unfold derive_port_view. by intros ->. Qed.

Lemma view_live : live <> [] -> view = port_view_of state limits port policy live.
Proof. unfold derive_port_view. by destruct live. Qed.

(** Too many subjects, a vacated slot next to an occupied one, or a subject
    that is booked elsewhere as well. *)
Definition contested : bool :=
  (pc_max_attachments (port_capability_of state port) <? zlen (subjects_of occupied_list))
  || negb (zlen empty_list =? 0)
  || existsb (fun subject => subject_double_booked state subject policy) (subjects_of occupied_list).

Lemma view_state : pv_state view =
  match live with
  | [] => PortAttachmentState.Unknown
  | _ => match occupied_list with
         | [] => PortAttachmentState.Empty
         | _ => if contested then PortAttachmentState.Conflicting else PortAttachmentState.Attached
         end
  end.
Proof.
  destruct live as [|r0 l0] eqn:El.
  { unfold derive_port_view. by rewrite El. }
  rewrite view_live by (rewrite El; done). unfold port_view_of. fold occupied_list empty_list.
  destruct occupied_list as [|o os] eqn:Eo; [|unfold contested; by rewrite Eo].
  cbn. destruct empty_list as [|e es] eqn:Ee; [|done].
  destruct best_live_attained as (r & Hr & Hb); [rewrite El; done|].
  assert (Hw : winning_record r) by by apply winning_best.
  destruct (pt_empty (lr_value r)) eqn:Ep.
  - assert (Hin : r ∈ empty_list) by by apply empty_elem. rewrite Ee in Hin. inversion Hin.
  - assert (Hin : r ∈ occupied_list) by by apply occupied_elem. rewrite Eo in Hin. inversion Hin.
Qed.

Lemma occupied_some r : occupying r -> live <> [] /\ occupied_list <> [].
Proof.
  intros Ho. pose proof (proj1 (proj1 Ho)) as Hin. apply occupied_elem in Ho.
  split; intros E; rewrite E in *; [inversion Hin|inversion Ho].
Qed.

Lemma contested_false :
  contested = false <->
  (forall r, ~ vacating r) /\
  zlen (subjects_of occupied_list) <= pc_max_attachments (port_capability_of state port) /\
  (forall r, occupying r -> subject_double_booked state (pt_subject (lr_value r)) policy = false).
Proof.
  unfold contested. rewrite !orb_false_iff, Z.ltb_ge, negb_false_iff, Z.eqb_eq.
  assert (He : zlen empty_list = 0 <-> forall r, ~ vacating r).
  { setoid_rewrite <- empty_elem. destruct empty_list as [|e l]; [split; [intros _ r Hr; inversion Hr|done]|].
    unfold zlen. cbn [length]. split; [lia|]. intros Hn. destruct (Hn e). by left. }
  assert (Hd : existsb (fun subject => subject_double_booked state subject policy) (subjects_of occupied_list) = false
    <-> forall r, occupying r -> subject_double_booked state (pt_subject (lr_value r)) policy = false).
  { rewrite <- not_true_iff_false, existsb_exists. split.
    - intros Hn r Hr. apply not_true_iff_false. intros Hb. apply Hn. eexists. split; [|exact Hb].
      apply list_elem_of_In, subjects_elem. eauto.
    - intros Hall (x & Hx & Hb). apply list_elem_of_In, subjects_elem in Hx as (r & Hr & <-).
      rewrite Hall in Hb; done. }
  rewrite He, Hd. naive_solver.
Qed.

Lemma view_attached :
  pv_state view = PortAttachmentState.Attached <->
  (exists r, occupying r) /\ contested = false.
Proof.
  rewrite view_state. setoid_rewrite <- occupied_elem. destruct live as [|r0 l0] eqn:El.
  - split; [done|]. intros [[r Hr] _]. apply occupied_elem, occupied_some in Hr as [Hr _]. by rewrite El in Hr.
  - destruct occupied_list as [|o os]; [split; [done|]; intros [[r Hr] _]; inversion Hr|].
    destruct contested; split; try done; [by intros [_ ?]|]. intros _. split; [exists o; by left|done].
Qed.

Lemma view_edges_subjects :
  live <> [] -> occupied_list <> [] ->
  forall edge, edge ∈ pv_edges view -> exists subject, subject ∈ subjects_of occupied_list /\
    edge = port_edge state port (port_capability_of state port) (best_live live) contested
             (ae_overridden edge) (ae_overridden_total edge) occupied_list subject.
Proof.
  intros Hl Ho edge. rewrite view_live by done. unfold port_view_of. fold occupied_list empty_list.
  destruct occupied_list as [|o os] eqn:Eo; [done|]. rewrite <- Eo. cbn [pv_edges].
  rewrite (std_sort_perm _), list_elem_of_fmap. intros (subject & -> & Hs). exists subject. done.
Qed.
End port.

Lemma live_record_spec state port policy r :
  r ∈ live_records state port policy ->
  session_is_fenced state (lr_owner r) = false /\ participates (lr_meta r) policy = true /\
  object_exists state (side_object (pt_subject (lr_value r))) = true /\
  object_excluded state (side_object (pt_subject (lr_value r))) = false /\
  pt_incarnation (lr_value r) = object_incarnation_of state (side_object (pt_subject (lr_value r))) /\
  exists found key, map_find port (rs_port_records state) = Some found /\ (key, lr_record r) ∈ found /\
    lr_owner r = ps_owner key /\ lr_slot r = ps_slot key.
Proof.
  unfold live_records. rewrite list_elem_of_fmap. intros ([key f] & -> & Hin).
  apply list_elem_of_filter in Hin as [Hlive Hin]. unfold lr_meta, lr_value. cbn [lr_owner lr_record lr_slot fst snd].
  unfold port_record_live in Hlive. cbn [fst snd] in Hlive.
  destruct (session_is_fenced _ _ || _) eqn:E1; [done|]. apply orb_false_iff in E1 as [? ?%negb_false_iff].
  destruct (negb _ || _) eqn:E2; [done|]. apply orb_false_iff in E2 as [?%negb_false_iff ?].
  destruct (negb (_ =? _)) eqn:E3; [done|]. apply negb_false_iff, Z.eqb_eq in E3.
  split_and!; try done. destruct (map_find port _) as [found|] eqn:Ef; cbn in Hin; [|inversion Hin].
  by exists found, key.
Qed.

(** The subject of an edge has a live record at the port. *)
Lemma edge_subject_live state limits port policy edge :
  edge ∈ pv_edges (derive_port_view state limits port policy) ->
  exists r, r ∈ live_records state port policy /\ pt_subject (lr_value r) = ae_subject edge.
Proof.
  intros Hin. unfold derive_port_view in Hin. destruct (live_records state port policy) as [|r0 l0] eqn:El; [inversion Hin|].
  rewrite <- El in Hin |- *. unfold port_view_of in Hin. fold (occupied_list state port policy) in Hin.
  destruct (occupied_list state port policy) as [|o os] eqn:Eo; [inversion Hin|]. rewrite <- Eo in Hin. cbn [pv_edges] in Hin.
  rewrite std_sort_perm, list_elem_of_fmap in Hin. destruct Hin as (subject & -> & Hs). cbn [port_edge ae_subject].
  apply subjects_elem in Hs as (r & Hr & Hsub). exists r. split; [apply Hr|done].
Qed.

(** C21: A port is never reported as attached by picking a winner silently. The
    derived view of a port is Attached exactly when some live record of the
    best authority occupies it, no live record of that authority declares it
    empty, the distinct occupying subjects fit the declared capacity, and none
    of them is booked at a second port; it is Unknown exactly when no live
    record exists, and Empty exactly when live records exist and none of the
    best authority occupies the port. *)
Theorem port_state_exact state limits port policy :
  let v := derive_port_view state limits port policy in
  (pv_state v = PortAttachmentState.Unknown <-> live_records state port policy = []) /\
  (pv_state v = PortAttachmentState.Empty <->
     live_records state port policy <> [] /\ forall r, ~ occupying state port policy r) /\
  (pv_state v = PortAttachmentState.Attached <->
     (exists r, occupying state port policy r) /\ (forall r, ~ vacating state port policy r) /\
     zlen (subjects_of (occupied_list state port policy)) <= pc_max_attachments (port_capability_of state port) /\
     forall r, occupying state port policy r ->
       subject_double_booked state (pt_subject (lr_value r)) policy = false).
Proof.
  cbn zeta. split_and!.
  - rewrite view_state. destruct (live_records state port policy); [done|].
    destruct (occupied_list state port policy); [done|]. by destruct (contested state port policy).
  - rewrite view_state. setoid_rewrite <- occupied_elem. destruct (live_records state port policy) as [|r0 l0].
    + split; [done|]. by intros [? _].
    + destruct (occupied_list state port policy) as [|o os].
      * split; [|done]. intros _. split; [done|]. intros r Hr. inversion Hr.
      * split; [by destruct (contested state port policy)|]. intros [_ Hn]. destruct (Hn o). by left.
  - rewrite view_attached, contested_false. done.
Qed.

(** C22: Every edge of a port view is backed by current evidence. Each claim an
    edge cites comes from a session that is not fenced, carries the authority
    of the edge, and no live record of the port has a higher one; the edge's
    object is registered, is not quarantined, removed or retired, and the
    edge's incarnation is the object's current one. *)
Theorem port_edges_sound state limits port policy edge :
  edge ∈ pv_edges (derive_port_view state limits port policy) ->
  object_exists state (side_object (ae_subject edge)) = true /\
  object_excluded state (side_object (ae_subject edge)) = false /\
  ae_object_incarnation edge = object_incarnation_of state (side_object (ae_subject edge)) /\
  (forall r, r ∈ live_records state port policy -> kltb (ae_authority edge) (lr_authority r) = false) /\
  ae_claims edge <> [] /\
  forall claim, claim ∈ ae_claims edge ->
    exists r, occupying state port policy r /\ pt_subject (lr_value r) = ae_subject edge /\
      claim = to_provenance (lr_meta r) /\ session_is_fenced state (lr_owner r) = false /\
      lr_authority r = ae_authority edge.
Proof.
  intros Hin. assert (Hne : live_records state port policy <> [] /\ occupied_list state port policy <> []).
  { split; intros E; [destruct (view_no_live state limits port policy E) as [_ He]; rewrite He in Hin; inversion Hin|].
    revert Hin. unfold derive_port_view. destruct (live_records state port policy) as [|r0 l0] eqn:El; [by inversion 1|].
    unfold occupied_list in E. rewrite El in E. unfold port_view_of. rewrite E. cbn. by inversion 1. }
  destruct Hne as [Hl Ho]. destruct (view_edges_subjects _ limits _ _ Hl Ho edge Hin) as (subject & Hs & ->). clear Hin.
  apply subjects_elem in Hs as (r & Hr & <-).
  set (subject := pt_subject (lr_value r)).
  set (own := filter (fun r => keqb (pt_subject (lr_value r)) subject = true) (occupied_list state port policy)).
  assert (Hown : forall x, x ∈ own <-> occupying state port policy x /\ pt_subject (lr_value x) = subject).
  { intros x. unfold own. rewrite list_elem_of_filter, occupied_elem, keqb_eq. naive_solver. }
  assert (Hrown : r ∈ own) by by apply Hown.
  destruct (live_record_spec _ _ _ _ (proj1 (proj1 Hr))) as (_ & _ & Hex & Hexc & _).
  cbn [port_edge ae_subject ae_object_incarnation ae_authority ae_claims]. fold own.
  split_and!; [done|done| |by intros; apply best_live_bound| |].
  - unfold last_record. destruct (last own) as [x|] eqn:Elast.
    + apply last_Some_elem_of, Hown in Elast as [Hx Hsub]. cbn.
      destruct (live_record_spec _ _ _ _ (proj1 (proj1 Hx))) as (_ & _ & _ & _ & Hinc & _). by rewrite Hinc, Hsub.
    + apply last_None in Elast. rewrite Elast in Hrown. inversion Hrown.
  - intros E. assert (Hc : to_provenance (lr_meta r) ∈ sorted_claims (lr_meta <$> own)).
    { unfold sorted_claims. rewrite std_sort_perm. by do 2 apply list_elem_of_fmap_2. }
    rewrite E in Hc. inversion Hc.
  - intros claim. unfold sorted_claims. rewrite std_sort_perm, list_elem_of_fmap.
    intros (m & -> & (x & -> & Hx)%list_elem_of_fmap). apply Hown in Hx as [Hx Hsub]. exists x.
    destruct (live_record_spec _ _ _ _ (proj1 (proj1 Hx))) as (Hf & _).
    split_and!; try done. apply winning_best, Hx.
Qed.

(** The reasons that make a port conflicting, as opposed to the notes about
    incompatible connectors and media that only annotate an edge. *)
Definition contention (note : ConflictNote) : bool :=
  match cn_reason note with
  | ConflictReason.TooManyAttachments | ConflictReason.EmptyAndOccupied
  | ConflictReason.ObjectSideDoubleBooked => true
  | _ => false
  end.

Lemma edge_notes_benign edges note : note ∈ mjoin (edge_notes <$> edges) -> contention note = false.
Proof.
  intros (l & Hn & (edge & -> & _)%list_elem_of_fmap)%list_elem_of_join. unfold edge_notes in Hn.
  apply elem_of_app in Hn as [Hn|Hn]; case_match; try (by inversion Hn);
    apply list_elem_of_singleton in Hn as ->; done.
Qed.

(** A contested port is always reported with the reason, and only then. A
    port view is Conflicting exactly when its notes include one that names too
    many attachments, a port both empty and occupied, or a doubly booked
    object side. *)
Theorem port_conflicts_reported state limits port policy :
  let v := derive_port_view state limits port policy in
  pv_state v = PortAttachmentState.Conflicting <->
  exists note, note ∈ pv_conflicts v /\ contention note = true.
Proof.
  cbn zeta. unfold derive_port_view. destruct (live_records state port policy) as [|r0 l0] eqn:El; cbn [pv_state pv_conflicts].
  { split; [done|]. intros (n & Hn & _). inversion Hn. }
  rewrite <- El. unfold port_view_of. fold (occupied_list state port policy) (empty_list state port policy).
  destruct (occupied_list state port policy) as [|o os] eqn:Eo.
  { cbn. split; [by case_match|]. intros (n & Hn & _). inversion Hn. }
  rewrite <- Eo. cbn [pv_state pv_conflicts].
  set (too_many := _ <? zlen (subjects_of _)). set (mixed := negb (zlen (empty_list _ _ _) =? 0)).
  set (booked := existsb _ (subjects_of _)). set (edges := _ <$> subjects_of _). split.
  - destruct (too_many || mixed || booked) eqn:E; [|done]. intros _.
    destruct too_many eqn:E1.
    { eexists. split; [|shelve]. apply elem_of_app. right. apply elem_of_app. left. by left. Unshelve. done. }
    destruct mixed eqn:E2.
    { eexists. split; [|shelve]. do 2 (apply elem_of_app; right). apply elem_of_app. left. by left. Unshelve. done. }
    destruct booked eqn:E3; [|done]. apply existsb_exists in E3 as (subject & Hs & Hb).
    exists (double_booked_note state port policy subject). split; [|done].
    do 3 (apply elem_of_app; right). apply list_elem_of_fmap_2, list_elem_of_filter.
    split; [done|by apply list_elem_of_In].
  - intros (note & Hn & Hc). rewrite !elem_of_app in Hn. destruct Hn as [Hn|[Hn|[Hn|Hn]]].
    + apply edge_notes_benign in Hn. congruence.
    + destruct too_many; [done|inversion Hn].
    + destruct mixed; [by rewrite orb_true_r|inversion Hn].
    + destruct booked; [by rewrite !orb_true_r|inversion Hn].
Qed.
