(* ===== verification/ReplicaViews.v ===== *)
(** * Reading a replica

    The views of a replica.  With recovered evidence included a port or an object
    side shows the same state, capability and subjects in every replica; only the
    validation marks and the citations' lifetime flags differ. *)
From S2P Require Import Prelude OrdMap Types Ids Graph Codec Serialization State Fold Derive Log Admit Ingest Session Replica Views.
#[local] Open Scope Z_scope.

(** ** Ports *)

Lemma foldl_ext {A B} (f g : A -> B -> A) a l : (forall a b, f a b = g a b) -> foldl f a l = foldl g a l.
Proof. intros E. revert a. induction l as [|b l IH]; intros a; cbn; [done|]. by rewrite E, IH. Qed.

Section essence_views.
Context {F : Forgets} (state : RegistryState).
#[local] Abbreviation state' := (essence state).

Lemma essence_excluded object : object_excluded state' object = object_excluded state object.
Proof.
  unfold object_excluded. rewrite essence_lifecycle. by destruct (lifecycle_action_of state object) as [[a c] l].
Qed.

Lemma participates_clear meta :
  participates (erase_attestation meta) ValidationPolicy.IncludeAll = participates meta ValidationPolicy.IncludeAll.
Proof. done. Qed.

Lemma essence_port_record_live port key f :
  port_record_live state' port ValidationPolicy.IncludeAll (key, erase_folded f) =
  port_record_live state port ValidationPolicy.IncludeAll (key, f).
Proof.
  unfold port_record_live. cbn [fst snd erase_folded fd_value fd_meta].
  rewrite essence_incarnation, essence_object_exists, essence_excluded.
  assert (Hs : forall current, still_asserted state' port key (erase_folded f) current =
               still_asserted state port key f current).
  { intros current. unfold still_asserted. cbn [erase_folded fd_value essence rs_subject_records].
    unfold erase_group. rewrite find_map_vals. destruct (map_find _ (rs_subject_records state)) as [m|]; [|done].
    cbn [fmap option_fmap option_map]. rewrite find_map_vals. by destruct (map_find (ps_owner key) m). }
  by rewrite Hs.
Qed.

Definition clear_live (r : LiveRecord) : LiveRecord := mkLive (lr_owner r) (lr_slot r) (erase_folded (lr_record r)).

Lemma essence_live_records port :
  live_records state' port ValidationPolicy.IncludeAll =
  clear_live <$> live_records state port ValidationPolicy.IncludeAll.
Proof.
  unfold live_records. cbn [essence rs_port_records]. unfold erase_group. rewrite find_map_vals.
  destruct (map_find port (rs_port_records state)) as [m|]; [|done]. cbn [fmap option_fmap option_map from_option id].
  rewrite (filter_map_vals erase_folded (fun e => port_record_live state' port ValidationPolicy.IncludeAll e)).
  unfold map_vals. rewrite <- !list_fmap_compose.
  rewrite (list_filter_iff _ (fun e => port_record_live state port ValidationPolicy.IncludeAll e = true)).
  { by apply list_fmap_ext. }
  intros [k f]. cbn [fst snd]. by rewrite essence_port_record_live.
Qed.

Lemma filter_clear_live (p : LiveRecord -> bool) b (l : list LiveRecord) :
  (forall r, p (clear_live r) = p r) ->
  filter (fun r => p r = b) (clear_live <$> l) = clear_live <$> filter (fun r => p r = b) l.
Proof.
  intros Hp. induction l as [|r l IH]; [done|]. rewrite fmap_cons, !filter_cons, Hp.
  destruct (decide (p r = b)); [|exact IH]. rewrite fmap_cons. by f_equal.
Qed.

Lemma best_live_clear (l : list LiveRecord) : best_live (clear_live <$> l) = best_live l.
Proof.
  unfold best_live. destruct l as [|r l]; [done|]. rewrite fmap_cons. cbn [foldl].
  change (lr_authority (clear_live r)) with (lr_authority r). generalize (raise_authority (lr_authority r) (lr_authority r)).
  induction l as [|x l IH]; intros a; [done|]. cbn. apply IH.
Qed.

Lemma essence_occupied port :
  occupied_list state' port ValidationPolicy.IncludeAll =
  clear_live <$> occupied_list state port ValidationPolicy.IncludeAll.
Proof.
  unfold occupied_list. rewrite essence_live_records, best_live_clear.
  rewrite (filter_clear_live (fun r => keqb (lr_authority r) _)) by done.
  by rewrite (filter_clear_live (fun r => pt_empty (lr_value r))).
Qed.

Lemma essence_empty port :
  empty_list state' port ValidationPolicy.IncludeAll =
  clear_live <$> empty_list state port ValidationPolicy.IncludeAll.
Proof.
  unfold empty_list. rewrite essence_live_records, best_live_clear.
  rewrite (filter_clear_live (fun r => keqb (lr_authority r) _)) by done.
  by rewrite (filter_clear_live (fun r => pt_empty (lr_value r))).
Qed.

Lemma subjects_of_clear (l : list LiveRecord) : subjects_of (clear_live <$> l) = subjects_of l.
Proof. unfold subjects_of. by rewrite <- list_fmap_compose. Qed.

Lemma foldl_winner_clear {T} (m : ordmap SourceIncarnationKey (Folded T)) acc :
  foldl winner_step ((fun e => (e.1, erase_folded e.2)) <$> acc) (map_vals erase_folded m) =
  (fun e => (e.1, erase_folded e.2)) <$> foldl winner_step acc m.
Proof.
  revert acc. induction m as [|[k f] m IH]; intros acc; [done|]. cbn [map_vals fmap list_fmap foldl].
  change ((fun e : SourceIncarnationKey * Folded T => (e.1, erase_folded e.2)) <$> m) with (map_vals erase_folded m).
  rewrite <- IH. f_equal. destruct acc as [[k0 f0]|]; [|done]. cbn. by case_match.
Qed.

Lemma essence_port_capability port : port_capability_of state' port = port_capability_of state port.
Proof.
  assert (Hw : (fun f => ed_default_capability (fd_value f)) <$> winning_endpoint state' (port_endpoint port) =
               (fun f => ed_default_capability (fd_value f)) <$> winning_endpoint state (port_endpoint port)).
  { unfold winning_endpoint. cbn [essence rs_endpoint_registrations]. unfold erase_group. rewrite find_map_vals.
    destruct (map_find _ (rs_endpoint_registrations state)) as [m|]; [|done]. cbn [fmap option_fmap option_map].
    pose proof (foldl_winner_clear m None) as E. cbn [fmap option_fmap option_map] in E. rewrite E.
    by destruct (foldl winner_step None m) as [[k f]|]. }
  assert (Hp : match map_find port (rs_port_capability_records state') with
               | None => None | Some found => foldl (port_capability_step state') None found end =
               match map_find port (rs_port_capability_records state) with
               | None => None | Some found => foldl (port_capability_step state) None found end).
  { cbn [essence rs_port_capability_records]. unfold erase_group. rewrite find_map_vals.
    destruct (map_find port (rs_port_capability_records state)) as [m|]; [|done]. cbn [fmap option_fmap option_map].
    rewrite foldl_map_vals. apply foldl_ext. by intros a [k f]. }
  unfold port_capability_of. rewrite Hp. generalize (match map_find port (rs_port_capability_records state) with
    | None => None | Some found => foldl (port_capability_step state) None found end).
  intros [[[[? ?] ?] ?]|]; [done|].
  destruct (winning_endpoint state' _), (winning_endpoint state _); cbn in Hw; congruence.
Qed.
End essence_views.

(** ** Object sides of a replica *)

Section essence_sides.
Context {F : Forgets} (state : RegistryState).
#[local] Abbreviation state' := (essence state).
#[local] Abbreviation all := ValidationPolicy.IncludeAll.
Implicit Types found : ordmap SourceIncarnationKey (Folded SubjectValue).

Lemma accept_clear current attached owner record :
  subject_accept state' all current attached owner (erase_folded record) =
  subject_accept state all current attached owner record.
Proof. done. Qed.

Lemma filter_clear (p : Attestation -> bool) b (l : list Attestation) :
  (forall m, p (erase_attestation m) = p m) ->
  filter (fun m => p m = b) (erase_attestation <$> l) = erase_attestation <$> filter (fun m => p m = b) l.
Proof.
  intros Hp. induction l as [|m l IH]; [done|]. rewrite fmap_cons, !filter_cons, Hp.
  destruct (decide (p m = b)); [|exact IH]. rewrite fmap_cons. by f_equal.
Qed.

Lemma raise_clear a (l : list Attestation) :
  foldl (fun best meta => raise_authority best (att_authority meta)) a (erase_attestation <$> l) =
  foldl (fun best meta => raise_authority best (att_authority meta)) a l.
Proof. revert a. induction l as [|x l IH]; intros a; [done|]. cbn. apply IH. Qed.

(** The records [collect_claims] admits. *)
Lemma eligible_clear current attached found :
  (fun entry : SourceIncarnationKey * Folded SubjectValue => fd_meta entry.2) <$>
    filter (fun e => participates (fd_meta e.2) all && subject_accept state' all current attached e.1 e.2 = true)
      (map_vals erase_folded found) =
  erase_attestation <$> ((fun entry => fd_meta entry.2) <$>
    filter (fun e => participates (fd_meta e.2) all && subject_accept state all current attached e.1 e.2 = true) found).
Proof.
  rewrite (filter_map_vals erase_folded
    (fun e => participates (fd_meta e.2) all && subject_accept state' all current attached e.1 e.2)).
  unfold map_vals. by rewrite <- !list_fmap_compose.
Qed.

(** What [collect_claims] decides, up to the lifetime flags of its citations. *)
Lemma collect_clear current attached found :
  let c' := collect_claims (map_vals erase_folded found) all (subject_accept state' all current attached) in
  let c := collect_claims found all (subject_accept state all current attached) in
  cs_any c' = cs_any c /\ cs_authority c' = cs_authority c /\ cs_top c' = erase_attestation <$> cs_top c.
Proof.
  cbn zeta. unfold collect_claims. rewrite eligible_clear. set (l := (fun entry => fd_meta entry.2) <$> filter _ found).
  destruct l as [|m l'] eqn:El; [done|]. rewrite fmap_cons, <- (fmap_cons erase_attestation m l'), raise_clear.
  change (att_authority (erase_attestation m)) with (att_authority m).
  cbn [cs_any cs_authority cs_top]. split_and!; [done|done|].
  rewrite (filter_clear (fun x => keqb (att_authority x) _)) by done. by apply std_sort_fmap.
Qed.

Lemma named_clear {A} (f : SubjectValue -> A) current authority found :
  (fun entry : SourceIncarnationKey * Folded SubjectValue => f (fd_value entry.2)) <$>
    filter (fun entry => subject_accept state' all current true entry.1 entry.2
      && keqb (att_authority (fd_meta entry.2)) authority = true) (map_vals erase_folded found) =
  (fun entry => f (fd_value entry.2)) <$>
    filter (fun entry => subject_accept state all current true entry.1 entry.2
      && keqb (att_authority (fd_meta entry.2)) authority = true) found.
Proof.
  rewrite (filter_map_vals erase_folded (fun entry => subject_accept state' all current true entry.1 entry.2
    && keqb (att_authority (fd_meta entry.2)) authority)).
  unfold map_vals. by rewrite <- list_fmap_compose.
Qed.

(** Two derivations that differ in validation marks only. *)
Record same_side (d' d : SubjectDerivation) : Prop := {
  ss_records : sj_has_records d' = sj_has_records d;
  ss_state : sj_state d' = sj_state d;
  ss_authority : sj_authority d' = sj_authority d;
  ss_incarnation : sj_incarnation d' = sj_incarnation d;
  ss_ports : sj_ports d' = sj_ports d;
  ss_slots : sj_slots d' = sj_slots d;
  ss_top : sj_top d' = erase_attestation <$> sj_top d;
}.

Lemma side_clear subject found :
  same_side (derive_subject_of state' subject all (map_vals erase_folded found)) (derive_subject_of state subject all found).
Proof.
  unfold derive_subject_of. rewrite essence_incarnation.
  set (current := object_incarnation_of state _).
  destruct (collect_clear current true found) as (-> & Ea & Et). destruct (collect_clear current false found) as (-> & Ed & _).
  rewrite Ea, Ed. case_match; [done|]. case_match; [done|]. case_match; [done|].
  by split; cbn [sj_has_records sj_state sj_authority sj_incarnation sj_ports sj_slots sj_top];
    rewrite ?(named_clear su_port), ?(named_clear su_slot).
Qed.

Lemma essence_subject subject :
  same_side (derive_subject state' subject all) (derive_subject state subject all).
Proof.
  unfold derive_subject. rewrite essence_object_exists, essence_incarnation. case_match; [done|].
  cbn [essence rs_subject_records]. unfold erase_group. rewrite find_map_vals.
  destruct (map_find subject (rs_subject_records state)) as [found|]; [|done]. apply side_clear.
Qed.

Lemma essence_double_booked subject : subject_double_booked state' subject all = subject_double_booked state subject all.
Proof. unfold subject_double_booked. by rewrite (ss_state _ _ (essence_subject subject)), (ss_ports _ _ (essence_subject subject)). Qed.

Lemma essence_contested port : contested state' port all = contested state port all.
Proof.
  unfold contested. rewrite essence_port_capability, essence_occupied, subjects_of_clear, essence_empty.
  unfold zlen at 2. rewrite length_fmap. fold (zlen (empty_list state port all)).
  f_equal. apply existsb_ext. intros. apply essence_double_booked.
Qed.

Lemma essence_port_state limits port :
  pv_state (derive_port_view state' limits port all) = pv_state (derive_port_view state limits port all).
Proof.
  rewrite !view_state, essence_contested, essence_occupied, essence_live_records.
  destruct (live_records state port all); [done|]. by destruct (occupied_list state port all).
Qed.

(** The subjects attached to a port. *)
Definition attached_subjects (s : RegistryState) (limits : Limits) (port : PortRef) (policy : ValidationPolicy.t)
    : list ObjectSideRef := ae_subject <$> pv_edges (derive_port_view s limits port policy).

Lemma attached_subjects_elem s limits port policy subject :
  subject ∈ attached_subjects s limits port policy <-> subject ∈ subjects_of (occupied_list s port policy).
Proof.
  unfold attached_subjects, derive_port_view. destruct (live_records s port policy) as [|r l] eqn:El.
  - unfold occupied_list. rewrite El. cbn. done.
  - rewrite <- El. unfold port_view_of. fold (occupied_list s port policy) (empty_list s port policy).
    destruct (occupied_list s port policy) as [|o os] eqn:Eo; [done|]. rewrite <- Eo. cbn [pv_edges].
    set (edges := port_edge _ _ _ _ _ _ _ _ <$> _).
    rewrite list_elem_of_fmap. setoid_rewrite (std_sort_perm _ edges). unfold edges.
    setoid_rewrite list_elem_of_fmap. split.
    + intros (e & -> & x & -> & Hx). done.
    + intros Hs. eexists. split; [|eexists; split; [reflexivity|exact Hs]]. done.
Qed.
End essence_sides.

(** A replica of a state shows the same topology when recovered evidence
    counts. *)
Lemma replica_views s1 s2 limits port :
  s1 ≈ s2 ->
  pv_state (derive_port_view s1 limits port ValidationPolicy.IncludeAll) =
    pv_state (derive_port_view s2 limits port ValidationPolicy.IncludeAll) /\
  port_capability_of s1 port = port_capability_of s2 port /\
  (forall subject, subject ∈ attached_subjects s1 limits port ValidationPolicy.IncludeAll <->
                   subject ∈ attached_subjects s2 limits port ValidationPolicy.IncludeAll).
Proof.
  intros Hr. unfold replica in Hr. split_and!.
  - by rewrite <- (essence_port_state s1), <- (essence_port_state s2), Hr.
  - by rewrite <- (essence_port_capability s1), <- (essence_port_capability s2), Hr.
  - intros subject. rewrite !attached_subjects_elem.
    assert (E : forall s, subjects_of (occupied_list s port ValidationPolicy.IncludeAll) =
      subjects_of (occupied_list (essence s) port ValidationPolicy.IncludeAll)).
    { intros s. by rewrite essence_occupied, subjects_of_clear. }
    by rewrite (E s1), (E s2), Hr.
Qed.

(** Right after a restart nothing is live. *)
Lemma nothing_live s limits port :
  clear_volatile s = s ->
  pv_state (derive_port_view s limits port ValidationPolicy.LiveOnly) = PortAttachmentState.Unknown.
Proof.
  intros Hc. assert (E : live_records s port ValidationPolicy.LiveOnly = []); [|unfold derive_port_view; by rewrite E].
  assert (E : rs_port_records s = clear_group (rs_port_records s)) by exact (eq_sym (f_equal rs_port_records Hc)).
  unfold live_records. rewrite E. unfold clear_group.
  rewrite find_map_vals. destruct (map_find port (rs_port_records s)) as [m|]; [|done].
  cbn [fmap option_fmap option_map from_option id].
  rewrite (filter_map_vals clear_folded (fun e => port_record_live s port ValidationPolicy.LiveOnly e)).
  rewrite (list_filter_iff _ (fun _ => False)).
  { assert (filter (fun _ => False) m = []) as -> by (induction m as [|? ? IH]; [done|]; by rewrite filter_cons, IH). done. }
  intros [k f]. unfold port_record_live. cbn. rewrite orb_true_r. done.
Qed.
