(* ===== verification/SnapshotBuild.v ===== *)
(** * Building a snapshot ([src/registry.cpp], [src/registry_state.cpp])

    [build_snapshot] turns the state into a canonical image, with a digest of the
    claims behind it; [Snapshot], [GraphDigest], [SnapshotWithMetadata], [Inspect]
    and [Stats] answer from it.  The main result is that the image is a function
    of the accepted evidence: every replica of a state has the same one. *)
From S2P Require Import Prelude OrdMap Types Ids Graph Codec Serialization State StateCodec Fold Derive Digest Snapshot SnapshotCodec FileIo Store Log Admit Ingest Session Replica Views ReplicaViews.
#[local] Open Scope string_scope.
#[local] Open Scope Z_scope.

(** ** The provenance image *)

Definition image_attestation (value : Attestation) : Enc :=
  encode_owner (att_owner value) ;> enc_u64 (att_generation value) ;> enc_id (att_evidence value) ;>
  enc_i64 (att_observed_at value) ;> enc_enum8 (att_provenance value) ;>
  enc_enum8 (auth_class (att_authority value)) ;> enc_u32 (auth_rank (att_authority value)).

(** [image_group]; the port records write their owner and slot behind the
    attestation, the other tables write no owner key. *)
Definition image_group {K O T} (encode_primary : K -> Enc) (encode_owner_key : O -> Enc) (encode_value : T -> Enc)
    (g : groups K O T) : Enc :=
  enc_vector (fun entry => encode_primary entry.1 ;>
    enc_vector (fun folded : O * Folded T => image_attestation (fd_meta folded.2) ;> encode_owner_key folded.1 ;>
                                             encode_value (fd_value folded.2)) entry.2) g.

Definition no_owner (owner : SourceIncarnationKey) : Enc := enc_nop.

Definition encode_provenance_image (limits : Limits) (state : RegistryState) : Enc :=
  enc_u32 kStoreFormatVersion ;>
  image_group enc_id no_owner (encode_object_descriptor limits) (rs_object_registrations state) ;>
  image_group enc_id no_owner (encode_endpoint_descriptor limits) (rs_endpoint_registrations state) ;>
  image_group encode_object_side_ref no_owner encode_subject_value (rs_subject_records state) ;>
  image_group encode_port_ref encode_slot_key encode_port_value (rs_port_records state) ;>
  image_group enc_id no_owner (encode_lifecycle_value limits) (rs_lifecycle_records state) ;>
  image_group enc_id no_owner (encode_reincarnation_value limits) (rs_reincarnation_records state) ;>
  image_group enc_id no_owner (encode_capability limits) (rs_object_capability_records state) ;>
  image_group encode_port_ref no_owner encode_port_capability (rs_port_capability_records state).

(** ** Images of views *)

Definition to_snapshot_claim (claim : ClaimProvenance) : SnapshotClaim :=
  mkSnapshotClaim (cp_source claim) (cp_incarnation claim) (cp_generation claim) (cp_evidence claim)
    (cp_observed_at claim) (cp_provenance claim) (cp_authority claim).

Definition to_snapshot_attachment (edge : AttachmentEdge) : SnapshotAttachment :=
  mkSnapshotAttachment (ae_subject edge) (ae_port edge) (ae_slot edge) (ae_object_incarnation edge) (ae_authority edge)
    (ae_connector_compatible edge) (ae_media_compatible edge) (ae_conflicting edge)
    (to_snapshot_claim <$> ae_claims edge).

Definition to_snapshot_conflict (note : ConflictNote) : SnapshotConflict :=
  mkSnapshotConflict (cn_reason note) (cn_subject note) (cn_port note) (to_snapshot_claim <$> cn_claims note).

(** The order [build_snapshot] gives the attachments of an object. *)
Definition built_attachment_less (left right : SnapshotAttachment) : bool :=
  if negb (keqb (sna_port left) (sna_port right)) then kltb (sna_port left) (sna_port right)
  else kltb (sna_subject left) (sna_subject right).

Definition snapshot_object (view : ObjectView) : SnapshotObject :=
  mkSnapshotObject (ov_id view) (ov_kind view) (ov_label view) (ov_serial view) (ov_location view) (ov_incarnation view)
    (ov_lifecycle view) (ov_capability view) (sv_descriptor <$> ov_sides view)
    (std_sort built_attachment_less (mjoin ((fun side => to_snapshot_attachment <$> sv_edges side) <$> ov_sides view))).

Definition snapshot_port (view : PortView) : SnapshotPort :=
  mkSnapshotPort (pv_port view) (pv_state view) (pv_capability view)
    (to_snapshot_attachment <$> pv_edges view) (to_snapshot_conflict <$> pv_conflicts view).

Definition snapshot_endpoint (state : RegistryState) (endpoint : EndpointId) : option SnapshotEndpoint :=
  (fun registration =>
     let d := fd_value registration in
     mkSnapshotEndpoint endpoint (ed_kind d) (ed_name d) (ed_location d) (ed_port_count d) (ed_default_capability d))
  <$> winning_endpoint state endpoint.

(** The incarnation a source is at. *)
Definition current_incarnation (state : RegistryState) (source : SourceId) : Z :=
  match map_find source (rs_sources state) with Some record => sr_current_incarnation record | None => 0 end.

Definition fenced_sessions_of (state : RegistryState) : list SourceIncarnationKey :=
  filter (fun key => session_is_fenced state key = true) (fst <$> rs_sessions state).

Definition snapshot_fenced_session (state : RegistryState) (key : SourceIncarnationKey) : SnapshotFencedSession :=
  mkSnapshotFencedSession (key_source key) (key_incarnation key) (current_incarnation state (key_source key))
    (count_session_claims state key).

Definition fenced_objects_of (state : RegistryState) : list (ObjectId * Z) :=
  filter (fun entry => negb (entry.2 =? 0) = true) (fenced_claims_by_object state).

Definition snapshot_options : QueryOptions :=
  mkQueryOptions ValidationPolicy.IncludeAll true false false nil_id nil_id.

Definition without_unvalidated (s : GraphSummary) : GraphSummary :=
  mkSummary (gs_ports_attached s) (gs_ports_empty s) (gs_ports_unknown s) (gs_ports_conflicting s)
    (gs_objects_total s) (gs_objects_registered s) (gs_objects_unattached s) (gs_objects_attached s)
    (gs_objects_quarantined s) (gs_objects_removed s) (gs_objects_retired s) (gs_edges s) 0
    (gs_conflicts s) (gs_claims_fenced s) (gs_claims_pending s).

Definition build_snapshot (state : RegistryState) (limits : Limits) : TopologySnapshot :=
  let objects := (fun entry => derive_object_view state limits entry.1 snapshot_options)
                   <$> rs_object_registrations state in
  let ports := (fun entry => derive_port_view state limits entry.1 ValidationPolicy.IncludeAll)
                 <$> rs_port_records state in
  mkSnapshot kSnapshotFormatVersion (rs_id state)
    (without_unvalidated (summarize ports objects (count_fenced_claims state) (count_pending_claims state)))
    (snapshot_object <$> objects)
    (omap (fun entry => snapshot_endpoint state entry.1) (rs_endpoint_registrations state))
    (snapshot_port <$> ports)
    (snapshot_fenced_session state <$> fenced_sessions_of state)
    ((fun entry => mkSnapshotFencedObject entry.1 (object_incarnation_of state entry.1) entry.2)
       <$> fenced_objects_of state)
    (sha256 (enc_buffer (encode_provenance_image limits state new_encoder))).

(** ** Inspection, envelope and statistics *)

Record SnapshotValidationSummary := mkValidationSummary {
  vs_claims_live : Z;
  vs_claims_recovered : Z;
  vs_ports_validated : Z;
  vs_ports_partially_validated : Z;
  vs_ports_unvalidated : Z;
}.

Record SnapshotEnvelope := mkEnvelope {
  en_snapshot : TopologySnapshot;
  en_generated_at : Z;
  en_digest : list Z;
  en_validation : SnapshotValidationSummary;
}.

Definition snapshot_with_metadata (state : RegistryState) (limits : Limits) (now : Z) : SnapshotEnvelope :=
  let snapshot := build_snapshot state limits in
  let ports := (fun entry => derive_port_view state limits entry.1 ValidationPolicy.IncludeAll)
                 <$> rs_port_records state in
  let claims port := mjoin (ae_claims <$> pv_edges port) in
  let in_validation v := count64 (fun port => bool_decide (pv_validation port = v)) ports in
  mkEnvelope snapshot now (snapshot_digest snapshot)
    (mkValidationSummary (count64 cp_asserted_in_lifetime (mjoin (claims <$> ports)))
       (count64 (fun claim => negb (cp_asserted_in_lifetime claim)) (mjoin (claims <$> ports)))
       (in_validation ValidationState.Validated) (in_validation ValidationState.PartiallyValidated)
       (in_validation ValidationState.Unvalidated)).

Definition inspect_fenced_object (state : RegistryState) (entry : ObjectId * Z) : FencedObjectView :=
  mkFencedObject entry.1 (object_incarnation_of state entry.1) entry.2
    (match winning_registration state entry.1 with Some registration => od_label (fd_value registration) | None => "" end).

Definition pending_reference (first : PortSlotKey * Folded PortValue) (detail : string) : PendingReferenceView :=
  mkPending (att_evidence (fd_meta first.2)) EvidenceKind.Attach (key_source (ps_owner first.1))
    (key_incarnation (ps_owner first.1)) (att_generation (fd_meta first.2)) detail.

(** The loop of [Inspect] over the port records, which looks at the first record
    of each port and stops once enough unvalidated ports are collected. No port
    has an empty record map: an entry is created by the fold that fills it. *)
Fixpoint inspect_ports (state : RegistryState) (limits : Limits) (bound : Z)
    (entries : list (PortRef * ordmap PortSlotKey (Folded PortValue)))
    (unvalidated : list PortView) (pending : list PendingReferenceView)
    : list PortView * list PendingReferenceView :=
  match entries with
  | [] => (unvalidated, pending)
  | (port, records) :: rest =>
      match records with
      | [] => inspect_ports state limits bound rest unvalidated pending
      | first :: _ =>
          if negb (object_exists state (side_object (pt_subject (fd_value first.2)))) then
            inspect_ports state limits bound rest unvalidated
              (pending ++ [pending_reference first "the attached object is not registered yet"])%list
          else if negb (port_exists state port) then
            inspect_ports state limits bound rest unvalidated
              (pending ++ [pending_reference first "the port is not registered yet"])%list
          else
            let view := derive_port_view state limits port ValidationPolicy.IncludeAll in
            if bool_decide (pv_validation view = ValidationState.Unvalidated)
               && negb (bool_decide (pv_state view = PortAttachmentState.Unknown)) then
              let unvalidated := (unvalidated ++ [view])%list in
              if bound <=? zlen unvalidated then (unvalidated, pending)
              else inspect_ports state limits bound rest unvalidated pending
            else inspect_ports state limits bound rest unvalidated pending
      end
  end.

Definition inspect (state : RegistryState) (limits : Limits) (refusals : list RefusalView) (max_entries : Z)
    : InspectionView :=
  let bound := Z.min max_entries (max_snapshot_entries limits) in
  let '(unvalidated, pending) := inspect_ports state limits bound (rs_port_records state) [] [] in
  let ports := push_until bound
    ((fun entry => derive_port_view state limits entry.1 ValidationPolicy.IncludeAll) <$> rs_port_records state) in
  let objects := push_until bound
    ((fun entry => derive_object_view state limits entry.1
        (mkQueryOptions ValidationPolicy.IncludeAll false false false nil_id nil_id)) <$> rs_object_registrations state) in
  mkInspection
    (push_until bound ((fun key => mkFencedSession (key_source key) (key_incarnation key)
       (current_incarnation state (key_source key)) (count_session_claims state key)) <$> fenced_sessions_of state))
    (push_until bound (inspect_fenced_object state <$> fenced_objects_of state))
    unvalidated pending refusals
    (summarize ports objects (count_fenced_claims state) (count_pending_claims state)).

Definition count_superseded {K O T} (g : groups K O T) : Z :=
  sum64 (fun group => sum64 (fun owner => zlen (fd_superseded owner.2)) group.2) g.

Definition count_records {K O T} (g : groups K O T) : Z := sum64 (fun entry => zlen entry.2) g.

(** The counters [Stats] reads from the store. *)
Class StoreCounters (S : Type) := {
  records_in_log : S -> Z;
  bytes_on_disk : S -> Z;
  rewrite_count : S -> Z;
}.

#[export] Instance store_counters : StoreCounters Store := {|
  records_in_log s := wrap64 (st_records_loaded s + st_records_written s);
  bytes_on_disk := st_bytes_on_disk;
  rewrite_count := st_rewrite_count;
|}.

Definition build_stats {S} `{StoreCounters S} (state : RegistryState) (recovery : RecoveryReport) (store : option S)
    : RegistryStats := {|
  st_registry := rs_id state;
  st_opened_at := rs_opened_at state;
  st_objects := zlen (rs_object_registrations state);
  st_endpoints := zlen (rs_endpoint_registrations state);
  st_ports := sum64 (fun entry => endpoint_port_count state entry.1) (rs_endpoint_registrations state);
  st_sources := zlen (rs_sources state);
  st_sessions := zlen (rs_sessions state);
  st_live_sessions := count64 (fun entry => ss_live entry.2) (rs_sessions state);
  st_claim_records := count_records (rs_subject_records state);
  st_port_records := count_records (rs_port_records state);
  st_lifecycle_records := count_records (rs_lifecycle_records state);
  st_capability_records := wrap64 (count_records (rs_object_capability_records state)
    + count_records (rs_port_capability_records state));
  st_evidence_accepted := sum64 (fun entry => ss_accepted entry.2) (rs_sessions state);
  st_evidence_refused := sum64 (fun entry => ss_refused entry.2) (rs_sessions state);
  st_evidence_duplicate := sum64 (fun entry => ss_duplicates entry.2) (rs_sessions state);
  st_evidence_superseded := wrap64 (count_superseded (rs_object_registrations state)
    + count_superseded (rs_endpoint_registrations state) + count_superseded (rs_subject_records state)
    + count_superseded (rs_lifecycle_records state) + count_superseded (rs_reincarnation_records state)
    + count_superseded (rs_object_capability_records state) + count_superseded (rs_port_capability_records state)
    + count_superseded (rs_port_records state));
  st_evidence_fenced := count_fenced_claims state;
  st_evidence_pending := count_pending_claims state;
  st_store_records := from_option records_in_log 0 store;
  st_store_bytes := from_option bytes_on_disk 0 store;
  st_store_rewrites := from_option rewrite_count 0 store;
  st_recovery := recovery;
|}.

(** * Facts *)

(** ** A replica has the same image *)

Definition image_claims (metas : list Attestation) : list SnapshotClaim := to_snapshot_claim <$> sorted_claims metas.

Lemma image_claims_clear `{Forgets} metas : image_claims (erase_attestation <$> metas) = image_claims metas.
Proof.
  unfold image_claims, sorted_claims. rewrite <- !(std_sort_fmap to_snapshot_claim claim_order claim_less) by done.
  by rewrite <- !list_fmap_compose.
Qed.

Lemma metas_clear `{Forgets} (l : list LiveRecord) : lr_meta <$> (clear_live <$> l) = erase_attestation <$> (lr_meta <$> l).
Proof. by rewrite <- !list_fmap_compose. Qed.

Lemma image_live_clear `{Forgets} (l : list LiveRecord) : image_claims (lr_meta <$> (clear_live <$> l)) = image_claims (lr_meta <$> l).
Proof. by rewrite metas_clear, image_claims_clear. Qed.

Lemma note_image `{Forgets} reason subject port detail (l : list LiveRecord) :
  to_snapshot_conflict (mkConflictNote reason subject port detail (sorted_claims (lr_meta <$> (clear_live <$> l)))) =
  to_snapshot_conflict (mkConflictNote reason subject port detail (sorted_claims (lr_meta <$> l))).
Proof. unfold to_snapshot_conflict. cbn [cn_reason cn_subject cn_port cn_claims]. f_equal. apply image_live_clear. Qed.

Lemma foldl_cong {A B} (f g : A -> B -> A) a a' l :
  (forall a b, f a b = g a b) -> a = a' -> foldl f a l = foldl g a' l.
Proof. intros E ->. by apply foldl_ext. Qed.

Section essence_images.
Context {F : Forgets} (state : RegistryState).
#[local] Abbreviation state' := (essence state).
#[local] Abbreviation all := ValidationPolicy.IncludeAll.

(** The winner of a scan keeps its value. *)
Lemma essence_winner {T} (m : ordmap SourceIncarnationKey (Folded T)) :
  snd <$> foldl winner_step None (map_vals erase_folded m) = erase_folded <$> (snd <$> foldl winner_step None m).
Proof.
  pose proof (foldl_winner_clear m None) as E. cbn [fmap option_fmap option_map] in E. rewrite E.
  by destruct (foldl winner_step None m) as [[k f]|].
Qed.

Lemma essence_registration object : winning_registration state' object = erase_folded <$> winning_registration state object.
Proof.
  unfold winning_registration. cbn [essence rs_object_registrations]. unfold erase_group. rewrite find_map_vals.
  destruct (map_find object (rs_object_registrations state)) as [m|]; [|done]. apply essence_winner.
Qed.

Lemma essence_endpoint endpoint : winning_endpoint state' endpoint = erase_folded <$> winning_endpoint state endpoint.
Proof.
  unfold winning_endpoint. cbn [essence rs_endpoint_registrations]. unfold erase_group. rewrite find_map_vals.
  destruct (map_find endpoint (rs_endpoint_registrations state)) as [m|]; [|done]. apply essence_winner.
Qed.

Lemma essence_side_descriptor object side : side_descriptor_of state' object side = side_descriptor_of state object side.
Proof. unfold side_descriptor_of. rewrite essence_registration. by destruct (winning_registration state object). Qed.

(** *** Ports *)

Lemma last_record_clear (l : list LiveRecord) : last_record (clear_live <$> l) = last_record l.
Proof. unfold last_record. rewrite fmap_last. by destruct (last l). Qed.

Lemma port_edge_image port capability best conflicting o1 t1 o2 t2 occupied subject :
  to_snapshot_attachment (port_edge state' port capability best conflicting o1 t1 (clear_live <$> occupied) subject) =
  to_snapshot_attachment (port_edge state port capability best conflicting o2 t2 occupied subject).
Proof.
  unfold port_edge, to_snapshot_attachment.
  cbn [ae_subject ae_port ae_slot ae_object_incarnation ae_authority ae_connector_compatible ae_media_compatible
    ae_conflicting ae_claims].
  rewrite (filter_clear_live (fun r => keqb (pt_subject (lr_value r)) subject)) by done.
  rewrite last_record_clear, essence_side_descriptor. f_equal. apply image_live_clear.
Qed.

(** The notes on an edge show what the image of the edge shows. *)
Lemma edge_notes_image e1 e2 :
  to_snapshot_attachment e1 = to_snapshot_attachment e2 ->
  to_snapshot_conflict <$> edge_notes e1 = to_snapshot_conflict <$> edge_notes e2.
Proof.
  unfold to_snapshot_attachment. intros [= E1 E2 _ _ _ E6 E7 _ E9]. unfold edge_notes. rewrite E6, E7, !fmap_app.
  f_equal; destruct (negb _); try done; cbn; unfold to_snapshot_conflict; cbn; by rewrite E1, E2, E9.
Qed.

Lemma edges_notes_image (l1 l2 : list AttachmentEdge) :
  to_snapshot_attachment <$> l1 = to_snapshot_attachment <$> l2 ->
  to_snapshot_conflict <$> mjoin (edge_notes <$> l1) = to_snapshot_conflict <$> mjoin (edge_notes <$> l2).
Proof.
  revert l2. induction l1 as [|e1 l1 IH]; intros [|e2 l2]; try done. rewrite !fmap_cons.
  intros [E El]%(inj2 cons). cbn [mjoin list_join]. rewrite !fmap_app, (edge_notes_image _ _ E). f_equal. by apply IH.
Qed.

Definition subject_less (left right : SnapshotAttachment) : bool := kltb (sna_subject left) (sna_subject right).

Lemma sorted_edges_image (l1 l2 : list AttachmentEdge) :
  to_snapshot_attachment <$> l1 = to_snapshot_attachment <$> l2 ->
  to_snapshot_attachment <$> std_sort (fun left right => kltb (ae_subject left) (ae_subject right)) l1 =
  to_snapshot_attachment <$> std_sort (fun left right => kltb (ae_subject left) (ae_subject right)) l2.
Proof. intros E. by rewrite <- !(std_sort_fmap to_snapshot_attachment _ subject_less), E by done. Qed.

Lemma double_booked_image port subject :
  to_snapshot_conflict (double_booked_note state' port all subject) =
  to_snapshot_conflict (double_booked_note state port all subject).
Proof.
  unfold double_booked_note, to_snapshot_conflict. cbn [cn_reason cn_subject cn_port cn_claims].
  rewrite (ss_top _ _ (essence_subject state subject)). f_equal. apply image_claims_clear.
Qed.

(** The fields of a port view that its image is made of. *)
Lemma port_view_image limits port :
  snapshot_port (derive_port_view state' limits port all) = snapshot_port (derive_port_view state limits port all).
Proof.
  unfold derive_port_view. rewrite essence_live_records. destruct (live_records state port all) as [|r l] eqn:El.
  { cbn [fmap list_fmap]. unfold snapshot_port. cbn [pv_port pv_state pv_capability pv_edges pv_conflicts].
    by rewrite essence_port_capability. }
  rewrite fmap_cons, <- (fmap_cons clear_live r l). generalize (r :: l). clear El r l. intros live.
  unfold port_view_of. rewrite best_live_clear, essence_port_capability.
  rewrite !(filter_clear_live (fun r => keqb (lr_authority r) _)) by done.
  rewrite !(filter_clear_live (fun r => pt_empty (lr_value r))) by done.
  set (winning := filter _ live). set (occupied := filter _ winning). set (empty := filter _ winning).
  assert (Hz : forall x : list LiveRecord, zlen (clear_live <$> x) = zlen x) by (intros x; unfold zlen; by rewrite length_fmap).
  destruct occupied as [|o os] eqn:Eo.
  { cbn [fmap list_fmap]. by destruct empty. }
  rewrite fmap_cons, <- (fmap_cons clear_live o os), <- Eo, subjects_of_clear.
  unfold snapshot_port. cbn [pv_port pv_state pv_capability pv_edges pv_conflicts]. rewrite !Hz.
  set (booked' := existsb _ (subjects_of occupied)). set (booked := existsb (fun s => subject_double_booked state s all) _).
  assert (Hb : booked' = booked) by (apply existsb_ext; intros; apply essence_double_booked). rewrite Hb.
  set (conflicting := _ || _ || booked).
  set (edges' := port_edge state' _ _ _ _ _ _ _ <$> _). set (edges := port_edge state _ _ _ _ _ _ _ <$> _).
  assert (He : to_snapshot_attachment <$> edges' = to_snapshot_attachment <$> edges).
  { unfold edges', edges. rewrite <- !list_fmap_compose. apply list_fmap_ext. intros i subject _. apply port_edge_image. }
  f_equal; [by apply sorted_edges_image|]. rewrite !fmap_app, (edges_notes_image _ _ He).
  apply (f_equal2 app); [done|]. apply (f_equal2 app); [|apply (f_equal2 app)].
  - destruct (_ <? _); [|done]. cbn [fmap list_fmap]. f_equal. apply note_image.
  - destruct (negb _); [|done]. cbn [fmap list_fmap]. f_equal. apply note_image.
  - destruct booked; [|done]. rewrite (list_filter_iff _ (fun s => subject_double_booked state s all = true))
      by (intros s; by rewrite essence_double_booked).
    rewrite <- !list_fmap_compose. apply list_fmap_ext. intros i s _. apply double_booked_image.
Qed.

(** *** Objects *)

Lemma side_edges_image reference descriptor :
  to_snapshot_attachment <$> side_edges state' reference descriptor (derive_subject state' reference all) =
  to_snapshot_attachment <$> side_edges state reference descriptor (derive_subject state reference all).
Proof.
  destruct (essence_subject state reference) as [_ Es Ea Ei Ep Esl Et]. unfold side_edges. rewrite Ep.
  rewrite !fmap_imap. apply imap_ext. intros index port _. unfold to_snapshot_attachment. cbn.
  rewrite essence_port_capability, Es, Ea, Ei, Esl, Et. f_equal. apply image_claims_clear.
Qed.

Lemma side_view_image object index :
  sv_descriptor (side_view state' object all index) = sv_descriptor (side_view state object all index) /\
  to_snapshot_attachment <$> sv_edges (side_view state' object all index) =
  to_snapshot_attachment <$> sv_edges (side_view state object all index).
Proof.
  unfold side_view. cbn [sv_descriptor sv_edges]. rewrite essence_side_descriptor. split; [done|]. apply side_edges_image.
Qed.

Lemma current_unit_clear object incarnation :
  current_unit state' object incarnation = erase_folded <$> current_unit state object incarnation.
Proof.
  unfold current_unit. cbn [essence rs_reincarnation_records]. unfold erase_group. rewrite find_map_vals.
  destruct (map_find object (rs_reincarnation_records state)) as [m|]; [|done].
  cbn [fmap option_fmap option_map from_option id].
  rewrite (filter_map_vals erase_folded (fun entry => negb (session_is_fenced state' entry.1)
    && (ri_target (fd_value entry.2) =? incarnation))). apply essence_winner.
Qed.

Lemma object_capability_clear object :
  foldl (object_capability_step state') None (default [] (map_find object (rs_object_capability_records state'))) =
  foldl (object_capability_step state) None (default [] (map_find object (rs_object_capability_records state))).
Proof.
  cbn [essence rs_object_capability_records]. unfold erase_group. rewrite find_map_vals.
  destruct (map_find object (rs_object_capability_records state)) as [m|]; [|done].
  cbn [fmap option_fmap option_map from_option id]. rewrite foldl_map_vals. apply foldl_ext. by intros a [k f].
Qed.

Lemma registrations_differ_clear winning object :
  registrations_differ winning (default [] (map_find object (rs_object_registrations state'))) =
  registrations_differ winning (default [] (map_find object (rs_object_registrations state))).
Proof.
  cbn [essence rs_object_registrations]. unfold erase_group. rewrite find_map_vals.
  destruct (map_find object (rs_object_registrations state)) as [m|]; [|done].
  cbn [fmap option_fmap option_map from_option id]. unfold registrations_differ. by rewrite foldl_map_vals.
Qed.

Lemma lifecycle_clear object a d :
  ld_state (derive_lifecycle state' object a d) = ld_state (derive_lifecycle state object a d) /\
  ld_conflicting (derive_lifecycle state' object a d) = ld_conflicting (derive_lifecycle state object a d).
Proof.
  unfold derive_lifecycle. rewrite essence_lifecycle. by destruct (lifecycle_action_of state object) as [[action c] l].
Qed.

(** A question about the states of the sides. *)
Lemma sides_clear (p : SubjectDerivation -> bool) object (sides : list nat) :
  (forall d d', sj_state d = sj_state d' -> p d = p d') ->
  existsb p
    ((fun index => derive_subject state' (mkObjectSideRef object (Z.of_nat index)) all) <$> sides) =
  existsb p
    ((fun index => derive_subject state (mkObjectSideRef object (Z.of_nat index)) all) <$> sides).
Proof.
  intros Hp. induction sides as [|i sides IH]; [done|]. rewrite !fmap_cons. cbn [existsb].
  by rewrite IH, (Hp _ _ (ss_state _ _ (essence_subject state _))).
Qed.

Lemma side_views_image object (sides : list nat) :
  sv_descriptor <$> (side_view state' object all <$> sides) = sv_descriptor <$> (side_view state object all <$> sides) /\
  mjoin ((fun side => to_snapshot_attachment <$> sv_edges side) <$> (side_view state' object all <$> sides)) =
  mjoin ((fun side => to_snapshot_attachment <$> sv_edges side) <$> (side_view state object all <$> sides)).
Proof.
  rewrite <- !list_fmap_compose. split.
  - apply list_fmap_ext. intros i index _. apply side_view_image.
  - f_equal. apply list_fmap_ext. intros i index _. apply side_view_image.
Qed.

Lemma object_view_image limits object :
  snapshot_object (derive_object_view state' limits object snapshot_options) =
    snapshot_object (derive_object_view state limits object snapshot_options) /\
  zlen (ov_conflicts (derive_object_view state' limits object snapshot_options)) =
    zlen (ov_conflicts (derive_object_view state limits object snapshot_options)).
Proof.
  unfold derive_object_view. rewrite essence_registration.
  destruct (winning_registration state object) as [registration|]; [|done].
  cbn [fmap option_fmap option_map]. change (fd_value (erase_folded registration)) with (fd_value registration).
  rewrite essence_incarnation, current_unit_clear, object_capability_clear, registrations_differ_clear.
  cbn [qo_policy qo_include_object_sides qo_include_history snapshot_options]. cbv zeta.
  set (sides := seq 0 _). set (descriptor := fd_value registration).
  assert (Hs : forall (f : string -> string), match erase_folded <$> current_unit state object (object_incarnation_of state object) with
      | Some unit => f (ri_serial (fd_value unit)) | None => od_serial descriptor end =
    match current_unit state object (object_incarnation_of state object) with
      | Some unit => f (ri_serial (fd_value unit)) | None => od_serial descriptor end)
    by (intros f; by destruct (current_unit state object _)).
  rewrite (Hs (fun serial => if is_empty serial then od_serial descriptor else serial)).
  rewrite !sides_clear by (intros ? ? E; by rewrite E).
  set (a := existsb _ _). set (d := existsb _ _).
  destruct (lifecycle_clear object a d) as [El Ec]. destruct (side_views_image object sides) as [Ed Ee].
  destruct (match foldl _ None _ with Some _ => _ | None => _ end) as [capability notes].
  unfold snapshot_object.
  cbn [ov_id ov_kind ov_label ov_serial ov_location ov_incarnation ov_lifecycle ov_capability ov_sides ov_conflicts].
  rewrite El, Ec, Ed, Ee. split; [done|]. unfold zlen. rewrite !length_app. do 3 f_equal.
  by destruct (ld_conflicting (derive_lifecycle state object a d)).
Qed.

(** *** Endpoints, sessions and counters *)

Lemma snapshot_endpoint_clear endpoint : snapshot_endpoint state' endpoint = snapshot_endpoint state endpoint.
Proof. unfold snapshot_endpoint. rewrite essence_endpoint. by destruct (winning_endpoint state endpoint). Qed.

Lemma scan_claims_clear {K O T} (p : O -> bool) (g : groups K O T) total :
  scan_claims p (erase_group g) total = scan_claims p g total.
Proof.
  unfold scan_claims, erase_group. rewrite foldl_map_vals. apply foldl_ext. intros a [k m]. cbn [fst snd].
  rewrite foldl_map_vals. apply foldl_ext. intros b [o f]. cbn [fst snd erase_folded fd_superseded].
  unfold zlen. by rewrite length_fmap.
Qed.

Lemma session_claims_clear key : count_session_claims state' key = count_session_claims state key.
Proof. unfold count_session_claims, scan_all. cbn [essence rs_port_records rs_port_capability_records
  rs_object_capability_records rs_reincarnation_records rs_lifecycle_records rs_subject_records].
  by rewrite !scan_claims_clear.
Qed.

Lemma weigh_clear {K O T} (p q : K -> O -> Folded T -> bool) (g : groups K O T) total total' :
  (forall k o f, p k o (erase_folded f) = q k o f) -> total = total' ->
  weigh p (erase_group g) total = weigh q g total'.
Proof.
  intros Hp <-. unfold weigh, erase_group. rewrite foldl_map_vals. apply foldl_ext. intros a [k m]. cbn [fst snd].
  rewrite foldl_map_vals. apply foldl_ext. intros b [o f]. cbn [fst snd]. rewrite Hp. cbn [erase_folded fd_superseded].
  unfold zlen. by rewrite length_fmap.
Qed.

Lemma fenced_clear object incarnation : incarnation_fenced state' object incarnation = incarnation_fenced state object incarnation.
Proof. unfold incarnation_fenced. by rewrite essence_object_exists, essence_incarnation. Qed.

Lemma count_fenced_clear : count_fenced_claims state' = count_fenced_claims state.
Proof.
  unfold count_fenced_claims. cbn [essence rs_port_records rs_port_capability_records rs_object_capability_records
    rs_lifecycle_records rs_subject_records].
  do 5 (apply weigh_clear; [intros; by rewrite ?fenced_clear|]). done.
Qed.

Lemma sum64_map_vals {K V W} (f : K * W -> Z) (h : V -> W) (m : ordmap K V) :
  sum64 f (map_vals h m) = sum64 (fun e => f (e.1, h e.2)) m.
Proof. unfold sum64. by rewrite foldl_map_vals. Qed.

Lemma count64_map_vals {K V W} (p : K * W -> bool) (h : V -> W) (m : ordmap K V) :
  count64 p (map_vals h m) = count64 (fun e => p (e.1, h e.2)) m.
Proof. unfold count64. by rewrite foldl_map_vals. Qed.

Lemma sum64_ext {A} (f g : A -> Z) l : (forall a, f a = g a) -> sum64 f l = sum64 g l.
Proof. intros E. apply foldl_ext. intros n a. by rewrite E. Qed.

Lemma count64_ext {A} (p q : A -> bool) l : (forall a, p a = q a) -> count64 p l = count64 q l.
Proof. intros E. apply foldl_ext. intros n a. by rewrite E. Qed.

Lemma zlen_map_vals {K V W} (h : V -> W) (m : ordmap K V) : zlen (map_vals h m) = zlen m.
Proof. unfold zlen. by rewrite map_vals_length. Qed.

Lemma missing_clear {K O T} (p q : K -> bool) (g : groups K O T) :
  (forall k, p k = q k) ->
  sum64 (fun entry => if p entry.1 then zlen entry.2 else 0) (erase_group g) =
  sum64 (fun entry => if q entry.1 then zlen entry.2 else 0) g.
Proof.
  intros Hp. unfold erase_group. rewrite sum64_map_vals. apply sum64_ext. intros [k m]. cbn [fst snd].
  by rewrite Hp, zlen_map_vals.
Qed.

Lemma count_pending_clear : count_pending_claims state' = count_pending_claims state.
Proof.
  unfold count_pending_claims. cbv zeta. f_equal. repeat apply (f_equal2 Z.add).
  - cbn [essence rs_subject_records]. unfold erase_group. rewrite sum64_map_vals. apply sum64_ext. intros [k m].
    cbn [fst snd]. rewrite essence_object_exists, essence_incarnation, zlen_map_vals, count64_map_vals. done.
  - cbn [essence rs_port_records]. unfold erase_group. rewrite sum64_map_vals. apply sum64_ext. intros [k m].
    cbn [fst snd]. rewrite count64_map_vals. apply count64_ext. intros [o f]. cbn [fst snd erase_folded fd_value].
    by rewrite essence_port_exists, essence_object_exists, essence_incarnation.
  - apply (missing_clear (fun o => negb (object_exists state' o)) (fun o => negb (object_exists state o))).
    intros k. by rewrite essence_object_exists.
  - apply (missing_clear (fun o => negb (object_exists state' o)) (fun o => negb (object_exists state o))).
    intros k. by rewrite essence_object_exists.
  - apply (missing_clear (fun o => negb (object_exists state' o)) (fun o => negb (object_exists state o))).
    intros k. by rewrite essence_object_exists.
  - apply (missing_clear (fun o => negb (port_exists state' o)) (fun o => negb (port_exists state o))).
    intros k. by rewrite essence_port_exists.
Qed.

Lemma superseded_clear {T} (f : Folded T) : zlen (fd_superseded (erase_folded f)) = zlen (fd_superseded f).
Proof. unfold zlen. cbn. by rewrite length_fmap. Qed.

(** The stale claims of one group. *)
Lemma stale_clear {T} (incarnation : T -> Z) current (owners : ordmap SourceIncarnationKey (Folded T)) :
  foldl (fun count owner => if negb (incarnation (fd_value owner.2) =? current)
                            then wrap64 (count + (1 + zlen (fd_superseded owner.2))) else count)
    0 (map_vals erase_folded owners) =
  foldl (fun count owner => if negb (incarnation (fd_value owner.2) =? current)
                            then wrap64 (count + (1 + zlen (fd_superseded owner.2))) else count) 0 owners.
Proof. rewrite foldl_map_vals. apply foldl_ext. intros b [o f]. cbn [fst snd]. by rewrite superseded_clear. Qed.

Lemma fenced_by_object_clear : fenced_claims_by_object state' = fenced_claims_by_object state.
Proof.
  unfold fenced_claims_by_object. cbv zeta. cbn [essence rs_subject_records rs_port_records rs_lifecycle_records].
  unfold erase_group. rewrite !foldl_map_vals. cbn [fst snd]. apply foldl_cong; [|apply foldl_cong; [|apply foldl_cong; [|done]]].
  - intros a [k m]. cbn [fst snd]. by rewrite stale_clear, essence_incarnation.
  - intros a [k m]. cbn [fst snd]. rewrite foldl_map_vals. apply foldl_ext. intros b [o f].
    cbn [fst snd]. rewrite essence_incarnation, superseded_clear. done.
  - intros a [k m]. cbn [fst snd]. by rewrite stale_clear, essence_incarnation.
Qed.

Lemma fenced_sessions_clear : fenced_sessions_of state' = fenced_sessions_of state.
Proof.
  unfold fenced_sessions_of. cbn [essence rs_sessions]. unfold map_vals. by rewrite <- list_fmap_compose.
Qed.

(** *** The provenance image *)

Lemma each_fmap {A B} (f : B -> Enc) (h : A -> B) l : enc_each f (h <$> l) = enc_each (fun x => f (h x)) l.
Proof. induction l as [|x l IH]; [done|]. rewrite fmap_cons. cbn [enc_each]. by rewrite IH. Qed.

Lemma each_ext {A} (f g : A -> Enc) l : (forall x, f x = g x) -> enc_each f l = enc_each g l.
Proof. intros E. induction l as [|x l IH]; [done|]. cbn [enc_each]. by rewrite E, IH. Qed.

Lemma vector_fmap {A B} (f : B -> Enc) (g : A -> Enc) (h : A -> B) l :
  (forall x, f (h x) = g x) -> enc_vector f (h <$> l) = enc_vector g l.
Proof. intros E. unfold enc_vector, zlen. rewrite length_fmap, each_fmap. f_equal. by apply each_ext. Qed.

Lemma image_attestation_clear meta : image_attestation (erase_attestation meta) = image_attestation meta.
Proof.
  unfold image_attestation. cbn [erase_attestation att_owner att_generation att_evidence att_observed_at att_provenance
    att_authority]. reflexivity.
Qed.

Lemma image_group_clear {K O T} (primary : K -> Enc) (key : O -> Enc) (value : T -> Enc) (g : groups K O T) :
  image_group primary key value (erase_group g) = image_group primary key value g.
Proof.
  unfold image_group, erase_group, map_vals. apply vector_fmap. intros [k m]. cbn [fst snd].
  apply (f_equal (enc_seq (primary k))). apply vector_fmap. intros [o f]. cbn [fst snd erase_folded fd_meta fd_value].
  by rewrite image_attestation_clear.
Qed.

Lemma provenance_image_clear limits : encode_provenance_image limits state' = encode_provenance_image limits state.
Proof.
  unfold encode_provenance_image. cbn [essence rs_object_registrations rs_endpoint_registrations rs_subject_records
    rs_port_records rs_lifecycle_records rs_reincarnation_records rs_object_capability_records rs_port_capability_records].
  by rewrite !image_group_clear.
Qed.
End essence_images.

(** What the summary counts of a port and of an object, leaving validation aside. *)
Definition port_digest (view : PortView) : PortAttachmentState.t * Z * Z :=
  (pv_state view, zlen (pv_edges view), zlen (pv_conflicts view)).
Definition object_digest (view : ObjectView) : LifecycleState.t * Z := (ov_lifecycle view, zlen (ov_conflicts view)).

Lemma fold_image {A B C} (f : C -> A -> C) (d : A -> B) (g : C -> B -> C) c l :
  (forall c a, f c a = g c (d a)) -> foldl f c l = foldl g c (d <$> l).
Proof. intros E. revert c. induction l as [|a l IH]; intros c; [done|]. cbn. by rewrite E, IH. Qed.

Lemma count64_image {A B} (p : A -> bool) (d : A -> B) (q : B -> bool) l :
  (forall a, p a = q (d a)) -> count64 p l = count64 q (d <$> l).
Proof. intros E. apply fold_image. intros c a. by rewrite E. Qed.

Lemma sum64_image {A B} (f : A -> Z) (d : A -> B) (g : B -> Z) l :
  (forall a, f a = g (d a)) -> sum64 f l = sum64 g (d <$> l).
Proof. intros E. apply fold_image. intros c a. by rewrite E. Qed.

Lemma summarize_image ports ports' objects objects' fenced pending :
  port_digest <$> ports = port_digest <$> ports' -> object_digest <$> objects = object_digest <$> objects' ->
  without_unvalidated (summarize ports objects fenced pending) =
  without_unvalidated (summarize ports' objects' fenced pending).
Proof.
  intros Hp Ho.
  assert (Hps : forall s, count64 (fun port => bool_decide (pv_state port = s)) ports =
    count64 (fun port => bool_decide (pv_state port = s)) ports').
  { intros s. rewrite !(count64_image _ port_digest (fun x => bool_decide (x.1.1 = s))) by done. by rewrite Hp. }
  assert (Hos : forall s, count64 (fun object => bool_decide (ov_lifecycle object = s)) objects =
    count64 (fun object => bool_decide (ov_lifecycle object = s)) objects').
  { intros s. rewrite !(count64_image _ object_digest (fun x => bool_decide (x.1 = s))) by done. by rewrite Ho. }
  unfold without_unvalidated, summarize. cbn. rewrite !Hps, !Hos.
  rewrite !(count64_image (fun _ => true) object_digest (fun _ => true)), Ho by done.
  rewrite !(sum64_image (fun port => zlen (pv_edges port)) port_digest (fun x => x.1.2)), Hp by done.
  rewrite !(sum64_image (fun port => zlen (pv_conflicts port)) port_digest (fun x => x.2)), Hp by done.
  by rewrite !(sum64_image _ object_digest
    (fun x => x.2 + (if bool_decide (x.1 = LifecycleState.Conflicting) then 1 else 0))), Ho by done.
Qed.

Definition with_registry (id : RegistryId) (s : TopologySnapshot) : TopologySnapshot :=
  mkSnapshot (sn_format_version s) id (sn_summary s) (sn_objects s) (sn_endpoints s) (sn_ports s)
    (sn_fenced_sessions s) (sn_fenced_objects s) (sn_provenance_digest s).

Lemma port_digest_image `{Forgets} limits port state :
  port_digest (derive_port_view (essence state) limits port ValidationPolicy.IncludeAll) =
  port_digest (derive_port_view state limits port ValidationPolicy.IncludeAll).
Proof.
  pose proof (port_view_image state limits port) as E. unfold port_digest.
  assert (Hd : forall v, (pv_state v, zlen (pv_edges v), zlen (pv_conflicts v)) =
    (snp_state (snapshot_port v), zlen (snp_attachments (snapshot_port v)), zlen (snp_conflicts (snapshot_port v))))
    by (intros v; unfold zlen; cbn; by rewrite !length_fmap).
  by rewrite !Hd, E.
Qed.

Lemma omap_keys {K V W A} (f g : K -> option A) (h : K * V -> K * W) (m : ordmap K V) :
  (forall k, f k = g k) -> (forall e, (h e).1 = e.1) ->
  omap (fun entry => f entry.1) (h <$> m) = omap (fun entry => g entry.1) m.
Proof. intros Hf Hh. induction m as [|e m IH]; [done|]. cbn. by rewrite Hh, Hf, IH. Qed.

(** The snapshot of a state is that of its essence, under its own identity. *)
Lemma build_snapshot_essence `{Forgets} state limits :
  build_snapshot state limits = with_registry (rs_id state) (build_snapshot (essence state) limits).
Proof.
  unfold build_snapshot, with_registry.
  cbn [sn_format_version sn_summary sn_objects sn_endpoints sn_ports sn_fenced_sessions sn_fenced_objects sn_provenance_digest].
  rewrite count_fenced_clear, count_pending_clear, provenance_image_clear, fenced_sessions_clear.
  cbn [essence rs_object_registrations rs_endpoint_registrations rs_port_records]. unfold erase_group, map_vals.
  rewrite <- !list_fmap_compose. f_equal.
  - apply summarize_image; rewrite <- !list_fmap_compose; apply list_fmap_ext; intros i [k m] _; cbn [compose fst snd].
    + by rewrite port_digest_image.
    + destruct (object_view_image state limits k) as [E1 E2]. unfold compose, object_digest. cbn [fst].
      by rewrite E2, <- (f_equal sno_lifecycle E1 : ov_lifecycle _ = ov_lifecycle _).
  - apply list_fmap_ext. intros i [k m] _. unfold compose. cbn [fst]. by destruct (object_view_image state limits k) as [-> _].
  - symmetry. apply omap_keys; [intros; apply snapshot_endpoint_clear|done].
  - apply list_fmap_ext. intros i [k m] _. unfold compose. cbn [fst]. by rewrite port_view_image.
  - apply list_fmap_ext. intros i key _. unfold snapshot_fenced_session. by rewrite session_claims_clear.
  - unfold fenced_objects_of. rewrite fenced_by_object_clear. apply list_fmap_ext. intros i [k n] _. cbn [fst snd].
    by rewrite essence_incarnation.
Qed.

Lemma replica_snapshot `{Forgets} s1 s2 limits :
  s1 ≈ s2 -> rs_id s1 = rs_id s2 -> build_snapshot s1 limits = build_snapshot s2 limits.
Proof. intros Hr Hid. by rewrite (build_snapshot_essence s1), (build_snapshot_essence s2), Hr, Hid. Qed.

(** C12: The canonical image is a function of the accepted evidence alone. Two
    states that differ only in process-local facts (what was asserted in this
    lifetime, session counters and the open time; under the looser relation also
    the times at which the records were received) have the same graph digest; when
    the registry identity is the same as well, the snapshots are equal in every
    field, the provenance digest included. *)
Theorem snapshot_of_replicas `{Forgets} s1 s2 limits :
  s1 ≈ s2 ->
  graph_digest (build_snapshot s1 limits) = graph_digest (build_snapshot s2 limits) /\
  (rs_id s1 = rs_id s2 -> build_snapshot s1 limits = build_snapshot s2 limits).
Proof.
  intros Hr. split; [|by apply replica_snapshot].
  by rewrite (build_snapshot_essence s1), (build_snapshot_essence s2), Hr.
Qed.

(** A registration and an attachment that are live, and the same recovered. *)
Definition live_meta (n : Z) : Attestation :=
  mkAttestation (mkKey (from_parts 0 1) 1) n (from_parts 7 n) 10 11 ProvenanceClass.DiscoveryAgent
    (mkAuthority AuthorityClass.Observed 0) 1 true.

Definition live_state : RegistryState :=
  let object := from_parts 1 1 in
  let port := mkPortRef (from_parts 2 1) 0 in
  let owner := mkKey (from_parts 0 1) 1 in
  let side := mkObjectSideRef object 0 in
  mkState (from_parts 9 9) 5 [] []
    [(object, [(owner, mkFolded (live_meta 1)
       (mkObjectDescriptor object ObjectKind.Cable "a" "" "" [default_side_descriptor] default_nominal_capability) [] 0)])]
    [(port_endpoint port, [(owner, mkFolded (live_meta 2)
       (mkEndpointDescriptor (port_endpoint port) EndpointKind.Switch "leaf" "" 4 default_port_capability) [] 0)])]
    [(side, [(owner, mkFolded (live_meta 3) (mkSubjectValue 1 true port 0 false default_port) [] 0)])]
    [(port, [(mkPortSlotKey owner port 0, mkFolded (live_meta 3) (mkPortValue 1 false side) [] 0)])] [] [] [] [].

(** The port is attached in both states, and only its validation differs. *)
Example live_and_recovered :
  let view s := derive_port_view s default_limits (mkPortRef (from_parts 2 1) 0) ValidationPolicy.IncludeAll in
  (pv_state (view live_state), pv_validation (view live_state)) = (PortAttachmentState.Attached, ValidationState.Validated) /\
  (pv_state (view (clear_volatile live_state)), pv_validation (view (clear_volatile live_state))) =
    (PortAttachmentState.Attached, ValidationState.Unvalidated).
Proof. split; vm_compute; reflexivity. Qed.

Lemma snapshot_of_replicas_witness :
  clear_volatile live_state <> live_state /\
  graph_digest (build_snapshot (clear_volatile live_state) default_limits) =
    graph_digest (build_snapshot live_state default_limits) /\
  (rs_id (clear_volatile live_state) = rs_id live_state ->
   build_snapshot (clear_volatile live_state) default_limits = build_snapshot live_state default_limits).
Proof.
  split; [discriminate|]. apply (snapshot_of_replicas (clear_volatile live_state) live_state default_limits).
  apply clear_volatile_replica.
Defined.
