(* ===== verification/Render.v ===== *)
(** * Rendering answers as JSON ([src/render.cpp])

    One definition per [write_...] helper and per overload of [to_json], as the
    sequence of writer operations the source makes; next to each, the value a
    reader is meant to find ([json_...]). *)
From S2P Require Import Prelude OrdMap Types Ids Graph State Session Snapshot SnapshotBuild Text Time Names Json.
From Stdlib Require Import (notations) Ascii.
#[local] Open Scope string_scope.
#[local] Open Scope json_scope.

(** [id.to_hex()] of a typed identity, and [to_hex] of a digest. *)
Definition id_hex {T} (id : StrongId T) : string := to_hex (sid_value id).
Definition digest_hex (digest : list Z) : string :=
  String.string_of_list_ascii (digest ≫= fun byte => [hex_digit (Z.land (Z.shiftr byte 4) 15); hex_digit (Z.land byte 15)]).

Definition jstr (s : string) : Json := JString (chars s).
Definition obj (members : list (string * Json)) : Json := JObject (prod_map chars id <$> members).

(** [writer.key(name)] and a value. *)
Definition member (name : string) (value : JsonWriter -> JsonWriter) : JsonWriter -> JsonWriter := key (chars name) >> value.

(** [JsonWriter writer; ...; return writer.take();] *)
Definition render (f : JsonWriter -> JsonWriter) : Text := jw_out (f (new_writer true)).

(** [to_json] of an identity and of a digest, which need no writer. *)
Definition to_json_id (value : Id128) : Text := ([quote] ++ chars (to_hex value) ++ [quote])%list.
Definition to_json_digest (value : list Z) : Text := ([quote] ++ chars (digest_hex value) ++ [quote])%list.

Definition write_authority (value : Authority) : JsonWriter -> JsonWriter :=
  field_string "class" (to_name (auth_class value)) >> field_number "rank" (auth_rank value).

Definition members_authority (value : Authority) : list (string * Json) :=
  [("class", jstr (to_name (auth_class value))); ("rank", JNumber (auth_rank value))].

Definition write_capability (value : NominalCapability) : JsonWriter -> JsonWriter :=
  field_string "media" (to_name (nc_media value)) >> field_string "connector" (to_name (nc_connector value)) >>
  field_number "lanes" (nc_lanes value) >> field_number "nominalLaneRateKbps" (nc_lane_rate_kbps value) >>
  field_number "nominalTotalKbps" (nc_total_kbps value) >> field_number "nominalReachMm" (nc_reach_mm value) >>
  field_boolean "reachDeclared" (nc_reach_declared value) >> field_string "capabilityCode" (nc_code value).

Definition members_capability (value : NominalCapability) : list (string * Json) :=
  [("media", jstr (to_name (nc_media value))); ("connector", jstr (to_name (nc_connector value)));
   ("lanes", JNumber (nc_lanes value)); ("nominalLaneRateKbps", JNumber (nc_lane_rate_kbps value));
   ("nominalTotalKbps", JNumber (nc_total_kbps value)); ("nominalReachMm", JNumber (nc_reach_mm value));
   ("reachDeclared", JBoolean (nc_reach_declared value)); ("capabilityCode", jstr (nc_code value))].

Definition write_port_capability (value : PortCapability) : JsonWriter -> JsonWriter :=
  field_number "maxSimultaneousAttachments" (pc_max_attachments value) >>
  field_string "acceptedConnector" (to_name (pc_connector value)) >>
  field_string "acceptedMedia" (to_name (pc_media value)) >> field_number "laneCapacity" (pc_lanes value).

Definition members_port_capability (value : PortCapability) : list (string * Json) :=
  [("maxSimultaneousAttachments", JNumber (pc_max_attachments value));
   ("acceptedConnector", jstr (to_name (pc_connector value))); ("acceptedMedia", jstr (to_name (pc_media value)));
   ("laneCapacity", JNumber (pc_lanes value))].

Definition write_provenance (value : ClaimProvenance) : JsonWriter -> JsonWriter :=
  field_string "source" (id_hex (cp_source value)) >> field_number "incarnation" (cp_incarnation value) >>
  field_number "generation" (cp_generation value) >> field_string "evidence" (id_hex (cp_evidence value)) >>
  field_text "observedAt" (to_rfc3339_utc (cp_observed_at value)) >>
  field_text "receivedAt" (to_rfc3339_utc (cp_received_at value)) >>
  field_string "provenance" (to_name (cp_provenance value)) >>
  field_string "authorityClass" (to_name (auth_class (cp_authority value))) >>
  field_number "authorityRank" (auth_rank (cp_authority value)) >>
  field_number "objectIncarnation" (cp_object_incarnation value) >>
  field_boolean "assertedInLifetime" (cp_asserted_in_lifetime value).

Definition members_provenance (value : ClaimProvenance) : list (string * Json) :=
  [("source", jstr (id_hex (cp_source value))); ("incarnation", JNumber (cp_incarnation value));
   ("generation", JNumber (cp_generation value)); ("evidence", jstr (id_hex (cp_evidence value)));
   ("observedAt", JString (to_rfc3339_utc (cp_observed_at value)));
   ("receivedAt", JString (to_rfc3339_utc (cp_received_at value)));
   ("provenance", jstr (to_name (cp_provenance value)));
   ("authorityClass", jstr (to_name (auth_class (cp_authority value))));
   ("authorityRank", JNumber (auth_rank (cp_authority value)));
   ("objectIncarnation", JNumber (cp_object_incarnation value));
   ("assertedInLifetime", JBoolean (cp_asserted_in_lifetime value))].

Definition json_provenance (value : ClaimProvenance) : Json := obj (members_provenance value).

Definition write_claim_array (name : string) (claims : list ClaimProvenance) : JsonWriter -> JsonWriter :=
  member name (begin_array >> for_each (fun claim => begin_object >> write_provenance claim >> end_object) claims >> end_array).

Definition write_note (value : ConflictNote) : JsonWriter -> JsonWriter :=
  begin_object >> (field_string "reason" (to_name (cn_reason value)) >>
   field_string "object" (id_hex (side_object (cn_subject value))) >>
   field_number "side" (side_index (cn_subject value)) >>
   field_string "endpoint" (id_hex (port_endpoint (cn_port value))) >>
   field_number "port" (port_index (cn_port value)) >> field_string "detail" (cn_detail value) >>
   write_claim_array "claims" (cn_claims value)) >> end_object.

Definition json_note (value : ConflictNote) : Json :=
  obj [("reason", jstr (to_name (cn_reason value))); ("object", jstr (id_hex (side_object (cn_subject value))));
   ("side", JNumber (side_index (cn_subject value))); ("endpoint", jstr (id_hex (port_endpoint (cn_port value))));
   ("port", JNumber (port_index (cn_port value))); ("detail", jstr (cn_detail value));
   ("claims", JArray (json_provenance <$> cn_claims value))].

Definition write_edge (value : AttachmentEdge) : JsonWriter -> JsonWriter :=
  begin_object >> (field_string "object" (id_hex (side_object (ae_subject value))) >>
   field_number "side" (side_index (ae_subject value)) >>
   field_string "endpoint" (id_hex (port_endpoint (ae_port value))) >>
   field_number "port" (port_index (ae_port value)) >> field_number "slot" (ae_slot value) >>
   field_number "objectIncarnation" (ae_object_incarnation value) >>
   field_string "authorityClass" (to_name (auth_class (ae_authority value))) >>
   field_number "authorityRank" (auth_rank (ae_authority value)) >>
   field_string "validation" (to_name (ae_validation value)) >>
   field_boolean "connectorCompatible" (ae_connector_compatible value) >>
   field_boolean "mediaCompatible" (ae_media_compatible value) >>
   field_boolean "conflicting" (ae_conflicting value) >> write_claim_array "claims" (ae_claims value) >>
   write_claim_array "overridden" (ae_overridden value) >>
   field_number "overriddenTotal" (ae_overridden_total value)) >> end_object.

Definition json_edge (value : AttachmentEdge) : Json :=
  obj [("object", jstr (id_hex (side_object (ae_subject value))));
   ("side", JNumber (side_index (ae_subject value))); ("endpoint", jstr (id_hex (port_endpoint (ae_port value))));
   ("port", JNumber (port_index (ae_port value))); ("slot", JNumber (ae_slot value));
   ("objectIncarnation", JNumber (ae_object_incarnation value));
   ("authorityClass", jstr (to_name (auth_class (ae_authority value))));
   ("authorityRank", JNumber (auth_rank (ae_authority value)));
   ("validation", jstr (to_name (ae_validation value)));
   ("connectorCompatible", JBoolean (ae_connector_compatible value));
   ("mediaCompatible", JBoolean (ae_media_compatible value)); ("conflicting", JBoolean (ae_conflicting value));
   ("claims", JArray (json_provenance <$> ae_claims value));
   ("overridden", JArray (json_provenance <$> ae_overridden value));
   ("overriddenTotal", JNumber (ae_overridden_total value))].

Definition write_edge_array (name : string) (edges : list AttachmentEdge) : JsonWriter -> JsonWriter :=
  member name (begin_array >> for_each write_edge edges >> end_array).

Definition write_note_array (name : string) (notes : list ConflictNote) : JsonWriter -> JsonWriter :=
  member name (begin_array >> for_each write_note notes >> end_array).

Definition write_port_view (value : PortView) : JsonWriter -> JsonWriter :=
  begin_object >> (field_string "endpoint" (id_hex (port_endpoint (pv_port value))) >>
   field_number "port" (port_index (pv_port value)) >> field_string "state" (to_name (pv_state value)) >>
   field_string "validation" (to_name (pv_validation value)) >> member "capability" (begin_object >>
   (write_port_capability (pv_capability value)) >> end_object) >> write_edge_array "edges" (pv_edges value) >>
   write_note_array "conflicts" (pv_conflicts value) >>
   write_claim_array "emptinessClaims" (pv_emptiness_claims value) >>
   field_number "emptinessClaimsTotal" (pv_emptiness_claims_total value)) >> end_object.

Definition json_port_view (value : PortView) : Json :=
  obj [("endpoint", jstr (id_hex (port_endpoint (pv_port value)))); ("port", JNumber (port_index (pv_port value)));
   ("state", jstr (to_name (pv_state value))); ("validation", jstr (to_name (pv_validation value)));
   ("capability", obj (members_port_capability (pv_capability value)));
   ("edges", JArray (json_edge <$> pv_edges value)); ("conflicts", JArray (json_note <$> pv_conflicts value));
   ("emptinessClaims", JArray (json_provenance <$> pv_emptiness_claims value));
   ("emptinessClaimsTotal", JNumber (pv_emptiness_claims_total value))].

Definition write_object_side_view (value : ObjectSideView) : JsonWriter -> JsonWriter :=
  begin_object >> (field_number "side" (sv_side value) >>
   field_string "connector" (to_name (sd_connector (sv_descriptor value))) >>
   field_string "media" (to_name (sd_media (sv_descriptor value))) >>
   field_number "lanes" (sd_lanes (sv_descriptor value)) >> field_string "state" (to_name (sv_state value)) >>
   field_string "validation" (to_name (sv_validation value)) >> write_edge_array "edges" (sv_edges value) >>
   write_note_array "conflicts" (sv_conflicts value)) >> end_object.

Definition json_object_side_view (value : ObjectSideView) : Json :=
  obj [("side", JNumber (sv_side value)); ("connector", jstr (to_name (sd_connector (sv_descriptor value))));
   ("media", jstr (to_name (sd_media (sv_descriptor value)))); ("lanes", JNumber (sd_lanes (sv_descriptor value)));
   ("state", jstr (to_name (sv_state value))); ("validation", jstr (to_name (sv_validation value)));
   ("edges", JArray (json_edge <$> sv_edges value)); ("conflicts", JArray (json_note <$> sv_conflicts value))].

Definition write_lifecycle_event (value : LifecycleEvent) : JsonWriter -> JsonWriter :=
  begin_object >> (field_string "kind" (to_name (le_kind value)) >>
   field_text "observedAt" (to_rfc3339_utc (le_observed_at value)) >>
   field_text "receivedAt" (to_rfc3339_utc (le_received_at value)) >>
   field_string "source" (id_hex (le_source value)) >> field_number "incarnation" (le_incarnation value) >>
   field_number "generation" (le_generation value) >> field_string "evidence" (id_hex (le_evidence value)) >>
   field_string "provenance" (to_name (le_provenance value)) >>
   field_number "objectIncarnation" (le_object_incarnation value) >> field_number "side" (le_side value) >>
   field_string "endpoint" (id_hex (port_endpoint (le_port value))) >>
   field_number "port" (port_index (le_port value)) >>
   field_string "fromEndpoint" (id_hex (port_endpoint (le_from_port value))) >>
   field_number "fromPort" (port_index (le_from_port value)) >>
   field_boolean "hasFromPort" (le_has_from_port value) >> field_string "detail" (le_detail value)) >> end_object.

Definition json_lifecycle_event (value : LifecycleEvent) : Json :=
  obj [("kind", jstr (to_name (le_kind value))); ("observedAt", JString (to_rfc3339_utc (le_observed_at value)));
   ("receivedAt", JString (to_rfc3339_utc (le_received_at value))); ("source", jstr (id_hex (le_source value)));
   ("incarnation", JNumber (le_incarnation value)); ("generation", JNumber (le_generation value));
   ("evidence", jstr (id_hex (le_evidence value))); ("provenance", jstr (to_name (le_provenance value)));
   ("objectIncarnation", JNumber (le_object_incarnation value)); ("side", JNumber (le_side value));
   ("endpoint", jstr (id_hex (port_endpoint (le_port value)))); ("port", JNumber (port_index (le_port value)));
   ("fromEndpoint", jstr (id_hex (port_endpoint (le_from_port value))));
   ("fromPort", JNumber (port_index (le_from_port value))); ("hasFromPort", JBoolean (le_has_from_port value));
   ("detail", jstr (le_detail value))].

Definition write_object_view (value : ObjectView) : JsonWriter -> JsonWriter :=
  begin_object >> (field_string "object" (id_hex (ov_id value)) >> field_string "kind" (to_name (ov_kind value)) >>
   field_string "physicalLabel" (ov_label value) >> field_string "serialLike" (ov_serial value) >>
   field_string "administrativeLocation" (ov_location value) >>
   field_number "incarnation" (ov_incarnation value) >> field_string "lifecycle" (to_name (ov_lifecycle value)) >>
   field_string "validation" (to_name (ov_validation value)) >> member "capability" (begin_object >>
   (write_capability (ov_capability value)) >> end_object) >> member "sides" (begin_array >>
   for_each (fun side : ObjectSideView => write_object_side_view side) (ov_sides value) >> end_array) >>
   member "history" (begin_array >>
   for_each (fun event : LifecycleEvent => write_lifecycle_event event) (ov_history value) >> end_array) >>
   field_number "historyDropped" (ov_history_dropped value) >>
   write_note_array "conflicts" (ov_conflicts value)) >> end_object.

Definition json_object_view (value : ObjectView) : Json :=
  obj [("object", jstr (id_hex (ov_id value))); ("kind", jstr (to_name (ov_kind value)));
   ("physicalLabel", jstr (ov_label value)); ("serialLike", jstr (ov_serial value));
   ("administrativeLocation", jstr (ov_location value)); ("incarnation", JNumber (ov_incarnation value));
   ("lifecycle", jstr (to_name (ov_lifecycle value))); ("validation", jstr (to_name (ov_validation value)));
   ("capability", obj (members_capability (ov_capability value)));
   ("sides", JArray ((fun side : ObjectSideView => json_object_side_view side) <$> ov_sides value));
   ("history", JArray ((fun event : LifecycleEvent => json_lifecycle_event event) <$> ov_history value));
   ("historyDropped", JNumber (ov_history_dropped value));
   ("conflicts", JArray (json_note <$> ov_conflicts value))].

Definition write_snapshot_claim (value : SnapshotClaim) : JsonWriter -> JsonWriter :=
  begin_object >> (field_string "source" (id_hex (snc_source value)) >>
   field_number "incarnation" (snc_incarnation value) >> field_number "generation" (snc_generation value) >>
   field_string "evidence" (id_hex (snc_evidence value)) >>
   field_text "observedAt" (to_rfc3339_utc (snc_observed_at value)) >>
   field_string "provenance" (to_name (snc_provenance value)) >>
   field_string "authorityClass" (to_name (auth_class (snc_authority value))) >>
   field_number "authorityRank" (auth_rank (snc_authority value))) >> end_object.

Definition json_snapshot_claim (value : SnapshotClaim) : Json :=
  obj [("source", jstr (id_hex (snc_source value))); ("incarnation", JNumber (snc_incarnation value));
   ("generation", JNumber (snc_generation value)); ("evidence", jstr (id_hex (snc_evidence value)));
   ("observedAt", JString (to_rfc3339_utc (snc_observed_at value)));
   ("provenance", jstr (to_name (snc_provenance value)));
   ("authorityClass", jstr (to_name (auth_class (snc_authority value))));
   ("authorityRank", JNumber (auth_rank (snc_authority value)))].

Definition write_snapshot_attachment (value : SnapshotAttachment) : JsonWriter -> JsonWriter :=
  begin_object >> (field_string "object" (id_hex (side_object (sna_subject value))) >>
   field_number "side" (side_index (sna_subject value)) >>
   field_string "endpoint" (id_hex (port_endpoint (sna_port value))) >>
   field_number "port" (port_index (sna_port value)) >> field_number "slot" (sna_slot value) >>
   field_number "objectIncarnation" (sna_object_incarnation value) >>
   field_string "authorityClass" (to_name (auth_class (sna_authority value))) >>
   field_number "authorityRank" (auth_rank (sna_authority value)) >>
   field_boolean "connectorCompatible" (sna_connector_compatible value) >>
   field_boolean "mediaCompatible" (sna_media_compatible value) >>
   field_boolean "conflicting" (sna_conflicting value) >> member "claims" (begin_array >>
   for_each (fun claim : SnapshotClaim => write_snapshot_claim claim) (sna_claims value) >> end_array)) >>
   end_object.

Definition json_snapshot_attachment (value : SnapshotAttachment) : Json :=
  obj [("object", jstr (id_hex (side_object (sna_subject value))));
   ("side", JNumber (side_index (sna_subject value)));
   ("endpoint", jstr (id_hex (port_endpoint (sna_port value)))); ("port", JNumber (port_index (sna_port value)));
   ("slot", JNumber (sna_slot value)); ("objectIncarnation", JNumber (sna_object_incarnation value));
   ("authorityClass", jstr (to_name (auth_class (sna_authority value))));
   ("authorityRank", JNumber (auth_rank (sna_authority value)));
   ("connectorCompatible", JBoolean (sna_connector_compatible value));
   ("mediaCompatible", JBoolean (sna_media_compatible value)); ("conflicting", JBoolean (sna_conflicting value));
   ("claims", JArray ((fun claim : SnapshotClaim => json_snapshot_claim claim) <$> sna_claims value))].

Definition to_json_graph_summary (value : GraphSummary) : Text :=
  render (begin_object >> (field_number "portsAttached" (gs_ports_attached value) >>
   field_number "portsEmpty" (gs_ports_empty value) >> field_number "portsUnknown" (gs_ports_unknown value) >>
   field_number "portsConflicting" (gs_ports_conflicting value) >>
   field_number "objectsTotal" (gs_objects_total value) >>
   field_number "objectsRegistered" (gs_objects_registered value) >>
   field_number "objectsUnattached" (gs_objects_unattached value) >>
   field_number "objectsAttached" (gs_objects_attached value) >>
   field_number "objectsQuarantined" (gs_objects_quarantined value) >>
   field_number "objectsRemoved" (gs_objects_removed value) >>
   field_number "objectsRetired" (gs_objects_retired value) >> field_number "edges" (gs_edges value) >>
   field_number "edgesUnvalidated" (gs_edges_unvalidated value) >> field_number "conflicts" (gs_conflicts value) >>
   field_number "claimsFenced" (gs_claims_fenced value) >>
   field_number "claimsPending" (gs_claims_pending value)) >> end_object).

Definition json_graph_summary (value : GraphSummary) : Json :=
  obj [("portsAttached", JNumber (gs_ports_attached value)); ("portsEmpty", JNumber (gs_ports_empty value));
   ("portsUnknown", JNumber (gs_ports_unknown value)); ("portsConflicting", JNumber (gs_ports_conflicting value));
   ("objectsTotal", JNumber (gs_objects_total value));
   ("objectsRegistered", JNumber (gs_objects_registered value));
   ("objectsUnattached", JNumber (gs_objects_unattached value));
   ("objectsAttached", JNumber (gs_objects_attached value));
   ("objectsQuarantined", JNumber (gs_objects_quarantined value));
   ("objectsRemoved", JNumber (gs_objects_removed value)); ("objectsRetired", JNumber (gs_objects_retired value));
   ("edges", JNumber (gs_edges value)); ("edgesUnvalidated", JNumber (gs_edges_unvalidated value));
   ("conflicts", JNumber (gs_conflicts value)); ("claimsFenced", JNumber (gs_claims_fenced value));
   ("claimsPending", JNumber (gs_claims_pending value))].

Definition to_json_authority (value : Authority) : Text :=
  render (begin_object >> (write_authority value) >> end_object).

Definition json_authority (value : Authority) : Json :=
  obj (members_authority value).

Definition to_json_nominal_capability (value : NominalCapability) : Text :=
  render (begin_object >> (write_capability value) >> end_object).

Definition json_nominal_capability (value : NominalCapability) : Json :=
  obj (members_capability value).

Definition to_json_port_capability (value : PortCapability) : Text :=
  render (begin_object >> (write_port_capability value) >> end_object).

Definition json_port_capability (value : PortCapability) : Json :=
  obj (members_port_capability value).

Definition to_json_claim_provenance (value : ClaimProvenance) : Text :=
  render (begin_object >> (write_provenance value) >> end_object).

Definition json_claim_provenance (value : ClaimProvenance) : Json :=
  obj (members_provenance value).

Definition to_json_conflict_note (value : ConflictNote) : Text :=
  render (write_note value).

Definition json_conflict_note (value : ConflictNote) : Json :=
  json_note value.

Definition to_json_attachment_edge (value : AttachmentEdge) : Text :=
  render (write_edge value).

Definition json_attachment_edge (value : AttachmentEdge) : Json :=
  json_edge value.

Definition to_json_port_view (value : PortView) : Text :=
  render (write_port_view value).

Definition to_json_object_side_view (value : ObjectSideView) : Text :=
  render (write_object_side_view value).

Definition to_json_object_view (value : ObjectView) : Text :=
  render (write_object_view value).

Definition to_json_endpoint_view (value : EndpointView) : Text :=
  render (begin_object >> (field_string "endpoint" (id_hex (epv_id value)) >>
   field_string "kind" (to_name (epv_kind value)) >> field_string "name" (epv_name value) >>
   field_string "administrativeLocation" (epv_location value) >> field_number "portCount" (epv_port_count value) >>
   member "defaultPortCapability" (begin_object >> (write_port_capability (epv_default_capability value)) >>
   end_object) >> member "ports" (begin_array >>
   for_each (fun port : PortView => write_port_view port) (epv_ports value) >> end_array)) >> end_object).

Definition json_endpoint_view (value : EndpointView) : Json :=
  obj [("endpoint", jstr (id_hex (epv_id value))); ("kind", jstr (to_name (epv_kind value)));
   ("name", jstr (epv_name value)); ("administrativeLocation", jstr (epv_location value));
   ("portCount", JNumber (epv_port_count value));
   ("defaultPortCapability", obj (members_port_capability (epv_default_capability value)));
   ("ports", JArray ((fun port : PortView => json_port_view port) <$> epv_ports value))].

Definition to_json_topology_view (value : TopologyView) : Text :=
  render (begin_object >> (field_string "registry" (id_hex (tv_registry value)) >>
   field_string "validationPolicy" (to_name (tv_policy value)) >>
   member "summary" (write_raw (to_json_graph_summary (tv_summary value))) >> member "objects" (begin_array >>
   for_each (fun object : ObjectView => write_object_view object) (tv_objects value) >> end_array) >>
   member "endpoints" (begin_array >> for_each (fun endpoint : EndpointView => begin_object >>
   (field_string "endpoint" (id_hex (epv_id endpoint)) >> field_string "kind" (to_name (epv_kind endpoint)) >>
   field_string "name" (epv_name endpoint) >> field_string "administrativeLocation" (epv_location endpoint) >>
   field_number "portCount" (epv_port_count endpoint)) >> end_object) (tv_endpoints value) >> end_array) >>
   member "ports" (begin_array >> for_each (fun port : PortView => write_port_view port) (tv_ports value) >>
   end_array)) >> end_object).

Definition json_topology_view (value : TopologyView) : Json :=
  obj [("registry", jstr (id_hex (tv_registry value))); ("validationPolicy", jstr (to_name (tv_policy value)));
   ("summary", json_graph_summary (tv_summary value));
   ("objects", JArray ((fun object : ObjectView => json_object_view object) <$> tv_objects value));
   ("endpoints", JArray ((fun endpoint : EndpointView => obj [("endpoint", jstr (id_hex (epv_id endpoint)));
   ("kind", jstr (to_name (epv_kind endpoint))); ("name", jstr (epv_name endpoint));
   ("administrativeLocation", jstr (epv_location endpoint));
   ("portCount", JNumber (epv_port_count endpoint))]) <$> tv_endpoints value));
   ("ports", JArray ((fun port : PortView => json_port_view port) <$> tv_ports value))].

Definition to_json_lifecycle_event (value : LifecycleEvent) : Text :=
  render (write_lifecycle_event value).

Definition to_json_object_history (value : ObjectHistory) : Text :=
  render (begin_object >> (field_string "object" (id_hex (oh_object value)) >> member "events" (begin_array >>
   for_each (fun event : LifecycleEvent => write_lifecycle_event event) (oh_events value) >> end_array) >>
   field_number "droppedEvents" (oh_dropped value)) >> end_object).

Definition json_object_history (value : ObjectHistory) : Json :=
  obj [("object", jstr (id_hex (oh_object value)));
   ("events", JArray ((fun event : LifecycleEvent => json_lifecycle_event event) <$> oh_events value));
   ("droppedEvents", JNumber (oh_dropped value))].

Definition to_json_fenced_session_view (value : FencedSessionView) : Text :=
  render (begin_object >> (field_string "source" (id_hex (fs_source value)) >>
   field_number "incarnation" (fs_incarnation value) >> field_number "fencedBy" (fs_fenced_by value) >>
   field_number "claims" (fs_claims value)) >> end_object).

Definition json_fenced_session_view (value : FencedSessionView) : Json :=
  obj [("source", jstr (id_hex (fs_source value))); ("incarnation", JNumber (fs_incarnation value));
   ("fencedBy", JNumber (fs_fenced_by value)); ("claims", JNumber (fs_claims value))].

Definition to_json_fenced_object_view (value : FencedObjectView) : Text :=
  render (begin_object >> (field_string "object" (id_hex (fo_object value)) >>
   field_string "physicalLabel" (fo_label value) >> field_number "currentIncarnation" (fo_current value) >>
   field_number "fencedClaims" (fo_claims value)) >> end_object).

Definition json_fenced_object_view (value : FencedObjectView) : Json :=
  obj [("object", jstr (id_hex (fo_object value))); ("physicalLabel", jstr (fo_label value));
   ("currentIncarnation", JNumber (fo_current value)); ("fencedClaims", JNumber (fo_claims value))].

Definition to_json_pending_reference_view (value : PendingReferenceView) : Text :=
  render (begin_object >> (field_string "evidence" (id_hex (pr_evidence value)) >>
   field_string "kind" (to_name (pr_kind value)) >> field_string "source" (id_hex (pr_source value)) >>
   field_number "incarnation" (pr_incarnation value) >> field_number "generation" (pr_generation value) >>
   field_string "detail" (pr_detail value)) >> end_object).

Definition json_pending_reference_view (value : PendingReferenceView) : Json :=
  obj [("evidence", jstr (id_hex (pr_evidence value))); ("kind", jstr (to_name (pr_kind value)));
   ("source", jstr (id_hex (pr_source value))); ("incarnation", JNumber (pr_incarnation value));
   ("generation", JNumber (pr_generation value)); ("detail", jstr (pr_detail value))].

Definition to_json_refusal_view (value : RefusalView) : Text :=
  render (begin_object >> (field_string "evidence" (id_hex (rv_evidence value)) >>
   field_string "kind" (to_name (rv_kind value)) >> field_string "source" (id_hex (rv_source value)) >>
   field_number "incarnation" (rv_incarnation value) >> field_number "generation" (rv_generation value) >>
   field_string "disposition" (to_name (rv_disposition value)) >> field_string "detail" (rv_detail value)) >>
   end_object).

Definition json_refusal_view (value : RefusalView) : Json :=
  obj [("evidence", jstr (id_hex (rv_evidence value))); ("kind", jstr (to_name (rv_kind value)));
   ("source", jstr (id_hex (rv_source value))); ("incarnation", JNumber (rv_incarnation value));
   ("generation", JNumber (rv_generation value)); ("disposition", jstr (to_name (rv_disposition value)));
   ("detail", jstr (rv_detail value))].

Definition to_json_inspection_view (value : InspectionView) : Text :=
  render (begin_object >> (member "fencedSessions" (begin_array >>
   for_each (fun session : FencedSessionView => begin_object >>
   (field_string "source" (id_hex (fs_source session)) >> field_number "incarnation" (fs_incarnation session) >>
   field_number "fencedBy" (fs_fenced_by session) >> field_number "claims" (fs_claims session)) >>
   end_object) (iv_fenced_sessions value) >> end_array) >> member "fencedObjects" (begin_array >>
   for_each (fun object : FencedObjectView => begin_object >> (field_string "object" (id_hex (fo_object object)) >>
   field_string "physicalLabel" (fo_label object) >> field_number "currentIncarnation" (fo_current object) >>
   field_number "fencedClaims" (fo_claims object)) >> end_object) (iv_fenced_objects value) >> end_array) >>
   member "unvalidatedPorts" (begin_array >>
   for_each (fun port : PortView => write_port_view port) (iv_unvalidated_ports value) >> end_array) >>
   member "pendingReferences" (begin_array >> for_each (fun pending : PendingReferenceView => begin_object >>
   (field_string "evidence" (id_hex (pr_evidence pending)) >> field_string "kind" (to_name (pr_kind pending)) >>
   field_string "source" (id_hex (pr_source pending)) >> field_number "incarnation" (pr_incarnation pending) >>
   field_number "generation" (pr_generation pending) >> field_string "detail" (pr_detail pending)) >>
   end_object) (iv_pending_references value) >> end_array) >> member "refusals" (begin_array >>
   for_each (fun refusal : RefusalView => begin_object >>
   (field_string "evidence" (id_hex (rv_evidence refusal)) >> field_string "kind" (to_name (rv_kind refusal)) >>
   field_string "source" (id_hex (rv_source refusal)) >> field_number "incarnation" (rv_incarnation refusal) >>
   field_number "generation" (rv_generation refusal) >>
   field_string "disposition" (to_name (rv_disposition refusal)) >> field_string "detail" (rv_detail refusal)) >>
   end_object) (iv_refusals value) >> end_array) >>
   member "summary" (write_raw (to_json_graph_summary (iv_summary value)))) >> end_object).

Definition json_inspection_view (value : InspectionView) : Json :=
  obj [("fencedSessions", JArray ((fun session : FencedSessionView => obj [("source", jstr (id_hex (fs_source session)));
   ("incarnation", JNumber (fs_incarnation session)); ("fencedBy", JNumber (fs_fenced_by session));
   ("claims", JNumber (fs_claims session))]) <$> iv_fenced_sessions value));
   ("fencedObjects", JArray ((fun object : FencedObjectView => obj [("object", jstr (id_hex (fo_object object)));
   ("physicalLabel", jstr (fo_label object)); ("currentIncarnation", JNumber (fo_current object));
   ("fencedClaims", JNumber (fo_claims object))]) <$> iv_fenced_objects value));
   ("unvalidatedPorts", JArray ((fun port : PortView => json_port_view port) <$> iv_unvalidated_ports value));
   ("pendingReferences", JArray ((fun pending : PendingReferenceView => obj [("evidence", jstr (id_hex (pr_evidence pending)));
   ("kind", jstr (to_name (pr_kind pending))); ("source", jstr (id_hex (pr_source pending)));
   ("incarnation", JNumber (pr_incarnation pending)); ("generation", JNumber (pr_generation pending));
   ("detail", jstr (pr_detail pending))]) <$> iv_pending_references value));
   ("refusals", JArray ((fun refusal : RefusalView => obj [("evidence", jstr (id_hex (rv_evidence refusal)));
   ("kind", jstr (to_name (rv_kind refusal))); ("source", jstr (id_hex (rv_source refusal)));
   ("incarnation", JNumber (rv_incarnation refusal)); ("generation", JNumber (rv_generation refusal));
   ("disposition", jstr (to_name (rv_disposition refusal)));
   ("detail", jstr (rv_detail refusal))]) <$> iv_refusals value));
   ("summary", json_graph_summary (iv_summary value))].

Definition to_json_ingest_result (value : IngestResult) : Text :=
  render (begin_object >> (field_string "evidence" (id_hex (ir_evidence value)) >>
   field_string "kind" (to_name (ir_kind value)) >> field_string "disposition" (to_name (ir_disposition value)) >>
   field_boolean "accepted" (is_accepted (ir_disposition value)) >>
   field_boolean "effective" (is_effective (ir_disposition value)) >>
   field_number "highWater" (ir_high_water value) >>
   field_text "receivedAt" (to_rfc3339_utc (ir_received_at value)) >> field_string "detail" (ir_detail value)) >>
   end_object).

Definition json_ingest_result (value : IngestResult) : Json :=
  obj [("evidence", jstr (id_hex (ir_evidence value))); ("kind", jstr (to_name (ir_kind value)));
   ("disposition", jstr (to_name (ir_disposition value)));
   ("accepted", JBoolean (is_accepted (ir_disposition value)));
   ("effective", JBoolean (is_effective (ir_disposition value))); ("highWater", JNumber (ir_high_water value));
   ("receivedAt", JString (to_rfc3339_utc (ir_received_at value))); ("detail", jstr (ir_detail value))].

Definition to_json_open_session_result (value : OpenSessionResult) : Text :=
  render (begin_object >> (field_string "disposition" (to_name (os_disposition value)) >>
   field_string "source" (id_hex (key_source (os_key value))) >>
   field_number "incarnation" (key_incarnation (os_key value)) >>
   field_number "previousIncarnation" (os_previous value) >>
   field_number "fencedClaims" (os_fenced_claims value) >> field_string "detail" (os_detail value)) >> end_object).

Definition json_open_session_result (value : OpenSessionResult) : Json :=
  obj [("disposition", jstr (to_name (os_disposition value)));
   ("source", jstr (id_hex (key_source (os_key value))));
   ("incarnation", JNumber (key_incarnation (os_key value))); ("previousIncarnation", JNumber (os_previous value));
   ("fencedClaims", JNumber (os_fenced_claims value)); ("detail", jstr (os_detail value))].

Definition to_json_source_session_view (value : SourceSessionView) : Text :=
  render (begin_object >> (field_string "source" (id_hex (key_source (sw_key value))) >>
   field_number "incarnation" (key_incarnation (sw_key value)) >> field_string "name" (sw_name value) >>
   field_string "authorityClass" (to_name (auth_class (sw_authority value))) >>
   field_number "authorityRank" (auth_rank (sw_authority value)) >> field_boolean "live" (sw_live value) >>
   field_boolean "fenced" (sw_fenced value) >> field_number "fencedBy" (sw_fenced_by value) >>
   field_number "highWater" (sw_high_water value) >> field_text "openedAt" (to_rfc3339_utc (sw_opened_at value)) >>
   field_number "acceptedRecords" (sw_accepted value) >> field_number "refusedRecords" (sw_refused value) >>
   field_number "duplicateRecords" (sw_duplicates value) >>
   field_number "missingGenerations" (sw_missing_generations value)) >> end_object).

Definition json_source_session_view (value : SourceSessionView) : Json :=
  obj [("source", jstr (id_hex (key_source (sw_key value))));
   ("incarnation", JNumber (key_incarnation (sw_key value))); ("name", jstr (sw_name value));
   ("authorityClass", jstr (to_name (auth_class (sw_authority value))));
   ("authorityRank", JNumber (auth_rank (sw_authority value))); ("live", JBoolean (sw_live value));
   ("fenced", JBoolean (sw_fenced value)); ("fencedBy", JNumber (sw_fenced_by value));
   ("highWater", JNumber (sw_high_water value)); ("openedAt", JString (to_rfc3339_utc (sw_opened_at value)));
   ("acceptedRecords", JNumber (sw_accepted value)); ("refusedRecords", JNumber (sw_refused value));
   ("duplicateRecords", JNumber (sw_duplicates value));
   ("missingGenerations", JNumber (sw_missing_generations value))].

Definition to_json_registry_stats (value : RegistryStats) : Text :=
  render (begin_object >> (field_string "registry" (id_hex (st_registry value)) >>
   field_text "openedAt" (to_rfc3339_utc (st_opened_at value)) >> field_number "objects" (st_objects value) >>
   field_number "endpoints" (st_endpoints value) >> field_number "ports" (st_ports value) >>
   field_number "sources" (st_sources value) >> field_number "sessions" (st_sessions value) >>
   field_number "liveSessions" (st_live_sessions value) >> field_number "claimRecords" (st_claim_records value) >>
   field_number "portRecords" (st_port_records value) >>
   field_number "lifecycleRecords" (st_lifecycle_records value) >>
   field_number "capabilityRecords" (st_capability_records value) >>
   field_number "evidenceAccepted" (st_evidence_accepted value) >>
   field_number "evidenceRefused" (st_evidence_refused value) >>
   field_number "evidenceDuplicate" (st_evidence_duplicate value) >>
   field_number "evidenceSuperseded" (st_evidence_superseded value) >>
   field_number "evidenceFenced" (st_evidence_fenced value) >>
   field_number "evidencePending" (st_evidence_pending value) >>
   field_number "storeRecords" (st_store_records value) >> field_number "storeBytes" (st_store_bytes value) >>
   field_number "storeRewrites" (st_store_rewrites value) >> member "recovery" (begin_object >>
   (field_boolean "opened" (rr_opened (st_recovery value)) >>
   field_boolean "created" (rr_created (st_recovery value)) >>
   field_boolean "salvaged" (rr_salvaged (st_recovery value)) >>
   field_boolean "chainIntact" (rr_chain_intact (st_recovery value)) >>
   field_number "formatVersion" (rr_format_version (st_recovery value)) >>
   field_number "recordsLoaded" (rr_records_loaded (st_recovery value)) >>
   field_number "recordsRejected" (rr_records_rejected (st_recovery value)) >>
   field_number "bytesLoaded" (rr_bytes_loaded (st_recovery value)) >>
   field_number "bytesDiscarded" (rr_bytes_discarded (st_recovery value)) >>
   field_string "issue" (to_name (rr_issue (st_recovery value))) >>
   field_number "issueOffset" (rr_issue_offset (st_recovery value)) >>
   field_string "detail" (rr_detail (st_recovery value))) >> end_object)) >> end_object).

Definition json_registry_stats (value : RegistryStats) : Json :=
  obj [("registry", jstr (id_hex (st_registry value)));
   ("openedAt", JString (to_rfc3339_utc (st_opened_at value))); ("objects", JNumber (st_objects value));
   ("endpoints", JNumber (st_endpoints value)); ("ports", JNumber (st_ports value));
   ("sources", JNumber (st_sources value)); ("sessions", JNumber (st_sessions value));
   ("liveSessions", JNumber (st_live_sessions value)); ("claimRecords", JNumber (st_claim_records value));
   ("portRecords", JNumber (st_port_records value)); ("lifecycleRecords", JNumber (st_lifecycle_records value));
   ("capabilityRecords", JNumber (st_capability_records value));
   ("evidenceAccepted", JNumber (st_evidence_accepted value));
   ("evidenceRefused", JNumber (st_evidence_refused value));
   ("evidenceDuplicate", JNumber (st_evidence_duplicate value));
   ("evidenceSuperseded", JNumber (st_evidence_superseded value));
   ("evidenceFenced", JNumber (st_evidence_fenced value));
   ("evidencePending", JNumber (st_evidence_pending value)); ("storeRecords", JNumber (st_store_records value));
   ("storeBytes", JNumber (st_store_bytes value)); ("storeRewrites", JNumber (st_store_rewrites value));
   ("recovery", obj [("opened", JBoolean (rr_opened (st_recovery value)));
   ("created", JBoolean (rr_created (st_recovery value)));
   ("salvaged", JBoolean (rr_salvaged (st_recovery value)));
   ("chainIntact", JBoolean (rr_chain_intact (st_recovery value)));
   ("formatVersion", JNumber (rr_format_version (st_recovery value)));
   ("recordsLoaded", JNumber (rr_records_loaded (st_recovery value)));
   ("recordsRejected", JNumber (rr_records_rejected (st_recovery value)));
   ("bytesLoaded", JNumber (rr_bytes_loaded (st_recovery value)));
   ("bytesDiscarded", JNumber (rr_bytes_discarded (st_recovery value)));
   ("issue", jstr (to_name (rr_issue (st_recovery value))));
   ("issueOffset", JNumber (rr_issue_offset (st_recovery value)));
   ("detail", jstr (rr_detail (st_recovery value)))])].

Definition to_json_recovery_report (value : RecoveryReport) : Text :=
  render (begin_object >> (field_boolean "opened" (rr_opened value) >>
   field_boolean "created" (rr_created value) >> field_boolean "salvaged" (rr_salvaged value) >>
   field_boolean "chainIntact" (rr_chain_intact value) >> field_number "formatVersion" (rr_format_version value) >>
   field_number "recordsLoaded" (rr_records_loaded value) >>
   field_number "recordsRejected" (rr_records_rejected value) >>
   field_number "bytesLoaded" (rr_bytes_loaded value) >>
   field_number "bytesDiscarded" (rr_bytes_discarded value) >> field_string "issue" (to_name (rr_issue value)) >>
   field_number "issueOffset" (rr_issue_offset value) >> field_string "detail" (rr_detail value)) >> end_object).

Definition json_recovery_report (value : RecoveryReport) : Json :=
  obj [("opened", JBoolean (rr_opened value)); ("created", JBoolean (rr_created value));
   ("salvaged", JBoolean (rr_salvaged value)); ("chainIntact", JBoolean (rr_chain_intact value));
   ("formatVersion", JNumber (rr_format_version value)); ("recordsLoaded", JNumber (rr_records_loaded value));
   ("recordsRejected", JNumber (rr_records_rejected value)); ("bytesLoaded", JNumber (rr_bytes_loaded value));
   ("bytesDiscarded", JNumber (rr_bytes_discarded value)); ("issue", jstr (to_name (rr_issue value)));
   ("issueOffset", JNumber (rr_issue_offset value)); ("detail", jstr (rr_detail value))].

Definition to_json_topology_snapshot (value : TopologySnapshot) : Text :=
  render (begin_object >> (field_number "formatVersion" (sn_format_version value) >>
   field_string "registry" (id_hex (sn_registry value)) >>
   field_string "provenanceDigest" (digest_hex (sn_provenance_digest value)) >>
   field_string "digest" (digest_hex (snapshot_digest value)) >>
   field_string "graphDigest" (digest_hex (graph_digest value)) >>
   member "summary" (write_raw (to_json_graph_summary (sn_summary value))) >> member "objects" (begin_array >>
   for_each (fun object : SnapshotObject => begin_object >> (field_string "object" (id_hex (sno_id object)) >>
   field_string "kind" (to_name (sno_kind object)) >> field_string "physicalLabel" (sno_label object) >>
   field_string "serialLike" (sno_serial object) >> field_string "administrativeLocation" (sno_location object) >>
   field_number "incarnation" (sno_incarnation object) >>
   field_string "lifecycle" (to_name (sno_lifecycle object)) >> member "capability" (begin_object >>
   (write_capability (sno_capability object)) >> end_object) >> member "sides" (begin_array >>
   for_each (fun side : ObjectSideDescriptor => begin_object >>
   (field_string "connector" (to_name (sd_connector side)) >> field_string "media" (to_name (sd_media side)) >>
   field_number "lanes" (sd_lanes side)) >> end_object) (sno_sides object) >> end_array) >>
   member "attachments" (begin_array >>
   for_each (fun attachment : SnapshotAttachment => write_snapshot_attachment attachment) (sno_attachments object) >>
   end_array)) >> end_object) (sn_objects value) >> end_array) >> member "endpoints" (begin_array >>
   for_each (fun endpoint : SnapshotEndpoint => begin_object >>
   (field_string "endpoint" (id_hex (sne_id endpoint)) >> field_string "kind" (to_name (sne_kind endpoint)) >>
   field_string "name" (sne_name endpoint) >> field_string "administrativeLocation" (sne_location endpoint) >>
   field_number "portCount" (sne_port_count endpoint) >> member "defaultPortCapability" (begin_object >>
   (write_port_capability (sne_capability endpoint)) >> end_object)) >> end_object) (sn_endpoints value) >>
   end_array) >> member "ports" (begin_array >> for_each (fun port : SnapshotPort => begin_object >>
   (field_string "endpoint" (id_hex (port_endpoint (snp_port port))) >>
   field_number "port" (port_index (snp_port port)) >> field_string "state" (to_name (snp_state port)) >>
   member "capability" (begin_object >> (write_port_capability (snp_capability port)) >> end_object) >>
   member "attachments" (begin_array >>
   for_each (fun attachment : SnapshotAttachment => write_snapshot_attachment attachment) (snp_attachments port) >>
   end_array) >> member "conflicts" (begin_array >> for_each (fun conflict : SnapshotConflict => begin_object >>
   (field_string "reason" (to_name (snx_reason conflict)) >>
   field_string "object" (id_hex (side_object (snx_subject conflict))) >>
   field_number "side" (side_index (snx_subject conflict)) >>
   field_string "endpoint" (id_hex (port_endpoint (snx_port conflict))) >>
   field_number "port" (port_index (snx_port conflict)) >> member "claims" (begin_array >>
   for_each (fun claim : SnapshotClaim => write_snapshot_claim claim) (snx_claims conflict) >> end_array)) >>
   end_object) (snp_conflicts port) >> end_array)) >> end_object) (sn_ports value) >> end_array) >>
   member "fencedSessions" (begin_array >> for_each (fun session : SnapshotFencedSession => begin_object >>
   (field_string "source" (id_hex (snf_source session)) >> field_number "incarnation" (snf_incarnation session) >>
   field_number "fencedBy" (snf_fenced_by session) >> field_number "claims" (snf_claims session)) >>
   end_object) (sn_fenced_sessions value) >> end_array) >> member "fencedObjects" (begin_array >>
   for_each (fun object : SnapshotFencedObject => begin_object >>
   (field_string "object" (id_hex (sfo_object object)) >>
   field_number "currentIncarnation" (sfo_incarnation object) >>
   field_number "fencedClaims" (sfo_claims object)) >> end_object) (sn_fenced_objects value) >> end_array)) >>
   end_object).

Definition json_topology_snapshot (value : TopologySnapshot) : Json :=
  obj [("formatVersion", JNumber (sn_format_version value)); ("registry", jstr (id_hex (sn_registry value)));
   ("provenanceDigest", jstr (digest_hex (sn_provenance_digest value)));
   ("digest", jstr (digest_hex (snapshot_digest value))); ("graphDigest", jstr (digest_hex (graph_digest value)));
   ("summary", json_graph_summary (sn_summary value));
   ("objects", JArray ((fun object : SnapshotObject => obj [("object", jstr (id_hex (sno_id object)));
   ("kind", jstr (to_name (sno_kind object))); ("physicalLabel", jstr (sno_label object));
   ("serialLike", jstr (sno_serial object)); ("administrativeLocation", jstr (sno_location object));
   ("incarnation", JNumber (sno_incarnation object)); ("lifecycle", jstr (to_name (sno_lifecycle object)));
   ("capability", obj (members_capability (sno_capability object)));
   ("sides", JArray ((fun side : ObjectSideDescriptor => obj [("connector", jstr (to_name (sd_connector side)));
   ("media", jstr (to_name (sd_media side))); ("lanes", JNumber (sd_lanes side))]) <$> sno_sides object));
   ("attachments", JArray ((fun attachment : SnapshotAttachment => json_snapshot_attachment attachment) <$> sno_attachments object))]) <$> sn_objects value));
   ("endpoints", JArray ((fun endpoint : SnapshotEndpoint => obj [("endpoint", jstr (id_hex (sne_id endpoint)));
   ("kind", jstr (to_name (sne_kind endpoint))); ("name", jstr (sne_name endpoint));
   ("administrativeLocation", jstr (sne_location endpoint)); ("portCount", JNumber (sne_port_count endpoint));
   ("defaultPortCapability", obj (members_port_capability (sne_capability endpoint)))]) <$> sn_endpoints value));
   ("ports", JArray ((fun port : SnapshotPort => obj [("endpoint", jstr (id_hex (port_endpoint (snp_port port))));
   ("port", JNumber (port_index (snp_port port))); ("state", jstr (to_name (snp_state port)));
   ("capability", obj (members_port_capability (snp_capability port)));
   ("attachments", JArray ((fun attachment : SnapshotAttachment => json_snapshot_attachment attachment) <$> snp_attachments port));
   ("conflicts", JArray ((fun conflict : SnapshotConflict => obj [("reason", jstr (to_name (snx_reason conflict)));
   ("object", jstr (id_hex (side_object (snx_subject conflict))));
   ("side", JNumber (side_index (snx_subject conflict)));
   ("endpoint", jstr (id_hex (port_endpoint (snx_port conflict))));
   ("port", JNumber (port_index (snx_port conflict)));
   ("claims", JArray ((fun claim : SnapshotClaim => json_snapshot_claim claim) <$> snx_claims conflict))]) <$> snp_conflicts port))]) <$> sn_ports value));
   ("fencedSessions", JArray ((fun session : SnapshotFencedSession => obj [("source", jstr (id_hex (snf_source session)));
   ("incarnation", JNumber (snf_incarnation session)); ("fencedBy", JNumber (snf_fenced_by session));
   ("claims", JNumber (snf_claims session))]) <$> sn_fenced_sessions value));
   ("fencedObjects", JArray ((fun object : SnapshotFencedObject => obj [("object", jstr (id_hex (sfo_object object)));
   ("currentIncarnation", JNumber (sfo_incarnation object));
   ("fencedClaims", JNumber (sfo_claims object))]) <$> sn_fenced_objects value))].

Definition to_json_snapshot_envelope (value : SnapshotEnvelope) : Text :=
  render (begin_object >> (field_text "generatedAt" (to_rfc3339_utc (en_generated_at value)) >>
   field_string "digest" (digest_hex (en_digest value)) >> member "validation" (begin_object >>
   (field_number "claimsLive" (vs_claims_live (en_validation value)) >>
   field_number "claimsRecovered" (vs_claims_recovered (en_validation value)) >>
   field_number "portsValidated" (vs_ports_validated (en_validation value)) >>
   field_number "portsPartiallyValidated" (vs_ports_partially_validated (en_validation value)) >>
   field_number "portsUnvalidated" (vs_ports_unvalidated (en_validation value))) >> end_object) >>
   member "snapshot" (write_raw (to_json_topology_snapshot (en_snapshot value)))) >> end_object).

Definition json_snapshot_envelope (value : SnapshotEnvelope) : Json :=
  obj [("generatedAt", JString (to_rfc3339_utc (en_generated_at value)));
   ("digest", jstr (digest_hex (en_digest value)));
   ("validation", obj [("claimsLive", JNumber (vs_claims_live (en_validation value)));
   ("claimsRecovered", JNumber (vs_claims_recovered (en_validation value)));
   ("portsValidated", JNumber (vs_ports_validated (en_validation value)));
   ("portsPartiallyValidated", JNumber (vs_ports_partially_validated (en_validation value)));
   ("portsUnvalidated", JNumber (vs_ports_unvalidated (en_validation value)))]);
   ("snapshot", json_topology_snapshot (en_snapshot value))].

Definition to_json_error (value : Error) : Text :=
  render (begin_object >> (field_string "code" (to_name (err_code value)) >>
   field_string "message" (err_message value)) >> end_object).

Definition json_error (value : Error) : Json :=
  obj [("code", jstr (to_name (err_code value))); ("message", jstr (err_message value))].
