(* ===== verification/RenderReads.v ===== *)
(** * Renderings read back

    Whatever a view holds, the text [to_json] makes of it is JSON, and a reader
    finds in it every field of the view with its value, in order. *)
From S2P Require Import Prelude OrdMap Types Ids Graph State Session Snapshot SnapshotBuild Text Time Names Json Render.
From Stdlib Require Import (notations) Ascii.
#[local] Open Scope string_scope.
#[local] Open Scope json_scope.

(** ** Steps of a renderer *)

(** [f] writes the members [ms] of an object, in order. *)
Definition shows (f : JsonWriter -> JsonWriter) (ms : list (string * Json)) : Prop :=
  fills open_members f (prod_map chars id <$> ms).

Lemma shows_cons f g m ms : shows f [m] -> shows g ms -> shows (f >> g) (m :: ms).
Proof. apply (fills_app open_members f g [_]). Qed.

Lemma shows_member name f j : writes f j -> shows (member name f) [(name, j)].
Proof. apply fills_key. Qed.

Lemma shows_text name t : shows (field_text name t) [(name, JString t)].
Proof. apply (fills_key (write_string t)), writes_json_string. Qed.

Lemma shows_string name s : shows (field_string name s) [(name, jstr s)].
Proof. apply shows_text. Qed.

Lemma shows_number name n : shows (field_number name n) [(name, JNumber n)].
Proof. apply (fills_key (write_number n)), writes_number. Qed.

Lemma shows_boolean name b : shows (field_boolean name b) [(name, JBoolean b)].
Proof. apply (fills_key (write_boolean b)), writes_boolean. Qed.

Lemma writes_obj f ms : shows f ms -> writes (begin_object >> f >> end_object) (obj ms).
Proof. apply writes_object. Qed.

Lemma writes_list {A} (f : A -> JsonWriter -> JsonWriter) (h : A -> Json) l :
  (forall x, writes (f x) (h x)) -> writes (begin_array >> for_each f l >> end_array) (JArray (h <$> l)).
Proof. intros Hf. apply writes_array, fills_each. intros x. apply fills_element, Hf. Qed.

Create HintDb json discriminated.

(** Takes a renderer apart along its structure; the renderers it calls are known
    by their lemmas in [json]. *)
Ltac js_step :=
  lazymatch goal with
  | |- shows (field_string _ _) _ => simple apply shows_string
  | |- shows (field_text _ _) _ => simple apply shows_text
  | |- shows (field_number _ _) _ => simple apply shows_number
  | |- shows (field_boolean _ _) _ => simple apply shows_boolean
  | |- shows (member _ _) _ => simple apply shows_member
  | |- shows (_ >> _) _ => simple apply shows_cons
  | |- writes (begin_object >> _ >> end_object) _ => simple apply writes_obj
  | |- writes (begin_array >> for_each _ _ >> end_array) _ => simple apply writes_list; intros ?; cbv beta
  | |- writes (write_raw _) _ => simple apply writes_raw
  | |- _ => solve [auto with json nocore]
  end.
Ltac js := repeat js_step.

Lemma shows_authority value :
  shows (write_authority value) (members_authority value).
Proof. unfold write_authority, members_authority. js. Qed.
#[export] Hint Resolve shows_authority : json.

Lemma shows_capability value :
  shows (write_capability value) (members_capability value).
Proof. unfold write_capability, members_capability. js. Qed.
#[export] Hint Resolve shows_capability : json.

Lemma shows_port_capability value :
  shows (write_port_capability value) (members_port_capability value).
Proof. unfold write_port_capability, members_port_capability. js. Qed.
#[export] Hint Resolve shows_port_capability : json.

Lemma shows_provenance value :
  shows (write_provenance value) (members_provenance value).
Proof. unfold write_provenance, members_provenance. js. Qed.
#[export] Hint Resolve shows_provenance : json.

Lemma shows_claim_array name claims :
  shows (write_claim_array name claims) [(name, JArray (json_provenance <$> claims))].
Proof. unfold write_claim_array, json_provenance. js. Qed.
#[export] Hint Resolve shows_claim_array : json.

Lemma writes_note value : writes (write_note value) (json_note value).
Proof. unfold write_note, json_note. js. Qed.
#[export] Hint Resolve writes_note : json.

Lemma shows_note_array name values :
  shows (write_note_array name values) [(name, JArray (json_note <$> values))].
Proof. unfold write_note_array. js. Qed.
#[export] Hint Resolve shows_note_array : json.

Lemma writes_edge value : writes (write_edge value) (json_edge value).
Proof. unfold write_edge, json_edge. js. Qed.
#[export] Hint Resolve writes_edge : json.

Lemma shows_edge_array name values :
  shows (write_edge_array name values) [(name, JArray (json_edge <$> values))].
Proof. unfold write_edge_array. js. Qed.
#[export] Hint Resolve shows_edge_array : json.

Lemma writes_port_view value : writes (write_port_view value) (json_port_view value).
Proof. unfold write_port_view, json_port_view. js. Qed.
#[export] Hint Resolve writes_port_view : json.

Lemma writes_object_side_view value : writes (write_object_side_view value) (json_object_side_view value).
Proof. unfold write_object_side_view, json_object_side_view. js. Qed.
#[export] Hint Resolve writes_object_side_view : json.

Lemma writes_lifecycle_event value : writes (write_lifecycle_event value) (json_lifecycle_event value).
Proof. unfold write_lifecycle_event, json_lifecycle_event. js. Qed.
#[export] Hint Resolve writes_lifecycle_event : json.

Lemma writes_object_view value : writes (write_object_view value) (json_object_view value).
Proof. unfold write_object_view, json_object_view. js. Qed.
#[export] Hint Resolve writes_object_view : json.

Lemma writes_snapshot_claim value : writes (write_snapshot_claim value) (json_snapshot_claim value).
Proof. unfold write_snapshot_claim, json_snapshot_claim. js. Qed.
#[export] Hint Resolve writes_snapshot_claim : json.

Lemma writes_snapshot_attachment value : writes (write_snapshot_attachment value) (json_snapshot_attachment value).
Proof. unfold write_snapshot_attachment, json_snapshot_attachment. js. Qed.
#[export] Hint Resolve writes_snapshot_attachment : json.

(** ** Every overload of [to_json] *)

Lemma reads_graph_summary value : reads (to_json_graph_summary value) (json_graph_summary value).
Proof. apply writes_document. unfold json_graph_summary. js. Qed.
#[export] Hint Resolve reads_graph_summary : json.

Lemma reads_authority value : reads (to_json_authority value) (json_authority value).
Proof. apply writes_document. unfold json_authority. js. Qed.
#[export] Hint Resolve reads_authority : json.

Lemma reads_nominal_capability value : reads (to_json_nominal_capability value) (json_nominal_capability value).
Proof. apply writes_document. unfold json_nominal_capability. js. Qed.
#[export] Hint Resolve reads_nominal_capability : json.

Lemma reads_port_capability value : reads (to_json_port_capability value) (json_port_capability value).
Proof. apply writes_document. unfold json_port_capability. js. Qed.
#[export] Hint Resolve reads_port_capability : json.

Lemma reads_claim_provenance value : reads (to_json_claim_provenance value) (json_claim_provenance value).
Proof. apply writes_document. unfold json_claim_provenance. js. Qed.
#[export] Hint Resolve reads_claim_provenance : json.

Lemma reads_conflict_note value : reads (to_json_conflict_note value) (json_conflict_note value).
Proof. apply writes_document. unfold json_conflict_note. js. Qed.
#[export] Hint Resolve reads_conflict_note : json.

Lemma reads_attachment_edge value : reads (to_json_attachment_edge value) (json_attachment_edge value).
Proof. apply writes_document. unfold json_attachment_edge. js. Qed.
#[export] Hint Resolve reads_attachment_edge : json.

Lemma reads_port_view value : reads (to_json_port_view value) (json_port_view value).
Proof. apply writes_document. unfold json_port_view. js. Qed.
#[export] Hint Resolve reads_port_view : json.

Lemma reads_object_side_view value : reads (to_json_object_side_view value) (json_object_side_view value).
Proof. apply writes_document. unfold json_object_side_view. js. Qed.
#[export] Hint Resolve reads_object_side_view : json.

Lemma reads_object_view value : reads (to_json_object_view value) (json_object_view value).
Proof. apply writes_document. unfold json_object_view. js. Qed.
#[export] Hint Resolve reads_object_view : json.

Lemma reads_endpoint_view value : reads (to_json_endpoint_view value) (json_endpoint_view value).
Proof. apply writes_document. unfold json_endpoint_view. js. Qed.
#[export] Hint Resolve reads_endpoint_view : json.

Lemma reads_topology_view value : reads (to_json_topology_view value) (json_topology_view value).
Proof. apply writes_document. unfold json_topology_view. js. Qed.
#[export] Hint Resolve reads_topology_view : json.

Lemma reads_lifecycle_event value : reads (to_json_lifecycle_event value) (json_lifecycle_event value).
Proof. apply writes_document. unfold json_lifecycle_event. js. Qed.
#[export] Hint Resolve reads_lifecycle_event : json.

Lemma reads_object_history value : reads (to_json_object_history value) (json_object_history value).
Proof. apply writes_document. unfold json_object_history. js. Qed.
#[export] Hint Resolve reads_object_history : json.

Lemma reads_fenced_session_view value : reads (to_json_fenced_session_view value) (json_fenced_session_view value).
Proof. apply writes_document. unfold json_fenced_session_view. js. Qed.
#[export] Hint Resolve reads_fenced_session_view : json.

Lemma reads_fenced_object_view value : reads (to_json_fenced_object_view value) (json_fenced_object_view value).
Proof. apply writes_document. unfold json_fenced_object_view. js. Qed.
#[export] Hint Resolve reads_fenced_object_view : json.

Lemma reads_pending_reference_view value : reads (to_json_pending_reference_view value) (json_pending_reference_view value).
Proof. apply writes_document. unfold json_pending_reference_view. js. Qed.
#[export] Hint Resolve reads_pending_reference_view : json.

Lemma reads_refusal_view value : reads (to_json_refusal_view value) (json_refusal_view value).
Proof. apply writes_document. unfold json_refusal_view. js. Qed.
#[export] Hint Resolve reads_refusal_view : json.

Lemma reads_inspection_view value : reads (to_json_inspection_view value) (json_inspection_view value).
Proof. apply writes_document. unfold json_inspection_view. js. Qed.
#[export] Hint Resolve reads_inspection_view : json.

Lemma reads_ingest_result value : reads (to_json_ingest_result value) (json_ingest_result value).
Proof. apply writes_document. unfold json_ingest_result. js. Qed.
#[export] Hint Resolve reads_ingest_result : json.

Lemma reads_open_session_result value : reads (to_json_open_session_result value) (json_open_session_result value).
Proof. apply writes_document. unfold json_open_session_result. js. Qed.
#[export] Hint Resolve reads_open_session_result : json.

Lemma reads_source_session_view value : reads (to_json_source_session_view value) (json_source_session_view value).
Proof. apply writes_document. unfold json_source_session_view. js. Qed.
#[export] Hint Resolve reads_source_session_view : json.

Lemma reads_registry_stats value : reads (to_json_registry_stats value) (json_registry_stats value).
Proof. apply writes_document. unfold json_registry_stats. js. Qed.
#[export] Hint Resolve reads_registry_stats : json.

Lemma reads_recovery_report value : reads (to_json_recovery_report value) (json_recovery_report value).
Proof. apply writes_document. unfold json_recovery_report. js. Qed.
#[export] Hint Resolve reads_recovery_report : json.

Lemma reads_topology_snapshot value : reads (to_json_topology_snapshot value) (json_topology_snapshot value).
Proof. apply writes_document. unfold json_topology_snapshot. js. Qed.
#[export] Hint Resolve reads_topology_snapshot : json.

Lemma reads_snapshot_envelope value : reads (to_json_snapshot_envelope value) (json_snapshot_envelope value).
Proof. apply writes_document. unfold json_snapshot_envelope. js. Qed.
#[export] Hint Resolve reads_snapshot_envelope : json.

Lemma reads_error value : reads (to_json_error value) (json_error value).
Proof. apply writes_document. unfold json_error. js. Qed.
#[export] Hint Resolve reads_error : json.

(** Digits are written as they are. *)
Lemma escape_digits digits : Forall (fun c => exists n, c = hex_digit n) digits -> digits ≫= escape = digits.
Proof.
  induction 1 as [|c digits [n ->] _ IH]; [done|]. change (escape (hex_digit n) ++ (digits ≫= escape) = hex_digit n :: digits)%list.
  rewrite IH. assert (E : escape (hex_digit n) = [hex_digit n]); [|by rewrite E].
  unfold hex_digit. destruct (kHexDigits !! Z.to_nat n) as [c|] eqn:Ec; [|done]. cbn [default from_option id].
  apply list_elem_of_lookup_2 in Ec. unfold kHexDigits in Ec. rewrite !elem_of_cons, elem_of_nil in Ec. destruct_or! Ec; subst; done.
Qed.

Lemma reads_digits (digits : Text) :
  Forall (fun c => exists n, c = hex_digit n) digits -> reads ([quote] ++ digits ++ [quote]) (JString digits).
Proof. intros Hd. pose proof (reads_string digits) as Hr. unfold write_escaped in Hr. by rewrite (escape_digits digits Hd) in Hr. Qed.

Lemma reads_id value : reads (to_json_id value) (jstr (to_hex value)).
Proof.
  unfold to_json_id, jstr, to_hex, chars. rewrite String.list_ascii_of_string_of_list_ascii. apply reads_digits.
  unfold to_hex_chars. apply Forall_fmap, Forall_forall. intros i _. by eexists.
Qed.

Lemma reads_digest value : reads (to_json_digest value) (jstr (digest_hex value)).
Proof.
  unfold to_json_digest, jstr, digest_hex, chars. rewrite String.list_ascii_of_string_of_list_ascii. apply reads_digits.
  apply Forall_forall. intros c Hc. apply list_elem_of_bind in Hc as (b & Hc & _). rewrite !elem_of_cons, elem_of_nil in Hc.
  destruct_or! Hc; subst; try done; by eexists.
Qed.
#[export] Hint Resolve reads_id reads_digest : json.

(** A text that [read_json] understands. *)
Definition renders {A} (render : A -> Text) (value_of : A -> Json) : Prop :=
  forall value, read_json (render value) = Some (value_of value).

