(* ===== verification/Server.v ===== *)
(** * The server ([src/ipc/server.cpp])

    [dispatch] answers one request from the registry; [serve_connection] reads
    frames from a connection and writes the replies.  A connection is the bytes
    its peer sends until it closes, and the bytes sent back. *)
From S2P Require Import Prelude OrdMap Types Ids Graph Codec Serialization State StateCodec Fold Derive Log Digest Words Admit Ingest Session Views Snapshot SnapshotCodec SnapshotBuild ViewCodec Protocol Socket.
#[local] Open Scope string_scope.
#[local] Open Scope Z_scope.

Record ServerOptions := mkServerOptions {
  so_bind_address : string;
  so_port : Z;
  so_max_connections : Z;
  so_listen_backlog : Z;
  so_limits : Limits;
  so_allow_shutdown : bool;
}.

Record ServerStats := mkServerStats {
  ss_connections_accepted : Z;
  ss_connections_rejected : Z;
  ss_requests_served : Z;
  ss_protocol_failures : Z;
  ss_frames_rejected : Z;
}.

Definition no_stats : ServerStats := mkServerStats 0 0 0 0 0.

(** What [Server::Start] asks of its options before it opens a socket. *)
Definition check_options (options : ServerOptions) : Outcome unit :=
  match validate_limits (so_limits options) with
  | inr error => inr error
  | inl _ =>
      if (so_max_connections options =? 0) || (so_listen_backlog options =? 0) then
        inr (mkError ErrorCode.InvalidArgument "max_connections and listen_backlog must both be greater than zero")
      else inl tt
  end.

Section server.
Context {S : Type} `{AppendLog S, StoreCounters S}.
Implicit Types impl : Impl S.

(** A reply: its type, its payload, and the registry afterwards. *)
Definition Reply : Type := MessageType.t * list Z * Impl S.

(** The lambda [fail] of [dispatch]. *)
Definition fail_with (options : ServerOptions) (error : Error) impl : Reply :=
  (MessageType.Failure, payload_of (encode_failure (so_limits options) error), impl).

Definition malformed (what : string) : Error :=
  mkError ErrorCode.ProtocolViolation ("the " +:+ what +:+ " request is malformed").

(** A query that does not change the registry: the error, or the encoded view. *)
Definition answer {A} (options : ServerOptions) (type : MessageType.t) (encode : A -> Enc) (outcome : Outcome A) impl
    : Reply :=
  match outcome with
  | inr error => fail_with options error impl
  | inl view => (type, payload_of (encode view), impl)
  end.

(** [now i] is the [i]-th reading of the clock while the request is handled. *)
Definition dispatch (options : ServerOptions) (now : nat -> Z) (request : Frame) impl : Reply :=
  let limits := so_limits options in
  let state := im_state impl in
  let fail error := fail_with options error impl in
  match fr_type request with
  | MessageType.Hello =>
      (MessageType.HelloAck,
       payload_of (encode_hello limits
         (mkHello kProtocolVersion version_number (rs_id state) (max_frame_payload_bytes limits)
            (so_allow_shutdown options) ("cable-registry/" +:+ version_string))), impl)
  | MessageType.OpenSession =>
      match decode_all (decode_open_session_request limits) (fr_payload request) with
      | None => fail (malformed "open-session")
      | Some (descriptor, incarnation) =>
          let '(result, impl) := open_session descriptor incarnation (now 0%nat) (now 1%nat) impl in
          (MessageType.OpenSessionAck, payload_of (encode_open_session_result limits result), impl)
      end
  | MessageType.CloseSession =>
      match decode_all decode_source_key (fr_payload request) with
      | None => fail (malformed "close-session")
      | Some key =>
          match close_session key impl with
          | (inr error, impl) => fail_with options error impl
          | (inl _, impl) => (MessageType.CloseSessionAck, [], impl)
          end
      end
  | MessageType.Publish =>
      match decode_evidence_bytes (fr_payload request) limits with
      | inr error => fail error
      | inl evidence =>
          let '(result, impl) := registry_ingest (now 0%nat) evidence impl in
          (MessageType.PublishAck, payload_of (encode_ingest_result limits result), impl)
      end
  | MessageType.PublishBatch =>
      match decode_all (decode_publish_batch_request limits) (fr_payload request) with
      | None => fail (malformed "publish-batch")
      | Some batch =>
          let '(results, impl) := registry_ingest_batch now batch impl in
          (MessageType.PublishBatchAck, payload_of (encode_ingest_results limits results), impl)
      end
  | MessageType.QueryPort =>
      match decode_all decode_port_query (fr_payload request) with
      | None => fail (malformed "query-port")
      | Some (port, policy) =>
          answer options MessageType.QueryPortAck (encode_port_view limits)
            (query_port state (im_limits impl) port policy) impl
      end
  | MessageType.QueryEndpoint =>
      match decode_all decode_endpoint_query (fr_payload request) with
      | None => fail (malformed "query-endpoint")
      | Some (endpoint, include_ports, policy) =>
          answer options MessageType.QueryEndpointAck (encode_endpoint_view limits)
            (query_endpoint state (im_limits impl) endpoint include_ports policy) impl
      end
  | MessageType.QueryObject =>
      match decode_all decode_object_query (fr_payload request) with
      | None => fail (malformed "query-object")
      | Some (object, query_options) =>
          answer options MessageType.QueryObjectAck (encode_object_view limits)
            (query_object state (im_limits impl) object query_options) impl
      end
  | MessageType.QueryHistory =>
      match decode_all decode_history_query (fr_payload request) with
      | None => fail (malformed "query-history")
      | Some (object, max_events) =>
          answer options MessageType.QueryHistoryAck (encode_object_history limits)
            (query_history state (im_limits impl) object max_events) impl
      end
  | MessageType.Inspect =>
      match decode_all decode_inspect_query (fr_payload request) with
      | None => fail (malformed "inspect")
      | Some max_entries =>
          (MessageType.InspectAck,
           payload_of (encode_inspection_view limits (inspect state (im_limits impl) (im_refusals impl) max_entries)), impl)
      end
  | MessageType.Snapshot =>
      let response := payload_of (encode_topology_snapshot limits (build_snapshot state (im_limits impl))) in
      if max_frame_payload_bytes limits <? zlen response + kFrameHeaderBytes then
        fail (mkError ErrorCode.CapacityExceeded
                ("the snapshot does not fit in one frame; query a smaller part of the graph or "
                 +:+ "raise the payload limit"))
      else (MessageType.SnapshotAck, response, impl)
  | MessageType.Digest =>
      (MessageType.DigestAck, payload_of (encode_digest (graph_digest (build_snapshot state (im_limits impl)))), impl)
  | MessageType.Stats =>
      (MessageType.StatsAck,
       payload_of (encode_registry_stats limits (build_stats state (im_recovery impl) (im_store impl))), impl)
  | MessageType.Shutdown =>
      if negb (so_allow_shutdown options) then
        fail (mkError ErrorCode.PermissionDenied "remote shutdown is disabled on this server")
      else (MessageType.ShutdownAck, [], impl)
  | type =>
      fail (mkError ErrorCode.ProtocolViolation ("message type " +:+ MessageType.name type +:+ " is not a request"))
  end.

(** ** One connection *)

(** What the connection threads share. *)
Record Shared := mkShared {
  sh_registry : Impl S;
  sh_stats : ServerStats;
  sh_shutdown_requested : bool;
}.

(** [send_frame]: nothing is sent when the frame cannot be built. *)
Definition send_frame (options : ServerOptions) (type : MessageType.t) (request_id : Z) (payload : list Z) : list Z :=
  encode_frame type request_id payload (max_frame_payload_bytes (so_limits options)).

Definition count_rejected (stats : ServerStats) : ServerStats :=
  mkServerStats (ss_connections_accepted stats) (ss_connections_rejected stats) (ss_requests_served stats)
    (wrap64 (ss_protocol_failures stats + 1)) (wrap64 (ss_frames_rejected stats + 1)).
Definition count_served (stats : ServerStats) : ServerStats :=
  mkServerStats (ss_connections_accepted stats) (ss_connections_rejected stats) (wrap64 (ss_requests_served stats + 1))
    (ss_protocol_failures stats) (ss_frames_rejected stats).

(** One turn of the loop: the bytes sent, the shared state, and the input left
    when the loop goes on. *)
Definition serve_frame (options : ServerOptions) (now : nat -> Z) (input : list Z) (shared : Shared)
    : list Z * Shared * option (list Z) :=
  match receive_exact kFrameHeaderBytes input with
  | None => ([], shared, None)
  | Some (header, input) =>
      match decode_frame_header header (max_frame_payload_bytes (so_limits options)) with
      | inr error =>
          (send_frame options MessageType.Failure 0 (enc_buffer (encode_failure (so_limits options) error new_encoder)),
           mkShared (sh_registry shared) (count_rejected (sh_stats shared)) (sh_shutdown_requested shared), None)
      | inl (type, request_id, payload_bytes) =>
          match receive_exact payload_bytes input with
          | None => ([], shared, None)
          | Some (payload, input) =>
              let '(response_type, response, registry) :=
                dispatch options now (mkFrame type request_id payload) (sh_registry shared) in
              let shutdown := bool_decide (response_type = MessageType.ShutdownAck) in
              (send_frame options response_type request_id response,
               mkShared registry (count_served (sh_stats shared)) (sh_shutdown_requested shared || shutdown),
               if shutdown then None else Some input)
          end
      end
  end.

(** [serve_connection]: at most [turns] requests are handled before the stop
    flag is seen. [clock turn] is the clock while that request is handled. *)
Fixpoint serve_connection (options : ServerOptions) (turns : nat) (clock : nat -> nat -> Z) (input : list Z)
    (shared : Shared) : list Z * Shared :=
  match turns with
  | O => ([], shared)
  | Datatypes.S turns =>
      match serve_frame options (clock 0%nat) input shared with
      | (sent, shared, None) => (sent, shared)
      | (sent, shared, Some input) =>
          let '(rest, shared) := serve_connection options turns (fun i => clock (Datatypes.S i)) input shared in
          ((sent ++ rest)%list, shared)
      end
  end.
End server.

Arguments Shared S : clear implicits.
Arguments Reply S : clear implicits.
