(* ===== verification/Client.v ===== *)
(** * The client ([src/ipc/client.cpp])

    One request is in flight at a time.  The peer is anything that answers the
    bytes it is sent; [Server.v] is one. *)
From S2P Require Import Prelude OrdMap Types Ids Graph Codec Serialization State StateCodec Fold Derive Log Digest Words Admit Ingest Session Views Snapshot SnapshotCodec SnapshotBuild ViewCodec Protocol Socket Server.
#[local] Open Scope string_scope.
#[local] Open Scope Z_scope.

(** The other end of a connection: what it sends back after the bytes it got. *)
Class Peer (P : Type) := exchange : list Z -> P -> list Z * P.

(** [Client::Impl]; [cl_unread] is what the socket holds. *)
Record Client := mkClient {
  cl_limits : Limits;
  cl_unread : list Z;
  cl_hello : Greeting;
  cl_next_request_id : Z;
  cl_closed : bool;
}.

Definition with_unread (unread : list Z) (c : Client) : Client :=
  mkClient (cl_limits c) unread (cl_hello c) (cl_next_request_id c) (cl_closed c).

Definition next_request (c : Client) : Client :=
  mkClient (cl_limits c) (cl_unread c) (cl_hello c) (wrap64 (cl_next_request_id c + 1)) (cl_closed c).

Definition client_close (c : Client) : Client :=
  mkClient (cl_limits c) (cl_unread c) (cl_hello c) (cl_next_request_id c) true.

(** The header and the payload of the next reply, and the bytes behind it. When
    the peer sends no more the call reports a closed connection, or waits for as
    long as the peer keeps the connection open. *)
Definition receive_reply (limits : Limits) (unread : list Z) : Outcome Frame * list Z :=
  match receive_exact kFrameHeaderBytes unread with
  | None => (inr peer_closed, [])
  | Some (header, unread) =>
      match decode_frame_header header (max_frame_payload_bytes limits) with
      | inr error => (inr error, unread)
      | inl (type, id, payload_bytes) =>
          match receive_exact payload_bytes unread with
          | None => (inr peer_closed, [])
          | Some (payload, unread) => (inl (mkFrame type id payload), unread)
          end
      end
  end.

Definition unreadable_failure : Error :=
  mkError ErrorCode.ProtocolViolation "the registry reported an unreadable failure".

(** [Client::request]. *)
Definition request {P} `{Peer P} (type : MessageType.t) (payload : list Z) (c : Client) (peer : P)
    : Outcome Frame * Client * P :=
  if cl_closed c then (inr (mkError ErrorCode.Closed "the client is closed"), c, peer)
  else
    let request_id := cl_next_request_id c in
    let c := next_request c in
    match encode_frame type request_id payload (max_frame_payload_bytes (cl_limits c)) with
    | [] => (inr (mkError ErrorCode.CapacityExceeded "the request does not fit in one frame"), c, peer)
    | frame =>
        let '(sent_back, peer) := exchange frame peer in
        let '(reply, unread) := receive_reply (cl_limits c) (cl_unread c ++ sent_back) in
        let c := with_unread unread c in
        match reply with
        | inr error => (inr error, c, peer)
        | inl reply =>
            if negb (fr_request_id reply =? request_id) then
              (inr (mkError ErrorCode.ProtocolViolation
                      "the reply identifier does not match the request that was sent"), c, peer)
            else if bool_decide (fr_type reply = MessageType.Failure) then
              match decode_failure (cl_limits c) (new_decoder (fr_payload reply)) with
              | Some (error, _) => (inr error, c, peer)
              | None => (inr unreadable_failure, c, peer)
              end
            else (inl reply, c, peer)
        end
    end.

Definition unexpected_reply : Error := mkError ErrorCode.ProtocolViolation "unexpected reply type".
Definition malformed_reply : Error := mkError ErrorCode.ProtocolViolation "the reply is malformed".

(** The body every call shares: send, check the reply type, decode all of it. *)
Definition call {P A} `{Peer P} (type ack : MessageType.t) (payload : list Z) (decode : Dec A) (c : Client) (peer : P)
    : Outcome A * Client * P :=
  match request type payload c peer with
  | (inr error, c, peer) => (inr error, c, peer)
  | (inl reply, c, peer) =>
      if negb (bool_decide (fr_type reply = ack)) then (inr unexpected_reply, c, peer)
      else
        match decode_all decode (fr_payload reply) with
        | Some value => (inl value, c, peer)
        | None => (inr malformed_reply, c, peer)
        end
  end.

(** A call whose reply has no content; its payload is not looked at. *)
Definition call_void {P} `{Peer P} (type ack : MessageType.t) (payload : list Z) (c : Client) (peer : P)
    : Outcome unit * Client * P :=
  match request type payload c peer with
  | (inr error, c, peer) => (inr error, c, peer)
  | (inl reply, c, peer) =>
      if negb (bool_decide (fr_type reply = ack)) then (inr unexpected_reply, c, peer) else (inl tt, c, peer)
  end.

Section calls.
Context {P : Type} `{Peer P}.
Implicit Types (c : Client) (peer : P).

Definition client_open_session (descriptor : SourceDescriptor) (incarnation : Z) c peer : Outcome OpenSessionResult * Client * P :=
  call MessageType.OpenSession MessageType.OpenSessionAck
    (payload_of (encode_open_session_request (cl_limits c) descriptor incarnation))
    (decode_open_session_result (cl_limits c)) c peer.

Definition client_close_session (key : SourceIncarnationKey) c peer : Outcome unit * Client * P :=
  call_void MessageType.CloseSession MessageType.CloseSessionAck
    (enc_buffer (encode_source_key key new_encoder)) c peer.

Definition client_publish (evidence : Evidence) c peer : Outcome IngestResult * Client * P :=
  call MessageType.Publish MessageType.PublishAck (encode_evidence_bytes evidence (cl_limits c))
    (decode_ingest_result (cl_limits c)) c peer.

Definition refused_batch (count : nat) (detail : string) : list IngestResult :=
  replicate count (mkIngestResult IngestDisposition.RefusedInvalid nil_id EvidenceKind.RegisterObject 0 0 detail).

Definition client_publish_batch (evidence : list Evidence) c peer : list IngestResult * Client * P :=
  let limits := cl_limits c in
  let batch := take (Z.to_nat (Z.min (zlen evidence) (max_evidence_batch limits))) evidence in
  match batch with
  | [] => ([], c, peer)
  | _ =>
      match request MessageType.PublishBatch (payload_of (encode_publish_batch_request limits batch)) c peer with
      | (inr error, c, peer) => (refused_batch (length batch) "the publish-batch request failed", c, peer)
      | (inl reply, c, peer) =>
          if negb (bool_decide (fr_type reply = MessageType.PublishBatchAck)) then
            (refused_batch (length batch) "unexpected reply type", c, peer)
          else
            match decode_all (decode_ingest_results limits) (fr_payload reply) with
            | Some results => (results, c, peer)
            | None => (refused_batch (length batch) "the reply is malformed", c, peer)
            end
      end
  end.

Definition client_query_port (port : PortRef) (policy : ValidationPolicy.t) c peer : Outcome PortView * Client * P :=
  call MessageType.QueryPort MessageType.QueryPortAck (payload_of (encode_port_query port policy))
    (decode_port_view (cl_limits c)) c peer.

Definition client_query_endpoint (endpoint : EndpointId) (include_ports : bool) (policy : ValidationPolicy.t) c peer
    : Outcome EndpointView * Client * P :=
  call MessageType.QueryEndpoint MessageType.QueryEndpointAck (payload_of (encode_endpoint_query endpoint include_ports policy))
    (decode_endpoint_view (cl_limits c)) c peer.

Definition client_query_object (object : ObjectId) (options : QueryOptions) c peer : Outcome ObjectView * Client * P :=
  call MessageType.QueryObject MessageType.QueryObjectAck (payload_of (encode_object_query object options))
    (decode_object_view (cl_limits c)) c peer.

Definition client_query_history (object : ObjectId) (max_events : Z) c peer : Outcome ObjectHistory * Client * P :=
  call MessageType.QueryHistory MessageType.QueryHistoryAck (payload_of (encode_history_query object max_events))
    (decode_object_history (cl_limits c)) c peer.

Definition client_inspect (max_entries : Z) c peer : Outcome InspectionView * Client * P :=
  call MessageType.Inspect MessageType.InspectAck (payload_of (encode_inspect_query max_entries))
    (decode_inspection_view (cl_limits c)) c peer.

Definition client_snapshot c peer : Outcome TopologySnapshot * Client * P :=
  call MessageType.Snapshot MessageType.SnapshotAck [] (decode_topology_snapshot (cl_limits c)) c peer.

Definition client_graph_digest c peer : Outcome (list Z) * Client * P :=
  call MessageType.Digest MessageType.DigestAck [] decode_digest_response c peer.

Definition client_stats c peer : Outcome RegistryStats * Client * P :=
  call MessageType.Stats MessageType.StatsAck [] (decode_registry_stats (cl_limits c)) c peer.

Definition client_shutdown c peer : Outcome unit * Client * P :=
  call_void MessageType.Shutdown MessageType.ShutdownAck [] c peer.

(** [Client::Connect] once the socket is connected: the greeting. *)
Definition default_hello : Greeting := mkHello 0 0 nil_id 0 false "".

Definition client_connect (limits : Limits) (port : Z) peer : Outcome Client * P :=
  match validate_limits limits with
  | inr error => (inr error, peer)
  | inl _ =>
      if port =? 0 then (inr (mkError ErrorCode.InvalidArgument "the client port must be set"), peer)
      else
        let '(sent_back, peer) := exchange (encode_frame MessageType.Hello 0 [] (max_frame_payload_bytes limits)) peer in
        match receive_reply limits sent_back with
        | (inr error, _) => (inr error, peer)
        | (inl reply, unread) =>
            if bool_decide (fr_type reply = MessageType.Failure) then
              match decode_failure limits (new_decoder (fr_payload reply)) with
              | Some (error, _) => (inr error, peer)
              | None => (inr (mkError ErrorCode.ProtocolViolation "the registry refused the greeting"), peer)
              end
            else if negb (bool_decide (fr_type reply = MessageType.HelloAck)) then
              (inr (mkError ErrorCode.ProtocolViolation "the registry sent an unexpected greeting"), peer)
            else
              match decode_all (decode_hello limits) (fr_payload reply) with
              | None => (inr (mkError ErrorCode.ProtocolViolation "the registry sent an unexpected greeting"), peer)
              | Some hello =>
                  if negb (he_protocol_version hello =? kProtocolVersion) then
                    (inr (mkError ErrorCode.UnsupportedVersion
                            ("the registry speaks protocol version " +:+ to_dec (he_protocol_version hello)
                             +:+ " but this client speaks " +:+ to_dec kProtocolVersion)), peer)
                  else (inl (mkClient limits unread hello 1 false), peer)
              end
        end
  end.
End calls.

(** ** A server as the peer *)

(** A connection to a server: the shared state, the clock, and whether the server
    still serves the connection. *)
Record Connection (S : Type) := mkConnection {
  cx_options : ServerOptions;
  cx_shared : Shared S;
  cx_clock : nat -> nat -> Z;
  cx_open : bool;
}.
Arguments mkConnection {S} _ _ _ _.
Arguments cx_options {S} _.
Arguments cx_shared {S} _.
Arguments cx_clock {S} _.
Arguments cx_open {S} _.

(** The client sends one frame at a time, which the server handles in one turn. *)
#[export] Instance server_peer {S} `{AppendLog S, StoreCounters S} : Peer (Connection S) := fun frame x =>
  if negb (cx_open x) then ([], x)
  else
    let '(sent, shared, rest) := serve_frame (cx_options x) (cx_clock x 0%nat) frame (cx_shared x) in
    (sent, mkConnection (cx_options x) shared (fun i => cx_clock x (Datatypes.S i)) (bool_decide (is_Some rest))).
