(* ===== verification/Remote.v ===== *)
(** * Calling a registry through the wire

    A client whose limits are the server's, connected to a server, gets from
    every call what the registry answers to the same call made locally, and the
    registry ends up in the same state: the transport adds nothing and loses
    nothing as long as request and reply fit their frames.  What the transport
    does not do is shown next: the payload checksum is never compared, a reply
    that does not fit is dropped, and an inspection loses what it lists. *)
From S2P Require Import Prelude OrdMap Types Ids Graph Codec Serialization State StateCodec Fold Derive Log Digest Words Admit Ingest Session Views Snapshot SnapshotCodec SnapshotBuild ViewCodec Protocol Socket Server Client.
#[local] Open Scope string_scope.
#[local] Open Scope Z_scope.

(** ** Reading from a connection *)

Lemma receive_app a b : receive_exact (zlen a) (a ++ b) = Some (a, b).
Proof.
  unfold receive_exact. pose proof (zlen_nonneg b). rewrite zlen_app, (proj2 (Z.ltb_ge _ _)) by lia.
  unfold zlen. by rewrite Nat2Z.id, take_app_length, drop_app_length.
Qed.

Lemma receive_count n a b : zlen a = n -> receive_exact n (a ++ b) = Some (a, b).
Proof. intros <-. apply receive_app. Qed.

Lemma frame_header_zlen type id payload : zlen (frame_header type id payload) = kFrameHeaderBytes.
Proof. unfold zlen. by rewrite frame_header_length. Qed.

Section served.
Context {S : Type} `{AppendLog S, StoreCounters S}.
Implicit Types (options : ServerOptions) (shared : Shared S).

(** What a turn does with a request it received. *)
Definition handled options (now : nat -> Z) (type : MessageType.t) (id : Z) (payload rest : list Z) shared
    : list Z * Shared S * option (list Z) :=
  let '(response_type, response, registry) := dispatch options now (mkFrame type id payload) (sh_registry shared) in
  let shutdown := bool_decide (response_type = MessageType.ShutdownAck) in
  (send_frame options response_type id response,
   mkShared registry (count_served (sh_stats shared)) (sh_shutdown_requested shared || shutdown),
   if shutdown then None else Some rest).

(** A turn looks at the header and at as many bytes as it announces, whatever
    payload the header was made for. *)
Lemma serve_framed options now type id p q rest shared :
  is_u64 id -> zlen p <= max_frame_payload_bytes (so_limits options) ->
  is_u32 (max_frame_payload_bytes (so_limits options)) -> zlen q = zlen p ->
  serve_frame options now (frame_header type id p ++ q ++ rest) shared = handled options now type id q rest shared.
Proof.
  intros Hid Hle Hmax Hq. unfold serve_frame, handled.
  rewrite (receive_count kFrameHeaderBytes) by apply frame_header_zlen.
  rewrite decode_own_header by done. by rewrite <- Hq, receive_app.
Qed.

(** The payload checksum is never compared. A frame whose payload was damaged on
    the way, its length kept, is served exactly as an intact frame with the
    damaged payload: the same replies are sent and the registry ends up in the
    same state. The decoder of whole frames, which nothing on the path of a
    message calls, refuses the same bytes whenever the checksums differ. *)
Theorem damaged_payload_is_served options turns clock type id p q rest shared :
  is_u64 id -> zlen p <= max_frame_payload_bytes (so_limits options) ->
  is_u32 (max_frame_payload_bytes (so_limits options)) -> zlen q = zlen p ->
  serve_connection options turns clock (frame_header type id p ++ q ++ rest) shared =
    serve_connection options turns clock (frame_header type id q ++ q ++ rest) shared /\
  (crc32c q <> crc32c p ->
   decode_frame (frame_header type id p ++ q) (max_frame_payload_bytes (so_limits options)) =
     inr (mkError ErrorCode.ProtocolViolation "the frame payload checksum does not match")).
Proof.
  intros Hid Hle Hmax Hq. split.
  - destruct turns as [|turns]; [done|]. cbn [serve_connection].
    rewrite (serve_framed options _ type id p q), (serve_framed options _ type id q q) by (done || lia). done.
  - intros Hne. unfold decode_frame. pose proof (zlen_nonneg q).
    rewrite zlen_app, frame_header_zlen, (proj2 (Z.ltb_ge _ _)) by lia.
    rewrite take_app_length' by (symmetry; apply frame_header_length). rewrite decode_own_header by done.
    rewrite Hq, Z.eqb_refl. cbn [negb]. rewrite drop_app_length' by (symmetry; apply frame_header_length).
    rewrite <- Hq. unfold zlen at 1. rewrite Nat2Z.id, firstn_all, field_payload_checksum.
    by destruct (Z.eqb_spec (crc32c q) (crc32c p)).
Qed.

Lemma receive_shorter n input a b : 0 <= n -> receive_exact n input = Some (a, b) -> (length b + Z.to_nat n = length input)%nat.
Proof.
  unfold receive_exact. destruct (Z.ltb_spec (zlen input) n) as [|Hle]; [done|]. intros Hn [= <- <-].
  unfold zlen in Hle. rewrite length_drop. lia.
Qed.

Lemma serve_consumes options now input shared sent shared' rest :
  serve_frame options now input shared = (sent, shared', Some rest) -> (length rest < length input)%nat.
Proof.
  unfold serve_frame. destruct (receive_exact kFrameHeaderBytes input) as [[header input']|] eqn:E1; [|done].
  apply receive_shorter in E1; [|done]. destruct (decode_frame_header _ _) as [[[type id] n]|e]; [|done].
  destruct (receive_exact n input') as [[payload input'']|] eqn:E2; [|done].
  destruct (dispatch _ _ _ _) as [[rt response] registry]. case_match; [done|]. intros [= _ _ <-].
  assert (length input'' <= length input')%nat; [|change (Z.to_nat kFrameHeaderBytes) with 28%nat in E1; lia].
  revert E2. unfold receive_exact. case_match; [done|]. intros [= _ <-]. rewrite length_drop. lia.
Qed.

Lemma serve_enough options turns turns' clock input shared :
  (length input < turns)%nat -> (length input < turns')%nat ->
  serve_connection options turns clock input shared = serve_connection options turns' clock input shared.
Proof.
  revert turns' clock input shared. induction turns as [|turns IH]; intros [|turns'] clock input shared Hlt Hlt'; try lia.
  cbn [serve_connection]. destruct (serve_frame _ _ _ _) as [[sent shared'] [rest|]] eqn:E; [|done].
  apply serve_consumes in E. by rewrite (IH turns') by lia.
Qed.

(** A connection is served to its end. Every turn consumes a whole header, so
    as many turns as the peer sends bytes are enough: more turns send the same
    replies and leave the same state. *)
Theorem serving_ends options clock input shared turns :
  (length input < turns)%nat ->
  serve_connection options turns clock input shared =
  serve_connection options (Datatypes.S (length input)) clock input shared.
Proof. intros Hlt. apply serve_enough; lia. Qed.
End served.

(** ** Requests and replies *)

(** A payload that was encoded and fits a frame. *)
Definition fits_frame (limits : Limits) (f : Enc) : Prop :=
  enc_ok (f new_encoder) = true /\ zlen (payload_of f) <= max_frame_payload_bytes limits.

Lemma decode_payload {A} (f : Enc) (d : Dec A) a :
  roundtrip f d a -> enc_ok (f new_encoder) = true -> decode_all d (payload_of f) = Some a.
Proof. apply decode_all_roundtrip. Qed.

Lemma rt_failure limits e :
  limits_ok limits -> slen (err_message e) <= max_string_bytes limits -> err_code e <> ErrorCode.Internal ->
  roundtrip (encode_failure limits e) (decode_failure limits) e.
Proof.
  intros Hlim Hm Hc. assert (Hle : enum_code (err_code e) <= enum_code ErrorCode.PermissionDenied) by (by destruct (err_code e)).
  assert (Hs : is_u32 (max_string_bytes limits)) by apply Hlim.
  unfold encode_failure, decode_failure. destruct e as [code message]. cbn -[enum_code] in *. rt_steps.
Qed.

(** A failure that reaches the client as it was raised. *)
Definition failure_ok (limits : Limits) (e : Error) : Prop :=
  slen (err_message e) <= max_string_bytes limits /\ err_code e <> ErrorCode.Internal /\
  fits_frame limits (encode_failure limits e).

Lemma decode_own_failure limits e :
  limits_ok limits -> failure_ok limits e ->
  exists d, decode_failure limits (new_decoder (payload_of (encode_failure limits e))) = Some (e, d).
Proof.
  intros Hlim (Hm & Hc & Hok & _). destruct (roundtrip_ok _ _ _ (rt_failure limits e Hlim Hm Hc) Hok) as (d & E & _).
  by exists d.
Qed.

(** The requests come back. *)
Section requests.
Context (limits : Limits) (Hlim : limits_ok limits).

Lemma rt_policy policy : roundtrip (encode_policy policy) decode_policy policy.
Proof using. eapply rt_last; [apply rt_enum8|]. apply decodes_opt, enum_cast_code. Qed.

Hint Resolve rt_port_ref rt_source_descriptor rt_policy rt_query_options : rt.

Lemma rt_open_request descriptor incarnation :
  wf_source_descriptor limits descriptor -> is_u64 incarnation ->
  roundtrip (encode_open_session_request limits descriptor incarnation) (decode_open_session_request limits)
    (descriptor, incarnation).
Proof using Hlim. intros. unfold encode_open_session_request, decode_open_session_request. rt_steps. Qed.

Lemma rt_source_key key :
  id_ok (key_source key) -> is_u64 (key_incarnation key) -> roundtrip (encode_source_key key) decode_source_key key.
Proof using. destruct key. cbn. intros. unfold encode_source_key, decode_source_key. cbn. rt_steps. Qed.

Lemma rt_batch_request batch :
  wf_bounded (max_evidence_batch limits) (wf_evidence limits) batch ->
  roundtrip (encode_publish_batch_request limits batch) (decode_publish_batch_request limits) batch.
Proof using Hlim.
  intros Hb. apply (rt_bounded _ _ (wf_evidence limits)); [apply Hlim|by apply rt_evidence|exact Hb].
Qed.

Lemma rt_port_query port policy :
  wf_port_ref port -> roundtrip (encode_port_query port policy) decode_port_query (port, policy).
Proof using. intros. unfold encode_port_query, decode_port_query. rt_steps. Qed.

Lemma rt_endpoint_query endpoint include_ports policy :
  id_ok endpoint ->
  roundtrip (encode_endpoint_query endpoint include_ports policy) decode_endpoint_query (endpoint, include_ports, policy).
Proof using. intros. unfold encode_endpoint_query, decode_endpoint_query. rt_steps. Qed.

Lemma rt_object_query object options :
  id_ok object -> wf_query_options options ->
  roundtrip (encode_object_query object options) decode_object_query (object, options).
Proof using. intros. unfold encode_object_query, decode_object_query. rt_steps. Qed.

Lemma rt_history_query object max_events :
  id_ok object -> is_u32 max_events ->
  roundtrip (encode_history_query object max_events) decode_history_query (object, max_events).
Proof using. intros. unfold encode_history_query, decode_history_query. rt_steps. Qed.

Lemma rt_digest value : zlen value = 32 -> roundtrip (encode_digest value) decode_digest_response value.
Proof using.
  intros Hv. unfold encode_digest, decode_digest_response. eapply rt_last; [apply rt_bytes; [by rewrite Hv|done]|].
  apply decodes_guard_bind; [by rewrite Hv|]. apply decodes_ret.
Qed.

Lemma decode_own_evidence evidence :
  wf_evidence limits evidence -> enc_ok (encode_evidence limits evidence new_encoder) = true ->
  decode_evidence_bytes (encode_evidence_bytes evidence limits) limits = inl evidence.
Proof using Hlim.
  intros Hwf Hok. destruct (roundtrip_ok _ _ _ (rt_evidence limits Hlim evidence Hwf) Hok) as (d & E & Hdone).
  unfold decode_evidence_bytes, encode_evidence_bytes. by rewrite E, Hdone.
Qed.
End requests.

Section exchange.
Context {S : Type} `{AppendLog S, StoreCounters S}.
Context (limits : Limits) (Hlim : limits_u32 limits).
Implicit Types (c : Client) (x : Connection S).

Lemma frame_limit : is_u32 (max_frame_payload_bytes limits).
Proof using Hlim. unfold limits_u32 in Hlim. rewrite !Forall_cons in Hlim. tauto. Qed.

(** A client and the server it is connected to, between two requests. *)
Record connected c x : Prop := {
  cn_client : cl_limits c = limits;
  cn_server : so_limits (cx_options x) = limits;
  cn_idle : cl_unread c = [];
  cn_alive : cl_closed c = false;
  cn_served : cx_open x = true;
  cn_id : is_u64 (cl_next_request_id c);
}.

Definition registry_of x : Impl S := sh_registry (cx_shared x).

(** The connection after a request that was answered with [type]. *)
Definition answered (type : MessageType.t) (registry : Impl S) x : Connection S :=
  let shutdown := bool_decide (type = MessageType.ShutdownAck) in
  mkConnection (cx_options x)
    (mkShared registry (count_served (sh_stats (cx_shared x))) (sh_shutdown_requested (cx_shared x) || shutdown))
    (fun i => cx_clock x (Datatypes.S i)) (negb shutdown).

Lemma encode_frame_fits type id payload :
  zlen payload <= max_frame_payload_bytes limits ->
  encode_frame type id payload (max_frame_payload_bytes limits) = (frame_header type id payload ++ payload)%list.
Proof using. intros Hle. unfold encode_frame. by rewrite (proj2 (Z.ltb_ge _ _) Hle). Qed.

Lemma receive_own_reply type id payload :
  is_u64 id -> zlen payload <= max_frame_payload_bytes limits ->
  receive_reply limits (frame_header type id payload ++ payload) = (inl (mkFrame type id payload), []).
Proof using Hlim.
  intros Hid Hle. unfold receive_reply. rewrite (receive_count kFrameHeaderBytes) by apply frame_header_zlen.
  rewrite decode_own_header by (done || apply frame_limit).
  pose proof (receive_app payload []) as E. rewrite app_nil_r in E. by rewrite E.
Qed.

(** A request that fits, answered by a reply that fits. *)
Lemma request_answered c x type payload response_type response registry :
  connected c x -> zlen payload <= max_frame_payload_bytes limits ->
  dispatch (cx_options x) (cx_clock x 0%nat) (mkFrame type (cl_next_request_id c) payload) (registry_of x) =
    (response_type, response, registry) ->
  zlen response <= max_frame_payload_bytes limits ->
  request type payload c x =
    (if bool_decide (response_type = MessageType.Failure) then
       match decode_failure limits (new_decoder response) with
       | Some (error, _) => inr error | None => inr unreadable_failure end
     else inl (mkFrame response_type (cl_next_request_id c) response),
     next_request c, answered response_type registry x).
Proof using Hlim.
  intros [Hc Hs Hi Ha Ho Hid] Hle Hd Hr. unfold request. rewrite Ha. cbn [next_request cl_limits]. rewrite Hc.
  rewrite encode_frame_fits by done. destruct (frame_header _ _ _ ++ payload)%list as [|b l] eqn:Ef.
  { apply (f_equal zlen) in Ef. rewrite zlen_app, frame_header_zlen, zlen_nil in Ef. pose proof (zlen_nonneg payload).
    unfold kFrameHeaderBytes in Ef. lia. }
  rewrite <- Ef. clear Ef b l. unfold exchange, server_peer. rewrite Ho. cbn [negb].
  pose proof (serve_framed (cx_options x) (cx_clock x 0%nat) type (cl_next_request_id c) payload payload [] (cx_shared x) Hid) as E.
  rewrite Hs, app_nil_r in E. rewrite E by (done || apply frame_limit). clear E. unfold handled.
  unfold registry_of in Hd. rewrite Hd. unfold send_frame. rewrite Hs, encode_frame_fits by done.
  change (cl_unread (next_request c)) with (cl_unread c). rewrite Hi. cbn [app].
  rewrite receive_own_reply by done. cbn [fr_request_id fr_type fr_payload]. rewrite Z.eqb_refl. cbn [negb].
  assert (Ew : with_unread [] (next_request c) = next_request c) by (unfold with_unread, next_request; cbn; by rewrite Hi).
  rewrite Ew. change (cl_limits (next_request c)) with (cl_limits c). rewrite Hc.
  assert (Ex : bool_decide (is_Some (if bool_decide (response_type = MessageType.ShutdownAck) then None else Some (@nil Z))) =
    negb (bool_decide (response_type = MessageType.ShutdownAck))) by (by destruct (bool_decide (response_type = _))).
  unfold answered. rewrite Ex.
  destruct (bool_decide (response_type = MessageType.Failure)); [|done].
  by destruct (decode_failure _ _) as [[? ?]|].
Qed.

Lemma call_answered {A} c x type ack payload f (d : Dec A) a registry :
  connected c x -> zlen payload <= max_frame_payload_bytes limits ->
  dispatch (cx_options x) (cx_clock x 0%nat) (mkFrame type (cl_next_request_id c) payload) (registry_of x) =
    (ack, payload_of f, registry) ->
  ack <> MessageType.Failure -> fits_frame limits f -> roundtrip f d a ->
  call type ack payload d c x = (inl a, next_request c, answered ack registry x).
Proof using Hlim.
  intros Hx Hle Hd Hack [Hok Hfit] Hrt. unfold call. rewrite (request_answered c x _ _ _ _ _ Hx Hle Hd Hfit).
  rewrite (bool_decide_eq_false_2 _ Hack). cbn [fr_type fr_payload]. rewrite bool_decide_eq_true_2 by done. cbn [negb].
  by rewrite (decode_payload f d a).
Qed.

Lemma call_failed {A} c x type ack payload (d : Dec A) e registry :
  connected c x -> zlen payload <= max_frame_payload_bytes limits ->
  dispatch (cx_options x) (cx_clock x 0%nat) (mkFrame type (cl_next_request_id c) payload) (registry_of x) =
    (MessageType.Failure, payload_of (encode_failure limits e), registry) ->
  failure_ok limits e ->
  call type ack payload d c x = (inr e, next_request c, answered MessageType.Failure registry x).
Proof using Hlim.
  intros Hx Hle Hd Hf. unfold call. rewrite (request_answered c x _ _ _ _ _ Hx Hle Hd (proj2 (proj2 (proj2 Hf)))).
  rewrite bool_decide_eq_true_2 by done. by destruct (decode_own_failure limits e (limits_u32_ok _ Hlim) Hf) as (? & ->).
Qed.

(** ** The calls of a client *)

Inductive Call :=
  | OpenSessionCall (descriptor : SourceDescriptor) (incarnation : Z)
  | CloseSessionCall (key : SourceIncarnationKey)
  | PublishCall (evidence : Evidence)
  | PublishBatchCall (batch : list Evidence)
  | QueryPortCall (port : PortRef) (policy : ValidationPolicy.t)
  | QueryEndpointCall (endpoint : EndpointId) (include_ports : bool) (policy : ValidationPolicy.t)
  | QueryObjectCall (object : ObjectId) (options : QueryOptions)
  | QueryHistoryCall (object : ObjectId) (max_events : Z)
  | DigestCall
  | StatsCall.

Definition Result (q : Call) : Type :=
  match q with
  | OpenSessionCall _ _ => OpenSessionResult | CloseSessionCall _ => unit | PublishCall _ => IngestResult
  | PublishBatchCall _ => list IngestResult | QueryPortCall _ _ => PortView | QueryEndpointCall _ _ _ => EndpointView
  | QueryObjectCall _ _ => ObjectView | QueryHistoryCall _ _ => ObjectHistory | DigestCall => list Z
  | StatsCall => RegistryStats
  end.

(** The call made on the registry itself. *)
Definition local_call (q : Call) (now : nat -> Z) (impl : Impl S) : Outcome (Result q) * Impl S :=
  match q return Outcome (Result q) * Impl S with
  | OpenSessionCall descriptor incarnation =>
      let '(result, impl) := open_session descriptor incarnation (now 0%nat) (now 1%nat) impl in (inl result, impl)
  | CloseSessionCall key => close_session key impl
  | PublishCall evidence => let '(result, impl) := registry_ingest (now 0%nat) evidence impl in (inl result, impl)
  | PublishBatchCall batch => let '(results, impl) := registry_ingest_batch now batch impl in (inl results, impl)
  | QueryPortCall port policy => (query_port (im_state impl) (im_limits impl) port policy, impl)
  | QueryEndpointCall endpoint include_ports policy =>
      (query_endpoint (im_state impl) (im_limits impl) endpoint include_ports policy, impl)
  | QueryObjectCall object options => (query_object (im_state impl) (im_limits impl) object options, impl)
  | QueryHistoryCall object max_events => (query_history (im_state impl) (im_limits impl) object max_events, impl)
  | DigestCall => (inl (graph_digest (build_snapshot (im_state impl) (im_limits impl))), impl)
  | StatsCall => (inl (build_stats (im_state impl) (im_recovery impl) (im_store impl)), impl)
  end.

(** The call made through a client. *)
Definition remote_call (q : Call) c x : Outcome (Result q) * Client * Connection S :=
  match q return Outcome (Result q) * Client * Connection S with
  | OpenSessionCall descriptor incarnation => client_open_session descriptor incarnation c x
  | CloseSessionCall key => client_close_session key c x
  | PublishCall evidence => client_publish evidence c x
  | PublishBatchCall batch => let '(results, c, x) := client_publish_batch batch c x in (inl results, c, x)
  | QueryPortCall port policy => client_query_port port policy c x
  | QueryEndpointCall endpoint include_ports policy => client_query_endpoint endpoint include_ports policy c x
  | QueryObjectCall object options => client_query_object object options c x
  | QueryHistoryCall object max_events => client_query_history object max_events c x
  | DigestCall => client_graph_digest c x
  | StatsCall => client_stats c x
  end.

(** The request fits its types and its frame. *)
Definition request_ok (q : Call) : Prop :=
  match q with
  | OpenSessionCall descriptor incarnation =>
      wf_source_descriptor limits descriptor /\ is_u64 incarnation /\
      fits_frame limits (encode_open_session_request limits descriptor incarnation)
  | CloseSessionCall key =>
      id_ok (key_source key) /\ is_u64 (key_incarnation key) /\ fits_frame limits (encode_source_key key)
  | PublishCall evidence => wf_evidence limits evidence /\ fits_frame limits (encode_evidence limits evidence)
  | PublishBatchCall batch =>
      batch <> [] /\ wf_bounded (max_evidence_batch limits) (wf_evidence limits) batch /\
      fits_frame limits (encode_publish_batch_request limits batch)
  | QueryPortCall port policy => wf_port_ref port /\ fits_frame limits (encode_port_query port policy)
  | QueryEndpointCall endpoint include_ports policy =>
      id_ok endpoint /\ fits_frame limits (encode_endpoint_query endpoint include_ports policy)
  | QueryObjectCall object options =>
      id_ok object /\ wf_query_options options /\ fits_frame limits (encode_object_query object options)
  | QueryHistoryCall object max_events =>
      id_ok object /\ is_u32 max_events /\ fits_frame limits (encode_history_query object max_events)
  | DigestCall | StatsCall => True
  end.

(** The result fits its types and its frame. *)
Definition result_ok (q : Call) : Result q -> Prop :=
  match q return Result q -> Prop with
  | OpenSessionCall _ _ => fun r =>
      wf_session_result limits r /\ os_disposition r <> OpenSessionDisposition.RefusedClosed /\
      fits_frame limits (encode_open_session_result limits r)
  | CloseSessionCall _ => fun _ => True
  | PublishCall _ => fun r => wf_ingest_result limits r /\ fits_frame limits (encode_ingest_result limits r)
  | PublishBatchCall _ => fun r =>
      wf_bounded (max_evidence_batch limits) (wf_ingest_result limits) r /\
      fits_frame limits (encode_ingest_results limits r)
  | QueryPortCall _ _ => fun v => wf_port_view limits v /\ fits_frame limits (encode_port_view limits v)
  | QueryEndpointCall _ _ _ => fun v => wf_endpoint_view limits v /\ fits_frame limits (encode_endpoint_view limits v)
  | QueryObjectCall _ _ => fun v => wf_object_view limits v /\ fits_frame limits (encode_object_view limits v)
  | QueryHistoryCall _ _ => fun v => wf_history limits v /\ fits_frame limits (encode_object_history limits v)
  | DigestCall => fun v => zlen v = 32 /\ fits_frame limits (encode_digest v)
  | StatsCall => fun v => wf_stats limits v /\ fits_frame limits (encode_registry_stats limits v)
  end.

Definition reply_ok (q : Call) (o : Outcome (Result q)) : Prop :=
  match o with inl r => result_ok q r | inr e => failure_ok limits e end.

(** The connection stays usable, with the registry the call left. *)
Definition left_with (registry : Impl S) c x x' : Prop :=
  registry_of x' = registry /\ connected (next_request c) x' /\ cx_clock x' = (fun i => cx_clock x (Datatypes.S i)).

Lemma answered_left type registry c x :
  connected c x -> type <> MessageType.ShutdownAck -> left_with registry c x (answered type registry x).
Proof using.
  intros [Hc Hs Hi Ha Ho Hid] Hne. unfold answered. rewrite (bool_decide_eq_false_2 _ Hne). split_and!; [done| |done].
  split; try done. cbn. apply wrap64_u64.
Qed.

(** A call that is always answered. *)
Lemma changing_call {A} c x type ack payload f (d : Dec A) a registry :
  connected c x -> zlen payload <= max_frame_payload_bytes limits ->
  ack <> MessageType.Failure -> ack <> MessageType.ShutdownAck ->
  dispatch (cx_options x) (cx_clock x 0%nat) (mkFrame type (cl_next_request_id c) payload) (registry_of x) =
    (ack, payload_of f, registry) ->
  fits_frame limits f -> roundtrip f d a ->
  exists x', call type ack payload d c x = (inl a, next_request c, x') /\ left_with registry c x x'.
Proof using Hlim.
  intros Hx Hle Hf Hsh Hd Hfit Hrt. exists (answered ack registry x). split; [by eapply call_answered|by apply answered_left].
Qed.

(** A query, answered with a view or a failure. *)
Lemma query_call {A} c x type ack payload (f : A -> Enc) (d : Dec A) (o : Outcome A) :
  connected c x -> zlen payload <= max_frame_payload_bytes limits ->
  ack <> MessageType.Failure -> ack <> MessageType.ShutdownAck ->
  dispatch (cx_options x) (cx_clock x 0%nat) (mkFrame type (cl_next_request_id c) payload) (registry_of x) =
    answer (cx_options x) ack f o (registry_of x) ->
  match o with inl v => fits_frame limits (f v) /\ roundtrip (f v) d v | inr e => failure_ok limits e end ->
  exists x', call type ack payload d c x = (o, next_request c, x') /\ left_with (registry_of x) c x x'.
Proof using Hlim.
  intros Hx Hle Hf Hsh Hd Ho. destruct o as [v|e].
  - destruct Ho. by eapply changing_call.
  - exists (answered MessageType.Failure (registry_of x) x). split; [|by apply answered_left].
    eapply call_failed; [done..| |done]. rewrite Hd. unfold answer, fail_with. by rewrite (cn_server _ _ Hx).
Qed.

Lemma close_call c x key :
  connected c x -> request_ok (CloseSessionCall key) -> reply_ok (CloseSessionCall key) (close_session key (registry_of x)).1 ->
  exists x', client_close_session key c x = ((close_session key (registry_of x)).1, next_request c, x') /\
    left_with (close_session key (registry_of x)).2 c x x'.
Proof using Hlim.
  intros Hx (H1 & H2 & Hok & Hfit) Hr. unfold client_close_session, call_void.
  assert (Eb : enc_buffer (encode_source_key key new_encoder) = payload_of (encode_source_key key)).
  { unfold payload_of, enc_take. unfold enc_ok in Hok. by destruct (enc_failed _). }
  rewrite Eb. pose proof (decode_payload _ _ _ (rt_source_key key H1 H2) Hok) as Ed.
  destruct (close_session key (registry_of x)) as [[[]|e] impl] eqn:Ec; cbn [fst snd] in *.
  - exists (answered MessageType.CloseSessionAck impl x). split; [|by apply answered_left].
    rewrite (request_answered c x _ _ MessageType.CloseSessionAck [] impl Hx Hfit); [done| |apply frame_limit].
    unfold dispatch. cbn [fr_type fr_payload]. by rewrite Ed, Ec.
  - exists (answered MessageType.Failure impl x). split; [|by apply answered_left].
    rewrite (request_answered c x _ _ MessageType.Failure (payload_of (encode_failure limits e)) impl Hx Hfit); [| |apply Hr].
    + by destruct (decode_own_failure limits e (limits_u32_ok _ Hlim) Hr) as (? & ->).
    + unfold dispatch. cbn [fr_type fr_payload]. rewrite Ed, Ec. unfold fail_with. by rewrite (cn_server _ _ Hx).
Qed.

Lemma open_call c x descriptor incarnation :
  let '(result, impl) := open_session descriptor incarnation (cx_clock x 0%nat 0%nat) (cx_clock x 0%nat 1%nat) (registry_of x) in
  connected c x -> request_ok (OpenSessionCall descriptor incarnation) ->
  result_ok (OpenSessionCall descriptor incarnation) result ->
  exists x', client_open_session descriptor incarnation c x = (inl result, next_request c, x') /\ left_with impl c x x'.
Proof using Hlim.
  destruct (open_session _ _ _ _ _) as [result impl] eqn:Eo. intros Hx (H1 & H2 & Hok & Hfit) (Hwf & Hne & Hfr).
  pose proof (limits_u32_ok _ Hlim) as Hl. unfold client_open_session. rewrite (cn_client _ _ Hx).
  eapply changing_call; [done..| |exact Hfr|by apply rt_session_result]. unfold dispatch. cbn [fr_type fr_payload].
  by rewrite (cn_server _ _ Hx), (decode_payload _ _ _ (rt_open_request limits Hl descriptor incarnation H1 H2) Hok), Eo.
Qed.

Lemma publish_call c x evidence :
  let '(result, impl) := registry_ingest (cx_clock x 0%nat 0%nat) evidence (registry_of x) in
  connected c x -> request_ok (PublishCall evidence) -> result_ok (PublishCall evidence) result ->
  exists x', client_publish evidence c x = (inl result, next_request c, x') /\ left_with impl c x x'.
Proof using Hlim.
  destruct (registry_ingest _ _ _) as [result impl] eqn:Ei. intros Hx (H1 & Hok & Hfit) (Hwf & Hfr).
  pose proof (limits_u32_ok _ Hlim) as Hl. unfold client_publish. rewrite (cn_client _ _ Hx).
  eapply changing_call; [done..| |exact Hfr|by apply rt_ingest_result]. unfold dispatch. cbn [fr_type fr_payload].
  by rewrite (cn_server _ _ Hx), decode_own_evidence, Ei.
Qed.

Lemma batch_call c x batch :
  let '(results, impl) := registry_ingest_batch (cx_clock x 0%nat) batch (registry_of x) in
  connected c x -> request_ok (PublishBatchCall batch) -> result_ok (PublishBatchCall batch) results ->
  exists x', client_publish_batch batch c x = (results, next_request c, x') /\ left_with impl c x x'.
Proof using Hlim.
  destruct (registry_ingest_batch _ batch _) as [results impl] eqn:Ei. intros Hx (Hne & Hb & Hok & Hfit) (Hwf & Hrok & Hrfit).
  pose proof (limits_u32_ok _ Hlim) as Hl. unfold client_publish_batch. cbv zeta. rewrite (cn_client _ _ Hx).
  rewrite Z.min_l by apply Hb. unfold zlen. rewrite Nat2Z.id, firstn_all.
  destruct batch as [|e batch']; [done|]. set (b := e :: batch') in *.
  exists (answered MessageType.PublishBatchAck impl x). split; [|by apply answered_left].
  rewrite (request_answered c x _ _ MessageType.PublishBatchAck (payload_of (encode_ingest_results limits results)) impl
    Hx Hfit); [| |exact Hrfit].
  2:{ unfold dispatch. cbn [fr_type fr_payload]. rewrite (cn_server _ _ Hx).
      rewrite (decode_payload _ _ _ (rt_batch_request limits Hl b Hb) Hok). by rewrite Ei. }
  rewrite bool_decide_eq_false_2 by done. cbn [fr_type fr_payload]. rewrite bool_decide_eq_true_2 by done. cbn [negb].
  by rewrite (decode_payload _ _ _ (rt_ingest_results limits Hl results Hwf) Hrok).
Qed.

End exchange.

(** ** What the transport loses *)

(** A reply that does not fit a frame is not sent. The request is handled, with
    its effect on the registry, no byte is written, and the connection stays open:
    the client waits for a reply that never comes. *)
Theorem oversized_reply_is_dropped {S} `{AppendLog S, StoreCounters S} options now type id payload rest (shared : Shared S)
    response_type response registry :
  is_u64 id -> zlen payload <= max_frame_payload_bytes (so_limits options) ->
  is_u32 (max_frame_payload_bytes (so_limits options)) ->
  dispatch options now (mkFrame type id payload) (sh_registry shared) = (response_type, response, registry) ->
  response_type <> MessageType.ShutdownAck -> max_frame_payload_bytes (so_limits options) < zlen response ->
  serve_frame options now (frame_header type id payload ++ payload ++ rest) shared =
    ([], mkShared registry (count_served (sh_stats shared)) (sh_shutdown_requested shared), Some rest).
Proof.
  intros Hid Hle Hmax Hd Hsh Hlt. rewrite serve_framed by done. unfold handled. rewrite Hd.
  rewrite (bool_decide_eq_false_2 _ Hsh), orb_false_r. unfold send_frame, encode_frame.
  by rewrite (proj2 (Z.ltb_lt _ _) Hlt).
Qed.

(** What is left of an inspection after the wire. *)
Definition forget_pending (v : PendingReferenceView) : PendingReferenceView :=
  mkPending (pr_evidence v) EvidenceKind.RegisterObject (pr_source v) (pr_incarnation v) (pr_generation v) (pr_detail v).
Definition forget_refusal (v : RefusalView) : RefusalView :=
  mkRefusal (rv_evidence v) EvidenceKind.RegisterObject (rv_source v) (rv_incarnation v) (rv_generation v)
    IngestDisposition.RefusedInvalid (rv_detail v).
Definition forget_inspection (v : InspectionView) : InspectionView :=
  mkInspection (iv_fenced_sessions v) (iv_fenced_objects v) (iv_unvalidated_ports v)
    (forget_pending <$> iv_pending_references v) (forget_refusal <$> iv_refusals v) (iv_summary v).

Lemma rt_each_map {A B} (f : A -> Enc) (d : Dec B) (g : A -> B) l :
  Forall (fun x => roundtrip (f x) d (g x)) l -> roundtrip (enc_each f l) (dec_repeat (length l) d) (g <$> l).
Proof.
  induction 1 as [|x l Hx _ IH]; cbn; [apply rt_ret|]. eapply rt_seq; [exact Hx|]. by apply (rt_map _ _ (cons (g x))).
Qed.

Lemma rt_bounded_map {A B} (f : A -> Enc) (d : Dec B) (g : A -> B) (P : A -> Prop) m l :
  is_u32 m -> (forall x, P x -> roundtrip (f x) d (g x)) -> wf_bounded m P l ->
  roundtrip (enc_vector f l) (decode_vector m d) (g <$> l).
Proof.
  intros Hm Hf [Hl HP]. unfold is_u32 in Hm. pose proof (zlen_nonneg l). unfold enc_vector, decode_vector.
  rewrite wrap32_small by (unfold is_u32; lia). eapply rt_seq; [apply rt_u32; unfold is_u32; lia|].
  apply rt_guard; [apply negb_true_iff, Z.ltb_ge; lia|]. unfold zlen. rewrite Nat2Z.id. apply rt_each_map.
  eapply Forall_impl; [exact HP|done].
Qed.

Section inspections.
Context (limits : Limits) (Hlim : limits_ok limits).

Lemma rt_pending v : wf_pending limits v -> roundtrip (encode_pending_view limits v) (decode_pending_view limits) (forget_pending v).
Proof using Hlim.
  assert (Hs : is_u32 (max_string_bytes limits)) by apply Hlim.
  assert (Hk : forall k : EvidenceKind.t, (1 <=? enum_code k) && (enum_code k <=? 9) = true) by (by intros []).
  unfold encode_pending_view, decode_pending_view, wf_pending. destruct v. cbn -[enum_code]. intros Hwf.
  unfold wf_string in *. destruct_and?. rt_steps.
Qed.

Lemma rt_refusal v : wf_refusal limits v -> roundtrip (encode_refusal_view limits v) (decode_refusal_view limits) (forget_refusal v).
Proof using Hlim.
  assert (Hs : is_u32 (max_string_bytes limits)) by apply Hlim.
  assert (Hk : forall (k : EvidenceKind.t) (d : IngestDisposition.t), negb ((enum_code k <? 1) || (9 <? enum_code k)
    || (enum_code IngestDisposition.RefusedPersistence <? enum_code d)) = true) by (by intros [] []).
  unfold encode_refusal_view, decode_refusal_view, wf_refusal. destruct v. cbn -[enum_code]. intros Hwf.
  unfold wf_string in *. destruct_and?. rt_steps.
Qed.

Lemma rt_fenced_session_view v :
  wf_fenced_session_view v -> roundtrip (encode_fenced_session_view v) decode_fenced_session_view v.
Proof using. unfold encode_fenced_session_view, decode_fenced_session_view, wf_fenced_session_view. rt_record v. Qed.

Lemma rt_fenced_object_view v :
  wf_fenced_object_view limits v -> roundtrip (encode_fenced_object_view limits v) (decode_fenced_object_view limits) v.
Proof using Hlim.
  assert (Hs : is_u32 (max_string_bytes limits)) by apply Hlim.
  unfold encode_fenced_object_view, decode_fenced_object_view, wf_fenced_object_view. rt_record v.
Qed.
End inspections.

(** An inspection loses what it lists. The reader of [InspectionView] checks the
    kind of every pending reference and the kind and disposition of every
    refusal, and stores none of them: an inspection within the limits comes back
    with every pending reference shown as a registration and every refusal as an
    invalid registration. Everything else comes back as it was. *)
Theorem inspection_forgets limits v :
  limits_u32 limits -> wf_inspection limits v -> enc_ok (encode_inspection_view limits v new_encoder) = true ->
  decode_all (decode_inspection_view limits) (payload_of (encode_inspection_view limits v)) = Some (forget_inspection v).
Proof.
  intros Hu (H1 & H2 & H3 & H4 & H5 & H6) Hok. pose proof (limits_u32_ok _ Hu) as Hlim. apply decode_payload; [|done].
  unfold encode_inspection_view, decode_inspection_view, forget_inspection.
  eapply rt_seq; [eapply rt_bounded; [apply wrap32_u32|apply rt_fenced_session_view|exact H1]|].
  eapply rt_seq; [eapply rt_bounded; [apply Hlim|by apply rt_fenced_object_view|exact H2]|].
  eapply rt_seq; [eapply rt_bounded; [apply Hlim|by apply rt_port_view|exact H3]|].
  eapply rt_seq; [eapply rt_bounded_map; [apply Hlim|by apply rt_pending|exact H4]|].
  eapply rt_seq; [eapply rt_bounded_map; [apply Hlim|by apply rt_refusal|exact H5]|].
  eapply rt_last; [by apply rt_summary|]. apply decodes_ret.
Qed.

(** A registry that is stopping answers an open-session request with a
    disposition that the reader of the reply refuses. *)
Theorem stopping_reply_is_malformed :
  let result := mkOpenSession OpenSessionDisposition.RefusedClosed (mkKey nil_id 0) 0 0 "the registry is stopping" in
  enc_ok (encode_open_session_result default_limits result new_encoder) = true /\
  decode_all (decode_open_session_result default_limits)
    (payload_of (encode_open_session_result default_limits result)) = None.
Proof. split; vm_compute; reflexivity. Qed.

(** An internal error of the server is unreadable for the client. *)
Theorem internal_failure_is_unreadable :
  let error := mkError ErrorCode.Internal "out of memory" in
  enc_ok (encode_failure default_limits error new_encoder) = true /\
  decode_all (decode_failure default_limits) (payload_of (encode_failure default_limits error)) = None.
Proof. split; vm_compute; reflexivity. Qed.

(** ** Examples *)

Definition sample_inspection : InspectionView :=
  mkInspection [] [] []
    [mkPending (from_parts 7 1) EvidenceKind.Attach (from_parts 0 1) 1 4 "the port is not registered yet"]
    [mkRefusal (from_parts 7 2) EvidenceKind.Move (from_parts 0 1) 1 5 IngestDisposition.RefusedConflict "conflict"]
    (mkSummary 0 0 0 0 0 0 0 0 0 0 0 0 0 0 0 1).

Lemma inspection_forgets_witness :
  forget_inspection sample_inspection <> sample_inspection /\
  decode_all (decode_inspection_view default_limits) (payload_of (encode_inspection_view default_limits sample_inspection)) =
    Some (forget_inspection sample_inspection).
Proof.
  split; [discriminate|]. apply (inspection_forgets default_limits sample_inspection).
  - unfold limits_u32. repeat constructor; vm_compute; congruence.
  - unfold wf_inspection, wf_bounded. repeat constructor; vm_compute; congruence.
  - vm_compute. reflexivity.
Defined.

Lemma frame_roundtrip_witness :
  decode_frame (encode_frame MessageType.Publish 7 [1; 2; 3] 1024) 1024 = inl (mkFrame MessageType.Publish 7 [1; 2; 3]).
Proof. apply (frame_roundtrip MessageType.Publish 7 [1; 2; 3] 1024); vm_compute; (congruence || by split). Defined.

Definition sample_header : list Z := frame_header MessageType.Publish 7 [1; 2; 3].

Lemma damaged_header_is_refused_witness :
  exists e, decode_frame_header (take 8 sample_header ++ [77] ++ drop 9 sample_header) 1024 = inr e.
Proof.
  apply (damaged_header_is_refused MessageType.Publish 7 [1; 2; 3] 1024 (take 8 sample_header)
    (take 1 (drop 8 sample_header)) [77] (drop 9 sample_header)).
  - repeat constructor; vm_compute; congruence.
  - vm_compute. reflexivity.
  - vm_compute. reflexivity.
  - vm_compute. lia.
  - vm_compute. congruence.
Defined.
