(* ===== verification/ServerLife.v ===== *)
(** * The threads of a server ([src/ipc/server.cpp])

    The acceptor, the connection threads and [Stop] as one state machine.  An
    event is what one thread does between two points where another thread can
    run: a section under the mutex, a call that blocks, the start of a thread, a
    notification, or a look at the stop flag.  What a connection thread does in
    between is [serve_connection] of [Server.v]; here it serves until its peer
    gives it a reason to end, or until it sees the flag. *)
From stdpp Require Import gmap sets.
From S2P Require Import Prelude.
#[local] Open Scope Z_scope.

(** Where the acceptor stands in [accept_loop]: waiting for a connection, holding
    one it accepted, about to start the thread of one it registered, or
    returned. *)
Inductive Acceptor := Waiting | Holding (connection : nat) | Spawning (connection : nat) | Ended.

(** A connection thread: in [serve_connection], or behind it. *)
Inductive Phase := Serving | Closing.

(** Where the caller of [Stop] stands: before it, behind each of its statements,
    asleep in [live_cv.wait], or returned.  At [Joined] it is awake and about to
    look at [live_connections] under the mutex. *)
Inductive Stopper := Running | Stopping | Flagged | Woken | Joined | Asleep | Stopped.

#[export] Instance Stopper_eq_dec : EqDecision Stopper.
Proof. solve_decision. Defined.

(** [th_leaving]: the connection threads behind the section in which they
    deregister, and before [live_cv.notify_all]. *)
Record Threads := mkThreads {
  th_stopping : bool;
  th_stop_flag : bool;
  th_wakeup : bool;
  th_active : gset nat;
  th_live : Z;
  th_acceptor : Acceptor;
  th_connections : gmap nat Phase;
  th_leaving : gset nat;
  th_stopper : Stopper;
  th_accepted : Z;
  th_rejected : Z;
  th_next : nat;
}.

Definition started : Threads := mkThreads false false false ∅ 0 Waiting ∅ ∅ Running 0 0 0.

Section updates.
Implicit Types t : Threads.

Definition set_acceptor (a : Acceptor) t : Threads :=
  mkThreads (th_stopping t) (th_stop_flag t) (th_wakeup t) (th_active t) (th_live t) a (th_connections t) (th_leaving t) (th_stopper t)
    (th_accepted t) (th_rejected t) (th_next t).
Definition set_stopper (s : Stopper) t : Threads :=
  mkThreads (th_stopping t) (th_stop_flag t) (th_wakeup t) (th_active t) (th_live t) (th_acceptor t) (th_connections t) (th_leaving t) s
    (th_accepted t) (th_rejected t) (th_next t).
Definition set_connections (m : gmap nat Phase) t : Threads :=
  mkThreads (th_stopping t) (th_stop_flag t) (th_wakeup t) (th_active t) (th_live t) (th_acceptor t) m (th_leaving t) (th_stopper t)
    (th_accepted t) (th_rejected t) (th_next t).

Definition set_leaving (l : gset nat) t : Threads :=
  mkThreads (th_stopping t) (th_stop_flag t) (th_wakeup t) (th_active t) (th_live t) (th_acceptor t) (th_connections t) l
    (th_stopper t) (th_accepted t) (th_rejected t) (th_next t).

(** [active.erase(connection); --live_connections], under the mutex. *)
Definition deregister (connection : nat) t : Threads :=
  mkThreads (th_stopping t) (th_stop_flag t) (th_wakeup t) (th_active t ∖ {[connection]}) (th_live t - 1) (th_acceptor t)
    (th_connections t) (th_leaving t) (th_stopper t) (th_accepted t) (th_rejected t) (th_next t).
End updates.

Inductive Event :=
  (** A connection is accepted. *)
  | Arrive
  (** [wait_readable] or [accept] fails. *)
  | AcceptFails
  (** The section under the mutex that refuses or registers the connection. *)
  | Register
  (** The thread starts, or cannot. *)
  | Spawn
  | SpawnFails
  (** The connection thread returns from [serve_connection] for a reason its peer
      gave: the end of the stream, a failure, a refused header or a shutdown. *)
  | Finish (connection : nat)
  (** It sees [stop_flag], at the head of its loop or between two slices of a
      transfer, and returns. *)
  | SeeStop (connection : nat)
  (** It deregisters under the mutex, and then notifies. *)
  | Leave (connection : nat)
  | Notify (connection : nat)
  (** The acceptor sees the wakeup byte. *)
  | Wakeup
  (** The statements of [Stop]. *)
  | CallStop
  | SetFlag
  | Wake
  | WakeFails
  | Join
  (** [live_cv.wait] looks at [live_connections]: [Stop] goes on to its end or falls
      asleep. *)
  | Drain
  (** A condition variable may wake its waiter for no reason. *)
  | Spurious.

Section machine.
Context (max_connections : Z).

(** An event's effect, where the thread it belongs to is at that point: the
    acceptor's ([accept_loop]), *)
Definition acceptor_event (event : Event) (t : Threads) : option Threads :=
  match event with
  | Arrive =>
      match th_acceptor t with
      | Waiting => Some (mkThreads (th_stopping t) (th_stop_flag t) (th_wakeup t) (th_active t) (th_live t)
                           (Holding (th_next t)) (th_connections t) (th_leaving t) (th_stopper t) (th_accepted t) (th_rejected t)
                           (Datatypes.S (th_next t)))
      | _ => None
      end
  | AcceptFails => match th_acceptor t with Waiting => Some (set_acceptor Ended t) | _ => None end
  | Register =>
      match th_acceptor t with
      | Holding c =>
          if th_stopping t || (max_connections <=? th_live t) then
            Some (mkThreads (th_stopping t) (th_stop_flag t) (th_wakeup t) (th_active t) (th_live t) Waiting
                    (th_connections t) (th_leaving t) (th_stopper t) (th_accepted t) (th_rejected t + 1) (th_next t))
          else
            Some (mkThreads (th_stopping t) (th_stop_flag t) (th_wakeup t) (th_active t ∪ {[c]}) (th_live t + 1)
                    (Spawning c) (th_connections t) (th_leaving t) (th_stopper t) (th_accepted t + 1) (th_rejected t) (th_next t))
      | _ => None
      end
  | Spawn =>
      match th_acceptor t with
      | Spawning c => Some (set_acceptor Waiting (set_connections (<[c := Serving]> (th_connections t)) t))
      | _ => None
      end
  | SpawnFails =>
      match th_acceptor t with Spawning c => Some (set_acceptor Waiting (deregister c t)) | _ => None end
  | Wakeup => match th_acceptor t with Waiting => if th_wakeup t then Some (set_acceptor Ended t) else None | _ => None end
  | _ => None
  end.

(** What a notification does to the waiter. *)
Definition notified (s : Stopper) : Stopper := match s with Asleep => Joined | s => s end.

(** a connection thread's ([connection_thread]), *)
Definition connection_event (event : Event) (t : Threads) : option Threads :=
  match event with
  | Finish c =>
      match th_connections t !! c with
      | Some Serving => Some (set_connections (<[c := Closing]> (th_connections t)) t)
      | _ => None
      end
  | SeeStop c =>
      match th_connections t !! c with
      | Some Serving => if th_stop_flag t then Some (set_connections (<[c := Closing]> (th_connections t)) t) else None
      | _ => None
      end
  | Leave c =>
      match th_connections t !! c with
      | Some Closing =>
          Some (deregister c (set_leaving (th_leaving t ∪ {[c]}) (set_connections (delete c (th_connections t)) t)))
      | _ => None
      end
  | Notify c =>
      if decide (c ∈ th_leaving t) then
        Some (set_stopper (notified (th_stopper t)) (set_leaving (th_leaving t ∖ {[c]}) t))
      else None
  | _ => None
  end.

(** and those of [Stop]. *)
Definition stop_event (event : Event) (t : Threads) : option Threads :=
  match event with
  | CallStop =>
      match th_stopper t with
      | Running => Some (mkThreads true (th_stop_flag t) (th_wakeup t) (th_active t) (th_live t) (th_acceptor t)
                           (th_connections t) (th_leaving t) Stopping (th_accepted t) (th_rejected t) (th_next t))
      | _ => None
      end
  | SetFlag =>
      match th_stopper t with
      | Stopping => Some (mkThreads (th_stopping t) true (th_wakeup t) (th_active t) (th_live t) (th_acceptor t)
                            (th_connections t) (th_leaving t) Flagged (th_accepted t) (th_rejected t) (th_next t))
      | _ => None
      end
  | Wake =>
      match th_stopper t with
      | Flagged => Some (mkThreads (th_stopping t) (th_stop_flag t) true (th_active t) (th_live t) (th_acceptor t)
                           (th_connections t) (th_leaving t) Woken (th_accepted t) (th_rejected t) (th_next t))
      | _ => None
      end
  | WakeFails => match th_stopper t with Flagged => Some (set_stopper Woken t) | _ => None end
  | Join => match th_stopper t, th_acceptor t with Woken, Ended => Some (set_stopper Joined t) | _, _ => None end
  | Drain =>
      match th_stopper t with
      | Joined =>
          if th_live t =? 0 then
            Some (mkThreads (th_stopping t) (th_stop_flag t) (th_wakeup t) ∅ (th_live t) (th_acceptor t)
                    (th_connections t) (th_leaving t) Stopped (th_accepted t) (th_rejected t) (th_next t))
          else Some (set_stopper Asleep t)
      | _ => None
      end
  | Spurious => match th_stopper t with Asleep => Some (set_stopper Joined t) | _ => None end
  | _ => None
  end.

Definition run (event : Event) (t : Threads) : option Threads :=
  match event with
  | Arrive | AcceptFails | Register | Spawn | SpawnFails | Wakeup => acceptor_event event t
  | Finish _ | SeeStop _ | Leave _ | Notify _ => connection_event event t
  | CallStop | SetFlag | Wake | WakeFails | Join | Drain | Spurious => stop_event event t
  end.

Inductive reachable : Threads -> Prop :=
  | reachable_start : reachable started
  | reachable_step t event t' : reachable t -> run event t = Some t' -> reachable t'.

(** ** The connections the server accounts for *)

Definition held (t : Threads) : gset nat :=
  dom (th_connections t) ∪ (match th_acceptor t with Spawning c => {[c]} | _ => ∅ end).

(** [Stop] has joined the acceptor. *)
Definition joined (s : Stopper) : Prop := s = Joined \/ s = Asleep \/ s = Stopped.

(** The accounts, and that no wakeup of [Stop] is lost: while it sleeps a connection
    is live or a thread is about to notify. *)
Record consistent (t : Threads) : Prop := {
  co_active : th_active t = held t;
  co_live : th_live t = Z.of_nat (size (held t));
  co_bound : th_live t <= max_connections;
  co_fresh : forall c, c ∈ held t -> (c < th_next t)%nat;
  co_holding : forall c, th_acceptor t = Holding c -> (c < th_next t)%nat /\ c ∉ held t;
  co_spawning : forall c, th_acceptor t = Spawning c -> th_connections t !! c = None;
  co_stopping : th_stopper t <> Running -> th_stopping t = true;
  co_flagged : th_stopper t <> Running -> th_stopper t <> Stopping -> th_stop_flag t = true;
  co_joined : joined (th_stopper t) -> th_acceptor t = Ended;
  co_stopped : th_stopper t = Stopped -> held t = ∅;
  co_asleep : th_stopper t = Asleep -> th_live t <> 0 \/ th_leaving t <> ∅;
}.

(** *** Every event keeps the accounts *)

Lemma size_add (X : gset nat) c : c ∉ X -> Z.of_nat (size (X ∪ {[c]})) = Z.of_nat (size X) + 1.
Proof using. intros Hc. rewrite size_union by set_solver. rewrite size_singleton. lia. Qed.

Lemma size_drop (X : gset nat) c : c ∈ X -> Z.of_nat (size (X ∖ {[c]})) = Z.of_nat (size X) - 1.
Proof using.
  intros Hc. assert (E : X = (X ∖ {[c]}) ∪ {[c]}) by (apply set_eq; intros x; destruct (decide (x = c)); set_solver).
  rewrite E at 2. rewrite size_add by set_solver. lia.
Qed.

(** Deregistering a connection that is in the accounts. *)
Lemma held_leave t c :
  consistent t -> is_Some (th_connections t !! c) ->
  held (set_connections (delete c (th_connections t)) t) = held t ∖ {[c]}.
Proof using.
  intros [_ _ _ _ _ Hsp _ _ _ _ _] [p Hc]. unfold held. cbn. rewrite dom_delete_L.
  apply set_eq. intros x. destruct (th_acceptor t) as [|d|d|] eqn:Ea; [set_solver..| |set_solver].
  specialize (Hsp d eq_refl). assert (d <> c) by congruence. set_solver.
Qed.

Lemma consistent_start : 0 <= max_connections -> consistent started.
Proof using. intros Hm. split; try done; unfold held; cbn; set_solver || done || congruence || (intros [?|[?|?]]; congruence). Qed.

Lemma consistent_register t t' : consistent t -> run Register t = Some t' -> consistent t'.
Proof using.
  intros Hc. cbn. destruct (th_acceptor t) as [|c|c|] eqn:Ea; try done.
  destruct Hc as [Ha Hl Hb Hf Hh Hsp Hs Hg Hj Hst Hz]. destruct (Hh c Ea) as [Hlt Hnot].
  assert (Eh : held t = dom (th_connections t)) by (unfold held; rewrite Ea; set_solver).
  destruct (th_stopping t) eqn:Es; cbn [orb].
  2: destruct (Z.leb_spec max_connections (th_live t)) as [|Hroom].
  - intros [= <-]. split; cbn; try done; unfold held in *; rewrite ?Ea in *; cbn; try set_solver; try congruence.
  - intros [= <-]. split; cbn; try done; unfold held in *; rewrite ?Ea in *; cbn; try set_solver; try congruence.
  - intros [= <-]. assert (Hrun : th_stopper t = Running) by (destruct (th_stopper t); [done|..]; by discriminate Hs).
    split; cbn; unfold held; cbn; rewrite ?Hrun; try done; try congruence.
    + rewrite size_add by (rewrite Eh in Hnot; set_solver). rewrite Hl, Eh. done.
    + lia.
    + intros d [Hd|Hd]%elem_of_union; [apply Hf; by rewrite Eh|]. apply elem_of_singleton in Hd as ->. done.
    + intros d [= <-]. rewrite Eh in Hnot. by apply not_elem_of_dom.
    + by intros [?|[?|?]].
Qed.

(** An event that leaves the accounts alone. *)
Lemma consistent_frame t t' :
  consistent t -> held t' = held t -> th_active t' = th_active t -> th_live t' = th_live t ->
  (th_next t <= th_next t')%nat ->
  (forall c, th_acceptor t' = Holding c -> (c < th_next t')%nat /\ c ∉ held t') ->
  (forall c, th_acceptor t' = Spawning c -> th_connections t' !! c = None) ->
  (th_stopper t' <> Running -> th_stopping t' = true) ->
  (th_stopper t' <> Running -> th_stopper t' <> Stopping -> th_stop_flag t' = true) ->
  (joined (th_stopper t') -> th_acceptor t' = Ended) ->
  (th_stopper t' = Stopped -> held t' = ∅) ->
  (th_stopper t' = Asleep -> th_live t <> 0 \/ th_leaving t' <> ∅) -> consistent t'.
Proof using.
  intros [Ha Hl Hb Hf Hh Hsp Hs Hg Hj Hst Hz] Eh Ea El Hn H1 H2 H3 H4 H5 H6 H7. split; try done.
  - by rewrite Ea, Eh.
  - by rewrite El, Eh.
  - by rewrite El.
  - intros c Hc. rewrite Eh in Hc. specialize (Hf c Hc). lia.
  - by rewrite El.
Qed.

Lemma held_waiting t : th_acceptor t = Waiting -> held t = dom (th_connections t).
Proof using. intros E. unfold held. rewrite E. by rewrite union_empty_r_L. Qed.

Lemma consistent_arrive t t' : consistent t -> run Arrive t = Some t' -> consistent t'.
Proof using.
  intros Hc. cbn. destruct (th_acceptor t) as [|c|c|] eqn:Eac; try done. intros [= <-].
  pose proof (held_waiting t Eac) as Eh. pose proof Hc as [Ha Hl Hb Hf Hh Hsp Hs Hg Hj Hst Hz].
  apply (consistent_frame t); try done; try (rewrite Eh; unfold held; cbn; apply union_empty_r_L).
  - cbn. lia.
  - cbn. intros d [= <-]. split; [lia|]. unfold held. cbn. rewrite union_empty_r_L, <- Eh.
    intros Hd. specialize (Hf _ Hd). lia.
  - cbn. intros Hjs. specialize (Hj Hjs). congruence.
  - cbn. intros E. specialize (Hj (or_intror (or_intror E))). congruence.
Qed.

Lemma consistent_ended t : consistent t -> th_acceptor t = Waiting -> consistent (set_acceptor Ended t).
Proof using.
  intros Hc Eac. pose proof Hc as [Ha Hl Hb Hf Hh Hsp Hs Hg Hj Hst Hz].
  assert (Eh : held (set_acceptor Ended t) = held t)
    by (rewrite (held_waiting t Eac); unfold held; cbn; apply union_empty_r_L).
  apply (consistent_frame t); try done. by rewrite Eh.
Qed.

Lemma consistent_spawn t t' : consistent t -> run Spawn t = Some t' -> consistent t'.
Proof using.
  intros Hc. cbn. destruct (th_acceptor t) as [|c|c|] eqn:Eac; try done. intros [= <-].
  pose proof Hc as [Ha Hl Hb Hf Hh Hsp Hs Hg Hj Hst Hz].
  apply (consistent_frame t); try done.
  - unfold held. cbn. rewrite Eac, dom_insert_L, union_empty_r_L. apply union_comm_L.
  - cbn. intros Hjs. specialize (Hj Hjs). congruence.
  - cbn. intros E. specialize (Hj (or_intror (or_intror E))). congruence.
Qed.

(** The connection thread and the acceptor that could not start it deregister. *)
Lemma consistent_deregister t t0 c :
  consistent t -> c ∈ held t -> held t0 = held t ∖ {[c]} ->
  th_active t0 = th_active t -> th_live t0 = th_live t -> th_next t0 = th_next t ->
  th_stopping t0 = th_stopping t -> th_stop_flag t0 = th_stop_flag t -> th_stopper t0 = th_stopper t ->
  (forall d, th_acceptor t0 = Holding d -> th_acceptor t = Holding d) ->
  (forall d, th_acceptor t0 = Spawning d -> th_connections t0 !! d = None) ->
  (th_acceptor t = Ended -> th_acceptor t0 = Ended) ->
  (th_stopper t = Asleep -> th_leaving t0 <> ∅) ->
  consistent (deregister c t0).
Proof using.
  intros [Ha Hl Hb Hf Hh Hsp Hs Hg Hj Hst Hz] Hc Eh Ea El En Es Eg Et H1 H2 H3 H4.
  assert (Hd : held (deregister c t0) = held t ∖ {[c]}) by exact Eh.
  split; rewrite ?Hd; cbn; rewrite ?Ea, ?El, ?En, ?Es, ?Eg, ?Et; try done.
  - by rewrite Ha.
  - rewrite size_drop by done. by rewrite Hl.
  - lia.
  - intros d Hdin. apply Hf. set_solver.
  - intros d Hd'. destruct (Hh d (H1 d Hd')). split; [done|set_solver].
  - intros Hj'. by apply H3, Hj.
  - intros E. specialize (Hst E). set_solver.
  - intros E. right. by apply H4.
Qed.

Lemma consistent_spawn_fails t t' : consistent t -> run SpawnFails t = Some t' -> consistent t'.
Proof using.
  intros Hc. pose proof Hc as [Ha Hl Hb Hf Hh Hsp Hs Hg Hj Hst Hz].
  cbn. destruct (th_acceptor t) as [|c|c|] eqn:Eac; try done. intros [= <-].
  apply (consistent_deregister t (set_acceptor Waiting t) c); try done.
  - unfold held. rewrite Eac. set_solver.
  - unfold held. cbn. rewrite Eac. specialize (Hsp c eq_refl). apply not_elem_of_dom in Hsp. set_solver.
  - cbn. intros E. congruence.
  - intros E. specialize (Hj (or_intror (or_introl E))). congruence.
Qed.

Lemma consistent_closing t c :
  consistent t -> th_connections t !! c = Some Serving ->
  consistent (set_connections (<[c := Closing]> (th_connections t)) t).
Proof using.
  intros Hc Ecn. pose proof Hc as [Ha Hl Hb Hf Hh Hsp Hs Hg Hj Hst Hz].
  assert (Eh : held (set_connections (<[c:=Closing]> (th_connections t)) t) = held t).
  { unfold held. cbn. rewrite dom_insert_L. apply elem_of_dom_2 in Ecn. set_solver. }
  apply (consistent_frame t); try done; rewrite ?Eh; try done.
  cbn. intros d Hd. destruct (decide (d = c)) as [->|Hne]; [specialize (Hsp c Hd); congruence|].
  rewrite lookup_insert_ne by done. by apply Hsp.
Qed.

Lemma consistent_finish t t' c : consistent t -> run (Finish c) t = Some t' -> consistent t'.
Proof using.
  intros Hc. cbn. destruct (th_connections t !! c) as [[]|] eqn:Ecn; try done. intros [= <-]. by apply consistent_closing.
Qed.

Lemma consistent_see_stop t t' c : consistent t -> run (SeeStop c) t = Some t' -> consistent t'.
Proof using.
  intros Hc. cbn. destruct (th_connections t !! c) as [[]|] eqn:Ecn; try done. destruct (th_stop_flag t) eqn:Ef; [|done].
  intros [= <-]. by apply consistent_closing.
Qed.

Lemma consistent_leave t t' c : consistent t -> run (Leave c) t = Some t' -> consistent t'.
Proof using.
  intros Hc. pose proof Hc as [Ha Hl Hb Hf Hh Hsp Hs Hg Hj Hst Hz].
  cbn. destruct (th_connections t !! c) as [[]|] eqn:Ecn; try done. intros [= <-].
  apply (consistent_deregister t); try done.
  - unfold held. apply elem_of_dom_2 in Ecn. set_solver.
  - by apply held_leave.
  - cbn. intros d Hd. destruct (decide (d = c)) as [->|Hne]; [apply lookup_delete_eq|].
    rewrite lookup_delete_ne by done. by apply Hsp.
  - intros _. cbn. set_solver.
Qed.

(** The statements of [Stop] before its last. *)
Lemma consistent_stopper t t' :
  consistent t -> th_connections t' = th_connections t -> th_acceptor t' = th_acceptor t ->
  th_active t' = th_active t -> th_live t' = th_live t -> th_next t' = th_next t ->
  (th_stopper t' <> Running -> th_stopping t' = true) ->
  (th_stopper t' <> Running -> th_stopper t' <> Stopping -> th_stop_flag t' = true) ->
  (joined (th_stopper t') -> th_acceptor t = Ended) -> th_stopper t' <> Stopped ->
  (th_stopper t' = Asleep -> th_live t <> 0 \/ th_leaving t' <> ∅) -> consistent t'.
Proof using.
  intros Hc Econ Eac Eact El En H1 H2 H3 H4 H5. pose proof Hc as [Ha Hl Hb Hf Hh Hsp Hs Hg Hj Hst Hz].
  assert (Eh : held t' = held t) by (unfold held; by rewrite Econ, Eac).
  by apply (consistent_frame t); rewrite ?Eh, ?Eac, ?Econ, ?En.
Qed.

Lemma consistent_notify t t' c : consistent t -> run (Notify c) t = Some t' -> consistent t'.
Proof using.
  intros Hc. cbn. destruct (decide (c ∈ th_leaving t)) as [Hin|]; [|done]. intros [= <-].
  destruct Hc as [Ha Hl Hb Hf Hh Hsp Hs Hg Hj Hst Hz].
  split; try done; cbn; destruct (th_stopper t); cbn; try done; intros; (apply Hs || apply Hg || apply Hj); unfold joined; auto.
Qed.

Lemma consistent_drain t t' : consistent t -> run Drain t = Some t' -> consistent t'.
Proof using.
  intros Hc. pose proof Hc as [Ha Hl Hb Hf Hh Hsp Hs Hg Hj Hst Hz].
  cbn. destruct (th_stopper t) eqn:Et; try done. specialize (Hj (or_introl eq_refl)).
  destruct (Z.eqb_spec (th_live t) 0) as [Ez|Hne]; intros [= <-].
  2: { apply (consistent_stopper t); cbn; try done; intros; [apply Hs|apply Hg|by left]; congruence. }
  assert (Ehe : held t = ∅) by (apply leibniz_equiv, size_empty_inv; lia).
  split; cbn; unfold held in *; cbn; rewrite ?Ehe, ?Hj; try done; try (intros; apply Hs || apply Hg; congruence).
Qed.

Lemma consistent_step t event t' : consistent t -> run event t = Some t' -> consistent t'.
Proof using.
  intros Hc. pose proof (co_stopping t Hc) as Hs. pose proof (co_flagged t Hc) as Hg.
  destruct event as [| | | | |c|c|c|c| | | | | | | |]; first
    [ by apply consistent_arrive | by apply consistent_register | by apply consistent_spawn | by apply consistent_spawn_fails
    | by apply consistent_finish | by apply consistent_see_stop | by apply consistent_leave | by apply consistent_notify
    | by apply consistent_drain | cbn ].
  - destruct (th_acceptor t) eqn:Eac; try done. intros [= <-]. by apply consistent_ended.
  - destruct (th_acceptor t) eqn:Eac; try done. destruct (th_wakeup t); [|done]. intros [= <-]. by apply consistent_ended.
  - destruct (th_stopper t); try done. intros [= <-]. apply (consistent_stopper t); try done. by intros [?|[?|?]].
  - destruct (th_stopper t); try done. intros [= <-].
    apply (consistent_stopper t); try done; [intros _; by apply Hs|by intros [?|[?|?]]].
  - destruct (th_stopper t); try done. intros [= <-].
    apply (consistent_stopper t); try done; intros; [by apply Hs|by apply Hg|unfold joined in *; by destruct_or?].
  - destruct (th_stopper t); try done. intros [= <-].
    apply (consistent_stopper t); try done; intros; [by apply Hs|by apply Hg|unfold joined in *; by destruct_or?].
  - destruct (th_stopper t), (th_acceptor t) eqn:Eac; try done. intros [= <-].
    apply (consistent_stopper t); try done; intros; [by apply Hs|by apply Hg].
  - pose proof (co_joined t Hc) as Hj. destruct (th_stopper t); try done. intros [= <-].
    apply (consistent_stopper t); try done; intros; [by apply Hs|by apply Hg|apply Hj; right; by left].
Qed.

Lemma reachable_consistent t : 0 <= max_connections -> reachable t -> consistent t.
Proof using. intros Hm. induction 1; [by apply consistent_start|by eapply consistent_step]. Qed.

(** Whatever the threads have done, the set [active] is exactly the
    connections the server is responsible for, a connection thread's or one whose
    thread is about to start; [live_connections] is their number and never passes
    [max_connections]. *)
Theorem server_accounts t :
  0 < max_connections -> reachable t ->
  th_active t = held t /\ th_live t = Z.of_nat (size (held t)) /\ 0 <= th_live t <= max_connections.
Proof using.
  intros Hm Hr. destruct (reachable_consistent t ltac:(lia) Hr) as [Ha Hl Hb _ _ _ _ _ _ _ _].
  repeat split; [done|done|lia|done].
Qed.

(** ** [Stop] *)

Lemma stopping_accepts_nothing t event t' :
  th_stopping t = true -> run event t = Some t' -> th_stopping t' = true /\ th_accepted t' = th_accepted t.
Proof using.
  intros Hs. destruct event; cbn; rewrite ?Hs; cbn [orb]; intros Hrun;
    repeat case_match; simplify_eq; cbn; done.
Qed.

Inductive steps : Threads -> Threads -> Prop :=
  | steps_none t : steps t t
  | steps_one t event t' t'' : run event t = Some t' -> steps t' t'' -> steps t t''.

Lemma reachable_steps t t' : reachable t -> steps t t' -> reachable t'.
Proof using. intros Hr. induction 1 as [|t event t' t'' Hrun _ IH]; [done|]. apply IH. by apply (reachable_step t event). Qed.

Definition run_all (events : list Event) (t : Threads) : option Threads :=
  foldl (fun t event => t ≫= run event) (Some t) events.

Lemma foldl_none events : foldl (fun t event => t ≫= run event) None events = None.
Proof using. by induction events. Qed.

Lemma run_all_steps events t t' : run_all events t = Some t' -> steps t t'.
Proof using.
  unfold run_all. revert t. induction events as [|event events IH]; intros t; cbn; [intros [= ->]; constructor|].
  destruct (run event t) as [t1|] eqn:E; [|by rewrite foldl_none].
  intros H. eapply steps_one; [done|by apply IH].
Qed.

Lemma run_all_reachable events t : run_all events started = Some t -> reachable t.
Proof using. intros H. apply (reachable_steps started); [constructor|by apply (run_all_steps events)]. Qed.

Lemma steps_accept_nothing t t' :
  steps t t' -> th_stopping t = true -> th_accepted t' = th_accepted t.
Proof using.
  induction 1 as [|t event t' t'' Hrun _ IH]; [done|]. intros Hs.
  destruct (stopping_accepts_nothing t event t' Hs Hrun) as [Hs' <-]. by apply IH.
Qed.

(** C26: When [Stop] has returned, the acceptor has returned, no connection is
    registered or served, and every connection thread is gone but for those that
    have deregistered and are still about to call [live_cv.notify_all]: their
    notifications are all that can happen any more. From the moment [Stop] took
    the mutex no connection was taken on. *)
Theorem stop_is_complete t0 t :
  0 < max_connections -> reachable t0 -> th_stopping t0 = true -> steps t0 t -> th_stopper t = Stopped ->
  th_acceptor t = Ended /\ th_connections t = ∅ /\ th_active t = ∅ /\ th_live t = 0 /\ th_accepted t = th_accepted t0 /\
  forall event, is_Some (run event t) -> exists c, event = Notify c /\ c ∈ th_leaving t.
Proof using.
  intros Hm Hr0 Hs0 Hsteps Hst. pose proof (reachable_steps t0 t Hr0 Hsteps) as Hr.
  destruct (reachable_consistent t ltac:(lia) Hr) as [Ha Hl _ _ _ _ _ _ Hj Hstp _].
  specialize (Hj (or_intror (or_intror Hst))). specialize (Hstp Hst). rewrite Hstp in Ha, Hl.
  assert (Hcon : th_connections t = ∅) by (apply dom_empty_inv_L; unfold held in Hstp; set_solver).
  repeat split; [done..|by apply steps_accept_nothing|].
  intros event [t' Hrun]. destruct event as [| | | | |c|c|c|c| | | | | | | |]; cbn in Hrun; rewrite ?Hj, ?Hcon, ?Hst, ?lookup_empty in Hrun; try done.
  destruct (decide (c ∈ th_leaving t)); [by exists c|done].
Qed.

(** The notification comes after the mutex is released, so [Stop] can see that no
    connection is live and return while the thread has yet to call [notify_all] on
    a member of the server, which its owner may destroy by then. *)
Theorem stop_outruns_notify :
  0 < max_connections -> exists t, reachable t /\ th_stopper t = Stopped /\ 0%nat ∈ th_leaving t /\ is_Some (run (Notify 0) t).
Proof using.
  intros Hm. eexists. split; [|split_and!].
  - apply (run_all_reachable [Arrive; Register; Spawn; CallStop; SetFlag; Wake; Wakeup; Join; SeeStop 0; Leave 0; Drain]).
    unfold run_all. cbn. destruct (Z.leb_spec max_connections 0); [lia|]. cbn. reflexivity.
  - done.
  - cbn. set_solver.
  - cbn. rewrite decide_True by set_solver. by eauto.
Qed.

(** *** [Stop] returns

    What the threads of the server do by themselves, sooner or later. A connection
    that arrives, a peer that hangs up, a call that fails and a spurious wakeup are
    somebody else's doing, and nothing may depend on them. *)
Definition due (event : Event) : bool :=
  match event with Arrive | AcceptFails | SpawnFails | Finish _ | WakeFails | Spurious => false | _ => true end.

(** The events that can repeat: an arrival and a spurious wakeup. *)
Definition repeats (event : Event) : bool := match event with Arrive | Spurious => true | _ => false end.

(** Whatever order the threads run in, whatever else happens, and with at most
    [more] arrivals and spurious wakeups, a state of [P] is reached: until then some
    thread can always run by itself. A lost wakeup is treated below. *)
Inductive inevitable (P : Threads -> Prop) : nat -> Threads -> Prop :=
  | inevitable_now more t : P t -> inevitable P more t
  | inevitable_later more t :
      (exists event, due event = true /\ is_Some (run event t)) ->
      (forall event t', event <> WakeFails -> repeats event = false -> run event t = Some t' -> inevitable P more t') ->
      (forall fewer event t', more = Datatypes.S fewer -> repeats event = true -> run event t = Some t' -> inevitable P fewer t') ->
      inevitable P more t.

(** What is left to do: by the acceptor, the connection threads and [Stop]. *)
Definition acceptor_work (a : Acceptor) : nat := match a with Ended => 0 | Waiting => 1 | Holding _ => 2 | Spawning _ => 6 end.
Definition phase_work (p : Phase) : nat := match p with Serving => 4 | Closing => 3 end.
Definition connections_work (m : gmap nat Phase) : nat := map_fold (fun _ p n => (phase_work p + n)%nat) 0%nat m.
Definition stopper_work (s : Stopper) : nat :=
  match s with Running => 6 | Stopping => 5 | Flagged => 4 | Woken => 3 | Joined => 2 | Asleep => 1 | Stopped => 0 end.
Definition work (t : Threads) : nat :=
  (acceptor_work (th_acceptor t) + connections_work (th_connections t) + 2 * size (th_leaving t) + stopper_work (th_stopper t))%nat.

Lemma connections_work_insert m c p :
  m !! c = None -> connections_work (<[c:=p]> m) = (phase_work p + connections_work m)%nat.
Proof using. intros Hc. unfold connections_work; rewrite map_fold_insert_L; [done|intros; lia|done]. Qed.

Lemma connections_work_delete m c p :
  m !! c = Some p -> connections_work m = (phase_work p + connections_work (delete c m))%nat.
Proof using. intros Hc. unfold connections_work; apply (map_fold_delete_L (fun _ p n => (phase_work p + n)%nat)); [intros; lia|done]. Qed.

Lemma connections_work_update m c p q :
  m !! c = Some p -> (connections_work (<[c:=q]> m) + phase_work p = connections_work m + phase_work q)%nat.
Proof using.
  intros Hc. rewrite (connections_work_delete m c p Hc), <- insert_delete_eq.
  rewrite connections_work_insert by apply lookup_delete_eq. lia.
Qed.

(** [Stop] was called, and if it has written the wakeup then the byte is there. *)
Definition stopping (t : Threads) : Prop := th_stopper t <> Running /\ (th_stopper t = Woken -> th_wakeup t = true).

Lemma stopping_step t event t' :
  event <> WakeFails -> stopping t -> run event t = Some t' -> stopping t'.
Proof using.
  intros Hw [Hr Hk] Hrun. unfold stopping.
  destruct event; cbn in Hrun; repeat case_match; simplify_eq; cbn; split; try done; try (by intros);
    by destruct (th_stopper t); cbn; try done; intros; apply Hk.
Qed.

Lemma leaving_join (X : gset nat) c : (size (X ∪ {[c]}) <= size X + 1)%nat.
Proof using. rewrite size_union_alt. pose proof (subseteq_size ({[c]} ∖ X) {[c]} ltac:(set_solver)) as H. rewrite size_singleton in H. lia. Qed.

Lemma notified_work s : (stopper_work (notified s) <= stopper_work s + 1)%nat.
Proof using. destruct s; cbn; lia. Qed.

Lemma work_decreases t event t' :
  consistent t -> stopping t -> repeats event = false -> run event t = Some t' -> (work t' < work t)%nat.
Proof using.
  intros Hc [Hr _] Hrep Hrun. pose proof (co_stopping t Hc Hr) as Hs. pose proof (co_spawning t Hc) as Hsp. unfold work.
  destruct event as [| | | | |c|c|c|c| | | | | | | |]; try done; cbn in Hrun; rewrite ?Hs in Hrun; cbn [orb] in Hrun; repeat case_match; simplify_eq; cbn;
    repeat match goal with E : th_acceptor t = _ |- _ => rewrite E; revert E | E : th_stopper t = _ |- _ => rewrite E; revert E end;
    intros; cbn [acceptor_work stopper_work]; try lia; try done.
  - rewrite connections_work_insert by (by apply Hsp). cbn. lia.
  - match goal with E : th_connections t !! ?c = Some ?p |- _ => pose proof (connections_work_update _ c p Closing E) as Hu end.
    cbn in Hu. lia.
  - match goal with E : th_connections t !! ?c = Some ?p |- _ => pose proof (connections_work_update _ c p Closing E) as Hu end.
    cbn in Hu. lia.
  - match goal with E : th_connections t !! ?c = Some ?p |- _ => pose proof (connections_work_delete _ c p E) as Hu end.
    pose proof (leaving_join (th_leaving t) c). cbn in Hu. lia.
  - pose proof (notified_work (th_stopper t)). match goal with E : c ∈ th_leaving t |- _ => pose proof (size_drop (th_leaving t) c E) end. lia.
Qed.

(** A repeated event adds at most one. *)
Lemma work_repeats t event t' : repeats event = true -> run event t = Some t' -> (work t' <= work t + 1)%nat.
Proof using.
  unfold work. intros Hrep Hrun. destruct event; try done; cbn in Hrun; repeat case_match; simplify_eq; cbn;
    repeat match goal with E : th_acceptor t = _ |- _ => rewrite E; revert E | E : th_stopper t = _ |- _ => rewrite E; revert E end;
    intros; cbn [acceptor_work stopper_work]; lia.
Qed.

(** A thread whose connection is live runs once the flag is set, *)
Lemma live_thread_runs t :
  consistent t -> th_stop_flag t = true -> th_acceptor t = Ended -> th_live t <> 0 ->
  exists event, due event = true /\ is_Some (run event t).
Proof using.
  intros Hc Hf Hj Hne. pose proof (co_live t Hc) as Hl. assert (Hcon : th_connections t <> ∅).
  { intros E. rewrite Hl in Hne. unfold held in Hne. rewrite E, Hj, dom_empty_L, union_empty_r_L, size_empty in Hne. done. }
  apply map_choose in Hcon as (c & p & Ecp).
  destruct p; [exists (SeeStop c)|exists (Leave c)]; cbn; rewrite Ecp, ?Hf; by eauto.
Qed.

(** and so does one that has yet to notify. *)
Lemma leaving_thread_runs t : th_leaving t <> ∅ -> exists event, due event = true /\ is_Some (run event t).
Proof using.
  intros Hne. apply set_choose_L in Hne as [c Hc]. exists (Notify c). cbn. rewrite decide_True by done. by eauto.
Qed.

Lemma some_thread_can_run t :
  consistent t -> stopping t -> th_stopper t <> Stopped -> exists event, due event = true /\ is_Some (run event t).
Proof using.
  intros Hc [Hr Hk] Hns. pose proof (co_joined t Hc) as Hj. pose proof (co_flagged t Hc Hr) as Hf.
  pose proof (co_asleep t Hc) as Hz. destruct (th_stopper t) eqn:Et; try done.
  - exists SetFlag. cbn. rewrite Et. by eauto.
  - exists Wake. cbn. rewrite Et. by eauto.
  - specialize (Hk eq_refl). destruct (th_acceptor t) as [|c|c|] eqn:Ea.
    + exists Wakeup. cbn. rewrite Ea, Hk. by eauto.
    + exists Register. cbn. rewrite Ea. case_match; by eauto.
    + exists Spawn. cbn. rewrite Ea. by eauto.
    + exists Join. cbn. rewrite Et, Ea. by eauto.
  - exists Drain. cbn. rewrite Et. case_match; by eauto.
  - destruct (Hz eq_refl) as [Hl|Hl]; [|by apply leaving_thread_runs].
    apply live_thread_runs; [done|by apply Hf|apply Hj; right; by left|done].
Qed.


Lemma reachable_stopping t : reachable t -> th_stopper t <> Running -> th_stopping t = true.
Proof using.
  induction 1 as [|t event t' _ IH Hrun]; [done|].
  destruct event; cbn in Hrun; repeat case_match; simplify_eq; cbn in *; try done; intros; apply IH; try congruence;
    by destruct (th_stopper t).
Qed.

(** The acceptor looks at its listener first ([wait_readable]), so the wakeup
    byte alone does not bring it out: after any number of arrivals, each accepted
    and refused at once, [Stop] still waits to join it. *)
Theorem stop_can_starve n :
  exists t, reachable t /\ th_stopper t = Woken /\ th_wakeup t = true /\ th_acceptor t = Waiting /\ th_rejected t = Z.of_nat n.
Proof using.
  induction n as [|n (t & Hr & Hst & Hw & Ha & Hrej)].
  - eexists. split; [|split_and!].
    + by apply (run_all_reachable [CallStop; SetFlag; Wake]).
    + done.
    + done.
    + done.
    + done.
  - assert (Hs : th_stopping t = true) by (apply reachable_stopping; [done|congruence]).
    eexists. split; [|split_and!].
    + eapply (reachable_step _ Register); [eapply (reachable_step t Arrive); [done|]; cbn; rewrite Ha; reflexivity|].
      cbn. rewrite Hs. reflexivity.
    + done.
    + done.
    + done.
    + cbn. lia.
Qed.

(** One connection that cannot be accepted is the last: when [accept] or the
    wait before it fails once, [accept_loop] returns, and although the server was
    never asked to stop, whatever happens afterwards it takes on no connection. *)
Theorem failed_accept_is_final t t1 t2 :
  run AcceptFails t = Some t1 -> steps t1 t2 ->
  th_stopping t1 = th_stopping t /\ th_acceptor t2 = Ended /\ th_accepted t2 = th_accepted t /\ run Arrive t2 = None.
Proof using.
  cbn. destruct (th_acceptor t) eqn:Ea; try done. intros [= <-] Hsteps.
  assert (He : th_acceptor t2 = Ended /\ th_accepted t2 = th_accepted (set_acceptor Ended t)).
  { assert (H0 : th_acceptor (set_acceptor Ended t) = Ended) by done. revert H0.
    induction Hsteps as [|t0 event t' t'' Hrun _ IH]; [done|]. intros H0.
    assert (H1 : th_acceptor t' = Ended /\ th_accepted t' = th_accepted t0)
      by (destruct event; cbn in Hrun; rewrite ?H0 in Hrun; repeat case_match; simplify_eq; done).
    destruct H1 as [H1 <-]. by apply IH. }
  destruct He as [He Hacc]. by rewrite He.
Qed.

(** A wakeup that cannot be written is ignored, and [Stop] then waits for the
    acceptor until a connection happens to arrive: no thread of the server can
    run. *)
Theorem lost_wakeup_hangs :
  exists t, reachable t /\ th_stopper t = Woken /\ th_connections t = ∅ /\
    forall event, is_Some (run event t) -> event = Arrive \/ event = AcceptFails.
Proof using.
  eexists. split; [|split_and!].
  - by apply (run_all_reachable [CallStop; SetFlag; WakeFails]).
  - done.
  - done.
  - intros event [t' Hrun]. destruct event; cbn in Hrun; try done; by auto.
Qed.
End machine.

(** ** A server with one connection that is stopped *)

Definition serving_one : list Event := [Arrive; Register; Spawn].
Definition called_stop : list Event := serving_one ++ [Arrive; CallStop].
Definition stopping_run : list Event :=
  [SetFlag; Wake; Register; Wakeup; Join; Drain; SeeStop 0; Leave 0; Notify 0; Drain].

Definition state_after (events : list Event) : Threads := default started (run_all 2 events started).

Lemma server_accounts_witness :
  th_active (state_after serving_one) = held (state_after serving_one) /\
  th_live (state_after serving_one) = Z.of_nat (size (held (state_after serving_one))) /\
  0 <= th_live (state_after serving_one) <= 2.
Proof.
  apply (server_accounts 2 (state_after serving_one)); [lia|].
  apply (run_all_reachable 2 serving_one). vm_compute. reflexivity.
Defined.

Lemma stop_is_complete_witness :
  th_acceptor (state_after (called_stop ++ stopping_run)) = Ended /\
  th_connections (state_after (called_stop ++ stopping_run)) = ∅ /\
  th_active (state_after (called_stop ++ stopping_run)) = ∅ /\ th_live (state_after (called_stop ++ stopping_run)) = 0 /\
  th_accepted (state_after (called_stop ++ stopping_run)) = th_accepted (state_after called_stop) /\
  forall event, is_Some (run 2 event (state_after (called_stop ++ stopping_run))) ->
    exists c, event = Notify c /\ c ∈ th_leaving (state_after (called_stop ++ stopping_run)).
Proof.
  apply (stop_is_complete 2 (state_after called_stop) (state_after (called_stop ++ stopping_run))); [lia|..].
  - apply (run_all_reachable 2 called_stop). vm_compute. reflexivity.
  - vm_compute. reflexivity.
  - apply (run_all_steps 2 stopping_run). vm_compute. reflexivity.
  - vm_compute. reflexivity.
Defined.


Lemma failed_accept_is_final_witness :
  th_stopping (state_after (serving_one ++ [AcceptFails])) = th_stopping (state_after serving_one) /\
  th_acceptor (state_after (serving_one ++ [AcceptFails; Finish 0; Leave 0])) = Ended /\
  th_accepted (state_after (serving_one ++ [AcceptFails; Finish 0; Leave 0])) = th_accepted (state_after serving_one) /\
  run 2 Arrive (state_after (serving_one ++ [AcceptFails; Finish 0; Leave 0])) = None.
Proof.
  apply (failed_accept_is_final 2 (state_after serving_one) (state_after (serving_one ++ [AcceptFails]))
    (state_after (serving_one ++ [AcceptFails; Finish 0; Leave 0]))).
  - vm_compute. reflexivity.
  - apply (run_all_steps 2 [Finish 0; Leave 0]). vm_compute. reflexivity.
Defined.
