(* ===== verification/ServerNet.v ===== *)
(** * The descriptors of a server ([src/ipc/server.cpp])

    [Server::Start] with its error paths, and the machine of [ServerLife.v]
    joined with the sockets its threads hold: [accept_loop] waits and accepts
    through the calls of [Net.v], the threads close what they were given, and [Stop]
    closes the rest. *)
From stdpp Require Import gmap sets.
From S2P Require Import Prelude Types Text Socket Net Server ServerLife.
#[local] Open Scope string_scope.
#[local] Open Scope Z_scope.

(** The sockets of [Server::Impl], its port, and whether [acceptor] is joinable. *)
Record ServerSockets := mkServerSockets {
  sk_listener : Socket;
  sk_wakeup_reader : Socket;
  sk_wakeup_writer : Socket;
  sk_bound_port : Z;
  sk_acceptor : bool;
}.

(** [new Server()]. *)
Definition new_server : ServerSockets := mkServerSockets kInvalidSocket kInvalidSocket kInvalidSocket 0 false.

(** [Server::endpoint]. *)
Definition endpoint (options : ServerOptions) (server : ServerSockets) : string :=
  so_bind_address options +:+ ":" +:+ to_dec (sk_bound_port server).

#[export] Instance Event_eq_dec : EqDecision Event.
Proof. solve_decision. Defined.

Section server.
Context (os : nat -> SysAnswer).
Implicit Types n : Net.

(** [listener.close(); wakeup_reader.close(); wakeup_writer.close();] *)
Definition close_all (server : ServerSockets) n : Net :=
  close_socket (sk_wakeup_writer server) (close_socket (sk_wakeup_reader server) (close_socket (sk_listener server) n)).
Definition closed (server : ServerSockets) : ServerSockets :=
  mkServerSockets kInvalidSocket kInvalidSocket kInvalidSocket (sk_bound_port server) (sk_acceptor server).

(** [Stop] as the destructor of a server that has no acceptor makes it: there is
    nothing to join and no connection to wait for. *)
Definition stop_unstarted (server : ServerSockets) n : Net := close_all server (wake os (sk_wakeup_writer server) n).2.

(** [Server::Start]. A failure destroys the server made so far. *)
Definition start (options : ServerOptions) n : Outcome ServerSockets * Net :=
  match check_options options with
  | inr error => (inr error, n)
  | inl _ =>
      match listen_on os (so_bind_address options) (so_port options) (so_listen_backlog options) 0 n with
      | (inr error, n) => (inr error, stop_unstarted new_server n)
      | (inl (listener, bound_port), n) =>
          match make_pair os n with
          | (inr error, n) =>
              (inr error,
               stop_unstarted (mkServerSockets kInvalidSocket kInvalidSocket kInvalidSocket bound_port false)
                 (close_socket listener n))
          | (inl (writer, reader), n) =>
              let server := mkServerSockets listener reader writer bound_port false in
              match ask os n with
              | (Denied reason, n) =>
                  (inr (mkError ErrorCode.Internal ("could not start the acceptor thread: " +:+ reason)),
                   stop_unstarted (closed server) (close_all server n))
              | (Granted _, n) => (inl (mkServerSockets listener reader writer bound_port true), n)
              end
          end
      end
  end.

(** ** The threads and their sockets *)

(** [lv_sockets] holds the sockets of the connections that are not closed. *)
Record Live := mkLive {
  lv_threads : Threads;
  lv_net : Net;
  lv_server : ServerSockets;
  lv_sockets : gmap nat Socket;
}.

(** What the acceptor finds at the head of its loop, with the socket it accepted. *)
Definition accept_turn (server : ServerSockets) n : Event * Socket * Net :=
  match wait_readable os (sk_listener server) (sk_wakeup_reader server) n with
  | (inr _, n) => (AcceptFails, kInvalidSocket, n)
  | (inl ready, n) =>
      if ready =? 1 then (Wakeup, kInvalidSocket, n)
      else
        match accept os (sk_listener server) n with
        | (inr _, n) => (AcceptFails, kInvalidSocket, n)
        | (inl connection, n) => (Arrive, connection, n)
        end
  end.

(** The effect of an event on the sockets; [None] where the operating system
    answers otherwise. *)
Definition Effect : Type := Net * ServerSockets * gmap nat Socket.

Definition close_connection (c : nat) (server : ServerSockets) (sockets : gmap nat Socket) n : Effect :=
  match sockets !! c with
  | Some connection => (close_socket connection n, server, delete c sockets)
  | None => (n, server, sockets)
  end.

Context (max_connections : Z).

Definition refuses (t : Threads) : bool := th_stopping t || (max_connections <=? th_live t).

Definition effect (event : Event) (l : Live) : option Effect :=
  let n := lv_net l in
  let server := lv_server l in
  let sockets := lv_sockets l in
  let t := lv_threads l in
  match event with
  | Arrive | AcceptFails | Wakeup =>
      let '(seen, connection, n) := accept_turn server n in
      if bool_decide (seen = event) then
        Some (n, server, if bool_decide (event = Arrive) then <[th_next t := connection]> sockets else sockets)
      else None
  | Register =>
      match th_acceptor t with
      | Holding c =>
          if refuses t then
            Some (close_connection c server sockets (shutdown_socket os (default kInvalidSocket (sockets !! c)) n))
          else Some (n, server, sockets)
      | _ => None
      end
  | SpawnFails => match th_acceptor t with Spawning c => Some (close_connection c server sockets n) | _ => None end
  | Finish c | SeeStop c => Some (close_connection c server sockets n)
  | Wake => match wake os (sk_wakeup_writer server) n with (inl _, n) => Some (n, server, sockets) | _ => None end
  | WakeFails => match wake os (sk_wakeup_writer server) n with (inr _, n) => Some (n, server, sockets) | _ => None end
  | Drain => if th_live t =? 0 then Some (close_all server n, closed server, sockets) else Some (n, server, sockets)
  | Spawn | Leave _ | Notify _ | CallStop | SetFlag | Join | Spurious => Some (n, server, sockets)
  end.

Definition live_run (event : Event) (l : Live) : option Live :=
  t ← run max_connections event (lv_threads l);
  '(n, server, sockets) ← effect event l;
  Some (mkLive t n server sockets).

(** A server just started, and everything that can become of it. *)
Definition live_start (server : ServerSockets) n : Live := mkLive started n server ∅.

Inductive live_reachable (l0 : Live) : Live -> Prop :=
  | live_now : live_reachable l0 l0
  | live_then l event l' : live_reachable l0 l -> live_run event l = Some l' -> live_reachable l0 l'.
End server.

(** ** Starting loses nothing *)

Definition own_sockets (server : ServerSockets) : gset Z :=
  {[sk_listener server; sk_wakeup_reader server; sk_wakeup_writer server]}.

Lemma valid_nonneg d : 0 <= d -> valid d = true.
Proof. intros Hd. unfold valid, kInvalidSocket. destruct (Z.eqb_spec d (-1)); [lia|done]. Qed.

(** Closing the three sockets of a server takes exactly them away. *)
Lemma close_all_open server n :
  (forall d, d ∈ own_sockets server -> 0 <= d) ->
  net_open (close_all server n) = net_open n ∖ own_sockets server /\ net_lists (close_all server n) = net_lists n.
Proof.
  intros Hd. unfold close_all, close_socket. unfold own_sockets in *.
  rewrite !valid_nonneg by (apply Hd; set_solver). cbn. split; [set_solver|done].
Qed.

Definition started_server (server : ServerSockets) (n n' : Net) : Prop :=
  gained (own_sockets server) 3 n n' /\
  sk_wakeup_reader server <> sk_listener server /\ sk_wakeup_writer server <> sk_listener server /\
  sk_wakeup_writer server <> sk_wakeup_reader server.

Lemma start_accounts os options n :
  match start os options n with
  | (inl server, n') => started_server server n n'
  | (inr _, n') => same_resources n n'
  end.
Proof.
  unfold start. destruct (check_options options) as [_|]; [|done].
  pose proof (listen_on_accounts os (so_bind_address options) (so_port options) (so_listen_backlog options) 0 n) as Hl.
  destruct (listen_on _ _ _ _ _ n) as [[[listener port]|error] n1]; cbn [makes_one fst] in Hl; [|done].
  pose proof (make_pair_accounts os n1) as Hp. destruct (make_pair os n1) as [[[writer reader]|error] n2].
  2:{ unfold close_socket. rewrite (gained_valid _ _ _ _ Hl). change (same_resources n (sys_close listener n2)).
      apply (gained_close listener 0). by apply (gained_same _ _ _ n1). }
  destruct Hp as [Hp Hne]. set (server := mkServerSockets listener reader writer port false).
  assert (Hg : gained (own_sockets server) 3 n n2 /\ (listener ∉ ({[writer; reader]} : gset Z))).
  { destruct Hl as [H1 H2 H3 H4], Hp as [G1 G2 G3 G4]. rewrite H1 in G1, G2, G3. split; [|set_solver].
    split; unfold own_sockets; cbn [sk_listener sk_wakeup_reader sk_wakeup_writer server].
    - rewrite G1. set_solver.
    - set_solver.
    - rewrite size_union, size_singleton in G3 by set_solver. intros d Hd.
      destruct (decide (d = listener)) as [->|Hn]; [specialize (H3 listener ltac:(set_solver)); lia|].
      specialize (G3 d ltac:(set_solver)). lia.
    - congruence. }
  destruct Hg as [Hg Hnot]. unfold ask. destruct (os (net_asked n2)).
  - change (same_resources n (close_all server (mkNet (net_open n2) (net_lists n2) (Datatypes.S (net_asked n2))))).
    destruct (close_all_open server (mkNet (net_open n2) (net_lists n2) (Datatypes.S (net_asked n2)))) as [Eo El].
    { intros d Hd. apply (ga_bound _ _ _ _ Hg d Hd). }
    split; rewrite ?Eo, ?El; cbn; [|by apply (ga_lists _ _ _ _ Hg)].
    rewrite (ga_open _ _ _ _ Hg). pose proof (ga_new _ _ _ _ Hg). set_solver.
  - split; [by apply (gained_same _ _ _ n2)|]. cbn. set_solver.
Qed.

(** ** Every socket is somebody's *)

(** The open descriptors are those of the rest of the process, the server's own and
    those of its connections, without overlap. *)
Record holds (base own : gset Z) (lists : Z) (sockets : gmap nat Socket) (n : Net) : Prop := {
  ho_open : net_open n = base ∪ own ∪ map_img sockets;
  ho_own : own ## base;
  ho_sockets : map_img sockets ## base ∪ own;
  ho_inj : forall c1 c2 d, sockets !! c1 = Some d -> sockets !! c2 = Some d -> c1 = c2;
  ho_nonneg : forall d, d ∈ own ∪ map_img sockets -> 0 <= d;
  ho_lists : net_lists n = lists;
}.

Section holding.
Context (base : gset Z) (lists : Z).
Implicit Types (own : gset Z) (sockets : gmap nat Socket) (n : Net).

Lemma holds_same own sockets n n' : same_resources n n' -> holds base own lists sockets n -> holds base own lists sockets n'.
Proof. intros [Eo El] [H1 H2 H3 H4 H5 H6]. split; rewrite ?Eo, ?El; done. Qed.

Lemma map_img_delete_inj sockets c d :
  (forall c1 c2 d, sockets !! c1 = Some d -> sockets !! c2 = Some d -> c1 = c2) -> sockets !! c = Some d ->
  map_img (SA := gset Z) (delete c sockets) = map_img sockets ∖ {[d]}.
Proof.
  intros Hinj Hc. apply set_eq. intros x. rewrite elem_of_difference, elem_of_singleton, !elem_of_map_img.
  setoid_rewrite lookup_delete_Some. split.
  - intros (i & Hi & Hx). split; [by exists i|]. intros ->. apply Hi. by apply (Hinj _ _ d).
  - intros [(i & Hx) Hd]. exists i. split; [|done]. congruence.
Qed.

Lemma holds_close own sockets n c server :
  holds base own lists sockets n ->
  holds base own lists (close_connection c server sockets n).2 (close_connection c server sockets n).1.1.
Proof.
  intros Hh. unfold close_connection. destruct (sockets !! c) as [d|] eqn:Ec; [|done].
  destruct Hh as [H1 H2 H3 H4 H5 H6]. pose proof (elem_of_map_img_2 (SA := gset Z) _ _ _ Ec) as Hd.
  unfold close_socket. rewrite valid_nonneg by (apply H5; set_solver). cbn [fst snd].
  pose proof (map_img_delete_inj sockets c d H4 Ec) as Ei.
  split; [|done|rewrite Ei; set_solver| |rewrite Ei; set_solver|done].
  - cbn. rewrite Ei, H1. apply set_eq. intros x. destruct (decide (x = d)) as [->|]; set_solver.
  - intros c1 c2 e [_ E1]%lookup_delete_Some [_ E2]%lookup_delete_Some. by apply (H4 _ _ e).
Qed.

Lemma holds_add own sockets n n' c d slack :
  holds base own lists sockets n -> gained {[d]} slack n n' -> sockets !! c = None ->
  holds base own lists (<[c := d]> sockets) n'.
Proof.
  intros [H1 H2 H3 H4 H5 H6] [G1 G2 G3 G4] Hc. rewrite H1 in *.
  assert (Ei : map_img (SA := gset Z) (<[c := d]> sockets) = {[d]} ∪ map_img sockets)
    by (by rewrite map_img_insert_notin_L).
  split; [|done|rewrite Ei; set_solver| | |congruence].
  - rewrite G1, Ei. set_solver.
  - intros c1 c2 e. assert (Hno : forall i, sockets !! i <> Some d).
    { intros i Hi. apply (elem_of_map_img_2 (SA := gset Z)) in Hi. set_solver. }
    rewrite !lookup_insert_Some. intros [[<- <-]|[_ E1]] [[<- E]|[_ E2]]; [done|by apply Hno in E2| |by apply (H4 _ _ e)].
    rewrite <- E in E1. by apply Hno in E1.
  - rewrite Ei. intros x Hx. destruct (decide (x = d)) as [->|]; [|set_solver]. apply (G3 d). set_solver.
Qed.

Lemma holds_release server sockets n :
  holds base (own_sockets server) lists sockets n -> holds base ∅ lists sockets (close_all server n).
Proof.
  intros [H1 H2 H3 H4 H5 H6]. destruct (close_all_open server n) as [Eo El]; [set_solver|].
  split; [|set_solver|set_solver|done|set_solver|congruence]. rewrite Eo, H1. set_solver.
Qed.

Lemma holds_size own sockets n :
  holds base own lists sockets n -> (size (net_open n) <= size base + size own + size sockets)%nat.
Proof.
  intros [H1 H2 H3 _ _ _]. rewrite H1, !size_union by set_solver. clear H1 H3.
  assert ((size (map_img (SA := gset Z) sockets) <= size sockets)%nat); [|lia].
  induction sockets as [|c d m Hc IH] using map_ind; [by rewrite map_img_empty_L, size_empty|].
  rewrite map_img_insert_notin_L by done. rewrite map_size_insert_None by done.
  assert ((size (({[d]} : gset Z) ∪ map_img m) <= 1 + size (map_img (SA := gset Z) m))%nat); [|lia].
  rewrite size_union_alt, size_singleton. apply Nat.add_le_mono_l, subseteq_size. set_solver.
Qed.
End holding.

Section life.
Context (os : nat -> SysAnswer) (max_connections : Z) (base : gset Z) (lists : Z).
Implicit Types l : Live.

(** The server's own sockets; they are closed when [Stop] has returned. *)
Definition server_own l : gset Z :=
  if decide (th_stopper (lv_threads l) = Stopped) then ∅ else own_sockets (lv_server l).

(** The highest descriptor the server uses. *)
Definition descriptor_bound : Z := Z.of_nat (size base) + 3 + max_connections.

(** A thread that serves a connection, or the acceptor, holds its socket. *)
Definition owned (t : Threads) (c : nat) : Prop :=
  th_connections t !! c = Some Serving \/ th_acceptor t = Holding c \/ th_acceptor t = Spawning c.

Record accounted l : Prop := {
  ac_holds : holds base (server_own l) lists (lv_sockets l) (lv_net l);
  ac_dom : forall c, is_Some (lv_sockets l !! c) <-> owned (lv_threads l) c;
  ac_bound : forall d, d ∈ server_own l ∪ map_img (lv_sockets l) -> d <= descriptor_bound;
}.

Lemma accept_turn_accounts server n event connection n' :
  accept_turn os server n = (event, connection, n') ->
  if bool_decide (event = Arrive) then gained {[connection]} 0 n n' else same_resources n n'.
Proof.
  unfold accept_turn, wait_readable, ask. destruct (_ || _); [by intros [= <- <- <-]|].
  destruct (os (net_asked n)); [by intros [= <- <- <-]|]. destruct (_ =? 1); [by intros [= <- <- <-]|].
  set (n1 := mkNet _ _ _). pose proof (accept_accounts os (sk_listener server) n1) as Ha.
  destruct (accept os (sk_listener server) n1) as [[s|error] n2]; intros [= <- <- <-]; cbn in *; [|done].
  by apply (same_gained _ _ _ n1).
Qed.

(** A connection that is closed is nobody's afterwards. *)
Lemma closed_sockets c server sockets n : (close_connection c server sockets n).2 = delete c sockets.
Proof. unfold close_connection. destruct (sockets !! c) eqn:E; [done|]. cbn. by rewrite delete_id. Qed.

Lemma img_delete c (sockets : gmap nat Socket) d :
  d ∈ map_img (SA := gset Z) (delete c sockets) -> d ∈ map_img (SA := gset Z) sockets.
Proof. rewrite !elem_of_map_img. intros (i & [_ Hi]%lookup_delete_Some). by exists i. Qed.

(** While the acceptor waits, a socket belongs to a connection in the accounts. *)
Lemma sockets_bounded l :
  consistent max_connections (lv_threads l) -> accounted l -> th_acceptor (lv_threads l) = Waiting ->
  Z.of_nat (size (lv_sockets l)) <= max_connections /\ lv_sockets l !! th_next (lv_threads l) = None.
Proof.
  intros Hc [_ Hd _] Hw.
  assert (Hsub : dom (lv_sockets l) ⊆ held (lv_threads l)).
  { intros c Hin. apply elem_of_dom, Hd in Hin. unfold owned in Hin. rewrite Hw in Hin. destruct Hin as [Hin|[?|?]]; [|done|done].
    unfold held. apply elem_of_union_l, elem_of_dom. by exists Serving. }
  split.
  - apply subseteq_size in Hsub. rewrite size_dom in Hsub. pose proof (co_live _ _ Hc). pose proof (co_bound _ _ Hc). lia.
  - apply not_elem_of_dom. intros Hin. apply Hsub in Hin. apply (co_fresh _ _ Hc) in Hin. lia.
Qed.
Lemma server_own_size l : (size (server_own l) <= 3)%nat.
Proof.
  assert (Hone : forall (X : gset Z) (d : Z), (size ({[d]} ∖ X) <= 1)%nat)
    by (intros X e; etrans; [apply subseteq_size, (subseteq_difference_l _ _ {[e]}); done|by rewrite size_singleton]).
  unfold server_own. destruct (decide _); [rewrite size_empty; lia|]. unfold own_sockets.
  rewrite !size_union_alt, size_singleton.
  pose proof (Hone {[sk_listener (lv_server l)]} (sk_wakeup_reader (lv_server l))).
  pose proof (Hone ({[sk_listener (lv_server l)]} ∪ {[sk_wakeup_reader (lv_server l)]}) (sk_wakeup_writer (lv_server l))). lia.
Qed.

Lemma accounted_frame l t' n' :
  accounted l -> same_resources (lv_net l) n' ->
  (th_stopper t' = Stopped <-> th_stopper (lv_threads l) = Stopped) ->
  (forall c, owned t' c <-> owned (lv_threads l) c) -> accounted (mkLive t' n' (lv_server l) (lv_sockets l)).
Proof.
  intros [Hh Hd Hb] Hs Hst Ho.
  assert (Eo : server_own (mkLive t' n' (lv_server l) (lv_sockets l)) = server_own l)
    by (unfold server_own; cbn; repeat destruct (decide _); tauto).
  split; cbn; rewrite ?Eo; [by apply (holds_same _ _ _ _ (lv_net l))| |done]. intros c. by rewrite Ho.
Qed.

Lemma accounted_close l t' n0 c :
  accounted l -> same_resources (lv_net l) n0 ->
  (th_stopper t' = Stopped <-> th_stopper (lv_threads l) = Stopped) ->
  (forall c', owned t' c' <-> owned (lv_threads l) c' /\ c' <> c) ->
  accounted (mkLive t' (close_connection c (lv_server l) (lv_sockets l) n0).1.1 (lv_server l)
               (close_connection c (lv_server l) (lv_sockets l) n0).2).
Proof.
  intros [Hh Hd Hb] Hs Hst Ho.
  assert (Eo : forall n m, server_own (mkLive t' n (lv_server l) m) = server_own l)
    by (intros; unfold server_own; cbn; repeat destruct (decide _); tauto).
  split; cbn; rewrite ?Eo.
  - by apply holds_close, (holds_same _ _ _ _ (lv_net l)).
  - intros c'. rewrite closed_sockets, Ho, <- Hd. unfold is_Some. setoid_rewrite lookup_delete_Some. naive_solver.
  - intros d. rewrite closed_sockets. intros [?|?%img_delete]%elem_of_union; apply Hb; set_solver.
Qed.

Lemma close_connection_server c server sockets n : (close_connection c server sockets n).1.2 = server.
Proof. unfold close_connection. by destruct (_ !! c). Qed.

(** What an event does to the ownership of sockets. *)
Lemma accounted_acceptor l event l' :
  consistent max_connections (lv_threads l) -> accounted l ->
  event = Arrive \/ event = AcceptFails \/ event = Wakeup ->
  live_run os max_connections event l = Some l' -> accounted l'.
Proof.
  intros Hc Ha Hev Hrun. unfold live_run in Hrun. apply bind_Some in Hrun as (t' & Hrun & He).
  apply bind_Some in He as ([[n' server] sockets] & He & [= <-]). 
  assert (Hw : th_acceptor (lv_threads l) = Waiting).
  { destruct Hev as [->|[->| ->]]; cbn in Hrun; by destruct (th_acceptor (lv_threads l)). }
  destruct (sockets_bounded l Hc Ha Hw) as [Hsz Hnone].
  assert (Hst : th_stopper t' = th_stopper (lv_threads l)).
  { destruct Hev as [->|[->| ->]]; cbn in Hrun; rewrite Hw in Hrun; repeat case_match; by simplify_eq. }
  destruct (accept_turn os (lv_server l) (lv_net l)) as [[seen s] n1] eqn:Et.
  assert (He' : (if bool_decide (seen = event) then
      Some (n1, lv_server l, if bool_decide (event = Arrive) then <[th_next (lv_threads l) := s]> (lv_sockets l) else lv_sockets l)
      else None) = Some (n', server, sockets)) by (destruct Hev as [->|[->| ->]]; cbn in He; by rewrite Et in He).
  apply accept_turn_accounts in Et. destruct (bool_decide (seen = event)) eqn:Es; [|done].
  apply bool_decide_eq_true in Es as ->. injection He' as <- <- <-.
  destruct (bool_decide (event = Arrive)) eqn:Ea.
  - apply bool_decide_eq_true in Ea as ->. cbn in Hrun. rewrite Hw in Hrun. injection Hrun as <-. destruct Ha as [Hh Hd Hb].
    split; cbn.
    + by apply (holds_add _ _ _ _ (lv_net l) _ _ _ 0).
    + intros c. unfold owned in *. cbn. specialize (Hd c). rewrite Hw in Hd. unfold is_Some in *.
      setoid_rewrite lookup_insert_Some. naive_solver.
    + intros d. rewrite map_img_insert_notin_L by done. intros Hin.
      destruct (decide (d = s)) as [->|]; [|apply Hb; unfold server_own in *; set_solver].
      pose proof (ga_bound _ _ _ _ Et s ltac:(set_solver)) as [_ Hle]. apply (holds_size _ _ _ _ _) in Hh.
      pose proof (server_own_size l).
      unfold descriptor_bound. lia.
  - apply (accounted_frame l); [done|done|by rewrite Hst|]. intros c. apply bool_decide_eq_false in Ea.
    destruct Hev as [->|[->| ->]]; [done|..]; cbn in Hrun; rewrite Hw in Hrun; repeat case_match; simplify_eq; unfold owned; cbn; rewrite Hw; naive_solver.
Qed.
Lemma wake_same socket n : same_resources n (wake os socket n).2.
Proof. unfold wake, ask. destruct (negb _); [done|]. by destruct (os _). Qed.

Lemma shutdown_same socket n : same_resources n (shutdown_socket os socket n).
Proof. unfold shutdown_socket, ask. by destruct (valid _). Qed.

Lemma accounted_release l event l' :
  consistent max_connections (lv_threads l) -> accounted l ->
  event = Register \/ event = SpawnFails \/ (exists c, event = Finish c \/ event = SeeStop c) ->
  live_run os max_connections event l = Some l' -> accounted l'.
Proof.
  intros Hc Ha Hev Hrun. unfold live_run in Hrun. apply bind_Some in Hrun as (t' & Hrun & He).
  apply bind_Some in He as ([[n' server] sockets] & He & [= <-]).
  assert (Hclose : forall c n0, same_resources (lv_net l) n0 ->
    (th_stopper t' = Stopped <-> th_stopper (lv_threads l) = Stopped) ->
    (forall c', owned t' c' <-> owned (lv_threads l) c' /\ c' <> c) ->
    close_connection c (lv_server l) (lv_sockets l) n0 = (n', server, sockets) -> accounted (mkLive t' n' server sockets)).
  { intros c n0 Hs Hst Ho E. pose proof (accounted_close l t' n0 c Ha Hs Hst Ho) as Hac.
    pose proof (close_connection_server c (lv_server l) (lv_sockets l) n0) as Es. rewrite E in Hac, Es. cbn in Hac, Es. by rewrite Es. }
  destruct Hev as [->|[->|[c Hev]]]; [cbn in Hrun, He..|].
  - destruct (th_acceptor (lv_threads l)) as [|c| |] eqn:Eac; try done. destruct (co_holding _ _ Hc c Eac) as [_ Hnot].
    unfold refuses in He. destruct (_ || _); injection Hrun as <-.
    + injection He as He. eapply Hclose; [apply shutdown_same|done| |exact He]. intros c'. unfold owned. cbn. rewrite Eac.
      assert (th_connections (lv_threads l) !! c <> Some Serving).
      { intros E. apply Hnot. unfold held. apply elem_of_union_l, elem_of_dom. by exists Serving. }
      naive_solver.
    + injection He as <- <- <-. apply accounted_frame; [done|done|done|]. intros c'. unfold owned. cbn. rewrite Eac. naive_solver.
  - destruct (th_acceptor (lv_threads l)) as [| |c|] eqn:Eac; try done. injection Hrun as <-. injection He as He.
    eapply (Hclose c); [|done| |exact He]; [done|]. intros c'. unfold owned. cbn. rewrite Eac.
    pose proof (co_spawning _ _ Hc c Eac). naive_solver.
  - assert (Hrun' : th_connections (lv_threads l) !! c = Some Serving /\
        t' = set_connections (<[c := Closing]> (th_connections (lv_threads l))) (lv_threads l) /\
        close_connection c (lv_server l) (lv_sockets l) (lv_net l) = (n', server, sockets))
      by (destruct Hev as [-> | ->]; cbn in Hrun, He; repeat case_match; by simplify_eq).
    clear Hrun He. destruct Hrun' as (Ec & -> & He).
    eapply (Hclose c); [|done| |exact He]; [done|]. intros c'. unfold owned. cbn. rewrite lookup_insert_Some.
    assert (th_acceptor (lv_threads l) <> Holding c).
    { intros E. destruct (co_holding _ _ Hc c E) as [_ Hn]. apply Hn. unfold held. apply elem_of_union_l, elem_of_dom. by exists Serving. }
    assert (th_acceptor (lv_threads l) <> Spawning c) by (intros E; apply (co_spawning _ _ Hc) in E; congruence).
    naive_solver.
Qed.

Lemma accounted_step l event l' :
  consistent max_connections (lv_threads l) -> accounted l -> live_run os max_connections event l = Some l' -> accounted l'.
Proof.
  intros Hc Ha Hrun.
  destruct event as [| | | | |c|c|c|c| | | | | | | |]; try (eapply accounted_acceptor; [done|done| |done]; tauto);
    try (eapply accounted_release; [done|done| |done]; eauto; fail);
    unfold live_run in Hrun; apply bind_Some in Hrun as (t' & Hrun & He);
    apply bind_Some in He as ([[n' server] sockets] & He & [= <-]); cbn in Hrun, He.
  - destruct (th_acceptor (lv_threads l)) as [| |c|] eqn:Eac; try done. simplify_eq.
    apply accounted_frame; [done|done|done|]. intros c'. unfold owned. cbn. rewrite lookup_insert_Some, Eac.
    pose proof (co_spawning _ _ Hc c Eac). naive_solver.
  - destruct (th_connections (lv_threads l) !! c) as [[]|] eqn:Ec; try done. simplify_eq.
    apply accounted_frame; [done|done|done|]. intros c'. unfold owned. cbn. rewrite lookup_delete_Some. naive_solver.
  - case_match; [|done]. simplify_eq. apply accounted_frame; [done|done| |done].
    cbn. destruct (th_stopper (lv_threads l)); naive_solver.
  - destruct (th_stopper (lv_threads l)) eqn:E; try done. simplify_eq.
    apply accounted_frame; [done|done|cbn; rewrite E; naive_solver|done].
  - destruct (th_stopper (lv_threads l)) eqn:E; try done. simplify_eq.
    apply accounted_frame; [done|done|cbn; rewrite E; naive_solver|done].
  - destruct (th_stopper (lv_threads l)) eqn:E; try done. pose proof (wake_same (sk_wakeup_writer (lv_server l)) (lv_net l)) as Hw.
    destruct (wake os _ _) as [[]]; simplify_eq. apply accounted_frame; [done|done|cbn; rewrite E; naive_solver|done].
  - destruct (th_stopper (lv_threads l)) eqn:E; try done. pose proof (wake_same (sk_wakeup_writer (lv_server l)) (lv_net l)) as Hw.
    destruct (wake os _ _) as [[]]; simplify_eq. apply accounted_frame; [done|done|cbn; rewrite E; naive_solver|done].
  - destruct (th_stopper (lv_threads l)) eqn:E; try done. destruct (th_acceptor _) eqn:Eac; try done. simplify_eq.
    apply accounted_frame; [done|done|cbn; rewrite E; naive_solver|done].
  - destruct (th_stopper (lv_threads l)) eqn:E; try done. destruct (_ =? 0); simplify_eq.
    2: { apply accounted_frame; [done|done|cbn; rewrite E; naive_solver|done]. }
    destruct Ha as [Hh Hd Hb]. unfold server_own in Hh, Hb. rewrite E in Hh, Hb. cbn in Hh, Hb.
    split; unfold server_own; cbn; [by apply holds_release|done|]. intros d Hin. apply Hb. set_solver.
  - destruct (th_stopper (lv_threads l)) eqn:E; try done. simplify_eq.
    apply accounted_frame; [done|done|cbn; rewrite E; naive_solver|done].
Qed.
End life.

(** ** What a server leaves behind *)

Lemma live_threads os max_connections server n l :
  live_reachable os max_connections (live_start server n) l -> reachable max_connections (lv_threads l).
Proof.
  induction 1 as [|l event l' _ IH Hrun]; [constructor|]. unfold live_run in Hrun.
  apply bind_Some in Hrun as (t' & Hrun & He). apply bind_Some in He as ([[n' server'] sockets] & _ & [= <-]).
  by apply (reachable_step _ (lv_threads l) event).
Qed.

Lemma live_accounted os max_connections server n n' l :
  0 <= max_connections -> started_server server n n' ->
  live_reachable os max_connections (live_start server n') l ->
  accounted max_connections (net_open n) (net_lists n) l.
Proof.
  intros Hm [Hg _]. induction 1 as [|l event l' Hr IH Hrun].
  - assert (Hown : server_own (live_start server n') = own_sockets server) by done.
    destruct Hg as [H1 H2 H3 H4]. split; cbn; rewrite ?Hown.
    + split; cbn; rewrite ?map_img_empty_L; [by rewrite union_empty_r_L|done|set_solver|done| |done].
      intros d Hd. apply H3. set_solver.
    + intros c. unfold owned. cbn. rewrite !lookup_empty. split; [by intros []|naive_solver].
    + rewrite map_img_empty_L. intros d Hd. specialize (H3 d ltac:(set_solver)). unfold descriptor_bound. lia.
  - apply (accounted_step os max_connections _ _ l event); [|done|done].
    apply reachable_consistent; [done|]. by apply (live_threads os max_connections server n').
Qed.

Lemma stopped_holds_nothing max_connections base lists l :
  consistent max_connections (lv_threads l) -> accounted max_connections base lists l ->
  th_stopper (lv_threads l) = Stopped -> net_open (lv_net l) = base /\ net_lists (lv_net l) = lists.
Proof.
  intros Hc [Hh Hd _] Hst. pose proof (co_joined _ _ Hc (or_intror (or_intror Hst))) as He. pose proof (co_stopped _ _ Hc Hst) as Hn.
  assert (Es : lv_sockets l = ∅).
  { apply map_empty. intros c. destruct (lv_sockets l !! c) eqn:E; [|done]. exfalso.
    destruct (proj1 (Hd c)) as [Hs|[Hs|Hs]]; [by eexists| |congruence..].
    assert (c ∈ held (lv_threads l)) by (unfold held; apply elem_of_union_l, elem_of_dom; by exists Serving). set_solver. }
  destruct Hh as [H1 H2 H3 H4 H5 H6]. split; [|done]. rewrite H1, Es, map_img_empty_L. unfold server_own.
  rewrite decide_True by done. set_solver.
Qed.

(** C28: A server gives back what it takes. Whatever the operating system answers to
    each call: when [Start] fails, at whichever step, no descriptor and no address
    list is left behind; when it succeeds, then at every later point, however the
    threads run, the open descriptors of the process are exactly those it had
    before, the three of the server and one for each connection that the acceptor
    holds or a thread serves, no two of them the same; and when [Stop] has returned
    exactly those it had before. *)
Theorem server_gives_back os options n :
  is_u32 (so_max_connections options) ->
  match start os options n with
  | (inr _, n') => same_resources n n'
  | (inl server, n') =>
      forall l, live_reachable os (so_max_connections options) (live_start server n') l ->
        holds (net_open n) (server_own l) (net_lists n) (lv_sockets l) (lv_net l) /\
        (forall c, is_Some (lv_sockets l !! c) <-> owned (lv_threads l) c) /\
        (th_stopper (lv_threads l) = Stopped -> same_resources n (lv_net l))
  end.
Proof.
  intros [Hm _]. pose proof (start_accounts os options n) as Hs. destruct (start os options n) as [[server|error] n']; [|done].
  intros l Hl. pose proof (live_accounted os _ server n n' l Hm Hs Hl) as Ha. split; [apply Ha|]. split; [apply Ha|].
  intros Hst. apply (stopped_holds_nothing (so_max_connections options)); [|done|done].
  apply reachable_consistent; [done|]. by apply (live_threads os _ server n').
Qed.

(** The descriptors an [fd_set] has room for. *)
Definition FD_SETSIZE : Z := 1024.

(** C29: The sockets stay within what [select] can handle. When the process has few
    enough descriptors open at the start that they, the three of the server and
    the permitted connections stay below [FD_SETSIZE], every socket the server
    ever hands to [FD_SET] is a bit of the set. *)
Theorem descriptors_fit_select os options n server n' l :
  is_u32 (so_max_connections options) -> start os options n = (inl server, n') ->
  live_reachable os (so_max_connections options) (live_start server n') l ->
  Z.of_nat (size (net_open n)) + 3 + so_max_connections options < FD_SETSIZE ->
  forall d, d ∈ server_own l ∪ map_img (lv_sockets l) -> 0 <= d < FD_SETSIZE.
Proof.
  intros [Hm _] Es Hl Hfit d Hd. pose proof (start_accounts os options n) as Hs. rewrite Es in Hs.
  pose proof (live_accounted os _ server n n' l Hm Hs Hl) as Ha.
  pose proof (ac_bound _ _ _ _ Ha d Hd). pose proof (ho_nonneg _ _ _ _ _ (ac_holds _ _ _ _ Ha) d Hd).
  unfold descriptor_bound in *. lia.
Qed.

(** ** A server that is started, serves one connection and stops *)

Definition live_all os max_connections (events : list Event) (l : Live) : option Live :=
  foldl (fun l event => l ≫= live_run os max_connections event) (Some l) events.

Lemma live_all_reachable os max_connections events l0 l l' :
  live_reachable os max_connections l0 l -> live_all os max_connections events l = Some l' ->
  live_reachable os max_connections l0 l'.
Proof.
  unfold live_all. revert l. induction events as [|event events IH]; intros l Hl; cbn; [by intros [= <-]|].
  destruct (live_run os max_connections event l) as [l1|] eqn:E.
  - apply IH. by apply (live_then _ _ _ l event).
  - assert (Hn : foldl (fun l event => l ≫= live_run os max_connections event) None events = None) by (clear; by induction events).
    by rewrite Hn.
Qed.

(** The operating system grants everything: every name has an address, and of two
    sockets the first is ready, until the call at which the second is. *)
Definition obliging (wakeup_at : nat) (call : nat) : SysAnswer := Granted (if (call =? wakeup_at)%nat then 2 else 1).

Definition small_options : ServerOptions := mkServerOptions "127.0.0.1" 0 2 4 default_limits true.
Definition small_process : Net := mkNet {[0; 1; 2; 3]} 0 0.
Definition small_server : ServerSockets := mkServerSockets 4 7 6 1 true.
Definition small_started : Net := (start (obliging 25) small_options small_process).2.
Definition small_run : list Event :=
  [Arrive; Register; Spawn; Finish 0; Leave 0; Notify 0; CallStop; SetFlag; Wake; Wakeup; Join; Drain].
Definition small_end : Live :=
  default (live_start small_server small_started) (live_all (obliging 25) 2 small_run (live_start small_server small_started)).

Example small_server_starts : start (obliging 25) small_options small_process = (inl small_server, small_started).
Proof. vm_compute. reflexivity. Qed.
Lemma small_end_reachable : live_reachable (obliging 25) 2 (live_start small_server small_started) small_end.
Proof. apply (live_all_reachable _ _ small_run _ (live_start small_server small_started)); [constructor|vm_compute; reflexivity]. Qed.

Lemma server_gives_back_witness :
  th_stopper (lv_threads small_end) = Stopped /\ same_resources small_process (lv_net small_end).
Proof.
  assert (Hs : th_stopper (lv_threads small_end) = Stopped) by (vm_compute; reflexivity). split; [exact Hs|].
  pose proof (server_gives_back (obliging 25) small_options small_process ltac:(split; [discriminate|reflexivity])) as H.
  rewrite small_server_starts in H. apply (H small_end small_end_reachable), Hs.
Defined.

Lemma descriptors_fit_select_witness :
  let l := default (live_start small_server small_started)
             (live_all (obliging 25) 2 (take 3 small_run) (live_start small_server small_started)) in
  5 ∈ server_own l ∪ map_img (lv_sockets l) /\ 0 <= 5 < FD_SETSIZE.
Proof.
  intros l. assert (Hd : 5 ∈ server_own l ∪ map_img (lv_sockets l)).
  { apply elem_of_union_r, (elem_of_map_img_2 _ 0%nat). vm_compute. reflexivity. }
  split; [exact Hd|].
  apply (descriptors_fit_select (obliging 25) small_options small_process small_server small_started l).
  - split; [discriminate|reflexivity].
  - exact small_server_starts.
  - apply (live_all_reachable _ _ (take 3 small_run) _ (live_start small_server small_started)); [constructor|vm_compute; reflexivity].
  - vm_compute. reflexivity.
  - exact Hd.
Defined.

(** Nothing in [Start] or [accept_loop] looks at [FD_SETSIZE]: in a process that has
    1020 descriptors open, the second connection of a server gets one that
    [FD_SET] writes behind the set. *)
Definition busy_process : Net := mkNet (list_to_set (Z.of_nat <$> seq 0 1020)) 0 0.

Example busy_server_overflows_select :
  let '(r, n) := start (obliging 0) small_options busy_process in
  match r with
  | inl server =>
      match live_all (obliging 0) 2 [Arrive; Register; Spawn; Arrive; Register; Spawn] (live_start server n) with
      | Some l => bool_decide (lv_sockets l !! 1%nat = Some FD_SETSIZE) = true
      | None => False
      end
  | inr _ => False
  end.
Proof. vm_compute. reflexivity. Qed.
