(* ===== verification/Fencing.v ===== *)
(** * Fencing

    A source incarnation is fenced once a higher one exists.  Opening a session
    fences exactly the lower incarnations of its own source, fencing is never
    undone, and evidence from a fenced session is stored without effect: no
    view of attachment, lifecycle or capability changes. *)
From S2P Require Import Prelude OrdMap Types Ids Graph Codec Serialization State Fold Derive Log Admit Ingest Session Invariant Views.
#[local] Open Scope Z_scope.

(** ** Opening a session *)

Definition session_opened (d : OpenSessionDisposition.t) : bool :=
  match d with
  | OpenSessionDisposition.Opened | OpenSessionDisposition.Resumed
  | OpenSessionDisposition.Reopened | OpenSessionDisposition.NewIncarnation => true
  | _ => false
  end.

Lemma fenced_after_open descriptor incarnation opened_at s key :
  session_is_fenced (open_session_state descriptor incarnation opened_at s) key =
  if keqb (key_source key) (src_id descriptor)
  then key_incarnation key <? Z.max
         (sr_current_incarnation (default default_source_record (map_find (src_id descriptor) (rs_sources s))))
         incarnation
  else session_is_fenced s key.
Proof.
  destruct (open_session_sources descriptor incarnation opened_at s) as (opened & Hso & _ & Hc).
  unfold session_is_fenced. rewrite Hso, find_set. destruct (keqb _ _) eqn:E; [|done]. by rewrite Hc.
Qed.

(** What an opened session did. *)
Lemma open_session_done {S} `{AppendLog S} descriptor incarnation t1 t2 (impl : Impl S) r impl' :
  open_session descriptor incarnation t1 t2 impl = (r, impl') -> 0 <= incarnation ->
  session_opened (os_disposition r) = true ->
  im_state impl' = open_session_state descriptor incarnation t2 (im_state impl) /\
  os_key r = mkKey (src_id descriptor) incarnation /\
  sr_current_incarnation (default default_source_record
    (map_find (src_id descriptor) (rs_sources (im_state impl)))) <= incarnation.
Proof.
  unfold open_session. intros Hopen Hpos Hd.
  destruct (open_session_refusal descriptor incarnation impl) as [[[d p] t]|] eqn:Er.
  { injection Hopen as <- <-. cbn in Hd. revert Er. unfold open_session_refusal.
    repeat case_match; intros [= <- _ _]; done. }
  assert (Hle : sr_current_incarnation (default default_source_record
    (map_find (src_id descriptor) (rs_sources (im_state impl)))) <= incarnation).
  { revert Er. unfold open_session_refusal. 
    do 4 match goal with |- (if ?b then _ else _) = None -> _ => destruct b; [discriminate|] end.
    destruct (map_find _ _) as [existing|]; cbn [from_option id]; [|done].
    destruct (Z.ltb_spec incarnation (sr_current_incarnation existing)); [done|lia]. }
  destruct (log_session_open _ _ _ _) as [[[d t]|] impl1] eqn:El.
  { injection Hopen as <- <-. cbn in Hd. revert El. unfold log_session_open.
    repeat case_match; intros [= <- _ _]; done. }
  apply log_session_open_same in El as [store ->].
  destruct (if negb _ || _ then _ else _) as [disp detail]. injection Hopen as <- <-. done.
Qed.

(** ** Fencing is permanent *)

Definition current_incarnation (s : RegistryState) (source : SourceId) : Z :=
  sr_current_incarnation (default default_source_record (map_find source (rs_sources s))).

Definition sources_advance (s s' : RegistryState) : Prop :=
  forall key, session_is_fenced s key = true -> session_is_fenced s' key = true.

Lemma advance_same s s' : rs_sources s' = rs_sources s -> sources_advance s s'.
Proof. intros E key. unfold session_is_fenced. by rewrite E. Qed.

Lemma ingest_sources {S} `{AppendLog S} e now persist live (impl : Impl S) :
  rs_sources (im_state (ingest_locked e now persist live impl).2) = rs_sources (im_state impl).
Proof.
  destruct (ingest_locked e now persist live impl) as [r impl'] eqn:E.
  apply ingest_cases in E as [|source session d t impl1 refusals h key Hc Hv Hs Hd Hses Hcase]; [done|].
  cbn. destruct Hcase as [|? ? ? ? ? ? ? Hst|]; [done|by rewrite Hst|done].
Qed.

Lemma ingest_all_sources {S} `{AppendLog S} now evidence (impl : Impl S) :
  rs_sources (im_state (ingest_all now evidence impl).2) = rs_sources (im_state impl).
Proof.
  revert now impl. induction evidence as [|e rest IH]; intros now impl; [done|]. cbn.
  pose proof (ingest_sources e (now 0%nat) true true impl) as H1.
  destruct (ingest_locked _ _ _ _ _) as [r impl1]. cbn in H1.
  specialize (IH (fun i => now (Datatypes.S i)) impl1). destruct (ingest_all _ rest impl1). cbn in *. congruence.
Qed.

Lemma open_session_advance {S} `{AppendLog S} d i t1 t2 (impl : Impl S) :
  sources_advance (im_state impl) (im_state (open_session d i t1 t2 impl).2).
Proof.
  unfold open_session. destruct (open_session_refusal _ _ _) as [[[? ?] ?]|]; [by intros key|].
  destruct (log_session_open _ _ _ _) as [r impl1] eqn:El.
  apply log_session_open_same in El as [store ->]. destruct r as [[? ?]|]; [by intros key|].
  destruct (if negb _ || _ then _ else _) as [disp detail]. cbn [snd set_state set_store im_state].
  intros key Hf. rewrite fenced_after_open. destruct (keqb _ _) eqn:E; [|done].
  apply keqb_eq in E. unfold session_is_fenced in Hf. rewrite E in Hf.
  destruct (map_find _ _); [|done]. cbn. apply Z.ltb_lt in Hf. apply Z.ltb_lt. lia.
Qed.

Lemma step_advance {S} `{AppendLog S} (impl impl' : Impl S) :
  step impl impl' -> sources_advance (im_state impl) (im_state impl').
Proof.
  intros [? [now e _ _|now es _ _|d i t1 t2 _ _ _ _|key _ _|]|].
  - apply advance_same, ingest_sources.
  - apply advance_same, ingest_all_sources.
  - apply open_session_advance.
  - apply advance_same. unfold close_session. destruct (im_closed impl); [done|].
    destruct (map_find _ _); [|done]. destruct (im_store impl); [|done].
    by destruct (log_append _ _ _) as [? [|]].
  - apply advance_same. unfold close_registry. by repeat case_match.
  - apply advance_same. by destruct (compact_same impl) as (store & -> & _).
Qed.

Lemma reachable_advance {S} `{AppendLog S} (impl impl' : Impl S) :
  reachable impl impl' -> sources_advance (im_state impl) (im_state impl').
Proof. induction 1 as [|x y z Hxy _ IH]; [by intros key|]. intros key Hf. by apply IH, (step_advance x y Hxy). Qed.

(** ** Evidence from a fenced session *)

(** Two states that agree on the catalogue, on who is fenced, and on every
    record of a session that is not fenced. *)
Section visible.
Context (s s' : RegistryState).

Definition visible {O V} (own : O -> SourceIncarnationKey) (m : list (O * V)) : list (O * V) :=
  filter (fun e => session_is_fenced s (own e.1) = false) m.

Definition same_visible {K O V} `{Ord K} (own : O -> SourceIncarnationKey) (g g' : groups K O V) : Prop :=
  forall k, visible own (default [] (map_find k g')) = visible own (default [] (map_find k g)).

Record same_live : Prop := {
  sl_sources : rs_sources s' = rs_sources s;
  sl_objects : rs_object_registrations s' = rs_object_registrations s;
  sl_endpoints : rs_endpoint_registrations s' = rs_endpoint_registrations s;
  sl_subjects : same_visible id_own (rs_subject_records s) (rs_subject_records s');
  sl_ports : same_visible ps_owner (rs_port_records s) (rs_port_records s');
  sl_lifecycle : same_visible id_own (rs_lifecycle_records s) (rs_lifecycle_records s');
  sl_reincarnation : same_visible id_own (rs_reincarnation_records s) (rs_reincarnation_records s');
  sl_object_capability :
    same_visible id_own (rs_object_capability_records s) (rs_object_capability_records s');
  sl_port_capability : same_visible id_own (rs_port_capability_records s) (rs_port_capability_records s');
}.
End visible.

Lemma filter_through {A} (p : A -> bool) (q : A -> Prop) `{!forall x, Decision (q x)} (l : list A) :
  (forall x, p x = true -> q x) -> filter (fun x => p x = true) l = filter (fun x => p x = true) (filter q l).
Proof.
  intros Hpq. induction l as [|x l IH]; [done|]. rewrite !filter_cons.
  destruct (decide (p x = true)) as [Hp|Hp].
  - rewrite decide_True by auto. rewrite filter_cons, decide_True by done. by f_equal.
  - destruct (decide (q x)); [rewrite filter_cons, decide_False by done|]; exact IH.
Qed.

Lemma foldl_through {A B} (f : B -> A -> B) (q : A -> Prop) `{!forall x, Decision (q x)} (l : list A) b :
  (forall b x, ~ q x -> f b x = b) -> foldl f b l = foldl f b (filter q l).
Proof.
  intros Hf. revert b. induction l as [|x l IH]; intros b; [done|]. rewrite filter_cons. cbn [foldl].
  destruct (decide (q x)) as [Hq|Hq]; [apply IH|]. rewrite Hf by done. apply IH.
Qed.

Section same_live_views.
Context (s s' : RegistryState) (Hlive : same_live s s').

Lemma live_fenced key : session_is_fenced s' key = session_is_fenced s key.
Proof using Hlive. unfold session_is_fenced. by rewrite (sl_sources _ _ Hlive). Qed.

Lemma live_object_exists object : object_exists s' object = object_exists s object.
Proof using Hlive. unfold object_exists. by rewrite (sl_objects _ _ Hlive). Qed.

Lemma live_incarnation object : object_incarnation_of s' object = object_incarnation_of s object.
Proof using Hlive.
  rewrite !object_incarnation_of_max. unfold running_max.
  set (f := fun st current x => match live_target st x with
                                | Some v => if current <? v then v else current | None => current end).
  assert (Hext : forall l z, foldl (f s') z l = foldl (f s) z l).
  { intros l. induction l as [|e l IH]; intros z; [done|]. cbn [foldl]. rewrite IH.
    unfold f, live_target. by rewrite live_fenced. }
  assert (Hskip : forall l z, foldl (f s) z l = foldl (f s) z (visible s id_own l)).
  { intros l z. apply foldl_through. intros b x Hx. unfold f, live_target.
    by destruct (session_is_fenced s x.1). }
  change (foldl (f s') 1 (default [] (map_find object (rs_reincarnation_records s'))) =
          foldl (f s) 1 (default [] (map_find object (rs_reincarnation_records s)))).
  by rewrite Hext, Hskip, (sl_reincarnation _ _ Hlive object), <- Hskip.
Qed.

(** Filters that only keep records of unfenced sessions. *)
Lemma live_filter {K O V} `{Ord K} (own : O -> SourceIncarnationKey) (g g' : groups K O V) k
    (p p' : O * Folded V -> bool) :
  same_visible s own g g' -> (forall e, p' e = p e) ->
  (forall e, p e = true -> session_is_fenced s (own e.1) = false) ->
  filter (fun e => p' e = true) (default [] (map_find k g')) =
  filter (fun e => p e = true) (default [] (map_find k g)).
Proof using.
  intros Hv Hp Hf. etrans; [|symmetry; by apply (filter_through p (fun e => session_is_fenced s (own e.1) = false))].
  specialize (Hv k). unfold visible in Hv. rewrite <- Hv.
  rewrite <- (filter_through p (fun e => session_is_fenced s (own e.1) = false)) by done.
  apply list_filter_iff. intros e. by rewrite Hp.
Qed.

Lemma live_candidates object : lifecycle_candidates s' object = lifecycle_candidates s object.
Proof using Hlive.
  unfold lifecycle_candidates. rewrite live_incarnation. f_equal.
  - f_equal. apply (live_filter id_own); [apply Hlive|intros e; by rewrite live_fenced|].
    intros e [?%negb_true_iff _]%andb_prop. done.
  - f_equal. apply (live_filter id_own); [apply Hlive|intros e; by rewrite live_fenced|].
    intros e [?%negb_true_iff _]%andb_prop. done.
Qed.

Lemma live_lifecycle object : lifecycle_action_of s' object = lifecycle_action_of s object.
Proof using Hlive. unfold lifecycle_action_of. by rewrite live_candidates. Qed.

Lemma live_accept policy current b owner record :
  subject_accept s' policy current b owner record = subject_accept s policy current b owner record.
Proof using Hlive. unfold subject_accept, subject_record_live. by rewrite live_fenced. Qed.

Lemma live_claims policy current b subject :
  collect_claims (default [] (map_find subject (rs_subject_records s'))) policy (subject_accept s' policy current b) =
  collect_claims (default [] (map_find subject (rs_subject_records s))) policy (subject_accept s policy current b).
Proof using Hlive.
  rewrite !collect_unfold.
  assert (He : elig_list (default [] (map_find subject (rs_subject_records s'))) policy (subject_accept s' policy current b) =
               elig_list (default [] (map_find subject (rs_subject_records s))) policy (subject_accept s policy current b)).
  { unfold elig_list. f_equal. apply (live_filter id_own); [apply Hlive|intros e; by rewrite live_accept|].
    intros e [_ Ha]%andb_prop. by apply subject_accept_true in Ha as [? _]. }
  by rewrite He.
Qed.

Lemma live_subject subject policy : derive_subject s' subject policy = derive_subject s subject policy.
Proof using Hlive.
  assert (Halt : forall st, derive_subject st subject policy =
    if negb (object_exists st (side_object subject)) then derive_subject st subject policy
    else derive_subject_of st subject policy (default [] (map_find subject (rs_subject_records st)))).
  { intros st. unfold derive_subject, derive_subject_of. destruct (object_exists _ _); [|done].
    by destruct (map_find _ _). }
  rewrite (Halt s'), (Halt s), live_object_exists. destruct (object_exists s (side_object subject)) eqn:Ex; cbn [negb].
  - unfold derive_subject_of. rewrite live_incarnation, !live_claims.
    assert (Hn : forall authority,
      filter (fun entry => subject_accept s' policy (object_incarnation_of s (side_object subject)) true entry.1 entry.2
               && keqb (att_authority (fd_meta entry.2)) authority = true)
        (default [] (map_find subject (rs_subject_records s'))) =
      filter (fun entry => subject_accept s policy (object_incarnation_of s (side_object subject)) true entry.1 entry.2
               && keqb (att_authority (fd_meta entry.2)) authority = true)
        (default [] (map_find subject (rs_subject_records s)))).
    { intros authority. apply (live_filter id_own); [apply Hlive|intros e; by rewrite live_accept|].
      intros e [Ha _]%andb_prop. by apply subject_accept_true in Ha as [? _]. }
    by rewrite Hn.
  - unfold derive_subject. by rewrite live_object_exists, live_incarnation, Ex.
Qed.

Lemma live_port_capability port : port_capability_of s' port = port_capability_of s port.
Proof using Hlive.
  unfold port_capability_of, winning_endpoint. rewrite (sl_endpoints _ _ Hlive).
  assert (Hfold : forall st, match map_find port (rs_port_capability_records st) with
      | None => None | Some found => foldl (port_capability_step st) None found end =
    foldl (port_capability_step st) None (default [] (map_find port (rs_port_capability_records st))))
    by (intros st; by destruct (map_find _ _)).
  rewrite !Hfold.
  assert (Hext : forall l z, foldl (port_capability_step s') z l = foldl (port_capability_step s) z l).
  { intros l. induction l as [|e l IH]; intros z; [done|]. cbn [foldl]. rewrite IH.
    unfold port_capability_step. by rewrite live_fenced. }
  assert (Hskip : forall l z, foldl (port_capability_step s) z l =
                              foldl (port_capability_step s) z (visible s id_own l)).
  { intros l z. apply foldl_through. intros b x Hx. unfold port_capability_step.
    by destruct (session_is_fenced s x.1). }
  by rewrite Hext, Hskip, (sl_port_capability _ _ Hlive port), <- Hskip.
Qed.

(** The record an unfenced owner keeps for a subject. *)
Lemma live_owner_record subject owner :
  session_is_fenced s owner = false ->
  group_find subject owner (rs_subject_records s') = group_find subject owner (rs_subject_records s).
Proof using Hlive.
  intros Hf. assert (Hfind : forall (m : ordmap SourceIncarnationKey (Folded SubjectValue)),
    map_find owner m = map_find owner (visible s id_own m)).
  { intros m. unfold visible. induction m as [|[k v] m IH]; [done|]. rewrite filter_cons.
    destruct (decide _) as [Hd|Hd]; cbn in Hd |- *; destruct (keqb owner k) eqn:E; try done.
    apply keqb_eq in E as ->. congruence. }
  assert (Hg : forall st, group_find subject owner (rs_subject_records st) =
               map_find owner (default [] (map_find subject (rs_subject_records st)))).
  { intros st. unfold group_find. by destruct (map_find subject _). }
  by rewrite !Hg, Hfind, (sl_subjects _ _ Hlive subject), <- Hfind.
Qed.

Lemma live_excluded object : object_excluded s' object = object_excluded s object.
Proof using Hlive. unfold object_excluded. by rewrite live_lifecycle. Qed.

Lemma live_port_record port policy e : port_record_live s' port policy e = port_record_live s port policy e.
Proof using Hlive.
  unfold port_record_live. rewrite live_fenced, live_object_exists, live_excluded, live_incarnation.
  destruct (session_is_fenced s (ps_owner e.1)) eqn:Ef; [done|]. cbn [orb].
  destruct (negb (participates _ _)); [done|]. destruct (negb _ || _); [done|].
  destruct (negb (_ =? _)); [done|]. destruct (negb (pt_empty _)); [|done].
  pose proof (live_owner_record (pt_subject (fd_value e.2)) (ps_owner e.1) Ef) as Ho.
  unfold group_find in Ho. unfold still_asserted.
  destruct (map_find _ (rs_subject_records s')) as [g'|], (map_find _ (rs_subject_records s)) as [g|]; try done.
  - by rewrite Ho.
  - by rewrite Ho.
  - by rewrite <- Ho.
Qed.

Lemma live_live_records port policy : live_records s' port policy = live_records s port policy.
Proof using Hlive.
  unfold live_records. f_equal. apply (live_filter ps_owner); [apply Hlive|apply live_port_record|].
  intros e He. unfold port_record_live in He. by destruct (session_is_fenced s (ps_owner e.1)).
Qed.

Lemma live_port_view limits port policy : derive_port_view s' limits port policy = derive_port_view s limits port policy.
Proof using Hlive.
  unfold derive_port_view. rewrite live_live_records, live_port_capability.
  destruct (live_records s port policy) as [|r l]; [done|]. unfold port_view_of. rewrite live_port_capability.
  assert (Hd : forall subject, subject_double_booked s' subject policy = subject_double_booked s subject policy)
    by (intros; unfold subject_double_booked; by rewrite live_subject).
  assert (Hside : forall o i, side_descriptor_of s' o i = side_descriptor_of s o i)
    by (intros; unfold side_descriptor_of, winning_registration; by rewrite (sl_objects _ _ Hlive)).
  set (occupied := filter (fun r => pt_empty (lr_value r) = false) _).
  destruct occupied as [|o os] eqn:Eo; [done|].
  rewrite (existsb_ext _ _ (subjects_of (o :: os)) Hd).
  rewrite (list_filter_iff (fun x => subject_double_booked s' x policy = true)
             (fun x => subject_double_booked s x policy = true)) by (intros; by rewrite Hd).
  assert (Hnote : forall l : list ObjectSideRef,
    double_booked_note s' port policy <$> l = double_booked_note s port policy <$> l).
  { intros l'. apply list_fmap_ext. intros ? x _. unfold double_booked_note. by rewrite live_subject. }
  assert (Hedge : forall cap best conf over tot occ (l : list ObjectSideRef),
    port_edge s' port cap best conf over tot occ <$> l = port_edge s port cap best conf over tot occ <$> l).
  { intros. apply list_fmap_ext. intros ? x _. unfold port_edge. by rewrite Hside. }
  by rewrite Hnote, !Hedge.
Qed.
End same_live_views.

Section fenced_writes.
Context (s : RegistryState) (h : Z) (meta : Attestation).

Lemma visible_set {O V} `{Ord O} (own : O -> SourceIncarnationKey) o (v : V) m :
  session_is_fenced s (own o) = true -> visible s own (map_set o v m) = visible s own m.
Proof.
  intros Hf. unfold visible. assert (Hdrop : forall (w : V) l,
    filter (fun e => session_is_fenced s (own e.1) = false) ((o, w) :: l) =
    filter (fun e => session_is_fenced s (own e.1) = false) l).
  { intros w l. rewrite filter_cons, decide_False; [done|]. cbn. by rewrite Hf. }
  induction m as [|[k w] m IH]; cbn [map_set]; [apply Hdrop|]. destruct (cmp o k) eqn:E.
  - apply cmp_eq in E as <-. by rewrite !Hdrop.
  - by rewrite Hdrop.
  - rewrite !filter_cons. destruct (decide _); [by f_equal|exact IH].
Qed.

Lemma same_visible_refl {K O V} `{Ord K} (own : O -> SourceIncarnationKey) (g : groups K O V) :
  same_visible s own g g.
Proof. by intros k. Qed.

Lemma same_visible_trans {K O V} `{Ord K} (own : O -> SourceIncarnationKey) (g1 g2 g3 : groups K O V) :
  same_visible s own g1 g2 -> same_visible s own g2 g3 -> same_visible s own g1 g3.
Proof. intros H1 H2 k. etrans; [apply H2|apply H1]. Qed.

Lemma fold_same_visible {K O V} `{Ord K, Ord O} (own : O -> SourceIncarnationKey) k o (v : V) (g : groups K O V) :
  session_is_fenced s (own o) = true -> same_visible s own g (group_fold h k o meta v g).
Proof.
  intros Hf k'. unfold group_fold. rewrite find_set. destruct (keqb k' k) eqn:E; [|done].
  apply keqb_eq in E as ->. cbn [from_option id]. unfold fold. case_match; by apply visible_set.
Qed.

Lemma fold_losing_same_visible {K O V} `{Ord K, Ord O} (own : O -> SourceIncarnationKey) k o (g : groups K O V) :
  session_is_fenced s (own o) = true -> same_visible s own g (group_fold_losing h k o meta g).
Proof.
  intros Hf k'. unfold group_fold_losing. destruct (map_find k g) as [m|] eqn:Em; [|done].
  rewrite find_set. destruct (keqb k' k) eqn:E; [|done].
  apply keqb_eq in E as ->. rewrite Em. cbn [from_option id]. unfold fold_losing. case_match; [by apply visible_set|done].
Qed.

Lemma stage_same_visible {K V} `{Ord K} (stage : Stage K V) g :
  session_is_fenced s (att_owner meta) = true ->
  same_visible s id_own g (write_stage h stage meta (ring_stage h stage meta g)).
Proof.
  intros Hf. destruct stage; cbn [write_stage ring_stage]; [apply same_visible_refl|..].
  - by apply (fold_same_visible id_own).
  - by apply (fold_losing_same_visible id_own).
Qed.

Lemma ports_same_visible updates keys g :
  session_is_fenced s (att_owner meta) = true ->
  Forall (fun key => ps_owner key = att_owner meta) ((pu_key <$> updates) ++ keys) ->
  same_visible s ps_owner g (write_ports h updates meta (ring_ports h keys meta g)).
Proof.
  intros Hf [Hu Hk]%Forall_app. apply (same_visible_trans _ g (ring_ports h keys meta g)).
  - clear Hu. revert g. induction Hk as [|k keys Hk _ IH]; intros g; [apply same_visible_refl|].
    apply (same_visible_trans _ g (group_fold_losing h (ps_port k) k meta g)); [|apply IH].
    apply fold_losing_same_visible. by rewrite Hk.
  - generalize (ring_ports h keys meta g). clear Hk g. apply Forall_fmap in Hu.
    induction Hu as [|u us Hu _ IH]; intros g; [apply same_visible_refl|].
    apply (same_visible_trans _ g (group_fold h (ps_port (pu_key u)) (pu_key u) meta (pu_value u) g)); [|apply IH].
    apply fold_same_visible. cbn in Hu. by rewrite Hu.
Qed.
End fenced_writes.

Definition is_registration (payload : EvidencePayload) : bool :=
  match payload with RegisterObject _ | RegisterEndpoint _ => true | _ => false end.

Lemma decide_no_registration limits state meta cache e :
  is_registration (ev_payload e) = false ->
  let change := dc_change (decide_evidence limits state meta cache e).1 in
  sc_object_registration change = NoStage /\ sc_endpoint_registration change = NoStage.
Proof.
  assert (Hr : forall outcome t1 t2 t3 ring insert,
    sc_object_registration ring = NoStage /\ sc_endpoint_registration ring = NoStage ->
    sc_object_registration (dc_change insert) = NoStage /\ sc_endpoint_registration (dc_change insert) = NoStage ->
    let change := dc_change (resolve outcome meta t1 t2 t3 ring insert) in
    sc_object_registration change = NoStage /\ sc_endpoint_registration change = NoStage)
    by (intros []; done).
  assert (Ha : forall subject value updates,
    let change := dc_change (decide_attachment limits state meta subject value updates) in
    sc_object_registration change = NoStage /\ sc_endpoint_registration change = NoStage).
  { intros. unfold change, decide_attachment. by repeat case_match. }
  unfold decide_evidence. destruct (ev_payload e); try done; intros _; cbn [fst]; try apply Ha;
    (apply Hr; [done|]); try done; by repeat case_match.
Qed.

Lemma apply_fenced_same_live limits h change s :
  change_ok limits s change -> session_is_fenced s (att_owner (sc_meta change)) = true ->
  sc_object_registration change = NoStage -> sc_endpoint_registration change = NoStage ->
  same_live s (apply_tables h change s).
Proof.
  intros Hch Hf H1 H2. split; try done; cbn.
  - by rewrite H1.
  - by rewrite H2.
  - by apply stage_same_visible.
  - apply ports_same_visible; [done|]. apply Hch.
  - by apply stage_same_visible.
  - by apply stage_same_visible.
  - by apply stage_same_visible.
  - by apply stage_same_visible.
Qed.

Lemma same_live_refl s : same_live s s.
Proof. split; try done; apply same_visible_refl. Qed.

Lemma same_live_sessions s s' sessions : same_live s s' -> same_live s (set_sessions sessions s').
Proof. by intros []. Qed.

Lemma ingest_fenced_same_live {S} `{AppendLog S} e now persist live (impl : Impl S) :
  session_is_fenced (im_state impl) (mkKey (hdr_source (ev_header e)) (hdr_incarnation (ev_header e))) = true ->
  is_registration (ev_payload e) = false ->
  same_live (im_state impl) (im_state (ingest_locked e now persist live impl).2).
Proof.
  intros Hf Hk. destruct (ingest_locked e now persist live impl) as [r impl'] eqn:E.
  apply ingest_cases in E as [|source session d t impl1 refusals h key Hc Hv Hs Hd Hses Hcase];
    [apply same_live_refl|].
  cbn [snd set_refusals set_state im_state]. apply same_live_sessions.
  destruct Hcase as [dec cache Hdec|? ? ? ? ? ? ? Hst|dec cache store Hdec].
  - apply same_live_refl.
  - rewrite Hst. apply same_live_refl.
  - pose proof (decide_change_ok (im_limits impl) (im_state impl)
      (attestation_of e (src_authority (sr_descriptor source)) now live) (im_labels impl) e) as Hch.
    pose proof (decide_no_registration (im_limits impl) (im_state impl)
      (attestation_of e (src_authority (sr_descriptor source)) now live) (im_labels impl) e Hk) as [Hno Hne].
    pose proof (decide_meta (im_limits impl) (im_state impl)
      (attestation_of e (src_authority (sr_descriptor source)) now live) (im_labels impl) e) as Hm.
    rewrite Hdec in *. cbn [fst] in *. eapply apply_fenced_same_live; [exact Hch|by rewrite Hm|done|done].
Qed.

(** ** Properties *)

(** Opening a session fences exactly the older incarnations of its source.
    When [OpenSession] succeeds for incarnation [n] of a source, every session
    of that source with a lower incarnation is fenced, the opened session and
    any higher one are not, and no session of another source changes its
    status. *)
Theorem open_session_fences {S} `{AppendLog S} descriptor incarnation t1 t2 (impl : Impl S) r impl' key :
  0 <= incarnation ->
  open_session descriptor incarnation t1 t2 impl = (r, impl') ->
  session_opened (os_disposition r) = true ->
  session_is_fenced (im_state impl') key =
    if keqb (key_source key) (src_id descriptor) then key_incarnation key <? incarnation
    else session_is_fenced (im_state impl) key.
Proof.
  intros Hpos Hopen Hd. destruct (open_session_done _ _ _ _ _ _ _ Hopen Hpos Hd) as (-> & _ & Hle).
  rewrite fenced_after_open. destruct (keqb _ _); [|done]. f_equal. lia.
Qed.

(** C24: Fencing is permanent. Once a session is fenced it stays fenced after
    any sequence of ingests, batches, session opens and closes, and registry
    close. *)
Theorem fencing_is_permanent {S} `{AppendLog S} (impl impl' : Impl S) key :
  reachable impl impl' ->
  session_is_fenced (im_state impl) key = true -> session_is_fenced (im_state impl') key = true.
Proof. intros Hr. by apply reachable_advance. Qed.

(** C25: A fenced source cannot change the graph. Ingesting any record other than
    a registration from a fenced session, whatever its outcome, leaves every
    port view, every side derivation, every object's incarnation and lifecycle
    ruling and every port capability as they were. *)
Theorem fenced_evidence_is_inert {S} `{AppendLog S} e now persist live (impl : Impl S) :
  let s := im_state impl in
  let s' := im_state (ingest_locked e now persist live impl).2 in
  session_is_fenced s (mkKey (hdr_source (ev_header e)) (hdr_incarnation (ev_header e))) = true ->
  is_registration (ev_payload e) = false ->
  (forall limits port policy, derive_port_view s' limits port policy = derive_port_view s limits port policy) /\
  (forall subject policy, derive_subject s' subject policy = derive_subject s subject policy) /\
  (forall object, object_incarnation_of s' object = object_incarnation_of s object) /\
  (forall object, lifecycle_action_of s' object = lifecycle_action_of s object) /\
  (forall port, port_capability_of s' port = port_capability_of s port).
Proof.
  intros s s' Hf Hk. pose proof (ingest_fenced_same_live e now persist live impl Hf Hk) as Hl.
  fold s s' in Hl. split_and!; intros.
  - by apply live_port_view.
  - by apply live_subject.
  - by apply live_incarnation.
  - by apply live_lifecycle.
  - by apply live_port_capability.
Qed.
