(* ===== verification/Durability.v ===== *)
(** * Durability: what a restart recovers

    The log determines the evidence.  Every accepted change is in the log
    before it is in the tables; replaying the log of a reachable registry
    rebuilds a replica of its state; compaction preserves that as long as the
    image fits the ceilings of its own reader. *)
From S2P Require Import Prelude OrdMap Types Ids Graph Codec Serialization State StateCodec Fold Derive Log Admit Ingest Session Recovery Invariant WellFormed Replica.
#[local] Open Scope Z_scope.

(** ** Records of the log read back *)

Lemma rt_evidence_record limits e now :
  limits_ok limits -> wf_evidence limits e -> is_i64 now ->
  roundtrip (encode_evidence_record limits e now) (decode_evidence_record limits) (now, e).
Proof.
  intros Hl He Hn. unfold encode_evidence_record, decode_evidence_record.
  eapply rt_seq; [by apply rt_u32|]. apply rt_guard; [done|]. eapply rt_seq; [by apply rt_i64|].
  by apply (rt_map _ _ (pair now)), rt_evidence.
Qed.

Lemma rt_session_open limits d i t :
  limits_ok limits -> wf_source_descriptor limits d -> is_u64 i -> is_i64 t ->
  roundtrip (encode_session_open limits d i t) (decode_session_open limits) (d, i, t).
Proof.
  intros Hl Hd Hi Ht. unfold encode_session_open, decode_session_open.
  eapply rt_seq; [by apply rt_source_descriptor|]. eapply rt_seq; [by apply rt_u64|].
  by apply (rt_map _ _ (pair (d, i))), rt_i64.
Qed.

Lemma rt_session_close key :
  id_ok (key_source key) -> is_u64 (key_incarnation key) ->
  roundtrip (encode_session_close key) decode_session_close key.
Proof.
  intros Hs Hi. destruct key as [s i]. unfold encode_session_close, decode_session_close. cbn in *.
  eapply rt_seq; [by apply rt_id|]. by apply (rt_map _ _ (mkKey s)), rt_u64.
Qed.

(** A session close record is 24 bytes and always encodes. *)
Lemma session_close_ok key : enc_ok (encode_session_close key new_encoder) = true.
Proof.
  pose proof (writes_seq _ _ _ _ (writes_append (le_bytes 8 (id_hi (sid_value (key_source key)))))
    (writes_append (le_bytes 8 (id_lo (sid_value (key_source key)))))) as H1.
  pose proof (writes_seq _ _ _ _ H1 (writes_append (le_bytes 8 (key_incarnation key)))) as H2.
  specialize (H2 new_encoder enc_inv_new). unfold encode_session_close, enc_id, enc_id128, enc_u64.
  unfold enc_ok. rewrite H2. cbn -[kMaxEncodedBytes]. done.
Qed.

(** ** Clearing keeps a state well formed and of the same size *)

Lemma map_sorted_vals_iff {K V W} `{Ord K} (f : V -> W) (m : ordmap K V) : map_sorted (map_vals f m) <-> map_sorted m.
Proof.
  split; [|apply map_sorted_vals]. induction m as [|[k v] m IH]; intros Hs; [constructor|].
  inversion Hs as [|? ? Hs' Hall]; subst. constructor; [by apply IH|].
  unfold map_vals in Hall. rewrite Forall_fmap in Hall. eapply Forall_impl; [exact Hall|]. by intros [k' v'].
Qed.

Section clear_wf.
Context (limits : Limits).

Lemma clear_folded_wf {T} (wv : T -> Prop) f : wf_folded limits wv f -> wf_folded limits wv (clear_folded f).
Proof.
  intros (Hm & Hv & Hl & Hr & Hd). unfold wf_folded, clear_folded. cbn. split_and!; try done.
  - unfold zlen in *. by rewrite length_fmap.
  - apply Forall_fmap. eapply Forall_impl; [exact Hr|]. by intros a Ha.
Qed.

Lemma erase_group_sorted `{Forgets} {K O T} `{Ord K, Ord O} (g : groups K O T) :
  group_sorted g <-> group_sorted (erase_group g).
Proof.
  assert (Forall (fun e => map_sorted e.2) (erase_group g) <-> Forall (fun e => map_sorted e.2) g) as Hin.
  { unfold erase_group. unfold map_vals at 1. rewrite Forall_fmap.
    split; intros Hall; (eapply Forall_impl; [exact Hall|]); intros [k m]; cbn [compose fst snd];
      by rewrite map_sorted_vals_iff. }
  unfold group_sorted. rewrite Hin. unfold erase_group. by rewrite map_sorted_vals_iff.
Qed.

Lemma clear_group_wf {K O T} `{Ord K, Ord O} (wp : K -> Prop) (wk : K -> O -> Prop) (wv : T -> Prop) g :
  wf_group limits wp wk wv g -> wf_group limits wp wk wv (clear_group g).
Proof.
  intros [Hs Hall]. split; [by apply erase_group_sorted in Hs|]. unfold clear_group, map_vals. apply Forall_fmap.
  eapply Forall_impl; [exact Hall|]. intros [k m] [Hk Hm]. split; [done|]. cbn. apply Forall_fmap.
  eapply Forall_impl; [exact Hm|]. intros [o f] [Ho Hf]. split; [done|]. by apply clear_folded_wf.
Qed.

Lemma clear_volatile_wf s : wf_state limits s -> wf_state limits (clear_volatile s).
Proof.
  intros (Hid & Hop & Hsrc & [Hses Hall] & Htab). destruct_and! Htab.
  split_and!; try done; try apply Hsrc; try (by apply clear_group_wf).
  - by apply map_sorted_vals.
  - unfold clear_volatile, map_vals. cbn. apply Forall_fmap. eapply Forall_impl; [exact Hall|]. by intros [k r].
Qed.

Lemma clear_group_fits {K O T} p o (g : groups K O T) : group_fits p o g -> group_fits p o (clear_group g).
Proof.
  intros [Hp Ho]. split; [by rewrite <- (erase_group_zlen g) in Hp|]. unfold clear_group, map_vals. apply Forall_fmap.
  eapply Forall_impl; [exact Ho|]. intros [k m]. cbn. unfold zlen. by rewrite length_fmap.
Qed.

Lemma clear_volatile_fits s : image_fits limits s -> image_fits limits (clear_volatile s).
Proof.
  intros Hf. unfold image_fits in *. destruct_and! Hf.
  split_and!; try (by apply clear_group_fits); [done|].
  cbn. unfold zlen. by rewrite map_vals_length.
Qed.
End clear_wf.

(** ** The simulation *)

Lemma map_vals_const_set {K V W} `{Ord K} (w : W) k (v : V) (m : ordmap K V) :
  map_sorted m -> is_Some (map_find k m) -> map_vals (fun _ => w) (map_set k v m) = map_vals (fun _ => w) m.
Proof.
  intros Hs [v0 Hf]. rewrite map_vals_set.
  assert (Hm : map_find k (map_vals (fun _ => w) m) = Some w) by (by rewrite find_map_vals, Hf).
  apply OrdMap.map_ext; [by apply map_sorted_set, map_sorted_vals|by apply map_sorted_vals|].
  intros k'. rewrite find_set. destruct (keqb k' k) eqn:E; [|done]. apply keqb_eq in E as ->. by rewrite Hm.
Qed.

(** Updating the record of a known session is invisible to the evidence. *)
Lemma set_sessions_replica `{Forgets} s key session :
  map_sorted (rs_sessions s) -> has_session s key -> set_sessions (map_set key session (rs_sessions s)) s ≈ s.
Proof.
  intros Hs Hk. unfold replica, essence, set_sessions. cbn -[map_vals map_set erase_group].
  by rewrite map_vals_const_set.
Qed.

Lemma replica_has_session `{Forgets} s1 s2 key : s1 ≈ s2 -> has_session s1 key <-> has_session s2 key.
Proof.
  intros Hr. unfold has_session. apply (f_equal rs_sessions) in Hr. cbn -[map_vals] in Hr.
  assert (E : forall s, is_Some (map_find key (rs_sessions s)) <->
            is_Some (map_find key (map_vals (fun _ => default_session_record) (rs_sessions s)))).
  { intros s. rewrite find_map_vals. by rewrite fmap_is_Some. }
  by rewrite (E s1), (E s2), Hr.
Qed.

Lemma replica_sources `{Forgets} s1 s2 : s1 ≈ s2 -> rs_sources s1 = rs_sources s2.
Proof. intros Hr. by apply (f_equal rs_sources) in Hr. Qed.

Lemma replica_sessions_sorted `{Forgets} s1 s2 : s1 ≈ s2 -> map_sorted (rs_sessions s1) -> map_sorted (rs_sessions s2).
Proof.
  intros Hr Hs. apply (f_equal rs_sessions) in Hr. cbn -[map_vals] in Hr.
  rewrite <- (map_sorted_vals_iff (fun _ => default_session_record)), <- Hr. by apply map_sorted_vals.
Qed.

Lemma replica_objects_sorted `{Forgets} s1 s2 :
  s1 ≈ s2 -> group_sorted (rs_object_registrations s1) -> group_sorted (rs_object_registrations s2).
Proof.
  intros Hr Hs. apply (f_equal rs_object_registrations) in Hr. cbn -[erase_group] in Hr.
  apply erase_group_sorted. rewrite <- Hr. by apply erase_group_sorted in Hs.
Qed.

Section simulation.
Context {S : Type} `{AppendLog S}.
Implicit Types impl r : Impl S.

(** [r], in the middle of a replay, has rebuilt the evidence of [impl]. *)
Record rebuilt (r impl : Impl S) : Prop := {
  rb_limits : im_limits r = im_limits impl;
  rb_history : im_history_per_key r = im_history_per_key impl;
  rb_open : im_closed r = false;
  rb_labels : labels_ok (im_state r) (im_labels r);
  rb_id : rs_id (im_state r) = rs_id (im_state impl);
  rb_state : im_state r ≈ im_state impl;
}.

Lemma rebuilt_replica r impl impl' :
  rebuilt r impl -> im_limits impl' = im_limits impl -> im_history_per_key impl' = im_history_per_key impl ->
  rs_id (im_state impl') = rs_id (im_state impl) -> im_state impl' ≈ im_state impl -> rebuilt r impl'.
Proof.
  intros [] E1 E2 E3 E4. split; [by rewrite E1|by rewrite E2|done|done|by rewrite E3|].
  by rewrite E4.
Qed.

(** Where the handler goes for a known session. *)
Lemma ingest_known e now persist live impl source session :
  im_closed impl = false -> validate_evidence_shape e (im_limits impl) = None ->
  map_find (hdr_source (ev_header e)) (rs_sources (im_state impl)) = Some source -> sr_described source = true ->
  map_find (mkKey (hdr_source (ev_header e)) (hdr_incarnation (ev_header e))) (rs_sessions (im_state impl)) =
    Some session ->
  let key := mkKey (hdr_source (ev_header e)) (hdr_incarnation (ev_header e)) in
  let '(d, _, impl1) := commit e now persist
    (attestation_of e (src_authority (sr_descriptor source)) now live) impl in
  ir_disposition (ingest_locked e now persist live impl).1 = d /\
  exists refusals,
    (ingest_locked e now persist live impl).2 =
    set_refusals refusals
      (set_state (set_sessions (map_set key (count_session (hdr_generation (ev_header e)) d session)
         (rs_sessions (im_state impl1))) (im_state impl1)) impl1).
Proof.
  intros Hc Hv Hs Hd Hse key. destruct (commit _ _ _ _ _) as [[d t] impl1] eqn:Ec.
  unfold ingest_locked. rewrite Hc, Hv, Hs, Hd. cbn [negb]. rewrite Hse. rewrite Ec.
  pose proof (commit_sessions _ _ _ _ _ _ _ _ (commit_cases _ _ _ _ _ _ _ _ Ec)) as Hss.
  unfold key. rewrite Hss, Hse. cbn [from_option id snd].
  split; [done|]. destruct (is_accepted d); [eexists; symmetry; apply set_refusals_id|]. apply note_case.
Qed.

(** Replaying an applied record applies the same change. *)
Lemma replay_ingest e now live meta d cache impl r source session :
  im_closed impl = false -> validate_evidence_shape e (im_limits impl) = None ->
  map_find (hdr_source (ev_header e)) (rs_sources (im_state impl)) = Some source -> sr_described source = true ->
  map_find (mkKey (hdr_source (ev_header e)) (hdr_incarnation (ev_header e))) (rs_sessions (im_state impl)) =
    Some session ->
  meta = attestation_of e (src_authority (sr_descriptor source)) now live ->
  decide_evidence (im_limits impl) (im_state impl) meta (im_labels impl) e = (d, cache) ->
  sc_apply (dc_change d) = true -> is_accepted (dc_disposition d) = true ->
  impl_inv impl -> rebuilt r impl ->
  rebuilt (ingest_locked e now false false r).2 (apply_change (dc_change d) impl).
Proof.
  intros Hc Hv Hsrc Hdes Hses -> Hdec Happ Hacc Hinv [].
  pose proof (replica_sources _ _ rb_state0) as Esrc.
  destruct (proj2 (replica_has_session _ _ (mkKey (hdr_source (ev_header e)) (hdr_incarnation (ev_header e))) rb_state0))
    as [session' Hses']; [by eexists|].
  pose proof (ingest_known e now false false r source session' rb_open0) as Hk.
  rewrite rb_limits0, Esrc in Hk. specialize (Hk Hv Hsrc Hdes Hses').
  pose proof (decide_replica (im_limits impl) (im_state r) (im_state impl)
    (attestation_of e (src_authority (sr_descriptor source)) now false)
    (attestation_of e (src_authority (sr_descriptor source)) now live) (im_labels r) (im_labels impl) e
    rb_state0 eq_refl rb_labels0 (ii_labels _ Hinv)) as Hrul.
  pose proof (decide_cache_ok (im_limits impl) (im_state r)
    (attestation_of e (src_authority (sr_descriptor source)) now false) _ e rb_labels0) as Hcache.
  unfold commit in Hk. rewrite rb_limits0 in Hk. rewrite Hdec in Hrul. cbn [fst] in Hrul.
  destruct (decide_evidence _ (im_state r) _ _ e) as [d' cache'] eqn:Ed'. cbn [fst snd] in *.
  assert (Ed : dc_disposition d' = dc_disposition d) by apply (f_equal dc_disposition Hrul).
  assert (Ech : clear_change (dc_change d') = clear_change (dc_change d)) by apply (f_equal dc_change Hrul).
  assert (Ea : sc_apply (dc_change d') = sc_apply (dc_change d)) by apply (f_equal sc_apply Ech).
  rewrite Ea, Happ, Ed, Hacc in Hk. cbn [andb] in Hk. destruct Hk as [_ [refusals ->]].
  assert (Hobj : group_sorted (rs_object_registrations (im_state r))).
  { eapply replica_objects_sorted; [by symmetry|apply (ii_state _ Hinv)]. }
  assert (Hst : apply_tables (im_history_per_key r) (dc_change d') (im_state r)
                ≈ apply_tables (im_history_per_key impl) (dc_change d) (im_state impl)).
  { rewrite rb_history0. by apply apply_tables_replica. }
  split; cbn -[apply_tables]; try done.
  - apply (apply_labels_ok (im_history_per_key r) (dc_change d') (im_state r) cache'); done.
  - etrans; [|exact Hst]. apply set_sessions_replica.
    + eapply replica_sessions_sorted; [by symmetry|]. apply (ii_state _ Hinv).
    + unfold has_session. cbn. by eexists.
Qed.

(** ** Recoverable registries *)

(** Replaying the log on any fresh registry of the same configuration
    rebuilds the evidence of [impl]. *)
Definition recoverable (impl : Impl S) : Prop :=
  is_Some (im_store impl) /\
  forall base, im_limits base = im_limits impl -> im_history_per_key base = im_history_per_key impl ->
    im_closed base = false -> exists r, replay (logged impl) base = inl r /\ rebuilt r impl.

Lemma replay_app l1 l2 base :
  replay (l1 ++ l2) base = match replay l1 base with inl r => replay l2 r | inr e => inr e end.
Proof.
  revert base. induction l1 as [|x l1 IH]; intros base; [done|]. cbn [app replay].
  destruct (replay_record x base); [apply IH|done].
Qed.

(** The registry changed in ways the evidence does not show, the log did
    not. *)
Lemma recoverable_same impl impl' :
  recoverable impl -> im_limits impl' = im_limits impl -> im_history_per_key impl' = im_history_per_key impl ->
  rs_id (im_state impl') = rs_id (im_state impl) -> im_state impl' ≈ im_state impl ->
  (is_Some (im_store impl) -> is_Some (im_store impl')) -> logged impl' = logged impl -> recoverable impl'.
Proof.
  intros [Hst Hrec] El Eh Ei Es Hsto Elog. split; [auto|]. intros base. rewrite El, Eh, Elog. intros B1 B2 B3.
  destruct (Hrec base B1 B2 B3) as (r & Hr & Hreb). exists r. split; [done|]. by eapply rebuilt_replica.
Qed.

(** One more record in the log, whose replay rebuilds the change. *)
Lemma recoverable_snoc impl impl' record :
  recoverable impl -> im_limits impl' = im_limits impl -> im_history_per_key impl' = im_history_per_key impl ->
  is_Some (im_store impl') -> logged impl' = logged impl ++ [record] ->
  (forall r, rebuilt r impl -> exists r', replay_record record r = inl r' /\ rebuilt r' impl') ->
  recoverable impl'.
Proof.
  intros [Hst Hrec] El Eh Hsto Elog Hone. split; [done|]. intros base. rewrite El, Eh. intros B1 B2 B3.
  destruct (Hrec base B1 B2 B3) as (r & Hr & Hreb). destruct (Hone r Hreb) as (r' & Hr' & Hreb').
  exists r'. split; [|done]. rewrite Elog, replay_app, Hr. cbn. by rewrite Hr'.
Qed.

Lemma ingest_recoverable e now live impl :
  impl_inv impl -> impl_wf impl -> typed_evidence e -> is_i64 now -> recoverable impl ->
  recoverable (ingest_locked e now true live impl).2.
Proof.
  intros Hinv Hwf Ht Hn Hrec. destruct (ingest_locked e now true live impl) as [res impl'] eqn:E.
  apply ingest_cases in E as [r' refusals Hr|source session d t impl1 refusals hdr key Hc Hv Hsrc Hdes Hses Hcase].
  { by eapply recoverable_same; [exact Hrec|..]. }
  assert (Hsorted : map_sorted (rs_sessions (im_state impl))) by apply (ii_state _ Hinv).
  assert (Hkey : has_session (im_state impl) key) by (unfold has_session; rewrite Hses; by eexists).
  destruct Hcase as [dec cache Hd Ha|dec cache text impl2 Hd Hp Hlog Hst Hcache Hlim Hhis Hcl Hsto
                    |dec cache store Hd Ha Hacc Hsto Hlog].
  - eapply recoverable_same; [exact Hrec|done|done|done| |done|done]. cbn [im_state set_refusals set_state set_labels].
    by apply set_sessions_replica.
  - eapply recoverable_same; [exact Hrec|done|done|cbn; by rewrite Hst| |by apply Hsto|exact Hlog].
    cbn [im_state set_refusals set_state]. rewrite Hst. by apply set_sessions_replica.
  - destruct Hlog as [[? _]|[(_ & Hnone & _)|(_ & Hsome & Hok & Hlog)]]; [done| |].
    { destruct Hrec as [[? Hs] _]. rewrite Hnone in Hs. done. }
    eapply recoverable_snoc; [exact Hrec|done|done|by apply Hsto|exact Hlog|]. intros r Hreb.
    cbn [replay_record fst snd]. rewrite (rb_limits _ _ Hreb).
    rewrite (decode_all_roundtrip _ _ _ (rt_evidence_record _ e now (limits_u32_ok _ (iw_limits _ Hwf))
      (validated_wf _ _ Hv Ht) Hn) Hok).
    eexists. split; [reflexivity|].
    pose proof (replay_ingest e now live _ dec cache impl r source session Hc Hv Hsrc Hdes Hses eq_refl Hd Ha Hacc Hinv Hreb)
      as Hre.
    eapply rebuilt_replica; [exact Hre|done|done|done|]. cbn -[apply_tables set_sessions].
    apply (set_sessions_replica (apply_tables (im_history_per_key impl) (dc_change dec) (im_state impl))); [done|].
    done.
Qed.

Lemma ingest_all_recoverable now evidence impl :
  impl_inv impl -> impl_wf impl -> Forall typed_evidence evidence -> (forall i, is_i64 (now i)) ->
  recoverable impl -> recoverable (ingest_all now evidence impl).2.
Proof.
  intros Hinv Hwf Ht. revert now impl Hinv Hwf. induction Ht as [|e rest He _ IH]; intros now impl Hinv Hwf Hn Hrec;
    [done|]. cbn.
  pose proof (ingest_recoverable e (now 0%nat) true impl Hinv Hwf He (Hn _) Hrec) as H1.
  pose proof (ingest_inv e (now 0%nat) true true impl Hinv) as H2.
  pose proof (ingest_wf e (now 0%nat) true true impl Hwf He (Hn _)) as H3.
  destruct (ingest_locked _ _ _ _ _) as [r impl1]. cbn in H1, H2, H3.
  specialize (IH (fun i => now (Datatypes.S i)) impl1 H2 H3 (fun i => Hn _) H1). by destruct (ingest_all _ rest impl1).
Qed.

(** *** Sessions *)

Lemma map_vals_const_ext {K V W} `{Ord K} (w : W) k (v1 v2 : V) (m1 m2 : ordmap K V) :
  map_vals (fun _ => w) m1 = map_vals (fun _ => w) m2 ->
  map_vals (fun _ => w) (map_set k v1 m1) = map_vals (fun _ => w) (map_set k v2 m2).
Proof. intros E. by rewrite !map_vals_set, E. Qed.

(** The replayed change and the live one leave replicas. *)
Lemma open_session_replica `{Forgets} d i t1 t2 s1 s2 :
  map_sorted (rs_sessions s2) -> s1 ≈ s2 -> apply_session_open d i t1 s1 ≈ open_session_state d i t2 s2.
Proof.
  intros Hsort Hr. rewrite open_session_state_eq. set (key := mkKey (src_id d) i).
  set (s2' := apply_session_open d i t2 s2).
  etrans; [|symmetry; apply set_sessions_replica].
  - unfold replica, essence in *. unfold s2', apply_session_open, set_sessions, set_sources.
    cbn -[map_vals map_set erase_group map_find open_source stamp_session] in *.
    injection Hr as E1 E2 E3 E4 E5 E6 E7 E8 E9 E10. rewrite E1. f_equal; try done.
    by apply map_vals_const_ext.
  - by apply map_sorted_set.
  - unfold has_session, s2', apply_session_open. cbn. rewrite find_set_eq. by eexists.
Qed.

Lemma apply_session_open_labels d i t s cache :
  labels_ok s cache -> labels_ok (apply_session_open d i t s) cache.
Proof. done. Qed.

Lemma log_session_open_cases d i t impl res impl' :
  log_session_open d i t impl = (res, impl') -> is_Some (im_store impl) ->
  exists store, impl' = set_store (Some store) impl /\
    match res with
    | Some _ => logged impl' = logged impl
    | None => enc_ok (encode_session_open (im_limits impl) d i t new_encoder) = true /\
        logged impl' = logged impl ++
          [(RecordKind.SessionOpen, enc_take (encode_session_open (im_limits impl) d i t new_encoder))]
    end.
Proof.
  unfold log_session_open, logged. intros E [st Hst]. rewrite Hst in *.
  destruct (enc_ok _) eqn:Eok; cbn [negb] in E.
  2: { injection E as <- <-. exists st. rewrite <- Hst. split; [by destruct impl|]. by rewrite Hst. }
  destruct (log_append _ _ st) as [st' [[]|err]] eqn:El; injection E as <- <-; exists st'; (split; [done|]); cbn.
  - split; [done|]. by apply log_append_ok.
  - by apply log_append_failed in El.
Qed.

Lemma open_session_recoverable d i t1 t2 impl :
  impl_inv impl -> impl_wf impl -> typed_descriptor d -> is_u64 i -> is_i64 t1 -> recoverable impl ->
  recoverable (open_session d i t1 t2 impl).2.
Proof.
  intros Hinv Hwf Htd Hi Ht Hrec. unfold open_session.
  destruct (open_session_refusal _ _ _) as [[[? ?] ?]|] eqn:Er; [done|].
  destruct (open_refusal_wf _ _ _ Er Htd) as [Hd Hn].
  destruct (log_session_open _ _ _ _) as [res impl1] eqn:El.
  apply log_session_open_cases in El as (store & -> & Hlog); [|apply Hrec].
  destruct res as [[? ?]|]; [by eapply recoverable_same; [exact Hrec|..]|]. destruct Hlog as [Hok Hlog].
  destruct (if negb _ || _ then _ else _) as [disp detail]. cbn [snd].
  eapply recoverable_snoc; [exact Hrec|done|done|done|exact Hlog|]. intros r [].
  cbn [replay_record fst snd]. rewrite rb_limits0.
  rewrite (decode_all_roundtrip _ _ _ (rt_session_open _ d i t1 (limits_u32_ok _ (iw_limits _ Hwf)) Hd Hi Ht) Hok).
  destruct Hd as (_ & Hnil & _). rewrite (proj2 (Z.eqb_neq i 0) Hn), Hnil. cbn [orb].
  eexists. split; [reflexivity|]. split; try done. cbn [im_state set_state set_store].
  apply open_session_replica; [apply (ii_state _ Hinv)|done].
Qed.

Lemma close_session_recoverable key impl :
  impl_inv impl -> id_ok (key_source key) -> is_u64 (key_incarnation key) -> recoverable impl ->
  recoverable (close_session key impl).2.
Proof.
  intros Hinv Hid Hin Hrec. unfold close_session. case_match; [done|].
  destruct (map_find key _) as [session|] eqn:Es; [|done].
  assert (Hk : has_session (im_state impl) key) by (unfold has_session; rewrite Es; by eexists).
  assert (Hsort : map_sorted (rs_sessions (im_state impl))) by apply (ii_state _ Hinv).
  pose proof Hrec as [[store Hst] _]. rewrite Hst.
  destruct (log_append _ _ store) as [store' [[]|err]] eqn:El; cbn [snd].
  - apply log_append_ok in El.
    eapply recoverable_snoc; [exact Hrec|done|done|done|unfold logged; cbn; by rewrite Hst, El|].
    intros r []. cbn [replay_record fst snd].
    rewrite (decode_all_roundtrip _ _ _ (rt_session_close key Hid Hin) (session_close_ok key)).
    eexists. split; [reflexivity|].
    destruct (proj2 (replica_has_session _ _ key rb_state0) Hk) as [session' Es']. rewrite Es'.
    split; try done. cbn [im_state set_state set_store].
    rewrite set_sessions_replica; [|eapply replica_sessions_sorted; [by symmetry|done]|unfold has_session; by eexists].
    rewrite set_sessions_replica by done. done.
  - apply log_append_failed in El. eapply recoverable_same; [exact Hrec|done|done|done|done|done|].
    unfold logged. cbn. by rewrite Hst, El.
Qed.

Lemma close_registry_recoverable impl : recoverable impl -> recoverable (close_registry impl).
Proof.
  intros Hrec. unfold close_registry. case_match; [done|]. cbn [im_store set_closed].
  pose proof Hrec as [[store Hst] _]. rewrite Hst.
  eapply recoverable_same; [exact Hrec|done|done|done|done|done|].
  unfold logged. cbn. rewrite Hst. apply log_close_records.
Qed.

(** *** Compaction *)

(** A snapshot alone rebuilds the state it was taken of. *)
Lemma snapshot_rebuilds impl base :
  impl_wf impl -> image_fits (im_limits impl) (im_state impl) ->
  enc_ok (encode_image (im_limits impl) (im_state impl)) = true ->
  im_limits base = im_limits impl -> im_history_per_key base = im_history_per_key impl -> im_closed base = false ->
  exists r, replay [(RecordKind.StateSnapshot, enc_take (encode_image (im_limits impl) (im_state impl)))] base = inl r
    /\ rebuilt r impl.
Proof.
  intros [Hl Hh Hs] Hfit Hok E1 E2 E3. cbn [replay replay_record fst snd]. rewrite E1. unfold encode_image in *.
  rewrite (decode_all_roundtrip _ _ _ (rt_state _ Hl _ (clear_volatile_wf _ _ Hs) (clear_volatile_fits _ _ Hfit)) Hok).
  eexists. split; [reflexivity|]. split; try done. cbn [im_state set_labels set_state]. apply clear_volatile_replica.
Qed.

Lemma compact_recoverable impl :
  impl_wf impl -> image_fits (im_limits impl) (im_state impl) -> recoverable impl -> recoverable (compact impl).2.
Proof.
  intros Hwf Hfit Hrec. unfold compact. case_match; [done|]. pose proof Hrec as [[store Hst] _]. rewrite Hst.
  destruct (enc_ok _) eqn:Eok; cbn [negb]; [|done].
  destruct (log_rewrite _ store) as [store' out] eqn:Er.
  assert (Hlog : log_records store' = log_records store \/
    log_records store' = [(RecordKind.StateSnapshot, enc_take (encode_image (im_limits impl) (im_state impl)))]).
  { destruct out as [[]|err]; [right; by apply log_rewrite_ok in Er|by apply log_rewrite_failed in Er]. }
  destruct Hlog as [Hlog|Hlog].
  - eapply recoverable_same; [exact Hrec|done|done|done|done|done|]. unfold logged. cbn. by rewrite Hst, Hlog.
  - split; [done|]. intros base B1 B2 B3. unfold logged. cbn [set_store im_store snd]. rewrite Hlog.
    destruct (snapshot_rebuilds impl base Hwf Hfit Eok B1 B2 B3) as (r & Hr & Hreb).
    exists r. split; [done|]. by eapply rebuilt_replica.
Qed.

(** A call, or a compaction of a state whose image fits its reader. *)
Inductive durable_step impl : Impl S -> Prop :=
  | durable_call impl' : call impl impl' -> durable_step impl impl'
  | durable_compact : image_fits (im_limits impl) (im_state impl) -> durable_step impl (compact impl).2.

Lemma durable_step_step impl impl' : durable_step impl impl' -> step impl impl'.
Proof. intros [? Hc| ]; [by apply step_call|apply step_compact]. Qed.

Lemma durable_step_recoverable impl impl' :
  durable_step impl impl' -> impl_inv impl -> impl_wf impl -> recoverable impl -> recoverable impl'.
Proof.
  intros Hstep Hinv Hwf Hrec.
  destruct Hstep as [? [now e Hn He|now es Hn Hes|d i t1 t2 Hd Hi Ht1 Ht2|key Hid Hin|]|Hfit].
  - by apply ingest_recoverable.
  - apply ingest_all_recoverable; try done. by apply Forall_take.
  - by apply open_session_recoverable.
  - by apply close_session_recoverable.
  - by apply close_registry_recoverable.
  - by apply compact_recoverable.
Qed.

Lemma durable_recoverable impl impl' :
  rtc durable_step impl impl' -> impl_inv impl -> impl_wf impl -> recoverable impl ->
  impl_inv impl' /\ impl_wf impl' /\ recoverable impl'.
Proof.
  induction 1 as [|x y z Hxy _ IH]; intros Hinv Hwf Hrec; [done|].
  pose proof (durable_step_step _ _ Hxy). apply IH; [by eapply step_inv|by eapply step_wf|].
  by eapply durable_step_recoverable.
Qed.
End simulation.

(** ** The registry keeps its identity *)

Section identity.
Context {S : Type} `{AppendLog S}.
Implicit Types impl : Impl S.
#[local] Abbreviation same_id impl impl' := (rs_id (im_state impl') = rs_id (im_state impl)).

Lemma ingest_id e now persist live impl : same_id impl (ingest_locked e now persist live impl).2.
Proof.
  destruct (ingest_locked e now persist live impl) as [r impl'] eqn:E.
  apply ingest_cases in E as [|? ? ? ? impl1 ? ? ? _ _ _ _ _ Hcase]; [done|]. cbn.
  destruct Hcase as [| ? ? ? ? ? ? ? Hst |]; [done|by rewrite Hst|done].
Qed.

Lemma ingest_all_id now es impl : same_id impl (ingest_all now es impl).2.
Proof.
  revert now impl. induction es as [|e es IH]; intros now impl; [done|]. cbn.
  pose proof (ingest_id e (now 0%nat) true true impl) as H1. destruct (ingest_locked _ _ _ _ _) as [r impl1].
  specialize (IH (fun i => now (Datatypes.S i)) impl1). destruct (ingest_all _ es impl1). cbn in *. congruence.
Qed.

Lemma step_id impl impl' : step impl impl' -> same_id impl impl'.
Proof.
  intros [? [now e _ _|now es _ _|d i t1 t2 _ _ _ _|key _ _|]|].
  - apply ingest_id.
  - apply ingest_all_id.
  - unfold open_session. destruct (open_session_refusal _ _ _) as [[[? ?] ?]|]; [done|].
    destruct (log_session_open _ _ _ _) as [r impl1] eqn:El.
    apply log_session_open_same in El as [store ->]. destruct r as [[? ?]|]; [done|].
    by destruct (if negb _ || _ then _ else _) as [disp detail].
  - unfold close_session. case_match; [done|]. case_match; [|done]. destruct (im_store impl); [|done].
    by destruct (log_append _ _ _) as [? [|]].
  - unfold close_registry. by repeat case_match.
  - by destruct (compact_same impl) as (store & -> & _).
Qed.

Lemma durable_id impl impl' : rtc durable_step impl impl' -> same_id impl impl'.
Proof.
  induction 1 as [|x y z Hxy _ IH]; [done|]. rewrite IH. by apply step_id, durable_step_step.
Qed.
End identity.

(** ** The configuration never changes *)

Section config.
Context {S : Type} `{AppendLog S}.
Implicit Types impl : Impl S.
#[local] Abbreviation same_config impl impl' :=
  (im_limits impl' = im_limits impl /\ im_history_per_key impl' = im_history_per_key impl).

Lemma ingest_config e now persist live impl : same_config impl (ingest_locked e now persist live impl).2.
Proof.
  destruct (ingest_locked e now persist live impl) as [r impl'] eqn:E.
  apply ingest_cases in E as [|? ? ? ? impl1 ? ? ? _ _ _ _ _ Hcase]; [done|]. cbn. by destruct Hcase.
Qed.

Lemma ingest_all_config now es impl : same_config impl (ingest_all now es impl).2.
Proof.
  revert now impl. induction es as [|e es IH]; intros now impl; [done|]. cbn.
  pose proof (ingest_config e (now 0%nat) true true impl) as H1. destruct (ingest_locked _ _ _ _ _) as [r impl1].
  specialize (IH (fun i => now (Datatypes.S i)) impl1). destruct (ingest_all _ es impl1). cbn in *.
  destruct H1, IH. by split; congruence.
Qed.

Lemma step_config impl impl' : step impl impl' -> same_config impl impl'.
Proof.
  intros [? [now e _ _|now es _ _|d i t1 t2 _ _ _ _|key _ _|]|].
  - apply ingest_config.
  - apply ingest_all_config.
  - unfold open_session. destruct (open_session_refusal _ _ _) as [[[? ?] ?]|]; [done|].
    destruct (log_session_open _ _ _ _) as [r impl1] eqn:El.
    apply log_session_open_same in El as [store ->]. destruct r as [[? ?]|]; [done|].
    by destruct (if negb _ || _ then _ else _) as [disp detail].
  - unfold close_session. case_match; [done|]. case_match; [|done]. destruct (im_store impl); [|done].
    by destruct (log_append _ _ _) as [? [|]].
  - unfold close_registry. by repeat case_match.
  - by destruct (compact_same impl) as (store & -> & _).
Qed.

Lemma durable_config impl impl' : rtc durable_step impl impl' -> same_config impl impl'.
Proof.
  induction 1 as [|x y z Hxy _ IH]; [done|].
  destruct (step_config _ _ (durable_step_step _ _ Hxy)), IH. by split; congruence.
Qed.
End config.

(** ** Opening a store *)

(** Options of the widths their types have. *)
Definition typed_options (options : RegistryOptions) : Prop :=
  limits_u32 (op_limits options) /\ 0 <= op_history_per_key options /\ id_ok (op_id options).

Lemma validate_limits_positive limits :
  validate_limits limits = inl tt -> limits_u32 limits ->
  0 < max_history_per_key limits /\ 0 < max_sources limits /\ 0 < max_objects limits /\ 0 < max_endpoints limits.
Proof.
  intros Hv Hu.
  assert (Hpos : max_objects limits <> 0 /\ max_endpoints limits <> 0 /\ max_sources limits <> 0 /\
                 max_history_per_key limits <> 0).
  { revert Hv. unfold validate_limits, require_positive.
    destruct (Z.eqb_spec (max_objects limits) 0); [done|].
    destruct (Z.eqb_spec (max_endpoints limits) 0); [done|].
    destruct (Z.eqb_spec (max_ports_per_endpoint limits) 0); [done|].
    destruct (Z.eqb_spec (max_sides_per_object limits) 0); [done|].
    destruct (Z.eqb_spec (max_sources limits) 0); [done|].
    destruct (Z.eqb_spec (max_port_simultaneous_attachments limits) 0); [done|].
    destruct (Z.eqb_spec (max_claim_records_per_port limits) 0); [done|].
    destruct (Z.eqb_spec (max_history_per_key limits) 0); [done|]. done. }
  unfold limits_u32, is_u32 in Hu. rewrite !Forall_cons in Hu. lia.
Qed.

Section opening.
Context {S : Type} `{AppendLog S}.
Implicit Types impl : Impl S.

Lemma fresh_impl_inv options now :
  validate_limits (op_limits options) = inl tt -> typed_options options -> op_history_per_key options <> 0 ->
  impl_inv (fresh_impl options now : Impl S).
Proof.
  intros Hv (Hu & Hh & _) Hn. destruct (validate_limits_positive _ Hv Hu) as (? & ? & ? & ?).
  split; cbn; [lia|apply state_inv_empty; lia|done].
Qed.

Lemma empty_state_wf limits id now : id_ok id -> is_i64 now -> wf_state limits (empty_state id now).
Proof.
  intros Hid Hn. unfold wf_state, wf_group, group_sorted. cbn.
  split_and!; first [exact Hid | exact Hn | apply SSorted_nil | apply List.Forall_nil].
Qed.

Lemma empty_state_fits limits id now :
  limits_u32 limits -> image_fits limits (empty_state id now).
Proof.
  intros Hu. pose proof (wrap32_range (max_endpoints limits * max_ports_per_endpoint limits)).
  pose proof (wrap32_range (max_sources limits * 64)).
  pose proof (wrap32_range (max_objects limits * max_sides_per_object limits)).
  pose proof (wrap32_range (max_sources limits * max_port_simultaneous_attachments limits)).
  unfold limits_u32 in Hu. rewrite !Forall_cons in Hu. unfold is_u32 in *.
  unfold image_fits, group_fits. cbn [rs_sources rs_sessions rs_object_registrations rs_endpoint_registrations
    rs_subject_records rs_port_records rs_lifecycle_records rs_reincarnation_records rs_object_capability_records
    rs_port_capability_records empty_state]. split_and!; first [rewrite zlen_nil; lia | apply List.Forall_nil].
Qed.

Lemma forget_empty id now : clear_volatile (empty_state id now) = empty_state id now.
Proof. done. Qed.

Lemma mint_id_ok draws : is_u64 draws.1 -> is_u64 draws.2 -> id_ok (mint_id draws).
Proof. intros H1 H2. unfold mint_id, random_id128. by case_match. Qed.

(** The identity of a registry opened on a new store. *)
Definition chosen_id (options : RegistryOptions) (draws : Z * Z) : RegistryId :=
  if is_nil (op_id options) then mint_id draws else op_id options.

Lemma chosen_id_not_nil options draws : is_nil (chosen_id options draws) = false.
Proof.
  unfold chosen_id. destruct (is_nil (op_id options)) eqn:E; [|done]. apply random_id128_not_nil.
Qed.

(** A registry opened on a new store satisfies every invariant, and its log
    already rebuilds it. *)
Lemma open_created options draws now report store impl :
  typed_options options -> is_u64 draws.1 -> is_u64 draws.2 -> is_i64 now ->
  log_records store = [] -> rr_created report = true ->
  registry_open options draws now (Some (report, inl store)) = inl impl ->
  impl_inv impl /\ impl_wf impl /\ recoverable impl /\ rs_id (im_state impl) = chosen_id options draws /\
  im_limits impl = op_limits options /\
  im_history_per_key impl = Z.min (op_history_per_key options) (max_history_per_key (op_limits options)).
Proof.
  intros Hopt Hd1 Hd2 Hn Hempty Hcr. unfold registry_open.
  destruct (validate_limits (op_limits options)) as [[]|] eqn:Hv; [|done].
  destruct (Z.eqb_spec (op_history_per_key options) 0) as [|Hh]; [done|].
  destruct (log_visit store) as [store' [records visited]] eqn:Evisit.
  destruct visited as [[]|err]; [|by destruct (replay _ _)].
  apply log_visit_ok in Evisit as [-> Hkept]. rewrite Hempty in Hkept |- *. cbn [replay]. rewrite Hcr.
  unfold finish_open. cbn [im_state fresh_impl rs_id empty_state].
  replace (negb (is_nil (op_id options)) && negb (is_nil (op_id options)) && negb (keqb (op_id options) (op_id options)))
    with false by (rewrite keqb_refl; by rewrite andb_false_r).
  set (impl1 := if is_nil (op_id options) then _ else _).
  assert (Hst : im_state impl1 = empty_state (chosen_id options draws) now).
  { unfold impl1, chosen_id. by destruct (is_nil (op_id options)). }
  assert (Hlim : im_limits impl1 = op_limits options) by (unfold impl1; by case_match).
  assert (Hhis : im_history_per_key impl1 = Z.min (op_history_per_key options) (max_history_per_key (op_limits options)))
    by (unfold impl1; by case_match).
  assert (Hcl : im_labels impl1 = mkLabelCache [] false) by (unfold impl1; by case_match).
  clearbody impl1. rewrite Hst.
  destruct (enc_ok _) eqn:Eok; cbn [negb]; [|done].
  destruct (log_append _ _ store') as [store1 [[]|err]] eqn:Ea; [|done]. intros [= <-].
  apply log_append_ok in Ea. rewrite Hkept in Ea. cbn [app] in Ea.
  pose proof Hopt as (Hu & Hhp & Hid). destruct (validate_limits_positive _ Hv Hu) as (? & ? & ? & ?).
  set (impl2 := forget_process _).
  assert (Hs2 : im_state impl2 = empty_state (chosen_id options draws) now).
  { unfold impl2, forget_process. cbn [im_state set_state set_store]. by rewrite Hst. }
  assert (Hidok : id_ok (chosen_id options draws)).
  { unfold chosen_id. case_match; [by apply mint_id_ok|done]. }
  assert (Hwf : impl_wf impl2).
  { split; cbn [impl2 forget_process im_limits im_history_per_key set_state set_store]; rewrite ?Hlim, ?Hhis;
      [done|lia|rewrite Hs2; by apply empty_state_wf]. }
  split_and!; cbn [impl2 forget_process im_limits im_history_per_key set_state set_store]; [|done| | |done|done].
  - split; cbn [impl2 forget_process im_limits im_history_per_key set_state set_store im_labels];
      rewrite ?Hlim, ?Hhis, ?Hcl; [lia| |done]. fold impl2. rewrite Hs2. apply state_inv_empty; lia.
  - split; [done|]. intros base B1 B2 B3. unfold logged. cbn [impl2 forget_process set_state set_store im_store].
    rewrite Ea.
    pose proof (snapshot_rebuilds impl2 base Hwf) as Hsnap. rewrite Hs2 in Hsnap.
    assert (im_limits impl2 = op_limits options) as Hl2 by exact Hlim. rewrite Hl2 in Hsnap.
    exact (Hsnap (empty_state_fits _ _ _ Hu) Eok (eq_trans B1 Hl2) B2 B3).
  - by rewrite Hs2.
Qed.

(** Opening a store that holds the log of a recoverable registry. *)
Lemma reopen options draws now report store store' impl :
  validate_limits (op_limits options) = inl tt -> op_history_per_key options <> 0 ->
  im_limits impl = op_limits options ->
  im_history_per_key impl = Z.min (op_history_per_key options) (max_history_per_key (op_limits options)) ->
  recoverable impl -> is_nil (rs_id (im_state impl)) = false ->
  is_nil (op_id options) = true \/ op_id options = rs_id (im_state impl) ->
  log_visit store = (store', (logged impl, inl tt)) -> rr_created report = false ->
  exists impl', registry_open options draws now (Some (report, inl store)) = inl impl' /\
    im_state impl' ≈ im_state impl /\ rs_id (im_state impl') = rs_id (im_state impl) /\
    im_store impl' = Some store' /\ clear_volatile (im_state impl') = im_state impl'.
Proof.
  intros Hv Hh El Eh [_ Hrec] Hnil Hid Hvis Hcr. unfold registry_open. rewrite Hv.
  rewrite (proj2 (Z.eqb_neq _ _) Hh). rewrite Hvis.
  set (base := mkImpl _ _ _ _ _ _ _ _ : Impl S).
  destruct (Hrec base) as (r & Hr & []); [by rewrite El|by rewrite Eh|done|].
  rewrite Hr, Hcr. unfold finish_open. rewrite rb_id0, Hnil.
  assert (negb false && negb (is_nil (op_id options)) && negb (keqb (rs_id (im_state impl)) (op_id options)) = false)
    as ->.
  { destruct Hid as [->| ->]; [done|]. by rewrite keqb_refl, andb_false_r. }
  eexists. split; [reflexivity|]. cbn [im_state forget_process set_state set_store im_store].
  split_and!; [|done|done|apply clear_volatile_idem]. by rewrite clear_volatile_replica.
Qed.
End opening.
