(* ===== verification/Restart.v ===== *)
(** * What a restart shows

    A registry that reopens its log answers from recovered evidence.  Under
    [IncludeAll] its topology is the one the registry had before it stopped;
    under [LiveOnly], which counts only what was asserted in this lifetime, every
    port is unknown until a source speaks again. *)
From S2P Require Import Prelude OrdMap Types Ids Graph Codec Serialization State StateCodec Fold Derive Log Admit Ingest Session Recovery Invariant WellFormed Replica Views ReplicaViews Snapshot SnapshotBuild Durability.
#[local] Open Scope Z_scope.

(** What a reopened registry has in common with the one that stopped. *)
Definition recovered {S} `{AppendLog S} (impl impl' : Impl S) : Prop :=
  rs_id (im_state impl') = rs_id (im_state impl) /\ im_state impl' ≈ im_state impl /\
  (forall limits, build_snapshot (im_state impl') limits = build_snapshot (im_state impl) limits) /\
  forall limits port,
    (pv_state (derive_port_view (im_state impl') limits port ValidationPolicy.IncludeAll) =
       pv_state (derive_port_view (im_state impl) limits port ValidationPolicy.IncludeAll) /\
     port_capability_of (im_state impl') port = port_capability_of (im_state impl) port /\
     forall subject, subject ∈ attached_subjects (im_state impl') limits port ValidationPolicy.IncludeAll <->
                     subject ∈ attached_subjects (im_state impl) limits port ValidationPolicy.IncludeAll) /\
    pv_state (derive_port_view (im_state impl') limits port ValidationPolicy.LiveOnly) = PortAttachmentState.Unknown.

Lemma restarted {S} `{AppendLog S} options draws now report store (impl0 impl : Impl S) draws' now' report' store' store'' :
  typed_options options -> is_u64 draws.1 -> is_u64 draws.2 -> is_i64 now ->
  log_records store = [] -> rr_created report = true ->
  registry_open options draws now (Some (report, inl store)) = inl impl0 ->
  rtc durable_step impl0 impl ->
  log_visit store' = (store'', (logged impl, inl tt)) -> rr_created report' = false ->
  exists impl', registry_open options draws' now' (Some (report', inl store')) = inl impl' /\ recovered impl impl'.
Proof.
  intros Hopt Hd1 Hd2 Hn Hempty Hcr Hopen Hsteps Hvis Hcr'.
  destruct (open_created _ _ _ _ _ _ Hopt Hd1 Hd2 Hn Hempty Hcr Hopen) as (Hinv0 & Hwf0 & Hrec0 & Hid0 & Hl0 & Hh0).
  destruct (durable_recoverable _ _ Hsteps Hinv0 Hwf0 Hrec0) as (Hinv & Hwf & Hrec).
  pose proof (durable_id _ _ Hsteps) as Hid. rewrite Hid0 in Hid.
  destruct (durable_config _ _ Hsteps) as [Hl Hh].
  assert (Hv : validate_limits (op_limits options) = inl tt /\ op_history_per_key options <> 0).
  { revert Hopen. unfold registry_open. destruct (validate_limits (op_limits options)) as [[]|]; [|done].
    by destruct (Z.eqb_spec (op_history_per_key options) 0). }
  destruct (reopen options draws' now' report' store' store'' impl) as (impl' & Ho & Hr & Hi & _ & Hclear); try done.
  - apply Hv.
  - apply Hv.
  - by rewrite Hl.
  - by rewrite Hh.
  - rewrite Hid. apply chosen_id_not_nil.
  - rewrite Hid. unfold chosen_id. destruct (is_nil (op_id options)); [by left|by right].
  - exists impl'. unfold recovered. split_and!; try done; [by intros limits; apply replica_snapshot|]. intros limits port. split; [by apply replica_views|by apply nothing_live].
Qed.

(** C1: A restart recovers the evidence, and only the evidence. Take a registry
    opened on a new store and run any sequence of ingests, batches, session
    opens and closes, registry close, and compactions of states whose image fits
    its reader. Opening its log again with the same options succeeds and gives a
    registry with the same identity, the same sources and sessions and the same
    records with their rings, values and times; the two states may differ in the
    contents of the session records (open time, high-water mark, counters, the
    closed and live flags), in the time the registry was opened and in which
    records count as asserted in this lifetime. Its canonical snapshot, digests included, is the one the
    stopped registry had. With recovered evidence included, every port has the
    same attachment state, the same capability and the same attached subjects as
    before the restart; with live evidence only, every port is unknown. *)
Theorem restart_recovers {S} `{AppendLog S} options draws now report store (impl0 impl : Impl S) draws' now' report' store' store'' :
  typed_options options -> is_u64 draws.1 -> is_u64 draws.2 -> is_i64 now ->
  log_records store = [] -> rr_created report = true ->
  registry_open options draws now (Some (report, inl store)) = inl impl0 ->
  rtc durable_step impl0 impl ->
  log_visit store' = (store'', (logged impl, inl tt)) -> rr_created report' = false ->
  exists impl', registry_open options draws' now' (Some (report', inl store')) = inl impl' /\ recovered impl impl'.
Proof. apply restarted. Qed.

(** ** Compaction *)

(** A compacted log is one record, the state. *)
Lemma compacted_log {S} `{AppendLog S} (impl impl' : Impl S) :
  impl_wf impl -> image_fits (im_limits impl) (im_state impl) -> compact impl = (inl tt, impl') ->
  im_state impl' = im_state impl /\
  exists payload, logged impl' = [(RecordKind.StateSnapshot, payload)] /\
    decode_all (decode_state (im_limits impl)) payload = Some (clear_volatile (im_state impl)).
Proof.
  intros [Hl Hh Hs] Hfit. unfold compact. case_match; [done|]. destruct (im_store impl) as [store|]; [|done].
  destruct (enc_ok _) eqn:Eok; cbn [negb]; [|done].
  destruct (log_rewrite _ store) as [store' [[]|err]] eqn:Er; [|done]. intros [= <-]. split; [done|].
  eexists. split; [unfold logged; cbn [im_store set_store]; by apply log_rewrite_ok in Er|].
  apply decode_all_roundtrip; [|exact Eok]. apply rt_state; [done|by apply clear_volatile_wf|by apply clear_volatile_fits].
Qed.

(** C10: Compaction loses nothing. Take a registry reached from a new store by
    public calls and compactions of states whose image fits its reader, whose own
    state fits too, and compact it. The log is then exactly one record, which
    decodes to the registry's state with only the process-local facts reset. Now
    open both logs, the one before and the one after, with the same options: both
    openings succeed, whatever the clock and the random draws, and give registries
    with the same identity, equivalent states (their session records are not
    compared) and the same canonical snapshot, each of which is what the registry
    had before it stopped. *)
Theorem compaction_is_lossless {S} `{AppendLog S} options draws now report store (impl0 impl impl' : Impl S)
    draws1 now1 report1 store1 store1' draws2 now2 report2 store2 store2' :
  typed_options options -> is_u64 draws.1 -> is_u64 draws.2 -> is_i64 now ->
  log_records store = [] -> rr_created report = true ->
  registry_open options draws now (Some (report, inl store)) = inl impl0 ->
  rtc durable_step impl0 impl -> image_fits (im_limits impl) (im_state impl) -> compact impl = (inl tt, impl') ->
  log_visit store1 = (store1', (logged impl, inl tt)) -> rr_created report1 = false ->
  log_visit store2 = (store2', (logged impl', inl tt)) -> rr_created report2 = false ->
  (exists payload, logged impl' = [(RecordKind.StateSnapshot, payload)] /\
     decode_all (decode_state (im_limits impl)) payload = Some (clear_volatile (im_state impl))) /\
  exists before after,
    registry_open options draws1 now1 (Some (report1, inl store1)) = inl before /\
    registry_open options draws2 now2 (Some (report2, inl store2)) = inl after /\
    rs_id (im_state after) = rs_id (im_state before) /\ im_state after ≈ im_state before /\
    (forall limits, build_snapshot (im_state after) limits = build_snapshot (im_state before) limits) /\
    recovered impl before /\ recovered impl after.
Proof.
  intros Hopt Hd1 Hd2 Hn Hempty Hcr Hopen Hsteps Hfit Hc Hv1 Hr1 Hv2 Hr2.
  destruct (open_created _ _ _ _ _ _ Hopt Hd1 Hd2 Hn Hempty Hcr Hopen) as (Hinv0 & Hwf0 & Hrec0 & _).
  destruct (durable_recoverable _ _ Hsteps Hinv0 Hwf0 Hrec0) as (_ & Hwf & _).
  destruct (compacted_log impl impl' Hwf Hfit Hc) as [Hst Hlog]. split; [exact Hlog|].
  destruct (restarted _ _ _ _ _ _ _ draws1 now1 _ _ _ Hopt Hd1 Hd2 Hn Hempty Hcr Hopen Hsteps Hv1 Hr1) as (before & Eb & Rb).
  assert (Hsteps' : rtc durable_step impl0 impl').
  { eapply rtc_r; [exact Hsteps|]. pose proof (durable_compact impl Hfit) as Hd. by rewrite Hc in Hd. }
  destruct (restarted _ _ _ _ _ _ _ draws2 now2 _ _ _ Hopt Hd1 Hd2 Hn Hempty Hcr Hopen Hsteps' Hv2 Hr2) as (after & Ea & Ra).
  unfold recovered in Ra. rewrite Hst in Ra. destruct Rb as (Ib & Sb & Nb & Pb), Ra as (Ia & Sa & Na & Pa). exists before, after.
  split_and!; try done; [congruence|by rewrite Sa, Sb|by intros limits; rewrite Na, Nb].
Qed.
