(* ===== verification/Ceilings.v ===== *)
(** * When a compacted store opens again

    The reader of the state image bounds the tables and the owners of each record
    group; the writer does not.  This file shows that the bounds are exact: the
    image of a state decodes if and only if the state fits them, so a compacted
    store opens again exactly when the state that was compacted fits, and is
    rejected as corrupt otherwise. *)
From S2P Require Import Prelude OrdMap Types Ids Graph Codec Serialization State StateCodec Fold Derive Log Admit Ingest Session Recovery Invariant WellFormed Replica Views ReplicaViews Snapshot SnapshotBuild Durability Restart.
#[local] Open Scope Z_scope.

(** ** Writers whose bytes are read back, or rejected *)

(** From what [f] writes, [d] reads [a] back if [P] holds and fails if it does not;
    the latter for output an encoder can hold. *)
Definition judged {A} (P : Prop) (f : Enc) (d : Dec A) (a : A) : Prop :=
  exists bs, bs <> [] /\ writes f (Some bs) /\ (P -> decodes d bs a) /\
    (~ P -> zlen bs <= kMaxEncodedBytes -> forall pre post, d (mkDecoder (pre ++ bs ++ post) (length pre)) = None).

Lemma judged_iff {A} (P Q : Prop) f (d : Dec A) a : (P <-> Q) -> judged P f d a -> judged Q f d a.
Proof. intros HPQ (bs & Hne & Hw & Hd & Hr). exists bs. split_and!; try done; [by intros ?%HPQ; apply Hd|]. intros HQ. apply Hr. by rewrite HPQ. Qed.

(** A round trip of at least one byte. *)
Lemma judged_rt {A} f (d : Dec A) a : roundtrip f d a -> d (new_decoder []) = None -> judged True f d a.
Proof.
  intros (bs & Hw & Hd) Hnone. exists bs. split_and!; [|done|done|done]. intros ->. specialize (Hd [] []). cbn in Hd.
  unfold new_decoder in Hnone. congruence.
Qed.

Lemma judged_seq {A B} (P Q : Prop) f g (d : Dec A) (k : A -> Dec B) a b :
  judged P f d a -> Decision P -> judged Q g (k a) b -> judged (P /\ Q) (f ;> g) (d ≫= k) b.
Proof.
  intros (bs1 & Hn1 & Hw1 & Hd1 & Hr1) HP' (bs2 & Hn2 & Hw2 & Hd2 & Hr2). exists (bs1 ++ bs2)%list. split_and!.
  - by destruct bs1.
  - exact (writes_seq _ _ _ _ Hw1 Hw2).
  - intros [HP HQ]. eapply decodes_bind; [by apply Hd1|by apply Hd2].
  - intros HPQ Hlen pre post. rewrite zlen_app in Hlen. pose proof (zlen_nonneg bs1). pose proof (zlen_nonneg bs2).
    unfold mbind, Dec_bind. rewrite <- app_assoc. destruct (decide P) as [HP|HP].
    + rewrite (Hd1 HP pre (bs2 ++ post)). specialize (Hr2 ltac:(tauto) ltac:(lia) (pre ++ bs1)%list post).
      rewrite length_app, <- app_assoc in Hr2. exact Hr2.
    + by rewrite (Hr1 HP ltac:(lia) pre (bs2 ++ post)%list).
Qed.

Lemma judged_last {A B} (P : Prop) f (d : Dec A) (k : A -> Dec B) a b :
  judged P f d a -> decodes (k a) [] b -> judged P f (d ≫= k) b.
Proof.
  intros (bs & Hne & Hw & Hd & Hr) Hk. exists bs. split_and!; [done|done| |].
  - intros HP. rewrite <- (app_nil_r bs). eapply decodes_bind; [by apply Hd|done].
  - intros HP Hlen pre post. unfold mbind, Dec_bind. by rewrite Hr.
Qed.

Lemma judged_guard {A} (P : Prop) f c (k : unit -> Dec A) a :
  c = true -> judged P f (k tt) a -> judged P f (dec_guard c ≫= k) a.
Proof.
  intros -> (bs & Hne & Hw & Hd & Hr). exists bs. split_and!; [done|done| |].
  - intros HP pre post. exact (Hd HP pre post).
  - intros HP Hlen pre post. exact (Hr HP Hlen pre post).
Qed.

(** The elements of a list, one after the other. *)
Lemma judged_each {A} (P : A -> Prop) `{forall x, Decision (P x)} (f : A -> Enc) (d : Dec A) l :
  Forall (fun x => judged (P x) (f x) d x) l ->
  exists bs, zlen l <= zlen bs /\ writes (enc_each f l) (Some bs) /\
    (Forall P l -> decodes (dec_repeat (length l) d) bs l) /\
    (~ Forall P l -> zlen bs <= kMaxEncodedBytes ->
     forall pre post, dec_repeat (length l) d (mkDecoder (pre ++ bs ++ post) (length pre)) = None).
Proof.
  induction 1 as [|x l (bs & Hne & Hw & Hd & Hr) _ (bs' & Hl' & Hw' & Hd' & Hr')].
  - exists []. split_and!; [done|apply writes_nop|intros _; apply decodes_ret|]. intros Hn. destruct Hn. constructor.
  - exists (bs ++ bs')%list. assert (1 <= zlen bs) by (destruct bs; [done|]; rewrite zlen_cons; pose proof (zlen_nonneg bs); lia). split_and!.
    + rewrite zlen_cons, zlen_app. lia.
    + exact (writes_seq _ _ _ _ Hw Hw').
    + intros [Hx Hl]%Forall_cons. cbn [length dec_repeat]. eapply decodes_bind; [by apply Hd|]. rewrite <- (app_nil_r bs').
      eapply decodes_bind; [by apply Hd'|apply decodes_ret].
    + intros Hn Hlen pre post. rewrite zlen_app in Hlen. pose proof (zlen_nonneg bs'). cbn [length dec_repeat].
      unfold mbind, Dec_bind. rewrite <- app_assoc. destruct (decide (P x)) as [Hx|Hx]; [|by rewrite Hr by (done || lia)].
      rewrite (Hd Hx pre (bs' ++ post)%list). assert (Hnl : ~ Forall P l) by (intros Hl; apply Hn; by constructor).
      specialize (Hr' Hnl ltac:(lia) (pre ++ bs)%list post). rewrite length_app, <- app_assoc in Hr'. by rewrite Hr'.
Qed.

(** A vector with its count, under the ceiling [m]. *)
Lemma judged_vector {A} (P : A -> Prop) `{forall x, Decision (P x)} (f : A -> Enc) (d : Dec A) m l :
  is_u32 m -> Forall (fun x => judged (P x) (f x) d x) l ->
  judged (zlen l <= m /\ Forall P l) (enc_vector f l) (decode_vector m d) l.
Proof.
  unfold is_u32. intros Hm Hall. destruct (judged_each P f d l Hall) as (bs & Hl & Hw & Hd & Hr). pose proof (zlen_nonneg l).
  destruct (rt_u32 (wrap32 (zlen l)) (wrap32_range _)) as (count & Hcw & Hcd).
  assert (Hcl : 1 <= zlen count).
  { destruct count as [|c count]; [|rewrite zlen_cons; pose proof (zlen_nonneg count); lia]. specialize (Hcd [] []). cbn in Hcd. done. }
  exists (count ++ bs)%list. split_and!.
  - by destruct count.
  - exact (writes_seq _ _ _ _ Hcw Hw).
  - intros [Hle HP]. rewrite wrap32_small in Hcd by (unfold is_u32; lia). unfold decode_vector. eapply decodes_bind; [exact Hcd|].
    change bs with ([] ++ bs)%list. eapply decodes_bind; [apply decodes_guard, negb_true_iff, Z.ltb_ge; lia|].
    unfold zlen. rewrite Nat2Z.id. by apply Hd.
  - intros Hn Hlen pre post. rewrite zlen_app in Hlen. change kMaxEncodedBytes with 8388608 in *.
    rewrite wrap32_small in Hcd by (unfold is_u32; lia). unfold decode_vector, mbind, Dec_bind. rewrite <- app_assoc.
    rewrite (Hcd pre (bs ++ post)%list). unfold dec_guard. destruct (Z.ltb_spec m (zlen l)) as [Hlt|Hge]; [done|]. cbn [negb].
    specialize (Hr ltac:(tauto) ltac:(lia) (pre ++ count)%list post). rewrite length_app, <- app_assoc in Hr.
    unfold zlen. rewrite Nat2Z.id. exact Hr.
Qed.

(** What a rejected write means. *)
Lemma decode_all_judged {A} (P : Prop) (f : Enc) (d : Dec A) a :
  judged P f d a -> enc_ok (f new_encoder) = true -> ~ P -> decode_all d (enc_take (f new_encoder)) = None.
Proof.
  intros (bs & Hne & Hw & Hd & Hr) Hok HP. pose proof (Hw new_encoder enc_inv_new) as E.
  cbn -[kMaxEncodedBytes] in E. rewrite E in Hok |- *. destruct (_ <=? _) eqn:Hle; [|done]. apply Z.leb_le in Hle.
  cbn. specialize (Hr HP Hle [] []). cbn in Hr. rewrite app_nil_r in Hr. unfold decode_all, new_decoder. by rewrite Hr.
Qed.

(** ** The tables *)

Lemma judged_entries {K V} `{Ord K} (ek : K -> Enc) (ev : V -> Enc) dk dv (m : ordmap K V) bound :
  map_sorted m -> is_u32 bound ->
  Forall (fun e => judged True (ek e.1) dk e.1 /\ judged True (ev e.2) dv e.2) m ->
  judged (zlen m <= bound) (encode_entries ek ev m) (decode_entries bound dk dv) m.
Proof.
  intros Hs Hu Hall. unfold encode_entries, decode_entries.
  apply (judged_last _ _ _ _ m); [|rewrite (emplace_all_sorted m Hs); apply decodes_ret].
  eapply judged_iff; [|apply (judged_vector (fun _ => True)); [done|]].
  - split; [by intros [? _]|]. intros ?. split; [done|]. by apply Forall_true.
  - eapply Forall_impl; [exact Hall|]. intros [k v] [Hk Hv]. cbn in *. eapply judged_iff; [|eapply judged_seq; [exact Hk|apply _|eapply judged_last; [exact Hv|apply decodes_ret]]].
    tauto.
Qed.

Lemma judged_group {K O T} `{Ord K, Ord O} limits (ep : K -> Enc) (ek : O -> Enc) (ev : T -> Enc)
    dp (dk : K -> Dec O) dv (g : groups K O T) max_primary max_owners :
  group_sorted g -> is_u32 max_primary -> is_u32 max_owners ->
  Forall (fun e => judged True (ep e.1) dp e.1 /\
            Forall (fun f => judged True (ek f.1) (dk e.1) f.1 /\
              judged True (encode_folded ev f.2) (decode_folded (max_history_per_key limits) dv) f.2) e.2) g ->
  judged (group_fits max_primary max_owners g) (encode_group ep ek ev g) (decode_group limits max_primary max_owners dp dk dv) g.
Proof.
  intros [Hs Hin] Hup Huo Hall. unfold encode_group, decode_group.
  apply (judged_last _ _ _ _ g); [|rewrite (emplace_groups_app g [] Hs Hin : foldl emplace_group [] g = g); apply decodes_ret].
  apply (judged_vector (fun e => zlen e.2 <= max_owners)); [done|]. eapply Forall_impl; [exact Hall|].
  intros [k os] [Hk Hos]. cbn [fst snd] in *.
  eapply judged_iff; [|eapply judged_seq; [exact Hk|apply _|eapply judged_last; [|apply decodes_ret]]].
  2: { apply (judged_vector (fun _ => True)); [done|]. eapply Forall_impl; [exact Hos|]. intros [o f] [Ho Hf]. cbn [fst snd] in *.
       eapply judged_iff; [|eapply judged_seq; [exact Ho|apply _|eapply judged_last; [exact Hf|apply decodes_ret]]]. tauto. }
  split; [by intros (_ & ? & _)|]. intros ?. split_and!; [done|done|]. by apply Forall_true.
Qed.

Section image.
Context (limits : Limits) (Hlim : limits_u32 limits).

Lemma judged_table {K O T} `{Ord K, Ord O} (wp : K -> Prop) (wk : K -> O -> Prop) (wv : T -> Prop)
    ep ek ev dp dk dv (g : groups K O T) max_primary max_owners :
  (forall k, wp k -> roundtrip (ep k) dp k) -> dp (new_decoder []) = None ->
  (forall k o, wk k o -> roundtrip (ek o) (dk k) o) -> (forall k, dk k (new_decoder []) = None) ->
  (forall v, wv v -> roundtrip (ev v) dv v) -> is_u32 max_primary -> is_u32 max_owners ->
  wf_group limits wp wk wv g ->
  judged (group_fits max_primary max_owners g) (encode_group ep ek ev g) (decode_group limits max_primary max_owners dp dk dv) g.
Proof using Hlim.
  intros Hp Np Hk Nk Hv Hup Huo [Hs Hall]. apply judged_group; [done..|]. eapply Forall_impl; [exact Hall|].
  intros e [Hpe Hf]. split; [by apply judged_rt; [apply Hp|]|]. eapply Forall_impl; [exact Hf|]. intros f [? ?].
  split; [by apply judged_rt; [apply Hk|]|]. apply judged_rt; [by eapply rt_folded|reflexivity].
Qed.

Ltac table :=
  first [reflexivity | (intros ?; reflexivity) |
    eauto using limits_u32_ok, wrap32_range, (@rt_id), rt_owner, rt_side_ref, rt_port_ref, rt_slot_key,
      rt_object_descriptor, rt_endpoint_descriptor, rt_subject_value, rt_port_value, rt_lifecycle_value,
      rt_reincarnation_value, rt_capability, rt_port_capability].

#[local] Instance group_fits_dec {K O T} p o (g : groups K O T) : Decision (group_fits p o g).
Proof. unfold group_fits. apply _. Defined.

(** The image of a well-formed state is read back exactly when it fits. *)
Lemma judged_state s :
  wf_state limits s -> judged (image_fits limits s) (encode_state limits s) (decode_state limits) s.
Proof using Hlim.
  intros Hwf. unfold wf_state in Hwf. destruct_and! Hwf. assert (Hl := limits_u32_ok _ Hlim).
  pose proof (limits_sources _ Hlim). pose proof (limits_objects _ Hlim). pose proof (limits_endpoints _ Hlim).
  unfold encode_state, decode_state. eapply judged_iff.
  2: { eapply judged_seq; [by apply judged_rt; [apply rt_u32|]|apply _|]. apply judged_guard; [done|].
       eapply judged_seq; [by apply judged_rt; [apply rt_id|]|apply _|].
       eapply judged_seq; [by apply judged_rt; [apply rt_i64|]|apply _|].
       eapply judged_seq; [apply judged_entries; [done..|]|apply _|].
       { eapply Forall_impl; [eassumption|]. intros e [? ?]. split; apply judged_rt; [by apply rt_id|done|by apply rt_source_record|done]. }
       eapply judged_seq; [apply judged_entries; [done|apply wrap32_range|]|apply _|].
       { eapply Forall_impl; [eassumption|]. intros e [? ?]. split; apply judged_rt; [by apply rt_owner|done|by apply rt_session_record|done]. }
       do 7 (eapply judged_seq; [eapply judged_table; [..|eassumption]; table|apply _|]).
       eapply judged_last; [eapply judged_table; [..|eassumption]; table|]. destruct s. apply decodes_ret. }
  unfold image_fits. tauto.
Qed.
End image.

Lemma clear_group_fits_back {K O T} p o (g : groups K O T) : group_fits p o (clear_group g) -> group_fits p o g.
Proof.
  unfold clear_group, map_vals. intros [Hp Ho]. split; [unfold zlen in Hp |- *; by rewrite length_fmap in Hp|].
  rewrite Forall_forall in Ho |- *. intros e He. specialize (Ho _ (list_elem_of_fmap_2 _ _ _ He)). unfold zlen in *. cbn in Ho.
  by rewrite length_fmap in Ho.
Qed.

Lemma clear_volatile_fits_back limits s : image_fits limits (clear_volatile s) -> image_fits limits s.
Proof.
  intros Hf. unfold image_fits in *. destruct_and! Hf. split_and!; try (by apply clear_group_fits_back); [done|].
  match goal with H : zlen (rs_sessions _) <= _ |- _ => revert H end. cbn. unfold zlen. by rewrite map_vals_length.
Qed.

(** ** Opening a compacted store *)

(** C39: A compacted store opens again exactly when the state fits. Take a registry
    reached from a new store by public calls and compactions of states that fit,
    and a successful [Compact] of it. If the state fits the ceilings of the image
    reader, the compacted store opens with what the registry had; if it does not,
    opening it fails as corrupt, although the log before the compaction opens and
    [Compact] reported success. The reader bounds the owners of a record group by
    [max_sources], but an owner is a source and an incarnation. *)
Theorem compacted_store_opens_iff_it_fits {S} `{AppendLog S} options draws now report store (impl0 impl impl' : Impl S)
    draws' now' report' store' store'' :
  typed_options options -> is_u64 draws.1 -> is_u64 draws.2 -> is_i64 now ->
  log_records store = [] -> rr_created report = true ->
  registry_open options draws now (Some (report, inl store)) = inl impl0 ->
  rtc durable_step impl0 impl -> compact impl = (inl tt, impl') ->
  log_visit store' = (store'', (logged impl', inl tt)) -> rr_created report' = false ->
  (image_fits (im_limits impl) (im_state impl) ->
   exists again, registry_open options draws' now' (Some (report', inl store')) = inl again /\ recovered impl again) /\
  (~ image_fits (im_limits impl) (im_state impl) ->
   registry_open options draws' now' (Some (report', inl store')) =
     inr (mkError ErrorCode.CorruptStore "the compacted state image could not be decoded")).
Proof.
  intros Hopt Hd1 Hd2 Hn Hempty Hcr Hopen Hsteps Hc Hv Hcr'.
  destruct (open_created _ _ _ _ _ _ Hopt Hd1 Hd2 Hn Hempty Hcr Hopen) as (Hinv0 & Hwf0 & Hrec0 & Hid0 & Hl0 & Hh0).
  destruct (durable_recoverable _ _ Hsteps Hinv0 Hwf0 Hrec0) as (_ & [Hl Hh Hs] & _).
  destruct (durable_config _ _ Hsteps) as [El _]. rewrite Hl0 in El. split; intros Hfit.
  - destruct (compacted_log impl impl' ltac:(done) Hfit Hc) as [Hst _].
    assert (Hsteps' : rtc durable_step impl0 impl').
    { eapply rtc_r; [exact Hsteps|]. pose proof (durable_compact impl Hfit) as Hd. by rewrite Hc in Hd. }
    destruct (restarted _ _ _ _ _ _ _ draws' now' _ _ _ Hopt Hd1 Hd2 Hn Hempty Hcr Hopen Hsteps' Hv Hcr') as (again & Ea & Ra).
    exists again. split; [exact Ea|]. unfold recovered in *. by rewrite Hst in Ra.
  - assert (Hlog : exists e, enc_ok e = true /\ e = encode_image (im_limits impl) (im_state impl) /\
      logged impl' = [(RecordKind.StateSnapshot, enc_take e)]).
    { revert Hc. unfold compact. case_match; [done|]. destruct (im_store impl) as [st|]; [|done].
      destruct (enc_ok _) eqn:Eok; cbn [negb]; [|done]. destruct (log_rewrite _ st) as [st' [[]|err]] eqn:Er; [|done]. intros [= <-].
      eexists. split; [exact Eok|]. split; [done|]. unfold logged. cbn [im_store set_store]. by apply log_rewrite_ok in Er. }
    destruct Hlog as (e & Eok & -> & Hlog). rewrite Hlog in Hv.
    assert (Hvl : validate_limits (op_limits options) = inl tt /\ op_history_per_key options <> 0).
    { revert Hopen. unfold registry_open. destruct (validate_limits (op_limits options)) as [[]|]; [|done].
      by destruct (Z.eqb_spec (op_history_per_key options) 0). }
    unfold registry_open. rewrite (proj1 Hvl), (proj2 (Z.eqb_neq _ _) (proj2 Hvl)), Hv. cbn [replay replay_record fst snd im_limits fresh_impl].
    rewrite <- El. unfold encode_image in *.
    rewrite (decode_all_judged _ _ _ _ (judged_state _ Hl _ (clear_volatile_wf _ _ Hs)) Eok); [done|].
    intros Hf. by apply Hfit, clear_volatile_fits_back.
Qed.
