(* ===== verification/Delivery.v ===== *)
(** * What ingestion promises a source

    An acknowledged record is in the log; a refused one leaves no trace; a
    record may be sent again at any time without changing what the registry
    believes; the session counters and the refusal audit stay within their
    bounds. *)
From S2P Require Import Prelude OrdMap Types Ids Graph Codec Serialization State StateCodec Fold Derive Log Admit Ingest Session Recovery Invariant WellFormed Replica Durability.
#[local] Open Scope Z_scope.

(** ** The winners of a state

    What every derivation reads: the winning record of each claim key.  The
    supersession rings only feed the history answers. *)

Definition winner {T} (f : Folded T) : Attestation * T := (fd_meta f, fd_value f).
Definition winners_of {K O T} (g : groups K O T) : ordmap K (ordmap O (Attestation * T)) :=
  map_vals (map_vals winner) g.

Record Winners := mkWinners {
  wn_objects : ordmap ObjectId (ordmap SourceIncarnationKey (Attestation * ObjectDescriptor));
  wn_endpoints : ordmap EndpointId (ordmap SourceIncarnationKey (Attestation * EndpointDescriptor));
  wn_subjects : ordmap ObjectSideRef (ordmap SourceIncarnationKey (Attestation * SubjectValue));
  wn_ports : ordmap PortRef (ordmap PortSlotKey (Attestation * PortValue));
  wn_lifecycle : ordmap ObjectId (ordmap SourceIncarnationKey (Attestation * LifecycleValue));
  wn_reincarnation : ordmap ObjectId (ordmap SourceIncarnationKey (Attestation * ReincarnationValue));
  wn_object_capability : ordmap ObjectId (ordmap SourceIncarnationKey (Attestation * NominalCapability));
  wn_port_capability : ordmap PortRef (ordmap SourceIncarnationKey (Attestation * PortCapability));
}.

Definition winners (s : RegistryState) : Winners :=
  mkWinners (winners_of (rs_object_registrations s)) (winners_of (rs_endpoint_registrations s))
    (winners_of (rs_subject_records s)) (winners_of (rs_port_records s)) (winners_of (rs_lifecycle_records s))
    (winners_of (rs_reincarnation_records s)) (winners_of (rs_object_capability_records s))
    (winners_of (rs_port_capability_records s)).

Lemma winner_losing {T} h meta (f : Folded T) : winner (fold_losing_slot h meta f) = winner f.
Proof. unfold winner. by rewrite fold_losing_meta, fold_losing_value. Qed.

Lemma map_set_same {K V} `{Ord K} k (v : V) m : map_sorted m -> map_find k m = Some v -> map_set k v m = m.
Proof.
  intros Hs Hf. apply OrdMap.map_ext; [by apply map_sorted_set|done|]. intros k'. rewrite find_set.
  destruct (keqb k' k) eqn:E; [|done]. by apply keqb_eq in E as ->.
Qed.

Section winners_of.
Context {K O T : Type} `{Ord K, Ord O}.
Implicit Types g : groups K O T.

Lemma winners_losing h k o meta g :
  group_sorted g -> winners_of (group_fold_losing h k o meta g) = winners_of g.
Proof.
  intros Hs. unfold group_fold_losing. destruct (map_find k g) as [slots|] eqn:E; [|done].
  unfold winners_of. rewrite map_vals_set. pose proof (group_sorted_find _ _ _ Hs E) as Hss.
  assert (map_vals winner (fold_losing h slots o meta) = map_vals winner slots) as ->.
  { unfold fold_losing. destruct (map_find o slots) as [f|] eqn:Ef; [|done].
    rewrite map_vals_set, winner_losing. apply map_set_same; [by apply map_sorted_vals|].
    by rewrite find_map_vals, Ef. }
  apply map_set_same; [by apply map_sorted_vals, Hs|]. by rewrite find_map_vals, E.
Qed.

(** The outcome of a write depends on the winner at its key only. *)
Lemma outcome_winner same g k o meta (v : T) :
  existing_outcome same g k o meta v =
  match winner <$> group_find k o g with
  | None => Insert
  | Some (m, v') => compare_generation m meta (same v' v)
  end.
Proof.
  unfold existing_outcome, group_find. destruct (map_find k g) as [m|]; [|done]. by destruct (map_find o m).
Qed.

Lemma winner_find k o g :
  winner <$> group_find k o g = match map_find k (winners_of g) with
                                | Some m => map_find o m | None => None end.
Proof.
  unfold winners_of, group_find. rewrite find_map_vals. destruct (map_find k g) as [m|]; [|done].
  cbn [fmap option_fmap option_map]. by rewrite find_map_vals.
Qed.
End winners_of.

Lemma winners_ports_ring h keys meta g :
  group_sorted g -> winners_of (ring_ports h keys meta g) = winners_of g.
Proof.
  revert g. induction keys as [|k keys IH]; intros g Hs; [done|]. cbn.
  etrans; [apply IH; by apply group_fold_losing_sorted|]. by apply winners_losing.
Qed.

(** ** A record that changes no winner *)

Definition no_write {K V} (stage : Stage K V) : Prop :=
  match stage with StageWrite _ _ => False | _ => True end.

Definition changes_no_winner (change : StagedChange) : Prop :=
  no_write (sc_object_registration change) /\ no_write (sc_endpoint_registration change) /\
  no_write (sc_subject change) /\ sc_port_updates change = [] /\ no_write (sc_lifecycle change) /\
  no_write (sc_reincarnation change) /\ no_write (sc_object_capability change) /\
  no_write (sc_port_capability change).

Lemma no_write_stage {K V} `{Ord K} h (stage : Stage K V) meta g :
  no_write stage -> group_sorted g ->
  winners_of (write_stage h stage meta (ring_stage h stage meta g)) = winners_of g.
Proof. intros Hn Hs. destruct stage; [done|done|]. by apply winners_losing. Qed.

Lemma apply_no_winner h limits hist change s :
  state_inv limits hist s -> changes_no_winner change -> winners (apply_tables h change s) = winners s.
Proof.
  intros [] (H1 & H2 & H3 & H4 & H5 & H6 & H7 & H8). unfold winners, apply_tables, apply_ring_only.
  cbn [rs_object_registrations rs_endpoint_registrations rs_subject_records rs_port_records rs_lifecycle_records
    rs_reincarnation_records rs_object_capability_records rs_port_capability_records with_tables].
  rewrite H4. cbn [write_ports foldl].
  f_equal; try (apply no_write_stage; [done|]); try (apply winners_ports_ring);
    match goal with Hi : table_inv _ _ _ _ _ ?g |- group_sorted ?g => exact (proj1 Hi) end.
Qed.

(** ** Sending a record again *)

Definition settled (outcome : GenerationOutcome) : Prop := outcome = Duplicate \/ outcome = Superseded.

(** Two attestations of the same record: sender and generation agree, the time
    it was received may not. *)
Definition same_claim (m1 m2 : Attestation) : Prop :=
  att_owner m1 = att_owner m2 /\ att_generation m1 = att_generation m2.

Section settle.
Context {K O V : Type} `{Ord K, Ord O} (h : Z) (same : V -> V -> bool) (Hsame : forall v, same v v = true)
  (meta meta2 : Attestation) (Hgen : att_generation meta2 = att_generation meta).
Implicit Types g : groups K O V.

Lemma outcome_again g g' k o v :
  winner <$> group_find k o g' = winner <$> group_find k o g ->
  existing_outcome same g' k o meta2 v = existing_outcome same g k o meta v.
Proof using Hgen.
  intros E. rewrite !outcome_winner, E. destruct (winner <$> group_find k o g) as [[m v']|]; [|done].
  unfold compare_generation. by rewrite Hgen.
Qed.

Lemma outcome_written g k o v :
  winner <$> group_find k o g = Some (meta, v) -> existing_outcome same g k o meta2 v = Duplicate.
Proof using Hgen Hsame.
  intros E. rewrite outcome_winner, E. unfold compare_generation. by rewrite Hgen, Z.ltb_irrefl, Hsame.
Qed.

Lemma find_written k o v g : winner <$> group_find k o (group_fold h k o meta v g) = Some (meta, v).
Proof using.
  rewrite group_find_fold, !keqb_refl. cbn. f_equal. unfold winner.
  case_match; [by rewrite fold_winning_meta, fold_winning_value|done].
Qed.

Lemma find_ringed k o k' o' m g :
  winner <$> group_find k o (group_fold_losing h k' o' m g) = winner <$> group_find k o g.
Proof using.
  rewrite group_find_fold_losing. destruct (keqb k k') eqn:Ek; [|done]. destruct (keqb o o') eqn:Eo; [|done].
  apply keqb_eq in Ek as ->. apply keqb_eq in Eo as ->. cbn [andb].
  destruct (group_find k' o' g); [|done]. cbn. by rewrite winner_losing.
Qed.
End settle.

Lemma nodup_fmap_inj {A B} (f : A -> B) (l : list A) x y :
  NoDup (f <$> l) -> x ∈ l -> y ∈ l -> f x = f y -> x = y.
Proof.
  induction l as [|a l IH]; [by inversion 2|]. rewrite fmap_cons, NoDup_cons, !elem_of_cons.
  intros [Hnin Hnd] [->|Hx] [->|Hy] E; [done| | |by apply IH].
  - destruct Hnin. rewrite E. by apply list_elem_of_fmap_2.
  - destruct Hnin. rewrite <- E. by apply list_elem_of_fmap_2.
Qed.

Lemma filter_false {A} (p : A -> bool) (l : list A) :
  existsb p l = false -> filter (fun x => p x = true) l = [].
Proof.
  induction l as [|x l IH]; [done|]. cbn [existsb]. intros [Hx Hl]%orb_false_iff. rewrite filter_cons, Hx.
  destruct (decide (false = true)); [done|]. by apply IH.
Qed.

Lemma ring_ports_winner h keys meta g k o :
  winner <$> group_find k o (ring_ports h keys meta g) = winner <$> group_find k o g.
Proof.
  revert g. induction keys as [|key keys IH]; intros g; [done|]. cbn. etrans; [apply IH|]. apply find_ringed.
Qed.

Lemma write_ports_other h updates meta g key :
  key ∉ pu_key <$> updates ->
  group_find (ps_port key) key (write_ports h updates meta g) = group_find (ps_port key) key g.
Proof.
  revert g. induction updates as [|u updates IH]; intros g; [done|]. rewrite fmap_cons, not_elem_of_cons.
  intros [Hne Hin]. cbn. etrans; [by apply IH|]. rewrite group_find_fold.
  by rewrite (proj2 (keqb_neq key (pu_key u)) Hne), andb_false_r.
Qed.

Lemma write_ports_written h updates meta g u :
  NoDup (pu_key <$> updates) -> u ∈ updates ->
  winner <$> group_find (ps_port (pu_key u)) (pu_key u) (write_ports h updates meta g) = Some (meta, pu_value u).
Proof.
  revert g. induction updates as [|x updates IH]; intros g; [by inversion 2|].
  rewrite fmap_cons, NoDup_cons, elem_of_cons. intros [Hnin Hnd] [->|Hin]; [|by apply IH].
  change (write_ports h (x :: updates) meta g) with
    (write_ports h updates meta (group_fold h (ps_port (pu_key x)) (pu_key x) meta (pu_value x) g)).
  rewrite write_ports_other by done. apply find_written.
Qed.

(** A decision that cannot change a winner any more. *)
Definition final_ruling (d : Ruling) : Prop :=
  (dc_disposition d = IngestDisposition.Duplicate \/ dc_disposition d = IngestDisposition.AcceptedSuperseded) /\
  changes_no_winner (dc_change d).

Lemma no_change_no_winner meta : changes_no_winner (no_change meta).
Proof. by unfold changes_no_winner. Qed.

Lemma resolve_final outcome meta t1 t2 t3 ring insert :
  settled outcome -> changes_no_winner ring -> final_ruling (resolve outcome meta t1 t2 t3 ring insert).
Proof. intros [->| ->] Hr; (split; [cbn; auto|done || apply no_change_no_winner]). Qed.

Lemma same_value_refl {A} `{EqDecision A} (a : A) : same_value a a = true.
Proof. by apply bool_decide_eq_true. Qed.

Lemma same_lifecycle_refl v : same_lifecycle v v = true.
Proof. unfold same_lifecycle. by rewrite !same_value_refl. Qed.

Lemma same_reincarnation_refl v : same_reincarnation v v = true.
Proof. unfold same_reincarnation. by rewrite Z.eqb_refl, !same_value_refl. Qed.

(** *** Attachments *)

Section attachment_again.
Context (limits : Limits) (s : RegistryState) (h : Z) (meta meta2 : Attestation) (Hm : same_claim meta2 meta)
  (subject : ObjectSideRef) (value : SubjectValue) (updates : list PortUpdate)
  (Hnd : NoDup (pu_key <$> updates)).
#[local] Abbreviation first := (decide_attachment limits s meta subject value updates).
#[local] Abbreviation s' := (apply_tables h (dc_change first) s).
#[local] Abbreviation plan u := (existing_outcome same_value (rs_port_records s) (ps_port (pu_key u)) (pu_key u) meta (pu_value u)).
#[local] Abbreviation splan := (existing_outcome same_value (rs_subject_records s) subject (att_owner meta) meta value).

(** What an accepted attachment left behind at each of its keys. *)
Lemma attachment_left :
  is_accepted (dc_disposition first) = true ->
  settled (existing_outcome same_value (rs_subject_records s') subject (att_owner meta2) meta2 value) /\
  Forall (fun u => settled (existing_outcome same_value (rs_port_records s') (ps_port (pu_key u)) (pu_key u) meta2 (pu_value u)))
    updates.
Proof using Hm Hnd.
  destruct Hm as [Eo Eg]. rewrite Eo. unfold decide_attachment.
  destruct (existsb (fun u => port_capacity_reached _ _ _ _) updates); [done|].
  destruct (_ || existsb (fun p => kp_collision p.2) _) eqn:Ecol; [done|].
  apply orb_false_iff in Ecol as [Hcs Hcp].
  assert (Hports : forall u, u ∈ updates -> plan u <> Collision).
  { intros u Hu Hc. apply not_true_iff_false in Hcp. apply Hcp. apply existsb_exists. exists (u, port_plan s meta u).
    split; [apply list_elem_of_In, list_elem_of_fmap; by exists u|]. cbn. unfold port_plan. by rewrite Hc. }
  rewrite (planned_filter s meta (fun u => u) kp_write), (planned_filter s meta pu_key kp_ring), list_fmap_id.
  set (W := filter (fun u => kp_write (port_plan s meta u) = true) updates).
  assert (Hndw : NoDup (pu_key <$> W)).
  { apply (NoDup_app (pu_key <$> W) (pu_key <$> filter (fun u => false = true) updates)).
    by apply (split_keys_nodup (fun u => kp_write (port_plan s meta u)) (fun _ => false)). }
  set (R := pu_key <$> filter _ updates).
  set (stage := if kp_write (plan_of splan) then StageWrite subject value
                else if kp_ring (plan_of splan) then StageRing subject else NoStage).
  assert (Hboth : forall change, change = stage_attachment meta stage W R ->
    settled (existing_outcome same_value (rs_subject_records (apply_tables h change s)) subject (att_owner meta) meta2 value) /\
    Forall (fun u => settled (existing_outcome same_value (rs_port_records (apply_tables h change s))
      (ps_port (pu_key u)) (pu_key u) meta2 (pu_value u))) updates).
  { intros change ->. split.
    - cbn [apply_tables apply_ring_only rs_subject_records with_tables stage_attachment sc_subject sc_meta].
      unfold stage. destruct splan eqn:E; cbn [plan_of kp_write kp_ring write_stage ring_stage]; [| | |done].
      + left. apply (outcome_written same_value same_value_refl meta); [done|apply find_written].
      + right. rewrite <- E. apply (outcome_again _ meta); [done|apply find_ringed].
      + left. rewrite <- E. by apply (outcome_again _ meta).
    - apply Forall_forall. intros u Hu.
      cbn [apply_tables apply_ring_only rs_port_records with_tables stage_attachment sc_port_updates sc_ring_port_keys sc_meta].
      specialize (Hports u Hu). destruct (plan u) eqn:E; [left|right|left|done].
      + apply (outcome_written same_value same_value_refl meta); [done|]. apply write_ports_written; [done|].
        apply list_elem_of_filter. split; [|done]. unfold port_plan. by rewrite E.
      + rewrite <- E. apply (outcome_again _ meta); [done|]. rewrite write_ports_other; [apply ring_ports_winner|].
        intros (u' & Hk & Hw)%list_elem_of_fmap. apply list_elem_of_filter in Hw as [Hw Hu'].
        unfold port_plan in Hw.
        assert (u' = u) as -> by (by eapply (nodup_fmap_inj pu_key updates)). by rewrite E in Hw.
      + rewrite <- E. apply (outcome_again _ meta); [done|]. rewrite write_ports_other; [apply ring_ports_winner|].
        intros (u' & Hk & Hw)%list_elem_of_fmap. apply list_elem_of_filter in Hw as [Hw Hu'].
        unfold port_plan in Hw.
        assert (u' = u) as -> by (by eapply (nodup_fmap_inj pu_key updates)). by rewrite E in Hw. }
  fold stage. destruct (negb _ && negb _) eqn:Edup; cbn [dc_disposition dc_change].
  2: { destruct (negb _); cbn [dc_disposition dc_change]; intros _; by apply Hboth. }
  intros _. apply andb_prop in Edup as [Hw Hr]. apply negb_true_iff in Hw, Hr.
  apply orb_false_iff in Hw as [Hw1 Hw2]. apply orb_false_iff in Hr as [Hr1 Hr2].
  assert (W = []) as EW.
  { apply filter_false. rewrite <- Hw2. clear. induction updates as [|u l IH]; [done|]. cbn. by rewrite IH. }
  assert (R = []) as ER.
  { unfold R. rewrite (filter_false (fun u => kp_ring (port_plan s meta u))); [done|].
    rewrite <- Hr2. clear. induction updates as [|u l IH]; [done|]. cbn. by rewrite IH. }
  assert (stage = NoStage) as ES by (unfold stage; by rewrite Hw1, Hr1).
  specialize (Hboth _ eq_refl). rewrite EW, ER, ES in Hboth. exact Hboth.
Qed.
End attachment_again.

Lemma settled_some {K O V} `{Ord K, Ord O} same (g : groups K O V) k o meta v :
  settled (existing_outcome same g k o meta v) -> exists m f, map_find k g = Some m /\ map_find o m = Some f.
Proof.
  unfold existing_outcome. destruct (map_find k g) as [m|]; [|by intros [|]].
  destruct (map_find o m) as [f|] eqn:E; [|by intros [|]]. intros _. by exists m, f.
Qed.

Lemma settled_plan outcome : settled outcome ->
  kp_write (plan_of outcome) = false /\ kp_collision (plan_of outcome) = false.
Proof. by intros [->| ->]. Qed.

Lemma attachment_final limits s meta subject value updates :
  settled (existing_outcome same_value (rs_subject_records s) subject (att_owner meta) meta value) ->
  Forall (fun u => settled (existing_outcome same_value (rs_port_records s) (ps_port (pu_key u)) (pu_key u) meta (pu_value u)))
    updates ->
  final_ruling (decide_attachment limits s meta subject value updates).
Proof.
  intros Hs Hall. unfold decide_attachment.
  assert (existsb (fun u => port_capacity_reached limits s (ps_port (pu_key u)) (pu_key u)) updates = false) as ->.
  { induction Hall as [|u l Hu _ IH]; [done|]. cbn. rewrite IH, orb_false_r.
    apply settled_some in Hu as (m & f & Hm & Hf). unfold port_capacity_reached. by rewrite Hm, Hf. }
  destruct (settled_plan _ Hs) as [-> ->]. cbn [orb].
  assert (Hp : forall p, (forall o, settled o -> p (plan_of o) = false) ->
    existsb (fun x : PortUpdate * KeyPlan => p x.2) ((fun u => (u, port_plan s meta u)) <$> updates) = false).
  { intros p Hp. induction Hall as [|u l Hu _ IH]; [done|]. cbn. rewrite IH, orb_false_r. exact (Hp _ Hu). }
  rewrite (Hp kp_collision) by (intros o Ho; by apply settled_plan).
  rewrite (Hp kp_write) by (intros o Ho; by apply settled_plan). cbn [negb andb].
  assert (HW : filter (fun p : PortUpdate * KeyPlan => kp_write p.2 = true) ((fun u => (u, port_plan s meta u)) <$> updates) = []).
  { apply (filter_false (fun p => kp_write p.2)), Hp. intros o Ho. by apply settled_plan. }
  rewrite HW. destruct (negb _); (split; [cbn; auto|]); [apply no_change_no_winner|].
  unfold changes_no_winner. cbn. split_and!; try done. by case_match.
Qed.

(** The incarnation of an object depends on the winners of its reincarnation
    records. *)
Lemma incarnation_winners s s' object :
  rs_sources s' = rs_sources s -> winners_of (rs_reincarnation_records s') = winners_of (rs_reincarnation_records s) ->
  object_incarnation_of s' object = object_incarnation_of s object.
Proof.
  intros Hsrc Hw. rewrite !object_incarnation_of_max.
  assert (E : forall st, running_max (live_target st) 1 (default [] (map_find object (rs_reincarnation_records st))) =
    running_max (fun e : SourceIncarnationKey * (Attestation * ReincarnationValue) =>
      if session_is_fenced st e.1 then None else Some (ri_target e.2.2)) 1
      (default [] (map_find object (winners_of (rs_reincarnation_records st))))).
  { intros st. unfold winners_of. rewrite find_map_vals.
    destruct (map_find object (rs_reincarnation_records st)) as [m|]; [|done]. cbn [fmap option_fmap option_map from_option id].
    unfold running_max. rewrite foldl_map_vals. reflexivity. }
  rewrite (E s'), (E s), Hw. unfold session_is_fenced. by rewrite Hsrc.
Qed.

Lemma move_keys_nodup meta p : NoDup (pu_key <$> move_updates meta p).
Proof.
  unfold move_updates. case_match; [|apply NoDup_singleton].
  apply NoDup_cons. split; [|apply NoDup_singleton]. cbn. rewrite list_elem_of_singleton. intros [= E1 E2].
  match goal with Hp : negb _ = true |- _ => rewrite E1, E2, keqb_refl, Z.eqb_refl in Hp end. done.
Qed.

Section decide_again.
Context (limits : Limits) (s : RegistryState) (h : Z) (meta meta2 : Attestation) (Hm : same_claim meta2 meta)
  (Hsorted : group_sorted (rs_reincarnation_records s)).
Abbreviation after change := (apply_tables h change s).

(** One single-key table after an accepted record: the record is there, or a
    newer one is. *)
Lemma stage_settles {K V} `{Ord K} same (g : groups K SourceIncarnationKey V) k v :
  (forall v, same v v = true) -> existing_outcome same g k (att_owner meta) meta v <> Collision ->
  let stage := match existing_outcome same g k (att_owner meta) meta v with
               | Insert => StageWrite k v | Superseded => StageRing k | _ => NoStage end in
  settled (existing_outcome same (write_stage h stage meta (ring_stage h stage meta g)) k (att_owner meta2) meta2 v).
Proof using Hm.
  intros Hrefl Hc. destruct Hm as [Eo Eg]. rewrite Eo.
  destruct (existing_outcome same g k (att_owner meta) meta v) eqn:E; cbn [write_stage ring_stage]; [| | |done].
  - left. apply (outcome_written same Hrefl meta); [done|apply find_written].
  - right. rewrite <- E. apply (outcome_again _ meta); [done|apply find_ringed].
  - left. rewrite <- E. by apply (outcome_again _ meta).
Qed.

Lemma reincarnate_again p :
  is_accepted (dc_disposition (decide_reincarnate s meta p)) = true ->
  final_ruling (decide_reincarnate (after (dc_change (decide_reincarnate s meta p))) meta2 p).
Proof using Hm Hsorted.
  set (v := mkReincarnationValue (re_from_incarnation p) (wrap64 (re_from_incarnation p + 1)) (re_serial p) (re_reason p)).
  pose proof (stage_settles same_reincarnation (rs_reincarnation_records s) (re_object p) v same_reincarnation_refl) as Hst.
  remember (decide_reincarnate s meta p) as d eqn:Hd. unfold decide_reincarnate in Hd. fold v in Hd. intros Hacc.
  assert (Hfin : forall st, settled (existing_outcome same_reincarnation (rs_reincarnation_records st) (re_object p)
      (att_owner meta2) meta2 v) -> final_ruling (decide_reincarnate st meta2 p)).
  { intros st Hse. unfold decide_reincarnate. fold v. apply resolve_final; [done|]. by unfold changes_no_winner. }
  destruct (existing_outcome _ _ _ _ _ _) eqn:E in Hd, Hst; cbn [resolve] in Hd; subst d;
    [|by apply Hfin, Hst|by apply Hfin, Hst|done].
  destruct (negb (object_exists s (re_object p))) eqn:Eex; [by apply Hfin, Hst|].
  destruct (ri_target v <=? object_incarnation_of s (re_object p)) eqn:Et; [|by apply Hfin, Hst].
  (* Not ahead of the object: the ring was offered the record, no winner moved. *)
  cbn [dc_change]. set (st := after _). destruct Hm as [Eo Eg].
  assert (Ew : winners_of (rs_reincarnation_records st) = winners_of (rs_reincarnation_records s)) by (by apply winners_losing).
  assert (Ei : object_incarnation_of st (re_object p) = object_incarnation_of s (re_object p)) by (by apply incarnation_winners).
  unfold decide_reincarnate. fold v. rewrite Eo, Ei.
  assert (existing_outcome same_reincarnation (rs_reincarnation_records st) (re_object p) (att_owner meta) meta2 v = Insert) as ->.
  { rewrite <- E. apply (outcome_again _ meta); [done|]. by rewrite !winner_find, Ew. }
  change (object_exists st (re_object p)) with (object_exists s (re_object p)). rewrite Eex. cbn [resolve].
  rewrite Et. split; [cbn; auto|]. by unfold changes_no_winner.
Qed.

Lemma attachment_again subject value updates :
  NoDup (pu_key <$> updates) ->
  is_accepted (dc_disposition (decide_attachment limits s meta subject value updates)) = true ->
  final_ruling (decide_attachment limits
    (after (dc_change (decide_attachment limits s meta subject value updates))) meta2 subject value updates).
Proof using Hm.
  intros Hnd Hacc. destruct (attachment_left limits s h meta meta2 Hm subject value updates Hnd Hacc).
  by apply attachment_final.
Qed.

Lemma register_object_again cache cache2 d :
  let first := (decide_register_object limits s meta cache d).1 in
  is_accepted (dc_disposition first) = true ->
  final_ruling (decide_register_object limits (after (dc_change first)) meta2 cache2 d).1.
Proof using Hm.
  cbn zeta. pose proof (stage_settles same_value (rs_object_registrations s) (od_id d) d same_value_refl) as Hst.
  assert (Hfin : forall st, settled (existing_outcome same_value (rs_object_registrations st) (od_id d)
      (att_owner meta2) meta2 d) -> final_ruling (decide_register_object limits st meta2 cache2 d).1).
  { intros st Hse. unfold decide_register_object.
    destruct Hse as [->| ->]; (split; [cbn; auto|by unfold changes_no_winner]). }
  intros Hacc. apply Hfin. revert Hacc. remember (decide_register_object limits s meta cache d).1 as x eqn:Hx.
  unfold decide_register_object in Hx. destruct (existing_outcome _ _ _ _ _ _) eqn:E in Hx, Hst.
  - destruct (if is_empty (od_label d) then _ else _) as [holders c].
    destruct (List.find _ holders); [by subst x|]. cbn [fst] in Hx.
    destruct (negb _ && _); subst x; [done|]. intros _. by apply Hst.
  - subst x. intros _. by apply Hst.
  - subst x. intros _. by apply Hst.
  - subst x. done.
Qed.

(** The single-key kinds. *)
Lemma resolve_settles {K V} `{Ord K} same (table : RegistryState -> groups K SourceIncarnationKey V) k v
    t1 t2 t3 ring insert :
  (forall v, same v v = true) ->
  (is_accepted (dc_disposition insert) = true ->
     table (after (dc_change insert)) = write_stage h (StageWrite k v) meta (table s)) ->
  table (after ring) = ring_stage h (StageRing k : Stage K V) meta (table s) ->
  table (after (no_change meta)) = table s ->
  let first := resolve (existing_outcome same (table s) k (att_owner meta) meta v) meta t1 t2 t3 ring insert in
  is_accepted (dc_disposition first) = true ->
  settled (existing_outcome same (table (after (dc_change first))) k (att_owner meta2) meta2 v).
Proof using Hm.
  intros Hrefl Hins Hring Hnone. cbn zeta. pose proof (stage_settles same (table s) k v Hrefl) as Hst.
  destruct (existing_outcome same (table s) k (att_owner meta) meta v) eqn:E; cbn [resolve dc_disposition dc_change];
    intros Hacc; [rewrite (Hins Hacc)|rewrite Hring|rewrite Hnone|done]; by apply Hst.
Qed.

Lemma decide_twice cache cache2 e :
  let first := (decide_evidence limits s meta cache e).1 in
  is_accepted (dc_disposition first) = true ->
  final_ruling (decide_evidence limits (after (dc_change first)) meta2 cache2 e).1.
Proof using Hm Hsorted.
  cbn zeta. pose proof (proj1 Hm) as Eo. unfold decide_evidence.
  destruct (ev_payload e) as [d|d|p|p|p|p|p|p|p]; cbn [fst].
  - apply register_object_again.
  - intros Hacc. apply resolve_final; [|done].
    apply (resolve_settles same_value rs_endpoint_registrations); [apply same_value_refl| |done|done|done].
    by destruct (negb _ && _).
  - unfold decide_attach. assert (attach_updates meta2 p = attach_updates meta p) as ->
      by (unfold attach_updates, new_port_key; by rewrite Eo).
    apply attachment_again. apply NoDup_singleton.
  - unfold decide_detach. assert (detach_updates meta2 p = detach_updates meta p) as ->
      by (unfold detach_updates, new_port_key; by rewrite Eo).
    apply attachment_again. unfold detach_updates. case_match; [apply NoDup_singleton|constructor].
  - unfold decide_move. assert (move_updates meta2 p = move_updates meta p) as ->
      by (unfold move_updates, new_port_key; by rewrite Eo).
    apply attachment_again. apply move_keys_nodup.
  - intros Hacc. apply resolve_final; [|done].
    by apply (resolve_settles same_value rs_object_capability_records); [apply same_value_refl|..].
  - intros Hacc. apply resolve_final; [|done].
    by apply (resolve_settles same_value rs_port_capability_records); [apply same_value_refl|..].
  - intros Hacc. apply resolve_final; [|done].
    by apply (resolve_settles same_lifecycle rs_lifecycle_records); [apply same_lifecycle_refl|..].
  - apply reincarnate_again.
Qed.
End decide_again.

(** ** Promises *)

Lemma decide_no_apply limits s meta cache e :
  let d := (decide_evidence limits s meta cache e).1 in
  sc_apply (dc_change d) = false -> dc_change d = no_change meta.
Proof.
  cbn zeta. assert (Hr : forall outcome t1 t2 t3 ring insert, sc_apply ring = true ->
      (sc_apply (dc_change insert) = false -> dc_change insert = no_change meta) ->
      sc_apply (dc_change (resolve outcome meta t1 t2 t3 ring insert)) = false ->
      dc_change (resolve outcome meta t1 t2 t3 ring insert) = no_change meta).
  { intros [] t1 t2 t3 ring insert Hring Hins; cbn; [done|congruence|done|done]. }
  assert (Ha : forall subject value updates,
      sc_apply (dc_change (decide_attachment limits s meta subject value updates)) = false ->
      dc_change (decide_attachment limits s meta subject value updates) = no_change meta).
  { intros. revert H. unfold decide_attachment. by repeat case_match. }
  unfold decide_evidence. destruct (ev_payload e) as [d|d|p|p|p|p|p|p|p]; cbn [fst]; try apply Ha;
    try (apply Hr; [done|]; try done; by repeat case_match).
  unfold decide_register_object. destruct (existing_outcome _ _ _ _ _ _); try done.
  destruct (if is_empty (od_label d) then _ else _) as [holders c].
  destruct (List.find _ holders); [done|]. by case_match.
Qed.

Lemma decide_sessions limits s sessions meta cache e :
  decide_evidence limits (set_sessions sessions s) meta cache e = decide_evidence limits s meta cache e.
Proof. reflexivity. Qed.

Section promises.
Context {S : Type} `{AppendLog S}.
Implicit Types impl : Impl S.

(** What an accepted record leaves: its change is in the tables. *)
Lemma accepted_state e now live impl r impl' :
  ingest_locked e now true live impl = (r, impl') -> is_accepted (ir_disposition r) = true ->
  exists source session meta sessions,
    im_closed impl = false /\ validate_evidence_shape e (im_limits impl) = None /\
    map_find (hdr_source (ev_header e)) (rs_sources (im_state impl)) = Some source /\ sr_described source = true /\
    meta = attestation_of e (src_authority (sr_descriptor source)) now live /\
    dc_disposition (decide_evidence (im_limits impl) (im_state impl) meta (im_labels impl) e).1 = ir_disposition r /\
    im_state impl' = set_sessions sessions (apply_tables (im_history_per_key impl)
      (dc_change (decide_evidence (im_limits impl) (im_state impl) meta (im_labels impl) e).1) (im_state impl)) /\
    map_find (mkKey (hdr_source (ev_header e)) (hdr_incarnation (ev_header e))) sessions = Some session /\
    im_limits impl' = im_limits impl /\
    im_history_per_key impl' = im_history_per_key impl /\ im_closed impl' = im_closed impl.
Proof.
  intros E.
  apply ingest_cases in E as [r' refusals Hr|source session d t impl1 refusals hdr key Hc Hv Hsrc Hdes Hses Hcase];
    intros Hacc; [by rewrite Hr in Hacc|].
  exists source, (count_session (hdr_generation hdr) d session),
    (attestation_of e (src_authority (sr_descriptor source)) now live),
    (map_set key (count_session (hdr_generation hdr) d session) (rs_sessions (im_state impl1))).
  split_and!; try done.
  - cbn [ir_disposition] in *. destruct Hcase as [dec cache Hd Ha|?|dec cache store Hd Ha Hac]; [|done|]; by rewrite Hd.
  - cbn [im_state set_refusals set_state].
    destruct Hcase as [dec cache Hd Ha|?|dec cache store Hd Ha Hac]; [|done|by rewrite Hd].
    pose proof (decide_no_apply (im_limits impl) (im_state impl) (attestation_of e (src_authority (sr_descriptor source)) now live)
      (im_labels impl) e) as Hn. rewrite Hd in Hn |- *. cbn [fst] in *. by rewrite (Hn Ha).
  - apply find_set_eq.
  - by destruct Hcase.
  - by destruct Hcase.
  - by destruct Hcase.
Qed.
End promises.

(** An accepted record is in the log, as the replay reads it. *)
Lemma accepted_is_logged {S} `{AppendLog S} now e (impl : Impl S) r impl' :
  limits_u32 (im_limits impl) -> typed_evidence e -> is_i64 now -> is_Some (im_store impl) ->
  registry_ingest now e impl = (r, impl') ->
  is_accepted (ir_disposition r) = true -> ir_disposition r <> IngestDisposition.Duplicate ->
  exists payload, logged impl' = logged impl ++ [(RecordKind.Evidence, payload)] /\
    decode_all (decode_evidence_record (im_limits impl)) payload = Some (now, e).
Proof.
  intros Hl Ht Hn Hst E.
  apply ingest_cases in E as [r' refusals Hr|source session d t impl1 refusals hdr key Hc Hv Hsrc Hdes Hses Hcase];
    intros Hacc Hdup; [by rewrite Hr in Hacc|]. cbn [ir_disposition] in *.
  destruct Hcase as [dec cache Hd Ha|?|dec cache store Hd Ha Hac Hsto Hlog]; [|done|].
  - pose proof (decide_consistent (im_limits impl) (im_state impl)
      (attestation_of e (src_authority (sr_descriptor source)) now true) (im_labels impl) e) as Hcon.
    rewrite Hd in Hcon. unfold consistent in Hcon. cbn [fst] in Hcon. rewrite Ha, Hacc in Hcon.
    by rewrite bool_decide_false in Hcon.
  - destruct Hlog as [[? _]|[(_ & Hnone & _)|(_ & _ & Hok & Hlog)]]; [done|by rewrite Hnone in Hst; destruct Hst|].
    eexists. split; [exact Hlog|]. apply decode_all_roundtrip; [|done].
    apply rt_evidence_record; [by apply limits_u32_ok|by apply validated_wf|done].
Qed.

(** C7: An acknowledged record is durable. When [Ingest] of a registry with a
    store accepts a record that is not a duplicate, the log has grown by exactly
    one evidence record, and the replay decoder reads from it the very record
    that was submitted and the time it was received. *)
Theorem accepted_record_is_durable {S} `{AppendLog S} now e (impl : Impl S) r impl' :
  limits_u32 (im_limits impl) -> typed_evidence e -> is_i64 now -> is_Some (im_store impl) ->
  registry_ingest now e impl = (r, impl') ->
  is_accepted (ir_disposition r) = true -> ir_disposition r <> IngestDisposition.Duplicate ->
  exists payload, logged impl' = logged impl ++ [(RecordKind.Evidence, payload)] /\
    decode_all (decode_evidence_record (im_limits impl)) payload = Some (now, e).
Proof. apply accepted_is_logged. Qed.

(** The label index is left alone or built anew. *)
Lemma decide_cache_cases limits state meta cache e :
  (decide_evidence limits state meta cache e).2 = cache \/
  (decide_evidence limits state meta cache e).2 = rebuild_label_index state.
Proof.
  unfold decide_evidence. destruct (ev_payload e) as [d|d|p|p|p|p|p|p|p]; try by left. unfold decide_register_object.
  destruct (existing_outcome _ _ _ _ _ _); try by left. destruct (is_empty (od_label d)); unfold label_holders;
    [|destruct (lc_valid cache)]; (case_match; cbn [snd]; auto).
Qed.


(** C11: Sending a record again is harmless. If a record was accepted, then
    submitting the same record, at any time, to a registry with the resulting state
    and the same bounds, whatever its label index, its store and its refusal audit
    are by then, changes no winning record of any claim key, and is reported as a
    duplicate, as superseded, or, only if the log fails, as not durable. *)
Theorem retry_changes_nothing {S} `{AppendLog S} e t1 t2 (impl : Impl S) r1 impl1 (again : Impl S) r2 impl2 :
  impl_inv impl ->
  registry_ingest t1 e impl = (r1, impl1) -> is_accepted (ir_disposition r1) = true ->
  im_state again = im_state impl1 -> im_limits again = im_limits impl1 ->
  im_history_per_key again = im_history_per_key impl1 -> im_closed again = im_closed impl1 ->
  registry_ingest t2 e again = (r2, impl2) ->
  winners (im_state impl2) = winners (im_state impl1) /\
  (ir_disposition r2 = IngestDisposition.Duplicate \/ ir_disposition r2 = IngestDisposition.AcceptedSuperseded \/
   ir_disposition r2 = IngestDisposition.RefusedPersistence).
Proof.
  intros Hinv E1 Hacc As Al Ah Ac E2. assert (Hinv1 : impl_inv impl1).
  { pose proof (ingest_inv e t1 true true impl Hinv) as Hi. unfold registry_ingest in E1. by rewrite E1 in Hi. }
  destruct (accepted_state _ _ _ _ _ _ E1 Hacc)
    as (source & session & meta & sessions & Hc & Hv & Hsrc & Hdes & Hmeta & Hdis & Hst & Hses & Hlim & Hhis & Hcl).
  set (meta2 := attestation_of e (src_authority (sr_descriptor source)) t2 true).
  assert (Hfin : final_ruling (decide_evidence (im_limits again) (im_state again) meta2 (im_labels again) e).1).
  { rewrite As, Al, Hst, Hlim, decide_sessions. apply decide_twice; [by subst meta| |by rewrite Hdis].
    exact (proj1 (si_reincarnation _ _ _ (ii_state _ Hinv))). }
  assert (Hk : im_closed again = false) by (by rewrite Ac, Hcl).
  pose proof (ingest_known e t2 true true again source session Hk) as Hi. rewrite Al, Hlim in Hi. specialize (Hi Hv).
  rewrite As, Hst in Hi. specialize (Hi Hsrc Hdes Hses). cbv zeta in Hi. fold meta2 in Hi.
  unfold registry_ingest in E2. rewrite E2 in Hi. cbn [fst snd] in Hi.
  destruct (commit e t2 true meta2 again) as [[d t] impl3] eqn:Ec. destruct Hi as [Hd [refusals ->]].
  apply commit_cases in Ec. destruct Hfin as [Hdisp Hnw]. rewrite Hd.
  destruct Ec as [dec cache Hdec Ha|dec cache text impl4 Hdec Hp Hlog Hst4|dec cache store Hdec Ha Hac Hsto Hlog];
    rewrite Hdec in Hdisp, Hnw; cbn [fst] in Hdisp, Hnw.
  - split; [cbn [im_state set_refusals set_state set_labels]; by rewrite As|tauto].
  - split; [cbn [im_state set_refusals set_state]; by rewrite Hst4, As|tauto].
  - split; [|tauto]. cbn [im_state set_refusals set_state apply_change set_labels set_store im_history_per_key].
    rewrite As. pose proof (ii_state _ Hinv1) as Hs1. rewrite <- Al, <- Ah in Hs1. exact (apply_no_winner _ _ _ _ _ Hs1 Hnw).
Qed.

(** ** Gaps *)

(** The counters of a session after a run of records. *)
Definition count_run (session : SessionRecord) (run : list (Z * IngestDisposition.t)) : SessionRecord :=
  foldl (fun session record => count_session record.1 record.2 session) session run.

Lemma count_run_gaps session run :
  0 < ss_high_water session -> StronglySorted Z.lt (ss_high_water session :: run.*1) ->
  let last := foldl (fun _ record => record.1) (ss_high_water session) run in
  ss_high_water (count_run session run) = last /\
  wrap64 (ss_missing_generations (count_run session run)) =
    wrap64 (ss_missing_generations session + (last - ss_high_water session - zlen run)).
Proof.
  revert session. induction run as [|[g d] run IH]; intros session Hpos Hs; cbn zeta.
  - cbn. rewrite zlen_nil. split; [done|]. f_equal. lia.
  - rewrite fmap_cons in Hs. cbn [fst] in Hs. inversion Hs as [|? ? Hs' Hall]; subst.
    apply Forall_cons in Hall as [Hlt Hall].
    assert (Hb : ss_high_water session <? g = true) by (by apply Z.ltb_lt).
    specialize (IH (count_session g d session)). unfold count_run in *. cbn [foldl fst snd].
    assert (Eh : ss_high_water (count_session g d session) = g) by (unfold count_session; cbn; by rewrite Hb).
    assert (Em : ss_missing_generations (count_session g d session) =
      wrap64 (ss_missing_generations session + (g - ss_high_water session - 1))).
    { unfold count_session. cbn. rewrite Hb. cbn [andb]. by rewrite (proj2 (Z.eqb_neq _ 0)) by lia. }
    rewrite Eh in IH. destruct (IH ltac:(lia) Hs') as [IH1 IH2]. split; [exact IH1|]. rewrite IH2, Em.
    rewrite zlen_cons. unfold wrap64. rewrite Zplus_mod_idemp_l. f_equal. lia.
Qed.

(** The gap counter is exact for an in-order stream. When a session's
    records arrive with strictly increasing generations after its first one,
    the number of missing generations it reports grows by the numbers skipped:
    the distance the high-water mark travelled less the records that arrived
    (modulo 2^64, the width of the counter), whatever the records' outcomes. *)
Theorem missing_generations_exact session run :
  0 < ss_high_water session -> StronglySorted Z.lt (ss_high_water session :: run.*1) ->
  is_u64 (ss_missing_generations session) ->
  let after := count_run session run in
  ss_high_water after = foldl (fun _ record => record.1) (ss_high_water session) run /\
  ss_missing_generations after =
    wrap64 (ss_missing_generations session + (ss_high_water after - ss_high_water session - zlen run)).
Proof.
  intros Hpos Hs Hu. destruct (count_run_gaps session run Hpos Hs) as [Hh Hm]. cbn zeta. split; [done|].
  rewrite <- Hh in Hm. rewrite <- Hm. symmetry. apply wrap64_small. clear -Hu.
  revert session Hu. induction run as [|[g d] run IH]; intros session Hu; [done|]. apply IH.
  unfold count_session. cbn. case_match; [apply wrap64_range|done].
Qed.

(** ** The refusal audit *)

Lemma pop_front_spec limit l : 0 <= limit -> pop_front_to limit l = lastn (Z.to_nat limit) l.
Proof.
  intros Hl. unfold lastn. induction l as [|x l IH]; [done|]. cbn [pop_front_to].
  destruct (Z.ltb_spec limit (zlen (x :: l))) as [Hlt|Hge].
  - rewrite IH. rewrite zlen_cons in Hlt. unfold zlen in Hlt. cbn [length].
    replace (Datatypes.S (length l) - Z.to_nat limit)%nat with (Datatypes.S (length l - Z.to_nat limit)) by lia. done.
  - unfold zlen in Hge. replace (length (x :: l) - Z.to_nat limit)%nat with 0%nat by lia. done.
Qed.

(** The refusal audit is a sliding window. Noting a refusal keeps the most
    recent [max_refusal_audit] entries, the new one last, in order, and touches
    nothing else of the registry. *)
Theorem refusal_audit_window {S} (result : IngestResult) (impl : Impl S) :
  0 <= max_refusal_audit (im_limits impl) ->
  let bound := Z.to_nat (max_refusal_audit (im_limits impl)) in
  let entry := mkRefusal (ir_evidence result) (ir_kind result) nil_id 0 0 (ir_disposition result) (ir_detail result) in
  im_refusals (note_refusal result impl) = lastn bound (im_refusals impl ++ [entry]) /\
  (length (im_refusals (note_refusal result impl)) <= bound)%nat /\
  im_state (note_refusal result impl) = im_state impl /\ im_store (note_refusal result impl) = im_store impl.
Proof.
  intros Hl. cbn zeta. unfold note_refusal. cbn. rewrite pop_front_spec by done. split_and!; try done.
  rewrite lastn_length. lia.
Qed.
