(* ===== verification/ArrivalOrder.v ===== *)
(** * The order in which records arrive

    A claim key is one place in one table that one session of a source writes: the
    registration of an object or an endpoint, the place of an object side, a
    lifecycle assertion, a published capability.  This file shows that a run of the
    registry over accepted records of one claim key is a fold of [arrive], and
    hence that what the key holds afterwards, its supersession ring included, does
    not depend on the order of the records.  Reincarnations are left out: whether
    they are kept depends on the incarnation the object has at that time. *)
From S2P Require Import Prelude OrdMap Types Ids Graph Codec State Fold Derive Log Admit Ingest Session Recovery Invariant Replica Delivery.
#[local] Open Scope Z_scope.

Inductive ClaimKey :=
  | ObjectKey (object : ObjectId)
  | EndpointKey (endpoint : EndpointId)
  | SideKey (side : ObjectSideRef)
  | LifecycleKey (object : ObjectId)
  | ObjectCapabilityKey (object : ObjectId)
  | PortCapabilityKey (port : PortRef).

(** The claim key a record is about. *)
Definition claim_key (payload : EvidencePayload) : option ClaimKey :=
  match payload with
  | RegisterObject d => Some (ObjectKey (od_id d))
  | RegisterEndpoint d => Some (EndpointKey (ed_id d))
  | Attach p => Some (SideKey (at_subject p))
  | Detach p => Some (SideKey (de_subject p))
  | Move p => Some (SideKey (mv_subject p))
  | SetLifecycle p => Some (LifecycleKey (sl_object p))
  | PublishObjectCapability p => Some (ObjectCapabilityKey (po_object p))
  | PublishPortCapability p => Some (PortCapabilityKey (pp_port p))
  | ReincarnateObject _ => None
  end.

(** What a table holds at a claim key. *)
Inductive Claim :=
  | ObjectClaim (slot : option (Folded ObjectDescriptor))
  | EndpointClaim (slot : option (Folded EndpointDescriptor))
  | SideClaim (slot : option (Folded SubjectValue))
  | LifecycleClaim (slot : option (Folded LifecycleValue))
  | ObjectCapabilityClaim (slot : option (Folded NominalCapability))
  | PortCapabilityClaim (slot : option (Folded PortCapability)).

Definition claim_at (key : ClaimKey) (owner : SourceIncarnationKey) (s : RegistryState) : Claim :=
  match key with
  | ObjectKey k => ObjectClaim (group_find k owner (rs_object_registrations s))
  | EndpointKey k => EndpointClaim (group_find k owner (rs_endpoint_registrations s))
  | SideKey k => SideClaim (group_find k owner (rs_subject_records s))
  | LifecycleKey k => LifecycleClaim (group_find k owner (rs_lifecycle_records s))
  | ObjectCapabilityKey k => ObjectCapabilityClaim (group_find k owner (rs_object_capability_records s))
  | PortCapabilityKey k => PortCapabilityClaim (group_find k owner (rs_port_capability_records s))
  end.

Definition unclaimed (c : Claim) : Prop :=
  match c with
  | ObjectClaim slot => slot = None
  | EndpointClaim slot => slot = None
  | SideClaim slot => slot = None
  | LifecycleClaim slot => slot = None
  | ObjectCapabilityClaim slot => slot = None
  | PortCapabilityClaim slot => slot = None
  end.

(** ** One record at one key *)

Lemma outcome_slot {K O V} `{Ord K, Ord O} same (g : groups K O V) k o meta v :
  existing_outcome same g k o meta v =
  match group_find k o g with
  | None => Insert
  | Some f => compare_generation (fd_meta f) meta (same (fd_value f) v)
  end.
Proof. unfold existing_outcome, group_find. destruct (map_find k g) as [m|]; [|done]. cbn. by destruct (map_find o m). Qed.

Section one_key.
Context (h : Z) (meta : Attestation).

(** What the stage of an accepted record does to its key. *)
Lemma stage_arrives {K V} `{Ord K} same (g : groups K SourceIncarnationKey V) k v :
  existing_outcome same g k (att_owner meta) meta v <> Collision ->
  let stage := match existing_outcome same g k (att_owner meta) meta v with
               | Insert => StageWrite k v | Superseded => StageRing k | _ => NoStage end in
  group_find k (att_owner meta) (write_stage h stage meta (ring_stage h stage meta g)) =
  arrive h (group_find k (att_owner meta) g) (meta, v).
Proof.
  rewrite outcome_slot. destruct (group_find k (att_owner meta) g) as [f|] eqn:Ef; cbn zeta.
  - unfold arrive. unfold compare_generation. cbn [fst snd].
    destruct (att_generation (fd_meta f) <? att_generation meta); cbn [write_stage ring_stage].
    { intros _. by rewrite group_find_fold, !keqb_refl, Ef. }
    destruct (att_generation meta <? att_generation (fd_meta f)); cbn [write_stage ring_stage].
    { intros _. by rewrite group_find_fold_losing, !keqb_refl, Ef. }
    by destruct (same (fd_value f) v).
  - intros _. cbn [write_stage ring_stage arrive]. by rewrite group_find_fold, !keqb_refl, Ef.
Qed.

Context (s : RegistryState).
Abbreviation after change := (apply_tables h change s).

Lemma resolve_arrives {K V} `{Ord K} same (table : RegistryState -> groups K SourceIncarnationKey V) k v t1 t2 t3 ring insert :
  (is_accepted (dc_disposition insert) = true ->
     table (after (dc_change insert)) = write_stage h (StageWrite k v) meta (table s)) ->
  table (after ring) = ring_stage h (StageRing k : Stage K V) meta (table s) ->
  table (after (no_change meta)) = table s ->
  let first := resolve (existing_outcome same (table s) k (att_owner meta) meta v) meta t1 t2 t3 ring insert in
  is_accepted (dc_disposition first) = true ->
  group_find k (att_owner meta) (table (after (dc_change first))) = arrive h (group_find k (att_owner meta) (table s)) (meta, v).
Proof.
  intros Hins Hring Hnone. cbn zeta. pose proof (stage_arrives same (table s) k v) as Hst.
  destruct (existing_outcome same (table s) k (att_owner meta) meta v) eqn:E; cbn [resolve dc_disposition dc_change];
    intros Hacc; [rewrite (Hins Hacc)|rewrite Hring|rewrite Hnone|done]; by apply Hst.
Qed.

Lemma object_arrives limits cache d :
  let first := (decide_register_object limits s meta cache d).1 in
  is_accepted (dc_disposition first) = true ->
  group_find (od_id d) (att_owner meta) (rs_object_registrations (after (dc_change first))) =
  arrive h (group_find (od_id d) (att_owner meta) (rs_object_registrations s)) (meta, d).
Proof.
  cbn zeta. pose proof (stage_arrives same_value (rs_object_registrations s) (od_id d) d) as Hst. unfold decide_register_object.
  destruct (existing_outcome _ _ _ _ _ _) eqn:E; [|intros _; by apply Hst..|done].
  destruct (if is_empty (od_label d) then _ else _) as [holders c].
  destruct (List.find _ holders); [done|]. cbn [fst]. destruct (negb _ && _); [done|]. intros _. by apply Hst.
Qed.

Lemma attachment_arrives limits subject value updates :
  let first := decide_attachment limits s meta subject value updates in
  is_accepted (dc_disposition first) = true ->
  group_find subject (att_owner meta) (rs_subject_records (after (dc_change first))) =
  arrive h (group_find subject (att_owner meta) (rs_subject_records s)) (meta, value).
Proof.
  cbn zeta. pose proof (stage_arrives same_value (rs_subject_records s) subject value) as Hst. unfold decide_attachment.
  destruct (existsb (fun u => port_capacity_reached _ _ _ _) updates); [done|].
  destruct (existing_outcome same_value (rs_subject_records s) subject (att_owner meta) meta value) eqn:E;
    cbn [plan_of kp_collision kp_write kp_ring orb]; [..|done]; (destruct (existsb (fun p => kp_collision p.2) _); [done|]); cbn [negb andb].
  - intros _. by apply Hst.
  - destruct (negb (existsb (fun p => kp_write p.2) _)) eqn:Ew; cbn [andb dc_disposition dc_change]; intros _; by apply Hst.
  - destruct (negb (existsb (fun p => kp_write p.2) _)) eqn:Ew; destruct (negb (existsb (fun p => kp_ring p.2) _)) eqn:Er;
      cbn [andb dc_disposition dc_change]; intros _; by apply Hst.
Qed.
End one_key.

(** ** A run of the registry *)

(** The registry after some records, each at its time, if all were accepted. *)
Fixpoint accepted_run {S} `{AppendLog S} (records : list (Z * Evidence)) (impl : Impl S) : option (Impl S) :=
  match records with
  | [] => Some impl
  | (now, e) :: records =>
      let '(result, impl) := registry_ingest now e impl in
      if is_accepted (ir_disposition result) then accepted_run records impl else None
  end.

(** The session a record belongs to. *)
Definition owner_of (e : Evidence) : SourceIncarnationKey := mkKey (hdr_source (ev_header e)) (hdr_incarnation (ev_header e)).

Lemma att_owner_of e a now live : att_owner (attestation_of e a now live) = owner_of e.
Proof. done. Qed.

Section run.
Context {S : Type} `{AppendLog S}.
Implicit Types impl : Impl S.
Context {V : Type} (slot : RegistryState -> option (Folded V)) (value : Attestation -> EvidencePayload -> option V)
  (relevant : Evidence -> Prop).
Context (slot_sessions : forall sessions s, slot (set_sessions sessions s) = slot s).
Context (step : forall limits s h meta cache e, relevant e -> att_owner meta = owner_of e ->
  is_accepted (dc_disposition (decide_evidence limits s meta cache e).1) = true ->
  exists v, value meta (ev_payload e) = Some v /\
    slot (apply_tables h (dc_change (decide_evidence limits s meta cache e).1) s) = arrive h (slot s) (meta, v)).

(** What a record is to its claim key, for a source of authority [a]. *)
Definition arrival (a : Authority) (record : Z * Evidence) : option (Attestation * V) :=
  let meta := attestation_of record.2 a record.1 true in
  v ← value meta (ev_payload record.2); Some (meta, v).

Lemma run_arrives a source records impl impl' :
  Forall (fun r => relevant r.2 /\ hdr_source (ev_header r.2) = source) records ->
  src_authority ∘ sr_descriptor <$> map_find source (rs_sources (im_state impl)) = Some a ->
  accepted_run records impl = Some impl' ->
  slot (im_state impl') = foldl (arrive (im_history_per_key impl)) (slot (im_state impl)) (omap (arrival a) records) /\
  (omap (arrival a) records).*1 = (fun r => attestation_of r.2 a r.1 true) <$> records.
Proof using slot_sessions step.
  intros Hall. revert impl. induction Hall as [|[now e] records [Hrel Hsrc] _ IH]; intros impl Ha Hrun; cbn in Hrun.
  - by injection Hrun as ->.
  - destruct (registry_ingest now e impl) as [r impl1] eqn:E. destruct (is_accepted (ir_disposition r)) eqn:Hacc; [|done].
    cbn [fst snd] in *. destruct (accepted_state _ _ _ _ _ _ E Hacc)
      as (record & session & meta & sessions & Hc & Hv & Hfind & Hdes & Hmeta & Hdis & Hst & Hses & Hlim & Hhis & Hcl).
    rewrite Hsrc in Hfind. rewrite Hfind in Ha. injection Ha as Ha. cbn in Ha. rewrite Ha in Hmeta.
    destruct (step (im_limits impl) (im_state impl) (im_history_per_key impl) meta (im_labels impl) e) as (v & Ev & Es);
      [done|by rewrite Hmeta|by rewrite Hdis|].
    assert (Ha1 : src_authority ∘ sr_descriptor <$> map_find source (rs_sources (im_state impl1)) = Some a).
    { rewrite Hst. cbn. rewrite Hfind. cbn. by rewrite Ha. }
    destruct (IH impl1 Ha1 Hrun) as [E1 E2]. rewrite Hhis, Hst, slot_sessions, Es in E1.
    assert (Earr : arrival a (now, e) = Some (meta, v)) by (unfold arrival; cbn; rewrite <- Hmeta, Ev; done).
    cbn [omap list_omap]. rewrite Earr. cbn [foldl fmap list_fmap fst snd]. split; [exact E1|]. by rewrite E2, Hmeta.
Qed.

Lemma run_order source l1 l2 impl a b :
  0 < im_history_per_key impl -> slot (im_state impl) = None ->
  Forall (fun r => relevant r.2 /\ hdr_source (ev_header r.2) = source) l1 ->
  NoDup ((fun r => hdr_generation (ev_header r.2)) <$> l1) -> NoDup ((fun r => hdr_id (ev_header r.2)) <$> l1) -> l1 ≡ₚ l2 ->
  accepted_run l1 impl = Some a -> accepted_run l2 impl = Some b ->
  slot (im_state a) = slot (im_state b).
Proof using slot_sessions step.
  intros Hh Hnone Hall Hg Hi Hp Ra Rb.
  destruct l1 as [|[now e] l1']; [apply Permutation_nil_l in Hp as <-; cbn in *; congruence|].
  assert (Ha : exists au, src_authority ∘ sr_descriptor <$> map_find source (rs_sources (im_state impl)) = Some au).
  { cbn in Ra. destruct (registry_ingest now e impl) as [r impl1] eqn:E. destruct (is_accepted (ir_disposition r)) eqn:Hacc; [|done].
    destruct (accepted_state _ _ _ _ _ _ E Hacc) as (record & _ & _ & _ & _ & _ & Hfind & _).
    apply Forall_cons in Hall as [[_ Hs] _]. cbn in Hs. rewrite Hs in Hfind. rewrite Hfind. by eexists. }
  destruct Ha as [au Ha]. set (l1 := (now, e) :: l1') in *.
  assert (Hall2 : Forall (fun r => relevant r.2 /\ hdr_source (ev_header r.2) = source) l2) by (by rewrite <- Hp).
  destruct (run_arrives au source l1 impl a Hall Ha Ra) as [E1 M1]. destruct (run_arrives au source l2 impl b Hall2 Ha Rb) as [E2 _].
  rewrite E1, E2, Hnone. apply arrivals_order_independent; [done|rewrite M1, <- list_fmap_compose; exact Hg|rewrite M1, <- list_fmap_compose; exact Hi|].
  by rewrite Hp.
Qed.
End run.

(** ** The six kinds of key *)

(** The subject value of the three kinds that place a side. *)
Definition side_value (meta : Attestation) (payload : EvidencePayload) : option SubjectValue :=
  match payload with
  | Attach p => Some (subject_value_of (at_incarnation p) true false default_port (attach_updates meta p))
  | Detach p => Some (subject_value_of (de_incarnation p) false false default_port (detach_updates meta p))
  | Move p => Some (subject_value_of (mv_incarnation p) true true (mv_from p) (move_updates meta p))
  | _ => None
  end.

