(* ===== verification/Concurrent.v ===== *)
(** * Many connections at once ([src/ipc/server.cpp])

    The machine of [ServerLife.v] with what its connection threads do: each reads
    frames from its peer, calls the registry, counts and sends.  A step is what
    one thread does between two points where another can run: a call of the
    registry, which is atomic, or a section under the mutex of the server.  The
    peers may send anything, and any thread may be next. *)
From stdpp Require Import gmap sets.
From S2P Require Import Prelude OrdMap Types Graph Codec Serialization State Log Protocol Socket Admit Ingest Session Recovery Invariant WellFormed Replica Views SnapshotBuild Durability Restart Delivery ViewCodec Canonical Server ServerLife.
#[local] Open Scope Z_scope.

(** Where a thread stands in [serve_connection]: at the head of its loop, with what
    the peer has yet to send; behind [dispatch], with the reply; behind a header
    that was refused; behind the reply to [Shutdown]; behind the section that notes
    the request, and before [shutdown_requested_cv.notify_all]; or behind its last
    statement. *)
Inductive Stage :=
  | AtHead (input : list Z)
  | Replying (type : MessageType.t) (request_id : Z) (response input : list Z)
  | Rejecting (error : Error)
  | Requesting
  | Announcing
  | Returned.

(** A request that was handled: whose it was, what the clock said, and the reply. *)
Record Handled := mkHandled {
  ha_connection : nat;
  ha_clock : nat -> Z;
  ha_request : Frame;
  ha_type : MessageType.t;
  ha_response : list Z;
}.

Inductive Activity :=
  (** An event of [ServerLife.v]. *)
  | Life (event : Event)
  (** A whole frame is received and [dispatch] is called. *)
  | Handle (connection : nat) (clock : nat -> Z)
  (** The request is counted and its reply sent, all of it or, when the peer is gone
      or the server stops, the first [bytes]. *)
  | Answer (connection bytes : nat)
  | Reject (connection bytes : nat)
  (** [shutdown_requested] is set under the mutex, and then notified. *)
  | Request (connection : nat)
  | Announce (connection : nat)
  (** Nothing more is received: the peer closed, or the socket failed. *)
  | Quit (connection : nat).

Section system.
Context {S : Type} `{AppendLog S, StoreCounters S}.

(** [sy_sent] holds what each connection sent, one piece per reply; [sy_history]
    the requests in the order in which the registry saw them. *)
Record System := mkSystem {
  sy_threads : Threads;
  sy_shared : Shared S;
  sy_stages : gmap nat Stage;
  sy_sent : gmap nat (list (list Z));
  sy_history : list Handled;
}.

Context (options : ServerOptions) (peer : nat -> list Z).
Implicit Types s : System.

Definition initial (registry : Impl S) : System := mkSystem started (mkShared registry no_stats false) ∅ ∅ [].

(** The next frame, or the error its header is refused with. *)
Definition next_frame (input : list Z) : option (Outcome Frame * list Z) :=
  match receive_exact kFrameHeaderBytes input with
  | None => None
  | Some (header, rest) =>
      match decode_frame_header header (max_frame_payload_bytes (so_limits options)) with
      | inr error => Some (inr error, rest)
      | inl (type, request_id, payload_bytes) =>
          '(payload, rest) ← receive_exact payload_bytes rest; Some (inl (mkFrame type request_id payload), rest)
      end
  end.

Definition at_stage (c : nat) (stage : Stage) s : System :=
  mkSystem (sy_threads s) (sy_shared s) (<[c := stage]> (sy_stages s)) (sy_sent s) (sy_history s).

Definition send (c : nat) (bytes : nat) (frame : list Z) s : System :=
  mkSystem (sy_threads s) (sy_shared s) (sy_stages s)
    (<[c := (default [] (sy_sent s !! c) ++ [take bytes frame])%list]> (sy_sent s)) (sy_history s).

Definition with_shared (shared : Shared S) s : System :=
  mkSystem (sy_threads s) shared (sy_stages s) (sy_sent s) (sy_history s).

(** The stages after an event: a thread that starts is at the head of its loop; one
    that sees the stop flag there, or while it waits for a frame, returns. *)
Definition life_stages (event : Event) (t : Threads) (stages : gmap nat Stage) : option (gmap nat Stage) :=
  match event with
  | Spawn => match th_acceptor t with Spawning c => Some (<[c := AtHead (peer c)]> stages) | _ => None end
  | Finish c => match stages !! c with Some Returned => Some stages | _ => None end
  | SeeStop c => match stages !! c with Some (AtHead _) => Some (<[c := Returned]> stages) | _ => None end
  | _ => Some stages
  end.

Definition act (activity : Activity) s : option System :=
  let shared := sy_shared s in
  match activity with
  | Life event =>
      t ← run (so_max_connections options) event (sy_threads s);
      stages ← life_stages event (sy_threads s) (sy_stages s);
      Some (mkSystem t shared stages (sy_sent s) (sy_history s))
  | Handle c clock =>
      match sy_stages s !! c with
      | Some (AtHead input) =>
          match next_frame input with
          | Some (inl request, rest) =>
              let '(type, response, registry) := dispatch options clock request (sh_registry shared) in
              Some (at_stage c (Replying type (fr_request_id request) response rest)
                (mkSystem (sy_threads s) (mkShared registry (sh_stats shared) (sh_shutdown_requested shared)) (sy_stages s)
                   (sy_sent s) (sy_history s ++ [mkHandled c clock request type response])))
          | Some (inr error, _) => Some (at_stage c (Rejecting error) s)
          | None => None
          end
      | _ => None
      end
  | Answer c bytes =>
      match sy_stages s !! c with
      | Some (Replying type request_id response input) =>
          Some (at_stage c (if bool_decide (type = MessageType.ShutdownAck) then Requesting else AtHead input)
            (send c bytes (send_frame options type request_id response)
              (with_shared (mkShared (sh_registry shared) (count_served (sh_stats shared)) (sh_shutdown_requested shared)) s)))
      | _ => None
      end
  | Reject c bytes =>
      match sy_stages s !! c with
      | Some (Rejecting error) =>
          Some (at_stage c Returned
            (send c bytes
               (send_frame options MessageType.Failure 0 (enc_buffer (encode_failure (so_limits options) error new_encoder)))
              (with_shared (mkShared (sh_registry shared) (count_rejected (sh_stats shared)) (sh_shutdown_requested shared)) s)))
      | _ => None
      end
  | Request c =>
      match sy_stages s !! c with
      | Some Requesting =>
          Some (at_stage c Announcing (with_shared (mkShared (sh_registry shared) (sh_stats shared) true) s))
      | _ => None
      end
  | Announce c => match sy_stages s !! c with Some Announcing => Some (at_stage c Returned s) | _ => None end
  | Quit c => match sy_stages s !! c with Some (AtHead _) => Some (at_stage c Returned s) | _ => None end
  end.

(** The clock is a 64 bit count of nanoseconds. *)
Definition typed_activity (activity : Activity) : Prop :=
  match activity with Handle _ clock => forall i, is_i64 (clock i) | _ => True end.

Inductive served (registry : Impl S) : System -> Prop :=
  | served_start : served registry (initial registry)
  | served_step s activity s' : served registry s -> typed_activity activity -> act activity s = Some s' -> served registry s'.
End system.

Arguments System S : clear implicits.

(** ** One request *)

Section requests.
Context {S : Type} `{AppendLog S, StoreCounters S}.
Implicit Types impl : Impl S.

(** A request is at most one call of the registry, whatever its bytes are. *)
Lemma dispatch_call options clock request impl type response impl' :
  limits_u32 (so_limits options) -> Forall is_u8 (fr_payload request) -> (forall i, is_i64 (clock i)) ->
  dispatch options clock request impl = (type, response, impl') -> impl' = impl \/ call impl impl'.
Proof.
  intros Hl Hu Hc. destruct request as [rtype rid payload]. cbn in Hu. unfold dispatch, fail_with, answer. cbn [fr_type fr_payload].
  destruct rtype; try (intros [= <- <- <-]; by left).
  - destruct (decode_all (decode_open_session_request (so_limits options)) payload) as [[d i]|] eqn:E; [|intros [= <- <- <-]; by left].
    destruct (open_request_typed _ _ _ _ Hl Hu E) as [Hd Hi].
    destruct (open_session d i (clock 0%nat) (clock 1%nat) impl) as [r impl1] eqn:Eo. intros [= <- <- <-]. right.
    pose proof (step_open_session impl d i (clock 0%nat) (clock 1%nat) Hd Hi (Hc _) (Hc _)) as Hs. by rewrite Eo in Hs.
  - destruct (decode_all decode_source_key payload) as [key|] eqn:E; [|intros [= <- <- <-]; by left].
    destruct (close_request_typed _ _ Hu E) as [Hid Hin]. pose proof (step_close_session impl key Hid Hin) as Hs.
    destruct (close_session key impl) as [[|] impl1]; intros [= <- <- <-]; by right.
  - destruct (decode_evidence_bytes payload (so_limits options)) as [e|] eqn:E; [|intros [= <- <- <-]; by left].
    pose proof (step_ingest impl (clock 0%nat) e (Hc _) (publish_request_typed _ _ _ Hl Hu E)) as Hs.
    destruct (registry_ingest (clock 0%nat) e impl) as [r impl1]. intros [= <- <- <-]. by right.
  - destruct (decode_all (decode_publish_batch_request (so_limits options)) payload) as [batch|] eqn:E; [|intros [= <- <- <-]; by left].
    pose proof (step_ingest_batch impl clock batch Hc (proj2 (batch_request_wf _ _ _ Hl Hu E))) as Hs.
    destruct (registry_ingest_batch clock batch impl) as [r impl1]. intros [= <- <- <-]. by right.
  - destruct (decode_all _ _) as [[]|]; [destruct (query_port _ _ _ _)|]; intros [= <- <- <-]; by left.
  - destruct (decode_all _ _) as [[[]]|]; [destruct (query_endpoint _ _ _ _ _)|]; intros [= <- <- <-]; by left.
  - destruct (decode_all _ _) as [[]|]; [destruct (query_object _ _ _ _)|]; intros [= <- <- <-]; by left.
  - destruct (decode_all _ _) as [[]|]; [destruct (query_history _ _ _ _)|]; intros [= <- <- <-]; by left.
  - destruct (decode_all _ _); intros [= <- <- <-]; by left.
  - destruct (_ <? _); intros [= <- <- <-]; by left.
  - destruct (negb _); intros [= <- <- <-]; by left.
Qed.
(** *** The log only grows *)

Lemma ingest_grows now e impl : logged impl `prefix_of` logged (registry_ingest now e impl).2.
Proof.
  destruct (registry_ingest now e impl) as [r impl'] eqn:E. cbn [snd].
  apply ingest_cases in E as [r' refusals _|source session d t impl1 refusals hdr key _ _ _ _ _ Hcase]; [done|].
  destruct Hcase as [dec cache _ _|dec cache text impl2 _ _ Hlog _|dec cache store _ _ _ _ Hlog]; [done| |].
  - change (logged impl `prefix_of` logged impl2). by rewrite Hlog.
  - change (logged impl `prefix_of` logged (set_store store impl)).
    destruct Hlog as [[_ ->]|[(_ & Hn & ->)|(_ & _ & _ & ->)]].
    + by destruct impl.
    + unfold logged. cbn. by rewrite Hn.
    + by eexists.
Qed.

Lemma ingest_all_grows now evidence impl : logged impl `prefix_of` logged (ingest_all now evidence impl).2.
Proof.
  revert now impl. induction evidence as [|e rest IH]; intros now impl; cbn; [done|].
  pose proof (ingest_grows (now 0%nat) e impl) as H1. unfold registry_ingest in H1.
  destruct (ingest_locked _ _ _ _ _) as [r impl1]. specialize (IH (fun i => now (Datatypes.S i)) impl1).
  destruct (ingest_all _ rest impl1) as [rs impl2]. cbn in *. by etrans.
Qed.

Lemma open_session_grows d i t1 t2 impl : logged impl `prefix_of` logged (open_session d i t1 t2 impl).2.
Proof.
  unfold open_session. destruct (open_session_refusal _ _ _) as [[[? ?] ?]|]; [done|].
  assert (Hg : logged impl `prefix_of` logged (log_session_open d i t1 impl).2).
  { destruct (im_store impl) as [st|] eqn:Es; [|unfold log_session_open; by rewrite Es].
    destruct (log_session_open d i t1 impl) as [res impl1] eqn:El.
    apply log_session_open_cases in El as (store & -> & Hlog); [|by eexists]. cbn [snd].
    destruct res; [by rewrite Hlog|]. destruct Hlog as [_ ->]. by eexists. }
  destruct (log_session_open d i t1 impl) as [[[? ?]|] impl1]; cbn [snd] in *; [done|].
  by destruct (if negb _ || _ then _ else _) as [disp detail].
Qed.

Lemma close_session_grows key impl : logged impl `prefix_of` logged (close_session key impl).2.
Proof.
  unfold close_session. destruct (im_closed impl); [done|]. destruct (map_find key _); [|done].
  destruct (im_store impl) as [st|] eqn:Es; [|unfold logged; cbn; by rewrite Es].
  destruct (log_append _ _ st) as [st' [[]|err]] eqn:El; unfold logged; cbn; rewrite Es.
  - apply log_append_ok in El. rewrite El. by eexists.
  - apply log_append_failed in El. by rewrite El.
Qed.

Lemma call_grows impl impl' : call impl impl' -> logged impl `prefix_of` logged impl'.
Proof.
  destruct 1; [apply ingest_grows|apply ingest_all_grows|apply open_session_grows|apply close_session_grows|].
  unfold close_registry. destruct (im_closed impl); [done|]. unfold logged. cbn.
  destruct (im_store impl) eqn:Es; cbn; [by rewrite log_close_records|by rewrite Es].
Qed.

(** *** What an acknowledgement says *)

(** An answer with its integers cut to the width they are sent in. *)
Definition as_sent (r : IngestResult) : IngestResult :=
  mkIngestResult (ir_disposition r)
    (from_parts (wrap64 (id_hi (sid_value (ir_evidence r)))) (wrap64 (id_lo (sid_value (ir_evidence r)))))
    (ir_kind r) (wrap64 (ir_high_water r)) (u64_to_i64 (i64_to_u64 (ir_received_at r))) (ir_detail r).

Lemma le_bytes_from_mod i n m v : 0 <= i -> i + Z.of_nat n <= m -> le_bytes_from i n (v mod 2 ^ (m * 8)) = le_bytes_from i n v.
Proof.
  revert i. induction n as [|n IH]; intros i Hi Hm; cbn [le_bytes_from]; [done|]. f_equal; [|apply IH; lia].
  apply Z.bits_inj'. intros k Hk. change 255 with (Z.ones 8). rewrite !Z.land_spec, !Z.shiftr_spec by lia.
  destruct (Z.ltb_spec k 8) as [Hlt|Hge].
  - by rewrite Z.mod_pow2_bits_low by lia.
  - by rewrite Z.ones_spec_high, !andb_false_r by lia.
Qed.

Lemma enc_u64_wrap v : enc_u64 (wrap64 v) = enc_u64 v.
Proof. unfold enc_u64, wrap64, le_bytes. f_equal. apply (le_bytes_from_mod 0 8 8); lia. Qed.

Lemma u64_i64_u64 v : i64_to_u64 (u64_to_i64 (i64_to_u64 v)) = i64_to_u64 v.
Proof. unfold i64_to_u64, u64_to_i64. case_match; Z.div_mod_to_equations; lia. Qed.

Lemma u64_to_i64_range v : is_u64 v -> is_i64 (u64_to_i64 v).
Proof. unfold is_u64, is_i64, u64_to_i64. destruct (Z.ltb_spec v (2 ^ 63)); lia. Qed.

Lemma encode_as_sent limits r : encode_ingest_result limits (as_sent r) = encode_ingest_result limits r.
Proof.
  unfold encode_ingest_result, enc_id, enc_id128, enc_i64. cbn [as_sent ir_disposition ir_evidence ir_kind ir_high_water ir_received_at ir_detail
    from_parts sid_value id_hi id_lo]. by rewrite u64_i64_u64, !enc_u64_wrap.
Qed.

Lemma as_sent_wf limits r : slen (ir_detail r) <= max_string_bytes limits -> wf_ingest_result limits (as_sent r).
Proof.
  intros Hs. split_and!; [split; apply wrap64_u64|apply wrap64_u64|apply u64_to_i64_range, i64_to_u64_range|exact Hs].
Qed.

(** An encoder that wrote an answer wrote its text. *)
Lemma written_result limits r e :
  enc_inv e -> enc_inv (encode_ingest_result limits r e) /\
  (enc_ok (encode_ingest_result limits r e) = true -> slen (ir_detail r) <= max_string_bytes limits /\ enc_ok e = true).
Proof.
  intros He.
  assert (Hw : exists bs, writes (encode_ingest_result limits r) (bytes_app (Some bs)
    (if (max_string_bytes limits <? slen (ir_detail r)) || (2 ^ 32 - 1 <? slen (ir_detail r)) then None
     else Some (le_bytes 4 (slen (ir_detail r)) ++ string_bytes (ir_detail r))))).
  { eexists. intros e0 He0. unfold encode_ingest_result. unfold enc_seq at 1 2 3 4 5.
    refine (eq_trans _ (writes_seq (enc_enum8 (ir_disposition r) ;> enc_id (ir_evidence r) ;> enc_enum16 (ir_kind r) ;>
      enc_u64 (ir_high_water r) ;> enc_i64 (ir_received_at r)) _ _ _ _ (writes_string _ _) e0 He0)); [reflexivity|].
    eapply (writes_seq _ _ (Some _) (Some _)); [apply writes_u8|]. eapply (writes_seq _ _ (Some _) (Some _)); [eapply (writes_seq _ _ (Some _) (Some _)); apply writes_append|].
    eapply (writes_seq _ _ (Some _) (Some _)); [apply writes_append|]. eapply (writes_seq _ _ (Some _) (Some _)); apply writes_append. }
  destruct Hw as [bs Hw]. split; [by eapply writes_inv|]. unfold enc_ok. rewrite (Hw e He).
  destruct (enc_failed e) eqn:Ef; [by rewrite Ef|]. destruct (Z.ltb_spec (max_string_bytes limits) (slen (ir_detail r))); [done|by split].
Qed.

Lemma written_results limits l e :
  enc_inv e -> enc_ok (enc_each (encode_ingest_result limits) l e) = true ->
  Forall (fun r => slen (ir_detail r) <= max_string_bytes limits) l /\ enc_ok e = true.
Proof.
  revert e. induction l as [|r l IH]; intros e He; cbn [enc_each]; [by split|]. unfold enc_seq. intros Hok.
  destruct (written_result limits r e He) as [Hinv Hr]. destruct (IH _ Hinv Hok) as [Hl Hok']. destruct (Hr Hok') as [Hs He']. by split; [constructor|].
Qed.

(** The answers a client reads from a reply are those the server wrote. *)
Lemma acknowledged_results limits l l' :
  limits_u32 limits -> zlen l <= max_evidence_batch limits ->
  decode_all (decode_ingest_results limits) (payload_of (encode_ingest_results limits l)) = Some l' -> l' = as_sent <$> l.
Proof.
  intros Hl%limits_u32_ok Hn Hd. destruct (enc_ok (encode_ingest_results limits l new_encoder)) eqn:Eok.
  2: { unfold payload_of, enc_take in Hd. apply negb_false_iff in Eok. rewrite Eok in Hd. done. }
  assert (Ee : encode_ingest_results limits l = encode_ingest_results limits (as_sent <$> l)).
  { unfold encode_ingest_results, enc_vector, zlen. rewrite length_fmap. f_equal. clear.
    induction l as [|r l IH]; cbn; [done|]. by rewrite encode_as_sent, IH. }
  assert (Hs : Forall (fun r => slen (ir_detail r) <= max_string_bytes limits) l).
  { unfold encode_ingest_results, enc_vector, enc_seq in Eok. apply written_results in Eok as [Hs _]; [done|].
    eapply writes_inv; [apply writes_append|apply enc_inv_new]. }
  rewrite Ee in Hd, Eok. unfold payload_of in Hd. rewrite (decode_all_roundtrip (encode_ingest_results limits (as_sent <$> l)) _ (as_sent <$> l)) in Hd; [by injection Hd| |done].
  apply rt_ingest_results; [done|]. split; [unfold zlen in *; by rewrite length_fmap|].
  apply Forall_fmap. eapply Forall_impl; [exact Hs|]. intros r. apply as_sent_wf.
Qed.

Lemma acknowledged_result limits r r' :
  limits_u32 limits ->
  decode_all (decode_ingest_result limits) (payload_of (encode_ingest_result limits r)) = Some r' -> r' = as_sent r.
Proof.
  intros Hl%limits_u32_ok Hd. destruct (enc_ok (encode_ingest_result limits r new_encoder)) eqn:Eok.
  2: { unfold payload_of, enc_take in Hd. apply negb_false_iff in Eok. rewrite Eok in Hd. done. }
  destruct (proj2 (written_result limits r new_encoder enc_inv_new) Eok) as [Hs _].
  rewrite <- encode_as_sent in Hd, Eok. unfold payload_of in Hd.
  rewrite (decode_all_roundtrip (encode_ingest_result limits (as_sent r)) _ (as_sent r)) in Hd; [by injection Hd| |done].
  by apply rt_ingest_result, as_sent_wf.
Qed.
End requests.

(** ** The order in which the registry saw the requests *)

Section order.
Context {S : Type} `{AppendLog S, StoreCounters S}.
Context (options : ServerOptions) (peer : nat -> list Z).
Implicit Types s : System S.

(** The registry after the requests [history], one after the other, each answered
    as it says. *)
Inductive sequential (registry : Impl S) : list Handled -> Impl S -> Prop :=
  | sequential_none : sequential registry [] registry
  | sequential_next history x before after :
      sequential registry history before ->
      dispatch options (ha_clock x) (ha_request x) before = (ha_type x, ha_response x, after) ->
      sequential registry (history ++ [x]) after.

(** The bytes [input] are the requests [frames], and [rest]. *)
Inductive frames_of (input : list Z) : list Frame -> list Z -> Prop :=
  | frames_none : frames_of input [] input
  | frames_next frames middle frame rest :
      frames_of input frames middle -> next_frame options middle = Some (inl frame, rest) ->
      frames_of input (frames ++ [frame]) rest.

(** A connection's part of the history, and the replies to it. *)
Definition of_connection (c : nat) (history : list Handled) : list Handled :=
  filter (fun x => ha_connection x = c) history.
Definition requests_of (c : nat) (history : list Handled) : list Frame := ha_request <$> of_connection c history.
Definition reply_of (x : Handled) : list Z := send_frame options (ha_type x) (fr_request_id (ha_request x)) (ha_response x).
Definition replies_of (c : nat) (history : list Handled) : list (list Z) := reply_of <$> of_connection c history.

(** What a thread has read and sent when it is at a stage. *)
Definition progress (c : nat) (stage : option Stage) (sent : list (list Z)) (history : list Handled) : Prop :=
  match stage with
  | None => of_connection c history = [] /\ sent = []
  | Some stage =>
      exists rest, frames_of (peer c) (requests_of c history) rest /\
        match stage with
        | AtHead input => rest = input /\ Forall2 prefix sent (replies_of c history)
        | Replying type request_id response input =>
            rest = input /\ exists answered, replies_of c history = answered ++ [send_frame options type request_id response] /\
              Forall2 prefix sent answered
        | Rejecting _ | Requesting | Announcing => Forall2 prefix sent (replies_of c history)
        | Returned => exists replies last, sent = replies ++ last /\ (length last <= 1)%nat /\
            Forall2 prefix replies (replies_of c history)
        end
  end.

Record orderly (registry : Impl S) s : Prop := {
  or_threads : reachable (so_max_connections options) (sy_threads s);
  or_history : sequential registry (sy_history s) (sh_registry (sy_shared s));
  or_clock : Forall (fun x => forall i, is_i64 (ha_clock x i)) (sy_history s);
  or_fresh : forall c, is_Some (sy_stages s !! c) ->
    (c < th_next (sy_threads s))%nat /\ th_acceptor (sy_threads s) <> Holding c /\ th_acceptor (sy_threads s) <> Spawning c;
  or_progress : forall c, progress c (sy_stages s !! c) (default [] (sy_sent s !! c)) (sy_history s);
}.

Lemma of_connection_snoc c history x :
  of_connection c (history ++ [x]) = of_connection c history ++ (if bool_decide (ha_connection x = c) then [x] else []).
Proof.
  unfold of_connection. rewrite filter_app. f_equal. case_bool_decide as E.
  - by rewrite filter_cons_True.
  - by rewrite filter_cons_False.
Qed.

Lemma progress_other c stage sent history x :
  ha_connection x <> c -> progress c stage sent history -> progress c stage sent (history ++ [x]).
Proof.
  intros Hx. unfold progress, requests_of, replies_of. rewrite of_connection_snoc, bool_decide_eq_false_2 by done.
  by rewrite app_nil_r.
Qed.

Lemma orderly_initial registry : 0 <= so_max_connections options -> orderly registry (initial registry).
Proof.
  intros Hm. split; cbn; [constructor|constructor|constructor| |done].
  intros c [stage Hs]. by rewrite lookup_empty in Hs.
Qed.

(** Only the stage and the sent bytes of one connection change. *)
Lemma orderly_local registry s c stage chunks shared :
  orderly registry s -> is_Some (sy_stages s !! c) -> sh_registry shared = sh_registry (sy_shared s) ->
  progress c (Some stage) (default [] (chunks !! c)) (sy_history s) ->
  (forall c', c' <> c -> chunks !! c' = sy_sent s !! c') ->
  orderly registry (mkSystem (sy_threads s) shared (<[c := stage]> (sy_stages s)) chunks (sy_history s)).
Proof.
  intros [H1 H2 H3 H4 H5] Hc Hreg Hp Hother. split; cbn; [done|by rewrite Hreg|done| |].
  - intros c' Hc'. apply H4. destruct (decide (c' = c)) as [->|Hne]; [done|]. by rewrite lookup_insert_ne in Hc' by done.
  - intros c'. destruct (decide (c' = c)) as [->|Hne]; [by rewrite lookup_insert_eq|].
    rewrite lookup_insert_ne by done. rewrite Hother by done. apply H5.
Qed.
Lemma orderly_handle registry s c clock s' :
  orderly registry s -> (forall i, is_i64 (clock i)) -> act options peer (Handle c clock) s = Some s' -> orderly registry s'.
Proof.
  intros Ho Hclock. cbn. destruct (sy_stages s !! c) as [[input|? ? ? ?|?| | |]|] eqn:Es; try done.
  pose proof (or_progress _ _ Ho c) as Hp. rewrite Es in Hp. destruct Hp as (rest & Hf & -> & Hsent).
  destruct (next_frame options input) as [[[request|error] rest]|] eqn:En; [| |done].
  - destruct (dispatch options clock request _) as [[type response] after] eqn:Ed. intros [= <-].
    set (x := mkHandled c clock request type response). pose proof Ho as [H1 H2 H3 H4 H5].
    split; cbn; [done|by eapply (sequential_next _ _ x)|apply Forall_app; split; [done|constructor; [done|constructor]]| |].
    + intros c' Hc'. apply H4. destruct (decide (c' = c)) as [->|Hne]; [by eexists|]. by rewrite lookup_insert_ne in Hc' by done.
    + intros c'. destruct (decide (c' = c)) as [->|Hne].
      2:{ rewrite lookup_insert_ne by done. by apply progress_other. }
      rewrite lookup_insert_eq. exists rest. unfold requests_of, replies_of.
      rewrite of_connection_snoc, bool_decide_eq_true_2 by done. rewrite !fmap_app. split; [by eapply frames_next|].
      split; [done|]. exists (replies_of c (sy_history s)). done.
  - intros [= <-]. unfold at_stage. apply (orderly_local registry s); [done|by eexists|done| |done]. by exists input.
Qed.

Lemma sent_insert c (sent : gmap nat (list (list Z))) l : default [] (<[c := l]> sent !! c) = l.
Proof. by rewrite lookup_insert_eq. Qed.

Lemma orderly_answer registry s c bytes s' :
  orderly registry s -> act options peer (Answer c bytes) s = Some s' -> orderly registry s'.
Proof.
  intros Ho. cbn. destruct (sy_stages s !! c) as [[?|type rid response input|?| | |]|] eqn:Es; try done. intros [= <-].
  pose proof (or_progress _ _ Ho c) as Hp. rewrite Es in Hp. destruct Hp as (rest & Hf & -> & answered & Er & Hsent).
  apply (orderly_local registry s); [done|by eexists|done| |by intros; apply lookup_insert_ne].
  assert (Hall : Forall2 prefix (default [] (sy_sent s !! c) ++ [take bytes (send_frame options type rid response)]) (replies_of c (sy_history s))).
  { rewrite Er. apply Forall2_app; [done|]. constructor; [|done]. apply prefix_take. }
  exists input. split; [done|]. unfold send, with_shared. cbn [sy_sent]. rewrite sent_insert. by case_bool_decide.
Qed.

Lemma orderly_reject registry s c bytes s' :
  orderly registry s -> act options peer (Reject c bytes) s = Some s' -> orderly registry s'.
Proof.
  intros Ho. cbn. destruct (sy_stages s !! c) as [[?|? ? ? ?|error| | |]|] eqn:Es; try done. intros [= <-].
  pose proof (or_progress _ _ Ho c) as Hp. rewrite Es in Hp. destruct Hp as (rest & Hf & Hsent).
  apply (orderly_local registry s); [done|by eexists|done| |by intros; apply lookup_insert_ne].
  exists rest. split; [done|]. unfold send, with_shared. cbn [sy_sent]. rewrite sent_insert. by do 2 eexists.
Qed.

Lemma orderly_return registry s c s' :
  orderly registry s ->
  act options peer (Request c) s = Some s' \/ act options peer (Announce c) s = Some s' \/ act options peer (Quit c) s = Some s' ->
  orderly registry s'.
Proof.
  intros Ho. pose proof (or_progress _ _ Ho c) as Hp. cbn.
  destruct (sy_stages s !! c) as [[?|? ? ? ?|?| | |]|] eqn:Es; intros [Ha|[Ha|Ha]]; try done; injection Ha as <-.
  - destruct Hp as (rest & Hf & _ & Hsent). apply (orderly_local registry s); [done|by eexists|done| |done].
    exists rest. split; [done|]. eexists _, []. rewrite app_nil_r. split_and!; [done|cbn; lia|done].
  - destruct Hp as (rest & Hf & Hsent). apply (orderly_local registry s); [done|by eexists|done| |done]. by exists rest.
  - destruct Hp as (rest & Hf & Hsent). apply (orderly_local registry s); [done|by eexists|done| |done].
    exists rest. split; [done|]. eexists _, []. rewrite app_nil_r. split_and!; [done|cbn; lia|done].
Qed.

(** A connection that has started is not the acceptor's again. *)
Definition passed (c : nat) (t : Threads) : Prop :=
  (c < th_next t)%nat /\ th_acceptor t <> Holding c /\ th_acceptor t <> Spawning c.

Lemma passed_step max_connections event t t' c : run max_connections event t = Some t' -> passed c t -> passed c t'.
Proof.
  intros Hrun (H1 & H2 & H3). unfold passed.
  destruct event; cbn in Hrun; repeat case_match; simplify_eq; cbn; split_and!; try done; try congruence; try lia.
  intros [= E]. lia.
Qed.

Lemma orderly_life registry s event s' :
  0 <= so_max_connections options ->
  orderly registry s -> act options peer (Life event) s = Some s' -> orderly registry s'.
Proof.
  intros Hm [H1 H2 H3 H4 H5] Ha. cbn in Ha. apply bind_Some in Ha as (t' & Hrun & Ha).
  apply bind_Some in Ha as (stages & Hst & [= <-]).
  assert (Hpass : forall c, is_Some (sy_stages s !! c) -> passed c t')
    by (intros c Hin; by eapply passed_step; [|apply H4]).
  assert (Hcase : stages = sy_stages s \/
      (exists c, event = Spawn /\ th_acceptor (sy_threads s) = Spawning c /\ stages = <[c := AtHead (peer c)]> (sy_stages s)) \/
      (exists c input, sy_stages s !! c = Some (AtHead input) /\ stages = <[c := Returned]> (sy_stages s))).
  { destruct event; cbn in Hst; repeat case_match; simplify_eq; eauto 7. }
  split; cbn; [by apply (reachable_step _ (sy_threads s) event)|done|done| |].
  - intros c Hin. destruct Hcase as [->|[(c' & -> & Eac & ->)|(c' & input & Es & ->)]]; [by apply Hpass|..];
      (destruct (decide (c = c')) as [->|Hne]; [|rewrite lookup_insert_ne in Hin by done; by apply Hpass]); [|apply Hpass; by eexists].
    pose proof (reachable_consistent _ _ Hm H1) as Hc. cbn in Hrun. rewrite Eac in Hrun. injection Hrun as <-.
    split_and!; cbn; [|done|done]. apply (co_fresh _ _ Hc). unfold held. rewrite Eac. set_solver.
  - intros c. destruct Hcase as [->|[(c' & -> & Eac & ->)|(c' & input & Es & ->)]]; [apply H5|..];
      (destruct (decide (c = c')) as [->|Hne]; [|rewrite lookup_insert_ne by done; apply H5]); rewrite lookup_insert_eq; specialize (H5 c').
    + destruct (sy_stages s !! c') as [stage|] eqn:Es.
      { destruct (H4 c') as (_ & _ & Hno); [by eexists|done]. }
      destruct H5 as [Ef Esent]. exists (peer c'). unfold requests_of, replies_of. rewrite Ef, Esent. split; [constructor|]. by split.
    + rewrite Es in H5. destruct H5 as (rest & Hf & _ & Hsent). exists rest. split; [done|].
      eexists _, []. rewrite app_nil_r. split_and!; [done|cbn; lia|done].
Qed.

Lemma served_orderly registry s :
  0 <= so_max_connections options -> served options peer registry s -> orderly registry s.
Proof.
  intros Hm. induction 1 as [|s activity s' _ IH Hty Ha]; [by apply orderly_initial|].
  destruct activity; [by eapply orderly_life|by eapply orderly_handle|by eapply orderly_answer|by eapply orderly_reject|..];
    eapply orderly_return; eauto.
Qed.
End order.

(** C5: Serving many connections is serving one request after the other. However
    the threads are scheduled, whatever the peers send, and wherever a thread is
    interrupted: the registry is in the state that the requests, taken one by one
    in the order in which it saw them, lead to, each answered as from that state;
    the requests of a connection are the frames its peer sent, in their order and
    none left out; and what the peer was sent are the replies to them, in their
    order, each whole or cut off, with at most one still to be sent and at most one
    refusal of a header after them. *)
Theorem concurrent_is_sequential {S} `{AppendLog S, StoreCounters S} options peer (registry : Impl S) s :
  is_u32 (so_max_connections options) -> served options peer registry s ->
  sequential options registry (sy_history s) (sh_registry (sy_shared s)) /\
  forall c, exists rest answered pending replies last,
    frames_of options (peer c) (requests_of c (sy_history s)) rest /\
    replies_of options c (sy_history s) = answered ++ pending /\ default [] (sy_sent s !! c) = replies ++ last /\
    Forall2 prefix replies answered /\ (length pending <= 1)%nat /\ (length last <= 1)%nat.
Proof.
  intros [Hm _] Hs. apply served_orderly in Hs as [_ Hh _ _ Hp]; [|done]. split; [done|]. intros c. specialize (Hp c).
  destruct (sy_stages s !! c) as [stage|].
  - destruct Hp as (rest & Hf & Hst). exists rest.
    destruct stage as [input|type rid response input|error| | |].
    + destruct Hst as [_ Hall]. exists (replies_of options c (sy_history s)), [], (default [] (sy_sent s !! c)), [].
      rewrite !app_nil_r. split_and!; try done; cbn; lia.
    + destruct Hst as (_ & answered & Er & Hall). exists answered, [send_frame options type rid response], (default [] (sy_sent s !! c)), [].
      rewrite app_nil_r. split_and!; try done; cbn; lia.
    + exists (replies_of options c (sy_history s)), [], (default [] (sy_sent s !! c)), []. rewrite !app_nil_r. split_and!; try done; cbn; lia.
    + exists (replies_of options c (sy_history s)), [], (default [] (sy_sent s !! c)), []. rewrite !app_nil_r. split_and!; try done; cbn; lia.
    + exists (replies_of options c (sy_history s)), [], (default [] (sy_sent s !! c)), []. rewrite !app_nil_r. split_and!; try done; cbn; lia.
    + destruct Hst as (replies & last & Es & Hl & Hall). exists (replies_of options c (sy_history s)), [], replies, last.
      rewrite app_nil_r. split_and!; try done; cbn; lia.
  - destruct Hp as [Ef Es]. exists (peer c), [], [], [], []. unfold requests_of, replies_of. rewrite Ef, Es.
    split_and!; try done; cbn; [constructor|lia..].
Qed.

(** ** Whatever clients send *)

Section clients.
Context {S : Type} `{AppendLog S, StoreCounters S}.
Context (options : ServerOptions) (Hlimits : limits_u32 (so_limits options)).
Implicit Types impl : Impl S.

(** An answer that says the record is in the registry, and was not before. *)
Definition newly_accepted (r : IngestResult) : bool :=
  is_accepted (ir_disposition r) && negb (bool_decide (ir_disposition r = IngestDisposition.Duplicate)).

(** The client was told so of the record [e]: of the one it published, or of the
    record at position [i] of the batch it published. *)
Definition acknowledged (x : Handled) (i : nat) (e : Evidence) : Prop :=
  let limits := so_limits options in
  match ha_type x with
  | MessageType.PublishAck =>
      i = 0%nat /\ decode_evidence_bytes (fr_payload (ha_request x)) limits = inl e /\
      exists r, decode_all (decode_ingest_result limits) (ha_response x) = Some r /\ newly_accepted r = true
  | MessageType.PublishBatchAck =>
      exists batch results r,
        decode_all (decode_publish_batch_request limits) (fr_payload (ha_request x)) = Some batch /\ batch !! i = Some e /\
        decode_all (decode_ingest_results limits) (ha_response x) = Some results /\ results !! i = Some r /\
        newly_accepted r = true
  | _ => False
  end.

(** The log holds the record and the time it was received. *)
Definition on_record (now : Z) (e : Evidence) impl : Prop :=
  exists payload, (RecordKind.Evidence, payload) ∈ logged impl /\
    decode_all (decode_evidence_record (im_limits impl)) payload = Some (now, e).

Definition typed_request (x : Handled) : Prop := Forall is_u8 (fr_payload (ha_request x)) /\ forall i, is_i64 (ha_clock x i).

Lemma receive_u8 count input data rest : receive_exact count input = Some (data, rest) -> Forall is_u8 input -> Forall is_u8 data /\ Forall is_u8 rest.
Proof. unfold receive_exact. destruct (_ <? _); [done|]. intros [= <- <-] Hu. split; [by apply Forall_take|by apply Forall_drop]. Qed.

Lemma next_frame_u8 input frame rest :
  next_frame options input = Some (inl frame, rest) -> Forall is_u8 input -> Forall is_u8 (fr_payload frame) /\ Forall is_u8 rest.
Proof.
  unfold next_frame. destruct (receive_exact kFrameHeaderBytes input) as [[header body]|] eqn:E; [|done]. intros Hn Hu.
  destruct (receive_u8 _ _ _ _ E Hu) as [_ Hb]. destruct (decode_frame_header _ _) as [[[type rid] count]|error]; [|done].
  apply bind_Some in Hn as ([payload body'] & Er & [= <- <-]). by apply (receive_u8 count body).
Qed.

Lemma received_frames_u8 input frames rest :
  frames_of options input frames rest -> Forall is_u8 input ->
  Forall (fun f => Forall is_u8 (fr_payload f)) frames /\ Forall is_u8 rest.
Proof.
  intros Hf Hu. induction Hf as [|frames middle frame rest _ [IH1 IH2] Hn]; [by split|].
  destruct (next_frame_u8 _ _ _ Hn IH2). split; [|done]. apply Forall_app. split; [done|]. constructor; [done|constructor].
Qed.

(** Publishing is the only request that is acknowledged so. *)
Lemma acknowledged_ingest clock request impl response impl' :
  dispatch options clock request impl = (MessageType.PublishAck, response, impl') ->
  exists e r, decode_evidence_bytes (fr_payload request) (so_limits options) = inl e /\
    registry_ingest (clock 0%nat) e impl = (r, impl') /\ response = payload_of (encode_ingest_result (so_limits options) r).
Proof.
  unfold dispatch, fail_with, answer. destruct (fr_type request); try done; repeat case_match; try done. intros [= <- <-]. by do 2 eexists.
Qed.

Lemma acknowledged_batch clock request impl response impl' :
  dispatch options clock request impl = (MessageType.PublishBatchAck, response, impl') ->
  exists batch results, decode_all (decode_publish_batch_request (so_limits options)) (fr_payload request) = Some batch /\
    registry_ingest_batch clock batch impl = (results, impl') /\
    response = payload_of (encode_ingest_results (so_limits options) results).
Proof.
  unfold dispatch, fail_with, answer. destruct (fr_type request); try done; repeat case_match; try done. intros [= <- <-]. by do 2 eexists.
Qed.

Lemma newly_accepted_sent r : newly_accepted (as_sent r) = newly_accepted r.
Proof. done. Qed.

Lemma newly_accepted_spec r :
  newly_accepted r = true -> is_accepted (ir_disposition r) = true /\ ir_disposition r <> IngestDisposition.Duplicate.
Proof. intros [H1 H2%negb_true_iff]%andb_prop. by apply bool_decide_eq_false in H2. Qed.

Lemma on_record_later now e impl impl' :
  logged impl `prefix_of` logged impl' -> im_limits impl' = im_limits impl -> on_record now e impl -> on_record now e impl'.
Proof.
  intros [more Hp] El (payload & Hin & Hdec). exists payload. rewrite El, Hp. split; [|done]. apply elem_of_app. by left.
Qed.

Lemma ingest_on_record now e impl r impl' :
  limits_u32 (im_limits impl) -> is_Some (im_store impl) -> is_i64 now -> typed_evidence e ->
  registry_ingest now e impl = (r, impl') -> newly_accepted r = true -> on_record now e impl'.
Proof.
  intros Hl Hst Hn He Hi [Hacc Hdup]%newly_accepted_spec.
  destruct (accepted_is_logged now e impl r impl') as (payload & Hlog & Hdec); try done.
  exists payload. pose proof (ingest_config e now true true impl) as [El _]. unfold registry_ingest in Hi. rewrite Hi in El. cbn [snd] in El.
  rewrite Hlog, El. split; [set_solver|done].
Qed.

Lemma ingest_store e now persist live impl :
  is_Some (im_store impl) -> is_Some (im_store (ingest_locked e now persist live impl).2).
Proof.
  intros Hs. destruct (ingest_locked e now persist live impl) as [r impl'] eqn:E.
  apply ingest_cases in E as [|source session d t impl1 refusals hdr key _ _ _ _ _ Hcase]; [done|].
  destruct Hcase as [|? ? ? ? _ _ _ _ _ _ _ _ Hst|dec cache store _ _ _ Hst _]; cbn; [done|by apply Hst|].
  by apply Hst.
Qed.

Lemma ingest_all_length now evidence impl results impl' :
  ingest_all now evidence impl = (results, impl') -> length results = length evidence.
Proof.
  revert now impl results. induction evidence as [|e evidence IH]; intros now impl results; cbn; [by intros [= <- _]|].
  destruct (ingest_locked _ _ _ _ _) as [r impl1]. destruct (ingest_all _ evidence impl1) as [rest impl2] eqn:E.
  intros [= <- <-]. cbn. f_equal. by eapply IH.
Qed.

(** Each record of a batch. *)
Lemma ingest_all_on_record now evidence impl results impl' i e r :
  limits_u32 (im_limits impl) -> is_Some (im_store impl) -> (forall k, is_i64 (now k)) -> Forall typed_evidence evidence ->
  ingest_all now evidence impl = (results, impl') ->
  evidence !! i = Some e -> results !! i = Some r -> newly_accepted r = true -> on_record (now i) e impl'.
Proof.
  intros Hl Hst Hn Hty. revert now impl results i Hl Hst Hn. induction Hty as [|e0 evidence He0 Hty IH]; intros now impl results i Hl Hst Hn; [done|].
  cbn [ingest_all]. destruct (ingest_locked e0 (now 0%nat) true true impl) as [r0 impl1] eqn:E0.
  destruct (ingest_all (fun k => now (Datatypes.S k)) evidence impl1) as [rest impl2] eqn:E1. intros [= <- <-].
  pose proof (ingest_config e0 (now 0%nat) true true impl) as [El _]. rewrite E0 in El. cbn [snd] in El.
  destruct i as [|i]; cbn [lookup list_lookup].
  - intros [= ->] [= ->] Hr. pose proof (ingest_on_record (now 0%nat) e impl r impl1 Hl Hst (Hn 0%nat) He0 E0 Hr) as Hon.
    pose proof (ingest_all_grows (fun k => now (Datatypes.S k)) evidence impl1) as Hg. rewrite E1 in Hg. cbn [snd] in Hg.
    apply (on_record_later _ _ impl1); [done| |done]. pose proof (ingest_all_config (fun k => now (Datatypes.S k)) evidence impl1) as [El2 _].
    by rewrite E1 in El2.
  - intros Hi Hri Hr. apply (IH (fun k => now (Datatypes.S k)) impl1 rest i); try done; [by rewrite El|].
    pose proof (ingest_store e0 (now 0%nat) true true impl Hst) as Hs. by rewrite E0 in Hs.
Qed.

Lemma request_on_record x i e before after :
  impl_wf before -> is_Some (im_store before) -> typed_request x ->
  dispatch options (ha_clock x) (ha_request x) before = (ha_type x, ha_response x, after) ->
  acknowledged x i e -> on_record (ha_clock x i) e after.
Proof using Hlimits.
  intros Hwf Hst [Hu Hc] Hd Hack. unfold acknowledged in Hack. destruct (ha_type x); try done.
  - destruct Hack as (-> & He & r & Hr & Hnew).
    apply acknowledged_ingest in Hd as (e' & r0 & He' & Hi & Hresp). rewrite He in He'. injection He' as <-.
    rewrite Hresp in Hr. apply acknowledged_result in Hr as ->; [|done].
    apply (ingest_on_record _ _ before r0); try done; [apply Hwf|]. by apply (publish_request_typed (so_limits options) (fr_payload (ha_request x))).
  - destruct Hack as (batch & results & r & Hb & Hbe & Hrs & Hri & Hnew).
    apply acknowledged_batch in Hd as (batch' & results0 & Hb' & Hi & Hresp). rewrite Hb in Hb'. injection Hb' as <-.
    destruct (batch_request_wf _ _ _ Hlimits Hu Hb) as [Hbound Hty]. unfold registry_ingest_batch in Hi.
    set (few := take _ batch) in Hi.
    assert (Hlen : length results0 = length few) by (by eapply ingest_all_length).
    rewrite Hresp in Hrs. apply acknowledged_results in Hrs as ->; [|done|].
    2: { unfold zlen, few in *. rewrite length_take in Hlen. lia. }
    rewrite list_lookup_fmap in Hri. destruct (results0 !! i) as [r0|] eqn:Er0; [|done]. injection Hri as <-.
    assert (Hfew : few !! i = Some e).
    { apply lookup_lt_Some in Er0. unfold few in *. rewrite length_take in Hlen. rewrite lookup_take_Some. split; [done|lia]. }
    apply (ingest_all_on_record (ha_clock x) few before results0 after i e r0); try done; [apply Hwf|]. by apply Forall_take.
Qed.

(** The requests of a history are calls of the registry, and what they
    acknowledged is on record. *)
Lemma sequential_durable registry history impl :
  sequential options registry history impl -> Forall typed_request history ->
  impl_inv registry -> impl_wf registry -> recoverable registry ->
  rtc durable_step registry impl /\ forall x i e, x ∈ history -> acknowledged x i e -> on_record (ha_clock x i) e impl.
Proof using Hlimits.
  intros Hseq Hty Hinv Hwf Hrec. induction Hseq as [|history x before after Hseq IH Hd].
  { split; [constructor|]. intros x i e Hx. by apply not_elem_of_nil in Hx. }
  apply Forall_app in Hty as [Hty Hx]. apply Forall_cons in Hx as [Hx _]. destruct (IH Hty) as [Hsteps Hon].
  destruct (durable_recoverable _ _ Hsteps Hinv Hwf Hrec) as (Hinv' & Hwf' & Hrec').
  assert (Hstep : rtc durable_step before after /\ logged before `prefix_of` logged after).
  { destruct Hx as [Hu Hc]. destruct (dispatch_call options _ _ _ _ _ _ Hlimits Hu Hc Hd) as [->|Hcall].
    - split; [constructor|done].
    - split; [apply rtc_once; by constructor|by apply call_grows]. }
  destruct Hstep as [Hstep Hpre]. destruct (durable_config _ _ Hstep) as [El _].
  split; [by etrans|]. intros y i e [Hy| ->%list_elem_of_singleton]%elem_of_app Hack.
  - by apply (on_record_later _ _ before), Hon.
  - apply (request_on_record _ _ _ before); try done. apply Hrec'.
Qed.
End clients.

Lemma served_typed {S} `{AppendLog S, StoreCounters S} options peer (registry : Impl S) s :
  0 <= so_max_connections options -> (forall c, Forall is_u8 (peer c)) -> served options peer registry s ->
  Forall typed_request (sy_history s).
Proof.
  intros Hm Hu Hs. apply served_orderly in Hs as [_ _ Hclock _ Hp]; [|done].
  apply Forall_forall. intros x Hx. split; [|by apply (proj1 (Forall_forall _ _) Hclock)].
  specialize (Hp (ha_connection x)). 
  assert (Hin : x ∈ of_connection (ha_connection x) (sy_history s)) by (by apply list_elem_of_filter).
  destruct (sy_stages s !! ha_connection x) as [stage|]; [|destruct Hp as [Ef _]; rewrite Ef in Hin; by apply not_elem_of_nil in Hin].
  destruct Hp as (rest & Hf & _). destruct (received_frames_u8 options _ _ _ Hf (Hu _)) as [Hall _].
  apply (proj1 (Forall_forall _ _) Hall). unfold requests_of. by apply list_elem_of_fmap_2.
Qed.

(** C4: No client can do harm. A registry is opened on a new store and served to any
    number of connections at once, whose peers send any bytes whatever. At every
    point, in every schedule: the invariant of the registry holds and its integers
    fit their types; every record that any client was told is newly accepted (not
    one reported as a duplicate), in the answer to a single record or at its place
    in the answer to a batch, is in the log, readable, with the time it was received; and if the process ends there,
    opening the log again recovers the evidence. *)
Theorem clients_do_no_harm {S} `{AppendLog S, StoreCounters S} ro draws now report store (registry : Impl S) options peer s :
  typed_options ro -> is_u64 draws.1 -> is_u64 draws.2 -> is_i64 now ->
  log_records store = [] -> rr_created report = true ->
  registry_open ro draws now (Some (report, inl store)) = inl registry ->
  limits_u32 (so_limits options) -> is_u32 (so_max_connections options) -> (forall c, Forall is_u8 (peer c)) ->
  served options peer registry s ->
  let impl := sh_registry (sy_shared s) in
  impl_inv impl /\ impl_wf impl /\
  (forall x i e, x ∈ sy_history s -> acknowledged options x i e -> on_record (ha_clock x i) e impl) /\
  forall draws' now' report' store' store'',
    log_visit store' = (store'', (logged impl, inl tt)) -> rr_created report' = false ->
    exists impl', registry_open ro draws' now' (Some (report', inl store')) = inl impl' /\ recovered impl impl'.
Proof.
  intros Hopt Hd1 Hd2 Hn Hempty Hcr Hopen Hlim [Hm _] Hu Hs. cbn zeta.
  destruct (open_created _ _ _ _ _ _ Hopt Hd1 Hd2 Hn Hempty Hcr Hopen) as (Hinv0 & Hwf0 & Hrec0 & _).
  pose proof (served_typed options peer registry s Hm Hu Hs) as Hty.
  apply served_orderly in Hs as [_ Hseq _ _ _]; [|done].
  destruct (sequential_durable options Hlim registry _ _ Hseq Hty Hinv0 Hwf0 Hrec0) as [Hsteps Hon].
  destruct (durable_recoverable _ _ Hsteps Hinv0 Hwf0 Hrec0) as (Hinv & Hwf & _).
  split_and!; [done|done|done|]. intros draws' now' report' store' store'' Hvis Hcr'.
  by apply (restarted ro draws now report store registry _ draws' now' report' store' store'').
Qed.

(** ** A thread that is not interrupted

    A whole frame that is handled, answered in full and, for [Shutdown], noted,
    with nothing in between, is one turn of [serve_connection] of [Server.v]. *)

Definition act_all {S} `{AppendLog S, StoreCounters S} options peer (activities : list Activity) (s : System S) : option (System S) :=
  foldl (fun s activity => s ≫= act options peer activity) (Some s) activities.

Theorem uninterrupted_turn {S} `{AppendLog S, StoreCounters S} options peer (s : System S) c clock input sent shared next :
  sy_stages s !! c = Some (AtHead input) -> is_Some (next_frame options input) ->
  serve_frame options clock input (sy_shared s) = (sent, shared, next) ->
  exists activities s', act_all options peer activities s = Some s' /\ sy_shared s' = shared /\
    sy_sent s' = <[c := default [] (sy_sent s !! c) ++ [sent]]> (sy_sent s) /\
    sy_stages s' !! c = Some (match next with Some rest => AtHead rest | None => Returned end).
Proof.
  intros Hst [[o rest] Hn] Hf. unfold serve_frame in Hf. pose proof Hn as Hn'. unfold next_frame in Hn'.
  destruct (receive_exact kFrameHeaderBytes input) as [[header body]|]; [|done].
  destruct (decode_frame_header header _) as [[[type rid] count]|error] eqn:Eh.
  - apply bind_Some in Hn' as ([payload body'] & Er & [= <- <-]). rewrite Er in Hf.
    destruct (dispatch options clock _ _) as [[rtype response] registry] eqn:Ed. injection Hf as <- <- <-.
    set (frame := send_frame options rtype rid response).
    exists (Handle c clock :: Answer c (length frame) :: (if bool_decide (rtype = MessageType.ShutdownAck) then [Request c; Announce c] else [])).
    unfold act_all. cbn [foldl mbind option_bind act]. rewrite Hst, Hn, Ed. cbn [mbind option_bind act sy_stages at_stage].
    rewrite lookup_insert_eq. unfold frame.
    case_bool_decide; repeat (progress (cbn -[send_frame take]; rewrite ?lookup_insert_eq));
      eexists; (split; [reflexivity|]); cbn -[send_frame take]; rewrite ?lookup_insert_eq, firstn_all, ?orb_true_r, ?orb_false_r; done.
  - injection Hn' as <- <-. injection Hf as <- <- <-.
    set (frame := send_frame options MessageType.Failure 0 _).
    exists [Handle c clock; Reject c (length frame)]. unfold act_all. cbn [foldl mbind option_bind act]. rewrite Hst, Hn.
    cbn [mbind option_bind act sy_stages at_stage]. rewrite lookup_insert_eq. eexists. split; [reflexivity|]. cbn -[send_frame take].
    rewrite ?lookup_insert_eq. fold frame. by rewrite firstn_all.
Qed.
