(* ===== verification/Guarantees.v ===== *)
(** * Guarantees of the registry

    The theorems that put the components together: the invariant of every
    reachable registry, the refinement of the side derivation to its
    specification, the round trips of what
    is written to the log, and the rules about retirement and labels. *)
From S2P Require Import Prelude OrdMap Types Ids Graph Codec Serialization State StateCodec Fold Derive Log Admit Ingest Session Recovery Invariant WellFormed Replica Views Durability.
#[local] Open Scope Z_scope.

(** ** Reachable registries *)

(** A registry in memory, or on a store that was just created. *)
Definition new_store {S} `{AppendLog S} (store_open : option (RecoveryReport * Outcome S)) : Prop :=
  match store_open with
  | None => True
  | Some (report, inl store) => rr_created report = true /\ log_records store = []
  | Some (_, inr _) => False
  end.

Lemma open_new_inv {S} `{AppendLog S} options draws now store_open (impl : Impl S) :
  typed_options options -> is_u64 draws.1 -> is_u64 draws.2 -> is_i64 now -> new_store store_open ->
  registry_open options draws now store_open = inl impl -> impl_inv impl /\ impl_wf impl.
Proof.
  intros Hopt Hd1 Hd2 Hn Hnew Hopen. destruct store_open as [[report [store|err]]|]; [|done|].
  - destruct Hnew as [Hcr Hempty].
    by destruct (open_created _ _ _ _ _ _ Hopt Hd1 Hd2 Hn Hempty Hcr Hopen) as (Hinv & Hwf & _).
  - revert Hopen. unfold registry_open. destruct (validate_limits (op_limits options)) as [[]|] eqn:Hv; [|done].
    destruct (Z.eqb_spec (op_history_per_key options) 0) as [|Hh]; [done|]. intros [= <-].
    pose proof (fresh_impl_inv (S := S) options now Hv Hopt Hh) as Hinv. pose proof Hopt as (Hu & Hhp & Hid).
    destruct (validate_limits_positive _ Hv Hu) as (? & ? & ? & ?).
    assert (Hs : forall id, id_ok id -> impl_inv (forget_process (set_state (empty_state id now) (fresh_impl options now)) : Impl S)
      /\ impl_wf (forget_process (set_state (empty_state id now) (fresh_impl options now)) : Impl S)).
    { intros id Hi. split; split; cbn; try done; [lia|apply state_inv_empty; lia|lia|by apply empty_state_wf]. }
    destruct (is_nil (op_id options)); [apply Hs; by apply mint_id_ok|by apply Hs].
Qed.

(** C9: The registry invariant. Whatever sequence of public calls follows the
    opening of a registry, in memory or on a new store: the tables are sorted by
    key and every record sits under the session that sent it, every session
    belongs to a described source that has reached its incarnation, the sources,
    the registered objects and the registered endpoints stay within their limits
    (the other bounds are not part of it), every supersession ring is sorted,
    within the history bound and, except for reincarnations, older than its
    winner, every stored integer is within its machine width, and the label
    index lists every registered label whenever it claims to be valid. *)
Theorem reachable_registry_invariant {S} `{AppendLog S} options draws now store_open (impl0 impl : Impl S) :
  typed_options options -> is_u64 draws.1 -> is_u64 draws.2 -> is_i64 now -> new_store store_open ->
  registry_open options draws now store_open = inl impl0 ->
  reachable impl0 impl ->
  impl_inv impl /\ impl_wf impl.
Proof.
  intros Hopt Hd1 Hd2 Hn Hnew Hopen Hr. destruct (open_new_inv _ _ _ _ _ Hopt Hd1 Hd2 Hn Hnew Hopen) as [Hinv Hwf].
  split; [by eapply reachable_inv|by eapply reachable_wf].
Qed.

(** ** Codecs *)

(** The evidence codec is faithful. A record that passes the shape checks
    and whose integers fit their C++ types is read back exactly: if
    [encode_evidence] produced bytes at all, then [decode_evidence] on those
    bytes succeeds, consumes all of them and returns the record. *)
Theorem evidence_roundtrip limits e :
  limits_u32 limits -> typed_evidence e -> validate_evidence_shape e limits = None ->
  encode_evidence_bytes e limits <> [] ->
  decode_evidence_bytes (encode_evidence_bytes e limits) limits = inl e.
Proof.
  intros Hl Ht Hv Hne. unfold encode_evidence_bytes in *.
  assert (Hok : enc_ok (encode_evidence limits e new_encoder) = true).
  { unfold enc_take in Hne. unfold enc_ok. by destruct (enc_failed _). }
  destruct (roundtrip_ok _ _ _ (rt_evidence _ (limits_u32_ok _ Hl) _ (validated_wf _ _ Hv Ht)) Hok) as (d & E & Hd).
  unfold decode_evidence_bytes. by rewrite E, Hd.
Qed.

(** ** Derivations *)

(** C23: The state of an object side is exactly what its specification allows.
    [derive_subject] reports a state and ports that satisfy [side_spec], which
    speaks only of the live claims about the side, and any state and ports that
    satisfy it are the ones reported: the highest authority decides, equal
    authorities that disagree are a conflict, and a side claimed at several
    ports is conflicting and lists each of them once, in order. *)
Theorem side_derivation_refines_spec state subject policy v ports :
  side_spec state policy subject (sj_state (derive_subject state subject policy))
    (sj_ports (derive_subject state subject policy)) /\
  (side_spec state policy subject v ports ->
   v = sj_state (derive_subject state subject policy) /\
   forall port, port ∈ ports <-> port ∈ sj_ports (derive_subject state subject policy)).
Proof.
  pose proof (derive_subject_meets_spec state subject policy) as Hm. split; [exact Hm|].
  intros Hs. exact (side_spec_functional _ _ _ _ _ _ _ Hs Hm).
Qed.

(** Retirement wins. If, among the records about an object's current
    incarnation from sessions that are not fenced, one of the highest authority
    retires it and none of that authority is a reincarnation, then the object is
    retired without conflict, whatever else is claimed, and no port view of any
    policy shows an edge to it. *)
Theorem retirement_wins state object c :
  let candidates := lifecycle_candidates state object in
  c ∈ candidates -> ca_action c = LifecycleAction.Retired -> ca_authority c = best_authority candidates ->
  (forall c', c' ∈ candidates -> ca_authority c' = best_authority candidates -> ca_from_reincarnation c' = false) ->
  (lifecycle_action_of state object).1 = (LifecycleAction.Retired, false) /\
  object_excluded state object = true /\
  forall limits port policy edge, edge ∈ pv_edges (derive_port_view state limits port policy) ->
    side_object (ae_subject edge) <> object.
Proof.
  cbn zeta. intros Hin Hact Hbest Hnone.
  assert (Hret : (lifecycle_action_of state object).1 = (LifecycleAction.Retired, false)).
  { unfold lifecycle_action_of. destruct (lifecycle_candidates state object) as [|c0 l] eqn:El; [inversion Hin|].
    rewrite <- El in *. cbn [fst]. apply ruling_retired.
    - apply saw_true. exists c. split; [|done]. apply list_elem_of_filter. by rewrite keqb_eq.
    - intros c' [Ha Hc']%list_elem_of_filter. apply keqb_eq in Ha. auto. }
  assert (Hexc : object_excluded state object = true).
  { unfold object_excluded. destruct (lifecycle_action_of state object) as [[a b] m]. cbn in Hret. by injection Hret as -> ->. }
  split_and!; [done|done|]. intros limits port policy edge He <-.
  destruct (edge_subject_live _ _ _ _ _ He) as (r & Hr & Hs).
  destruct (live_record_spec _ _ _ _ Hr) as (_ & _ & _ & Hx & _). rewrite Hs in Hx. congruence.
Qed.

(** ** The label index *)

(** The label index is only a cache. For every record and every state, the
    decision taken with an index that is valid and complete equals the decision
    taken with no index at all, which rebuilds one by scanning every
    registration; and the index left behind is again complete if it is valid. *)
Theorem label_index_is_a_cache limits state meta cache e :
  labels_ok state cache ->
  (decide_evidence limits state meta cache e).1 = (decide_evidence limits state meta (mkLabelCache [] false) e).1 /\
  labels_ok state (decide_evidence limits state meta cache e).2.
Proof. intros Hok. split; [by apply decide_cache_irrelevant|by apply decide_cache_ok]. Qed.

(** ** Arithmetic *)

(** The checked arithmetic of the codec is exact. On 64-bit operands
    [checked_add] and [checked_mul] return the true sum and product when they
    fit 64 bits and fail otherwise; they never return a wrapped value. *)
Theorem checked_arithmetic_exact a b :
  is_u64 a -> is_u64 b ->
  checked_add a b = (if a + b <? 2 ^ 64 then Some (a + b) else None) /\
  checked_mul a b = (if a * b <? 2 ^ 64 then Some (a * b) else None).
Proof. intros Ha Hb. split; [by apply checked_add_spec|by apply checked_mul_spec]. Qed.
