(* ===== verification/Twins.v ===== *)
(** * Independent registries given the same evidence

    Two registries of the same configuration that are sent the same sessions and
    records, in the same order, hold the same evidence: their clocks, their
    identities, their stores and everything they did before being opened play no
    part.  The relation is replication up to the times at which the records were
    received. *)
From S2P Require Import Prelude OrdMap Types Ids Graph Codec Serialization State Fold Derive Log Snapshot Admit Ingest Session Recovery Invariant WellFormed Replica SnapshotBuild Durability Guarantees.
#[local] Open Scope Z_scope.

Definition forget_received : Forgets := false.

Record twins {S1 S2 : Type} (a : Impl S1) (b : Impl S2) : Prop := {
  tw_limits : im_limits a = im_limits b;
  tw_history : im_history_per_key a = im_history_per_key b;
  tw_closed : im_closed a = im_closed b;
  tw_store : is_Some (im_store a) <-> is_Some (im_store b);
  tw_state : replica (H := forget_received) (im_state a) (im_state b);
  tw_first : impl_inv a;
  tw_second : impl_inv b;
}.

(** The store did what it was asked. *)
Definition stored (disposition : IngestDisposition.t) : bool :=
  negb (bool_decide (disposition = IngestDisposition.RefusedPersistence)).
Definition session_stored (disposition : OpenSessionDisposition.t) : bool :=
  negb (bool_decide (disposition = OpenSessionDisposition.RefusedPersistence)).

(** Whether a session record can be encoded does not depend on the time in it. *)
Lemma encode_open_time limits d i t1 t2 :
  enc_ok (encode_session_open limits d i t1 new_encoder) = enc_ok (encode_session_open limits d i t2 new_encoder).
Proof.
  unfold encode_session_open, enc_seq, enc_i64, enc_u64. generalize (enc_u64 i (encode_source_descriptor limits d new_encoder)).
  intros e0. unfold append_bytes, zlen. rewrite !le_bytes_length. by destruct (reserve_for _ _) as [? []].
Qed.

Lemma log_open_cases {S} `{AppendLog S} d i t (a a' : Impl S) res :
  log_session_open d i t a = (res, a') ->
  exists store, a' = set_store store a /\ (is_Some store <-> is_Some (im_store a)) /\
  match res with
  | Some (disposition, _) => disposition = OpenSessionDisposition.RefusedPersistence \/
      disposition = OpenSessionDisposition.RefusedInvalid /\ is_Some (im_store a) /\
        enc_ok (encode_session_open (im_limits a) d i t new_encoder) = false
  | None => is_Some (im_store a) -> enc_ok (encode_session_open (im_limits a) d i t new_encoder) = true
  end.
Proof.
  unfold log_session_open. destruct (im_store a) as [store|] eqn:Es.
  2: { intros [= <- <-]. exists None. split_and!; [by destruct a; cbn in *; subst|done|by intros []]. }
  destruct (enc_ok _) eqn:Eok; cbn [negb].
  2: { intros [= <- <-]. exists (Some store). split_and!; [by destruct a; cbn in *; subst|done|]. right.
       split_and!; [done|by eexists|done]. }
  destruct (log_append _ _ store) as [store' [[]|error]]; intros [= <- <-]; exists (Some store').
  - split_and!; [done|split; by eexists|done].
  - split_and!; [done|split; by eexists|by left].
Qed.

Section twins.
Context {S1 S2 : Type} `{AppendLog S1, AppendLog S2}.
Implicit Types (a : Impl S1) (b : Impl S2).
#[local] Existing Instance forget_received.

Lemma twins_refusals x1 x2 a b : twins a b -> twins (set_refusals x1 a) (set_refusals x2 b).
Proof. intros []. split; try done; [by apply (impl_inv_same a)|by apply (impl_inv_same b)]. Qed.

(** Deciding and applying one record. *)
Lemma twin_commit e t1 t2 authority a b d1 x1 a' d2 x2 b' :
  twins a b ->
  commit e t1 true (attestation_of e authority t1 true) a = (d1, x1, a') ->
  commit e t2 true (attestation_of e authority t2 true) b = (d2, x2, b') ->
  stored d1 = true -> stored d2 = true ->
  d1 = d2 /\ im_state a' ≈ im_state b' /\ (is_Some (im_store a') <-> is_Some (im_store b')) /\
  im_limits a' = im_limits a /\ im_limits b' = im_limits b /\
  im_history_per_key a' = im_history_per_key a /\ im_history_per_key b' = im_history_per_key b /\
  im_closed a' = im_closed a /\ im_closed b' = im_closed b.
Proof.
  intros [Hl Hh Hc Hst Hr I1 I2] C1%commit_cases C2%commit_cases P1 P2.
  pose proof (decide_replica (im_limits b) (im_state a) (im_state b) (attestation_of e authority t1 true)
    (attestation_of e authority t2 true) (im_labels a) (im_labels b) e Hr eq_refl (ii_labels _ I1) (ii_labels _ I2)) as Hd.
  destruct C1 as [d c E1 A1|d c text a' E1|d c store E1 A1 B1 Hs1 _]; [|done|];
    (destruct C2 as [d' c' E2 A2|d' c' text' b' E2|d' c' store' E2 A2 B2 Hs2 _]; [|done|]);
    rewrite Hl in E1; rewrite E1, E2 in Hd; cbn [fst] in Hd;
    pose proof (f_equal dc_disposition Hd : dc_disposition d = dc_disposition d') as Ed;
    pose proof (f_equal dc_change Hd : clear_change (dc_change d) = clear_change (dc_change d')) as Ech;
    pose proof (f_equal sc_apply Ech : sc_apply (dc_change d) = sc_apply (dc_change d')) as Ea; try congruence.
  - done.
  - split_and!; try done; cbn -[apply_tables]; [|by rewrite Hs1, Hs2]. rewrite Hh. by apply apply_tables_replica.
Qed.

(** A record whose session is known goes to [commit]; any other is refused and
    changes nothing. *)
Lemma twin_ingest e t1 t2 a b :
  twins a b ->
  let '(r1, a') := registry_ingest t1 e a in
  let '(r2, b') := registry_ingest t2 e b in
  stored (ir_disposition r1) = true -> stored (ir_disposition r2) = true ->
  ir_disposition r1 = ir_disposition r2 /\ twins a' b'.
Proof.
  intros Ht. pose proof Ht as [Hl Hh Hc Hst Hr I1 I2].
  pose proof (ingest_inv e t1 true true a I1) as J1. pose proof (ingest_inv e t2 true true b I2) as J2.
  set (key := mkKey (hdr_source (ev_header e)) (hdr_incarnation (ev_header e))).
  pose proof (replica_has_session _ _ key Hr) as Hses. unfold has_session in Hses.
  pose proof (replica_sources _ _ Hr) as Hsrc.
  pose proof (ingest_known e t1 true true a) as K1. pose proof (ingest_known e t2 true true b) as K2. fold key in K1, K2.
  unfold registry_ingest in *.
  destruct (im_closed a) eqn:Ec; [unfold ingest_locked in *; by rewrite Ec, <- Hc in *|].
  destruct (validate_evidence_shape e (im_limits a)) as [error|] eqn:Ev.
  { unfold ingest_locked in *. rewrite Ec, <- Hc, <- Hl, Ev in *. split; [done|]. by apply twins_refusals. }
  destruct (map_find (hdr_source (ev_header e)) (rs_sources (im_state a))) as [source|] eqn:Es.
  2: { unfold ingest_locked in *. rewrite Ec, <- Hc, <- Hl, Ev, <- Hsrc, Es in *. split; [done|]. by apply twins_refusals. }
  destruct (sr_described source) eqn:Edesc.
  2: { unfold ingest_locked in *. rewrite Ec, <- Hc, <- Hl, Ev, <- Hsrc, Es, Edesc in *. split; [done|]. by apply twins_refusals. }
  destruct (map_find key (rs_sessions (im_state a))) as [session|] eqn:E1.
  2: { assert (E2 : map_find key (rs_sessions (im_state b)) = None).
       { apply eq_None_not_Some. rewrite <- Hses. by intros [? ?]. }
       unfold ingest_locked in *. fold key. rewrite Ec, <- Hc, <- Hl, Ev, <- Hsrc, Es, Edesc, E1, E2 in *. split; [done|].
       by apply twins_refusals. }
  destruct (proj1 Hses ltac:(by eexists)) as [session' E2].
  specialize (K1 source session eq_refl eq_refl eq_refl Edesc eq_refl).
  rewrite <- Hc, <- Hl, <- Hsrc in K2. specialize (K2 source session' eq_refl Ev Es Edesc E2).
  destruct (commit e t1 _ _ a) as [[d1 x1] a1] eqn:C1. destruct (commit e t2 _ _ b) as [[d2 x2] b1] eqn:C2.
  destruct (ingest_locked e t1 true true a) as [r1 a'], (ingest_locked e t2 true true b) as [r2 b']. cbn [fst snd] in *.
  destruct K1 as [-> [y1 ->]], K2 as [-> [y2 ->]]. intros P1 P2.
  destruct (twin_commit _ _ _ _ _ _ _ _ _ _ _ _ Ht C1 C2 P1 P2) as (-> & Hr' & Hst' & L1 & L2 & H1 & H2 & D1 & D2).
  split; [done|]. split; cbn; [by rewrite L1, L2|by rewrite H1, H2|by rewrite D1, D2, Ec|done| |done|done].
  pose proof (commit_sessions _ _ _ _ _ _ _ _ (commit_cases _ _ _ _ _ _ _ _ C1)) as S1'.
  pose proof (commit_sessions _ _ _ _ _ _ _ _ (commit_cases _ _ _ _ _ _ _ _ C2)) as S2'.
  rewrite !set_sessions_replica; [done|rewrite S2'; apply (ii_state _ I2)|unfold has_session; rewrite S2', E2; by eexists
    |rewrite S1'; apply (ii_state _ I1)|unfold has_session; rewrite S1', E1; by eexists].
Qed.

(** Opening a session. Whether it resumes or reopens one depends on the process,
    what it does to the evidence does not. *)
Lemma twin_open d i t1 u1 t2 u2 a b :
  twins a b ->
  let '(r1, a') := open_session d i t1 u1 a in
  let '(r2, b') := open_session d i t2 u2 b in
  session_stored (os_disposition r1) = true -> session_stored (os_disposition r2) = true -> twins a' b'.
Proof.
  intros Ht. pose proof Ht as [Hl Hh Hc Hst Hr I1 I2]. pose proof (replica_sources _ _ Hr) as Hsrc.
  pose proof (open_session_inv d i t1 u1 a I1) as J1. pose proof (open_session_inv d i t2 u2 b I2) as J2.
  assert (Href : open_session_refusal d i a = open_session_refusal d i b)
    by (unfold open_session_refusal; by rewrite Hl, Hc, Hsrc).
  unfold open_session in *. rewrite Href in *. destruct (open_session_refusal d i b) as [[[? ?] ?]|]; [done|].
  destruct (log_session_open d i t1 a) as [res1 a1] eqn:L1. destruct (log_session_open d i t2 b) as [res2 b1] eqn:L2.
  apply log_open_cases in L1 as (s1 & -> & Hs1 & R1), L2 as (s2 & -> & Hs2 & R2).
  assert (Hst' : is_Some (im_store (set_store s1 a)) <-> is_Some (im_store (set_store s2 b)))
    by (cbn; by rewrite Hs1, Hs2).
  rewrite Hl, (encode_open_time _ _ _ t1 t2) in R1.
  destruct res1 as [[d1 x1]|], res2 as [[d2 x2]|].
  - intros P1 P2. cbn [fst snd] in *. by split.
  - destruct (if negb _ || _ then _ else _) as [? ?]. intros P1 P2. cbn in P1. destruct R1 as [->|(-> & Hsome & Ef)]; [done|]. rewrite R2 in Ef by (by apply Hst). done.
  - destruct (if negb _ || _ then _ else _) as [? ?]. intros P1 P2. cbn in P2. destruct R2 as [->|(-> & Hsome & Ef)]; [done|].
    rewrite R1 in Ef by (by apply Hst). done.
  - repeat (destruct (if negb _ || _ then _ else _) as [? ?]). intros _ _. cbn [fst snd] in *. split; try done.
    cbn [im_state set_state set_store]. etrans; [symmetry|]; apply (open_session_replica d i u1); try done.
    + apply (ii_state _ I1).
    + apply (ii_state _ I2).
Qed.
End twins.

(** ** A stream of sessions and records *)

Inductive Order :=
  | OpenOrder (descriptor : SourceDescriptor) (incarnation : Z)
  | PublishOrder (evidence : Evidence).

Inductive Reply :=
  | OpenReply (result : OpenSessionResult)
  | PublishReply (result : IngestResult).

(** The store kept what the reply reports. *)
Definition reply_stored (reply : Reply) : bool :=
  match reply with
  | OpenReply result => session_stored (os_disposition result)
  | PublishReply result => stored (ir_disposition result)
  end.

(** What became of the records. *)
Definition record_ruling (reply : Reply) : option IngestDisposition.t :=
  match reply with OpenReply _ => None | PublishReply result => Some (ir_disposition result) end.

(** One order on a registry, [now 0] and [now 1] being the clock. *)
Definition carry_out {S} `{AppendLog S} (now : nat -> Z) (order : Order) (impl : Impl S) : Reply * Impl S :=
  match order with
  | OpenOrder descriptor incarnation =>
      let '(result, impl) := open_session descriptor incarnation (now 0%nat) (now 1%nat) impl in (OpenReply result, impl)
  | PublishOrder evidence => let '(result, impl) := registry_ingest (now 0%nat) evidence impl in (PublishReply result, impl)
  end.

Fixpoint carry_all {S} `{AppendLog S} (clock : nat -> nat -> Z) (orders : list Order) (impl : Impl S) : list Reply * Impl S :=
  match orders with
  | [] => ([], impl)
  | order :: orders =>
      let '(reply, impl) := carry_out (clock 0%nat) order impl in
      let '(replies, impl) := carry_all (fun i => clock (Datatypes.S i)) orders impl in (reply :: replies, impl)
  end.

Section streams.
Context {S1 S2 : Type} `{AppendLog S1, AppendLog S2}.

Lemma twin_stream orders clock1 clock2 (a : Impl S1) (b : Impl S2) :
  twins a b ->
  let '(rs1, a') := carry_all clock1 orders a in
  let '(rs2, b') := carry_all clock2 orders b in
  forallb reply_stored rs1 = true -> forallb reply_stored rs2 = true ->
  record_ruling <$> rs1 = record_ruling <$> rs2 /\ twins a' b'.
Proof.
  revert clock1 clock2 a b. induction orders as [|order orders IH]; intros clock1 clock2 a b Ht; [done|].
  cbn [carry_all].
  destruct (carry_out (clock1 0%nat) order a) as [r1 a1] eqn:E1. destruct (carry_out (clock2 0%nat) order b) as [r2 b1] eqn:E2.
  assert (Hstep : reply_stored r1 = true -> reply_stored r2 = true -> record_ruling r1 = record_ruling r2 /\ twins a1 b1).
  { destruct order as [d i|e]; cbn [carry_out] in E1, E2.
    - pose proof (twin_open d i (clock1 0%nat 0%nat) (clock1 0%nat 1%nat) (clock2 0%nat 0%nat) (clock2 0%nat 1%nat) a b Ht) as Ho.
      destruct (open_session _ _ _ _ a), (open_session _ _ _ _ b). injection E1 as <- <-. injection E2 as <- <-. cbn. auto.
    - pose proof (twin_ingest e (clock1 0%nat 0%nat) (clock2 0%nat 0%nat) a b Ht) as Hi.
      destruct (registry_ingest _ _ a), (registry_ingest _ _ b). injection E1 as <- <-. injection E2 as <- <-. cbn.
      intros H1 H2. destruct (Hi H1 H2) as [-> ?]. done. }
  specialize (IH (fun i => clock1 (Datatypes.S i)) (fun i => clock2 (Datatypes.S i)) a1 b1).
  destruct (carry_all _ orders a1) as [rs1 a'], (carry_all _ orders b1) as [rs2 b'].
  cbn [forallb]. intros [P1 Q1]%andb_true_iff [P2 Q2]%andb_true_iff. destruct (Hstep P1 P2) as [Er Ht1].
  destruct (IH Ht1 Q1 Q2) as [Ers ?]. split; [|done]. rewrite !fmap_cons. by f_equal.
Qed.
End streams.

(** ** Registries that were just opened *)

(** What a registry in memory, or on a new store, starts with. *)
Lemma opened_new {S} `{AppendLog S} options draws now store_open (impl : Impl S) :
  new_store store_open -> registry_open options draws now store_open = inl impl ->
  im_limits impl = op_limits options /\
  im_history_per_key impl = Z.min (op_history_per_key options) (max_history_per_key (op_limits options)) /\
  im_closed impl = false /\ (is_Some (im_store impl) <-> is_Some store_open) /\
  exists id, im_state impl = clear_volatile (empty_state id now).
Proof.
  unfold registry_open. destruct (validate_limits _) as [[]|]; [|done]. case_match; [done|].
  destruct store_open as [[report [store|error]]|]; [|done|].
  - intros [Hcr Hempty]. destruct (log_visit store) as [store' [records [[]|error]]] eqn:Ev.
    + apply log_visit_ok in Ev as [-> _]. rewrite Hempty. cbn [replay]. unfold finish_open. rewrite Hcr.
      destruct (negb _ && _ && _); [done|]. destruct (negb (enc_ok _)); [done|].
      destruct (log_append _ _ _) as [store'' [[]|]]; [|done]. intros [= <-].
      destruct (is_nil _); split_and!; try done; cbn; try (split; by eexists); by eexists.
    + by destruct (replay records _).
  - intros _ [= <-]. destruct (is_nil (op_id options)); split_and!; try done; try (cbn; split; by intros []); by eexists.
Qed.

(** [impl] was just opened, in memory or on a new store. *)
Definition opened_fresh {S} `{AppendLog S} (options : RegistryOptions) (on_store : bool) (impl : Impl S) : Prop :=
  exists draws now store_open,
    typed_options options /\ is_u64 draws.1 /\ is_u64 draws.2 /\ is_i64 now /\ new_store store_open /\
    (is_Some store_open <-> on_store = true) /\ registry_open options draws now store_open = inl impl.

(** Options that differ in the identity only. *)
Definition same_bounds (o1 o2 : RegistryOptions) : Prop :=
  op_limits o1 = op_limits o2 /\ op_history_per_key o1 = op_history_per_key o2.

(** Two registries of the same bounds start as twins. *)
Lemma opened_twins {S1 S2} `{AppendLog S1, AppendLog S2} o1 o2 on_store (a : Impl S1) (b : Impl S2) :
  same_bounds o1 o2 -> opened_fresh o1 on_store a -> opened_fresh o2 on_store b -> twins a b.
Proof.
  intros [El Eh] (draws1 & now1 & open1 & T1 & U1 & U2 & N1 & W1 & S1' & O1) (draws2 & now2 & open2 & T2 & U3 & U4 & N2 & W2 & S2' & O2).
  destruct (open_new_inv _ _ _ _ _ T1 U1 U2 N1 W1 O1) as [I1 _]. destruct (open_new_inv _ _ _ _ _ T2 U3 U4 N2 W2 O2) as [I2 _].
  destruct (opened_new _ _ _ _ _ W1 O1) as (L1 & H1 & C1 & X1 & id1 & Z1).
  destruct (opened_new _ _ _ _ _ W2 O2) as (L2 & H2 & C2 & X2 & id2 & Z2).
  split; [by rewrite L1, L2|by rewrite H1, H2, El, Eh|by rewrite C1, C2|by rewrite X1, X2, S1', S2'|by rewrite Z1, Z2|done|done].
Qed.

Lemma twins_digest {S1 S2} (a : Impl S1) (b : Impl S2) :
  twins a b ->
  graph_digest (build_snapshot (im_state a) (im_limits a)) = graph_digest (build_snapshot (im_state b) (im_limits b)).
Proof.
  intros [Hl _ _ _ Hr _ _]. rewrite Hl.
  rewrite (build_snapshot_essence (H := forget_received) (im_state a)), (build_snapshot_essence (H := forget_received) (im_state b)).
  by rewrite Hr.
Qed.

(** C13: The same evidence gives the same picture. Two registries are opened with the
    same limits and history bound, both in memory or both on new stores, at any
    times and under any identities, and are then sent the same sessions and
    records in the same order, each reading its own clock. If neither store fails,
    they rule the same on every record, and their graph digests are equal. *)
Theorem same_evidence_same_digest {S1 S2} `{AppendLog S1, AppendLog S2} o1 o2 on_store (a0 a : Impl S1) (b0 b : Impl S2) orders
    clock1 clock2 rs1 rs2 :
  same_bounds o1 o2 -> opened_fresh o1 on_store a0 -> opened_fresh o2 on_store b0 ->
  carry_all clock1 orders a0 = (rs1, a) -> carry_all clock2 orders b0 = (rs2, b) ->
  forallb reply_stored rs1 = true -> forallb reply_stored rs2 = true ->
  record_ruling <$> rs1 = record_ruling <$> rs2 /\
  graph_digest (build_snapshot (im_state a) (im_limits a)) = graph_digest (build_snapshot (im_state b) (im_limits b)).
Proof.
  intros Ho O1 O2 C1 C2 P1 P2. pose proof (twin_stream orders clock1 clock2 a0 b0 (opened_twins _ _ _ _ _ Ho O1 O2)) as Ht.
  rewrite C1, C2 in Ht. destruct (Ht P1 P2) as [Er Hab]. split; [done|]. by apply twins_digest.
Qed.
