(* ===== verification/Script.v ===== *)
(** * Reading the command line and scripts ([tools/cli_main.cpp])

    The text side of the command line tool: numbers and identities in arguments,
    the fields of a script line, and the step each line stands for.  A mistake
    ends the process, as [die] does. *)
From S2P Require Import Prelude OrdMap Types Ids Graph State Admit Text Names.
From Stdlib Require Import (notations) Ascii.
#[local] Open Scope string_scope.
#[local] Open Scope Z_scope.

(** ** Ending the process *)

(** [die(message, code)]: the exit code and what goes to the error stream. *)
Record Exit := mkExit { ex_code : Z; ex_message : string }.

Definition Parse (A : Type) : Type := (A + Exit)%type.

#[export] Instance Parse_ret : MRet Parse := fun _ a => inl a.
#[export] Instance Parse_bind : MBind Parse := fun _ _ k m => match m with inl a => k a | inr e => inr e end.

Definition die {A} (message : string) : Parse A := inr (mkExit 2 message).

(** ** Numbers and identities *)

(** [isspace] in the C locale. *)
Definition isspace (c : Ascii.ascii) : bool := (byte_of_ascii c =? 32) || ((9 <=? byte_of_ascii c) && (byte_of_ascii c <=? 13)).

Fixpoint skip_blanks (t : Text) : Text :=
  match t with c :: rest => if isspace c then skip_blanks rest else t | [] => [] end.

(** The text [c_str()] shows to a C function. *)
Fixpoint c_str (t : Text) : Text :=
  match t with c :: rest => if Ascii.eqb c "000" then [] else c :: c_str rest | [] => [] end.

(** [std::strtoull(text, &end, 10)]: the value, and the text at [end]. *)
Definition strtoull (text : Text) : Z * Text :=
  let t := skip_blanks text in
  let '(negative, t) :=
    match t with
    | c :: rest => if Ascii.eqb c "-" then (true, rest) else if Ascii.eqb c "+" then (false, rest) else (false, t)
    | [] => (false, t)
    end in
  let '(digits, rest) := span_digits t in
  match digits with
  | [] => (0, text)
  | _ =>
      let value := number_of digits in
      (if 2 ^ 64 <=? value then 2 ^ 64 - 1 else if negative then wrap64 (- value) else value, rest)
  end.

Definition parse_u64 (text what : string) : Parse Z :=
  if is_empty text then die ("missing " +:+ what)
  else
    let '(value, rest) := strtoull (c_str (chars text)) in
    match rest with
    | [] => mret value
    | _ => die ("could not read " +:+ what +:+ " from '" +:+ text +:+ "'")
    end.

Definition parse_id (text what : string) : Parse Id128 :=
  match parse_hex_id text with
  | Some value =>
      if is_nil128 value then die ("could not read a non-nil 128 bit " +:+ what +:+ " from '" +:+ text +:+ "'")
      else mret value
  | None => die ("could not read a non-nil 128 bit " +:+ what +:+ " from '" +:+ text +:+ "'")
  end.

(** ** Fields *)

Definition field (fields : list string) (index : nat) (what : string) : Parse string :=
  match fields !! index with Some text => mret text | None => die ("missing " +:+ what) end.

(** The fields from [from] on, a blank between two of them. *)
Definition rest_of (fields : list string) (from : nat) : string :=
  foldl (fun joined text => (if is_empty joined then joined else joined +:+ " ") +:+ text) "" (drop from fields).

(** The characters up to the next blank. *)
Fixpoint span_token (t : Text) : Text * Text :=
  match t with
  | c :: rest => if isspace c then ([], t) else let '(token, after) := span_token rest in (c :: token, after)
  | [] => ([], [])
  end.

(** [while (stream >> token)]; every token takes a character. *)
Fixpoint split_fuel (fuel : nat) (t : Text) : list string :=
  match fuel with
  | O => []
  | S fuel =>
      match skip_blanks t with
      | [] => []
      | t => let '(token, after) := span_token t in String.string_of_list_ascii token :: split_fuel fuel after
      end
  end.
Definition split (line : Text) : list string := split_fuel (length line) line.

(** [std::getline] until the end of the input. *)
Fixpoint lines_of (t : Text) : list Text :=
  match t with
  | [] => []
  | c :: rest =>
      if Ascii.eqb c "010" then [] :: lines_of rest
      else match lines_of rest with [] => [[c]] | line :: lines => (c :: line) :: lines end
  end.

(** [line.erase(line.find('#'))]. *)
Fixpoint strip_comment (line : Text) : Text :=
  match line with c :: rest => if Ascii.eqb c "#" then [] else c :: strip_comment rest | [] => [] end.

(** ** Payloads *)

Definition object_of_text (text what : string) : Parse ObjectId := id ← parse_id text what; mret (mkStrongId id).

Definition build_object (fields : list string) : Parse ObjectDescriptor :=
  text ← field fields 1 "object identity"; id ← object_of_text text "object identity";
  label ← field fields 2 "physical label";
  text ← field fields 3 "side count"; sides ← parse_u64 text "side count";
  if (sides =? 0) || (64 <? sides) then die "the side count must be between 1 and 64"
  else
    connector ← match fields !! 4%nat with
                | Some text =>
                    match parse_connector_class text with
                    | Some connector => mret connector
                    | None => die ("unknown connector class '" +:+ text +:+ "'")
                    end
                | None => mret ConnectorClass.Unknown
                end : Parse ConnectorClass.t;
    media ← match fields !! 5%nat with
            | Some text =>
                match parse_media_class text with
                | Some media => mret media
                | None => die ("unknown media class '" +:+ text +:+ "'")
                end
            | None => mret MediaClass.Unknown
            end : Parse MediaClass.t;
    let side := mkObjectSideDescriptor connector media 4 in
    mret (mkObjectDescriptor id ObjectKind.Cable label ("SN-" +:+ label) "unspecified" (replicate (Z.to_nat sides) side)
            (mkNominalCapability media connector 4 0 0 0 false "")).

Definition build_endpoint (fields : list string) : Parse EndpointDescriptor :=
  text ← field fields 1 "endpoint identity"; id ← parse_id text "endpoint identity";
  name ← field fields 2 "endpoint name";
  text ← field fields 3 "port count"; ports ← parse_u64 text "port count";
  if (ports =? 0) || (4096 <? ports) then die "the port count must be between 1 and 4096"
  else
    attachments ← match fields !! 4%nat with
                  | Some text => value ← parse_u64 text "max attachments"; mret (wrap32 value)
                  | None => mret 1
                  end : Parse Z;
    mret (mkEndpointDescriptor (mkStrongId id) EndpointKind.Switch name "unspecified" (wrap32 ports)
            (mkPortCapability attachments ConnectorClass.Unknown MediaClass.Unknown 0)).

Definition build_port (endpoint_text index_text : string) : Parse PortRef :=
  endpoint ← parse_id endpoint_text "endpoint identity"; index ← parse_u64 index_text "port index";
  mret (mkPortRef (mkStrongId endpoint) (wrap32 index)).

(** The subject, the ports and the optional numbers of the attachment commands.
    The two arguments of [build_port] are read from left to right. *)
Definition read_subject (fields : list string) : Parse ObjectSideRef :=
  text ← field fields 1 "object identity"; object ← object_of_text text "object";
  text ← field fields 2 "side"; side ← parse_u64 text "side";
  mret (mkObjectSideRef object (wrap32 side)).

Definition read_port (fields : list string) (index : nat) (endpoint_what port_what : string) : Parse PortRef :=
  endpoint ← field fields index endpoint_what; port ← field fields (S index) port_what; build_port endpoint port.

Definition read_optional (fields : list string) (index : nat) (what : string) (otherwise : Z) : Parse Z :=
  match fields !! index with Some text => parse_u64 text what | None => mret otherwise end.

(** ** Steps *)

(** What a script line makes the publisher do. *)
Inductive Step :=
  | SourceStep (descriptor : SourceDescriptor) (incarnation : Z)
  | UseStep (name : string)
  | PublishStep (payload : EvidencePayload).

(** [source] of a script and [open-source] of the command line read the same
    fields, at different positions. *)
Definition read_source (fields : list string) (from : nat) : Parse (SourceDescriptor * Z) :=
  text ← field fields from "source identity"; id ← parse_id text "source identity";
  name ← field fields (1 + from) "source name";
  text ← field fields (2 + from) "authority class";
  match parse_authority_class text with
  | None => die ("unknown authority class '" +:+ text +:+ "'")
  | Some class =>
      text ← field fields (3 + from) "authority rank"; rank ← parse_u64 text "rank";
      incarnation ← read_optional fields (4 + from) "incarnation" 1;
      mret (mkSourceDescriptor (mkStrongId id) name (mkAuthority class (wrap32 rank)) "cli", incarnation)
  end.

Definition read_attach (fields : list string) : Parse EvidencePayload :=
  subject ← read_subject fields; port ← read_port fields 3 "endpoint identity" "port index";
  slot ← read_optional fields 5 "slot" 0; incarnation ← read_optional fields 6 "object incarnation" 1;
  mret (Attach (mkAttach subject port incarnation (wrap32 slot))).

Definition read_detach (fields : list string) : Parse EvidencePayload :=
  subject ← read_subject fields; port ← read_port fields 3 "endpoint identity" "port index";
  slot ← read_optional fields 5 "slot" 0; incarnation ← read_optional fields 6 "object incarnation" 1;
  mret (Detach (mkDetach subject incarnation true port (wrap32 slot))).

Definition read_move (fields : list string) : Parse EvidencePayload :=
  subject ← read_subject fields; from ← read_port fields 3 "from endpoint" "from port";
  to ← read_port fields 5 "to endpoint" "to port";
  mret (Move (mkMove subject 1 from to 0 0)).

Definition read_reincarnate (fields : list string) : Parse EvidencePayload :=
  text ← field fields 1 "object identity"; object ← object_of_text text "object";
  text ← field fields 2 "from incarnation"; from ← parse_u64 text "from incarnation";
  mret (ReincarnateObject (mkReincarnate object from (default "" (fields !! 3%nat)) "cli")).

Definition lifecycle_command (command : string) : option LifecycleAction.t :=
  if String.eqb command "quarantine" then Some LifecycleAction.Quarantined
  else if String.eqb command "release" then Some LifecycleAction.Present
  else if String.eqb command "remove" then Some LifecycleAction.Removed
  else if String.eqb command "retire" then Some LifecycleAction.Retired
  else None.

Definition read_lifecycle (action : LifecycleAction.t) (fields : list string) : Parse EvidencePayload :=
  text ← field fields 1 "object identity"; object ← object_of_text text "object";
  mret (SetLifecycle (mkSetLifecycle object 1 action (rest_of fields 2))).

Definition read_port_capability (fields : list string) : Parse EvidencePayload :=
  port ← read_port fields 1 "endpoint identity" "port index";
  text ← field fields 3 "max attachments"; attachments ← parse_u64 text "max attachments";
  mret (PublishPortCapability
          (mkPublishPort port (mkPortCapability (wrap32 attachments) ConnectorClass.Unknown MediaClass.Unknown 0))).

(** The chain of [command == ...] of [run_script], for a line with a command. *)
Definition read_step (command : string) (fields : list string) (line_number : Z) : Parse Step :=
  let publish m := payload ← m; mret (PublishStep payload) in
  if String.eqb command "source" then '(descriptor, incarnation) ← read_source fields 1; mret (SourceStep descriptor incarnation)
  else if String.eqb command "use" then name ← field fields 1 "source name"; mret (UseStep name)
  else if String.eqb command "object" then publish (descriptor ← build_object fields; mret (RegisterObject descriptor))
  else if String.eqb command "endpoint" then publish (descriptor ← build_endpoint fields; mret (RegisterEndpoint descriptor))
  else if String.eqb command "attach" then publish (read_attach fields)
  else if String.eqb command "detach" then publish (read_detach fields)
  else if String.eqb command "move" then publish (read_move fields)
  else if String.eqb command "reincarnate" then publish (read_reincarnate fields)
  else
    match lifecycle_command command with
    | Some action => publish (read_lifecycle action fields)
    | None =>
        if String.eqb command "port-capability" then publish (read_port_capability fields)
        else die ("unknown script command '" +:+ command +:+ "' on line " +:+ to_dec line_number)
    end.

(** * Facts *)

Lemma digit_plain c :
  is_digit c = true -> isspace c = false /\ Ascii.eqb c "-" = false /\ Ascii.eqb c "+" = false /\ Ascii.eqb c "000" = false.
Proof. destruct c as [[] [] [] [] [] [] [] []]; (discriminate || by intros _). Qed.

Lemma c_str_digits t : Forall (fun c => is_digit c = true) t -> c_str t = t.
Proof. induction 1 as [|c t Hc _ IH]; [done|]. cbn. destruct (digit_plain c Hc) as (_ & _ & _ & ->). by rewrite IH. Qed.

(** A number in its decimal form is read as it is. *)
Lemma strtoull_to_dec n : is_u64 n -> strtoull (c_str (chars (to_dec n))) = (n, []).
Proof.
  intros [Hn Hm]. destruct (to_dec_digits n Hn) as (Hd & Hv & Hne & _). rewrite c_str_digits by done.
  pose proof (span_digits_app _ [] Hd ltac:(done)) as Hs. rewrite app_nil_r in Hs. unfold strtoull.
  destruct (chars (to_dec n)) as [|c t]; [done|]. apply Forall_cons in Hd as [Hc _].
  destruct (digit_plain c Hc) as (E1 & E2 & E3 & _). cbn [skip_blanks]. rewrite E1, E2, E3, Hs, Hv.
  by rewrite (proj2 (Z.leb_gt _ _) Hm).
Qed.

Lemma to_dec_nonempty n : 0 <= n -> to_dec n <> "".
Proof. intros Hn. destruct (to_dec_digits n Hn) as (_ & _ & Hne & _). by intros E; rewrite E in Hne. Qed.
