(* ===== verification/Cli.v ===== *)
(** * The command line tool ([tools/cli_main.cpp])

    One process of the tool: the handle through which it reaches a registry,
    in process or over the wire, the publisher with its generation counters, the
    script runner, and the commands of [main].  What is printed is collected; [die]
    ends the process with what happened so far. *)
From S2P Require Import Prelude OrdMap Types Ids Graph Codec State Fold Derive Log Snapshot Store Admit Ingest Session Recovery Views SnapshotBuild Server Client Text Names Json Render Script.
From Stdlib Require Import (notations) Ascii.
#[local] Open Scope string_scope.
#[local] Open Scope Z_scope.

(** ** Options *)

Record Options := mkCliOptions {
  opt_store : string;
  opt_host : string;
  opt_port : Z;
  opt_has_endpoint : bool;
  opt_no_fsync : bool;
  opt_salvage : bool;
  opt_verbose : bool;
  opt_quiet : bool;
  opt_fixed_time : bool;
  opt_time_base : Z;
}.

Definition default_cli_options : Options := mkCliOptions "" "127.0.0.1" 0 false false false false false false 0.

(** ** The handle *)

(** One registry, whichever way it is reached. *)
Class Handle (H : Type) := {
  handle_open_session : SourceDescriptor -> Z -> H -> Outcome OpenSessionResult * H;
  handle_publish : Evidence -> H -> Outcome IngestResult * H;
  handle_query_port : PortRef -> ValidationPolicy.t -> H -> Outcome PortView * H;
  handle_query_object : ObjectId -> H -> Outcome ObjectView * H;
  handle_history : ObjectId -> H -> Outcome ObjectHistory * H;
  handle_inspect : Z -> H -> Outcome InspectionView * H;
  handle_snapshot : H -> Outcome TopologySnapshot * H;
  handle_digest : H -> Outcome (list Z) * H;
  handle_stats : H -> Outcome RegistryStats * H;
  handle_close : H -> H;
}.

(** [local_]: a registry in this process, and what its clock will read during
    each of the calls to come. *)
Record Local (S : Type) := mkLocal { lc_registry : Impl S; lc_clock : nat -> nat -> Z }.
Arguments mkLocal {S} _ _.
Arguments lc_registry {S} _.
Arguments lc_clock {S} _.

(** After a call that left the registry [impl]. *)
Definition next_call {S} (impl : Impl S) (h : Local S) : Local S := mkLocal impl (fun i => lc_clock h (Datatypes.S i)).

(** A call that only reads. *)
Definition local_read {S A} (f : Impl S -> Outcome A) (h : Local S) : Outcome A * Local S :=
  (f (lc_registry h), next_call (lc_registry h) h).

#[export] Instance local_handle {S} `{AppendLog S, StoreCounters S} : Handle (Local S) := {
  handle_open_session := fun descriptor incarnation h =>
    let '(result, impl) := open_session descriptor incarnation (lc_clock h 0%nat 0%nat) (lc_clock h 0%nat 1%nat) (lc_registry h) in
    (inl result, next_call impl h);
  handle_publish := fun evidence h =>
    let '(result, impl) := registry_ingest (lc_clock h 0%nat 0%nat) evidence (lc_registry h) in (inl result, next_call impl h);
  handle_query_port := fun port policy => local_read (fun impl => query_port (im_state impl) (im_limits impl) port policy);
  handle_query_object := fun object =>
    local_read (fun impl => query_object (im_state impl) (im_limits impl) object default_query_options);
  handle_history := fun object => local_read (fun impl => query_history (im_state impl) (im_limits impl) object 256);
  handle_inspect := fun max_entries =>
    local_read (fun impl => inl (inspect (im_state impl) (im_limits impl) (im_refusals impl) max_entries));
  handle_snapshot := local_read (fun impl => inl (build_snapshot (im_state impl) (im_limits impl)));
  handle_digest := local_read (fun impl => inl (graph_digest (build_snapshot (im_state impl) (im_limits impl))));
  handle_stats := local_read (fun impl => inl (build_stats (im_state impl) (im_recovery impl) (im_store impl)));
  handle_close := fun h => mkLocal (close_registry (lc_registry h)) (lc_clock h);
}.

(** [remote_]: a client and the peer it talks to. *)
Definition Remote (P : Type) : Type := Client * P.

Definition remote_do {P A} (f : Client -> P -> Outcome A * Client * P) (h : Remote P) : Outcome A * Remote P :=
  let '(result, c, peer) := f h.1 h.2 in (result, (c, peer)).

#[export] Instance remote_handle {P} `{Peer P} : Handle (Remote P) := {
  handle_open_session := fun descriptor incarnation => remote_do (client_open_session descriptor incarnation);
  handle_publish := fun evidence => remote_do (client_publish evidence);
  handle_query_port := fun port policy => remote_do (client_query_port port policy);
  handle_query_object := fun object => remote_do (client_query_object object default_query_options);
  handle_history := fun object => remote_do (client_query_history object 256);
  handle_inspect := fun max_entries => remote_do (client_inspect max_entries);
  handle_snapshot := remote_do client_snapshot;
  handle_digest := remote_do client_graph_digest;
  handle_stats := remote_do client_stats;
  handle_close := fun h => (client_close h.1, h.2);
}.

(** ** The process *)

Record StreamState := mkStream { st_id : SourceId; st_incarnation : Z; st_generation : Z; st_name : string }.

(** The publisher, the handle, the clock readings to come, and the lines written
    to the two output streams. *)
Record Process (H : Type) := mkProcess {
  pr_handle : H;
  pr_streams : ordmap SourceId StreamState;
  pr_names : ordmap string SourceId;
  pr_current : SourceId;
  pr_published : Z;
  pr_refused : Z;
  pr_clock : nat -> Z;
  pr_out : list Text;
  pr_err : list Text;
}.
Arguments mkProcess {H} _ _ _ _ _ _ _ _ _.
Arguments pr_handle {H} _.
Arguments pr_streams {H} _.
Arguments pr_names {H} _.
Arguments pr_current {H} _.
Arguments pr_published {H} _.
Arguments pr_refused {H} _.
Arguments pr_clock {H} _.
Arguments pr_out {H} _.
Arguments pr_err {H} _.

Definition new_process {H} (clock : nat -> Z) (h : H) : Process H := mkProcess h [] [] nil_id 0 0 clock [] [].

(** A part of the program: its result, or the end of the process. *)
Definition Run (H A : Type) : Type := Process H -> (A + Exit) * Process H.

#[export] Instance Run_ret {H} : MRet (Run H) := fun _ a p => (inl a, p).
#[export] Instance Run_bind {H} : MBind (Run H) := fun _ _ k m p =>
  match m p with (inl a, p) => k a p | (inr e, p) => (inr e, p) end.

Section process.
Context {H : Type} `{Handle H}.

(** What is read from arguments ends the process the same way. *)
Definition lift {A} (m : Parse A) : Run H A := fun p => (m, p).
Definition quit {A} (code : Z) (message : string) : Run H A := fun p => (inr (mkExit code message), p).

Definition print (text : Text) : Run H unit := fun p =>
  (inl tt, mkProcess (pr_handle p) (pr_streams p) (pr_names p) (pr_current p) (pr_published p) (pr_refused p) (pr_clock p)
     (pr_out p ++ [text]) (pr_err p)).
Definition complain (text : Text) : Run H unit := fun p =>
  (inl tt, mkProcess (pr_handle p) (pr_streams p) (pr_names p) (pr_current p) (pr_published p) (pr_refused p) (pr_clock p)
     (pr_out p) (pr_err p ++ [text])).

(** A call on the handle. *)
Definition ask {A} (f : H -> Outcome A * H) : Run H (Outcome A) := fun p =>
  let '(result, h) := f (pr_handle p) in
  (inl result, mkProcess h (pr_streams p) (pr_names p) (pr_current p) (pr_published p) (pr_refused p) (pr_clock p) (pr_out p)
                 (pr_err p)).

(** [if (!result.has_value()) die(result.error().describe(), code);] *)
Definition value_or_die {A} (code : Z) (result : Outcome A) : Run H A :=
  match result with inl value => mret value | inr error => quit code (describe error) end.

(** ** The publisher *)

(** The stream an opened source starts with. *)
Definition start_stream (descriptor : SourceDescriptor) (incarnation : Z) : Run H unit := fun p =>
  (inl tt, mkProcess (pr_handle p)
     (map_set (src_id descriptor) (mkStream (src_id descriptor) incarnation 0 (src_name descriptor)) (pr_streams p))
     (map_set (src_name descriptor) (src_id descriptor) (pr_names p)) (src_id descriptor) (pr_published p) (pr_refused p)
     (pr_clock p) (pr_out p) (pr_err p)).

Definition publisher_open_source (descriptor : SourceDescriptor) (incarnation : Z) (announce : bool) : Run H unit :=
  result ← ask (handle_open_session descriptor incarnation);
  value ← value_or_die 2 result;
  _ ← (if announce then print (to_json_open_session_result value) else mret tt);
  start_stream descriptor incarnation.

Definition publisher_use (name : string) : Run H unit := fun p =>
  match map_find name (pr_names p) with
  | None => (die ("no source named '" +:+ name +:+ "' has been opened"), p)
  | Some id =>
      (inl tt, mkProcess (pr_handle p) (pr_streams p) (pr_names p) id (pr_published p) (pr_refused p) (pr_clock p) (pr_out p)
                 (pr_err p))
  end.

(** [streams_[current_]], a default one if there is none. *)
Definition current_stream (p : Process H) : StreamState :=
  default (mkStream nil_id 1 0 "") (map_find (pr_current p) (pr_streams p)).

(** The identity the tool gives a record. *)
Definition evidence_id (source : SourceId) (generation : Z) : EvidenceId :=
  from_parts (Z.lxor (id_hi (sid_value source)) 0x00E71DE000000000) generation.

(** [time_base + static_cast<std::int64_t>(generation) * 1'000'000]: the value is
    kept at its width. Where it leaves the signed range the source has undefined
    behaviour; the model wraps. *)
Definition fixed_instant (base generation : Z) : Z := u64_to_i64 (wrap64 (base + u64_to_i64 generation * 1000000)).

(** The record sent for [payload], by a stream whose counter was already raised. *)
Definition make_evidence (options : Options) (now : Z) (stream : StreamState) (payload : EvidencePayload) : Evidence :=
  mkEvidence
    (mkHeader (evidence_id (st_id stream) (st_generation stream)) (st_id stream) (st_incarnation stream) (st_generation stream)
       (if opt_fixed_time options then fixed_instant (opt_time_base options) (st_generation stream) else now)
       ProvenanceClass.OperatorEntry "cable-registry-cli" kEvidenceSchemaVersion) payload.

(** [state.generation.value += 1], and the record. *)
Definition next_record (options : Options) (payload : EvidencePayload) : Run H Evidence := fun p =>
  let old := current_stream p in
  let stream := mkStream (st_id old) (st_incarnation old) (wrap64 (st_generation old + 1)) (st_name old) in
  let now := pr_clock p 0%nat in
  let clock := if opt_fixed_time options then pr_clock p else fun i => pr_clock p (S i) in
  (inl (make_evidence options now stream payload),
   mkProcess (pr_handle p) (map_set (pr_current p) stream (pr_streams p)) (pr_names p) (pr_current p) (pr_published p)
     (pr_refused p) clock (pr_out p) (pr_err p)).

(** The counters behind a record. *)
Definition count_published (refused : bool) : Run H unit := fun p =>
  (inl tt, mkProcess (pr_handle p) (pr_streams p) (pr_names p) (pr_current p) (wrap64 (pr_published p + 1))
     (if refused then wrap64 (pr_refused p + 1) else pr_refused p) (pr_clock p) (pr_out p) (pr_err p)).

Definition refusal_line (result : IngestResult) : Text :=
  chars ("refused: " +:+ to_name (ir_disposition result) +:+ ": " +:+ ir_detail result).

Definition publisher_publish (options : Options) (payload : EvidencePayload) : Run H IngestResult := fun p =>
  if is_nil (pr_current p) then (die "open a source before publishing evidence", p)
  else
    (evidence ← next_record options payload;
     result ← ask (handle_publish evidence);
     value ← value_or_die 2 result;
     _ ← (if opt_verbose options then print (to_json_ingest_result value) else mret tt);
     _ ← (if is_accepted (ir_disposition value) then mret tt else complain (refusal_line value));
     _ ← count_published (negb (is_accepted (ir_disposition value)));
     mret value) p.

(** ** Scripts *)

Definition run_step (options : Options) (step : Step) : Run H unit :=
  match step with
  | SourceStep descriptor incarnation => publisher_open_source descriptor incarnation false
  | UseStep name => publisher_use name
  | PublishStep payload => _ ← publisher_publish options payload; mret tt
  end.

(** The lines from number [line_number] on. *)
Fixpoint run_lines (options : Options) (line_number : Z) (lines : list Text) : Run H unit :=
  match lines with
  | [] => mret tt
  | line :: lines =>
      match split (strip_comment line) with
      | [] => run_lines options (line_number + 1) lines
      | command :: rest =>
          step ← lift (read_step command (command :: rest) line_number);
          _ ← run_step options step;
          run_lines options (line_number + 1) lines
      end
  end.

(** [run_script], on what the file holds, if it can be opened. *)
Definition run_script (options : Options) (path : string) (content : option Text) : Run H unit :=
  match content with
  | None => lift (die ("could not open the script '" +:+ path +:+ "'"))
  | Some text => run_lines options 1 (lines_of text)
  end.

(** ** The commands of [main] *)

(** What became of the file of an inline script, which the tool writes through a
    stream it never looks at: it could not be opened for writing and holds what it
    held before, if it exists; it was emptied and that many of the characters
    reached it; or it cannot be opened again for reading. *)
Inductive InlineFile := Unopened | Written (count : nat) | Unreadable.

(** The files the tool touches: what a file holds when the process starts, how the
    writing of the inline script goes, and whether a snapshot can be written. *)
Record Files := mkFiles {
  fi_read : string -> option Text;
  fi_inline : InlineFile;
  fi_writable : string -> bool;
}.

Definition json_quoted (name value : string) : Text := [quote] ++ chars name ++ [quote; ":"%char; quote] ++ chars value ++ [quote].
Definition json_counted (name : string) (value : Z) : Text := [quote] ++ chars name ++ [quote; ":"%char] ++ chars (to_dec value).
Definition braces (t : Text) : Text := "{"%char :: t ++ ["}"%char].

(** The commands that go through a script line of their own. *)
Definition inline_commands : list string :=
  ["attach"; "detach"; "move"; "reincarnate"; "quarantine"; "release"; "remove"; "retire"; "publish-port-capability"].
Definition publish_commands : list string :=
  inline_commands ++ ["publish-object"; "publish-endpoint"; "publish-object-capability"; "publish-source"].

Definition one_of (command : string) (commands : list string) : bool := existsb (String.eqb command) commands.

(** The line a command becomes, and the temporary file that holds it. *)
Definition inline_script (command : string) (rest : list string) : Text :=
  chars (rest_of ((if String.eqb command "publish-port-capability" then "port-capability" else command) :: rest) 0) ++ ["010"%char].
Definition kInlinePath : string := "cable-registry-cli-inline.script".

(** What [run_script] finds behind the unchecked [std::ofstream]. *)
Definition inline_content (files : Files) (text : Text) : option Text :=
  match fi_inline files with
  | Unopened => fi_read files kInlinePath
  | Written count => Some (take count text)
  | Unreadable => None
  end.

Definition publish_command (options : Options) (files : Files) (command : string) (rest : list string) : Run H unit :=
  let fields := "" :: rest in
  if String.eqb command "publish-object" then
    descriptor ← lift (build_object fields); _ ← publisher_publish options (RegisterObject descriptor); mret tt
  else if String.eqb command "publish-endpoint" then
    descriptor ← lift (build_endpoint fields); _ ← publisher_publish options (RegisterEndpoint descriptor); mret tt
  else if one_of command inline_commands then
    run_script options kInlinePath (inline_content files (inline_script command rest))
  else lift (die "unsupported command").

(** [snapshot --out]: the last file named. *)
Fixpoint out_path (rest : list string) (output : string) : string :=
  match rest with
  | first :: ((second :: _) as rest) => out_path rest (if String.eqb first "--out" then second else output)
  | _ => output
  end.

(** The conflicts of the ports an inspection lists, summed in 64 bits. *)
Definition summarised_conflicts (view : InspectionView) : Z := sum64 (fun port => zlen (pv_conflicts port)) (iv_unvalidated_ports view).

Definition print_digest : Run H unit :=
  result ← ask handle_digest; digest ← value_or_die 1 result; print (braces (json_quoted "graphDigest" (digest_hex digest))).

Definition snapshot_command (files : Files) (rest : list string) : Run H unit :=
  let output := out_path rest "" in
  result ← ask handle_snapshot; snapshot ← value_or_die 1 result;
  if is_empty output then print (to_json_topology_snapshot snapshot)
  else if fi_writable files output then
    print (braces (json_quoted "graphDigest" (digest_hex (graph_digest snapshot)) ++ [","%char] ++
                   json_counted "bytes" (zlen (snapshot_encode snapshot))))
  else quit 1 ("could not write '" +:+ output +:+ "'").

Definition inspect_command (command : string) (rest : list string) : Run H unit :=
  max_entries ← lift (match rest with first :: _ => value ← parse_u64 first "max entries"; mret (wrap32 value) | [] => mret 256 end);
  result ← ask (handle_inspect max_entries); view ← value_or_die 1 result;
  _ ← print (to_json_inspection_view view);
  if String.eqb command "conflicts" then print (braces (json_counted "summarisedConflicts" (summarised_conflicts view))) else mret tt.

Definition query_port_command (policy : ValidationPolicy.t) (rest : list string) : Run H unit :=
  port ← lift (read_port rest 0 "endpoint identity" "port index");
  result ← ask (handle_query_port port policy); view ← value_or_die 1 result; print (to_json_port_view view).

Definition query_object_command (rest : list string) : Run H unit :=
  object ← lift (text ← field rest 0 "object identity"; object_of_text text "object");
  result ← ask (handle_query_object object); view ← value_or_die 1 result; print (to_json_object_view view).

Definition history_command (rest : list string) : Run H unit :=
  object ← lift (text ← field rest 0 "object identity"; object_of_text text "object");
  result ← ask (handle_history object); view ← value_or_die 1 result; print (to_json_object_history view).

(** The counts behind a script, and its exit code. *)
Definition script_report : Run H Z := fun p =>
  (inl (if pr_refused p =? 0 then 0 else 1),
   (print (braces (json_counted "published" (pr_published p) ++ [","%char] ++ json_counted "refused" (pr_refused p))) p).2).

Definition script_command (options : Options) (files : Files) (rest : list string) : Run H Z :=
  path ← lift (field rest 0 "script path");
  _ ← run_script options path (fi_read files path);
  script_report.

Definition usage : string := "usage: cable-registry-cli (--store <path> | --endpoint <host:port>) <command> [args]".

(** The chain of [command == ...]; the result is the exit code. *)
Definition run_command (options : Options) (files : Files) (command : string) (rest : list string) : Run H Z :=
  let policy := if one_of "--live-only" rest then ValidationPolicy.LiveOnly else ValidationPolicy.IncludeAll in
  let rest := filter (fun text => text <> "--live-only") rest in
  let done (m : Run H unit) : Run H Z := _ ← m; mret 0 in
  if String.eqb command "open-source" then
    '(descriptor, incarnation) ← lift (read_source rest 0); done (publisher_open_source descriptor incarnation true)
  else if String.eqb command "script" then script_command options files rest
  else if one_of command publish_commands then done (publish_command options files command rest)
  else if String.eqb command "query-port" then done (query_port_command policy rest)
  else if String.eqb command "query-object" then done (query_object_command rest)
  else if String.eqb command "history" then done (history_command rest)
  else if one_of command ["inspect"; "conflicts"; "unknown"; "stale"] then done (inspect_command command rest)
  else if String.eqb command "stats" then
    result ← ask handle_stats; stats ← value_or_die 1 result; done (print (to_json_registry_stats stats))
  else if String.eqb command "digest" then done print_digest
  else if String.eqb command "snapshot" then done (snapshot_command files rest)
  else if String.eqb command "serve" then done print_digest
  else _ ← complain (chars usage); mret 2.

(** From the opened handle to the exit code. A process that dies does not close
    its handle. *)
Definition run_main (options : Options) (files : Files) (arguments : list string) (clock : nat -> Z) (h : H) : Z * Process H :=
  let p := new_process clock h in
  match arguments with
  | [] => (2, (complain (chars usage) p).2)
  | command :: rest =>
      match run_command options files command rest p with
      | (inl code, p) =>
          (code, mkProcess (handle_close (pr_handle p)) (pr_streams p) (pr_names p) (pr_current p) (pr_published p) (pr_refused p)
                   (pr_clock p) (pr_out p) (pr_err p))
      | (inr exit, p) => (ex_code exit, (complain (chars (ex_message exit)) p).2)
      end
  end.
End process.

(** ** The arguments *)

Definition endpoint_option (text : string) (options : Options) : Parse Options :=
  let t := chars text in
  match list_find (fun c => c = ":"%char) (rev t) with
  | None => die "--endpoint expects host:port"
  | Some (after, _) =>
      let colon := (length t - 1 - after)%nat in
      port ← parse_u64 (String.string_of_list_ascii (drop (S colon) t)) "port";
      mret (mkCliOptions (opt_store options) (String.string_of_list_ascii (take colon t)) (port mod 2 ^ 16) true
              (opt_no_fsync options) (opt_salvage options) (opt_verbose options) (opt_quiet options) (opt_fixed_time options)
              (opt_time_base options))
  end.

Definition store_option (path : string) (o : Options) : Options :=
  mkCliOptions path (opt_host o) (opt_port o) (opt_has_endpoint o) (opt_no_fsync o) (opt_salvage o) (opt_verbose o) (opt_quiet o)
    (opt_fixed_time o) (opt_time_base o).
Definition time_option (base : Z) (o : Options) : Options :=
  mkCliOptions (opt_store o) (opt_host o) (opt_port o) (opt_has_endpoint o) (opt_no_fsync o) (opt_salvage o) (opt_verbose o)
    (opt_quiet o) true base.

(** The switches without a value. *)
Definition flag_option (argument : string) (o : Options) : option Options :=
  let set no_fsync salvage verbose quiet :=
    Some (mkCliOptions (opt_store o) (opt_host o) (opt_port o) (opt_has_endpoint o) (no_fsync || opt_no_fsync o)
            (salvage || opt_salvage o) (verbose || opt_verbose o) (quiet || opt_quiet o) (opt_fixed_time o) (opt_time_base o)) in
  if String.eqb argument "--no-fsync" then set true false false false
  else if String.eqb argument "--salvage" then set false true false false
  else if String.eqb argument "--verbose" then set false false true false
  else if String.eqb argument "--quiet" then set false false false true
  else None.

(** The options that take the next argument. *)
Definition value_option (argument value : string) (o : Options) (arguments : list string) : option (Parse (Options * list string)) :=
  if String.eqb argument "--store" then Some (mret (store_option value o, arguments))
  else if String.eqb argument "--endpoint" then Some (o ← endpoint_option value o; mret (o, arguments))
  else if String.eqb argument "--time-base" then
    Some (base ← parse_u64 value "time base"; mret (time_option (u64_to_i64 base) o, arguments))
  else if String.eqb argument "--out" then Some (mret (o, (arguments ++ [argument; value])%list))
  else None.

(** The loop over [argv]; [--help] ends the process with success. *)
Fixpoint parse_arguments (argv : list string) (o : Options) (arguments : list string) : Parse (Options * list string) :=
  match argv with
  | [] => mret (o, arguments)
  | argument :: rest =>
      let plain :=
        match flag_option argument o with
        | Some o => parse_arguments rest o arguments
        | None =>
            if String.eqb argument "--help" || String.eqb argument "-h" then inr (mkExit 0 usage)
            else parse_arguments rest o (arguments ++ [argument])%list
        end in
      match rest with
      | value :: others =>
          match value_option argument value o arguments with
          | Some m => '(o, arguments) ← m; parse_arguments others o arguments
          | None => plain
          end
      | [] => plain
      end
  end.

(** The store options of [--store]; the other fields have their defaults. *)
Definition cli_store_options (o : Options) : StoreOptions :=
  mkStoreOptions (opt_store o) (Z.shiftl 1 20) (Z.shiftl 256 20) 200000 (negb (opt_no_fsync o))
    (if opt_salvage o then RecoveryPolicy.SalvagePrefix else RecoveryPolicy.Strict).

(** [main]: [open_handle] opens the registry of the options, in process or over
    the wire. *)
Definition cli_main {H} `{Handle H} (open_handle : Options -> Outcome H) (files : Files) (clock : nat -> Z) (argv : list string)
    : Z * option (Process H) :=
  match parse_arguments argv default_cli_options [] with
  | inr exit => (ex_code exit, None)
  | inl (o, arguments) =>
      if is_empty (opt_store o) && negb (opt_has_endpoint o) then (2, None)
      else if negb (is_empty (opt_store o)) && opt_has_endpoint o then (2, None)
      else
        match open_handle o with
        | inr error => (1, None)
        | inl h => let '(code, p) := run_main o files arguments clock h in (code, Some p)
        end
  end.
