(* ===== verification/CliRuns.v ===== *)
(** * What a run of the command line tool does

    A script is a plan: which sessions it opens and which records it sends, in
    which order, follows from its text alone, never from the answers.  A run
    carries the plan out until the handle fails.  From this follow the numbering of
    the records, the exit code, that a run over the wire is a run in process, and
    that two runs with the same time base give the same picture. *)
From S2P Require Import Prelude OrdMap Types Ids Graph Codec State Fold Derive Log Snapshot Store Admit Ingest Session Recovery Invariant Replica Views SnapshotBuild Server Client Remote Durability Guarantees Twins Text Names Json Render Script Cli.
From Stdlib Require Import (notations) Ascii.
#[local] Open Scope string_scope.
#[local] Open Scope Z_scope.

(** ** The plan of a script *)

(** What the publisher knows besides its counts and its handle. *)
Record Desk := mkDesk {
  dk_streams : ordmap SourceId StreamState;
  dk_names : ordmap string SourceId;
  dk_current : SourceId;
  dk_clock : nat -> Z;
}.

Definition raise_stream (s : StreamState) : StreamState :=
  mkStream (st_id s) (st_incarnation s) (wrap64 (st_generation s + 1)) (st_name s).

Definition desk_stream (d : Desk) : StreamState := default (mkStream nil_id 1 0 "") (map_find (dk_current d) (dk_streams d)).

Definition plan_step (options : Options) (step : Step) (d : Desk) : Parse (list Order * Desk) :=
  match step with
  | SourceStep descriptor incarnation =>
      mret ([OpenOrder descriptor incarnation],
            mkDesk (map_set (src_id descriptor) (mkStream (src_id descriptor) incarnation 0 (src_name descriptor)) (dk_streams d))
              (map_set (src_name descriptor) (src_id descriptor) (dk_names d)) (src_id descriptor) (dk_clock d))
  | UseStep name =>
      match map_find name (dk_names d) with
      | None => die ("no source named '" +:+ name +:+ "' has been opened")
      | Some id => mret ([], mkDesk (dk_streams d) (dk_names d) id (dk_clock d))
      end
  | PublishStep payload =>
      if is_nil (dk_current d) then die "open a source before publishing evidence"
      else
        let stream := raise_stream (desk_stream d) in
        mret ([PublishOrder (make_evidence options (dk_clock d 0%nat) stream payload)],
              mkDesk (map_set (dk_current d) stream (dk_streams d)) (dk_names d) (dk_current d)
                (if opt_fixed_time options then dk_clock d else fun i => dk_clock d (S i)))
  end.

(** The step of a line, if it has one. *)
Definition read_line (line_number : Z) (line : Text) : Parse (option Step) :=
  match split (strip_comment line) with
  | [] => mret None
  | command :: rest => step ← read_step command (command :: rest) line_number; mret (Some step)
  end.

(** The orders up to the end of the script, or up to the line that ends the
    process. *)
Fixpoint plan_lines (options : Options) (line_number : Z) (lines : list Text) (d : Desk) : list Order * (unit + Exit) :=
  match lines with
  | [] => ([], inl tt)
  | line :: lines =>
      match read_line line_number line with
      | inr exit => ([], inr exit)
      | inl None => plan_lines options (line_number + 1) lines d
      | inl (Some step) =>
          match plan_step options step d with
          | inr exit => ([], inr exit)
          | inl (orders, d) => let '(more, ending) := plan_lines options (line_number + 1) lines d in ((orders ++ more)%list, ending)
          end
      end
  end.

Definition empty_desk (clock : nat -> Z) : Desk := mkDesk [] [] nil_id clock.

(** The plan of a whole script. *)
Definition plan_script (options : Options) (clock : nat -> Z) (script : Text) : list Order * (unit + Exit) :=
  plan_lines options 1 (lines_of script) (empty_desk clock).

(** ** Carrying it out *)

Section carry.
Context {H : Type} `{Handle H}.

Definition send (order : Order) (h : H) : Outcome Reply * H :=
  match order with
  | OpenOrder descriptor incarnation =>
      let '(result, h) := handle_open_session descriptor incarnation h in
      (match result with inl value => inl (OpenReply value) | inr error => inr error end, h)
  | PublishOrder evidence =>
      let '(result, h) := handle_publish evidence h in
      (match result with inl value => inl (PublishReply value) | inr error => inr error end, h)
  end.

(** Up to the first failure of the handle. *)
Fixpoint send_all (orders : list Order) (h : H) : list Reply * option Error * H :=
  match orders with
  | [] => ([], None, h)
  | order :: orders =>
      match send order h with
      | (inr error, h) => ([], Some error, h)
      | (inl reply, h) => let '(replies, failure, h) := send_all orders h in (reply :: replies, failure, h)
      end
  end.

(** What a script prints for a reply. *)
Definition reply_out (options : Options) (reply : Reply) : list Text :=
  match reply with
  | OpenReply _ => []
  | PublishReply result => if opt_verbose options then [to_json_ingest_result result] else []
  end.
Definition reply_err (reply : Reply) : list Text :=
  match reply with
  | OpenReply _ => []
  | PublishReply result => if is_accepted (ir_disposition result) then [] else [refusal_line result]
  end.

(** What it counts. *)
Definition is_publish (reply : Reply) : bool := match reply with OpenReply _ => false | PublishReply _ => true end.
Definition is_refused (reply : Reply) : bool :=
  match reply with OpenReply _ => false | PublishReply result => negb (is_accepted (ir_disposition result)) end.
Definition count_of (p : Reply -> bool) (replies : list Reply) : Z := zlen (filter (fun r => p r = true) replies).

Definition desk_of (p : Process H) : Desk := mkDesk (pr_streams p) (pr_names p) (pr_current p) (pr_clock p).

(** A run that got the replies [replies]: the counters and the output. *)
Record ran (options : Options) (replies : list Reply) (h : H) (p p' : Process H) : Prop := {
  rn_handle : pr_handle p' = h;
  rn_published : pr_published p' = wrap64 (pr_published p + count_of is_publish replies);
  rn_refused : pr_refused p' = wrap64 (pr_refused p + count_of is_refused replies);
  rn_out : pr_out p' = (pr_out p ++ (replies ≫= reply_out options))%list;
  rn_err : pr_err p' = (pr_err p ++ (replies ≫= reply_err))%list;
}.

Lemma count_cons f r replies : count_of f (r :: replies) = (if f r then 1 else 0) + count_of f replies.
Proof.
  unfold count_of. rewrite filter_cons. destruct (f r) eqn:E.
  - rewrite decide_True by done. by rewrite zlen_cons.
  - rewrite decide_False by done. done.
Qed.

Lemma wrap_add a b c : wrap64 (wrap64 (a + b) + c) = wrap64 (a + (b + c)).
Proof. unfold wrap64. rewrite Zplus_mod_idemp_l. f_equal. lia. Qed.

Lemma ran_nil options p : is_u64 (pr_published p) -> is_u64 (pr_refused p) -> ran options [] (pr_handle p) p p.
Proof. intros Hp Hr. split; [done|..]; cbn; rewrite ?Z.add_0_r, ?wrap64_small, ?app_nil_r by done; done. Qed.

Lemma ran_app options rs1 rs2 h1 h2 p1 p2 p3 :
  ran options rs1 h1 p1 p2 -> ran options rs2 h2 p2 p3 -> ran options (rs1 ++ rs2) h2 p1 p3.
Proof.
  intros [_ P1 R1 O1 E1] [Hh P2 R2 O2 E2].
  assert (Hc : forall f, count_of f (rs1 ++ rs2) = count_of f rs1 + count_of f rs2)
    by (intros f; unfold count_of; by rewrite filter_app, zlen_app).
  split; [done|..].
  - by rewrite P2, P1, wrap_add, Hc.
  - by rewrite R2, R1, wrap_add, Hc.
  - rewrite O2, O1, bind_app, app_assoc. done.
  - rewrite E2, E1, bind_app, app_assoc. done.
Qed.

Definition counters_ok (p : Process H) : Prop := is_u64 (pr_published p) /\ is_u64 (pr_refused p).

Lemma ran_counters options replies h p p' : ran options replies h p p' -> counters_ok p'.
Proof. intros [_ Hp Hr _ _]. unfold counters_ok. rewrite Hp, Hr. split; apply wrap64_u64. Qed.

Definition ended (failure : option Error) (ending : unit + Exit) : unit + Exit :=
  match failure with Some error => inr (mkExit 2 (describe error)) | None => ending end.

Lemma count_nil f : count_of f [] = 0.
Proof. done. Qed.

(** Closes [ran] of a process whose fields are known. *)
#[local] Ltac ran_fields :=
  split; cbn [pr_handle pr_published pr_refused pr_out pr_err]; rewrite ?count_cons, ?count_nil; cbn;
  rewrite ?Z.add_0_r, ?wrap64_small, ?app_nil_r by done; try done.

(** A step does what is planned for it. *)
Lemma run_step_plan options step p :
  counters_ok p ->
  match plan_step options step (desk_of p) with
  | inr exit => run_step options step p = (inr exit, p)
  | inl (orders, d) =>
      let '(replies, failure, h) := send_all orders (pr_handle p) in
      exists p', run_step options step p = (ended failure (inl tt), p') /\ ran options replies h p p' /\
        (failure = None -> desk_of p' = d)
  end.
Proof.
  intros [Hp Hr]. destruct step as [descriptor incarnation|name|payload]; cbn [plan_step run_step].
  - cbn [mret Parse_ret send_all send]. unfold publisher_open_source, mbind, Run_bind, ask, value_or_die.
    destruct (handle_open_session _ _ _) as [[value|error] h]; cbn -[count_of wrap64];
      (eexists; split; [reflexivity|]); (split; [|done]); ran_fields.
  - unfold publisher_use. cbn [desk_of dk_names]. destruct (map_find name (pr_names p)) as [id|]; [|done].
    cbn. eexists. split; [reflexivity|]. split; [|done]. ran_fields.
  - unfold publisher_publish, mbind, Run_bind. cbn [desk_of dk_current]. destruct (is_nil (pr_current p)); [reflexivity|].
    cbn [mret Parse_ret send_all send]. unfold next_record, ask, value_or_die. cbn [pr_handle].
    change (desk_stream (desk_of p)) with (current_stream p). fold (raise_stream (current_stream p)).
    cbn [desk_of dk_clock dk_current dk_streams dk_names].
    destruct (handle_publish _ _) as [[value|error] h]; cbn -[count_of wrap64 to_json_ingest_result refusal_line is_accepted].
    + destruct (opt_verbose options) eqn:Ev; destruct (is_accepted (ir_disposition value)) eqn:Ea;
        cbn -[count_of wrap64 to_json_ingest_result refusal_line is_accepted]; (eexists; split; [reflexivity|]); (split; [|done]);
        split; cbn -[count_of wrap64 to_json_ingest_result refusal_line is_accepted]; rewrite ?Ev, ?Ea, ?count_cons, ?count_nil;
        cbn -[wrap64 to_json_ingest_result refusal_line is_accepted]; rewrite ?Ev, ?Ea, ?Z.add_0_r, ?app_nil_r; try done;
        cbn -[wrap64]; by rewrite ?Z.add_0_r, wrap64_small.
    + eexists. split; [reflexivity|]. split; [|done]. ran_fields.
Qed.

Lemma send_all_app o1 o2 h :
  send_all (o1 ++ o2) h =
  let '(rs1, failure, h) := send_all o1 h in
  match failure with
  | Some error => (rs1, Some error, h)
  | None => let '(rs2, failure, h) := send_all o2 h in ((rs1 ++ rs2)%list, failure, h)
  end.
Proof.
  revert h. induction o1 as [|o o1 IH]; intros h; cbn [app send_all].
  - by destruct (send_all o2 h) as [[rs2 f] h'].
  - destruct (send o h) as [[reply|error] h1]; [|done]. rewrite IH. destruct (send_all o1 h1) as [[rs1 [error|]] h2]; [done|].
    by destruct (send_all o2 h2) as [[rs2 f] h3].
Qed.

Lemma run_lines_cons options n line lines (p : Process H) :
  run_lines options n (line :: lines) p =
  match read_line n line with
  | inr exit => (inr exit, p)
  | inl None => run_lines options (n + 1) lines p
  | inl (Some step) =>
      match run_step options step p with (inl _, p) => run_lines options (n + 1) lines p | (inr exit, p) => (inr exit, p) end
  end.
Proof.
  cbn [run_lines]. unfold read_line. destruct (split (strip_comment line)) as [|command rest]; [done|].
  unfold mbind, Run_bind, Parse_bind, lift. by destruct (read_step _ _ _).
Qed.

(** A script does what is planned for it, until its handle fails. *)
Lemma run_lines_plan options n lines p :
  counters_ok p ->
  let '(orders, ending) := plan_lines options n lines (desk_of p) in
  let '(replies, failure, h) := send_all orders (pr_handle p) in
  exists p', run_lines options n lines p = (ended failure ending, p') /\ ran options replies h p p'.
Proof.
  revert n p. induction lines as [|line lines IH]; intros n p Hc.
  - cbn. exists p. split; [done|]. by apply ran_nil; apply Hc.
  - cbn [plan_lines]. rewrite run_lines_cons. destruct (read_line n line) as [[step|]|exit].
    + pose proof (run_step_plan options step p Hc) as Hs. destruct (plan_step options step (desk_of p)) as [[orders d]|exit].
      2: { cbn. rewrite Hs. exists p. split; [done|]. by apply ran_nil; apply Hc. }
      destruct (plan_lines options (n + 1) lines d) as [more ending] eqn:Em. rewrite send_all_app.
      destruct (send_all orders (pr_handle p)) as [[rs1 failure] h1]. destruct Hs as (p1 & E1 & R1 & Hd).
      destruct failure as [error|]; cbn [ended] in E1; rewrite E1; [by exists p1|].
      specialize (IH (n + 1) p1 (ran_counters _ _ _ _ _ R1)). rewrite (Hd eq_refl), Em, (rn_handle _ _ _ _ _ R1) in IH.
      destruct (send_all more h1) as [[rs2 failure] h2]. destruct IH as (p2 & E2 & R2).
      exists p2. split; [done|]. by eapply ran_app.
    + by apply IH.
    + cbn. exists p. split; [done|]. by apply ran_nil; apply Hc.
Qed.
End carry.

(** ** In process *)

Section local.
Context {S : Type} `{AppendLog S, StoreCounters S}.
Implicit Types h : Local S.

Lemma local_send order h :
  send order h = (inl (carry_out (lc_clock h 0%nat) order (lc_registry h)).1,
                  next_call (carry_out (lc_clock h 0%nat) order (lc_registry h)).2 h).
Proof.
  destruct order as [d i|e]; cbn.
  - by destruct (open_session _ _ _ _ _).
  - by destruct (registry_ingest _ _ _).
Qed.

(** A registry in process never fails a call. *)
Lemma local_sends orders h :
  exists h', send_all orders h = ((carry_all (lc_clock h) orders (lc_registry h)).1, None, h') /\
    lc_registry h' = (carry_all (lc_clock h) orders (lc_registry h)).2.
Proof.
  revert h. induction orders as [|order orders IH]; intros h; [by exists h|]. cbn [send_all carry_all]. rewrite local_send.
  destruct (carry_out _ order _) as [reply impl]. cbn [fst snd]. destruct (IH (next_call impl h)) as (h' & E & Er).
  exists h'. rewrite E. cbn [next_call lc_registry lc_clock] in *. by destruct (carry_all _ orders impl).
Qed.

Lemma new_counters_ok (clock : nat -> Z) h : counters_ok (new_process clock h).
Proof. split; by split. Qed.

(** A script in process. *)
Lemma local_script options path script clock h :
  let '(orders, ending) := plan_script options clock script in
  let '(replies, registry) := carry_all (lc_clock h) orders (lc_registry h) in
  exists p, run_script options path (Some script) (new_process clock h) = (ending, p) /\
    lc_registry (pr_handle p) = registry /\
    pr_published p = wrap64 (count_of is_publish replies) /\ pr_refused p = wrap64 (count_of is_refused replies) /\
    pr_err p = replies ≫= reply_err /\ pr_out p = replies ≫= reply_out options.
Proof.
  pose proof (run_lines_plan options 1 (lines_of script) (new_process clock h) (new_counters_ok clock h)) as Hrun.
  unfold plan_script. change (desk_of (new_process clock h)) with (empty_desk clock) in Hrun.
  destruct (plan_lines options 1 (lines_of script) (empty_desk clock)) as [orders ending]. cbn [new_process pr_handle] in Hrun.
  destruct (local_sends orders h) as (h' & Es & Er). rewrite Es in Hrun.
  destruct (carry_all (lc_clock h) orders (lc_registry h)) as [replies registry]. cbn [fst snd ended] in *.
  destruct Hrun as (p & Ep & [Hh Hp Hr Ho He]). exists p. by rewrite Hh.
Qed.

(** C34: A script is carried out as planned. The sessions a script opens and the
    records it sends depend on its text, the options and the wall clock, not on
    the answers: a run in process sends exactly the orders of the plan, in order,
    prints one line per record when it is verbose and one complaint per refused
    record, and exits as the line that ended it demands, or with 1 if any record
    was refused and 0 otherwise. *)
Theorem script_carries_out_its_plan options path script clock h :
  let '(orders, ending) := plan_script options clock script in
  let '(replies, registry) := carry_all (lc_clock h) orders (lc_registry h) in
  let published := wrap64 (count_of is_publish replies) in
  let refused := wrap64 (count_of is_refused replies) in
  let report := braces (json_counted "published" published ++ [","%char] ++ json_counted "refused" refused) in
  exists p,
    (_ ← run_script options path (Some script); script_report) (new_process clock h) =
      (match ending with inl _ => inl (if refused =? 0 then 0 else 1) | inr exit => inr exit end, p) /\
    lc_registry (pr_handle p) = registry /\ pr_published p = published /\ pr_refused p = refused /\
    pr_err p = replies ≫= reply_err /\
    pr_out p = ((replies ≫= reply_out options) ++ (match ending with inl _ => [report] | inr _ => [] end))%list.
Proof.
  pose proof (local_script options path script clock h) as Hrun. destruct (plan_script options clock script) as [orders ending].
  destruct (carry_all (lc_clock h) orders (lc_registry h)) as [replies registry].
  destruct Hrun as (p & Ep & Hh & Hp & Hr & He & Ho). unfold mbind, Run_bind. rewrite Ep. destruct ending as [[]|exit].
  - eexists. split; [unfold script_report; rewrite Hr; reflexivity|]. cbn [print snd pr_handle pr_published pr_refused pr_out pr_err].
    by rewrite Hh, Hp, Hr, Ho, He.
  - exists p. split; [done|]. rewrite Hh, Hp, Hr, Ho, He. by rewrite app_nil_r.
Qed.
End local.

(** ** Over the wire *)

Section wire.
Context {S : Type} `{AppendLog S, StoreCounters S}.
Context (limits : Limits) (Hlim : limits_u32 limits).
Implicit Types (c : Client) (x : Connection S).

Definition call_of (order : Order) : Call :=
  match order with
  | OpenOrder descriptor incarnation => OpenSessionCall descriptor incarnation
  | PublishOrder evidence => PublishCall evidence
  end.

(** Every request and every answer of the orders fits its types and its frame. *)
Fixpoint all_fit (clock : nat -> nat -> Z) (orders : list Order) (impl : Impl S) : Prop :=
  match orders with
  | [] => True
  | order :: orders =>
      request_ok limits (call_of order) /\ reply_ok limits (call_of order) (local_call (call_of order) (clock 0%nat) impl).1 /\
      all_fit (fun i => clock (Datatypes.S i)) orders (carry_out (clock 0%nat) order impl).2
  end.

Lemma remote_send order c x :
  connected limits c x -> request_ok limits (call_of order) ->
  reply_ok limits (call_of order) (local_call (call_of order) (cx_clock x 0%nat) (registry_of x)).1 ->
  exists x', send order (c, x) = (inl (carry_out (cx_clock x 0%nat) order (registry_of x)).1, (next_request c, x')) /\
    left_with limits (carry_out (cx_clock x 0%nat) order (registry_of x)).2 c x x'.
Proof using Hlim.
  intros Hx Hq Hr. destruct order as [d i|e]; cbn [call_of local_call carry_out send] in *.
  - pose proof (open_call limits Hlim c x d i) as Ho. destruct (open_session _ _ _ _ _) as [result impl].
    destruct (Ho Hx Hq Hr) as (x' & E & Hl). exists x'. cbn. unfold remote_do. cbn. by rewrite E.
  - pose proof (publish_call limits Hlim c x e) as Hp. destruct (registry_ingest _ _ _) as [result impl].
    destruct (Hp Hx Hq Hr) as (x' & E & Hl). exists x'. cbn. unfold remote_do. cbn. by rewrite E.
Qed.

Lemma remote_sends orders c x :
  connected limits c x -> all_fit (cx_clock x) orders (registry_of x) ->
  exists c' x', send_all orders (c, x) = ((carry_all (cx_clock x) orders (registry_of x)).1, None, (c', x')) /\
    registry_of x' = (carry_all (cx_clock x) orders (registry_of x)).2 /\ connected limits c' x'.
Proof using Hlim.
  revert c x. induction orders as [|order orders IH]; intros c x Hx Hfit; [by exists c, x|]. destruct Hfit as (Hq & Hr & Hfit).
  destruct (remote_send order c x Hx Hq Hr) as (x1 & E & Er & Hx1 & Ec). cbn [send_all carry_all]. rewrite E.
  destruct (carry_out _ order _) as [reply impl]. cbn [fst snd] in *. subst impl. rewrite <- Ec in Hfit |- *.
  destruct (IH _ _ Hx1 Hfit) as (c' & x' & -> & Hreg & Hx'). exists c', x'. by destruct (carry_all _ orders (registry_of x1)).
Qed.

End wire.

(** ** The numbering of the records *)

(** The session a source has after some orders: its incarnation, and the records
    sent in it. *)
Definition session_step (source : SourceId) (session : option (Z * Z)) (order : Order) : option (Z * Z) :=
  match order with
  | OpenOrder descriptor incarnation => if keqb source (src_id descriptor) then Some (incarnation, 0) else session
  | PublishOrder evidence =>
      if keqb source (hdr_source (ev_header evidence)) then prod_map id (Z.add 1) <$> session else session
  end.
Definition session_of (source : SourceId) (orders : list Order) : option (Z * Z) := foldl (session_step source) None orders.

(** The record continues the session its source has after [before]. *)
Definition in_sequence (before : list Order) (evidence : Evidence) : Prop :=
  exists sent, session_of (hdr_source (ev_header evidence)) before = Some (hdr_incarnation (ev_header evidence), sent) /\
    hdr_generation (ev_header evidence) = wrap64 (sent + 1) /\
    hdr_id (ev_header evidence) = evidence_id (hdr_source (ev_header evidence)) (hdr_generation (ev_header evidence)).

(** The desk knows the sessions its orders opened. *)
Record tracks (d : Desk) (before : list Order) : Prop := {
  tk_streams : forall source s, map_find source (dk_streams d) = Some s ->
    st_id s = source /\ exists sent, session_of source before = Some (st_incarnation s, sent) /\ st_generation s = wrap64 sent;
  tk_current : is_nil (dk_current d) = true \/ is_Some (map_find (dk_current d) (dk_streams d));
  tk_names : forall name source, map_find name (dk_names d) = Some source -> is_Some (map_find source (dk_streams d));
}.

Lemma session_snoc source before order : session_of source (before ++ [order]) = session_step source (session_of source before) order.
Proof. unfold session_of. by rewrite foldl_app. Qed.

Lemma tracks_open d before descriptor incarnation :
  tracks d before ->
  tracks (mkDesk (map_set (src_id descriptor) (mkStream (src_id descriptor) incarnation 0 (src_name descriptor)) (dk_streams d))
    (map_set (src_name descriptor) (src_id descriptor) (dk_names d)) (src_id descriptor) (dk_clock d))
    (before ++ [OpenOrder descriptor incarnation]).
Proof.
  intros [Hs _ Hn]. split; cbn [dk_streams dk_names dk_current].
  - intros source s. rewrite session_snoc, find_set. cbn [session_step]. destruct (keqb source _) eqn:E.
    + intros [= <-]. apply keqb_eq in E. split; [done|]. by exists 0.
    + apply Hs.
  - right. rewrite find_set, keqb_refl. by eexists.
  - intros name source. rewrite !find_set. destruct (keqb name _); [intros [= <-]; rewrite keqb_refl; by eexists|].
    intros Hf. destruct (keqb source _); [by eexists|by eapply Hn].
Qed.

Lemma tracks_publish options d before payload :
  tracks d before -> is_nil (dk_current d) = false ->
  let evidence := make_evidence options (dk_clock d 0%nat) (raise_stream (desk_stream d)) payload in
  in_sequence before evidence /\
  forall clock, tracks (mkDesk (map_set (dk_current d) (raise_stream (desk_stream d)) (dk_streams d)) (dk_names d) (dk_current d) clock)
    (before ++ [PublishOrder evidence]).
Proof.
  intros [Hs Hc Hn] Hnil. destruct Hc as [Hc|[s Hf]]; [congruence|]. destruct (Hs _ _ Hf) as (Hid & sent & Hses & Hgen).
  assert (Ed : desk_stream d = s) by (unfold desk_stream; by rewrite Hf). rewrite Ed. cbn zeta.
  assert (Eg : wrap64 (st_generation s + 1) = wrap64 (sent + 1)) by (rewrite Hgen; unfold wrap64; by rewrite Zplus_mod_idemp_l).
  split.
  - exists sent. cbn. by rewrite Hid, Hses.
  - intros clock. split; cbn [dk_streams dk_names dk_current].
    + intros source s'. rewrite session_snoc, find_set. cbn [session_step make_evidence ev_header hdr_source raise_stream st_id].
      rewrite Hid. destruct (keqb source _) eqn:E; [|apply Hs]. intros [= <-]. apply keqb_eq in E as ->.
      split; [done|]. exists (sent + 1). rewrite Hses. split; [|done]. cbn. by rewrite (Z.add_comm 1).
    + right. rewrite find_set, keqb_refl. by eexists.
    + intros name source Hf'. rewrite find_set. destruct (keqb source _); [by eexists|by eapply Hn].
Qed.

Lemma plan_in_sequence options n lines d before pre evidence post :
  tracks d before -> (plan_lines options n lines d).1 = (pre ++ PublishOrder evidence :: post)%list ->
  in_sequence (before ++ pre) evidence.
Proof.
  revert n d before pre. induction lines as [|line lines IH]; intros n d before pre Ht; cbn [plan_lines]; [by destruct pre|].
  destruct (read_line n line) as [[step|]|exit]; [|by apply IH|by destruct pre].
  destruct step as [descriptor incarnation|name|payload]; cbn [plan_step].
  - cbn [mret Parse_ret]. pose proof (tracks_open d before descriptor incarnation Ht) as Ht'.
    set (d' := mkDesk _ _ _ _) in *. specialize (IH (n + 1) d' _ (tail pre) Ht').
    destruct (plan_lines options (n + 1) lines d') as [more ending]. cbn [fst app] in *.
    destruct pre as [|o pre]; [done|]. cbn [app tail] in *. intros [= <- E]. rewrite <- app_assoc in IH. by apply IH.
  - destruct (map_find name (dk_names d)) as [source|] eqn:E; [|by destruct pre]. cbn [mret Parse_ret].
    specialize (IH (n + 1) (mkDesk (dk_streams d) (dk_names d) source (dk_clock d)) before pre).
    destruct (plan_lines options (n + 1) lines _) as [more ending]. cbn [fst app] in *. apply IH. destruct Ht as [Hs _ Hn].
    split; [done| |done]. right. by eapply Hn.
  - destruct (is_nil (dk_current d)) eqn:Enil; [by destruct pre|]. cbn [mret Parse_ret].
    destruct (tracks_publish options d before payload Ht Enil) as [Hseq Ht'].
    set (e := make_evidence _ _ _ payload) in *. set (clock := if opt_fixed_time options then _ else _). specialize (Ht' clock).
    set (d' := mkDesk _ _ _ clock) in *. specialize (IH (n + 1) d' _ (tail pre) Ht').
    destruct (plan_lines options (n + 1) lines d') as [more ending]. cbn [fst app] in *.
    destruct pre as [|o pre]; cbn [app tail] in *.
    + intros [= <- _]. by rewrite app_nil_r.
    + intros [= <- E]. rewrite <- app_assoc in IH. by apply IH.
Qed.

(** A handle that keeps a list of the sessions opened and the records sent through
    it, and otherwise is the handle inside it. *)
Record Traced (H : Type) := mkTraced { tr_inner : H; tr_orders : list Order }.
Arguments mkTraced {H} _ _.
Arguments tr_inner {H} _.
Arguments tr_orders {H} _.

Section traced.
Context {H : Type} `{Handle H}.

Definition tracing {A} (sent : list Order) (f : H -> Outcome A * H) (t : Traced H) : Outcome A * Traced H :=
  let '(result, h) := f (tr_inner t) in (result, mkTraced h (tr_orders t ++ sent)).

#[export] Instance traced_handle : Handle (Traced H) := {
  handle_open_session := fun descriptor incarnation =>
    tracing [OpenOrder descriptor incarnation] (handle_open_session descriptor incarnation);
  handle_publish := fun evidence => tracing [PublishOrder evidence] (handle_publish evidence);
  handle_query_port := fun port policy => tracing [] (handle_query_port port policy);
  handle_query_object := fun object => tracing [] (handle_query_object object);
  handle_history := fun object => tracing [] (handle_history object);
  handle_inspect := fun max_entries => tracing [] (handle_inspect max_entries);
  handle_snapshot := tracing [] handle_snapshot;
  handle_digest := tracing [] handle_digest;
  handle_stats := tracing [] handle_stats;
  handle_close := fun t => mkTraced (handle_close (tr_inner t)) (tr_orders t);
}.

Lemma traced_send order (t : Traced H) :
  send order t = let '(result, h) := send order (tr_inner t) in (result, mkTraced h (tr_orders t ++ [order])).
Proof.
  destruct order as [d i|e]; cbn; unfold tracing.
  - by destruct (handle_open_session _ _ _) as [[v|e] h].
  - by destruct (handle_publish _ _) as [[v|e'] h].
Qed.

(** The trace grows by orders from the front of the list, and the handle inside
    does not notice. *)
Lemma traced_sends orders (t : Traced H) :
  let '(replies, failure, h) := send_all orders (tr_inner t) in
  exists sent rest, orders = (sent ++ rest)%list /\ send_all orders t = (replies, failure, mkTraced h (tr_orders t ++ sent)).
Proof.
  revert t. induction orders as [|order orders IH]; intros t; cbn [send_all].
  - exists [], []. split; [done|]. rewrite app_nil_r. by destruct t.
  - rewrite traced_send. destruct (send order (tr_inner t)) as [[reply|error] h]; [|by exists [order], orders].
    specialize (IH (mkTraced h (tr_orders t ++ [order]))). cbn [tr_inner tr_orders] in IH.
    destruct (send_all orders h) as [[replies failure] h']. destruct IH as (sent & rest & -> & E).
    exists (order :: sent), rest. split; [done|]. rewrite E. by rewrite <- app_assoc.
Qed.

(** C35: Every record a script sends continues a session the script opened. A run of
    a script through any handle, watched from inside: the watched run ends as the
    run does and leaves the handle the run leaves, and for every record in the list
    of what was really sent, the source of the record was opened earlier in the
    same run, the record carries the incarnation of the latest opening, its
    generation is one more than the records sent since then (in 64 bits), and its
    identity is made of the source and the generation. *)
Theorem records_continue_their_session options path script clock (h : H) :
  exists ending p q,
    run_script options path (Some script) (new_process clock (mkTraced h [])) = (ending, p) /\
    run_script options path (Some script) (new_process clock h) = (ending, q) /\ tr_inner (pr_handle p) = pr_handle q /\
    forall pre evidence post, tr_orders (pr_handle p) = (pre ++ PublishOrder evidence :: post)%list -> in_sequence pre evidence.
Proof.
  assert (Hc : forall I (h : I), counters_ok (new_process clock h)) by (split; by split).
  pose proof (run_lines_plan options 1 (lines_of script) (new_process clock (mkTraced h [])) (Hc _ _)) as Ht.
  pose proof (run_lines_plan options 1 (lines_of script) (new_process clock h) (Hc _ _)) as Hr.
  pose proof (plan_in_sequence options 1 (lines_of script) (empty_desk clock) []) as Hseq.
  change (desk_of (new_process clock (mkTraced h []))) with (empty_desk clock) in Ht.
  change (desk_of (new_process clock h)) with (empty_desk clock) in Hr.
  destruct (plan_lines options 1 (lines_of script) (empty_desk clock)) as [orders ending]. cbn [new_process pr_handle fst] in *.
  pose proof (traced_sends orders (mkTraced h [])) as Htr. cbn [tr_inner tr_orders app] in Htr.
  destruct (send_all orders h) as [[replies failure] h']. destruct Htr as (sent & rest & -> & E). rewrite E in Ht.
  destruct Ht as (p & Ep & [Hp _ _ _ _]), Hr as (q & Eq & [Hq _ _ _ _]). exists (ended failure ending), p, q.
  rewrite Hp, Hq. split_and!; [done..|]. intros pre evidence post. cbn [tr_orders]. intros ->.
  apply (Hseq pre evidence (post ++ rest)%list); [split; [done|by left|done]|]. by rewrite <- app_assoc.
Qed.
End traced.

(** ** Reproducible runs *)

(** With a time base the plan does not depend on the wall clock. *)
Lemma plan_fixed options n lines d1 d2 :
  opt_fixed_time options = true -> dk_streams d1 = dk_streams d2 -> dk_names d1 = dk_names d2 -> dk_current d1 = dk_current d2 ->
  plan_lines options n lines d1 = plan_lines options n lines d2.
Proof.
  intros Hf. revert n d1 d2. induction lines as [|line lines IH]; intros n d1 d2 Es En Ec; [done|]. cbn [plan_lines].
  destruct (read_line n line) as [[step|]|exit]; [|by apply IH|done]. unfold plan_step, desk_stream. rewrite Es, En, Ec.
  destruct step as [descriptor incarnation|name|payload].
  - cbn. by erewrite IH.
  - destruct (map_find name (dk_names d2)); [|done]. cbn. by erewrite IH.
  - destruct (is_nil (dk_current d2)); [done|]. cbn [mret Parse_ret]. unfold make_evidence. rewrite Hf. by erewrite IH.
Qed.

(** The counts follow from the rulings. *)
Lemma count_rulings rs1 rs2 :
  record_ruling <$> rs1 = record_ruling <$> rs2 ->
  count_of is_publish rs1 = count_of is_publish rs2 /\ count_of is_refused rs1 = count_of is_refused rs2.
Proof.
  revert rs2. induction rs1 as [|r1 rs1 IH]; intros [|r2 rs2] E; try done. rewrite !fmap_cons in E. injection E as Er Ers.
  destruct (IH _ Ers) as [E1 E2]. rewrite !count_cons, E1, E2. by destruct r1, r2; cbn in *; simplify_eq; rewrite ?Er.
Qed.

(** A script with a time base is reproducible. Two runs of it, each in process on
    a registry of its own that was just opened with the same bounds, at different
    times and under different identities, end the same way and, unless a store
    failed, leave registries with the same graph digest. *)
Theorem scripts_are_reproducible {S1 S2} `{AppendLog S1, StoreCounters S1, AppendLog S2, StoreCounters S2} options path script
    o1 o2 on_store (h1 : Local S1) (h2 : Local S2) clock1 clock2 :
  opt_fixed_time options = true -> same_bounds o1 o2 ->
  opened_fresh o1 on_store (lc_registry h1) -> opened_fresh o2 on_store (lc_registry h2) ->
  let orders := (plan_script options clock1 script).1 in
  forallb reply_stored (carry_all (lc_clock h1) orders (lc_registry h1)).1 = true ->
  forallb reply_stored (carry_all (lc_clock h2) orders (lc_registry h2)).1 = true ->
  let '(end1, p1) := run_script options path (Some script) (new_process clock1 h1) in
  let '(end2, p2) := run_script options path (Some script) (new_process clock2 h2) in
  let digest {S} (h : Local S) := graph_digest (build_snapshot (im_state (lc_registry h)) (im_limits (lc_registry h))) in
  end1 = end2 /\ pr_published p1 = pr_published p2 /\ pr_refused p1 = pr_refused p2 /\
  digest (pr_handle p1) = digest (pr_handle p2).
Proof.
  intros Hf Hb O1 O2 orders P1 P2.
  pose proof (local_script options path script clock1 h1) as R1. pose proof (local_script options path script clock2 h2) as R2.
  assert (E : plan_script options clock2 script = plan_script options clock1 script) by by apply plan_fixed.
  rewrite E in R2. unfold orders in *. destruct (plan_script options clock1 script) as [os ending]. cbn [fst] in *.
  pose proof (twin_stream os (lc_clock h1) (lc_clock h2) _ _ (opened_twins _ _ _ _ _ Hb O1 O2)) as Ht.
  destruct (carry_all (lc_clock h1) os (lc_registry h1)) as [rs1 a], (carry_all (lc_clock h2) os (lc_registry h2)) as [rs2 b].
  destruct R1 as (p1 & -> & G1 & Q1 & Q2 & _), R2 as (p2 & -> & G2 & Q3 & Q4 & _). destruct (Ht P1 P2) as [Er Hab].
  rewrite Q1, Q2, Q3, Q4, G1, G2. destruct (count_rulings _ _ Er) as [-> ->]. split_and!; try done. by apply twins_digest.
Qed.

(** ** Commands that publish *)

(** A word of a script: no blank and no comment sign. *)
Definition script_word (t : Text) : Prop := t <> [] /\ Forall (fun c => isspace c = false /\ c <> "#"%char) t.

(** The end of the text, or a blank. *)
Definition stops (t : Text) : Prop := forall c, head t = Some c -> isspace c = true.

Lemma joined_starts acc fields :
  acc <> "" ->
  exists t, chars (foldl (fun joined text => (if is_empty joined then joined else joined +:+ " ") +:+ text) acc fields) =
    (chars acc ++ t)%list /\ stops t.
Proof.
  intros Hne. revert acc Hne. induction fields as [|f fields IH]; intros acc Hne; cbn [foldl].
  - exists []. by rewrite app_nil_r.
  - destruct acc as [|c acc]; [done|]. change (is_empty (String c acc)) with (slen (String c acc) =? 0).
    assert (Es : (slen (String c acc) =? 0) = false) by done. rewrite Es.
    destruct (IH ((String c acc +:+ " ") +:+ f) ltac:(done)) as (t & Et & _). exists ([" "%char] ++ chars f ++ t)%list.
    split; [|by intros ? [= <-]]. rewrite Et, !chars_app, <- !app_assoc. done.
Qed.

(** The first line of a text that starts with a word. *)
Lemma first_line w t :
  script_word w -> stops t -> exists u lines, lines_of (w ++ t) = ((w ++ u)%list :: lines) /\ stops u.
Proof.
  intros [Hne Hw] Ht. induction Hw as [|c w [Hc _] Hw IH]; [done|].
  assert (Hn : Ascii.eqb c "010" = false) by (destruct (Ascii.eqb_spec c "010") as [->|]; done).
  cbn [app lines_of]. rewrite Hn. destruct w as [|c' w].
  - cbn [app]. destruct t as [|d t]; [by exists [], []|]. cbn [lines_of]. destruct (Ascii.eqb d "010"); [by exists [], (lines_of t)|].
    destruct (lines_of t) as [|l ls]; (eexists _, _; split; [reflexivity|]); intros e [= <-]; by apply Ht.
  - destruct (IH ltac:(done)) as (u & lines & -> & Hu). by exists u, lines.
Qed.

Lemma strip_word w t : script_word w -> stops t -> exists u, strip_comment (w ++ t) = (w ++ u)%list /\ stops u.
Proof.
  intros [_ Hw] Ht. induction Hw as [|c w [_ Hc] Hw IH]; cbn [app strip_comment].
  - exists (strip_comment t). split; [done|]. destruct t as [|d t]; [done|]. cbn. destruct (Ascii.eqb d "#"); [done|].
    intros e [= <-]. by apply Ht.
  - destruct IH as (u & -> & Hu). destruct (Ascii.eqb_spec c "#"); [done|]. by exists u.
Qed.

Lemma split_word w t :
  script_word w -> stops t -> exists fields, split (w ++ t) = String.string_of_list_ascii w :: fields.
Proof.
  intros [Hne Hw] Ht. unfold split. destruct w as [|c w]; [done|]. cbn [app length split_fuel skip_blanks].
  apply Forall_cons in Hw as [[Hc _] Hw]. rewrite Hc.
  assert (E : span_token (c :: w ++ t) = (c :: w, t)).
  { cbn [span_token]. rewrite Hc. assert (span_token (w ++ t) = (w, t)) as ->; [|done].
    induction Hw as [|d w [Hd _] Hw IH]; cbn [app span_token].
    - destruct t as [|d t]; [done|]. cbn. by rewrite (Ht d eq_refl).
    - by rewrite Hd, IH. }
  rewrite E. by eexists.
Qed.

(** A mistake in an argument ends the process with code 2. *)
Definition dies {A} (m : Parse A) : Prop := match m with inl _ => True | inr exit => ex_code exit = 2 end.

Lemma dies_bind {A B} (m : Parse A) (k : A -> Parse B) : dies m -> (forall a, dies (k a)) -> dies (m ≫= k).
Proof. by destruct m; cbn; intros Hm Hk; [apply Hk|]. Qed.

Create HintDb script discriminated.
#[export] Hint Extern 1 (dies _) => unfold dies, die; cbn; done : script.

Ltac dies_tac :=
  repeat first
    [ done
    | solve [auto with script nocore]
    | apply dies_bind; [|intros ?]
    | match goal with |- dies (match ?x with _ => _ end) => destruct x | |- dies (if ?x then _ else _) => destruct x end ].

Lemma dies_field fields index what : dies (field fields index what).
Proof. unfold field. by destruct (fields !! index). Qed.
#[export] Hint Resolve dies_field : script.

Lemma dies_u64 text what : dies (parse_u64 text what).
Proof. unfold parse_u64. destruct (is_empty text); [done|]. destruct (strtoull _) as [value [|c t]]; done. Qed.
#[export] Hint Resolve dies_u64 : script.

Lemma dies_id text what : dies (parse_id text what).
Proof. unfold parse_id. destruct (parse_hex_id text) as [v|]; [|done]. by destruct (is_nil128 v). Qed.
#[export] Hint Resolve dies_id : script.

Lemma dies_object text what : dies (object_of_text text what).
Proof. unfold object_of_text. dies_tac. Qed.
Lemma dies_port fields index e p : dies (read_port fields index e p).
Proof. unfold read_port, build_port. dies_tac. Qed.
Lemma dies_subject fields : dies (read_subject fields).
Proof. unfold read_subject, object_of_text. dies_tac. Qed.
Lemma dies_optional fields index what z : dies (read_optional fields index what z).
Proof. unfold read_optional. dies_tac. Qed.
#[export] Hint Resolve dies_object dies_port dies_subject dies_optional : script.

Lemma dies_build_object fields : dies (build_object fields).
Proof. unfold build_object. dies_tac. Qed.
Lemma dies_build_endpoint fields : dies (build_endpoint fields).
Proof. unfold build_endpoint. dies_tac. Qed.

(** What an inline command becomes. *)
Definition publishes (m : Parse Step) : Prop :=
  match m with inl (PublishStep _) => True | inl _ => False | inr exit => ex_code exit = 2 end.

Lemma publishes_bind (m : Parse EvidencePayload) : dies m -> publishes (payload ← m; mret (PublishStep payload)).
Proof. by destruct m. Qed.

Lemma inline_publishes command fields n :
  command ∈ (["attach"; "detach"; "move"; "reincarnate"; "quarantine"; "release"; "remove"; "retire"; "port-capability"]) ->
  publishes (read_step command fields n).
Proof.
  rewrite !elem_of_cons, elem_of_nil. intros Hc. destruct_or!; try done; subst; cbn [read_step String.eqb Ascii.eqb Bool.eqb lifecycle_command];
    apply publishes_bind.
  - unfold read_attach. dies_tac.
  - unfold read_detach. dies_tac.
  - unfold read_move. dies_tac.
  - unfold read_reincarnate. dies_tac.
  - unfold read_lifecycle. dies_tac.
  - unfold read_lifecycle. dies_tac.
  - unfold read_lifecycle. dies_tac.
  - unfold read_lifecycle. dies_tac.
  - unfold read_port_capability. dies_tac.
Qed.

(** The commands an inline script can start with. *)
Definition inline_names : list string :=
  ["attach"; "detach"; "move"; "reincarnate"; "quarantine"; "release"; "remove"; "retire"; "port-capability"].

(** A line that breaks off inside the command is no command at all. *)
Lemma cut_publishes command count fields n :
  command ∈ inline_names -> publishes (read_step (String.string_of_list_ascii (take (S count) (chars command))) fields n).
Proof.
  intros Hc. destruct (decide (length (chars command) <= S count)%nat) as [Hl|Hl].
  - rewrite take_ge by done. unfold chars. rewrite String.string_of_list_ascii_of_string. by apply inline_publishes.
  - unfold inline_names in Hc. rewrite !elem_of_cons, elem_of_nil in Hc. destruct_or!; try done; subst; cbn in Hl;
      do 15 (destruct count as [|count]; [first [reflexivity | exfalso; lia]|]); lia.
Qed.

(** The first line of a script that starts with a word. *)
Lemma script_first w t :
  script_word w -> stops t ->
  exists line lines fields, lines_of (w ++ t) = line :: lines /\
    read_line 1 line = (step ← read_step (String.string_of_list_ascii w) (String.string_of_list_ascii w :: fields) 1; mret (Some step)).
Proof.
  intros Hw Ht. destruct (first_line w t Hw Ht) as (u & lines & El & Hu).
  destruct (strip_word w u Hw Hu) as (v & Ev & Hv). destruct (split_word w v Hw Hv) as (fields & Ef).
  exists (w ++ u)%list, lines, fields. split; [done|]. unfold read_line. by rewrite Ev, Ef.
Qed.

Lemma cut_word w count : script_word w -> script_word (take (S count) w).
Proof. intros [Hne Hw]. split; [by destruct w|by apply Forall_take]. Qed.

Lemma cut_stops t count : stops t -> stops (take count t).
Proof. destruct t, count; done. Qed.

(** Whatever part of the line of an inline command a script holds, its first line
    is one that publishes or ends the process. *)
Lemma inline_first command rest count :
  command ∈ inline_names -> script_word (chars command) ->
  exists line lines m, lines_of (take (S count) (chars (rest_of (command :: rest) 0) ++ ["010"%char])) = line :: lines /\
    (read_line 1 line = (step ← m; mret (Some step))) /\ publishes m.
Proof.
  intros Hc Hw. assert (Hne : command <> "") by (intros ->; by destruct Hw). unfold rest_of. cbn [drop foldl is_empty].
  destruct (joined_starts command rest Hne) as (t & Et & Ht). change (if is_empty "" then "" else "" +:+ " ") with "".
  change ("" +:+ command) with command. rewrite Et, <- app_assoc, take_app.
  assert (Hs : stops (t ++ ["010"%char])) by (by destruct t; [intros ? [= <-]|]).
  destruct (script_first _ _ (cut_word _ count Hw) (cut_stops _ (S count - length (chars command)) Hs)) as (line & lines & fields & El & Er).
  eexists line, lines, _. split; [exact El|]. split; [exact Er|]. by apply cut_publishes.
Qed.

Section one_shot.
Context {H : Type} `{Handle H}.

(** The part of the program ends the process with code 2, changing nothing. *)
Definition fails_here {A} (m : Run H A) (p : Process H) : Prop := exists message, m p = (inr (mkExit 2 message), p).

Lemma fails_bind {A B} (m : Run H A) (k : A -> Run H B) p : fails_here m p -> fails_here (m ≫= k) p.
Proof. intros [message E]. exists message. unfold mbind, Run_bind. by rewrite E. Qed.

Lemma publish_fails options payload p : is_nil (pr_current p) = true -> fails_here (publisher_publish options payload) p.
Proof. intros Hn. eexists. unfold publisher_publish. by rewrite Hn. Qed.

Lemma lift_fails {A B} (m : Parse A) (k : A -> Run H B) p :
  dies m -> (forall a, fails_here (k a) p) -> fails_here (lift m ≫= k) p.
Proof. destruct m as [a|[code message]]; cbn; [intros _ Hk; apply Hk|]. intros -> _. by exists message. Qed.

Lemma inline_fails options command rest count p :
  command ∈ inline_names -> script_word (chars command) -> is_nil (pr_current p) = true ->
  fails_here (run_lines options 1 (lines_of (take (S count) (chars (rest_of (command :: rest) 0) ++ ["010"%char])))) p.
Proof.
  intros Hc Hw Hn. destruct (inline_first command rest count Hc Hw) as (line & lines & m & El & Er & Hp). rewrite El. unfold fails_here.
  rewrite run_lines_cons, Er. destruct m as [[| |payload]|[code message]]; cbn in Hp; try done.
  - destruct (publish_fails options payload p Hn) as [message E]. exists message. cbn. unfold mbind, Run_bind. by rewrite E.
  - subst code. by exists message.
Qed.

Lemma inline_words : Forall (fun command => script_word (chars command)) inline_names.
Proof. repeat constructor; done. Qed.

(** The command writes its script and not one character of it arrives. *)
Definition script_lost (files : Files) (command : string) : bool :=
  one_of command inline_commands && match fi_inline files with Written O => true | _ => false end.

Lemma publish_command_ends options files command rest p :
  is_nil (pr_current p) = true -> fi_inline files <> Unopened ->
  if script_lost files command then publish_command options files command rest p = (inl tt, p)
  else fails_here (publish_command options files command rest) p.
Proof.
  intros Hn Hf. unfold script_lost, publish_command. destruct (String.eqb_spec command "publish-object") as [->|].
  { apply lift_fails; [apply dies_build_object|]. intros d. by apply fails_bind, publish_fails. }
  destruct (String.eqb_spec command "publish-endpoint") as [->|].
  { apply lift_fails; [apply dies_build_endpoint|]. intros d. by apply fails_bind, publish_fails. }
  destruct (one_of command inline_commands) eqn:Ec; cbn [andb]; [|by eexists]. unfold inline_content.
  destruct (fi_inline files) as [|[|count]|]; [done|done| |by eexists]. unfold run_script, inline_script.
  set (name := if String.eqb command "publish-port-capability" then "port-capability" else command).
  assert (Hin : name ∈ inline_names).
  { unfold one_of in Ec. apply existsb_exists in Ec as (x & Hx & <-%String.eqb_eq). apply list_elem_of_In in Hx.
    unfold inline_commands, inline_names in *. rewrite !elem_of_cons, elem_of_nil in Hx |- *. unfold name. clear name.
    destruct_or!; try done; subst; cbn; tauto. }
  pose proof inline_words as Hall. rewrite Forall_forall in Hall. by apply inline_fails; [|apply Hall|].
Qed.

Lemma publish_runs options files command rest clock (h : H) :
  command ∈ publish_commands -> fi_inline files <> Unopened ->
  exists p, run_main options files (command :: rest) clock h = (if script_lost files command then 0 else 2, p) /\
    pr_handle p = (if script_lost files command then handle_close h else h) /\ pr_out p = [].
Proof.
  intros Hin Hf. set (rest' := filter (fun text => text <> "--live-only") rest).
  pose proof (publish_command_ends options files command rest' (new_process clock h) eq_refl Hf) as Hend.
  assert (Ec : run_command options files command rest = (_ ← publish_command options files command rest'; mret 0)).
  { unfold publish_commands, inline_commands in Hin. cbn [app] in Hin. rewrite !elem_of_cons, elem_of_nil in Hin.
    destruct_or!; try done; subst; reflexivity. }
  unfold run_main. rewrite Ec. unfold mbind, Run_bind. destruct (script_lost files command).
  - rewrite Hend. by eexists.
  - destruct Hend as [message E]. rewrite E. by eexists.
Qed.
End one_shot.

(** C40: The commands that publish one record never publish it. [attach], [detach],
    [move], [reincarnate], the lifecycle commands and the [publish-...] commands
    need a source, and a process that runs one of them has opened none. When the
    command line is in order (it names such a command and exactly one of a store
    and an endpoint, and does not ask for help), the registry opens, and the file of
    the inline script can be opened for writing, the process sends nothing to the
    registry and prints no answer, whatever the arguments; it exits with code 2,
    except that it exits with code 0 when not one character of the inline script
    reaches its file, because nobody looks at the stream. *)
Theorem one_shot_commands_fail {H} `{Handle H} open_handle files clock argv options command rest (h : H) :
  parse_arguments argv default_cli_options [] = inl (options, command :: rest) -> command ∈ publish_commands ->
  is_empty (opt_store options) = opt_has_endpoint options -> open_handle options = inl h -> fi_inline files <> Unopened ->
  exists p, cli_main open_handle files clock argv = (if script_lost files command then 0 else 2, Some p) /\
    pr_handle p = (if script_lost files command then handle_close h else h) /\ pr_out p = [].
Proof.
  intros Hargs Hin Hone Hopen Hf. destruct (publish_runs options files command rest clock h Hin Hf) as (p & E & Hh & Ho).
  exists p. unfold cli_main. rewrite Hargs, Hone, Hopen, E. by destruct (opt_has_endpoint options).
Qed.

(** A file that cannot be written is run all the same, with what it held. *)
Lemma stale_script_is_run {H} `{Handle H} options files command rest :
  fi_inline files = Unopened -> command ∈ inline_commands ->
  publish_command options files command rest = run_script options kInlinePath (fi_read files kInlinePath).
Proof.
  intros Hf Hin. unfold publish_command, inline_content. rewrite Hf. unfold inline_commands in Hin.
  rewrite !elem_of_cons, elem_of_nil in Hin. destruct_or!; try done; by subst.
Qed.
