(* ===== verification/Daemon.v ===== *)
(** * The daemon ([tools/daemon_main.cpp])

    Its command line, and the options it opens the registry and starts the server
    with. *)
From S2P Require Import Prelude OrdMap Types Log Store Admit Ingest Session Server Text Script.
From Stdlib Require Import (notations) Ascii.
#[local] Open Scope string_scope.
#[local] Open Scope Z_scope.

(** [parse_u32]; [unsigned long] has 64 bits. *)
Definition parse_u32 (text : string) : option Z :=
  if is_empty text then None
  else match strtoull (c_str (chars text)) with (value, []) => Some (wrap32 value) | _ => None end.

Record Settings := mkSettings {
  dm_store : string;
  dm_bind : string;
  dm_port : Z;
  dm_max_connections : Z;
  dm_fsync : bool;
  dm_salvage : bool;
  dm_allow_shutdown : bool;
  dm_quiet : bool;
}.

Definition default_settings : Settings := mkSettings "" "127.0.0.1" 0 32 true false true false.

(** How reading the arguments ends early: [usage], with its exit code. *)
Abbreviation Read := (Settings + Z)%type.

Definition daemon_flag (argument : string) (s : Settings) : option Settings :=
  if String.eqb argument "--no-fsync" then
    Some (mkSettings (dm_store s) (dm_bind s) (dm_port s) (dm_max_connections s) false (dm_salvage s) (dm_allow_shutdown s) (dm_quiet s))
  else if String.eqb argument "--salvage" then
    Some (mkSettings (dm_store s) (dm_bind s) (dm_port s) (dm_max_connections s) (dm_fsync s) true (dm_allow_shutdown s) (dm_quiet s))
  else if String.eqb argument "--no-shutdown" then
    Some (mkSettings (dm_store s) (dm_bind s) (dm_port s) (dm_max_connections s) (dm_fsync s) (dm_salvage s) false (dm_quiet s))
  else if String.eqb argument "--quiet" then
    Some (mkSettings (dm_store s) (dm_bind s) (dm_port s) (dm_max_connections s) (dm_fsync s) (dm_salvage s) (dm_allow_shutdown s) true)
  else None.

(** The arguments that take a value: [None] for any other argument. *)
Definition daemon_value (argument value : string) (s : Settings) : option (option Settings) :=
  if String.eqb argument "--store" then
    Some (Some (mkSettings value (dm_bind s) (dm_port s) (dm_max_connections s) (dm_fsync s) (dm_salvage s) (dm_allow_shutdown s) (dm_quiet s)))
  else if String.eqb argument "--bind" then
    Some (Some (mkSettings (dm_store s) value (dm_port s) (dm_max_connections s) (dm_fsync s) (dm_salvage s) (dm_allow_shutdown s) (dm_quiet s)))
  else if String.eqb argument "--port" then
    Some ((fun port => mkSettings (dm_store s) (dm_bind s) port (dm_max_connections s) (dm_fsync s) (dm_salvage s) (dm_allow_shutdown s)
                         (dm_quiet s)) <$> parse_u32 value)
  else if String.eqb argument "--max-connections" then
    Some ((fun n => mkSettings (dm_store s) (dm_bind s) (dm_port s) n (dm_fsync s) (dm_salvage s) (dm_allow_shutdown s) (dm_quiet s))
          <$> parse_u32 value)
  else None.

Definition takes_value (argument : string) : bool := bool_decide (is_Some (daemon_value argument "" default_settings)).

(** The loop over [argv]. *)
Fixpoint read_arguments (argv : list string) (s : Settings) : Read :=
  match argv with
  | [] => inl s
  | argument :: rest =>
      if takes_value argument then
        match rest with
        | value :: rest =>
            match daemon_value argument value s with
            | Some (Some s) => read_arguments rest s
            | _ => inr 2
            end
        | [] => inr 2
        end
      else
        match daemon_flag argument s with
        | Some s => read_arguments rest s
        | None => if String.eqb argument "--help" || String.eqb argument "-h" then inr 0 else inr 2
        end
  end.

Definition daemon_settings (argv : list string) : Read :=
  match read_arguments argv default_settings with
  | inl s => if is_empty (dm_store s) then inr 2 else inl s
  | inr code => inr code
  end.

Definition daemon_store_options (s : Settings) : StoreOptions :=
  mkStoreOptions (dm_store s) (Z.shiftl 1 20) (Z.shiftl 256 20) 200000 (dm_fsync s)
    (if dm_salvage s then RecoveryPolicy.SalvagePrefix else RecoveryPolicy.Strict).

Definition daemon_server_options (s : Settings) : ServerOptions :=
  mkServerOptions (dm_bind s) (dm_port s mod 2 ^ 16) (dm_max_connections s) 32 default_limits (dm_allow_shutdown s).

(** ** The settings are what the arguments say *)

(** The arguments that ask for [s]. *)
Definition arguments_for (s : Settings) : list string :=
  ["--store"; dm_store s; "--bind"; dm_bind s; "--port"; to_dec (dm_port s); "--max-connections"; to_dec (dm_max_connections s)] ++
  (if dm_fsync s then [] else ["--no-fsync"]) ++ (if dm_salvage s then ["--salvage"] else []) ++
  (if dm_allow_shutdown s then [] else ["--no-shutdown"]) ++ (if dm_quiet s then ["--quiet"] else []).

Lemma parse_u32_to_dec n : is_u32 n -> parse_u32 (to_dec n) = Some n.
Proof.
  intros [Hn Hm]. unfold parse_u32. assert (Hu : is_u64 n) by (unfold is_u64; lia).
  destruct (is_empty (to_dec n)) eqn:E.
  - exfalso. apply (to_dec_nonempty n Hn). unfold is_empty, slen in E. apply Z.eqb_eq in E. unfold string_bytes, zlen in E.
    destruct (to_dec n); [done|]. cbn in E. lia.
  - rewrite strtoull_to_dec by done. f_equal. unfold wrap32. by rewrite Z.mod_small.
Qed.

(** The daemon runs with the settings it was given. For any store path that is not
    empty, any interface, any 32 bit port number and connection bound, and any
    choice of the switches, reading the arguments that spell them gives exactly
    these settings; the listener is then bound to the port modulo 2^16. *)
Theorem daemon_arguments_read_back s :
  dm_store s <> "" -> is_u32 (dm_port s) -> is_u32 (dm_max_connections s) -> daemon_settings (arguments_for s) = inl s.
Proof.
  intros Hs Hp Hm. destruct s as [store bind port connections fsync salvage shutdown quiet]. cbn in Hs, Hp, Hm.
  assert (He : is_empty store = false) by (by destruct store).
  destruct fsync, salvage, shutdown, quiet; unfold daemon_settings, arguments_for; cbn -[parse_u32 to_dec is_empty];
    rewrite !parse_u32_to_dec by done; cbn -[is_empty]; by rewrite He.
Qed.

Lemma daemon_arguments_read_back_witness :
  let s := mkSettings "registry.log" "127.0.0.1" 4000 8 true false false true in
  dm_store s <> "" /\ daemon_settings (arguments_for s) = inl s.
Proof.
  intros s. split; [discriminate|]. apply (daemon_arguments_read_back s); [discriminate|split; [discriminate|reflexivity]..].
Defined.

(** A port number beyond 16 bits is not refused: 65616 is port 80. *)
Example port_is_cut :
  match daemon_settings ["--store"; "r"; "--port"; "65616"] with
  | inl s => so_port (daemon_server_options s) = 80
  | inr _ => False
  end.
Proof. vm_compute. reflexivity. Qed.
