(* ===== verification/DaemonLife.v ===== *)
(** * A run of the daemon ([tools/daemon_main.cpp])

    [main]: it reads its arguments, opens the registry, starts the server, waits
    until [wait_for_shutdown_request] returns, stops the server and closes the
    registry.  While it waits, the threads of the server run as in
    [Concurrent.v]. *)
From stdpp Require Import gmap sets.
From S2P Require Import Prelude OrdMap Types Graph Names Text Log Store Protocol Socket Net Admit Ingest Session Recovery SnapshotBuild Server ServerLife ServerNet Concurrent Daemon.
#[local] Open Scope string_scope.
#[local] Open Scope Z_scope.

(** A line on one of the two streams. *)
Inductive Line := Out (text : string) | Err (text : string).

Definition daemon_registry_options : RegistryOptions := mkOptions nil_id default_limits 8.

Definition recovery_line (report : RecoveryReport) : string :=
  "RECOVERY " +:+ to_name (rr_issue report) +:+ " records=" +:+ to_dec (rr_records_loaded report) +:+
  " discarded=" +:+ to_dec (rr_bytes_discarded report) +:+ " salvaged=" +:+ (if rr_salvaged report then "yes" else "no").

Section daemon.
Context {S : Type} `{AppendLog S, StoreCounters S}.

(** What [Store::Open], the clock, the generator of identities and the operating
    system answer. *)
Context (store_open : StoreOptions -> RecoveryReport * Outcome S) (draws : Z * Z) (now : Z) (os : nat -> SysAnswer).

(** A daemon that is ready: its settings, registry and server. *)
Record Ready := mkReady {
  rd_settings : Settings;
  rd_registry : Impl S;
  rd_server : ServerSockets;
}.

(** [main] up to the wait: the lines printed, and the daemon or the exit code. *)
Definition daemon_begin (argv : list string) (n : Net) : list Line * (Ready + Z) * Net :=
  match daemon_settings argv with
  | inr code => ([], inr code, n)
  | inl s =>
      match registry_open daemon_registry_options draws now (Some (store_open (daemon_store_options s))) with
      | inr error => ([Err ("the registry could not be opened: " +:+ describe error)], inr 1, n)
      | inl registry =>
          let recovery := if dm_quiet s then [] else [Out (recovery_line (im_recovery registry))] in
          match start os (daemon_server_options s) n with
          | (inr error, n) => ((recovery ++ [Err ("the server could not be started: " +:+ describe error)])%list, inr 1, n)
          | (inl server, n) =>
              ((recovery ++ [Out ("READY " +:+ to_dec (sk_bound_port server))])%list, inl (mkReady s registry server), n)
          end
      end
  end.

(** Where [main] stands: in [wait_for_shutdown_request], awake and about to look at
    the predicate under the mutex, or asleep; or behind it with what it
    returned. *)
Inductive Main := Checks | Sleeps | Ends (requested : bool).

Record Daemon := mkDaemon { da_system : System S; da_main : Main }.

Inductive DaemonStep :=
  (** A thread of the server, or [main] in [Stop]. *)
  | Serve (activity : Activity)
  (** [shutdown_requested_cv.wait] looks at its predicate: it returns, or sleeps. *)
  | Look
  (** It wakes for no reason. *)
  | Stir.

(** [notify_all] by the thread that noted the request.  That of [Stop] has no
    waiter: [main] itself calls [Stop]. *)
Definition rouse (activity : Activity) (main : Main) : Main :=
  match activity, main with Announce _, Sleeps => Checks | _, _ => main end.

Context (ready : Ready) (peer : nat -> list Z).

Definition daemon_options : ServerOptions := daemon_server_options (rd_settings ready).
Definition daemon_initial : Daemon := mkDaemon (initial (rd_registry ready)) Checks.

(** Only [main] calls [Stop]. *)
Definition daemon_step (step : DaemonStep) (d : Daemon) : option Daemon :=
  match step with
  | Serve activity =>
      match activity, da_main d with
      | Life CallStop, Checks | Life CallStop, Sleeps => None
      | _, _ => s ← act daemon_options peer activity (da_system d); Some (mkDaemon s (rouse activity (da_main d)))
      end
  | Look =>
      match da_main d with
      | Checks =>
          let requested := sh_shutdown_requested (sy_shared (da_system d)) in
          if requested || th_stopping (sy_threads (da_system d)) then Some (mkDaemon (da_system d) (Ends requested))
          else Some (mkDaemon (da_system d) Sleeps)
      | _ => None
      end
  | Stir => match da_main d with Sleeps => Some (mkDaemon (da_system d) Checks) | _ => None end
  end.

Definition typed_step (step : DaemonStep) : Prop := match step with Serve activity => typed_activity activity | _ => True end.

Inductive daemon_reachable : Daemon -> Prop :=
  | daemon_now : daemon_reachable daemon_initial
  | daemon_then d step d' : daemon_reachable d -> typed_step step -> daemon_step step d = Some d' -> daemon_reachable d'.

(** [main] returns when [Stop] has: the registry it closed, and the last line. *)
Definition daemon_end (d : Daemon) : option (Impl S * list Line) :=
  match da_main d with
  | Ends requested =>
      if bool_decide (th_stopper (sy_threads (da_system d)) = Stopped) then
        Some (close_registry (sh_registry (sy_shared (da_system d))),
              if dm_quiet (rd_settings ready) then []
              else [Out ("STOPPED " +:+ (if requested then "requested" else "forced"))])
      else None
  | _ => None
  end.
End daemon.

Arguments Ready S : clear implicits.
Arguments Daemon S : clear implicits.

(** ** The daemon stops when it is told to *)

Section told.
Context {S : Type} `{AppendLog S, StoreCounters S} (ready : Ready S) (peer : nat -> list Z).
Implicit Types d : Daemon S.

Abbreviation options := (daemon_options ready).

(** A client asked for the shutdown, and the daemon permits it. *)
Definition asked_to_stop (history : list Handled) : Prop :=
  exists x, x ∈ history /\ fr_type (ha_request x) = MessageType.Shutdown /\ ha_type x = MessageType.ShutdownAck /\
    dm_allow_shutdown (rd_settings ready) = true.

Lemma shutdown_reply clock request (impl : Impl S) response impl' :
  dispatch options clock request impl = (MessageType.ShutdownAck, response, impl') ->
  fr_type request = MessageType.Shutdown /\ dm_allow_shutdown (rd_settings ready) = true.
Proof.
  unfold dispatch, fail_with, answer. destruct (fr_type request); try done; repeat case_match; try done.
  match goal with E : negb _ = false |- _ => apply negb_false_iff in E end. done.
Qed.

(** A thread at this stage answered a request for the shutdown. *)
Definition asking (stage : Stage) : bool :=
  match stage with
  | Replying MessageType.ShutdownAck _ _ _ | Requesting | Announcing => true
  | _ => false
  end.

(** [main] has left its wait. *)
Definition ended (main : Main) : Prop := match main with Ends _ => True | _ => False end.

Record told (d : Daemon S) : Prop := {
  to_requested : sh_shutdown_requested (sy_shared (da_system d)) = true -> asked_to_stop (sy_history (da_system d));
  to_stages : forall c stage, sy_stages (da_system d) !! c = Some stage -> asking stage = true -> asked_to_stop (sy_history (da_system d));
  to_stopping : th_stopping (sy_threads (da_system d)) = true -> ended (da_main d);
  to_main : forall requested, da_main d = Ends requested -> requested = true /\ asked_to_stop (sy_history (da_system d));
  (** No notification is lost: while [main] sleeps on a request that was noted, the
      thread that noted it is about to notify. *)
  to_awake : da_main d = Sleeps -> sh_shutdown_requested (sy_shared (da_system d)) = true ->
    exists c, sy_stages (da_system d) !! c = Some Announcing;
}.

Lemma asked_later history x : asked_to_stop history -> asked_to_stop (history ++ [x]).
Proof. intros (y & Hy & Hrest). exists y. split; [apply elem_of_app; by left|done]. Qed.

Lemma stopping_called max_connections event t t' :
  run max_connections event t = Some t' -> th_stopping t' = true -> th_stopping t = true \/ event = CallStop.
Proof. destruct event; cbn; intros Hrun Hs; repeat case_match; simplify_eq; cbn in *; auto. Qed.
(** The stage of one connection changes. *)
Lemma asking_insert c stage (stages : gmap nat Stage) history :
  (forall c' stage', stages !! c' = Some stage' -> asking stage' = true -> asked_to_stop history) ->
  (asking stage = true -> asked_to_stop history) ->
  forall c' stage', <[c := stage]> stages !! c' = Some stage' -> asking stage' = true -> asked_to_stop history.
Proof. intros Hold Hnew c' stage' [[<- <-]|[_ E]]%lookup_insert_Some; [done|by eapply Hold]. Qed.

(** The stage of a connection that is not announcing changes. *)
Lemma announcing_insert c stage (stages : gmap nat Stage) :
  stages !! c <> Some Announcing ->
  (exists c', stages !! c' = Some Announcing) -> exists c', <[c := stage]> stages !! c' = Some Announcing.
Proof. intros Hc [c' E]. exists c'. rewrite lookup_insert_ne; [done|]. congruence. Qed.

Lemma told_activity d activity s' :
  orderly options peer (rd_registry ready) (da_system d) ->
  told d -> (activity = Life CallStop -> ended (da_main d)) ->
  act options peer activity (da_system d) = Some s' -> told (mkDaemon s' (rouse activity (da_main d))).
Proof.
  intros Ho [H1 H2 H3 H4 H5] Hcall Ha. destruct activity as [event|c clock|c bytes|c bytes|c|c|c]; cbn in Ha; cbn [rouse].
  - apply bind_Some in Ha as (t' & Hrun & Ha). apply bind_Some in Ha as (stages & Hst & [= <-]).
    assert (Hcase : stages = sy_stages (da_system d) \/
        exists c stage, stages = <[c := stage]> (sy_stages (da_system d)) /\ asking stage = false /\
          sy_stages (da_system d) !! c <> Some Announcing).
    { destruct event as [| | | | |c|c|c|c| | | | | | | |]; cbn in Hst; try (injection Hst as <-; by left).
      - destruct (th_acceptor (sy_threads (da_system d))) as [| |c|] eqn:Eac; try done. injection Hst as <-. right.
        exists c, (AtHead (peer c)). split_and!; [done|done|]. intros E.
        by destruct (or_fresh _ _ _ _ Ho c) as (_ & _ & Hno); [by eexists|].
      - left. by repeat case_match; simplify_eq.
      - right. destruct (sy_stages (da_system d) !! c) as [[]|] eqn:E; try done. injection Hst as <-.
        exists c, Returned. split_and!; [done|done|]. by rewrite E. }
    split; cbn; [done| | |done|].
    + destruct Hcase as [->|(c & stage & -> & Hask & _)]; [done|]. apply asking_insert; [done|]. by rewrite Hask.
    + intros Hs. destruct (stopping_called _ _ _ _ Hrun Hs) as [Hs'| ->]; [by apply H3|by apply Hcall].
    + intros Em Hr. destruct Hcase as [->|(c & stage & -> & _ & Hno)]; [by apply H5|]. by apply announcing_insert, H5.
  - destruct (sy_stages (da_system d) !! c) as [[input|? ? ? ?|?| | |]|] eqn:Es; try done.
    destruct (next_frame options input) as [[[request|error] rest]|]; [| |done].
    + destruct (dispatch options clock request _) as [[type response] registry] eqn:Ed. injection Ha as <-.
      set (x := mkHandled c clock request type response). split; cbn.
      * intros Hs. by apply asked_later, H1.
      * apply asking_insert; [intros c' stage' E Hs; by eapply asked_later, H2|]. intros Hask.
        assert (type = MessageType.ShutdownAck) as -> by (by destruct type). apply shutdown_reply in Ed as [Er Hallow].
        exists x. split; [apply elem_of_app; right; by left|done].
      * done.
      * intros requested E. destruct (H4 requested E) as [-> Hask]. split; [done|by apply asked_later].
      * intros Em Hr. apply announcing_insert; [by rewrite Es|by apply H5].
    + injection Ha as <-. split; cbn; try done; [by apply asking_insert|].
      intros Em Hr. apply announcing_insert; [by rewrite Es|by apply H5].
  - destruct (sy_stages (da_system d) !! c) as [[|type rid response input|?| | |]|] eqn:Es; try done. injection Ha as <-.
    split; cbn; try done.
    + apply asking_insert; [done|]. case_bool_decide as E; [subst|done]. intros _. by apply (H2 c _ Es).
    + intros Em Hr. apply announcing_insert; [by rewrite Es|by apply H5].
  - destruct (sy_stages (da_system d) !! c) as [[|? ? ? ?|?| | |]|] eqn:Es; try done. injection Ha as <-.
    split; cbn; try done; [by apply asking_insert|]. intros Em Hr. apply announcing_insert; [by rewrite Es|by apply H5].
  - destruct (sy_stages (da_system d) !! c) as [[|? ? ? ?|?| | |]|] eqn:Es; try done. injection Ha as <-.
    split; cbn; try done; [intros _; by apply (H2 c _ Es)|apply asking_insert; [done|intros _; by apply (H2 c _ Es)]|].
    intros _ _. exists c. by rewrite lookup_insert_eq.
  - destruct (sy_stages (da_system d) !! c) as [[|? ? ? ?|?| | |]|]; try done. injection Ha as <-.
    split; cbn; try done; [by apply asking_insert|intros Hs; specialize (H3 Hs); by destruct (da_main d)| |by destruct (da_main d)].
    intros requested. destruct (da_main d) as [| |requested'] eqn:Em; try done. intros [= <-]. by apply H4.
  - destruct (sy_stages (da_system d) !! c) as [[|? ? ? ?|?| | |]|] eqn:Es; try done. injection Ha as <-.
    split; cbn; try done; [by apply asking_insert|]. intros Em Hr. apply announcing_insert; [by rewrite Es|by apply H5].
Qed.

(** What a step of the daemon is. *)
Lemma serve_step d activity d' :
  daemon_step ready peer (Serve activity) d = Some d' ->
  (activity = Life CallStop -> ended (da_main d)) /\
  exists s', act options peer activity (da_system d) = Some s' /\ d' = mkDaemon s' (rouse activity (da_main d)).
Proof.
  intros Hd. cbn [daemon_step] in Hd. split.
  - intros ->. by destruct (da_main d).
  - assert (Ha : (s ← act options peer activity (da_system d); Some (mkDaemon s (rouse activity (da_main d)))) = Some d')
      by (destruct activity as [[]| | | | | |], (da_main d); try done).
    apply bind_Some in Ha as (s' & Ha & [= <-]). by exists s'.
Qed.

Lemma daemon_served d : daemon_reachable ready peer d -> served options peer (rd_registry ready) (da_system d).
Proof.
  induction 1 as [|d step d' _ IH Hty Hstep]; [constructor|]. destruct step as [activity| |].
  - apply serve_step in Hstep as (_ & s' & Ha & ->). by apply (served_step _ _ _ (da_system d) activity).
  - cbn in Hstep. destruct (da_main d); try done. destruct (_ || _); by injection Hstep as <-.
  - cbn in Hstep. destruct (da_main d); try done. by injection Hstep as <-.
Qed.

Lemma told_step d step d' :
  orderly options peer (rd_registry ready) (da_system d) -> told d -> daemon_step ready peer step d = Some d' -> told d'.
Proof.
  intros Ho Ht Hd. destruct step as [activity| |].
  - apply serve_step in Hd as (Hcall & s' & Ha & ->). by eapply told_activity.
  - destruct Ht as [H1 H2 H3 H4 H5]. cbn in Hd. destruct (da_main d) eqn:Em; try done.
    destruct (sh_shutdown_requested _) eqn:Er; cbn in Hd.
    + injection Hd as <-. pose proof (H1 eq_refl) as Hask. split; cbn; try done. by intros requested [= <-].
    + destruct (th_stopping _) eqn:Et; [by destruct (H3 eq_refl)|]. injection Hd as <-. split; cbn; try done; by rewrite ?Er, ?Et.
  - destruct Ht as [H1 H2 H3 H4 H5]. cbn in Hd. destruct (da_main d) eqn:Em; try done. injection Hd as <-. by split.
Qed.

Lemma daemon_told d : 0 <= so_max_connections options -> daemon_reachable ready peer d -> told d.
Proof.
  intros Hm. induction 1 as [|d step d' Hr IH _ Hstep]; [by split|].
  eapply told_step; [|done|done]. by apply served_orderly, daemon_served.
Qed.
End told.

(** C30: The daemon stops when, and only when, it is told to. Whatever its clients
    send and however the threads run: [main] is past its wait only if a client
    sent a shutdown request that was acknowledged, and the daemon was started with
    shutdown allowed; until then nothing of the server is stopping. Once a
    connection thread has noted the request, no notification is lost: [main] is
    awake and its next look at the predicate ends the wait, or it sleeps and a
    thread is about to wake it, or it is past the wait and can call [Stop]. When
    [main] returns, the acceptor is gone, no connection is registered or served,
    the registry is closed, and the stop is reported as requested: a forced one
    never is. *)
Theorem daemon_stops_when_told {S} `{AppendLog S, StoreCounters S} (ready : Ready S) peer d :
  is_u32 (dm_max_connections (rd_settings ready)) -> daemon_reachable ready peer d ->
  let s := da_system d in
  (forall requested, da_main d = Ends requested -> requested = true /\ asked_to_stop ready (sy_history s)) /\
  (~ ended (da_main d) -> th_stopping (sy_threads s) = false /\ daemon_end ready d = None) /\
  (sh_shutdown_requested (sy_shared s) = true ->
    match da_main d with
    | Checks => daemon_step ready peer Look d = Some (mkDaemon s (Ends true))
    | Sleeps => exists c d', sy_stages s !! c = Some Announcing /\
        daemon_step ready peer (Serve (Announce c)) d = Some d' /\ da_main d' = Checks
    | Ends _ => th_stopper (sy_threads s) = Running -> is_Some (daemon_step ready peer (Serve (Life CallStop)) d)
    end) /\
  forall registry lines, daemon_end ready d = Some (registry, lines) ->
    th_acceptor (sy_threads s) = Ended /\ th_connections (sy_threads s) = ∅ /\ th_live (sy_threads s) = 0 /\
    im_closed registry = true /\
    lines = (if dm_quiet (rd_settings ready) then [] else [Out "STOPPED requested"]).
Proof.
  intros [Hm _] Hd. cbn zeta. pose proof (daemon_told ready peer d Hm Hd) as [H1 H2 H3 H4 H5].
  split_and!; [done| | |].
  - intros Hne. split; [|unfold daemon_end; by destruct (da_main d); [..|destruct Hne]].
    apply not_true_is_false. intros Hs. by apply Hne, H3.
  - intros Hreq. destruct (da_main d) as [| |requested] eqn:Em.
    + cbn [daemon_step]. by rewrite Em, Hreq.
    + destruct (H5 eq_refl Hreq) as [c Hc]. eexists c, _. split; [done|]. cbn [daemon_step]. rewrite Em. cbn. by rewrite Hc.
    + intros Hrun. cbn [daemon_step]. rewrite Em. cbn. rewrite Hrun. by eexists.
  - intros registry lines. unfold daemon_end. destruct (da_main d) as [| |requested] eqn:Em; try done.
    case_bool_decide as Hst; [|done]. intros [= <- <-]. destruct (H4 requested eq_refl) as [-> _].
    apply daemon_served, served_orderly in Hd as [Hr _ _ _ _]; [|done]. apply reachable_consistent in Hr; [|done].
    pose proof (co_joined _ _ Hr (or_intror (or_intror Hst))) as Ha. pose proof (co_stopped _ _ Hr Hst) as Hh.
    pose proof (co_live _ _ Hr) as Hlive. rewrite Hh in Hlive. split_and!; [done| |done| |done].
    + apply dom_empty_inv_L. unfold held in Hh. set_solver.
    + unfold close_registry. destruct (im_closed (sh_registry (sy_shared (da_system d)))) eqn:Ec; [done|]. cbn. by case_match.
Qed.

(** The daemon announces itself, or leaves nothing open: when [main] does not get
    as far as its wait, whichever step failed, the descriptors of the process are
    those it began with and the exit code says whether the arguments or the
    opening was at fault; when it does, [READY] is the last line, with the port of
    a server that holds its three sockets. *)
Theorem daemon_ready_or_gone {S} `{AppendLog S} store_open draws now os argv n :
  match daemon_begin (S := S) store_open draws now os argv n with
  | (lines, inr code, n') =>
      same_resources n n' /\
      (code = 1 /\ (exists s, daemon_settings argv = inl s) /\ (exists text, last lines = Some (Err text)) \/
       daemon_settings argv = inr code /\ lines = [])
  | (lines, inl ready, n') =>
      last lines = Some (Out ("READY " +:+ to_dec (sk_bound_port (rd_server ready)))) /\ started_server (rd_server ready) n n'
  end.
Proof.
  unfold daemon_begin. destruct (daemon_settings argv) as [s|code]; [|split; [done|by right]].
  destruct (registry_open _ _ _ _) as [registry|error]; [|split; [done|left; split_and!; [done|by eexists|by eexists]]].
  pose proof (start_accounts os (daemon_server_options s) n) as Hs.
  destruct (start os (daemon_server_options s) n) as [[server|error] n']; rewrite last_snoc; [by split|].
  split; [done|]. left. split_and!; [done|by eexists|by eexists].
Qed.
