(* ===== verification/Scenarios.v ===== *)
(** * Concrete registries

    A small deployment, built by running the operations of the registry, at
    which the theorems of the development are instantiated; and short runs that
    exhibit behaviours of the code worth knowing. *)
From S2P Require Import Prelude OrdMap Types Ids Graph Codec Serialization State StateCodec Fold Derive Log Admit Ingest Session Recovery Invariant WellFormed Replica Views Fencing Durability Restart Ceilings Delivery ArrivalOrder Guarantees.
#[local] Open Scope string_scope.
#[local] Open Scope Z_scope.

(** ** A deployment *)

Definition demo_limits : Limits := {|
  max_objects := 8; max_endpoints := 4; max_ports_per_endpoint := 4; max_sides_per_object := 4; max_sources := 4;
  max_port_simultaneous_attachments := 4; max_claim_records_per_port := 8; max_history_per_key := 2;
  max_overridden_reported := 4; max_string_bytes := 64; max_capability_code_bytes := 16; max_revalidate_claims := 16;
  max_evidence_batch := 4; max_frame_payload_bytes := 4096; max_snapshot_entries := 64; max_refusal_audit := 2;
  max_history_events := 16 |}.

Definition demo_options : RegistryOptions := mkOptions nil_id demo_limits 2.

Definition created_report : RecoveryReport :=
  mkRecoveryReport true true false true 1 0 0 0 0 RecoveryIssue.Created 0 "".
Definition clean_report : RecoveryReport :=
  mkRecoveryReport true false false true 1 0 0 0 0 RecoveryIssue.CleanOpen 0 "".

Definition demo_store : ListLog := mkListLog 65536 false [].
Definition demo_open : Outcome (Impl ListLog) :=
  registry_open demo_options (7, 9) 1000 (Some (created_report, inl demo_store)).

Definition the {A} (default : A) (o : A + Error) : A := match o with inl a => a | inr _ => default end.
Definition demo0 : Impl ListLog := the (fresh_impl demo_options 1000) demo_open.

Definition oid (n : Z) : ObjectId := from_parts 0 n.
Definition eid (n : Z) : EndpointId := from_parts 0 n.
Definition sid (n : Z) : SourceId := from_parts 0 n.
Definition side (n i : Z) : ObjectSideRef := mkObjectSideRef (oid n) i.
Definition port (n i : Z) : PortRef := mkPortRef (eid n) i.

Definition demo_source (n rank : Z) : SourceDescriptor :=
  mkSourceDescriptor (sid n) "scanner" (mkAuthority AuthorityClass.Observed rank) "lab".

(** A record of source [s] at incarnation [i] and generation [g]. *)
Definition record (s i g : Z) (payload : EvidencePayload) : Evidence :=
  mkEvidence (mkHeader (from_parts s (i * 100 + g)) (sid s) i g 5 ProvenanceClass.DiscoveryAgent "" 1) payload.

Definition cable (n : Z) (label : string) : EvidencePayload :=
  RegisterObject (mkObjectDescriptor (oid n) ObjectKind.Cable label "" ""
    [default_side_descriptor; default_side_descriptor] default_nominal_capability).

Definition switch (n ports attachments : Z) : EvidencePayload :=
  RegisterEndpoint (mkEndpointDescriptor (eid n) EndpointKind.Switch "" "" ports
    (mkPortCapability attachments ConnectorClass.Unknown MediaClass.Unknown 0)).

Definition attach (object endpoint index slot : Z) : EvidencePayload :=
  Attach (mkAttach (side object 0) (port endpoint index) 1 slot).

Definition detach (object endpoint index slot : Z) : EvidencePayload :=
  Detach (mkDetach (side object 0) 1 true (port endpoint index) slot).

(** The public calls, keeping only the registry. *)
Definition opened {S} `{AppendLog S} (s rank i : Z) (impl : Impl S) : Impl S :=
  (open_session (demo_source s rank) i 1001 1002 impl).2.
Definition sent {S} `{AppendLog S} (e : Evidence) (impl : Impl S) : Impl S := (registry_ingest 2000 e impl).2.
Definition send_all {S} `{AppendLog S} (es : list Evidence) (impl : Impl S) : Impl S := foldl (fun i e => sent e i) impl es.

(** One source registers a cable and a switch and attaches one to the other. *)
Definition demo1 : Impl ListLog := opened 1 5 1 demo0.
Definition demo2 : Impl ListLog :=
  send_all [record 1 1 1 (cable 1 "A-1"); record 1 1 2 (switch 1 2 1); record 1 1 3 (attach 1 1 0 0)] demo1.

Example demo_attached :
  pv_state (derive_port_view (im_state demo2) demo_limits (port 1 0) ValidationPolicy.IncludeAll)
  = PortAttachmentState.Attached.
Proof. vm_compute. reflexivity. Qed.

Example demo_open_ok : demo_open = inl demo0.
Proof. vm_compute. reflexivity. Qed.

(** ** The deployment satisfies the hypotheses *)

(** Closes a bound on a concrete machine integer, or a conjunction of them. *)
Ltac in_range := vm_compute; repeat split; first [discriminate | reflexivity | repeat constructor; discriminate].

Lemma demo_options_typed : typed_options demo_options.
Proof. split; [|split; in_range]. repeat constructor; in_range. Qed.

Lemma demo_limits_u32 : limits_u32 demo_limits.
Proof. apply demo_options_typed. Qed.

Lemma demo_source_typed n rank : is_u64 n -> is_u32 rank -> typed_descriptor (demo_source n rank).
Proof. intros Hn Hr. split; [|done]. split; [in_range|done]. Qed.

Lemma demo_inv0 : impl_inv demo0 /\ impl_wf demo0.
Proof.
  apply (open_new_inv demo_options (7, 9) 1000 (Some (created_report, inl demo_store)));
    [apply demo_options_typed|in_range|in_range|in_range|done|apply demo_open_ok].
Qed.

Lemma opened_step {S} `{AppendLog S} s rank i (impl : Impl S) :
  is_u64 s -> is_u32 rank -> is_u64 i -> call impl (opened s rank i impl).
Proof. intros Hs Hr Hi. apply step_open_session; [by apply demo_source_typed|done|in_range|in_range]. Qed.

Lemma sent_step {S} `{AppendLog S} e (impl : Impl S) : typed_evidence e -> call impl (sent e impl).
Proof. intros He. apply step_ingest; [in_range|done]. Qed.

Definition ev1 : Evidence := record 1 1 1 (cable 1 "A-1").
Definition ev2 : Evidence := record 1 1 2 (switch 1 2 1).
Definition ev3 : Evidence := record 1 1 3 (attach 1 1 0 0).

Lemma ev1_typed : typed_evidence ev1.
Proof. repeat split; first [in_range | repeat constructor; in_range]. Qed.
Lemma ev2_typed : typed_evidence ev2.
Proof. repeat split; in_range. Qed.
Lemma ev3_typed : typed_evidence ev3.
Proof. repeat split; in_range. Qed.

Lemma demo_steps1 : rtc durable_step demo0 demo1.
Proof. apply rtc_once, durable_call, opened_step; in_range. Qed.

Lemma demo_steps2 : rtc durable_step demo0 demo2.
Proof.
  etrans; [apply demo_steps1|].
  eapply rtc_l; [apply durable_call, (sent_step ev1), ev1_typed|].
  eapply rtc_l; [apply durable_call, (sent_step ev2), ev2_typed|].
  apply rtc_once, durable_call, (sent_step ev3), ev3_typed.
Qed.

Lemma durable_reachable {S} `{AppendLog S} (impl impl' : Impl S) : rtc durable_step impl impl' -> reachable impl impl'.
Proof. induction 1; [constructor|eapply rtc_l; [by apply durable_step_step|done]]. Qed.

Lemma demo_inv1 : impl_inv demo1.
Proof. eapply reachable_inv; [apply durable_reachable, demo_steps1|apply demo_inv0]. Qed.

(** ** Witnesses *)

Lemma restart_recovers_witness :
  exists impl',
    registry_open demo_options (1, 1) 3000 (Some (clean_report, inl (mkListLog 65536 false (logged demo2)))) = inl impl' /\
    pv_state (derive_port_view (im_state impl') demo_limits (port 1 0) ValidationPolicy.IncludeAll)
      = PortAttachmentState.Attached /\
    pv_state (derive_port_view (im_state impl') demo_limits (port 1 0) ValidationPolicy.LiveOnly)
      = PortAttachmentState.Unknown.
Proof.
  destruct (restart_recovers demo_options (7, 9) 1000 created_report demo_store demo0 demo2 (1, 1) 3000 clean_report
    (mkListLog 65536 false (logged demo2)) _ demo_options_typed ltac:(in_range) ltac:(in_range) ltac:(in_range)
    eq_refl eq_refl demo_open_ok demo_steps2 eq_refl eq_refl) as (impl' & Hopen & _ & _ & _ & Hviews).
  exists impl'. split; [exact Hopen|]. destruct (Hviews demo_limits (port 1 0)) as [[Hstate _] Hlive].
  split; [|exact Hlive]. etransitivity; [exact Hstate|]. exact demo_attached.
Defined.

Lemma accepted_record_is_durable_witness :
  exists payload,
    logged (registry_ingest 2000 ev1 demo1).2 = (logged demo1 ++ [(RecordKind.Evidence, payload)])%list /\
    decode_all (decode_evidence_record demo_limits) payload = Some (2000, ev1).
Proof.
  apply (accepted_record_is_durable 2000 ev1 demo1 (registry_ingest 2000 ev1 demo1).1 (registry_ingest 2000 ev1 demo1).2
    demo_limits_u32 ev1_typed).
  - in_range.
  - vm_compute. eexists. reflexivity.
  - apply surjective_pairing.
  - vm_compute. reflexivity.
  - vm_compute. discriminate.
Defined.

(** A second cable under the label of the first, met with an index that is not
    valid; and a store that has no room for the next record. *)
Definition same_label : Evidence := record 1 1 4 (cable 2 "A-1").
Definition unindexed : Impl ListLog := set_labels (mkLabelCache [] false) demo2.
Definition full : Impl ListLog := set_store (Some (mkListLog 8 false (logged demo1))) demo1.


(** The record again, when the label index was dropped in between. *)
Definition demo_again : Impl ListLog := set_labels (mkLabelCache [] false) (registry_ingest 2000 ev1 demo1).2.

Lemma retry_changes_nothing_witness :
  winners (im_state (registry_ingest 2500 ev1 demo_again).2) = winners (im_state (registry_ingest 2000 ev1 demo1).2).
Proof.
  apply (retry_changes_nothing ev1 2000 2500 demo1 (registry_ingest 2000 ev1 demo1).1 (registry_ingest 2000 ev1 demo1).2
    demo_again (registry_ingest 2500 ev1 demo_again).1 (registry_ingest 2500 ev1 demo_again).2 demo_inv1).
  - apply surjective_pairing.
  - vm_compute. reflexivity.
  - reflexivity.
  - reflexivity.
  - reflexivity.
  - reflexivity.
  - apply surjective_pairing.
Defined.

Definition demo_session : SessionRecord := mkSessionRecord 1 4 true false 4 0 0 0.
Definition demo_run : list (Z * IngestDisposition.t) :=
  [(5, IngestDisposition.Accepted); (9, IngestDisposition.RefusedInvalid); (10, IngestDisposition.Accepted)].

Lemma missing_generations_exact_witness : ss_missing_generations (count_run demo_session demo_run) = 3.
Proof.
  destruct (missing_generations_exact demo_session demo_run) as [_ Hm].
  - reflexivity.
  - repeat constructor.
  - in_range.
  - etransitivity; [exact Hm|]. vm_compute. reflexivity.
Defined.

Lemma refusal_audit_window_witness :
  length (im_refusals (note_refusal (registry_ingest 2000 same_label demo2).1 demo2)) = 1%nat.
Proof.
  destruct (refusal_audit_window (registry_ingest 2000 same_label demo2).1 demo2) as [He _].
  - vm_compute. discriminate.
  - rewrite He. vm_compute. reflexivity.
Defined.

Lemma reachable_registry_invariant_witness : impl_inv demo2 /\ impl_wf demo2.
Proof.
  apply (reachable_registry_invariant demo_options (7, 9) 1000 (Some (created_report, inl demo_store)) demo0 demo2).
  - exact demo_options_typed.
  - in_range.
  - in_range.
  - in_range.
  - split; reflexivity.
  - exact demo_open_ok.
  - exact (durable_reachable _ _ demo_steps2).
Defined.

Lemma demo2_fits : image_fits (im_limits demo2) (im_state demo2).
Proof. vm_compute. repeat split; repeat constructor; discriminate. Qed.

Definition demo_compacted : Impl ListLog := (compact demo2).2.
Definition reader (impl : Impl ListLog) : ListLog := mkListLog 65536 false (logged impl).

Lemma reader_visits impl : log_visit (reader impl) = (reader impl, (logged impl, inl tt)).
Proof. reflexivity. Qed.

Lemma compaction_is_lossless_witness :
  length (logged demo2) = 5%nat /\ length (logged demo_compacted) = 1%nat /\
  exists before after,
    registry_open demo_options (1, 1) 3000 (Some (clean_report, inl (reader demo2))) = inl before /\
    registry_open demo_options (2, 2) 4000 (Some (clean_report, inl (reader demo_compacted))) = inl after /\
    im_state after ≈ im_state before.
Proof.
  split; [vm_compute; reflexivity|]. split; [vm_compute; reflexivity|].
  destruct (compaction_is_lossless demo_options (7, 9) 1000 created_report demo_store demo0 demo2 demo_compacted
    (1, 1) 3000 clean_report (reader demo2) (reader demo2) (2, 2) 4000 clean_report (reader demo_compacted) (reader demo_compacted)
    demo_options_typed ltac:(in_range) ltac:(in_range) ltac:(in_range) eq_refl eq_refl demo_open_ok demo_steps2 demo2_fits
    ltac:(vm_compute; reflexivity) (reader_visits demo2) eq_refl (reader_visits demo_compacted) eq_refl) as [_ (before & after & Eb & Ea & _ & Es & _)].
  exists before, after. split; [exact Eb|]. split; [exact Ea|exact Es].
Defined.

Lemma evidence_roundtrip_witness :
  decode_evidence_bytes (encode_evidence_bytes ev3 demo_limits) demo_limits = inl ev3.
Proof.
  apply (evidence_roundtrip demo_limits ev3 demo_limits_u32 ev3_typed).
  - vm_compute. reflexivity.
  - vm_compute. discriminate.
Defined.

Lemma side_derivation_refines_spec_witness :
  side_spec (im_state demo2) ValidationPolicy.IncludeAll (side 1 0) PortAttachmentState.Attached [port 1 0].
Proof.
  pose proof (proj1 (side_derivation_refines_spec (im_state demo2) (side 1 0) ValidationPolicy.IncludeAll
    PortAttachmentState.Unknown [])) as Hs.
  assert (E1 : sj_state (derive_subject (im_state demo2) (side 1 0) ValidationPolicy.IncludeAll)
               = PortAttachmentState.Attached) by (vm_compute; reflexivity).
  assert (E2 : sj_ports (derive_subject (im_state demo2) (side 1 0) ValidationPolicy.IncludeAll) = [port 1 0])
    by (vm_compute; reflexivity).
  rewrite E1, E2 in Hs. exact Hs.
Defined.

(** Two attestations of one session, at generations 1 and 2. *)
Definition seen (g : Z) : Attestation :=
  attestation_of (record 1 1 g (attach 1 1 0 0)) (mkAuthority AuthorityClass.Observed 5) (2000 - g) true.

(** One session places a cable four times; three of the places become history, of
    which two are kept. *)
Definition placed (g slot : Z) : Z * Evidence := (2000 + g, record 1 1 g (attach 1 1 0 slot)).
Definition in_order : list (Z * Evidence) := [placed 3 0; placed 4 1; placed 5 2; placed 6 3].
Definition out_of_order : list (Z * Evidence) := [placed 6 3; placed 3 0; placed 4 1; placed 5 2].

Definition settled1 : Impl ListLog := send_all [ev1; ev2] demo1.

Lemma settled_inv : impl_inv settled1.
Proof.
  eapply reachable_inv; [apply durable_reachable|apply demo_inv0]. etrans; [apply demo_steps1|].
  eapply rtc_l; [apply durable_call, (sent_step ev1), ev1_typed|].
  apply rtc_once, durable_call, (sent_step ev2), ev2_typed.
Qed.


(** The cable is retired. *)
Definition demo_retired : Impl ListLog :=
  sent (record 1 1 4 (SetLifecycle (mkSetLifecycle (oid 1) 1 LifecycleAction.Retired "scrapped"))) demo2.

Lemma retirement_wins_witness : object_excluded (im_state demo_retired) (oid 1) = true.
Proof.
  apply (retirement_wins (im_state demo_retired) (oid 1)
    (default (mkCandidate LifecycleAction.Present default_authority false (seen 1))
       (head (lifecycle_candidates (im_state demo_retired) (oid 1))))).
  - vm_compute. left.
  - vm_compute. reflexivity.
  - vm_compute. reflexivity.
  - intros c' Hin _. revert Hin. vm_compute. intros Hin. inversion Hin as [|? ? ? Hnil]; [reflexivity|inversion Hnil].
Defined.

Lemma label_index_is_a_cache_witness :
  (decide_evidence demo_limits (im_state demo1) (seen 1) (im_labels demo1) ev1).1
  = (decide_evidence demo_limits (im_state demo1) (seen 1) (mkLabelCache [] false) ev1).1.
Proof. apply (label_index_is_a_cache demo_limits (im_state demo1) (seen 1) (im_labels demo1) ev1 (ii_labels _ demo_inv1)). Defined.

Lemma checked_arithmetic_exact_witness : checked_add (2 ^ 64 - 1) 1 = None /\ checked_mul (2 ^ 32) (2 ^ 31) = Some (2 ^ 63).
Proof.
  split.
  - etransitivity; [apply (checked_arithmetic_exact (2 ^ 64 - 1) 1); in_range|]. vm_compute. reflexivity.
  - etransitivity; [apply (checked_arithmetic_exact (2 ^ 32) (2 ^ 31)); in_range|]. vm_compute. reflexivity.
Defined.

Lemma port_edges_sound_witness :
  exists edge, edge ∈ pv_edges (derive_port_view (im_state demo2) demo_limits (port 1 0) ValidationPolicy.IncludeAll) /\
    object_exists (im_state demo2) (side_object (ae_subject edge)) = true.
Proof.
  assert (Hhead : exists edge, edge ∈ pv_edges (derive_port_view (im_state demo2) demo_limits (port 1 0) ValidationPolicy.IncludeAll))
    by (vm_compute; eexists; left).
  destruct Hhead as [edge Hin]. exists edge. split; [exact Hin|].
  destruct (port_edges_sound (im_state demo2) demo_limits (port 1 0) ValidationPolicy.IncludeAll edge Hin) as [He _]. exact He.
Defined.

(** The source restarts with incarnation 2. *)
Definition demo3 : Impl ListLog := opened 1 5 2 demo2.

Lemma open_session_fences_witness : session_is_fenced (im_state demo3) (mkKey (sid 1) 1) = true.
Proof.
  etransitivity.
  - apply (open_session_fences (demo_source 1 5) 2 1001 1002 demo2 (open_session (demo_source 1 5) 2 1001 1002 demo2).1
      demo3 (mkKey (sid 1) 1)).
    + discriminate.
    + apply surjective_pairing.
    + vm_compute. reflexivity.
  - vm_compute. reflexivity.
Defined.

(** The fenced incarnation still sends a record. *)
Definition late : Evidence := record 1 1 9 (detach 1 1 0 0).

Lemma late_typed : typed_evidence late.
Proof. repeat split; in_range. Qed.

Lemma fencing_is_permanent_witness : session_is_fenced (im_state (sent late demo3)) (mkKey (sid 1) 1) = true.
Proof.
  apply (fencing_is_permanent demo3 (sent late demo3)).
  - apply rtc_once, step_call, sent_step, late_typed.
  - vm_compute. reflexivity.
Defined.

Lemma fenced_evidence_is_inert_witness :
  derive_port_view (im_state (ingest_locked late 2000 true true demo3).2) demo_limits (port 1 0) ValidationPolicy.IncludeAll
  = derive_port_view (im_state demo3) demo_limits (port 1 0) ValidationPolicy.IncludeAll.
Proof.
  assert (Hf : session_is_fenced (im_state demo3) (mkKey (hdr_source (ev_header late)) (hdr_incarnation (ev_header late))) = true)
    by (vm_compute; reflexivity).
  exact (proj1 (fenced_evidence_is_inert late 2000 true true demo3 Hf eq_refl) demo_limits (port 1 0) ValidationPolicy.IncludeAll).
Defined.

(** A second cable with the label of the first. *)
Definition clash : Evidence := record 1 1 5 (cable 2 "A-1").

Lemma register_object_label_rule_witness :
  dc_disposition (decide_evidence demo_limits (im_state demo2) (seen 5) (im_labels demo2) clash).1
    = IngestDisposition.RefusedLabelConflict <->
  label_taken (im_state demo2) (oid 2) "A-1".
Proof.
  apply (register_object_label_rule demo_limits (im_state demo2) (seen 5) (im_labels demo2) clash
    (mkObjectDescriptor (oid 2) ObjectKind.Cable "A-1" "" "" [default_side_descriptor; default_side_descriptor]
       default_nominal_capability)).
  - apply (ii_labels demo2). eapply reachable_inv; [apply durable_reachable, demo_steps2|apply demo_inv0].
  - reflexivity.
  - vm_compute. reflexivity.
  - vm_compute. reflexivity.
Defined.

(** ** Behaviours worth knowing *)

(** A registry for a single source. *)
Definition one_options : RegistryOptions :=
  mkOptions nil_id (mkLimits 8 4 4 4 1 4 8 2 4 64 16 16 4 4096 64 2 16) 2.
Definition one0 : Impl ListLog :=
  the (fresh_impl one_options 1000) (registry_open one_options (7, 9) 1000 (Some (created_report, inl demo_store))).
(** The source registers a cable, restarts, and registers it again. *)
Definition again1 : Evidence := record 1 2 1 (cable 1 "A-1").
Definition one1 : Impl ListLog := sent again1 (opened 1 5 2 (sent ev1 (opened 1 5 1 one0))).

Definition reopened (options : RegistryOptions) (impl : Impl ListLog) : Outcome (Impl ListLog) :=
  registry_open options (1, 1) 3000 (Some (clean_report, inl (mkListLog 65536 false (logged impl)))).

Lemma one_open_ok : registry_open one_options (7, 9) 1000 (Some (created_report, inl demo_store)) = inl one0.
Proof. vm_compute. reflexivity. Qed.

Lemma again1_typed : typed_evidence again1.
Proof. repeat split; first [in_range | repeat constructor; in_range]. Qed.

Lemma one_steps : rtc durable_step one0 one1.
Proof.
  apply (rtc_l _ _ (opened 1 5 1 one0)); [apply durable_call, opened_step; in_range|].
  apply (rtc_l _ _ (sent ev1 (opened 1 5 1 one0))); [exact (durable_call _ _ (sent_step ev1 _ ev1_typed))|].
  apply (rtc_l _ _ (opened 1 5 2 (sent ev1 (opened 1 5 1 one0)))); [apply durable_call, opened_step; in_range|].
  exact (rtc_once _ _ (durable_call _ _ (sent_step again1 _ again1_typed))).
Qed.

Lemma one_options_typed : typed_options one_options.
Proof. split; [|split; in_range]. repeat constructor; in_range. Qed.

Lemma one_owners :
  ~ Forall (fun e => zlen e.2 <= max_sources (im_limits one1)) (rs_object_registrations (im_state one1)).
Proof. apply (bool_decide_eq_false _). vm_compute. reflexivity. Qed.

(** With one source allowed, a source that registers a cable, restarts, and
    registers it again leaves a log that opens and a state with two owners of one
    registration: [Compact] reports success, and the store no longer opens. *)
Lemma compacted_store_opens_iff_it_fits_witness :
  (exists impl, reopened one_options one1 = inl impl) /\
  (compact one1).1 = inl tt /\
  reopened one_options (compact one1).2 =
    inr (mkError ErrorCode.CorruptStore "the compacted state image could not be decoded").
Proof.
  split; [vm_compute; by eexists|]. split; [vm_compute; reflexivity|].
  apply (compacted_store_opens_iff_it_fits one_options (7, 9) 1000 created_report demo_store one0 one1 (compact one1).2
    (1, 1) 3000 clean_report (reader (compact one1).2) (reader (compact one1).2) one_options_typed
    ltac:(in_range) ltac:(in_range) ltac:(in_range) eq_refl eq_refl one_open_ok one_steps ltac:(vm_compute; reflexivity)
    (reader_visits (compact one1).2) eq_refl).
  intros (_ & _ & [_ Hown] & _). exact (one_owners Hown).
Defined.

(** Two sources report the same replacement of cable 1. *)
Definition pair0 : Impl ListLog := opened 2 5 1 (sent ev1 demo1).
Definition swap (s g : Z) : Evidence := record s 1 g (ReincarnateObject (mkReincarnate (oid 1) 1 "" "")).

(** The current incarnation of an object can depend on arrival order. Two
    sources report the same replacement of a cable and both records are
    accepted; then the first source restarts. If its report arrived first, the
    cable falls back to incarnation 1, because the second report had only been
    kept as history; if it arrived second, the cable stays at incarnation 2. *)
Theorem reincarnation_depends_on_order :
  is_accepted (ir_disposition (registry_ingest 2000 (swap 1 2) pair0).1) = true /\
  is_accepted (ir_disposition (registry_ingest 2000 (swap 2 1) (sent (swap 1 2) pair0)).1) = true /\
  is_accepted (ir_disposition (registry_ingest 2000 (swap 2 1) pair0).1) = true /\
  is_accepted (ir_disposition (registry_ingest 2000 (swap 1 2) (sent (swap 2 1) pair0)).1) = true /\
  object_incarnation_of (im_state (opened 1 5 2 (send_all [swap 1 2; swap 2 1] pair0))) (oid 1) = 1 /\
  object_incarnation_of (im_state (opened 1 5 2 (send_all [swap 2 1; swap 1 2] pair0))) (oid 1) = 2.
Proof. vm_compute. split_and!; reflexivity. Qed.

(** A port that admits two cables, both attached. *)
Definition duplex : Impl ListLog :=
  send_all [record 1 1 1 (cable 1 "A"); record 1 1 2 (cable 2 "B"); record 1 1 3 (switch 1 2 2);
            record 1 1 4 (attach 1 1 0 0); record 1 1 5 (attach 2 1 0 1)] demo1.

(** Detaching one of two cables makes their port conflicting. On a port that
    admits two attachments, both attached by one source in their own slots,
    the port is attached; when that source detaches the first cable from its
    slot, the port is reported conflicting, as both empty and occupied, although
    the record is accepted and nothing contradicts it. *)
Theorem partial_detach_is_conflicting :
  pv_state (derive_port_view (im_state duplex) demo_limits (port 1 0) ValidationPolicy.IncludeAll)
    = PortAttachmentState.Attached /\
  ir_disposition (registry_ingest 2000 (record 1 1 6 (detach 1 1 0 0)) duplex).1 = IngestDisposition.Accepted /\
  let view := derive_port_view (im_state (sent (record 1 1 6 (detach 1 1 0 0)) duplex)) demo_limits (port 1 0)
                ValidationPolicy.IncludeAll in
  pv_state view = PortAttachmentState.Conflicting /\
  cn_reason <$> pv_conflicts view = [ConflictReason.EmptyAndOccupied].
Proof. vm_compute. split_and!; reflexivity. Qed.

(** Two sources of equal authority place one side at different ports. *)
Definition split_claims : Impl ListLog :=
  sent (record 2 1 1 (attach 1 1 0 0))
    (opened 2 5 1 (send_all [ev1; record 1 1 2 (switch 1 2 4); record 1 1 3 (attach 1 1 1 3)] demo1)).

Definition all_options : QueryOptions := mkQueryOptions ValidationPolicy.IncludeAll true true true nil_id nil_id.

(** A doubly booked side can report a slot nobody claimed. One source claims
    a side at port 1 slot 3, another at port 0 slot 0; the object view sorts the
    ports but not the slots, so it shows the side at port 0 slot 3 and port 1
    slot 0. *)
Theorem double_booked_slots_misaligned :
  (fun e => (ae_port e, ae_slot e)) <$>
    mjoin (sv_edges <$> ov_sides (derive_object_view (im_state split_claims) demo_limits (oid 1) all_options))
  = [(port 1 0, 3); (port 1 1, 0)].
Proof. vm_compute. reflexivity. Qed.
