(* ===== verification/RemoteScenarios.v ===== *)
(** * A deployment behind a server

    The registry of [Scenarios.v] served over a connection, at which the theorems
    on the transport are instantiated. *)
From S2P Require Import Prelude OrdMap Types Ids Graph Codec Serialization State StateCodec Fold Derive Log Digest Words Admit Ingest Session Views Snapshot SnapshotCodec SnapshotBuild ViewCodec Protocol Socket Server Client Remote Guarantees Scenarios.
#[local] Open Scope string_scope.
#[local] Open Scope Z_scope.

(** The counters of a log that keeps its records in memory. *)
#[export] Instance list_counters : StoreCounters ListLog := {|
  records_in_log s := zlen (ll_records s);
  bytes_on_disk _ := 0;
  rewrite_count _ := 0;
|}.

Definition demo_server : ServerOptions := mkServerOptions "127.0.0.1" 4000 2 4 demo_limits false.
Definition demo_clock (turn reading : nat) : Z := 2000.
Definition demo_shared : Shared ListLog := mkShared demo1 no_stats false.
Definition demo_connection : Connection ListLog := mkConnection demo_server demo_shared demo_clock true.
Definition demo_client : Client := mkClient demo_limits [] default_hello 1 false.

(** ** Witnesses *)

Lemma demo_connected : connected demo_limits demo_client demo_connection.
Proof. split; [reflexivity..|in_range]. Qed.

Lemma publish_request_ok : request_ok demo_limits (PublishCall ev1).
Proof.
  split; [|split; vm_compute; (reflexivity || discriminate)].
  repeat split; first [in_range | repeat constructor; in_range].
Qed.

Definition publish_reply : IngestResult :=
  mkIngestResult IngestDisposition.Accepted (from_parts 1 101) EvidenceKind.RegisterObject 1 2000 "".

Lemma publish_answer :
  (local_call (PublishCall ev1) (cx_clock demo_connection 0%nat) (registry_of demo_connection)).1 = inl publish_reply.
Proof. vm_compute. reflexivity. Qed.

Lemma publish_reply_ok :
  reply_ok demo_limits (PublishCall ev1) (local_call (PublishCall ev1) (cx_clock demo_connection 0%nat) (registry_of demo_connection)).1.
Proof.
  rewrite publish_answer. split; [|split; vm_compute; (reflexivity || discriminate)]. repeat split; in_range.
Qed.


(** A query for port 0 of a switch, damaged into one for port 1. *)
Definition asked : list Z := payload_of (encode_port_query (port 1 0) ValidationPolicy.IncludeAll).
Definition garbled : list Z := payload_of (encode_port_query (port 1 1) ValidationPolicy.IncludeAll).

Lemma damaged_payload_is_served_witness :
  serve_connection demo_server 2 demo_clock (frame_header MessageType.QueryPort 7 asked ++ garbled ++ []) demo_shared =
    serve_connection demo_server 2 demo_clock (frame_header MessageType.QueryPort 7 garbled ++ garbled ++ []) demo_shared /\
  (crc32c garbled <> crc32c asked ->
   decode_frame (frame_header MessageType.QueryPort 7 asked ++ garbled) (max_frame_payload_bytes (so_limits demo_server)) =
     inr (mkError ErrorCode.ProtocolViolation "the frame payload checksum does not match")).
Proof.
  apply (damaged_payload_is_served demo_server 2 demo_clock MessageType.QueryPort 7 asked garbled [] demo_shared).
  - in_range.
  - vm_compute. discriminate.
  - in_range.
  - vm_compute. reflexivity.
Defined.

Example garbled_differs : crc32c garbled <> crc32c asked /\ asked <> garbled.
Proof. split; vm_compute; discriminate. Qed.

Definition two_requests : list Z :=
  (frame_header MessageType.Stats 1 [] ++ frame_header MessageType.QueryPort 2 asked ++ asked)%list.

Lemma serving_ends_witness :
  serve_connection demo_server 500 demo_clock two_requests demo_shared =
  serve_connection demo_server (Datatypes.S (length two_requests)) demo_clock two_requests demo_shared.
Proof. apply (serving_ends demo_server demo_clock two_requests demo_shared 500). vm_compute. lia. Defined.

(** A server whose frames hold forty bytes: the greeting it owes is longer. *)
Definition tight_limits : Limits := {|
  max_objects := 8; max_endpoints := 4; max_ports_per_endpoint := 4; max_sides_per_object := 4; max_sources := 4;
  max_port_simultaneous_attachments := 4; max_claim_records_per_port := 8; max_history_per_key := 2;
  max_overridden_reported := 4; max_string_bytes := 64; max_capability_code_bytes := 16; max_revalidate_claims := 16;
  max_evidence_batch := 4; max_frame_payload_bytes := 40; max_snapshot_entries := 64; max_refusal_audit := 2;
  max_history_events := 16 |}.
Definition tight_server : ServerOptions := mkServerOptions "127.0.0.1" 4000 2 4 tight_limits false.

Lemma oversized_reply_is_dropped_witness :
  serve_frame tight_server (demo_clock 0) (frame_header MessageType.Hello 7 [] ++ [] ++ []) demo_shared =
    ([], mkShared (dispatch tight_server (demo_clock 0) (mkFrame MessageType.Hello 7 []) demo1).2 (count_served no_stats) false,
     Some []).
Proof.
  apply (oversized_reply_is_dropped tight_server (demo_clock 0) MessageType.Hello 7 [] [] demo_shared
    (dispatch tight_server (demo_clock 0) (mkFrame MessageType.Hello 7 []) demo1).1.1
    (dispatch tight_server (demo_clock 0) (mkFrame MessageType.Hello 7 []) demo1).1.2
    (dispatch tight_server (demo_clock 0) (mkFrame MessageType.Hello 7 []) demo1).2).
  - in_range.
  - vm_compute. discriminate.
  - in_range.
  - reflexivity.
  - vm_compute. discriminate.
  - vm_compute. reflexivity.
Defined.
