(* ===== verification/ServingScenarios.v ===== *)
(** * Two clients at once

    The registry of [Scenarios.v], new, served to two connections whose threads
    are interleaved, at which the theorems on concurrent serving and on the daemon
    are instantiated. *)
From stdpp Require Import gmap.
From S2P Require Import Prelude OrdMap Types Ids Graph Codec Serialization State Log Protocol Socket Net Store Admit Ingest Session Recovery Invariant WellFormed Durability Restart ViewCodec SnapshotBuild Canonical Server ServerLife ServerNet Concurrent Daemon DaemonLife Scenarios RemoteScenarios.
#[local] Open Scope string_scope.
#[local] Open Scope Z_scope.

Definition frame_of (type : MessageType.t) (id : Z) (payload : list Z) : list Z := (frame_header type id payload ++ payload)%list.

(** The first client opens a session, publishes a record and sends garbage; the
    second asks for the statistics. *)
Definition demo_peer (c : nat) : list Z :=
  match c with
  | 0%nat => frame_of MessageType.OpenSession 1 (payload_of (encode_open_session_request demo_limits (demo_source 1 5) 1)) ++
         frame_of MessageType.Publish 2 (encode_evidence_bytes ev1 demo_limits) ++ replicate 40 255
  | 1%nat => frame_of MessageType.Stats 1 []
  | _ => []
  end%list.

Definition two_clients : list Activity :=
  [Life Arrive; Life Register; Life Spawn; Handle 0 (fun _ => 2000); Life Arrive; Life Register; Life Spawn;
   Handle 1 (fun _ => 2000); Answer 0 4096; Handle 0 (fun _ => 2000); Answer 1 10; Answer 0 4096; Handle 0 (fun _ => 2000);
   Quit 1; Reject 0 4096].

Definition served_two : System ListLog :=
  default (initial demo0) (act_all demo_server demo_peer two_clients (initial demo0)).

Lemma act_all_served {S} `{AppendLog S, StoreCounters S} options peer (registry : Impl S) activities s s' :
  served options peer registry s -> Forall typed_activity activities -> act_all options peer activities s = Some s' ->
  served options peer registry s'.
Proof.
  unfold act_all. intros Hs Hty. revert s Hs. induction Hty as [|activity activities Ha _ IH]; intros s Hs; cbn; [by intros [= <-]|].
  destruct (act options peer activity s) as [s1|] eqn:E.
  - apply IH. by apply (served_step _ _ _ s activity).
  - assert (Hn : foldl (fun s activity => s ≫= act options peer activity) None activities = None) by (clear; by induction activities).
    by rewrite Hn.
Qed.

Lemma two_clients_typed : Forall typed_activity two_clients.
Proof. repeat constructor; cbn; intros; in_range. Qed.

Lemma served_two_ok : served demo_server demo_peer demo0 served_two.
Proof.
  apply (act_all_served _ _ _ two_clients (initial demo0)); [constructor|apply two_clients_typed|]. vm_compute. reflexivity.
Qed.

(** ** Witnesses *)

Lemma concurrent_is_sequential_witness :
  sequential demo_server demo0 (sy_history served_two) (sh_registry (sy_shared served_two)) /\
  length (requests_of 0 (sy_history served_two)) = 2%nat /\
  exists rest, frames_of demo_server (demo_peer 0) (requests_of 0 (sy_history served_two)) rest.
Proof.
  destruct (concurrent_is_sequential demo_server demo_peer demo0 served_two) as [Hs Hc].
  - split; [discriminate|reflexivity].
  - exact served_two_ok.
  - split; [exact Hs|]. split; [vm_compute; reflexivity|].
    destruct (Hc 0%nat) as (rest & _ & _ & _ & _ & Hf & _). by exists rest.
Defined.

Lemma demo_peer_u8 c : Forall is_u8 (demo_peer c).
Proof. destruct c as [|[|c]]; apply all_u8; vm_compute; reflexivity. Qed.

(** The request that published the record. *)
Definition published : Handled := List.nth 2 (sy_history served_two) (mkHandled 0 (fun _ => 0) (mkFrame MessageType.Hello 0 []) MessageType.Hello []).

Lemma published_acknowledged : published ∈ sy_history served_two /\ acknowledged demo_server published 0 ev1.
Proof.
  split; [apply (list_elem_of_lookup_2 _ 2); vm_compute; reflexivity|].
  assert (Et : ha_type published = MessageType.PublishAck) by (vm_compute; reflexivity).
  unfold acknowledged. rewrite Et. split; [reflexivity|]. split; [vm_compute; reflexivity|].
  exists publish_reply. split; vm_compute; reflexivity.
Qed.

Lemma clients_do_no_harm_witness :
  impl_inv (sh_registry (sy_shared served_two)) /\ on_record 2000 ev1 (sh_registry (sy_shared served_two)) /\
  exists impl', registry_open demo_options (1, 1) 3000
      (Some (clean_report, inl (mkListLog 65536 false (logged (sh_registry (sy_shared served_two)))))) = inl impl' /\
    recovered (sh_registry (sy_shared served_two)) impl'.
Proof.
  destruct (clients_do_no_harm demo_options (7, 9) 1000 created_report demo_store demo0 demo_server demo_peer served_two)
    as (Hinv & _ & Hon & Hre).
  - exact demo_options_typed.
  - in_range.
  - in_range.
  - in_range.
  - reflexivity.
  - reflexivity.
  - exact demo_open_ok.
  - exact demo_limits_u32.
  - in_range.
  - exact demo_peer_u8.
  - exact served_two_ok.
  - split; [exact Hinv|]. split; [exact (Hon published 0%nat ev1 (proj1 published_acknowledged) (proj2 published_acknowledged))|].
    by eapply Hre.
Defined.

(** ** A daemon that is told to stop *)

Definition small_settings : Settings := mkSettings "registry.log" "127.0.0.1" 0 4 true false true false.
Definition daemon_open : Outcome (Impl ListLog) :=
  registry_open daemon_registry_options (7, 9) 1000 (Some (created_report, inl demo_store)).
Definition small_ready : Ready ListLog :=
  mkReady small_settings (the (fresh_impl daemon_registry_options 1000) daemon_open) small_server.

Definition stopping_peer (c : nat) : list Z := frame_of MessageType.Shutdown 1 [].

Definition shutdown_run : list DaemonStep :=
  (Serve <$> [Life Arrive; Life Register; Life Spawn; Handle 0 (fun _ => 2000); Answer 0 28]) ++ [Look] ++
  (Serve <$> [Request 0; Announce 0]) ++ [Look] ++
  (Serve <$> [Life CallStop; Life SetFlag; Life Wake; Life Wakeup; Life Join; Life Drain; Life (Finish 0); Life (Leave 0);
              Life (Notify 0); Life Drain]).

Definition daemon_all (steps : list DaemonStep) (d : Daemon ListLog) : option (Daemon ListLog) :=
  foldl (fun d step => d ≫= daemon_step small_ready stopping_peer step) (Some d) steps.
Definition shut_down : Daemon ListLog := default (daemon_initial small_ready) (daemon_all shutdown_run (daemon_initial small_ready)).

Lemma daemon_all_reachable steps d d' :
  daemon_reachable small_ready stopping_peer d -> Forall typed_step steps -> daemon_all steps d = Some d' ->
  daemon_reachable small_ready stopping_peer d'.
Proof.
  unfold daemon_all. intros Hd Hty. revert d Hd. induction Hty as [|step steps Hs _ IH]; intros d Hd; cbn; [by intros [= <-]|].
  destruct (daemon_step small_ready stopping_peer step d) as [d1|] eqn:E.
  - apply IH. by apply (daemon_then _ _ d step).
  - assert (Hn : foldl (fun d step => d ≫= daemon_step small_ready stopping_peer step) None steps = None) by (clear; by induction steps).
    by rewrite Hn.
Qed.

Lemma shut_down_reachable : daemon_reachable small_ready stopping_peer shut_down.
Proof.
  apply (daemon_all_reachable shutdown_run (daemon_initial small_ready)); [constructor| |vm_compute; reflexivity].
  repeat constructor; cbn; intros; in_range.
Qed.

Lemma daemon_stops_when_told_witness :
  da_main shut_down = Ends true /\ asked_to_stop small_ready (sy_history (da_system shut_down)) /\
  exists registry, daemon_end small_ready shut_down = Some (registry, [Out "STOPPED requested"]).
Proof.
  assert (Em : da_main shut_down = Ends true) by (vm_compute; reflexivity).
  destruct (daemon_stops_when_told small_ready stopping_peer shut_down) as (Hmain & _ & _ & Hend).
  - in_range.
  - exact shut_down_reachable.
  - split; [exact Em|]. split; [exact (proj2 (Hmain true Em))|].
    destruct (daemon_end small_ready shut_down) as [[registry lines]|] eqn:E.
    + exists registry. destruct (Hend registry lines eq_refl) as (_ & _ & _ & _ & ->). reflexivity.
    + vm_compute in E. discriminate.
Defined.
