(* ===== verification/Examples.v ===== *)
(** * The example programs ([examples/])

    [embed_registry.cpp], [conflict_inspection.cpp] and [publish_over_tcp.cpp], as
    programs over the interface of a registry handle: two run a registry in the
    process, one talks to a server.  What they print and the code they exit with
    are computed, so that the model is seen to behave as the authors of the
    library say the library does. *)
From S2P Require Import Prelude OrdMap Types Ids Graph State Log Snapshot Text Names Render Protocol Socket Net Admit Ingest Session Recovery Views SnapshotBuild Server Client Cli ServerLife ServerNet DaemonLife Scenarios RemoteScenarios.
#[local] Open Scope string_scope.
#[local] Open Scope Z_scope.

(** ** Programs *)

(** The handle of the registry and what [now_timestamp] will read. *)
Record World (H : Type) := mkWorld { wo_handle : H; wo_time : nat -> Z }.
Arguments mkWorld {H} _ _.
Arguments wo_handle {H} _.
Arguments wo_time {H} _.

(** What is printed, a value or the code [main] returns early with, and the world. *)
Definition Program (H A : Type) : Type := World H -> list Line * (A + Z) * World H.

Definition done {H A} (value : A) : Program H A := fun w => ([], inl value, w).
Definition exits {H A} (code : Z) : Program H A := fun w => ([], inr code, w).
Definition prints {H} (line : Line) : Program H unit := fun w => ([line], inl tt, w).
Definition and_then {H A B} (first : Program H A) (rest : A -> Program H B) : Program H B := fun w =>
  match first w with
  | (lines, inr code, w) => (lines, inr code, w)
  | (lines, inl value, w) => let '(more, result, w) := rest value w in ((lines ++ more)%list, result, w)
  end.
Definition calls {H A} (f : H -> Outcome A * H) : Program H (Outcome A) := fun w =>
  let '(result, h) := f (wo_handle w) in ([], inl result, mkWorld h (wo_time w)).
Definition now_timestamp {H} : Program H Z := fun w =>
  ([], inl (wo_time w 0%nat), mkWorld (wo_handle w) (fun i => wo_time w (Datatypes.S i))).

Declare Scope program_scope.
Notation "x <- first ;; rest" := (and_then first (fun x => rest))
  (at level 100, first at next level, right associativity) : program_scope.
Notation "first ;;; rest" := (and_then first (fun _ => rest)) (at level 100, right associativity) : program_scope.
#[local] Open Scope program_scope.

(** [if (!condition) return code;] *)
Definition must {H} (code : Z) (condition : bool) : Program H unit := if condition then done tt else exits code.
(** [if (!result.has_value()) { report; return code; }] *)
Definition value_or {H A} (code : Z) (report : Error -> list Line) (result : Outcome A) : Program H A :=
  match result with
  | inl value => done value
  | inr error => fun w => (report error, inr code, w)
  end.
Fixpoint for_each {H A} (items : list A) (body : A -> Program H unit) : Program H unit :=
  match items with
  | [] => done tt
  | item :: items => body item ;;; for_each items body
  end.
Definition silent (_ : Error) : list Line := [].

(** A record without details, as each program fills it in. *)
Definition example_evidence (id : EvidenceId) (source : SourceId) (incarnation generation observed_at : Z)
    (provenance : ProvenanceClass.t) (payload : EvidencePayload) : Evidence :=
  mkEvidence (mkHeader id source incarnation generation observed_at provenance "" kEvidenceSchemaVersion) payload.

Section programs.
Context {H : Type} `{Handle H}.

(** ** [embed_registry.cpp] *)

Definition id_from {tag} (value : Z) : StrongId tag := from_parts 0x0B1EC70000000000 value.

Definition embed_source : SourceId := from_parts 0x0500000000000001 1.
Definition embed_descriptor : SourceDescriptor :=
  mkSourceDescriptor embed_source "discovery-agent" (mkAuthority AuthorityClass.Observed 10) "".

(** [publish]: the generation it advances, and whether the record was accepted. *)
Definition embed_publish (payload : EvidencePayload) (generation : Z) : Program H (bool * Z) :=
  let generation := wrap64 (generation + 1) in
  now <- now_timestamp ;;
  result <- calls (handle_publish (example_evidence (from_parts 0x00E71DE000000000 generation) embed_source 1 generation now
                                     ProvenanceClass.DiscoveryAgent payload)) ;;
  match result with
  | inr error => prints (Err ("ingest failed: " +:+ describe error)) ;;; done (false, generation)
  | inl result =>
      if negb (is_accepted (ir_disposition result)) then
        prints (Err ("refused: " +:+ to_name (ir_disposition result) +:+ ": " +:+ ir_detail result)) ;;; done (false, generation)
      else done (true, generation)
  end.

(** [if (!publish(payload) || ...) return 1;] *)
Definition embed_record (payload : EvidencePayload) (generation : Z) : Program H Z :=
  answer <- embed_publish payload generation ;; must 1 answer.1 ;;; done answer.2.

Definition cable : ObjectId := id_from 1.
Definition patch_panel : EndpointId := id_from 2.
Definition cable_descriptor : ObjectDescriptor :=
  let side := mkObjectSideDescriptor ConnectorClass.Lc MediaClass.SinglemodeFiber 1 in
  mkObjectDescriptor cable ObjectKind.PatchCord "C-17" "SN-0001" "R04-U12-P3" [side; side]
    (mkNominalCapability MediaClass.SinglemodeFiber ConnectorClass.Lc 0 0 0 0 false "").
Definition panel_descriptor : EndpointDescriptor :=
  mkEndpointDescriptor patch_panel EndpointKind.PatchPanel "pp-04" "R04-U12" 24 default_port_capability.

Definition report_port (index : Z) : Program H unit :=
  port <- calls (handle_query_port (mkPortRef patch_panel index) ValidationPolicy.IncludeAll) ;;
  port <- value_or 1 (fun error => [Err ("query failed: " +:+ describe error)]) port ;;
  prints (Out ("port " +:+ to_dec index +:+ " is " +:+ to_name (pv_state port))) ;;;
  if bool_decide (pv_state port = PortAttachmentState.Attached) then
    match pv_edges port with
    | edge :: _ =>
        prints (Out ("  held by cable " +:+ id_hex (side_object (ae_subject edge)) +:+ " side " +:+
          to_dec (side_index (ae_subject edge)) +:+ ", asserted by " +:+ to_dec (zlen (ae_claims edge)) +:+ " claim(s) at " +:+
          to_name (auth_class (ae_authority edge)) +:+ " authority"))
    | [] => done tt
    end
  else done tt.

Definition embed_body : Program H unit :=
  session <- calls (handle_open_session embed_descriptor 1) ;;
  match session with
  | inl session =>
      if bool_decide (os_disposition session = OpenSessionDisposition.Opened) then done tt
      else prints (Err "the publisher session could not be opened") ;;; exits 1
  | inr _ => prints (Err "the publisher session could not be opened") ;;; exits 1
  end ;;;
  generation <- embed_record (RegisterObject cable_descriptor) 0 ;;
  generation <- embed_record (RegisterEndpoint panel_descriptor) generation ;;
  generation <- embed_record (Attach (mkAttach (mkObjectSideRef cable 0) (mkPortRef patch_panel 3) 1 0)) generation ;;
  generation <- embed_record (Attach (mkAttach (mkObjectSideRef cable 1) (mkPortRef patch_panel 4) 1 0)) generation ;;
  generation <- embed_record (Move (mkMove (mkObjectSideRef cable 0) 1 (mkPortRef patch_panel 3) (mkPortRef patch_panel 9) 0 0))
    generation ;;
  for_each [3; 4; 9] report_port ;;;
  object <- calls (handle_query_object cable) ;;
  object <- value_or 1 silent object ;;
  prints (Out ("cable " +:+ ov_label object +:+ " is " +:+ to_name (ov_lifecycle object))) ;;;
  snapshot <- calls handle_snapshot ;;
  snapshot <- value_or 1 silent snapshot ;;
  prints (Out ("graph digest " +:+ digest_hex (graph_digest snapshot) +:+ " over " +:+
    to_dec (wrap64 (gs_ports_attached (sn_summary snapshot) + gs_ports_empty (sn_summary snapshot))) +:+ " port(s) and " +:+
    to_dec (gs_objects_total (sn_summary snapshot)) +:+ " object(s)")) ;;;
  (fun w => ([], inl tt, mkWorld (handle_close (wo_handle w)) (wo_time w))).

(** ** [conflict_inspection.cpp] *)

(** [Publisher]; its registry is the handle. *)
Record Publisher := mkPublisher { pu_id : SourceId; pu_incarnation : Z; pu_generation : Z }.

Definition publisher_open (name : string) (authority_class : AuthorityClass.t) (p : Publisher) : Program H bool :=
  result <- calls (handle_open_session (mkSourceDescriptor (pu_id p) name (mkAuthority authority_class 1) "") (pu_incarnation p)) ;;
  match result with
  | inr error => prints (Err ("open failed: " +:+ describe error)) ;;; done false
  | inl result =>
      if bool_decide (os_disposition result = OpenSessionDisposition.RefusedDescriptorConflict) ||
         bool_decide (os_disposition result = OpenSessionDisposition.RefusedFenced) ||
         bool_decide (os_disposition result = OpenSessionDisposition.RefusedInvalid) then
        prints (Err ("the session was refused: " +:+ to_name (os_disposition result))) ;;; done false
      else done true
  end.

Definition conflict_publish (payload : EvidencePayload) (p : Publisher) : Program H (bool * Publisher) :=
  let p := mkPublisher (pu_id p) (pu_incarnation p) (wrap64 (pu_generation p + 1)) in
  now <- now_timestamp ;;
  result <- calls (handle_publish (example_evidence
    (from_parts (Z.lxor (id_hi (sid_value (pu_id p))) 0x00E71DE000000000) (pu_generation p))
    (pu_id p) (pu_incarnation p) (pu_generation p) now ProvenanceClass.Reconciliation payload)) ;;
  match result with
  | inr error => prints (Err ("publish failed: " +:+ describe error)) ;;; done (false, p)
  | inl result =>
      if negb (is_accepted (ir_disposition result)) then
        prints (Err ("refused: " +:+ to_name (ir_disposition result) +:+ ": " +:+ ir_detail result)) ;;; done (false, p)
      else done (true, p)
  end.

(** [if (!p.publish(payload)) { complaint; return 1; }] *)
Definition conflict_record (complaint : string) (payload : EvidencePayload) (p : Publisher) : Program H Publisher :=
  answer <- conflict_publish payload p ;;
  if answer.1 then done answer.2 else prints (Err complaint) ;;; exits 1.

Definition cable_a : ObjectId := from_parts 0x0B1EC70000000000 100.
Definition cable_b : ObjectId := from_parts 0x0B1EC70000000000 101.
Definition switch_id : EndpointId := from_parts 0x0E0D000000000000 200.
Definition copper_side : ObjectSideDescriptor := mkObjectSideDescriptor ConnectorClass.Qsfp28 MediaClass.DirectAttachCopper 4.
Definition copper_cable (object : ObjectId) (label : string) : ObjectDescriptor :=
  mkObjectDescriptor object ObjectKind.Cable label "" "" [copper_side]
    (mkNominalCapability MediaClass.DirectAttachCopper ConnectorClass.Qsfp28 0 0 0 0 false "").

Definition claim_line (claim : ClaimProvenance) : Line :=
  Out ("    " +:+ id_hex (cp_source claim) +:+ " generation " +:+ to_dec (cp_generation claim) +:+ " at " +:+
       to_name (auth_class (cp_authority claim)) +:+ " authority").

Definition conflict_body : Program H unit :=
  let left := mkPublisher (from_parts 0x0500000000000010 1) 1 0 in
  let right := mkPublisher (from_parts 0x0500000000000011 1) 1 0 in
  opened <- publisher_open "runbook-left" AuthorityClass.Observed left ;; must 1 opened ;;;
  opened <- publisher_open "runbook-right" AuthorityClass.Observed right ;; must 1 opened ;;;
  left <- conflict_record "the endpoint registration was refused"
    (RegisterEndpoint (mkEndpointDescriptor switch_id EndpointKind.Switch "sw-200" "" 2 default_port_capability)) left ;;
  left <- conflict_record "an object registration was refused"
    (RegisterObject (copper_cable cable_a ("X-" +:+ String.substring 28 4 (id_hex cable_a)))) left ;;
  left <- conflict_record "an object registration was refused"
    (RegisterObject (copper_cable cable_b ("X-" +:+ String.substring 28 4 (id_hex cable_b)))) left ;;
  left <- conflict_record "an attachment was refused"
    (Attach (mkAttach (mkObjectSideRef cable_a 0) (mkPortRef switch_id 0) 1 0)) left ;;
  right <- conflict_record "an attachment was refused"
    (Attach (mkAttach (mkObjectSideRef cable_b 0) (mkPortRef switch_id 0) 1 0)) right ;;
  conflicted <- calls (handle_query_port (mkPortRef switch_id 0) ValidationPolicy.IncludeAll) ;;
  conflicted <- value_or 1 (fun error => [Err ("query failed: " +:+ describe error)]) conflicted ;;
  prints (Out ("port 0 is " +:+ to_name (pv_state conflicted) +:+ " with " +:+ to_dec (zlen (pv_edges conflicted)) +:+
    " candidate(s)")) ;;;
  for_each (pv_conflicts conflicted) (fun note =>
    prints (Out ("  conflict " +:+ to_name (cn_reason note) +:+ ": " +:+ cn_detail note)) ;;;
    for_each (cn_claims note) (fun claim => prints (claim_line claim))) ;;;
  snapshot <- calls handle_snapshot ;;
  snapshot <- value_or 1 (fun error => [Err ("snapshot failed: " +:+ describe error)]) snapshot ;;
  for_each (sn_ports snapshot) (fun port =>
    if port_index (snp_port port) =? 0 then
      prints (Out ("snapshot records " +:+ to_name (snp_state port) +:+ " with " +:+ to_dec (zlen (snp_attachments port)) +:+
        " attachment(s) and " +:+ to_dec (zlen (snp_conflicts port)) +:+ " conflict(s)"))
    else done tt) ;;;
  prints (Out ("graph digest " +:+ digest_hex (graph_digest snapshot))) ;;;
  (fun w => ([], inl tt, mkWorld (handle_close (wo_handle w)) (wo_time w))).

(** ** [publish_over_tcp.cpp] *)

Definition remote_source : SourceId := from_parts 0x0500000000000002 1.
Definition remote_descriptor : SourceDescriptor :=
  mkSourceDescriptor remote_source "remote-publisher" (mkAuthority AuthorityClass.Declared 1) "".
Definition remote_cable : ObjectId := from_parts 0x0B1EC70000000000 42.
Definition remote_switch : EndpointId := from_parts 0x0E0D000000000000 7.

Definition tcp_publish (payload : EvidencePayload) (generation : Z) : Program H (bool * Z) :=
  let generation := wrap64 (generation + 1) in
  now <- now_timestamp ;;
  result <- calls (handle_publish (example_evidence (from_parts 0x00E71DE000000000 generation) remote_source 7 generation now
                                     ProvenanceClass.OperatorEntry payload)) ;;
  match result with
  | inr error => prints (Err ("publish failed: " +:+ describe error)) ;;; done (false, generation)
  | inl result =>
      prints (Out ("publish -> " +:+ to_name (ir_disposition result))) ;;; done (is_accepted (ir_disposition result), generation)
  end.

Definition tcp_record (payload : EvidencePayload) (generation : Z) : Program H Z :=
  answer <- tcp_publish payload generation ;; must 1 answer.1 ;;; done answer.2.

(** [main] once the client is connected. *)
Definition tcp_body : Program H unit :=
  session <- calls (handle_open_session remote_descriptor 7) ;;
  match session with
  | inl session =>
      if bool_decide (os_disposition session = OpenSessionDisposition.Opened) then done tt
      else prints (Err "the remote session could not be opened") ;;; exits 1
  | inr _ => prints (Err "the remote session could not be opened") ;;; exits 1
  end ;;;
  generation <- tcp_record (RegisterObject (copper_cable remote_cable "C-42")) 0 ;;
  generation <- tcp_record (RegisterEndpoint (mkEndpointDescriptor remote_switch EndpointKind.Switch "sw-07" "" 4
    (mkPortCapability 1 ConnectorClass.Qsfp28 MediaClass.Unknown 0))) generation ;;
  generation <- tcp_record (Attach (mkAttach (mkObjectSideRef remote_cable 0) (mkPortRef remote_switch 1) 1 0)) generation ;;
  port <- calls (handle_query_port (mkPortRef remote_switch 1) ValidationPolicy.IncludeAll) ;;
  port <- value_or 1 (fun error => [Err ("query failed: " +:+ describe error)]) port ;;
  prints (Out ("remote answer: port 1 is " +:+ to_name (pv_state port) +:+ " with " +:+ to_dec (zlen (pv_edges port)) +:+
    " attachment(s)")) ;;;
  digest <- calls handle_digest ;;
  match digest with
  | inl digest => prints (Out ("remote graph digest " +:+ digest_hex digest))
  | inr _ => done tt
  end ;;;
  (fun w => ([], inl tt, mkWorld (handle_close (wo_handle w)) (wo_time w))).
End programs.

(** ** The programs whole *)

Section mains.
Context {S : Type} `{AppendLog S, StoreCounters S}.

(** What [main] printed and returned. *)
Definition finish {H} (result : list Line * (unit + Z) * World H) : list Line * Z :=
  let '(lines, value, _) := result in (lines, match value with inl _ => 0 | inr code => code end).

(** A program that opens a registry of its own, in memory: the identity it draws,
    the time of opening, and what the registry's clock and its own read later. *)
Definition local_main (body : Program (Local S) unit) (draws : Z * Z) (now : Z) (clock : nat -> nat -> Z) (wall : nat -> Z)
    : list Line * Z :=
  match registry_open (S := S) daemon_registry_options draws now None with
  | inr error => ([Err ("open failed: " +:+ describe error)], 1)
  | inl registry => finish (body (mkWorld (mkLocal registry clock) wall))
  end.

Definition embed_main := local_main embed_body.
Definition conflict_main := local_main conflict_body.

Definition tcp_options : ServerOptions := mkServerOptions "127.0.0.1" 0 8 32 default_limits true.

(** The client's connection, once the operating system has granted it, is served by
    a thread of the server in the same process. *)
Definition tcp_main (os : nat -> SysAnswer) (n : Net) (draws : Z * Z) (now : Z) (clock : nat -> nat -> Z) (wall : nat -> Z)
    : list Line * Z :=
  match registry_open (S := S) daemon_registry_options draws now None with
  | inr error => ([], 1)
  | inl registry =>
      match start os tcp_options n with
      | (inr error, _) => ([Err ("server start failed: " +:+ describe error)], 1)
      | (inl server, n) =>
          let listening := Out ("registry listening on " +:+ endpoint tcp_options server) in
          let served := mkConnection tcp_options (mkShared registry no_stats false) clock true in
          let port := sk_bound_port server in
          let failed error := ([listening; Err ("connect failed: " +:+ describe error)], 1) in
          if port =? 0 then failed (mkError ErrorCode.InvalidArgument "the client port must be set")
          else
            match connect os "127.0.0.1" port n with
            | (inr error, _) => failed error
            | (inl _, _) =>
                match client_connect default_limits port served with
                | (inr error, _) => failed error
                | (inl client, served) =>
                    let greeted := Out ("server identity " +:+ he_identity (cl_hello client) +:+ ", protocol " +:+
                                        to_dec (he_protocol_version (cl_hello client))) in
                    let '(lines, code) := finish (tcp_body (mkWorld (client, served) wall)) in
                    (listening :: greeted :: lines, code)
                end
            end
      end
  end.
End mains.

(** ** What they print *)

Definition example_clock (call reading : nat) : Z := 1700000000000000000 + Z.of_nat call * 1000.
Definition example_wall (reading : nat) : Z := 1700000000000000000 + Z.of_nat reading * 777.
Definition example_process : Net := mkNet {[0; 1; 2]} 0 0.

(** The end that moved frees its port, and both ends of the cable are attached. *)
Example embed_example :
  embed_main (S := ListLog) (3, 5) 1 example_clock example_wall =
  ([Out "port 3 is Empty"; Out "port 4 is Attached";
    Out "  held by cable 0b1ec700000000000000000000000001 side 1, asserted by 1 claim(s) at Observed authority";
    Out "port 9 is Attached";
    Out "  held by cable 0b1ec700000000000000000000000001 side 0, asserted by 1 claim(s) at Observed authority";
    Out "cable C-17 is Attached";
    Out "graph digest 9b2ef2f87d20aaf5d4319ffe4ae08fdc9f49fc58a2d03ad781e6edc87fde4324 over 3 port(s) and 1 object(s)"], 0).
Proof. vm_compute. reflexivity. Qed.

(** Nothing is silently chosen: both claims are reported, and the snapshot carries
    the conflict. *)
Example conflict_example :
  conflict_main (S := ListLog) (3, 5) 1 example_clock example_wall =
  ([Out "port 0 is Conflicting with 2 candidate(s)";
    Out "  conflict TooManyAttachments: 2 distinct subjects claim a port that admits 1";
    Out "    05000000000000100000000000000001 generation 4 at Observed authority";
    Out "    05000000000000110000000000000001 generation 1 at Observed authority";
    Out "snapshot records Conflicting with 2 attachment(s) and 1 conflict(s)";
    Out "graph digest 0cf35347c21cd3395bfaf5441d03190aaf2ad6f9c569de092cc1907e9e069ab8"], 0).
Proof. vm_compute. reflexivity. Qed.

(** A publisher on the other side of a socket gets the same answers. *)
Example tcp_example :
  tcp_main (S := ListLog) (fun _ => Granted 40123) example_process (3, 5) 1 example_clock example_wall =
  ([Out "registry listening on 127.0.0.1:40123"; Out "server identity cable-registry/1.0.0, protocol 1";
    Out "publish -> Accepted"; Out "publish -> Accepted"; Out "publish -> Accepted";
    Out "remote answer: port 1 is Attached with 1 attachment(s)";
    Out "remote graph digest 056c584507fcf8194c2cd913d1524b7293e5ae25166c6fbb30dbc75b32d36d3c"], 0).
Proof. vm_compute. reflexivity. Qed.

(** The programs do not depend on what reaches the registry: the body of the third,
    on a registry in process, prints what it prints through the server. *)
Example tcp_body_in_process :
  let '(lines, code) := local_main (S := ListLog) tcp_body (3, 5) 1 example_clock example_wall in
  let '(served, code') := tcp_main (S := ListLog) (fun _ => Granted 40123) example_process (3, 5) 1 example_clock example_wall in
  served = (take 2 served ++ lines)%list /\ code = code'.
Proof. vm_compute. done. Qed.

(** Without descriptors the third says so and returns 1. *)
Example tcp_without_descriptors :
  tcp_main (S := ListLog) (fun i => if (i =? 0)%nat then Granted 1 else Denied "Too many open files") example_process
    (3, 5) 1 example_clock example_wall =
  ([Err "server start failed: io-failure: socket failed: Too many open files"], 1).
Proof. vm_compute. reflexivity. Qed.
