(* ===== verification/CliScenarios.v ===== *)
(** * Runs of the command line tool

    A small script, run in process and over the wire, at which the theorems on the
    tool are instantiated; and short scripts that show what it does not check. *)
From S2P Require Import Prelude OrdMap Types Ids Graph Codec Serialization State StateCodec Fold Derive Log Digest Words Admit Ingest Session Recovery Invariant WellFormed Views Snapshot SnapshotCodec SnapshotBuild ViewCodec Protocol Socket Server Client Remote Durability Guarantees Scenarios RemoteScenarios Twins Text Names Json Render Script Cli CliRuns.
From Stdlib Require Import (notations) Ascii.
#[local] Open Scope string_scope.
#[local] Open Scope Z_scope.

Definition text_lines (lines : list string) : Text := lines ≫= fun line => (chars line ++ ["010"%char])%list.

Definition demo_script : Text := text_lines
  ["# one cable on one switch";
   "source 00000000000000000000000000000001 scanner Observed 5";
   "object 00000000000000000000000000000001 A-1 2 Sfp";
   "endpoint 00000000000000000000000000000001 leaf 2";
   "attach 00000000000000000000000000000001 0 00000000000000000000000000000001 0  # port 0"].

Definition fixed_options : Options := mkCliOptions "registry.log" "127.0.0.1" 0 false false false false false true 1000.

(** ** Two registries of the same bounds *)

Definition other_open : Outcome (Impl ListLog) :=
  registry_open (mkOptions (from_parts 3 3) demo_limits 2) (1, 2) 77 (Some (created_report, inl demo_store)).
Definition other0 : Impl ListLog := the (fresh_impl demo_options 77) other_open.

Lemma other_open_ok : other_open = inl other0.
Proof. vm_compute. reflexivity. Qed.

Lemma demo_fresh : opened_fresh demo_options true demo0.
Proof.
  exists (7, 9), 1000, (Some (created_report, inl demo_store)).
  split; [exact demo_options_typed|]. split; [in_range|]. split; [in_range|]. split; [in_range|]. split; [done|].
  split; [split; [done|by eexists]|exact demo_open_ok].
Qed.

Lemma other_fresh : opened_fresh (mkOptions (from_parts 3 3) demo_limits 2) true other0.
Proof.
  exists (1, 2), 77, (Some (created_report, inl demo_store)).
  split; [split; [apply demo_options_typed|split; in_range]|]. split; [in_range|]. split; [in_range|]. split; [in_range|].
  split; [done|]. split; [split; [done|by eexists]|exact other_open_ok].
Qed.

Definition demo_orders : list Order := (plan_script fixed_options (fun _ => 0) demo_script).1.
Definition clock_at (start : Z) (call reading : nat) : Z := start + Z.of_nat call.

Lemma demo_stored : forallb reply_stored (carry_all (clock_at 5000) demo_orders demo0).1 = true.
Proof. vm_compute. reflexivity. Qed.

Lemma other_stored : forallb reply_stored (carry_all (clock_at 90000) demo_orders other0).1 = true.
Proof. vm_compute. reflexivity. Qed.

Lemma same_evidence_same_digest_witness :
  let a := (carry_all (clock_at 5000) demo_orders demo0).2 in
  let b := (carry_all (clock_at 90000) demo_orders other0).2 in
  rs_id (im_state a) <> rs_id (im_state b) /\
  graph_digest (build_snapshot (im_state a) (im_limits a)) = graph_digest (build_snapshot (im_state b) (im_limits b)).
Proof.
  cbv zeta. split; [vm_compute; discriminate|].
  apply (same_evidence_same_digest demo_options (mkOptions (from_parts 3 3) demo_limits 2) true demo0
    (carry_all (clock_at 5000) demo_orders demo0).2 other0 (carry_all (clock_at 90000) demo_orders other0).2 demo_orders
    (clock_at 5000) (clock_at 90000) (carry_all (clock_at 5000) demo_orders demo0).1 (carry_all (clock_at 90000) demo_orders other0).1).
  - split; reflexivity.
  - exact demo_fresh.
  - exact other_fresh.
  - by destruct (carry_all (clock_at 5000) demo_orders demo0).
  - by destruct (carry_all (clock_at 90000) demo_orders other0).
  - exact demo_stored.
  - exact other_stored.
Defined.

(** The script as planned: one session and three records, all accepted. *)
Example demo_plan :
  (plan_script fixed_options (fun _ => 0) demo_script).2 = inl tt /\
  (fun order => match order with OpenOrder _ _ => 0 | PublishOrder e => hdr_generation (ev_header e) end) <$> demo_orders = [0; 1; 2; 3] /\
  record_ruling <$> (carry_all (clock_at 5000) demo_orders demo0).1 =
    [None; Some IngestDisposition.Accepted; Some IngestDisposition.Accepted; Some IngestDisposition.Accepted].
Proof. split_and!; vm_compute; reflexivity. Qed.

Definition demo_local (impl : Impl ListLog) (start : Z) : Local ListLog := mkLocal impl (clock_at start).

Lemma scripts_are_reproducible_witness :
  let '(end1, p1) := run_script fixed_options "demo" (Some demo_script) (new_process (fun _ => 1) (demo_local demo0 5000)) in
  let '(end2, p2) := run_script fixed_options "demo" (Some demo_script) (new_process (fun _ => 2) (demo_local other0 90000)) in
  let digest {S} (h : Local S) := graph_digest (build_snapshot (im_state (lc_registry h)) (im_limits (lc_registry h))) in
  end1 = end2 /\ pr_published p1 = pr_published p2 /\ pr_refused p1 = pr_refused p2 /\
  digest (pr_handle p1) = digest (pr_handle p2).
Proof.
  apply (scripts_are_reproducible fixed_options "demo" demo_script demo_options (mkOptions (from_parts 3 3) demo_limits 2) true
    (demo_local demo0 5000) (demo_local other0 90000) (fun _ => 1) (fun _ => 2)).
  - reflexivity.
  - split; reflexivity.
  - exact demo_fresh.
  - exact other_fresh.
  - exact demo_stored.
  - exact other_stored.
Defined.

Definition the_evidence (order : option Order) : Evidence :=
  match order with Some (PublishOrder e) => e | _ => ev1 end.

(** The demonstration, watched: the attachment is the third record of the session. *)
Lemma records_continue_their_session_witness :
  let p := (run_script fixed_options "demo" (Some demo_script) (new_process (fun _ => 0) (mkTraced (demo_local demo0 5000) []))).2 in
  tr_orders (pr_handle p) = demo_orders /\
  in_sequence (take 3 demo_orders) (the_evidence (demo_orders !! 3%nat)) /\
  hdr_generation (ev_header (the_evidence (demo_orders !! 3%nat))) = 3.
Proof.
  cbv zeta. split; [vm_compute; reflexivity|]. split; [|vm_compute; reflexivity].
  destruct (records_continue_their_session fixed_options "demo" demo_script (fun _ => 0) (demo_local demo0 5000))
    as (ending & p & q & Ep & _ & _ & Hseq).
  apply (Hseq (take 3 demo_orders) (the_evidence (demo_orders !! 3%nat)) []).
  change p with (snd (ending, p)). rewrite <- Ep. vm_compute. reflexivity.
Defined.

(** ** Over the wire *)

Definition wire_script : Text := text_lines
  ["source 00000000000000000000000000000007 scanner Observed 5"; "object 00000000000000000000000000000001 A-1 1"].
Definition wire_orders : list Order := (plan_script fixed_options (fun _ => 0) wire_script).1.
Definition wire_evidence : Evidence := the_evidence (wire_orders !! 1%nat).
Definition wire_source : SourceDescriptor :=
  mkSourceDescriptor (from_parts 0 7) "scanner" (mkAuthority AuthorityClass.Observed 5) "cli".

Lemma wire_orders_are : wire_orders = [OpenOrder wire_source 1; PublishOrder wire_evidence].
Proof. vm_compute. reflexivity. Qed.

Lemma wire_requests_ok : request_ok demo_limits (OpenSessionCall wire_source 1) /\ request_ok demo_limits (PublishCall wire_evidence).
Proof.
  split.
  - split; [repeat split; first [in_range | repeat constructor; in_range]|]. split; [in_range|].
    split; vm_compute; (reflexivity || discriminate).
  - split; [|split; vm_compute; (reflexivity || discriminate)].
    repeat split; first [in_range | repeat constructor; in_range].
Qed.

(** The registry after the session of the script. *)
#[local] Abbreviation wire_registry :=
  (carry_out (cx_clock demo_connection 0%nat) (OpenOrder wire_source 1) (registry_of demo_connection)).2.

Lemma wire_open_answer :
  (local_call (OpenSessionCall wire_source 1) (cx_clock demo_connection 0%nat) (registry_of demo_connection)).1 =
  inl (mkOpenSession OpenSessionDisposition.Opened (mkKey (from_parts 0 7) 1) 0 0 "the source was registered").
Proof. vm_compute. reflexivity. Qed.

Lemma wire_publish_answer :
  (local_call (PublishCall wire_evidence) (cx_clock demo_connection 1%nat) wire_registry).1 =
  inl (mkIngestResult IngestDisposition.Accepted (from_parts 65053567530041344 1) EvidenceKind.RegisterObject 1 2000 "").
Proof. vm_compute. reflexivity. Qed.

Lemma wire_open_reply :
  reply_ok demo_limits (OpenSessionCall wire_source 1)
    (local_call (OpenSessionCall wire_source 1) (cx_clock demo_connection 0%nat) (registry_of demo_connection)).1.
Proof.
  rewrite wire_open_answer. split; [repeat split; in_range|]. split; [discriminate|].
  split; vm_compute; (reflexivity || discriminate).
Qed.

Lemma wire_publish_reply :
  reply_ok demo_limits (PublishCall wire_evidence)
    (local_call (PublishCall wire_evidence) (cx_clock demo_connection 1%nat) wire_registry).1.
Proof.
  rewrite wire_publish_answer. split; [|split; vm_compute; (reflexivity || discriminate)]. repeat split; in_range.
Qed.

Lemma wire_fits : all_fit demo_limits (cx_clock demo_connection) wire_orders (registry_of demo_connection).
Proof.
  rewrite wire_orders_are. destruct wire_requests_ok as [Hopen Hpublish].
  exact (conj Hopen (conj wire_open_reply (conj Hpublish (conj wire_publish_reply I)))).
Qed.


(** ** What the tool does not check *)

(** Naming a source again starts its counter again: the records of the script are
    numbered 1, 2, 1, and the third, which differs from the first, is refused. *)
Example repeated_source_restarts :
  let script := text_lines
    ["source 00000000000000000000000000000001 scanner Observed 5"; "object 00000000000000000000000000000001 A-1 2";
     "endpoint 00000000000000000000000000000001 leaf 2"; "source 00000000000000000000000000000001 scanner Observed 5";
     "object 00000000000000000000000000000001 A-2 2"] in
  let orders := (plan_script fixed_options (fun _ => 0) script).1 in
  (omap (fun order => match order with OpenOrder _ _ => None | PublishOrder e => Some (hdr_generation (ev_header e)) end) orders = [1; 2; 1]) /\
  record_ruling <$> (carry_all (clock_at 5000) orders demo0).1 =
    [None; Some IngestDisposition.Accepted; Some IngestDisposition.Accepted; None; Some IngestDisposition.RefusedConflict].
Proof. split; vm_compute; reflexivity. Qed.

(** A session that is refused is not noticed: the incarnation 0 is invalid, the
    script prints nothing about it and succeeds. *)
Example refused_session_is_unnoticed :
  let script := text_lines ["source 00000000000000000000000000000001 scanner Observed 5 0"] in
  let '(replies, _) := carry_all (clock_at 5000) (plan_script fixed_options (fun _ => 0) script).1 demo0 in
  let '(ending, p) := run_script fixed_options "s" (Some script) (new_process (fun _ => 0) (demo_local demo0 5000)) in
  (fun reply => match reply with OpenReply r => Some (os_disposition r) | _ => None end) <$> replies =
    [Some OpenSessionDisposition.RefusedInvalid] /\
  ending = inl tt /\ pr_refused p = 0 /\ pr_out p = [] /\ pr_err p = [].
Proof. vm_compute. split_and!; reflexivity. Qed.

(** A number is cut to its width: rank 4294967301 is rank 5, and [-1] is the
    largest port index. *)
Example numbers_are_cut :
  (option_map (fun r => auth_rank (src_authority r.1))
     (match read_source ["00000000000000000000000000000001"; "scanner"; "Observed"; "4294967301"] 0 with
      | inl r => Some r | inr _ => None end) = Some 5) /\
  parse_u64 "-1" "port index" = inl (2 ^ 64 - 1).
Proof. split; vm_compute; reflexivity. Qed.

(** ** One-shot commands *)

Definition demo_files (inline : InlineFile) (stale : Text) : Files :=
  mkFiles (fun path => if String.eqb path kInlinePath then Some stale else None) inline (fun _ => true).
Definition retire_argv : list string := ["--store"; "registry.log"; "retire"; "00000000000000000000000000000001"].
Definition open_demo (o : Options) : Outcome (Local ListLog) := inl (demo_local demo0 5000).

Lemma one_shot_commands_fail_witness :
  exists p, cli_main open_demo (demo_files (Written 100) []) (fun _ => 0) retire_argv = (2, Some p) /\
    pr_handle p = demo_local demo0 5000 /\ pr_out p = [].
Proof.
  apply (one_shot_commands_fail open_demo (demo_files (Written 100) []) (fun _ => 0) retire_argv
    (store_option "registry.log" default_cli_options) "retire" ["00000000000000000000000000000001"] (demo_local demo0 5000)).
  - vm_compute. reflexivity.
  - apply list_elem_of_In. cbn. tauto.
  - reflexivity.
  - reflexivity.
  - discriminate.
Defined.

(** A disk that is full: success, and nothing was done. *)
Example full_disk_succeeds : (cli_main open_demo (demo_files (Written 0) []) (fun _ => 0) retire_argv).1 = 0.
Proof. vm_compute. reflexivity. Qed.

(** A file that cannot be written: what it held is executed instead of the command. *)
Example stale_script_runs :
  let '(code, p) := cli_main open_demo (demo_files Unopened demo_script) (fun _ => 0) retire_argv in
  code = 0 /\ (pr_published <$> p) = Some 3.
Proof. vm_compute. by split. Qed.
