(* ===== verification/Disk.v ===== *)
(** * The registry on its file

    The theorems about the registry are proved for any [AppendLog], and the store
    is one.  Put together they speak of bytes: a registry that ran on a file, was
    cut off at some point, and is opened on what the file then holds. *)
From stdpp Require Import gmap.
From S2P Require Import Prelude OrdMap Types Ids Graph Codec Serialization State StateCodec Fold Derive Log Digest FileIo Store StoreFrame StoreOpen DurableLog StoreGuarantees Admit Ingest Session Recovery Invariant WellFormed Replica Views Fencing Durability Restart Delivery Guarantees Scenarios.
#[local] Open Scope string_scope.
#[local] Open Scope Z_scope.

(** The log a store fresh from [store_open] gives the registry. *)
Definition log_of (options : StoreOptions) (w : World) (s : Store) (h : list Z) (records : list LogRecord)
    (Hsane : sane_options options) (Hsteady : steady w) (Hopens : opens options w s h records) : DurableLog options :=
  mkDurable (mkMachine s w) records (f_equal st_options (os_store _ _ _ _ _ Hopens)) Hsteady
    (opens_rep options w s h records Hsane Hopens).

Section disk.
Context {options : StoreOptions}.
Implicit Types d : DurableLog options.

(** The bytes of the file of a log, and those behind its records. *)
Definition disk_bytes d : list Z := content_of (so_path options) (ma_world (dl_machine d)).

Definition leftover d : list Z :=
  drop (Z.to_nat (sp_offset (position_after start_position (dl_records d)))) (disk_bytes d).

(** The file is the log and what is left over. *)
Lemma file_splits d :
  exists h, header_ok h /\ disk_bytes d = (log_file h (dl_records d) ++ leftover d)%list.
Proof.
  destruct (rep_content _ _ (dl_rep d)) as (h & tail & Hh & Hc). rewrite (dl_options d) in Hc. fold (disk_bytes d) in Hc.
  exists h. split; [done|]. unfold leftover. rewrite Hc. do 2 f_equal. rewrite <- (log_file_length h) by done. unfold zlen.
  by rewrite Nat2Z.id, drop_app_length.
Qed.

(** Opening the file of a log that was cut off in an append. *)
Lemma log_reopens d w :
  valid_options options -> torn_tail options (position_after start_position (dl_records d)) (leftover d) ->
  reliable w -> content_of (so_path options) w = disk_bytes d ->
  exists report d' d'', store_open options w = (ma_world (dl_machine d'), (report, inl (ma_store (dl_machine d')))) /\
    rr_created report = false /\ log_visit (S := DurableLog options) d' = (d'', (dl_records d, inl tt)).
Proof.
  intros Hv Htorn Hw Hc. destruct (file_splits d) as (h & Hh & Hsplit). rewrite <- Hc in Hsplit.
  pose proof (sr_fits _ _ (dl_rep d)) as Hr. rewrite (dl_options d) in Hr.
  destruct (store_open_complete options h (dl_records d) (leftover d) w Hv Hw Hh Hr Hsplit Htorn)
    as (w' & report & s & Hopen & Hw' & Hop & Hcr & _).
  assert (Hsteady : steady w') by (unfold steady; destruct Hw' as [-> _]; constructor).
  exists report, (log_of options w' s h (dl_records d) (vo_sane _ Hv) Hsteady Hop). eexists.
  split_and!; [exact Hopen|done|]. cbn [log_visit durable_log]. unfold durable_visit, log_of. cbn [dl_machine dl_records].
  f_equal. destruct (store_visit (mkMachine s w')) as [m [visited o]] eqn:E.
  destruct (opens_visit _ _ _ _ _ _ _ _ (vo_sane _ Hv) Hop E) as [_ Hvis]. by destruct (Hvis Hw') as [-> ->].
Qed.

(** Creating a store in a steady world. *)
Lemma log_created w w' report s :
  sane_options options -> steady w' -> content_of (so_path options) w = [] ->
  store_open options w = (w', (report, inl s)) ->
  rr_created report = true /\ exists d, dl_machine d = mkMachine s w' /\ dl_records d = [].
Proof.
  intros Hs Hst Hc Hopen. apply store_open_sound in Hopen as (h & records & tail & Hop & Hcase); [|rewrite Hc; constructor].
  destruct Hcase as [[Hl _]|(_ & -> & Hcr)].
  { rewrite Hc in Hl. symmetry in Hl. apply app_eq_nil in Hl as [Hl _].
    by apply log_file_nonempty in Hl; [|destruct Hop]. }
  split; [done|]. by exists (log_of options w' s h [] Hs Hst Hop).
Qed.
End disk.

(** C2: The registry survives a crash, down to the bytes of its file. Open a
    registry on a store that [Store::Open] created, in a steady world (transfers may
    be short, other calls succeed, until from some call on every call fails),
    and run any sequence of ingests, batches, session opens and closes, closes
    and compactions of states whose image fits its reader. Suppose the file then
    holds, behind the records of the acknowledged calls, nothing or the beginning
    of one more frame. Opening the store again on these bytes succeeds under
    either recovery policy, and the registry opened on it has the identity, the
    canonical snapshot and the evidence of the one that stopped (its session
    records are not compared): every port shows the same topology when recovered
    evidence counts, and is unknown when only live evidence does. *)
Theorem disk_restart_recovers options soptions w0 w1 report s (d0 : DurableLog soptions) draws now
    (impl0 impl : Impl (DurableLog soptions)) d w draws' now' :
  typed_options options -> is_u64 draws.1 -> is_u64 draws.2 -> is_i64 now -> valid_options soptions ->
  content_of (so_path soptions) w0 = [] -> store_open soptions w0 = (w1, (report, inl s)) ->
  dl_machine d0 = mkMachine s w1 -> dl_records d0 = [] ->
  registry_open options draws now (Some (report, inl d0)) = inl impl0 ->
  rtc durable_step impl0 impl -> im_store impl = Some d ->
  torn_tail soptions (position_after start_position (dl_records d)) (leftover d) ->
  reliable w -> content_of (so_path soptions) w = disk_bytes d ->
  exists report' (d' : DurableLog soptions) impl',
    store_open soptions w = (ma_world (dl_machine d'), (report', inl (ma_store (dl_machine d')))) /\
    registry_open options draws' now' (Some (report', inl d')) = inl impl' /\ recovered impl impl'.
Proof.
  intros Hopt Hd1 Hd2 Hn Hv Hc Hopen Hm Hr0 Hreg Hsteps Hst Htorn Hw Hcw.
  assert (Hsteady : steady w1) by (pose proof (dl_steady d0) as Hs; by rewrite Hm in Hs).
  destruct (log_created w0 w1 report s (vo_sane _ Hv) Hsteady Hc Hopen) as [Hcr _].
  destruct (log_reopens d w Hv Htorn Hw Hcw) as (report' & d' & d'' & Hopen' & Hcr' & Hvis).
  assert (Hlog : logged impl = dl_records d) by (unfold logged; by rewrite Hst).
  destruct (restarted options draws now report d0 impl0 impl draws' now' report' d' d'')
    as (impl' & Ho & Hrec); [done|done|done|done|done|done|done|done|by rewrite Hlog|done|].
  by exists report', d', impl'.
Qed.

(** ** A registry on a file *)

Definition disk_options : StoreOptions := mkStoreOptions "registry.log" 65536 1048576 1000 true RecoveryPolicy.Strict.

(** The calls succeed until the third evidence record is written, of which only
    fifty bytes arrive. *)
Definition disk_world : World :=
  mkWorld ∅ (repeat Done 12 ++ [Short 50])%list (Some "the process stopped").

Definition disk_created : World * (RecoveryReport * Outcome Store) := store_open disk_options disk_world.

Lemma disk_options_valid : valid_options disk_options.
Proof. split; vm_compute; discriminate || reflexivity. Qed.

Lemma disk_created_steady : steady disk_created.1.
Proof. vm_compute. repeat constructor. Qed.

Lemma disk_created_opens : opens disk_options disk_created.1 (store_of disk_created) file_header [].
Proof. split; [apply file_header_ok|constructor|vm_compute; reflexivity|vm_compute; reflexivity]. Qed.

Definition disk_log : DurableLog disk_options :=
  log_of disk_options disk_created.1 (store_of disk_created) file_header []
    (vo_sane _ disk_options_valid) disk_created_steady disk_created_opens.

Definition disk_open : Outcome (Impl (DurableLog disk_options)) :=
  registry_open demo_options (7, 9) 1000 (Some (disk_created.2.1, inl disk_log)).
Definition disk0 : Impl (DurableLog disk_options) := the (fresh_impl demo_options 1000) disk_open.
Definition disk1 : Impl (DurableLog disk_options) := sent ev3 (sent ev2 (sent ev1 (opened 1 5 1 disk0))).
Definition disk_final : DurableLog disk_options := default disk_log (im_store disk1).
Definition disk_after : World := set_files {[ "registry.log" := disk_bytes disk_final ]} empty_world.

Lemma the_inl {A} (d : A) (o : A + Error) : (if o then true else false) = true -> o = inl (the d o).
Proof. by destruct o. Qed.

Lemma default_some {A} (d : A) (o : option A) : (if o then true else false) = true -> o = Some (default d o).
Proof. by destruct o. Qed.

Lemma disk_steps : rtc durable_step disk0 disk1.
Proof.
  eapply rtc_l; [apply durable_call, (opened_step 1 5 1); in_range|].
  eapply rtc_l; [apply durable_call, (sent_step ev1), ev1_typed|].
  eapply rtc_l; [apply durable_call, (sent_step ev2), ev2_typed|].
  apply rtc_once, durable_call, (sent_step ev3), ev3_typed.
Qed.

Lemma disk_torn : torn_tail disk_options (position_after start_position (dl_records disk_final)) (leftover disk_final).
Proof.
  right. exists (RecordKind.Evidence, enc_take (encode_evidence_record demo_limits ev3 2000 new_encoder)), 50%nat.
  split_and!; [vm_compute; discriminate|lia|vm_compute; lia|vm_compute; reflexivity].
Qed.

Lemma disk_after_bytes : content_of (so_path disk_options) disk_after = disk_bytes disk_final.
Proof. unfold disk_after. generalize (disk_bytes disk_final). intros bytes. vm_compute. reflexivity. Qed.

Lemma disk_restart_recovers_witness :
  exists report' (d' : DurableLog disk_options) impl',
    store_open disk_options disk_after = (ma_world (dl_machine d'), (report', inl (ma_store (dl_machine d')))) /\
    registry_open demo_options (1, 2) 5000 (Some (report', inl d')) = inl impl' /\ recovered disk1 impl'.
Proof.
  apply (disk_restart_recovers demo_options disk_options disk_world disk_created.1 disk_created.2.1
           (store_of disk_created) disk_log (7, 9) 1000 disk0 disk1 disk_final disk_after (1, 2) 5000).
  - apply demo_options_typed.
  - in_range.
  - in_range.
  - in_range.
  - apply disk_options_valid.
  - vm_compute. reflexivity.
  - vm_compute. reflexivity.
  - reflexivity.
  - reflexivity.
  - apply the_inl. vm_compute. reflexivity.
  - apply disk_steps.
  - apply default_some. vm_compute. reflexivity.
  - apply disk_torn.
  - split; reflexivity.
  - apply disk_after_bytes.
Defined.

(** The interrupted record was refused, and is not recovered. *)
Example disk_run :
  length (dl_records disk_final) = 4%nat /\ zlen (leftover disk_final) = 50 /\
  pv_state (derive_port_view (im_state disk1) demo_limits (port 1 0) ValidationPolicy.IncludeAll)
    = PortAttachmentState.Unknown.
Proof. vm_compute. done. Qed.
